(* ===== verification/_CoqProject ===== *)
-Q . S2P
Prelude.v
Region.v
Plan.v
Closure.v
Executor.v
Driver.v
Destructors.v
Shards.v
Workers.v
ScopedThreads.v
PartitionMap.v
AutoTraits.v
Token.v
Reborrow.v
Scope.v
BrandLock.v
Frames.v
Views.v
Cow.v
Atomic.v
AtomicPhases.v
AtomicUpdate.v
AtomicTraits.v
Reentrant.v
ThreadCached.v
DequePartition.v
BrandedVec.v
Draining.v
BrandedDeque.v
CowViews.v
VecPermits.v
RingPermits.v
Calls.v
Captures.v
CollectionPartition.v
Format.v
UnitTests.v
Examples.v
DocTests.v
BuildScript.v
