(* ===== verification/Prelude.v ===== *)
(** * Melinoe: a verification development

    Melinoe is a Rust library of branded access capabilities: cells whose
    interior mutability is unlocked by zero-sized tokens, parallel drivers that
    hand disjoint shards of a branded region to threads, and what is built on
    them (collections, atomics, re-entrancy gates, per-thread caches).  Safety
    rests on two arguments the compiler cannot check by itself: that the token
    rules exclude aliasing brand-wide, and that the [unsafe] code of the drivers
    (raw sub-slices, an uninitialised out-buffer, unwinding) keeps its promises.
    This development states and proves both on definitions translated from
    [src/], and the functional behaviour of the parts around them.

    ** The files, and the code they model

    - [Prelude]: outcomes (a value, a panic with its payload, undefined
      behaviour), the state monad [M] whose state survives a panic, [usize]
      arithmetic in both build profiles, lists indexed by [Z], tactics.
    - [Region] ([src/region/]): [WriterShard], [ShardChunks], [ParChunks] as
      ranges of one allocation; the raw-parts sub-slice is [UB] out of bounds.
    - [Plan] ([sync/scoped/partition/plan.rs]): partition plans and the chunk
      length they resolve to.
    - [Closure]: the client's closures as trees of accesses of their shard;
      single-access interleavings of threads on one region.
    - [Executor] ([executor.rs]): the registry slot and the contract of a
      parallel executor (class [ExecutorContract]).
    - [Driver] ([driver_core.rs]): the engine [drive]: task wrapper, panic mutex,
      out-buffer with its slots and flags, the drop guard, whose [drop] runs at
      every exit of [drive] ([with_guard]) and is disarmed by the epilogue, the
      scoped-thread path; a second drop of a slot, a second free of the buffer and
      a drop after the free are [UB]; class [IndependentTasks] is what the engine
      needs of its tasks.
    - [Destructors] ([driver_core.rs]): the engine with results whose destructors
      may panic, in the epilogue, in the drop guard and on the scoped path.
    - [Shards]: tasks on pairwise disjoint shards are [IndependentTasks].
    - [Workers] ([driver_core.rs], [task_wrapper] and its mutex): the invocations
      of a registered executor in flight at once, one shard access, slot write,
      flag store or mutex operation at a time ([engine_step]).
    - [ScopedThreads] ([driver_core.rs], the scoped path): the calling thread's
      spawns, inline task, joins and the end of the scope, with the accesses of
      the spawned threads between them ([main_step], [thread_step]).
    - [PartitionMap] ([map.rs], [read_map.rs]): the twelve partition drivers;
      class [CallEnv] is what they need of executors and schedules.
    - [AutoTraits] (every struct, [static_assertions.rs]): the types as
      expressions; [Send], [Sync], [Copy], size and alignment computed from them.
    - [Token] ([src/token/], [src/sync/tokens/], [src/cell/melinoe_cell.rs],
      [reference.rs]): a machine of tokens, permits, cells and guards; [exec] is
      one operation, [reachable] what a program without [new_unchecked] reaches.
    - [BrandLock] ([src/token/capability.rs]): the abstract readers-writer lock a
      brand is to its clients; class [BrandPhases] is the interface of a machine
      with brands, with instances for those of [Token], [Views], [Frames],
      [AtomicPhases] and [VecPermits].
    - [Reborrow] ([src/token/capability.rs]): the token machine with permits that
      functions are given and reborrow, put aside one above the other meanwhile.
    - [Views] ([melinoe_cell.rs]: [from_mut], [from_mut_slice], [Default], [From]):
      the token machine with plain values and the views that borrow them.
    - [Scope] ([brand.rs], [sync/scoped/mod.rs]): brand scopes and the exclusive
      handoff over that machine.
    - [Frames] ([brand.rs], [src/sync/], [reentrant/gate.rs], [reset.rs]): the calls
      that own a brand, and the gates, as frames on the threads' stacks in the token
      machine; [leave] is a return or one step of unwinding.
    - [Cow] ([src/cell/slice.rs], [cow.rs]): slice views, [Cow] policies; [CowViews]:
      the trait [CellCowExt] as a class with its contract ([CowLaws]: which views
      are in place and which are copies), met by slices, vectors and deques.
    - [Atomic] ([src/atomic/]): orderings, policies, the standard atomics, the
      [fetch_update] loop, every method of [BrandedAtomic].
    - [AtomicPhases] ([src/atomic/branded.rs]): branded integer atomics in the
      token machine; [aexec] is one operation of one thread, plain under a write
      permit or atomic under a read permit.
    - [AtomicUpdate] ([branded.rs], [fetch_update]): the loop one access at a time
      among the other operations of that machine; [AtomicTraits] ([traits.rs],
      [branded.rs], [order.rs]): the traits as classes with laws ([AtomicLaws]), the
      standard atomics as instances, the branded methods with run-time orderings
      and with policies over the classes, and the accesses they make.
    - [Reentrant] ([src/reentrant/]), [ThreadCached] ([src/thread_cached.rs]).
    - [BrandedVec] and [BrandedDeque] ([src/collections/]): the operations on
      the standard [Vec] and [VecDeque], with ownership logs; classes [Allocator]
      and [Ring] are what the standard library leaves open.  [Draining] has the
      draining iterator as a value that is advanced, dropped or forgotten;
      [VecPermits] vectors in the token machine, whose views lend guards, and
      [RingPermits] deques, whose elements are in the slots of a ring buffer.
    - [Calls] ([map.rs], [driver_core.rs], [executor.rs]): the token machine, the
      registry and any number of partition calls in flight, each on cells that are
      its own, one step of [Workers] or [ScopedThreads] at a time; [Captures]: the
      same with closures that capture guards on other cells, for the tasks to read.
    - [DequePartition] ([collections/deque/partition.rs]): the shard plan of a
      deque and its drivers; [CollectionPartition]: the collections' partition
      methods, over both of the above and the drivers.
    - [Format] (the [Debug] and [Display] impls); [Examples] ([examples/]): the
      example programs on the machine of cells and atomics, and the codegen
      probes beside their raw counterparts; [UnitTests] and [DocTests]: the tests
      inside the modules and the examples of the documentation, as programs;
      [BuildScript] ([build.rs]).

    In each file a part's state is a record, an operation a definition that
    follows the code's branches, and the properties come last, each with a
    concrete instance of its hypotheses.

    ** What the theorems show

    - Exclusion: in every reachable state of the token machine two guards of a
      brand overlap only if both read; what a guard sees is its own; thread
      confinement of tokens and of payloads; brands are generative; the safety
      of the gates under the contract of [enter_unguarded].  Each [unsafe] entry
      point is also shown to need its contract.
    - The drivers: tiling without overlap, gap or overflow; results in partition
      order and the region as if each shard had been processed alone, for every
      plan, executor and schedule; panics are re-raised after all tasks have run;
      no result is leaked or dropped twice when tasks or the executor unwind, and
      exactly which are leaked when a destructor panics as well.
    - Data-race freedom as determinism: for closures on disjoint shards every
      interleaving of single accesses that ends does so like the sequential run.
    - Refinement: concurrent workers refine the sequential engine and the
      scoped threads its scoped path, so the drivers' theorems hold of both; calls in
      flight among everything else a program does refine calls that happen at once,
      and what their tasks read through captured guards is what is there then;
      no schedule deadlocks or runs for ever.  A brand refines a readers-writer
      lock, in-place views refine the token machine, a branded atomic refines a
      sequential register, and its plain and atomic phases never meet,
      but for its [Debug] implementation, which is shown to break this; a
      [fetch_update] among other threads' operations takes effect at one step and
      ends once they leave it alone; a vector or deque behind permits refines that of
      its owner, and its elements stay where they are while a guard is live; guards
      on a deque reach different slots of its buffer unless both read; a program that
      reborrows its permits refines one in which only owners borrow their tokens.
    - Scopes and gates: a brand lives exactly as long as the call that minted it, a
      gate has at most one of all the tokens it ever handed out, unwinding gives
      both back.
    - Collections: ownership of every value whatever panics; round trips; the
      ring's two slices; partitioning of a deque front to back.
    - Atomics, policies, plans and layout: functional behaviour on every branch,
      wrap-around at the integer's width, which orderings each method uses and
      which are rejected, the compile-time assertions.

    ** Bounds and fuel

    [usize] is 64 bits wide.  A slice of non-zero-sized cells has at most
    [isize::MAX] elements ([slice_ok]); [Region.par_range_overflow_zst] shows
    what happens beyond.  Four definitions take fuel: [Region.Chunks.collect]
    and [DequePartition.plan_loop] need one unit per tile, the [fetch_update]
    loop one per attempt, [Frames.unwind_to] one per frame; the theorems about
    them state that this much is enough and that a result is then returned.
    ([AtomicTraits.once] gives that loop one attempt, which is enough as nothing
    interferes there.)  Closures are finite trees; the step relations take no fuel,
    a schedule being a list, and those of the engine are shown well founded.

    ** Not modelled

    Weak-memory effects of atomic orderings (an atomic operation is one step of
    an interleaving); closures of different tasks that share state they write (the
    engine's tasks are independent; what they may share is what [Captures] lets them
    read); closures that do not terminate; panics while a panic payload is dropped;
    failure to spawn a thread or to allocate; that an in-place view is at the address
    of its value (the cast's and the layout's doing, see [Views]); the allocator's and the standard
    collections' own code (classes with the laws they document); how the compiler
    infers lifetimes (a borrow ends at an explicit step of the program); raw
    pointers given out by [as_ptr]; atomics of pointers and booleans in
    [AtomicPhases] (their operations are those of [Atomic] and [AtomicTraits]); the
    multi-line form of [Debug]; the machine code the codegen probes are about; the
    device contract crate, four lines that re-export another crate's interface;
    tests and benches outside [src/src]; the module declarations of [src/lib.rs].

    What remains of the lines of [src/src] that no definition translates is
    documentation, attributes, re-exports and the heads of macros. *)
From stdpp Require Import base list gmap numbers relations.

Declare Scope mel_scope.
Delimit Scope mel_scope with mel.

#[export] Set Default Goal Selector "!".
#[export] Set Warnings "-clear-no-such-hyp,-level-tolerance".

(** ** Outcomes: how a Rust computation ends *)

(** The payload a panic unwinds with.  All but the last are raised by the
    language or its standard library; [UserPanic] is a payload raised by a
    closure of the client. *)
Inductive panic_payload : Type :=
| OverflowPanic        (* arithmetic overflow, checked builds *)
| BoundsPanic          (* index or split point out of bounds *)
| DivZeroPanic         (* division by zero *)
| OrderingPanic        (* an ordering the atomic operation rejects *)
| AssertPanic          (* a failed (debug) assertion *)
| CapacityPanic        (* a collection would exceed [isize::MAX] bytes *)
| UserPanic (code : Z).

(** A computation returns, unwinds, or has undefined behaviour.  [UB] is what
    an [unsafe] operation does when its contract is violated. *)
Inductive outcome (A : Type) : Type :=
| Ret (a : A)
| Panic (p : panic_payload)
| UB.
Arguments Ret {A} a.
Arguments Panic {A} p.
Arguments UB {A}.

#[export] Instance outcome_ret : MRet outcome := fun A a => Ret a.
#[export] Instance outcome_bind : MBind outcome := fun A B f m =>
  match m with Ret a => f a | Panic p => Panic p | UB => UB end.
#[export] Instance outcome_fmap : FMap outcome := fun A B f m =>
  match m with Ret a => Ret (f a) | Panic p => Panic p | UB => UB end.
#[export] Instance panic_payload_eq_dec : EqDecision panic_payload.
Proof. solve_decision. Defined.
#[export] Instance outcome_eq_dec `{EqDecision A} : EqDecision (outcome A).
Proof. solve_decision. Defined.

(** The outcome is not undefined behaviour. *)
Definition defined {A} (o : outcome A) : Prop := o <> UB.

(** [is_ret o] holds of outcomes that return a value. *)
Definition is_ret {A} (o : outcome A) : bool :=
  match o with Ret _ => true | _ => false end.

(** Stateful computations: the state survives a panic, as it does in Rust. *)
Definition M (S A : Type) : Type := S -> outcome A * S.
#[export] Instance M_ret {S} : MRet (M S) := fun A a s => (Ret a, s).
#[export] Instance M_bind {S} : MBind (M S) := fun A B f m s =>
  match m s with
  | (Ret a, s') => f a s'
  | (Panic p, s') => (Panic p, s')
  | (UB, s') => (UB, s')
  end.

(** ** Machine integers: [usize] on a 64-bit target *)

Definition usize_modulus : Z := 18446744073709551616.
Definition usize_max : Z := usize_modulus - 1.
Definition isize_max : Z := 9223372036854775807.

(** A [usize] value. *)
Definition is_usize (n : Z) : Prop := (0 <= n <= usize_max)%Z.

(** The build profile: whether integer overflow is checked (a debug build
    panics) or wraps (a release build). *)
Class BuildProfile : Type := overflow_checks : bool.
Definition debug_profile : BuildProfile := true.
Definition release_profile : BuildProfile := false.

(** The value an arithmetic result takes when it must be a [usize]. *)
Definition usize_of `{BuildProfile} (n : Z) : outcome Z :=
  if decide (0 <= n <= usize_max)%Z then Ret n
  else if overflow_checks then Panic OverflowPanic
  else Ret (n mod usize_modulus)%Z.

Definition uadd `{BuildProfile} (a b : Z) : outcome Z := usize_of (a + b).
Definition usub `{BuildProfile} (a b : Z) : outcome Z := usize_of (a - b).
Definition umul `{BuildProfile} (a b : Z) : outcome Z := usize_of (a * b).
Definition udiv (a b : Z) : outcome Z :=
  if decide (b = 0)%Z then Panic DivZeroPanic else Ret (a / b)%Z.

Notation "a '+!' b" := (uadd a b) (at level 50, left associativity) : mel_scope.
Notation "a '-!' b" := (usub a b) (at level 50, left associativity) : mel_scope.
Notation "a '*!' b" := (umul a b) (at level 40, left associativity) : mel_scope.

(** ** Slices as lists indexed by [usize] *)

(** The length of a slice, as the [usize] that [len()] returns. *)
Definition zlen {A} (l : list A) : Z := Z.of_nat (length l).

(** [l.get(i)] *)
Definition zget {A} (l : list A) (i : Z) : option A :=
  if decide (0 <= i)%Z then l !! Z.to_nat i else None.

(** The elements in [start, start + len). *)
Definition subrange {A} (start len : Z) (l : list A) : list A :=
  take (Z.to_nat len) (drop (Z.to_nat start) l).

(** [l] with the elements from [start] on overwritten by [mid]. *)
Definition splice {A} (start : Z) (mid l : list A) : list A :=
  take (Z.to_nat start) l ++ mid ++ drop (Z.to_nat start + length mid) l.

(** [l[i] = x] for an in-bounds [i]. *)
Definition zset {A} (i : Z) (x : A) (l : list A) : list A :=
  <[Z.to_nat i := x]> l.

(** The sequence of indices [0, n). *)
Definition zseq (n : Z) : list Z := Z.of_nat <$> seq 0 (Z.to_nat n).

(** ** Lemmas *)

Lemma usize_of_ok `{BuildProfile} n : is_usize n -> usize_of n = Ret n.
Proof. intros Hn. unfold usize_of. by rewrite decide_True. Qed.

Lemma usize_of_cases `{BuildProfile} n m :
  usize_of n = Ret m -> is_usize m.
Proof.
  unfold usize_of, is_usize, usize_max, usize_modulus.
  destruct (decide _); [by intros [= <-]|].
  destruct overflow_checks; [done|]. intros [= <-].
  pose proof (Z.mod_pos_bound n 18446744073709551616 ltac:(lia)). lia.
Qed.

Lemma uadd_ok `{BuildProfile} a b :
  (0 <= a + b <= usize_max)%Z -> uadd a b = Ret (a + b)%Z.
Proof. apply usize_of_ok. Qed.

Lemma usub_ok `{BuildProfile} a b :
  (0 <= a - b <= usize_max)%Z -> usub a b = Ret (a - b)%Z.
Proof. apply usize_of_ok. Qed.

Lemma umul_ok `{BuildProfile} a b :
  (0 <= a * b <= usize_max)%Z -> umul a b = Ret (a * b)%Z.
Proof. apply usize_of_ok. Qed.

Lemma zlen_nonneg {A} (l : list A) : (0 <= zlen l)%Z.
Proof. unfold zlen. lia. Qed.

Lemma zlen_nil {A} : zlen (@nil A) = 0%Z.
Proof. done. Qed.

Lemma zlen_cons {A} (x : A) l : zlen (x :: l) = (1 + zlen l)%Z.
Proof. unfold zlen. cbn [length]. lia. Qed.

Lemma zlen_app {A} (l k : list A) : zlen (l ++ k) = (zlen l + zlen k)%Z.
Proof. unfold zlen. rewrite length_app. lia. Qed.

Lemma zlen_0 {A} (l : list A) : zlen l = 0%Z <-> l = [].
Proof. unfold zlen. destruct l; cbn; split; intros; [done|done|lia|done]. Qed.

Lemma zget_lt_is_Some {A} (l : list A) i :
  (0 <= i < zlen l)%Z <-> is_Some (zget l i).
Proof.
  unfold zget, zlen. destruct (decide _) as [Hi|Hi].
  - rewrite lookup_lt_is_Some. lia.
  - split; [lia|]. by intros [? [=]].
Qed.

Lemma zget_ge_None {A} (l : list A) i : (zlen l <= i)%Z -> zget l i = None.
Proof.
  intros Hi. apply eq_None_not_Some. intros Hs. apply zget_lt_is_Some in Hs. lia.
Qed.

Lemma zget_app_l {A} (l k : list A) i :
  (i < zlen l)%Z -> zget (l ++ k) i = zget l i.
Proof.
  unfold zget, zlen. intros Hi. destruct (decide _); [|done].
  apply lookup_app_l. lia.
Qed.

Lemma zget_app_r {A} (l k : list A) i :
  (zlen l <= i)%Z -> zget (l ++ k) i = zget k (i - zlen l).
Proof.
  unfold zget, zlen. intros Hi. rewrite !decide_True by lia.
  rewrite lookup_app_r by lia. f_equal. lia.
Qed.

Lemma zlen_subrange {A} start len (l : list A) :
  (0 <= start)%Z -> (0 <= len)%Z -> (start + len <= zlen l)%Z ->
  zlen (subrange start len l) = len.
Proof.
  unfold zlen, subrange. intros. rewrite length_take, length_drop. lia.
Qed.

Lemma zget_subrange {A} start len (l : list A) i :
  (0 <= start)%Z -> (0 <= i < len)%Z ->
  zget (subrange start len l) i = zget l (start + i).
Proof.
  unfold zget, subrange. intros ? [? ?]. rewrite !decide_True by lia.
  rewrite lookup_take_lt by lia. rewrite lookup_drop. f_equal. lia.
Qed.

Lemma subrange_app {A} s a b (l : list A) :
  (0 <= s)%Z -> (0 <= a)%Z -> (0 <= b)%Z ->
  subrange s a l ++ subrange (s + a) b l = subrange s (a + b) l.
Proof.
  intros. unfold subrange. rewrite !Z2Nat.inj_add by lia.
  rewrite <- drop_drop. by rewrite take_take_drop.
Qed.

Lemma subrange_all {A} (l : list A) : subrange 0 (zlen l) l = l.
Proof.
  unfold subrange, zlen. rewrite Nat2Z.id, drop_0. apply take_ge. lia.
Qed.

Lemma zlen_splice {A} start (mid l : list A) :
  (0 <= start)%Z -> (start + zlen mid <= zlen l)%Z ->
  zlen (splice start mid l) = zlen l.
Proof.
  unfold zlen, splice. intros. rewrite !length_app, length_take, length_drop. lia.
Qed.

Lemma splice_nil {A} start (l : list A) : splice start [] l = l.
Proof. unfold splice. cbn [length app]. rewrite Nat.add_0_r. apply take_drop. Qed.

Lemma subrange_splice_same {A} start (mid l : list A) :
  (0 <= start)%Z -> (start + zlen mid <= zlen l)%Z ->
  subrange start (zlen mid) (splice start mid l) = mid.
Proof.
  unfold zlen, splice, subrange. intros.
  rewrite drop_app_length' by (rewrite length_take; lia).
  by rewrite Nat2Z.id, take_app_length.
Qed.

(** Overwriting one range leaves a disjoint range as it was. *)
Lemma subrange_splice_disjoint {A} s len start (mid l : list A) :
  (0 <= s)%Z -> (0 <= len)%Z -> (0 <= start)%Z ->
  (start + zlen mid <= zlen l)%Z ->
  (s + len <= start \/ start + zlen mid <= s)%Z ->
  subrange s len (splice start mid l) = subrange s len l.
Proof.
  unfold zlen, splice, subrange. intros ? ? ? ? [Hd|Hd].
  - rewrite drop_app_le by (rewrite length_take; lia).
    rewrite take_app_le by (rewrite length_drop, length_take; lia).
    rewrite skipn_firstn_comm, take_take. f_equal. lia.
  - rewrite app_assoc, drop_app_ge by (rewrite length_app, length_take; lia).
    rewrite drop_drop, length_app, length_take. do 2 f_equal. lia.
Qed.

Lemma zlen_zset {A} i (x : A) l : zlen (zset i x l) = zlen l.
Proof. unfold zlen, zset. by rewrite length_insert. Qed.

Section zlists.
Local Open Scope Z_scope.

Lemma zset_id {A} (l : list A) i x : zget l i = Some x -> zset i x l = l.
Proof. unfold zget, zset. case_decide; [apply list_insert_id|done]. Qed.

Lemma zget_nth {A} (l : list A) (i : nat) : zget l (Z.of_nat i) = l !! i.
Proof. unfold zget. rewrite decide_True by lia. by rewrite Nat2Z.id. Qed.

Lemma zlist_eq {A} (l k : list A) :
  zlen l = zlen k -> (forall i, 0 <= i < zlen l -> zget l i = zget k i) -> l = k.
Proof.
  intros Hl Hg. apply list_eq_same_length with (length l); [unfold zlen in *; lia|done|].
  intros i x y Hi Hx Hy. specialize (Hg (Z.of_nat i) ltac:(unfold zlen; lia)).
  rewrite !zget_nth in Hg. congruence.
Qed.

Lemma zget_zset {A} (l : list A) i j x :
  0 <= i < zlen l -> 0 <= j ->
  zget (zset i x l) j = if decide (i = j) then Some x else zget l j.
Proof.
  intros Hi Hj. unfold zget, zset, zlen in *. rewrite !decide_True by lia.
  destruct (decide (i = j)) as [->|].
  - apply list_lookup_insert_eq. lia.
  - rewrite ?decide_True by lia. apply list_lookup_insert_ne. lia.
Qed.

(** A position of an overwritten list. *)
Lemma zget_splice {A} s (mid l : list A) j :
  0 <= s -> s + zlen mid <= zlen l -> 0 <= j ->
  zget (splice s mid l) j =
  if decide (s <= j < s + zlen mid) then zget mid (j - s) else zget l j.
Proof.
  intros Hs Hl Hj. unfold zget, splice, zlen in *. rewrite (decide_True (P := 0 <= j)) by lia.
  destruct (decide (s <= j < s + Z.of_nat (length mid))) as [Hin|Hout].
  - rewrite decide_True by lia. rewrite lookup_app_r by (rewrite length_take; lia).
    rewrite length_take, lookup_app_l by lia. f_equal. lia.
  - rewrite decide_True by lia. destruct (decide (j < s)).
    + rewrite lookup_app_l by (rewrite length_take; lia). apply lookup_take_lt. lia.
    + rewrite lookup_app_r by (rewrite length_take; lia).
      rewrite length_take, lookup_app_r by lia. rewrite lookup_drop. f_equal. lia.
Qed.

Lemma splice_subrange {A} s n (l : list A) :
  0 <= s -> 0 <= n -> s + n <= zlen l -> splice s (subrange s n l) l = l.
Proof.
  intros. assert (zlen (subrange s n l) = n) as E by (by apply zlen_subrange).
  apply zlist_eq; [apply zlen_splice; lia|]. intros i Hi.
  rewrite zget_splice by lia. case_decide; [|done].
  rewrite zget_subrange by lia. f_equal. lia.
Qed.

Lemma subrange_zset {A} s n i (x : A) l :
  0 <= s -> 0 <= i < n -> s + n <= zlen l ->
  subrange s n (zset (s + i) x l) = zset i x (subrange s n l).
Proof.
  intros. assert (zlen (subrange s n l) = n) by (apply zlen_subrange; lia).
  assert (zlen (subrange s n (zset (s + i) x l)) = n)
    by (apply zlen_subrange; rewrite ?zlen_zset; lia).
  apply zlist_eq; [rewrite zlen_zset; lia|]. intros j Hj.
  rewrite zget_subrange, !zget_zset, zget_subrange by lia.
  destruct (decide (i = j)); case_decide; done || lia.
Qed.

Lemma splice_zset {A} s (mid l : list A) i x :
  0 <= s -> 0 <= i < zlen mid -> s + zlen mid <= zlen l ->
  splice s mid (zset (s + i) x l) = splice s mid l.
Proof.
  intros. apply zlist_eq; rewrite ?zlen_splice, ?zlen_zset by (rewrite ?zlen_zset; lia); [done|].
  intros j Hj. rewrite !zget_splice by (rewrite ?zlen_zset; lia).
  case_decide; [done|]. rewrite zget_zset by lia. by rewrite decide_False by lia.
Qed.

Lemma subrange_zset_disjoint {A} s n i (x : A) l :
  0 <= s -> 0 <= n -> s + n <= zlen l -> 0 <= i < zlen l -> ~ (s <= i < s + n) ->
  subrange s n (zset i x l) = subrange s n l.
Proof.
  intros. assert (zlen (subrange s n (zset i x l)) = n)
    by (apply zlen_subrange; rewrite ?zlen_zset; lia).
  apply zlist_eq; [rewrite (zlen_subrange s n l); lia|]. intros j Hj.
  rewrite !zget_subrange, zget_zset by lia. by rewrite decide_False by lia.
Qed.
End zlists.

Lemma elem_of_zseq n i : i ∈ zseq n <-> (0 <= i < n)%Z.
Proof.
  unfold zseq. rewrite list_elem_of_fmap. setoid_rewrite elem_of_seq. split.
  - intros (k & -> & ?). lia.
  - intros. exists (Z.to_nat i). lia.
Qed.

Lemma zlen_zseq n : (0 <= n)%Z -> zlen (zseq n) = n.
Proof. unfold zlen, zseq. rewrite length_fmap, length_seq. lia. Qed.

Lemma zseq_split n pre i post : zseq n = pre ++ i :: post -> pre = zseq i.
Proof.
  intros Hz. assert (zseq n !! length pre = Some i) as Hi.
  { rewrite Hz. by apply list_lookup_middle. }
  unfold zseq in *. rewrite list_lookup_fmap in Hi.
  destruct (seq 0 (Z.to_nat n) !! length pre) as [k|] eqn:E; [|done].
  apply lookup_seq in E as [-> Hk]. injection Hi as <-. rewrite Nat2Z.id. cbn.
  rewrite <- (take_app_length pre (Z.of_nat (length pre) :: post)), <- Hz at 1.
  rewrite <- fmap_take, take_seq. do 2 f_equal. lia.
Qed.

Lemma zget_zseq n x : (0 <= x < n)%Z -> zget (zseq n) x = Some x.
Proof.
  intros Hx. unfold zget, zseq. rewrite decide_True by lia. rewrite list_lookup_fmap.
  rewrite lookup_seq_lt by lia. cbn. f_equal. lia.
Qed.

Lemma zlen_fmap {A B} (f : A -> B) (l : list A) : zlen (f <$> l) = zlen l.
Proof. unfold zlen. by rewrite length_fmap. Qed.

Lemma zget_fmap {A B} (f : A -> B) (l : list A) i : zget (f <$> l) i = f <$> zget l i.
Proof. unfold zget. case_decide; [apply list_lookup_fmap|done]. Qed.

Lemma NoDup_zseq n : NoDup (zseq n).
Proof. unfold zseq. apply NoDup_fmap_2; [apply _|apply NoDup_seq]. Qed.

Lemma mapM_Ret {A B} (f : A -> outcome B) (g : A -> B) (l : list A) :
  (forall x, x ∈ l -> f x = Ret (g x)) -> mapM f l = Ret (g <$> l).
Proof.
  induction l as [|x l IH]; intros Hf; [done|]. cbn.
  rewrite Hf by set_solver. cbn. rewrite IH by set_solver. done.
Qed.

Lemma mapM_Ret_inv {A B} (f : A -> outcome B) (l : list A) rs :
  mapM f l = Ret rs -> forall x, x ∈ l -> exists v, f x = Ret v.
Proof.
  revert rs. induction l as [|y l IH]; intros rs Hm x Hx; [by apply not_elem_of_nil in Hx|].
  cbn in Hm. destruct (f y) as [v| |] eqn:Ey; [|done..]. cbn in Hm.
  destruct (mapM f l) as [vs| |] eqn:El; [|done..].
  apply elem_of_cons in Hx as [->|Hx]; [by exists v|by apply (IH vs)].
Qed.

(** ** Step relations on a pool *)

(** One entry of the list takes a step. *)
Definition list_step {A} (r : A -> A -> Prop) (l' l : list A) : Prop :=
  exists t x x', l !! t = Some x /\ r x' x /\ l' = <[t := x']> l.

Lemma list_step_cons_acc {A} (r : A -> A -> Prop) x l :
  Acc r x -> Acc (list_step r) l -> Acc (list_step r) (x :: l).
Proof.
  intros Hx. revert l. induction Hx as [x Hx IHx]. intros l Hl. pose proof Hl as Hl0.
  induction Hl as [l Hl IHl]. constructor. intros l' ([|t] & y & y' & Ht & Hr & ->); cbn in *.
  - simplify_eq. by apply IHx.
  - assert (list_step r (<[t:=y']> l) l) as Hs by (by exists t, y, y').
    apply IHl; [done|by apply Hl].
Qed.

(** A pool whose entries cannot step forever cannot step forever. *)
Lemma list_step_wf {A} (r : A -> A -> Prop) : well_founded r -> well_founded (list_step r).
Proof.
  intros Hr l. induction l as [|x l IH]; [|by apply list_step_cons_acc].
  constructor. intros l' (t & x & x' & Hl & _). by rewrite lookup_nil in Hl.
Qed.

(** A step relation whose steps are mapped to steps of a well-founded one ends. *)
Lemma acc_by_measure {A B} (r : A -> A -> Prop) (q : B -> B -> Prop) (f : A -> B) :
  well_founded q -> (forall x' x, r x' x -> q (f x') (f x)) -> well_founded r.
Proof.
  intros Hq Hf x. remember (f x) as b eqn:Hb. revert x Hb.
  induction (Hq b) as [b _ IH]. intros x ->. constructor. intros x' Hx. by eapply IH; [apply Hf|].
Qed.

(** If a configuration that is not final can always step, and no schedule is
    infinite, every configuration reaches a final one. *)
Lemma acc_reaches {A} (step : A -> A -> Prop) (final : A -> Prop) x :
  (forall y, rtc step x y -> final y \/ exists z, step y z) -> Acc (flip step) x ->
  exists y, rtc step x y /\ final y.
Proof.
  intros Hp Ha. induction Ha as [x _ IH]. destruct (Hp x (rtc_refl _ _)) as [Hf|[z Hz]].
  - exists x. split; [apply rtc_refl|done].
  - destruct (IH z Hz) as (y & Hy & Hf).
    + intros y Hy. apply Hp. by eapply rtc_l.
    + exists y. split; [by eapply rtc_l|done].
Qed.

(** Sequencing and mapping in the state monad, one step at a time. *)
Lemma M_bind_eq {S A B} (c : M S A) (f : A -> M S B) s :
  (c ≫= f) s =
  match c s with
  | (Ret a, s') => f a s'
  | (Panic p, s') => (Panic p, s')
  | (UB, s') => (UB, s')
  end.
Proof. reflexivity. Qed.

Lemma M_mapM_cons {S A B} (f : A -> M S B) x l s :
  mapM f (x :: l) s =
  match f x s with
  | (Ret y, s1) =>
      match mapM f l s1 with
      | (Ret ys, s2) => (Ret (y :: ys), s2)
      | (Panic p, s2) => (Panic p, s2)
      | (UB, s2) => (UB, s2)
      end
  | (Panic p, s1) => (Panic p, s1)
  | (UB, s1) => (UB, s1)
  end.
Proof. reflexivity. Qed.

Lemma guard_Some {A} P `{Decision P} (m : option A) x :
  (guard P;; m) = Some x -> P /\ m = Some x.
Proof. case_guard; [done|discriminate]. Qed.

Lemma guard_None {A} P `{Decision P} (m : option A) : ~ P -> (guard P;; m) = None.
Proof. intros Hn. by rewrite option_guard_False. Qed.

(** ** Hints and tactics *)

Create HintDb mel discriminated.
#[export] Hint Resolve zlen_nonneg NoDup_zseq : mel.
Create Rewrite HintDb mel_len.
#[export] Hint Rewrite @zlen_nil @zlen_cons @zlen_app @zlen_zset : mel_len.

(** Unfold the machine bounds and finish by linear arithmetic. *)
Ltac ulia :=
  unfold is_usize, usize_max, isize_max, usize_modulus in *; lia.

(** Discharge the no-overflow side conditions of the machine operations. *)
Ltac uok :=
  repeat (first
    [ rewrite uadd_ok by ulia | rewrite usub_ok by ulia | rewrite umul_ok by ulia ];
    cbn [mbind outcome_bind mret outcome_ret]).
