(* ===== verification/Region.v ===== *)
(** * Region partitioning ([src/region/])

    A branded region is one allocation of cells; an exclusive slice
    [&mut [MelinoeCell]] is the range of cells it covers ([slice]).  The file
    models the ceiling division of [tiling.rs], the writer shard of [shard.rs],
    the sequential iterator of [chunks.rs] and the indexed view of
    [par_chunks.rs], with [usize] arithmetic as the build profile does it.
    Main results: the count is the exact ceiling in every profile, the indexed
    partitions are in bounds, non-empty, pairwise disjoint and cover the region,
    the iterator yields exactly the indexed partitions, and the range arithmetic
    overflows only for regions longer than [isize::MAX] (zero-sized cells). *)
From S2P Require Import Prelude.
From stdpp Require Import base numbers sets list.
Local Open Scope Z_scope.
Local Open Scope mel_scope.

(** ** Data *)

(** An exclusive borrow of consecutive cells of the allocation. *)
Record slice : Type := Slice { s_base : Z; s_len : Z }.

Record WriterShard : Type := mkShard { cells : slice }.
Record ShardChunks : Type := mkChunks { rest : option slice; chunk : Z }.
Record ParChunks : Type := mkPar { par_base : Z; par_len : Z; par_chunk : Z }.

#[export] Instance slice_eq_dec : EqDecision slice.
Proof. solve_decision. Defined.
#[export] Instance shard_eq_dec : EqDecision WriterShard.
Proof. solve_decision. Defined.

(** The cell at position [i] of the allocation lies in [s]. *)
Definition in_slice (s : slice) (i : Z) : Prop :=
  s_base s <= i < s_base s + s_len s.
#[export] Instance in_slice_dec s i : Decision (in_slice s i).
Proof. unfold in_slice. apply _. Defined.

(** Two exclusive slices that share no cell. *)
Definition slice_disjoint (s1 s2 : slice) : Prop :=
  forall i, in_slice s1 i -> in_slice s2 i -> False.

(** A slice the language can form over cells of non-zero size: its length is at
    most [isize::MAX]. *)
Definition slice_ok (s : slice) : Prop :=
  0 <= s_base s /\ 0 <= s_len s <= isize_max.

(** [slice::split_at_mut] *)
Definition split_at_mut (s : slice) (mid : Z) : outcome (slice * slice) :=
  if decide (mid <= s_len s)
  then Ret (Slice (s_base s) mid, Slice (s_base s + mid) (s_len s - mid))
  else Panic BoundsPanic.

(** [slice::from_raw_parts_mut(base + start, len)] inside the region the raw
    pointer [base] is valid for: leaving the region is undefined behaviour. *)
Definition from_raw_parts_mut (base region_len start len : Z) : outcome slice :=
  if decide (0 <= start /\ 0 <= len /\ start + len <= region_len)
  then Ret (Slice (base + start) len)
  else UB.

(** ** [tiling.rs] *)

Definition partition_count `{BuildProfile} (len chunk : Z) : outcome Z :=
  if decide (len = 0) then Ret 0
  else (d ← len -! 1; q ← udiv d chunk; 1 +! q).

(** The mathematical count: [ceil (len / chunk)]. *)
Definition tile_count (len chunk : Z) : Z :=
  if decide (len = 0) then 0 else 1 + (len - 1) / chunk.

(** ** [par_chunks.rs] *)
Module Par.

Definition new (cells : slice) (chunk_size : Z) : ParChunks :=
  mkPar (s_base cells) (s_len cells) (Z.max chunk_size 1).

Definition len `{BuildProfile} (p : ParChunks) : outcome Z :=
  partition_count (par_len p) (par_chunk p).

Definition is_empty (p : ParChunks) : bool := bool_decide (par_len p = 0).

Definition range `{BuildProfile} (p : ParChunks) (index : Z) : outcome (Z * Z) :=
  start ← index *! par_chunk p;
  end_ ← start +! par_chunk p;
  let end_ := if decide (end_ < par_len p) then end_ else par_len p in
  let start := if decide (start < par_len p) then start else par_len p in
  Ret (start, end_).

Definition get_unchecked_chunk `{BuildProfile} (p : ParChunks) (index : Z)
    : outcome WriterShard :=
  r ← range p index;
  let '(start, end_) := r in
  n ← end_ -! start;
  s ← from_raw_parts_mut (par_base p) (par_len p) start n;
  Ret (mkShard s).

End Par.

(** ** [shard.rs] *)
Module Shard.

Definition new (cells : slice) : WriterShard := mkShard cells.
Definition len (w : WriterShard) : Z := s_len (cells w).
Definition is_empty (w : WriterShard) : bool := bool_decide (s_len (cells w) = 0).

(** The cell contents a shared view reads, in the allocation [m]. *)
Definition as_slice {T} (m : list T) (w : WriterShard) : list T :=
  subrange (s_base (cells w)) (s_len (cells w)) m.

(** The exclusive view is the shard's own range of places. *)
Definition as_mut_slice (w : WriterShard) : slice := cells w.
Definition into_mut_slice (w : WriterShard) : slice := cells w.
Definition as_cells (w : WriterShard) : slice := cells w.
Definition into_cells (w : WriterShard) : slice := cells w.

Definition get {T} (m : list T) (w : WriterShard) (index : Z) : option T :=
  zget (as_slice m w) index.

Definition iter {T} (m : list T) (w : WriterShard) : list T := as_slice m w.

(** [for x in &shard] *)
Definition into_iter {T} (m : list T) (w : WriterShard) : list T := as_slice m w.

(** The place [&mut T] a bounds-checked index names. *)
Definition get_mut (w : WriterShard) (index : Z) : option Z :=
  if decide (0 <= index < s_len (cells w))
  then Some (s_base (cells w) + index) else None.

Definition iter_mut (w : WriterShard) : list Z :=
  (fun j => s_base (cells w) + j) <$> zseq (s_len (cells w)).

(** [for x in &mut shard] *)
Definition into_iter_mut (w : WriterShard) : list Z :=
  (fun j => s_base (as_mut_slice w) + j) <$> zseq (s_len (as_mut_slice w)).

Definition split_at (w : WriterShard) (mid : Z)
    : outcome (WriterShard * WriterShard) :=
  lr ← split_at_mut (cells w) mid;
  let '(l, r) := lr in
  Ret (new l, new r).

Definition chunks (w : WriterShard) (chunk_size : Z) : ShardChunks :=
  mkChunks (Some (cells w)) (Z.max chunk_size 1).

Definition par_chunks (w : WriterShard) (chunk_size : Z) : ParChunks :=
  Par.new (cells w) chunk_size.

End Shard.

(** ** [chunks.rs] *)
Module Chunks.

Definition next (c : ShardChunks) : outcome (option WriterShard * ShardChunks) :=
  match rest c with
  | None => Ret (None, c)
  | Some slice =>
      if decide (s_len slice = 0) then Ret (None, mkChunks None (chunk c))
      else
        let mid := Z.min (chunk c) (s_len slice) in
        ht ← split_at_mut slice mid;
        let '(head, tail) := ht in
        Ret (Some (Shard.new head), mkChunks (Some tail) (chunk c))
  end.

Definition remaining (c : ShardChunks) : Z :=
  match rest c with None => 0 | Some s => s_len s end.

Definition size_hint `{BuildProfile} (c : ShardChunks) : outcome (Z * option Z) :=
  shards ← partition_count (remaining c) (chunk c);
  Ret (shards, Some shards).

(** Run the iterator to its end, as a [for] loop does; [None] when the bound
    [fuel] on the number of calls of [next] is too small. *)
Fixpoint collect (fuel : nat) (c : ShardChunks) : option (outcome (list WriterShard)) :=
  match fuel with
  | O => None
  | S fuel =>
      match next c with
      | Ret (None, _) => Some (Ret [])
      | Ret (Some w, c') => fmap (M:=option) (fmap (M:=outcome) (cons w)) (collect fuel c')
      | Panic p => Some (Panic p)
      | UB => Some UB
      end
  end.

End Chunks.

(** ** Specification of a tiling *)

(** The arguments a driver builds: at least one cell per chunk, and a region a
    slice can have. *)
Definition par_ok (p : ParChunks) : Prop :=
  0 <= par_base p /\ 0 <= par_len p <= isize_max /\ 1 <= par_chunk p <= usize_max.

(** The [i]-th tile: [chunk] cells from [i * chunk] on, fewer at the end. *)
Definition tile (p : ParChunks) (i : Z) : WriterShard :=
  mkShard (Slice (par_base p + i * par_chunk p)
                 (Z.min (par_chunk p) (par_len p - i * par_chunk p))).

(** All tiles, in order. *)
Definition tiles (p : ParChunks) : list WriterShard :=
  tile p <$> zseq (tile_count (par_len p) (par_chunk p)).

(** ** Lemmas: the ceiling *)

Lemma tile_count_galois len chunk k :
  0 <= len -> 1 <= chunk -> 0 <= k ->
  (len <= k * chunk <-> tile_count len chunk <= k).
Proof.
  intros. unfold tile_count. destruct (decide (len = 0)) as [->|]; [nia|].
  pose proof (Z.div_mod (len - 1) chunk ltac:(lia)).
  pose proof (Z.mod_pos_bound (len - 1) chunk ltac:(lia)). nia.
Qed.

Lemma tile_count_lt len chunk i :
  0 <= len -> 1 <= chunk -> 0 <= i ->
  (i < tile_count len chunk <-> i * chunk < len).
Proof. intros. pose proof (tile_count_galois len chunk i). lia. Qed.

(** The textbook ceiling, which [usize::div_ceil] computes. *)
Lemma tile_count_div_ceil len chunk :
  0 <= len -> 1 <= chunk -> (len + (chunk - 1)) / chunk = tile_count len chunk.
Proof.
  intros Hl Hc. unfold tile_count. case_decide as E.
  - rewrite E. apply Z.div_small. lia.
  - replace (len + (chunk - 1)) with (len - 1 + 1 * chunk) by lia. rewrite Z.div_add by lia. lia.
Qed.

Lemma tile_count_bounds len chunk :
  0 <= len -> 1 <= chunk -> 0 <= tile_count len chunk <= len.
Proof.
  intros. split.
  - unfold tile_count. destruct (decide _); [lia|].
    pose proof (Z.div_pos (len - 1) chunk). lia.
  - apply tile_count_galois; nia.
Qed.

Lemma tile_count_pos len chunk :
  0 <= len -> 1 <= chunk -> (0 < tile_count len chunk <-> 0 < len).
Proof. intros. rewrite tile_count_lt by lia. lia. Qed.

Lemma tile_count_0 len chunk :
  0 <= len -> 1 <= chunk -> (tile_count len chunk = 0 <-> len = 0).
Proof.
  intros. pose proof (tile_count_pos len chunk). pose proof (tile_count_bounds len chunk). lia.
Qed.

(** Carving one chunk off the front lowers the count by one. *)
Lemma tile_count_step len chunk :
  0 < len -> 1 <= chunk ->
  tile_count len chunk = 1 + tile_count (len - Z.min chunk len) chunk.
Proof.
  intros Hl Hc. set (r := len - Z.min chunk len).
  pose proof (tile_count_bounds r chunk ltac:(lia) Hc) as [Hr _].
  pose proof (proj2 (tile_count_pos len chunk ltac:(lia) Hc) Hl) as Hp.
  pose proof (proj2 (tile_count_galois r chunk _ ltac:(lia) Hc Hr) ltac:(lia)).
  pose proof (proj2 (tile_count_galois len chunk (tile_count len chunk)
    ltac:(lia) Hc ltac:(lia)) ltac:(lia)).
  apply Z.le_antisymm.
  - apply tile_count_galois; nia.
  - enough (tile_count r chunk <= tile_count len chunk - 1) by lia.
    apply tile_count_galois; nia.
Qed.

Lemma partition_count_ok `{BuildProfile} len chunk :
  is_usize len -> 1 <= chunk ->
  partition_count len chunk = Ret (tile_count len chunk).
Proof.
  intros [Hl ?] Hc. unfold partition_count, tile_count, udiv.
  destruct (decide (len = 0)); [done|]. uok.
  rewrite decide_False by lia. cbn [mbind outcome_bind].
  pose proof (Z.div_pos (len - 1) chunk ltac:(ulia) ltac:(lia)).
  pose proof (Z.div_le_upper_bound (len - 1) chunk (len - 1) ltac:(lia) ltac:(nia)).
  uok. done.
Qed.

(** ** Lemmas: indexed partitions *)

Lemma range_exact `{BuildProfile} p i :
  0 <= i -> 1 <= par_chunk p -> 0 <= par_len p ->
  i * par_chunk p + par_chunk p <= usize_max ->
  Par.range p i = Ret (Z.min (i * par_chunk p) (par_len p),
                       Z.min (i * par_chunk p + par_chunk p) (par_len p)).
Proof.
  intros. unfold Par.range.
  rewrite umul_ok by nia. cbn [mbind outcome_bind].
  rewrite uadd_ok by nia. cbn [mbind outcome_bind].
  do 2 f_equal; case_decide; lia.
Qed.

(** For a region a slice can have, in-range indices never overflow. *)
Lemma par_ok_no_overflow p i :
  par_ok p -> 0 <= i < tile_count (par_len p) (par_chunk p) ->
  i * par_chunk p < par_len p /\ i * par_chunk p + par_chunk p <= usize_max.
Proof.
  intros (_ & Hl & Hc) [Hi0 Hi].
  apply tile_count_lt in Hi; [|lia..]. split; [done|].
  destruct (decide (i = 0)) as [->|]; [lia|].
  assert (par_chunk p <= i * par_chunk p) by nia. ulia.
Qed.

Lemma get_unchecked_chunk_tile `{BuildProfile} p i :
  par_ok p -> 0 <= i < tile_count (par_len p) (par_chunk p) ->
  Par.get_unchecked_chunk p i = Ret (tile p i).
Proof.
  intros Hp Hi. destruct (par_ok_no_overflow p i Hp Hi) as [Hlt Hmax].
  destruct Hp as (Hb & Hl & Hc). unfold Par.get_unchecked_chunk.
  rewrite range_exact by lia. cbn [mbind outcome_bind].
  rewrite Z.min_l by lia. rewrite usub_ok by ulia. cbn [mbind outcome_bind].
  unfold from_raw_parts_mut. rewrite decide_True by nia.
  cbn [mbind outcome_bind]. unfold tile. do 3 f_equal. lia.
Qed.

(** The tile that a cell of the region belongs to. *)
Lemma in_tile_iff p i x :
  par_ok p -> 0 <= i ->
  (in_slice (cells (tile p i)) x <->
   par_base p <= x < par_base p + par_len p /\ (x - par_base p) / par_chunk p = i).
Proof.
  intros (Hb & Hl & Hc) Hi. unfold in_slice, tile; cbn.
  pose proof (Z.div_mod (x - par_base p) (par_chunk p) ltac:(lia)).
  pose proof (Z.mod_pos_bound (x - par_base p) (par_chunk p) ltac:(lia)).
  split; intros; [split; [nia|]|split].
  - symmetry. apply (Z.div_unique_pos _ _ i (x - par_base p - i * par_chunk p)); nia.
  - nia.
  - destruct H1 as [? <-]. nia.
Qed.

(** Every position of the region is in a tile. *)
Lemma in_some_tile p x :
  par_ok p -> par_base p <= x < par_base p + par_len p ->
  exists i, 0 <= i < tile_count (par_len p) (par_chunk p) /\ in_slice (cells (tile p i)) x.
Proof.
  intros Hp Hx. pose proof Hp as (Hb & Hl & Hc).
  assert (0 <= (x - par_base p) / par_chunk p) as Hq by (apply Z.div_pos; lia).
  exists ((x - par_base p) / par_chunk p). split.
  - split; [done|]. apply tile_count_lt; [lia..|].
    pose proof (Z.mul_div_le (x - par_base p) (par_chunk p) ltac:(lia)). lia.
  - by apply in_tile_iff.
Qed.

Lemma tiles_disjoint p i j :
  par_ok p -> 0 <= i -> 0 <= j -> i <> j ->
  slice_disjoint (cells (tile p i)) (cells (tile p j)).
Proof.
  intros Hp Hi Hj Hij x. rewrite !in_tile_iff by done. intros [_ ?] [_ ?]. congruence.
Qed.

Lemma tile_nonempty p i :
  par_ok p -> 0 <= i < tile_count (par_len p) (par_chunk p) ->
  1 <= Shard.len (tile p i) <= par_chunk p.
Proof.
  intros (Hb & Hl & Hc) [Hi0 Hi]. apply tile_count_lt in Hi; [|lia..].
  unfold Shard.len, tile; cbn. lia.
Qed.

Lemma par_new_ok s chunk_size :
  slice_ok s -> is_usize chunk_size -> par_ok (Par.new s chunk_size).
Proof. intros [? ?] ?. unfold par_ok, Par.new; cbn. ulia. Qed.
#[export] Hint Resolve par_new_ok : mel.

(** ** Lemmas: the sequential iterator *)

Lemma zseq_succ n : 0 <= n -> zseq (1 + n) = 0 :: (Z.add 1 <$> zseq n).
Proof.
  intros. unfold zseq. rewrite Z2Nat.inj_add by lia.
  change (Z.to_nat 1 + Z.to_nat n)%nat with (S (Z.to_nat n)).
  cbn [seq fmap list_fmap]. rewrite <- fmap_S_seq, <- !list_fmap_compose.
  f_equal. apply list_fmap_ext. intros. unfold compose. lia.
Qed.

(** The view that is left after the first tile is taken. *)
Definition par_tail (p : ParChunks) : ParChunks :=
  let mid := Z.min (par_chunk p) (par_len p) in
  mkPar (par_base p + mid) (par_len p - mid) (par_chunk p).

Lemma par_tail_ok p : par_ok p -> par_ok (par_tail p).
Proof. unfold par_ok, par_tail; cbn. lia. Qed.

Lemma tiles_cons p :
  par_ok p -> 0 < par_len p -> tiles p = tile p 0 :: tiles (par_tail p).
Proof.
  intros Hp Hpos. pose proof Hp as (Hb & Hl & Hc). unfold tiles at 1.
  rewrite tile_count_step by lia.
  pose proof (tile_count_bounds (par_len p - Z.min (par_chunk p) (par_len p))
                (par_chunk p) ltac:(lia) ltac:(lia)) as [Hn _].
  rewrite zseq_succ by done. cbn [fmap list_fmap]. f_equal.
  unfold tiles. cbn [par_len par_chunk par_tail]. rewrite <- list_fmap_compose.
  apply list_fmap_ext. intros k i Hi.
  assert (i ∈ zseq (tile_count (par_len p - Z.min (par_chunk p) (par_len p))
            (par_chunk p))) as Hin by (by eapply list_elem_of_lookup_2).
  apply elem_of_zseq in Hin as [Hi0 Hin]. apply tile_count_lt in Hin; [|lia..].
  assert (Z.min (par_chunk p) (par_len p) = par_chunk p) as E by nia.
  unfold compose, tile, par_tail; cbn. rewrite E. do 2 f_equal; lia.
Qed.

Lemma tiles_nil p : par_ok p -> par_len p = 0 -> tiles p = [].
Proof.
  intros (_ & _ & Hc) Hl. unfold tiles. rewrite Hl.
  by rewrite (proj2 (tile_count_0 0 (par_chunk p) ltac:(lia) ltac:(lia))).
Qed.

(** The iterator state over the cells of [p]. *)
Definition chunks_of (p : ParChunks) : ShardChunks :=
  mkChunks (Some (Slice (par_base p) (par_len p))) (par_chunk p).

Lemma next_chunks_of p :
  par_ok p -> 0 < par_len p ->
  Chunks.next (chunks_of p) = Ret (Some (tile p 0), chunks_of (par_tail p)).
Proof.
  intros (Hb & Hl & Hc) Hpos. unfold Chunks.next, chunks_of; cbn.
  rewrite decide_False by lia. unfold split_at_mut; cbn. rewrite decide_True by lia.
  cbn [mbind outcome_bind]. unfold Shard.new, tile.
  by rewrite Z.mul_0_l, Z.add_0_r, Z.sub_0_r.
Qed.

Lemma next_chunks_of_empty p :
  par_len p = 0 ->
  Chunks.next (chunks_of p) = Ret (None, mkChunks None (par_chunk p)).
Proof. intros Hl. unfold Chunks.next, chunks_of; cbn. by rewrite Hl. Qed.

Lemma collect_S fuel c :
  Chunks.collect (S fuel) c =
  match Chunks.next c with
  | Ret (None, _) => Some (Ret [])
  | Ret (Some w, c') => fmap (M:=option) (fmap (M:=outcome) (cons w)) (Chunks.collect fuel c')
  | Panic p => Some (Panic p)
  | UB => Some UB
  end.
Proof. done. Qed.

Lemma collect_tiles n p :
  par_ok p -> tile_count (par_len p) (par_chunk p) = Z.of_nat n ->
  Chunks.collect (S n) (chunks_of p) = Some (Ret (tiles p)).
Proof.
  revert p. induction n as [|n IH]; intros p Hp Hn; pose proof Hp as (Hb & Hl & Hc).
  - apply tile_count_0 in Hn; [|lia..]. cbn [Chunks.collect].
    by rewrite next_chunks_of_empty, tiles_nil.
  - assert (0 < par_len p) as Hpos.
    { apply (tile_count_pos _ (par_chunk p)); lia. }
    rewrite collect_S, next_chunks_of by done.
    rewrite IH; [|by apply par_tail_ok|].
    + by rewrite (tiles_cons p).
    + rewrite tile_count_step in Hn by lia. cbn. lia.
Qed.

Lemma collect_more n m c r :
  Chunks.collect n c = Some r -> (n <= m)%nat -> Chunks.collect m c = Some r.
Proof.
  revert m c r. induction n as [|n IH]; intros m c r; [done|].
  destruct m as [|m]; [lia|]. intros Hc Hm. revert Hc. rewrite !collect_S.
  destruct (Chunks.next c) as [[[w|] c']| |]; try done.
  destruct (Chunks.collect n c') as [r'|] eqn:E; [|done].
  intros Hr. erewrite IH; [exact Hr|exact E|lia].
Qed.

(** Any number of calls above the tile count runs the iterator to its end. *)
Lemma collect_chunks fuel w chunk_size :
  slice_ok (cells w) -> is_usize chunk_size ->
  tile_count (Shard.len w) (Z.max chunk_size 1) < Z.of_nat fuel ->
  Chunks.collect fuel (Shard.chunks w chunk_size)
  = Some (Ret (tiles (Shard.par_chunks w chunk_size))).
Proof.
  intros Hs Hc Hf. set (p := Shard.par_chunks w chunk_size).
  assert (par_ok p) as Hp by (by apply par_new_ok).
  pose proof (tile_count_bounds (par_len p) (par_chunk p)
                ltac:(destruct Hp; lia) ltac:(destruct Hp; lia)) as [Hn _].
  replace (Shard.chunks w chunk_size) with (chunks_of p) by (by destruct w as [[]]).
  unfold Shard.len in Hf. change (s_len (cells w)) with (par_len p) in Hf.
  change (Z.max chunk_size 1) with (par_chunk p) in Hf.
  eapply collect_more; [apply (collect_tiles (Z.to_nat (tile_count (par_len p) (par_chunk p))))|];
    [done|lia|lia].
Qed.

(** The contents of the tiles, in order, are the contents of the region. *)
Lemma concat_tiles {T} (m : list T) p :
  par_ok p ->
  concat (Shard.as_slice m <$> tiles p) = subrange (par_base p) (par_len p) m.
Proof.
  remember (Z.to_nat (tile_count (par_len p) (par_chunk p))) as n eqn:En.
  revert p En. induction n as [|n IH]; intros p En Hp; pose proof Hp as (Hb & Hl & Hc);
    pose proof (tile_count_bounds (par_len p) (par_chunk p) ltac:(lia) ltac:(lia)).
  - assert (par_len p = 0) as Hl0 by (apply (tile_count_0 _ (par_chunk p)); lia).
    rewrite tiles_nil by done. by rewrite Hl0.
  - assert (0 < par_len p) as Hpos by (apply (tile_count_pos _ (par_chunk p)); lia).
    rewrite tiles_cons by done. cbn [fmap list_fmap concat]. rewrite IH.
    + unfold Shard.as_slice, tile, par_tail; cbn.
      rewrite Z.mul_0_l, Z.add_0_r, Z.sub_0_r, subrange_app by lia. f_equal. lia.
    + cbn. rewrite tile_count_step in En by lia. lia.
    + by apply par_tail_ok.
Qed.

(** ** Properties *)

(** The partition count is the exact ceiling of [len / chunk], in every
    build profile and for every [usize] length: the computation neither
    overflows nor divides by zero, its result is at most [len], and [k] chunks
    suffice for the region exactly when [k] is at least the count. *)
Theorem partition_count_ceiling `{BuildProfile} (len chunk : Z) :
  is_usize len -> is_usize chunk -> 1 <= chunk ->
  exists n, partition_count len chunk = Ret n /\ 0 <= n <= len /\
    forall k, 0 <= k -> (len <= k * chunk <-> n <= k).
Proof.
  intros Hl _ Hc. exists (tile_count len chunk).
  rewrite partition_count_ok by done. destruct Hl as [Hl _].
  split; [done|]. split; [by apply tile_count_bounds|].
  intros k Hk. by apply tile_count_galois.
Qed.

Lemma partition_count_ceiling_witness :
  exists n, @partition_count debug_profile usize_max 3 = Ret n /\ 0 <= n <= usize_max /\
    forall k, 0 <= k -> (usize_max <= k * 3 <-> n <= k).
Proof.
  apply (@partition_count_ceiling debug_profile usize_max 3);
    [split; vm_compute; discriminate|split; vm_compute; discriminate|vm_compute; discriminate].
Defined.

(** C17: The indexed view tiles its region: [len()] is the number of valid
    indices, each index yields a non-empty shard of at most [chunk_size] cells
    (clamped to one) that lies inside the region, and every cell of the region
    belongs to the shard of exactly one index. *)
Theorem par_chunks_tile_region `{BuildProfile} (w : WriterShard) (chunk_size : Z) :
  slice_ok (cells w) -> is_usize chunk_size ->
  exists n, Par.len (Shard.par_chunks w chunk_size) = Ret n /\
    (forall i, 0 <= i < n -> exists s,
        Par.get_unchecked_chunk (Shard.par_chunks w chunk_size) i = Ret s /\
        1 <= Shard.len s <= Z.max chunk_size 1 /\
        forall x, in_slice (cells s) x -> in_slice (cells w) x) /\
    (forall x, in_slice (cells w) x ->
        exists! i, 0 <= i < n /\ exists s,
          Par.get_unchecked_chunk (Shard.par_chunks w chunk_size) i = Ret s /\
          in_slice (cells s) x).
Proof.
  intros Hs Hc. set (p := Shard.par_chunks w chunk_size).
  assert (par_ok p) as Hp by (by apply par_new_ok).
  exists (tile_count (par_len p) (par_chunk p)). split; [|split].
  - apply partition_count_ok; [destruct Hp; ulia|destruct Hp; lia].
  - intros i Hi. exists (tile p i). split; [by apply get_unchecked_chunk_tile|].
    split; [by apply tile_nonempty|]. intros x. rewrite in_tile_iff by (done || lia).
    by intros [? _].
  - intros x Hx. pose proof Hp as (Hb & Hl & Hc').
    exists ((x - par_base p) / par_chunk p).
    change (in_slice (cells w) x) with (par_base p <= x < par_base p + par_len p) in Hx.
    assert (0 <= (x - par_base p) / par_chunk p) as Hq0 by (apply Z.div_pos; lia).
    assert ((x - par_base p) / par_chunk p < tile_count (par_len p) (par_chunk p)) as Hq.
    { apply tile_count_lt; [lia..|].
      pose proof (Z.mul_div_le (x - par_base p) (par_chunk p)). lia. }
    split.
    + split; [lia|]. eexists. split; [by apply get_unchecked_chunk_tile|].
      by apply in_tile_iff.
    + intros j [Hj (s & Hg & Hin)]. rewrite get_unchecked_chunk_tile in Hg by done.
      injection Hg as <-. by apply in_tile_iff in Hin as [_ ?]; [|done|lia].
Qed.

Lemma par_chunks_tile_region_witness :
  slice_ok (Slice 0 10) /\
  exists n, @Par.len release_profile (Shard.par_chunks (mkShard (Slice 0 10)) 3) = Ret n /\ n = 4.
Proof.
  assert (slice_ok (Slice 0 10)) as Hs by (repeat split; vm_compute; discriminate).
  split; [exact Hs|].
  destruct (@par_chunks_tile_region release_profile (mkShard (Slice 0 10)) 3 Hs
    ltac:(split; vm_compute; discriminate)) as (n & Hn & _).
  exists n. split; [exact Hn|]. vm_compute in Hn. by injection Hn.
Defined.

(** Shards of distinct indices never alias: any two of them can be held at
    the same time, which is what the [unsafe] contract of [get_unchecked_chunk]
    asks of its implementation. *)
Theorem par_chunk_shards_disjoint `{BuildProfile} (w : WriterShard)
    (chunk_size n i j : Z) (si sj : WriterShard) :
  slice_ok (cells w) -> is_usize chunk_size ->
  Par.len (Shard.par_chunks w chunk_size) = Ret n ->
  0 <= i < n -> 0 <= j < n -> i <> j ->
  Par.get_unchecked_chunk (Shard.par_chunks w chunk_size) i = Ret si ->
  Par.get_unchecked_chunk (Shard.par_chunks w chunk_size) j = Ret sj ->
  slice_disjoint (cells si) (cells sj).
Proof.
  intros Hs Hc Hn Hi Hj Hij. set (p := Shard.par_chunks w chunk_size) in *.
  assert (par_ok p) as Hp by (by apply par_new_ok).
  unfold Par.len in Hn. rewrite partition_count_ok in Hn;
    [|destruct Hp; ulia|destruct Hp; lia]. injection Hn as <-.
  rewrite !get_unchecked_chunk_tile by done. intros [= <-] [= <-].
  apply tiles_disjoint; [done|lia|lia|done].
Qed.

Lemma par_chunk_shards_disjoint_witness :
  slice_disjoint (Slice 3 3) (Slice 9 1).
Proof.
  refine (@par_chunk_shards_disjoint debug_profile (mkShard (Slice 0 10)) 3 4 1 3
            (mkShard (Slice 3 3)) (mkShard (Slice 9 1)) _ _ _ _ _ _ _ _);
    (vm_compute; repeat split; discriminate) || (vm_compute; reflexivity) || lia.
Defined.

(** C18: The sequential iterator and the indexed view are the same partition:
    running [chunks(n)] to its end terminates (any bound above the reported
    count is enough) and yields exactly the shards that [par_chunks(n)] returns
    for the indices [0 .. len()], in order. *)
Theorem chunks_yield_par_chunks `{BuildProfile} (w : WriterShard) (chunk_size n : Z)
    (fuel : nat) :
  slice_ok (cells w) -> is_usize chunk_size ->
  Par.len (Shard.par_chunks w chunk_size) = Ret n -> n < Z.of_nat fuel ->
  exists shards, Chunks.collect fuel (Shard.chunks w chunk_size) = Some (Ret shards) /\
    mapM (Par.get_unchecked_chunk (Shard.par_chunks w chunk_size)) (zseq n) = Ret shards /\
    zlen shards = n.
Proof.
  intros Hs Hc Hn Hf. set (p := Shard.par_chunks w chunk_size) in *.
  assert (par_ok p) as Hp by (by apply par_new_ok). pose proof Hp as (_ & Hl & Hc').
  unfold Par.len in Hn. rewrite partition_count_ok in Hn by ulia. injection Hn as <-.
  exists (tiles p). split; [by apply collect_chunks|]. split.
  - apply mapM_Ret. intros i Hi%elem_of_zseq. by apply get_unchecked_chunk_tile.
  - unfold tiles, zlen. rewrite length_fmap. apply zlen_zseq.
    apply (tile_count_bounds (par_len p) (par_chunk p)); lia.
Qed.

Lemma chunks_yield_par_chunks_witness :
  exists shards, Chunks.collect 5 (Shard.chunks (mkShard (Slice 2 10)) 3) = Some (Ret shards) /\
    mapM (@Par.get_unchecked_chunk debug_profile (Shard.par_chunks (mkShard (Slice 2 10)) 3))
      (zseq 4) = Ret shards /\ zlen shards = 4.
Proof.
  apply (@chunks_yield_par_chunks debug_profile (mkShard (Slice 2 10)) 3 4 5);
    (vm_compute; repeat split; discriminate) || (vm_compute; reflexivity).
Defined.

(** [ShardChunks] is an exact-size iterator: from every state reachable by
    [chunks], the size hint is exact ([0] exactly when [next] returns [None])
    and each yielded shard lowers it by one, so a driver can reserve worker
    capacity from it. *)
Theorem shard_chunks_exact_size `{BuildProfile} (c : ShardChunks) (s : slice) :
  rest c = Some s -> slice_ok s -> 1 <= chunk c <= usize_max ->
  exists n, Chunks.size_hint c = Ret (n, Some n) /\
    match Chunks.next c with
    | Ret (None, c') => n = 0 /\ Chunks.size_hint c' = Ret (0, Some 0)
    | Ret (Some w, c') => Chunks.size_hint c' = Ret (n - 1, Some (n - 1)) /\
        exists s', rest c' = Some s' /\ slice_ok s' /\ chunk c' = chunk c /\
          s_len (cells w) + s_len s' = s_len s
    | _ => False
    end.
Proof.
  intros Hr Hs Hc. set (p := mkPar (s_base s) (s_len s) (chunk c)).
  assert (par_ok p) as Hp by (destruct Hs; unfold par_ok, p; cbn; lia).
  replace c with (chunks_of p) by (destruct c as [? ?], s; cbn in *; by subst).
  assert (forall q, par_ok q -> Chunks.size_hint (chunks_of q)
    = let n := tile_count (par_len q) (par_chunk q) in Ret (n, Some n)) as Hint.
  { intros q (? & ? & ?). unfold Chunks.size_hint, Chunks.remaining; cbn.
    by rewrite partition_count_ok by ulia. }
  exists (tile_count (par_len p) (par_chunk p)). rewrite Hint by done. split; [done|].
  destruct (decide (par_len p = 0)) as [Hl0|Hl0].
  - rewrite next_chunks_of_empty by done. by rewrite Hl0.
  - assert (0 < par_len p) by (destruct Hp; lia).
    rewrite next_chunks_of, Hint by (done || by apply par_tail_ok).
    rewrite (tile_count_step (par_len p)) by (destruct Hp; lia).
    split; [cbn; do 3 f_equal; lia|].
    pose proof (par_tail_ok p Hp) as (? & ? & ?).
    eexists. split; [done|]. unfold slice_ok. cbn in *. lia.
Qed.

Lemma shard_chunks_exact_size_witness :
  exists n, @Chunks.size_hint release_profile (Shard.chunks (mkShard (Slice 0 10)) 3)
            = Ret (n, Some n) /\ n = 4.
Proof.
  destruct (@shard_chunks_exact_size release_profile (Shard.chunks (mkShard (Slice 0 10)) 3)
    (Slice 0 10) eq_refl ltac:(repeat split; vm_compute; discriminate)
    ltac:(split; vm_compute; discriminate)) as (n & Hn & _).
  exists n. split; [exact Hn|]. vm_compute in Hn. by injection Hn.
Defined.

(** [split_at] returns two shards that share no cell, that together are the
    parent's cells and whose contents concatenate to the parent's contents;
    past the end it panics instead of returning. *)
Theorem split_at_partitions {T} (m : list T) (w : WriterShard) (mid : Z) :
  slice_ok (cells w) -> is_usize mid ->
  if decide (mid <= Shard.len w) then
    exists l r, Shard.split_at w mid = Ret (l, r) /\
      Shard.len l = mid /\ Shard.len r = Shard.len w - mid /\
      slice_disjoint (cells l) (cells r) /\
      (forall x, in_slice (cells w) x <-> in_slice (cells l) x \/ in_slice (cells r) x) /\
      Shard.as_slice m l ++ Shard.as_slice m r = Shard.as_slice m w
  else Shard.split_at w mid = Panic BoundsPanic.
Proof.
  intros [Hb Hl] [Hm _]. unfold Shard.split_at, Shard.len, split_at_mut.
  destruct (decide (mid <= s_len (cells w))) as [Hle|Hgt]; [|done].
  do 2 eexists. split; [done|]. unfold Shard.as_slice, Shard.new, slice_disjoint, in_slice; cbn.
  repeat split; [lia..|]. rewrite subrange_app by lia. f_equal. lia.
Qed.

Lemma split_at_partitions_witness :
  exists l r, Shard.split_at (mkShard (Slice 0 8)) 3 = Ret (l, r) /\ Shard.len r = 5.
Proof.
  pose proof (split_at_partitions [0;1;2;3;4;5;6;7] (mkShard (Slice 0 8)) 3
    ltac:(repeat split; vm_compute; discriminate) ltac:(split; vm_compute; discriminate)) as H.
  rewrite decide_True in H by (vm_compute; discriminate).
  destruct H as (l & r & Hs & _ & Hr & _). exists l, r. split; [exact Hs|exact Hr].
Defined.

(** The range arithmetic is not saturating: a region of zero-sized cells may
    be longer than [isize::MAX], and then an index that [len()] declares valid
    overflows [start + chunk].  A checked build panics; a release build wraps
    the end of the range below its start, so the shard handed out reaches
    outside the region, which is undefined behaviour. *)
Theorem par_range_overflow_zst :
  let p := Par.new (Slice 0 usize_max) (isize_max + 1) in
  @Par.len debug_profile p = Ret 2 /\ @Par.len release_profile p = Ret 2 /\
  @Par.range debug_profile p 1 = Panic OverflowPanic /\
  @Par.range release_profile p 1 = Ret (isize_max + 1, 0) /\
  @Par.get_unchecked_chunk release_profile p 1 = UB.
Proof. repeat split; vm_compute; reflexivity. Qed.
