(* ===== verification/Plan.v ===== *)
(** * Partition plans ([src/sync/scoped/partition/plan.rs])

    A [PartitionPlan] resolves, for a region length, to the number of cells per
    shard.  [NonZeroUsize] is [positive]; the hardware parallelism that
    [std::thread::available_parallelism] reports ([None] when the platform
    cannot) is an argument.  Main results: resolution never panics and never
    yields zero, each plan keeps its documented bound on the number or the size
    of the shards, a parts plan resolves to the smallest such chunk, and the
    number of shards of a parts plan is not always [min (parts, len)]. *)
From S2P Require Import Prelude Region.
From stdpp Require Import base numbers sets list.
Local Open Scope Z_scope.
Local Open Scope mel_scope.

Inductive PartitionPlan : Type :=
| Parts (parts : positive)
| AvailableParallelism
| ChunkSize (chunk_size : positive).
#[export] Instance plan_eq_dec : EqDecision PartitionPlan.
Proof. solve_decision. Defined.

(** [NonZeroUsize::new] *)
Definition NonZeroUsize_new (value : Z) : option positive :=
  match value with Zpos p => Some p | _ => None end.

Definition nonzero_or_one (value : Z) : positive :=
  match NonZeroUsize_new value with Some nz => nz | None => 1%positive end.

Definition parts (n : Z) : PartitionPlan := Parts (nonzero_or_one n).
Definition available_parallelism : PartitionPlan := AvailableParallelism.
Definition chunk_size (n : Z) : PartitionPlan := ChunkSize (nonzero_or_one n).

Definition chunk_for_parts `{BuildProfile} (len parts : Z) : outcome Z :=
  n ← partition_count len parts; Ret (Z.max n 1).

Definition chunk_len_for `{BuildProfile} (available : option positive)
    (plan : PartitionPlan) (len : Z) : outcome Z :=
  match plan with
  | Parts parts => chunk_for_parts len (Zpos parts)
  | AvailableParallelism =>
      let parts := match available with Some n => Zpos n | None => 1 end in
      chunk_for_parts len parts
  | ChunkSize chunk_size => Ret (Zpos chunk_size)
  end.

Definition resolve `{BuildProfile} (available : option positive)
    (plan : PartitionPlan) (len : Z) : outcome Z := chunk_len_for available plan len.

(** The number of shards the drivers make of a region of length [len]. *)
Definition plan_shards `{BuildProfile} (available : option positive)
    (plan : PartitionPlan) (len : Z) : outcome Z :=
  chunk ← resolve available plan len; partition_count len (Z.max chunk 1).

(** A plan whose [NonZeroUsize] is a [usize]. *)
Definition plan_ok (plan : PartitionPlan) : Prop :=
  match plan with
  | Parts n | ChunkSize n => Zpos n <= usize_max
  | AvailableParallelism => True
  end.

(** The number of parts a plan asks for, when it asks for parts. *)
Definition plan_parts (available : option positive) (plan : PartitionPlan) : option Z :=
  match plan with
  | Parts n => Some (Zpos n)
  | AvailableParallelism => Some (match available with Some n => Zpos n | None => 1 end)
  | ChunkSize _ => None
  end.

(** The mathematical value of [resolve]. *)
Definition plan_chunk (available : option positive) (plan : PartitionPlan) (len : Z) : Z :=
  match plan with
  | ChunkSize n => Zpos n
  | Parts _ | AvailableParallelism =>
      Z.max (tile_count len (default 1 (plan_parts available plan))) 1
  end.

(** ** Lemmas *)

Lemma plan_parts_pos available plan n :
  plan_parts available plan = Some n -> 1 <= n.
Proof. destruct plan, available; cbn; intros; simplify_eq; lia. Qed.

Lemma resolve_ok `{BuildProfile} available plan len :
  is_usize len -> resolve available plan len = Ret (plan_chunk available plan len).
Proof.
  intros Hl. destruct plan; cbn; [| |done];
    unfold chunk_for_parts; rewrite partition_count_ok; try done;
    destruct available; lia.
Qed.

Lemma plan_chunk_bounds available plan len :
  is_usize len -> plan_ok plan -> 1 <= plan_chunk available plan len <= usize_max.
Proof.
  intros Hl Hp.
  pose proof (fun n Hn => tile_count_bounds len n (proj1 Hl) Hn).
  destruct plan as [n| |n]; cbn in *.
  - specialize (H (Zpos n) ltac:(lia)). ulia.
  - specialize (H (match available with Some n => Zpos n | None => 1 end)
      ltac:(destruct available; lia)). ulia.
  - lia.
Qed.
#[export] Hint Resolve plan_chunk_bounds : mel.

Lemma plan_shards_ok `{BuildProfile} available plan len :
  is_usize len -> plan_ok plan ->
  plan_shards available plan len = Ret (tile_count len (plan_chunk available plan len)).
Proof.
  intros Hl Hp. pose proof (plan_chunk_bounds available plan len Hl Hp).
  unfold plan_shards. rewrite resolve_ok by done. cbn [mbind outcome_bind].
  rewrite Z.max_l by lia. by rewrite partition_count_ok by (done || lia).
Qed.

(** ** Properties *)

(** C40: Resolving a plan never panics in any build profile, and the chunk size
    is at least one and a [usize], so that it can be passed to [chunks] as it
    is.  A plan for at most [n] parts (a fixed count, or the reported
    parallelism, or one when it is not reported) makes at most [n] shards, and
    resolves to the smallest chunk size with that bound; a chunk-size plan
    resolves to its chunk size. *)
Theorem plan_resolves `{BuildProfile} (available : option positive)
    (plan : PartitionPlan) (len : Z) :
  is_usize len -> plan_ok plan ->
  exists chunk shards, resolve available plan len = Ret chunk /\
    1 <= chunk <= usize_max /\
    plan_shards available plan len = Ret shards /\ 0 <= shards <= len /\
    match plan_parts available plan with
    | Some n => shards <= n /\
        forall c, 1 <= c -> tile_count len c <= n -> chunk <= c
    | None => plan = ChunkSize (Z.to_pos chunk)
    end.
Proof.
  intros Hl Hp. pose proof (plan_chunk_bounds available plan len Hl Hp) as Hc.
  do 2 eexists. split; [by apply resolve_ok|]. split; [done|].
  split; [by apply plan_shards_ok|].
  split; [apply tile_count_bounds; [by apply Hl|lia]|].
  destruct (plan_parts available plan) as [n|] eqn:En.
  - pose proof (plan_parts_pos _ _ _ En) as Hn.
    assert (plan_chunk available plan len = Z.max (tile_count len n) 1) as ->.
    { destruct plan; cbn in *; by simplify_eq. }
    destruct Hl as [Hl _]. pose proof (tile_count_bounds len n Hl Hn) as [Ht _]. split.
    + apply tile_count_galois; [lia..|].
      pose proof (proj2 (tile_count_galois len n _ Hl Hn Ht) ltac:(lia)). nia.
    + intros c Hc1 Hcn. apply tile_count_galois in Hcn; [|lia..].
      pose proof (proj1 (tile_count_galois len n c Hl Hn ltac:(lia))). lia.
  - by destruct plan.
Qed.

Lemma plan_resolves_witness :
  exists chunk shards, @resolve debug_profile None (parts 4) 10 = Ret chunk /\
    @plan_shards debug_profile None (parts 4) 10 = Ret shards /\ chunk = 3 /\ shards = 4.
Proof.
  destruct (@plan_resolves debug_profile None (parts 4) 10
    ltac:(split; vm_compute; discriminate) ltac:(vm_compute; discriminate))
    as (c & s & Hc & _ & Hs & _).
  exists c, s. split; [exact Hc|]. split; [exact Hs|].
  vm_compute in Hc, Hs. injection Hc as <-. injection Hs as <-. split; reflexivity.
Defined.

(** A parts plan never makes more than [min (parts, len)] shards, makes
    exactly one per cell when at least as many parts as cells are asked for,
    and exactly [parts] when [parts] divides [len]; but it can make fewer than
    [min (parts, len)]: nine cells in six parts are five shards. *)
Theorem parts_shard_count `{BuildProfile} (available : option positive) (n len : Z) :
  is_usize len -> is_usize n -> 1 <= n ->
  exists shards, plan_shards available (parts n) len = Ret shards /\
    shards <= Z.min n len /\
    (len <= n -> shards = len) /\
    (len mod n = 0 -> shards = Z.min n len) /\
    plan_shards available (parts 6) 9 = Ret 5.
Proof.
  intros Hl Hu Hn.
  assert (nonzero_or_one n = Z.to_pos n) as Hnz by (destruct n; cbn; lia || done).
  assert (plan_ok (parts n)) as Hp by (unfold parts, plan_ok; rewrite Hnz; ulia).
  eexists. split; [by apply plan_shards_ok|].
  assert (plan_chunk available (parts n) len = Z.max (tile_count len n) 1) as ->.
  { unfold parts, plan_chunk; cbn. rewrite Hnz. by rewrite Z2Pos.id by lia. }
  destruct Hl as [Hl Hlm]. pose proof (tile_count_bounds len n Hl Hn) as [Ht Htl].
  set (c := Z.max (tile_count len n) 1).
  pose proof (tile_count_bounds len c Hl ltac:(lia)) as [Hs Hsl].
  pose proof (proj2 (tile_count_galois len n _ Hl Hn Ht) ltac:(lia)) as Hcov.
  pose proof (proj2 (tile_count_galois len c _ Hl ltac:(lia) Hs) ltac:(lia)) as Hcov'.
  assert (tile_count len c <= n) as Hle by (apply tile_count_galois; [lia..|]; nia).
  split; [lia|]. split; [|split].
  - intros Hln. assert (tile_count len n <= 1) by (apply tile_count_galois; lia).
    assert (c = 1) as Hc1 by lia. rewrite Hc1 in *. lia.
  - intros Hmod. pose proof (Z.div_mod len n ltac:(lia)) as Hd. rewrite Hmod in Hd.
    destruct (decide (len = 0)) as [->|Hl0]; [unfold tile_count; rewrite decide_True by done; lia|].
    assert (1 <= len / n) by nia.
    assert (tile_count len n <= len / n) by (apply tile_count_galois; nia).
    assert (c <= len / n) by lia. assert (n <= tile_count len c) by nia. nia.
  - vm_compute. reflexivity.
Qed.

Lemma parts_shard_count_witness :
  exists shards, @plan_shards release_profile None (parts 3) 12 = Ret shards /\ shards <= 3.
Proof.
  destruct (@parts_shard_count release_profile None 3 12
    ltac:(split; vm_compute; discriminate) ltac:(split; vm_compute; discriminate)
    ltac:(lia)) as (s & Hs & Hle & _).
  exists s. split; [exact Hs|]. etransitivity; [exact Hle|]. vm_compute; discriminate.
Defined.
