(* ===== verification/Closure.v ===== *)
(** * Client closures over a shard, and their interleavings

    The closures the partition drivers run ([Fn(usize, WriterShard) -> R] in
    [src/sync/scoped/partition/map.rs]) are client code: the model quantifies
    over all of them.  A [closure] is a tree of bounds-checked reads and writes
    of its own shard ([WriterShard::get] and [get_mut]) that ends in a result or
    a panic.  [run_closure] runs one on the shared region without interruption;
    [cstep] interleaves the single accesses of many threads on that region.
    Main results: a closure reads and writes nothing but its shard, and for
    pairwise disjoint shards every interleaving of all accesses gives each
    closure the result it has alone and the region the sequential run leaves,
    which is why the engine may be analysed with uninterrupted tasks. *)
From S2P Require Import Prelude Region.
From stdpp Require Import base numbers sets list relations.
Local Open Scope Z_scope.

Inductive closure (T R : Type) : Type :=
| CRet (r : R)
| CPanic (p : panic_payload)
| CGet (i : Z) (k : option T -> closure T R)
| CSet (i : Z) (v : T) (k : bool -> closure T R).
Arguments CRet {T R} r.
Arguments CPanic {T R} p.
Arguments CGet {T R} i k.
Arguments CSet {T R} i v k.

(** Run a closure on its shard [w] of the region. *)
Fixpoint run_closure {T R} (w : WriterShard) (c : closure T R) : M (list T) R := fun m =>
  match c with
  | CRet r => (Ret r, m)
  | CPanic p => (Panic p, m)
  | CGet i k => run_closure w (k (Shard.get m w i)) m
  | CSet i v k =>
      match Shard.get_mut w i with
      | Some place => run_closure w (k true) (zset place v m)
      | None => run_closure w (k false) m
      end
  end.

(** What a closure does to a slice of its own: the specification of
    [run_closure], which no other memory enters. *)
Fixpoint eval_closure {T R} (c : closure T R) (view : list T) : outcome R * list T :=
  match c with
  | CRet r => (Ret r, view)
  | CPanic p => (Panic p, view)
  | CGet i k => eval_closure (k (zget view i)) view
  | CSet i v k =>
      if decide (0 <= i < zlen view)
      then eval_closure (k true) (zset i v view)
      else eval_closure (k false) view
  end.

(** Threads that share a region. *)
Record config (T R : Type) : Type := mkConfig {
  mem : list T;
  threads : list (WriterShard * closure T R)
}.
Arguments mkConfig {T R}.
Arguments mem {T R}.
Arguments threads {T R}.

(** One access of one thread, [get] or [get_mut] of its shard; which thread is
    next, and what it does with the answer, is the client's. *)
Inductive cstep {T R} : config T R -> config T R -> Prop :=
| step_get t w i k m ths :
    ths !! t = Some (w, CGet i k) ->
    cstep (mkConfig m ths) (mkConfig m (<[t := (w, k (Shard.get m w i))]> ths))
| step_set t w i v k place m ths :
    ths !! t = Some (w, CSet i v k) -> Shard.get_mut w i = Some place ->
    cstep (mkConfig m ths) (mkConfig (zset place v m) (<[t := (w, k true)]> ths))
| step_set_none t w i v k m ths :
    ths !! t = Some (w, CSet i v k) -> Shard.get_mut w i = None ->
    cstep (mkConfig m ths) (mkConfig m (<[t := (w, k false)]> ths)).

(** The next access of a closure on its shard [w], as a function. *)
Definition access {T R} (w : WriterShard) (c : closure T R) (m : list T)
    : option (closure T R * list T) :=
  match c with
  | CGet i k => Some (k (Shard.get m w i), m)
  | CSet i v k =>
      match Shard.get_mut w i with
      | Some place => Some (k true, zset place v m)
      | None => Some (k false, m)
      end
  | _ => None
  end.

(** The outcome of a closure that has nothing left to do. *)
Definition finished {T R} (c : closure T R) : option (outcome R) :=
  match c with CRet r => Some (Ret r) | CPanic p => Some (Panic p) | _ => None end.

Definition all_finished {T R} (c : config T R) : Prop :=
  forall t w b, threads c !! t = Some (w, b) -> is_Some (finished b).

(** The shard lies inside a region of [n] cells. *)
Definition shard_in (n : Z) (w : WriterShard) : Prop :=
  0 <= s_base (cells w) /\ 0 <= s_len (cells w) /\
  s_base (cells w) + s_len (cells w) <= n.

(** ** Lemmas: one closure *)

Lemma zlen_as_slice {T} (m : list T) w :
  shard_in (zlen m) w -> zlen (Shard.as_slice m w) = s_len (cells w).
Proof. intros (? & ? & ?). by apply zlen_subrange. Qed.

Lemma zlen_eval_closure {T R} (c : closure T R) view :
  zlen (snd (eval_closure c view)) = zlen view.
Proof.
  revert view. induction c as [| |i k IH|i v k IH]; intros view; cbn; [done..|apply IH|].
  destruct (decide _); rewrite IH; [apply zlen_zset|done].
Qed.

Lemma eval_closure_defined {T R} (c : closure T R) view : fst (eval_closure c view) <> UB.
Proof.
  revert view. induction c as [| |i k IH|i v k IH]; intros view; cbn; [done..|apply IH|].
  destruct (decide _); apply IH.
Qed.

Lemma get_mut_place w i place :
  Shard.get_mut w i = Some place <->
  0 <= i < s_len (cells w) /\ place = s_base (cells w) + i.
Proof.
  unfold Shard.get_mut. destruct (decide _); split; intros; simplify_eq; try done.
  - by destruct H as [_ ->].
  - by destruct H as [? _].
Qed.

(** A closure acts on the region as it acts on its own shard, and nowhere else. *)
Lemma run_closure_eval {T R} w (c : closure T R) m :
  shard_in (zlen m) w ->
  run_closure w c m =
  (fst (eval_closure c (Shard.as_slice m w)),
   splice (s_base (cells w)) (snd (eval_closure c (Shard.as_slice m w))) m).
Proof.
  revert m. induction c as [r|p|i k IH|i v k IH]; intros m Hw; pose proof Hw as (Hb & Hl & Hm); cbn.
  - f_equal. symmetry. by apply splice_subrange.
  - f_equal. symmetry. by apply splice_subrange.
  - by apply IH.
  - rewrite zlen_as_slice by done. unfold Shard.get_mut.
    destruct (decide (0 <= i < s_len (cells w))) as [Hi|Hi]; [|by apply IH].
    rewrite IH by (by rewrite zlen_zset).
    assert (Shard.as_slice (zset (s_base (cells w) + i) v m) w
            = zset i v (Shard.as_slice m w)) as -> by (by apply subrange_zset).
    f_equal. apply splice_zset; rewrite ?zlen_eval_closure, ?zlen_zset, ?zlen_as_slice by done; lia.
Qed.

(** ** Lemmas: interleavings *)

(** Threads whose shards lie in the region and share no cell. *)
Definition threads_ok {T R} (c : config T R) : Prop :=
  (forall t w b, threads c !! t = Some (w, b) -> shard_in (zlen (mem c)) w) /\
  (forall t1 t2 w1 w2 b1 b2, t1 <> t2 ->
     threads c !! t1 = Some (w1, b1) -> threads c !! t2 = Some (w2, b2) ->
     slice_disjoint (cells w1) (cells w2)).

(** Run the threads one after the other. *)
Fixpoint run_all {T R} (ths : list (WriterShard * closure T R)) (m : list T)
    : list (outcome R) * list T :=
  match ths with
  | [] => ([], m)
  | (w, b) :: ths =>
      let '(o, m) := run_closure w b m in
      let '(os, m) := run_all ths m in
      (o :: os, m)
  end.

(** [c] is [c0] with some accesses already made: every thread still has ahead
    of it exactly what its closure does to its shard alone. *)
Record progressed {T R} (c0 c : config T R) : Prop := {
  pr_len : zlen (mem c) = zlen (mem c0);
  pr_thread t w b0 : threads c0 !! t = Some (w, b0) ->
    exists b, threads c !! t = Some (w, b) /\
      eval_closure b (Shard.as_slice (mem c) w) = eval_closure b0 (Shard.as_slice (mem c0) w);
  pr_back t w b : threads c !! t = Some (w, b) ->
    exists b0, threads c0 !! t = Some (w, b0);
  pr_outside i : 0 <= i ->
    (forall t w b, threads c0 !! t = Some (w, b) -> ~ in_slice (cells w) i) ->
    zget (mem c) i = zget (mem c0) i
}.

Lemma progressed_refl {T R} (c : config T R) : progressed c c.
Proof. split; [done|by eauto..|done]. Qed.

(** A step of thread [t] that leaves the memory as it is. *)
Lemma progressed_local {T R} (c0 : config T R) m ths t w b b' :
  progressed c0 (mkConfig m ths) -> ths !! t = Some (w, b) ->
  eval_closure b' (Shard.as_slice m w) = eval_closure b (Shard.as_slice m w) ->
  progressed c0 (mkConfig m (<[t := (w, b')]> ths)).
Proof.
  intros [Hl Ht Hb Ho] Hths He. cbn in *. split; [done| | |done].
  - intros u wu b0 Hu. destruct (Ht u wu b0 Hu) as (bu & Hbu & Heu).
    destruct (decide (t = u)) as [<-|Hne].
    + simplify_eq. exists b'. split; [|by rewrite <- Heu].
      apply list_lookup_insert_eq. by eapply lookup_lt_Some.
    + exists bu. cbn. by rewrite list_lookup_insert_ne.
  - intros u wu bu Hu. cbn in Hu. destruct (decide (t = u)) as [<-|Hne].
    + apply list_lookup_insert_Some in Hu as [(_ & Hu & _)|[? _]]; [|done].
      simplify_eq. by eapply Hb.
    + rewrite list_lookup_insert_ne in Hu by done. by eapply Hb.
Qed.

Lemma progressed_step {T R} (c0 c c' : config T R) :
  threads_ok c0 -> progressed c0 c -> cstep c c' -> progressed c0 c'.
Proof.
  intros [Hin Hdis] Hp Hs. destruct Hs as [t w i k m ths Hth|t w i v k place m ths Hth Hg
    |t w i v k m ths Hth Hg]; cbn in *.
  - by eapply progressed_local.
  - pose proof Hp as [Hl Ht Hb Ho]. cbn in *. apply get_mut_place in Hg as [Hi ->].
    destruct (Hb t w _ Hth) as [b0 Hb0]. pose proof (Hin t w b0 Hb0) as Hw.
    assert (shard_in (zlen m) w) as Hwm by (by rewrite Hl). destruct Hwm as (? & ? & ?).
    assert (progressed c0 (mkConfig m ths)) as Hp' by done.
    split; [cbn; by rewrite zlen_zset| | |].
    + intros u wu bu0 Hu. destruct (Ht u wu bu0 Hu) as (bu & Hbu & Heu). cbn.
      destruct (decide (t = u)) as [<-|Hne].
      * simplify_eq. exists (k true).
        split; [by apply list_lookup_insert_eq; eapply lookup_lt_Some|].
        rewrite <- Heu. cbn. rewrite zlen_as_slice by (by rewrite Hl).
        rewrite decide_True by done.
        f_equal. by apply subrange_zset.
      * exists bu. rewrite list_lookup_insert_ne by done. split; [done|].
        rewrite <- Heu. f_equal. unfold Shard.as_slice.
        pose proof (Hin u wu bu0 Hu) as (? & ? & ?).
        apply subrange_zset_disjoint; [lia..|]. intros Hiu.
        eapply (Hdis t u w wu b0 bu0 Hne Hb0 Hu (s_base (cells w) + i)); unfold in_slice; lia.
    + intros u wu bu Hu. cbn in Hu. destruct (decide (t = u)) as [<-|Hne].
      * apply list_lookup_insert_Some in Hu as [(_ & Hu & _)|[? _]]; [|done].
        simplify_eq. by eexists.
      * rewrite list_lookup_insert_ne in Hu by done. by eapply Hb.
    + intros j Hj Hout. cbn. rewrite zget_zset by lia. rewrite decide_False; [by apply Ho|].
      intros <-. eapply (Hout t w b0 Hb0). unfold in_slice. lia.
  - eapply progressed_local; [done|done|]. cbn. unfold Shard.get_mut in Hg.
    destruct (decide (0 <= i < s_len (cells w))) as [|Hn]; [done|].
    destruct (pr_back _ _ Hp t w _ Hth) as [b0 Hb0]. pose proof (Hin t w b0 Hb0) as Hw.
    assert (shard_in (zlen m) w) by (by rewrite <- (pr_len _ _ Hp) in Hw).
    rewrite decide_False; [done|]. by rewrite zlen_as_slice.
Qed.

Lemma progressed_steps {T R} (c0 c : config T R) :
  threads_ok c0 -> rtc cstep c0 c -> progressed c0 c.
Proof.
  intros Hok. revert c. apply rtc_ind_r; [apply progressed_refl|].
  intros c c' _ Hs Hp. by eapply progressed_step.
Qed.

Lemma finished_eval {T R} (b : closure T R) view o :
  finished b = Some o -> eval_closure b view = (o, view).
Proof. destruct b; cbn; intros; by simplify_eq. Qed.

(** Sequential execution keeps, for every thread still to run, its shard as it
    was. *)
(** One thread run to its end: the others' shards are as they were, and the
    remaining threads still share the region properly. *)
Lemma first_thread_done {T R} w (b : closure T R) ths m v :
  threads_ok (mkConfig m ((w, b) :: ths)) -> zlen v = s_len (cells w) ->
  let m' := splice (s_base (cells w)) v m in
  zlen m' = zlen m /\ threads_ok (mkConfig m' ths) /\
  forall t u bu, ths !! t = Some (u, bu) -> Shard.as_slice m' u = Shard.as_slice m u.
Proof.
  intros [Hin Hdis] Hv m'. pose proof (Hin 0%nat w b eq_refl) as (Hb & Hn & Hm). cbn in *.
  assert (zlen m' = zlen m) as Hm' by (apply zlen_splice; lia). split; [done|]. split.
  - split; cbn.
    + intros t u bu Hu. rewrite Hm'. by apply (Hin (S t) u bu).
    + intros t1 t2 u1 u2 b1 b2 Ht. apply (Hdis (S t1) (S t2)). congruence.
  - intros t u bu Hu. pose proof (Hin (S t) u bu Hu) as (? & ? & ?).
    pose proof (Hdis 0%nat (S t) w u b bu ltac:(done) eq_refl Hu) as Hd.
    apply zlist_eq; [unfold Shard.as_slice; rewrite !zlen_subrange; lia|].
    intros i Hi. unfold Shard.as_slice in *. rewrite zlen_subrange in Hi by lia.
    rewrite !zget_subrange by lia. unfold m'. rewrite zget_splice by lia.
    rewrite decide_False; [done|]. intros Hiw.
    apply (Hd (s_base (cells u) + i)); unfold in_slice; lia.
Qed.

Lemma run_all_spec {T R} (ths : list (WriterShard * closure T R)) m :
  threads_ok (mkConfig m ths) ->
  run_all ths m =
  ((fun wb => fst (eval_closure (snd wb) (Shard.as_slice m (fst wb)))) <$> ths,
   snd (run_all ths m)) /\
  zlen (snd (run_all ths m)) = zlen m /\
  (forall t w b, ths !! t = Some (w, b) ->
     Shard.as_slice (snd (run_all ths m)) w = snd (eval_closure b (Shard.as_slice m w))) /\
  (forall i, 0 <= i ->
     (forall t w b, ths !! t = Some (w, b) -> ~ in_slice (cells w) i) ->
     zget (snd (run_all ths m)) i = zget m i).
Proof.
  revert m. induction ths as [|[w b] ths IH]; intros m Hths; [done|].
  pose proof Hths as [Hin Hdis]. cbn in *.
  pose proof (Hin 0%nat w b eq_refl) as Hw. pose proof Hw as (Hb & Hn & Hm).
  rewrite run_closure_eval by done.
  set (v := snd (eval_closure b (Shard.as_slice m w))).
  assert (zlen v = s_len (cells w)) as Hv by (unfold v; by rewrite zlen_eval_closure, zlen_as_slice).
  destruct (first_thread_done w b ths m v Hths Hv) as (Hm' & Hok & Hother).
  set (m' := splice (s_base (cells w)) v m) in *.
  destruct (IH m' Hok) as (Hr & Hlen & Hsh & Hout).
  destruct (run_all ths m') as [os m''] eqn:E. cbn in *. injection Hr as ->.
  split; [|split; [lia|split]].
  - do 2 f_equal. apply list_fmap_ext. intros t [u bu] Hu. cbn. by rewrite (Hother t u bu Hu).
  - intros [|t] u bu Hu; cbn in Hu.
    + injection Hu as -> ->. fold v. apply zlist_eq.
      { rewrite zlen_as_slice by (by rewrite Hlen, Hm'). lia. }
      intros i Hi. rewrite zlen_as_slice in Hi by (by rewrite Hlen, Hm').
      unfold Shard.as_slice. rewrite zget_subrange by lia.
      rewrite Hout; [|lia|].
      * unfold m'. rewrite zget_splice, decide_True by lia. f_equal. lia.
      * intros t w' b' Ht Hin'. apply (Hdis 0%nat (S t) u w' bu b' ltac:(done) eq_refl Ht
          (s_base (cells u) + i)); [unfold in_slice; lia|done].
    + rewrite (Hsh t u bu Hu). by rewrite (Hother t u bu Hu).
  - intros i Hi Hno. rewrite Hout; [|done|].
    + unfold m'. rewrite zget_splice by lia. rewrite decide_False; [done|].
      intros Hiw. apply (Hno 0%nat w b eq_refl). unfold in_slice. lia.
    + intros t u bu Hu. by apply (Hno (S t) u bu).
Qed.

(** Two regions that agree on the threads' shards and outside them are equal. *)
Lemma region_ext {T R} (ths : list (WriterShard * closure T R)) (m1 m2 : list T) :
  zlen m1 = zlen m2 ->
  (forall t w b, ths !! t = Some (w, b) -> shard_in (zlen m1) w) ->
  (forall t w b, ths !! t = Some (w, b) -> Shard.as_slice m1 w = Shard.as_slice m2 w) ->
  (forall i, 0 <= i ->
     (forall t w b, ths !! t = Some (w, b) -> ~ in_slice (cells w) i) ->
     zget m1 i = zget m2 i) -> m1 = m2.
Proof.
  intros Hl Hin Hsh Hout. apply zlist_eq; [done|]. intros i Hi.
  destruct (decide (Exists (fun wb => in_slice (cells (fst wb)) i) ths)) as [He|He].
  - apply Exists_exists in He as ([w b] & Hwb & Hiw). cbn in Hiw.
    apply list_elem_of_lookup in Hwb as [t Ht]. pose proof (Hin t w b Ht) as (? & ? & ?).
    pose proof (Hsh t w b Ht) as Heq. unfold in_slice in Hiw.
    assert (zget (Shard.as_slice m1 w) (i - s_base (cells w))
            = zget (Shard.as_slice m2 w) (i - s_base (cells w))) as Hg by (by rewrite Heq).
    unfold Shard.as_slice in Hg. rewrite !zget_subrange in Hg by lia.
    by replace (s_base (cells w) + (i - s_base (cells w))) with i in Hg by lia.
  - apply Hout; [lia|]. intros t w b Ht Hiw. apply He, Exists_exists.
    exists (w, b). split; [|done]. by eapply list_elem_of_lookup_2.
Qed.

(** ** Lemmas: termination *)

(** One access takes a closure to an immediate subtree. *)
Inductive sub_closure {T R} : closure T R -> closure T R -> Prop :=
| sub_get i k o : sub_closure (k o) (CGet i k)
| sub_set i v k b : sub_closure (k b) (CSet i v k).

Lemma sub_closure_wf {T R} : well_founded (@sub_closure T R).
Proof. intros c. induction c; constructor; intros c' Hc; inversion Hc; subst; auto. Qed.

Lemma access_cstep {T R} w (c c' : closure T R) m m' t ths :
  access w c m = Some (c', m') -> ths !! t = Some (w, c) ->
  cstep (mkConfig m ths) (mkConfig m' (<[t := (w, c')]> ths)).
Proof.
  unfold access. intros Ha Ht. destruct c as [| |i k|i v k]; [done..| |].
  - simplify_eq. by apply step_get.
  - destruct (Shard.get_mut w i) eqn:E; simplify_eq; [by eapply step_set|by eapply step_set_none].
Qed.

Lemma access_sub {T R} w (c c' : closure T R) m m' :
  access w c m = Some (c', m') -> sub_closure c' c.
Proof.
  unfold access. intros Ha. destruct c as [| |i k|i v k]; [done..| |];
    [|destruct (Shard.get_mut w i)]; simplify_eq; constructor.
Qed.

Lemma access_None {T R} w (c : closure T R) m : access w c m = None -> is_Some (finished c).
Proof.
  unfold access. destruct c as [| |i k|i v k]; [by eexists..|done|].
  by destruct (Shard.get_mut w i).
Qed.

Lemma access_finished {T R} w (c : closure T R) m o : finished c = Some o -> access w c m = None.
Proof. by destruct c. Qed.

(** The closure that has ended with [o]. *)
Definition ended {T R} (o : outcome R) : closure T R :=
  match o with Ret r => CRet r | Panic p => CPanic p | UB => CPanic AssertPanic end.

Lemma finished_ended {T R} (o : outcome R) :
  o <> UB -> finished (@ended T R o) = Some o.
Proof. by destruct o. Qed.

Lemma ended_finished {T R} (c : closure T R) o : finished c = Some o -> c = ended o.
Proof. destruct c; cbn; intros; by simplify_eq. Qed.


(** ** Properties *)

(** Data-race freedom as determinism: for threads on pairwise disjoint
    shards, every interleaving of their single reads and writes that runs to
    the end leaves the same region, and gives every closure the same outcome,
    as running the closures one after the other without interruption. *)
Theorem interleaving_deterministic {T R} (m : list T)
    (ths : list (WriterShard * closure T R)) (c : config T R) :
  threads_ok (mkConfig m ths) -> rtc cstep (mkConfig m ths) c -> all_finished c ->
  mem c = snd (run_all ths m) /\
  forall t w b, threads c !! t = Some (w, b) -> finished b = fst (run_all ths m) !! t.
Proof.
  intros Hok Hs Hf. pose proof (progressed_steps _ _ Hok Hs) as [Hl Ht Hb Ho].
  destruct (run_all_spec ths m Hok) as (Hr & Hlen & Hsh & Hout). cbn in *.
  assert (forall t w b0, ths !! t = Some (w, b0) -> exists b o,
    threads c !! t = Some (w, b) /\ finished b = Some o /\
    eval_closure b0 (Shard.as_slice m w) = (o, Shard.as_slice (mem c) w)) as Hfin.
  { intros t w b0 H0. destruct (Ht t w b0 H0) as (b & Hbt & He).
    destruct (Hf t w b Hbt) as [o Hfo]. exists b, o. split; [done|]. split; [done|].
    rewrite <- He. by apply finished_eval. }
  split.
  - apply (region_ext ths); [congruence| | |].
    + intros t w b Hth. rewrite Hl. by apply (proj1 Hok t w b).
    + intros t w b Hth. rewrite (Hsh t w b Hth).
      destruct (Hfin t w b Hth) as (b' & o & _ & _ & ->). done.
    + intros i Hi Hno. rewrite Ho, Hout by done. done.
  - intros t w b Hbt. destruct (Hb t w b Hbt) as [b0 H0].
    destruct (Hfin t w b0 H0) as (b' & o & Hb' & Hfo & He). simplify_eq.
    rewrite Hr. cbn. rewrite list_lookup_fmap, H0. cbn. by rewrite He.
Qed.

(** Two threads on the halves of a two-cell region: the first stores [1], the
    second reads its cell and stores its successor. *)
Definition two_threads : list (WriterShard * closure Z Z) :=
  [(mkShard (Slice 0 1), CSet 0 1 (fun _ => CRet 10));
   (mkShard (Slice 1 1), CGet 0 (fun o => CSet 0 (default 0 o + 1) (fun _ => CRet 20)))].

Lemma two_threads_ok : threads_ok (mkConfig [5; 6] two_threads).
Proof.
  split.
  - intros [|[|t]] w b Ht; cbn in Ht; simplify_eq; by vm_compute.
  - intros [|[|t1]] [|[|t2]] w1 w2 b1 b2 Ht H1 H2; cbn in H1, H2; simplify_eq;
      intros i; unfold in_slice; cbn; lia.
Qed.

Lemma interleaving_deterministic_witness :
  exists c : config Z Z, rtc cstep (mkConfig [5; 6] two_threads) c /\ mem c = [1; 7].
Proof.
  eassert (rtc cstep (mkConfig [5; 6] two_threads) _) as Hs.
  { eapply rtc_l; [eapply (step_get 1); reflexivity|].
    eapply rtc_l; [eapply (step_set 0); reflexivity|].
    eapply rtc_l; [eapply (step_set 1); reflexivity|]. apply rtc_refl. }
  eexists. split; [exact Hs|].
  refine (proj1 (interleaving_deterministic _ _ _ two_threads_ok Hs _)).
  intros [|[|t]] w b Ht; cbn in Ht; simplify_eq; eexists; reflexivity.
Defined.
