(* ===== verification/Executor.v ===== *)
(** * The parallel-executor seam ([src/sync/scoped/partition/executor.rs])

    A scheduler is modelled by what a partition driver can observe of it: the
    sequence of task invocations it performs for a number of tasks, and whether
    it then unwinds.  The process-global slot holds a function pointer (an
    address, null when nothing is registered); [ProgramText] gives the code at
    an address, the monomorphised shim of one implementation.  Main result:
    after any history of registrations and clearings the slot names the
    executor registered last, unless it was cleared since. *)
From S2P Require Import Prelude.
From stdpp Require Import base numbers sets list.
Local Open Scope Z_scope.

(** What [run_indexed(num_tasks, task, context)] does: the [task] invocations,
    in the order in which they take effect, and the payload with which it
    unwinds through its caller afterwards, if it does. *)
Record ParallelExecutor : Type := mkPE {
  invocations : Z -> list Z;
  unwinds : Z -> option panic_payload
}.

(** The documented contract: no index is invoked twice, none outside the range;
    a call that returns normally has invoked every index. *)
Class ExecutorContract (E : ParallelExecutor) : Prop := {
  invoked_once n : NoDup (invocations E n);
  invoked_in_range n i : i ∈ invocations E n -> 0 <= i < n;
  invoked_all n i : unwinds E n = None -> 0 <= i < n -> i ∈ invocations E n
}.

(** [struct Executor(ExecutorFn)]: the address of a shim. *)
Record Executor : Type := mkExecutor { executor_fn : positive }.

(** The code of the program: the implementation whose shim is at an address. *)
Class ProgramText : Type := executor_at : positive -> ParallelExecutor.

(** [Executor::new::<E>] for the implementation whose shim is at [addr]. *)
Definition Executor_new (addr : positive) : Executor := mkExecutor addr.

Definition as_ptr (e : Executor) : Z := Zpos (executor_fn e).
Definition from_ptr (executor : Z) : Executor := mkExecutor (Z.to_pos executor).

(** [Executor::execute]: run the registered shim. *)
Definition execute `{ProgramText} (e : Executor) : ParallelExecutor :=
  executor_at (executor_fn e).

(** The global slot [PARALLEL_EXECUTOR] (null is [0]). *)
Definition initial_slot : Z := 0.
Definition register_parallel_executor (addr : positive) (slot : Z) : Z :=
  as_ptr (Executor_new addr).
Definition clear_parallel_executor (slot : Z) : Z := 0.
Definition registered_parallel_executor (slot : Z) : option Executor :=
  if decide (slot = 0) then None else Some (from_ptr slot).

(** A history of the slot. *)
Inductive registry_op : Type :=
| Register (addr : positive)
| Clear.

Definition registry_step (slot : Z) (op : registry_op) : Z :=
  match op with
  | Register addr => register_parallel_executor addr slot
  | Clear => clear_parallel_executor slot
  end.

Definition registry_run (ops : list registry_op) : Z :=
  foldl registry_step initial_slot ops.

(** The sequential executor of the documentation example. *)
Definition Sequentially : ParallelExecutor := mkPE zseq (fun _ => None).

(** The executor that runs the tasks in the opposite order. *)
Definition Backwards : ParallelExecutor := mkPE (fun n => reverse (zseq n)) (fun _ => None).

#[export] Instance Sequentially_contract : ExecutorContract Sequentially.
Proof.
  split; cbn; [auto with mel|intros n i; apply elem_of_zseq|].
  intros n i _. apply elem_of_zseq.
Qed.

#[export] Instance Backwards_contract : ExecutorContract Backwards.
Proof.
  split; cbn; intros n.
  - rewrite reverse_Permutation. auto with mel.
  - intros i. rewrite elem_of_reverse. apply elem_of_zseq.
  - intros i _. rewrite elem_of_reverse. apply elem_of_zseq.
Qed.

(** A call that returns normally ran each index exactly once. *)
Lemma contract_permutation E `{!ExecutorContract E} n :
  unwinds E n = None -> invocations E n ≡ₚ zseq n.
Proof.
  intros Hn. apply NoDup_Permutation; [apply invoked_once|auto with mel|].
  intros i. rewrite elem_of_zseq. split; [apply invoked_in_range|by apply invoked_all].
Qed.

Lemma registered_register addr slot :
  registered_parallel_executor (register_parallel_executor addr slot)
  = Some (Executor_new addr).
Proof. done. Qed.

(** ** Properties *)

(** The registry keeps the last write: after any history, a load finds the
    executor of the last registration if no clearing follows it, with its
    function-pointer bits intact, and otherwise finds nothing, which selects
    the scoped-thread driver. *)
Theorem registry_last_write (ops : list registry_op) :
  match last ops with
  | Some (Register addr) =>
      registered_parallel_executor (registry_run ops) = Some (Executor_new addr)
  | Some Clear | None => registered_parallel_executor (registry_run ops) = None
  end.
Proof.
  induction ops as [|op ops _] using rev_ind; [done|].
  rewrite last_snoc. unfold registry_run. rewrite foldl_app. by destruct op.
Qed.
