(* ===== verification/Driver.v ===== *)
(** * The partition engine ([src/sync/scoped/partition/driver_core.rs])

    [drive] runs [num_chunks] tasks and collects their results in index order,
    on a registered executor or on scoped threads.  The model keeps what the
    engine's [unsafe] code manages: the [MaybeUninit] out-buffer slot by slot,
    the success flags, the panic mutex, the drop guard, every result that is
    dropped in place and every time the buffer is freed.  Tasks are arbitrary
    stateful computations [run : Z -> M S R] over the region [S].

    Main results, for tasks that are independent of each other
    ([IndependentTasks]): with an executor that keeps its contract the engine
    never has undefined behaviour, returns the results in index order, and on a
    panic drops each produced result exactly once and frees the buffer once,
    whether the epilogue does it or, when the executor unwinds, the guard, whose
    drop runs at every exit; the scoped-thread path returns the same results for
    every schedule. *)
From S2P Require Import Prelude Executor.
From stdpp Require Import base numbers sets list.
Local Open Scope Z_scope.
Local Open Scope mel_scope.

(** ** The panic mutex *)

(** [Mutex<Option<Box<dyn Any>>>]; a holder that unwinds poisons it. *)
Record PanicPayloadMutex : Type := mkMutex {
  poisoned : bool;
  content : option panic_payload
}.
Definition Mutex_new (v : option panic_payload) : PanicPayloadMutex := mkMutex false v.

(** [Mutex::lock]: the guard, or a [PoisonError] that carries it. *)
Definition Mutex_lock (m : PanicPayloadMutex)
    : option panic_payload + option panic_payload :=
  if poisoned m then inr (content m) else inl (content m).

Definition lock_panic_payload (m : PanicPayloadMutex) : option panic_payload :=
  match Mutex_lock m with inl guard => guard | inr poison => poison end.

Definition take_panic_payload (m : PanicPayloadMutex) : option panic_payload :=
  match Mutex_lock m with inl payload => payload | inr poison => poison end.

(** ** The out-buffer *)

(** One [MaybeUninit] slot. *)
Inductive slot (R : Type) : Type :=
| Uninit
| Init (r : R)
| Moved.
Arguments Uninit {R}.
Arguments Init {R} r.
Arguments Moved {R}.

(** The engine's state while an executor runs.  [drops] logs the results
    dropped in place, [frees] counts the releases of the backing allocation. *)
Record dstate (S R : Type) : Type := mkD {
  region : S;
  out : list (slot R);
  successful : list bool;
  panic_slot : PanicPayloadMutex;
  active : bool;
  drops : list R;
  frees : nat
}.
Arguments mkD {S R}.
Arguments region {S R}.
Arguments out {S R}.
Arguments successful {S R}.
Arguments panic_slot {S R}.
Arguments active {S R}.
Arguments drops {S R}.
Arguments frees {S R}.

Definition initial_dstate {S R} (num_chunks : Z) (s : S) : dstate S R :=
  mkD s (replicate (Z.to_nat num_chunks) Uninit)
    (replicate (Z.to_nat num_chunks) false) (Mutex_new None) true [] 0.

(** [out_ptr.add(index).cast::<R>().drop_in_place()]: of a slot that holds no
    value (a double drop), or in freed memory, it is undefined. *)
Definition drop_in_place {S R} (index : Z) : M (dstate S R) unit := fun d =>
  match zget (out d) index, frees d with
  | Some (Init r), O =>
      (Ret tt, mkD (region d) (zset index Moved (out d)) (successful d)
                 (panic_slot d) (active d) (drops d ++ [r]) (frees d))
  | _, _ => (UB, d)
  end.

(** [Vec::from_raw_parts(out_ptr, 0, capacity)], dropped at once; a second free of
    the allocation is undefined. *)
Definition free_buffer {S R} : M (dstate S R) unit := fun d =>
  match frees d with
  | O => (Ret tt, mkD (region d) (out d) (successful d) (panic_slot d) (active d)
                    (drops d) 1)
  | _ => (UB, d)
  end.

(** [for index in 0..n: if successful[index] then drop slot index] *)
Fixpoint drop_successful {S R} (indices : list Z) : M (dstate S R) unit :=
  match indices with
  | [] => mret tt
  | index :: indices => fun d =>
      match zget (successful d) index with
      | Some true => (drop_in_place index ≫= fun _ => drop_successful indices) d
      | Some false => drop_successful indices d
      | None => (UB, d)
      end
  end.

(** [ExecutorDropGuard::drop] *)
Definition guard_drop {S R} (num_chunks : Z) : M (dstate S R) unit := fun d =>
  if active d
  then (drop_successful (zseq num_chunks) ≫= fun _ => free_buffer) d
  else (Ret tt, d).

(** [guard.active = false] *)
Definition disarm {S R} (d : dstate S R) : dstate S R :=
  mkD (region d) (out d) (successful d) (panic_slot d) false (drops d) (frees d).

(** [Vec::from_raw_parts(out_ptr.cast::<R>(), num_chunks, capacity)]: every slot
    must be initialised. *)
Fixpoint assume_init {R} (slots : list (slot R)) : outcome (list R) :=
  match slots with
  | [] => Ret []
  | Init r :: slots => cons r <$> assume_init slots
  | _ :: _ => UB
  end.

(** The same call as the end of [drive]: the vector it returns owns the values and
    the allocation from then on, so every slot of the buffer is moved out of. *)
Definition hand_over {S R} : M (dstate S R) (list R) := fun d =>
  match assume_init (out d), frees d with
  | Ret rs, O =>
      (Ret rs, mkD (region d) ((fun _ => Moved) <$> out d) (successful d) (panic_slot d)
                 (active d) (drops d) (frees d))
  | _, _ => (UB, d)
  end.

(** The scope of [guard] in [drive]: however [body] leaves it, by returning or by
    unwinding, [ExecutorDropGuard::drop] runs on the way out. *)
Definition with_guard {S R A} (num_chunks : Z) (body : M (dstate S R) A)
    : M (dstate S R) A := fun d =>
  match body d with
  | (UB, d) => (UB, d)
  | (o, d) =>
      match guard_drop num_chunks d with
      | (Ret _, d) => (o, d)
      | (Panic p, d) => (Panic p, d)
      | (UB, d) => (UB, d)
      end
  end.

(** The values the buffer owns in order, where initialised. *)
Definition slot_value {R} (o : slot R) : option R :=
  match o with Init r => Some r | _ => None end.

Section drive.
Context {S R : Type} (run : Z -> M S R).

(** [task_wrapper]: a panic of the task is caught and its payload recorded if
    it is the first. *)
Definition task_wrapper (index : Z) : M (dstate S R) unit := fun d =>
  match run index (region d) with
  | (Ret val, s) =>
      if decide (0 <= index < zlen (out d)) then
        (Ret tt, mkD s (zset index (Init val) (out d)) (zset index true (successful d))
                   (panic_slot d) (active d) (drops d) (frees d))
      else (UB, d)
  | (Panic payload, s) =>
      let g := lock_panic_payload (panic_slot d) in
      let g := match g with None => Some payload | Some _ => g end in
      (Ret tt, mkD s (out d) (successful d)
                 (mkMutex (poisoned (panic_slot d)) g) (active d) (drops d) (frees d))
  | (UB, s) => (UB, d)
  end.

(** The invocations an executor performs, one after the other. *)
Fixpoint run_invocations (indices : list Z) : M (dstate S R) unit :=
  match indices with
  | [] => mret tt
  | index :: indices => task_wrapper index ≫= fun _ => run_invocations indices
  end.

(** The epilogue once the executor has returned. *)
Definition collect_results (num_chunks : Z) : M (dstate S R) (list R) := fun d =>
  let d := disarm d in
  match take_panic_payload (panic_slot d) with
  | Some payload =>
      match (drop_successful (zseq num_chunks) ≫= fun _ => free_buffer) d with
      | (Ret _, d) => (Panic payload, d)
      | (Panic p, d) => (Panic p, d)
      | (UB, d) => (UB, d)
      end
  | None => hand_over d
  end.

(** From the last invocation on: [executor.execute] unwinds through [drive], or it
    returns and the epilogue runs. *)
Definition leave_executor (E : ParallelExecutor) (num_chunks : Z)
    : M (dstate S R) (list R) := fun d =>
  match unwinds E num_chunks with
  | Some payload => (Panic payload, d)
  | None => collect_results num_chunks d
  end.

(** The same up to the end of [drive], the drop of the guard included. *)
Definition executor_returned (E : ParallelExecutor) (num_chunks : Z)
    : M (dstate S R) (list R) := with_guard num_chunks (leave_executor E num_chunks).

(** [drive] with a registered executor: the guard is alive from before the
    executor is called to the end. *)
Definition drive_registered (E : ParallelExecutor) (num_chunks : Z) (s : S)
    : outcome (list R) * dstate S R :=
  with_guard num_chunks
    (run_invocations (invocations E num_chunks) ≫= fun _ => leave_executor E num_chunks)
    (initial_dstate num_chunks s).

(** Run tasks one after the other, keeping the outcome of each. *)
Fixpoint run_tasks (indices : list Z) (s : S) : list (Z * outcome R) * S :=
  match indices with
  | [] => ([], s)
  | index :: indices =>
      let '(o, s) := run index s in
      let '(os, s) := run_tasks indices s in
      ((index, o) :: os, s)
  end.

(** The outcome that task [index] had. *)
Fixpoint outcome_of (index : Z) (os : list (Z * outcome R)) : outcome R :=
  match os with
  | [] => UB
  | (i, o) :: os => if decide (i = index) then o else outcome_of index os
  end.

(** [for h in handles { match h.join() { .. } }] *)
Fixpoint join_handles (os : list (Z * outcome R)) (handles : list Z) (results : list R)
    : outcome (list R) :=
  match handles with
  | [] => Ret results
  | h :: handles =>
      match outcome_of h os with
      | Ret value => join_handles os handles (results ++ [value])
      | Panic payload => Panic payload
      | UB => UB
      end
  end.

(** [drive] on scoped threads.  [sched] is the order in which the threads' tasks
    take effect; the scope ends only when every thread has finished, also when
    the inline task unwinds. *)
Definition drive_scoped `{BuildProfile} (sched : list Z) (num_chunks : Z) (s : S)
    : outcome (list R) * S :=
  if decide (num_chunks = 1) then
    match run 0 s with
    | (Ret r, s) => (Ret [r], s)
    | (Panic p, s) => (Panic p, s)
    | (UB, s) => (UB, s)
    end
  else
    match num_chunks -! 1 with
    | Ret last_index =>
        let '(os, s) := run_tasks sched s in
        match outcome_of last_index os with
        | Ret last => (((fun rs => rs ++ [last]) <$> join_handles os (zseq last_index) []), s)
        | Panic p => (Panic p, s)
        | UB => (UB, s)
        end
    | Panic p => (Panic p, s)
    | UB => (UB, s)
    end.

(** [drive]: the slot is loaded once; [sched] is the schedule of the scoped
    path. *)
Definition drive `{BuildProfile, ProgramText} (slot : Z) (sched : list Z)
    (num_chunks : Z) (s : S) : outcome (list R) * S :=
  if overflow_checks && bool_decide (num_chunks < 1) then (Panic AssertPanic, s)
  else
    match registered_parallel_executor slot with
    | Some executor =>
        let '(o, d) := drive_registered (execute executor) num_chunks s in (o, region d)
    | None => drive_scoped sched num_chunks s
    end.

End drive.

(** ** Independent tasks *)

(** The first payload, in the given order, among the outcomes of the tasks. *)
Fixpoint first_panic {R} (res : Z -> outcome R) (indices : list Z) : option panic_payload :=
  match indices with
  | [] => None
  | i :: indices => match res i with Panic p => Some p | _ => first_panic res indices end
  end.

(** The value of a returned outcome. *)
Definition ret_value {R} (o : outcome R) : option R :=
  match o with Ret r => Some r | _ => None end.

(** The promise a client's tasks make to the engine: the outcome of a task does
    not depend on which other tasks ran before it, nor the final region on the
    order.  Writers of disjoint shards keep it. *)
Class IndependentTasks {S R} (run : Z -> M S R) (n : Z) (s0 : S)
    (res : Z -> outcome R) (final : S) : Prop := {
  task_result ran i : NoDup (i :: ran) -> Forall (fun j => 0 <= j < n) (i :: ran) ->
    fst (run i (snd (run_tasks run ran s0))) = res i;
  task_final order : order ≡ₚ zseq n -> snd (run_tasks run order s0) = final;
  task_defined i : 0 <= i < n -> res i <> UB
}.

(** ** Lemmas *)

Lemma lock_panic_payload_content m : lock_panic_payload m = content m.
Proof. unfold lock_panic_payload, Mutex_lock. by destruct (poisoned m). Qed.

Lemma take_panic_payload_content m : take_panic_payload m = content m.
Proof. unfold take_panic_payload, Mutex_lock. by destruct (poisoned m). Qed.

Lemma zget_fmap_zseq {A} (f : Z -> A) n i :
  0 <= i < n -> zget (f <$> zseq n) i = Some (f i).
Proof.
  intros Hi. unfold zget, zseq. rewrite decide_True by lia.
  rewrite !list_lookup_fmap, lookup_seq_lt by lia. cbn. do 2 f_equal. lia.
Qed.

Lemma zset_fmap_zseq {A} (f g : Z -> A) n i x :
  0 <= i < n -> g i = x -> (forall j, j <> i -> g j = f j) ->
  zset i x (f <$> zseq n) = g <$> zseq n.
Proof.
  intros Hi Hx Hg. unfold zset. apply list_eq. intros k.
  destruct (decide (k = Z.to_nat i)) as [->|Hk].
  - rewrite list_lookup_insert_eq by (unfold zseq; rewrite !length_fmap, length_seq; lia).
    pose proof (zget_fmap_zseq g n i Hi) as Hgi. unfold zget in Hgi.
    rewrite decide_True in Hgi by lia. congruence.
  - rewrite list_lookup_insert_ne by done. unfold zseq. rewrite !list_lookup_fmap.
    destruct (seq 0 (Z.to_nat n) !! k) as [m|] eqn:E; [|done].
    apply lookup_seq in E. cbn. f_equal. symmetry. apply Hg. lia.
Qed.

Lemma replicate_fmap_zseq {A} (x : A) n :
  replicate (Z.to_nat n) x = (fun _ => x) <$> zseq n.
Proof.
  symmetry. unfold zseq. rewrite <- list_fmap_compose. apply list_eq. intros i.
  rewrite list_lookup_fmap.
  destruct (decide (i < Z.to_nat n)%nat).
  - by rewrite lookup_seq_lt, lookup_replicate_2 by lia.
  - rewrite lookup_seq_ge by lia. symmetry. apply lookup_replicate_None. lia.
Qed.

(** The drop of a disarmed guard does nothing. *)
Lemma with_guard_disarmed {S R A} (n : Z) (body : M (dstate S R) A) d o d' :
  body d = (o, d') -> active d' = false -> with_guard n body d = (o, d').
Proof. intros Hb Ha. unfold with_guard, guard_drop. rewrite Hb, Ha. by destruct o. Qed.

(** [hand_over] of a buffer that was not freed. *)
Lemma hand_over_all {S R} (d : dstate S R) rs :
  assume_init (out d) = Ret rs -> frees d = 0%nat ->
  hand_over d = (Ret rs, mkD (region d) ((fun _ => Moved) <$> out d) (successful d) (panic_slot d)
                           (active d) (drops d) 0).
Proof. intros Ho Hf. unfold hand_over. by rewrite Ho, Hf. Qed.

(** Once the tasks have been invoked, [drive] leaves the executor. *)
Lemma drive_registered_leave {S R} (run : Z -> M S R) E n s d :
  run_invocations run (invocations E n) (initial_dstate n s) = (Ret tt, d) ->
  drive_registered run E n s = executor_returned E n d.
Proof.
  intros Hr. unfold drive_registered, executor_returned, with_guard, mbind, M_bind. by rewrite Hr.
Qed.

Section tasks.
Context {S R : Type} (run : Z -> M S R).

Lemma run_tasks_app xs ys s :
  run_tasks run (xs ++ ys) s =
  (fst (run_tasks run xs s) ++ fst (run_tasks run ys (snd (run_tasks run xs s))),
   snd (run_tasks run ys (snd (run_tasks run xs s)))).
Proof.
  revert s. induction xs as [|x xs IH]; intros s; cbn.
  - by destruct (run_tasks run ys s).
  - destruct (run x s) as [o s'] eqn:E. rewrite IH. by destruct (run_tasks run xs s').
Qed.

Context (n : Z) (s0 : S) (res : Z -> outcome R) (final : S).

(** What slot [i] holds once the tasks in [ran] have run. *)
Definition slot_spec (ran : list Z) (i : Z) : slot R :=
  if decide (i ∈ ran) then match res i with Ret v => Init v | _ => Uninit end else Uninit.
Definition flag_spec (ran : list Z) (i : Z) : bool :=
  bool_decide (i ∈ ran) && is_ret (res i).
Definition value_spec (ran : list Z) (i : Z) : option R :=
  if decide (i ∈ ran) then ret_value (res i) else None.

(** The engine's state once the tasks in [ran] have run, in that order. *)
Definition expected (ran : list Z) : dstate S R :=
  mkD (snd (run_tasks run ran s0)) (slot_spec ran <$> zseq n) (flag_spec ran <$> zseq n)
    (mkMutex false (first_panic res ran)) true [] 0.

Lemma expected_nil : initial_dstate n s0 = expected [].
Proof.
  unfold initial_dstate, expected, Mutex_new. rewrite !replicate_fmap_zseq. done.
Qed.

Lemma first_panic_snoc ran i :
  first_panic res (ran ++ [i]) =
  match first_panic res ran with
  | Some p => Some p
  | None => match res i with Panic p => Some p | _ => None end
  end.
Proof.
  induction ran as [|j ran IH]; cbn; [by destruct (res i)|]. by destruct (res j).
Qed.

Lemma elem_of_snoc_ne (ran : list Z) i j : j <> i -> j ∈ ran ++ [i] <-> j ∈ ran.
Proof. intros Hj. rewrite elem_of_app, list_elem_of_singleton. split; [by intros [?|?]|by left]. Qed.

Lemma elem_of_snoc (ran : list Z) i : i ∈ ran ++ [i].
Proof. rewrite elem_of_app, list_elem_of_singleton. by right. Qed.

Lemma slot_spec_other ran i j : j <> i -> slot_spec (ran ++ [i]) j = slot_spec ran j.
Proof.
  intros Hj. unfold slot_spec. apply decide_ext. by apply elem_of_snoc_ne.
Qed.

Lemma flag_spec_other ran i j : j <> i -> flag_spec (ran ++ [i]) j = flag_spec ran j.
Proof.
  intros Hj. unfold flag_spec. f_equal. apply bool_decide_ext. by apply elem_of_snoc_ne.
Qed.

Lemma specs_unchanged ran i :
  i ∉ ran -> is_ret (res i) = false ->
  (slot_spec (ran ++ [i]) <$> zseq n) = (slot_spec ran <$> zseq n) /\
  (flag_spec (ran ++ [i]) <$> zseq n) = (flag_spec ran <$> zseq n).
Proof.
  intros Hi Hr. split; apply list_fmap_ext; intros k j _;
    (destruct (decide (j = i)) as [->|];
      [|by apply slot_spec_other || by apply flag_spec_other]).
  - unfold slot_spec. rewrite (decide_False (P := i ∈ ran)) by done.
    destruct (decide _); [|done]. by destruct (res i).
  - unfold flag_spec. rewrite Hr. by rewrite !andb_false_r.
Qed.

Context `{!IndependentTasks run n s0 res final}.

Lemma task_wrapper_expected ran i :
  NoDup (i :: ran) -> Forall (fun j => 0 <= j < n) (i :: ran) ->
  task_wrapper run i (expected ran) = (Ret tt, expected (ran ++ [i])).
Proof.
  intros Hnd Hin. pose proof (task_result ran i Hnd Hin) as Hres.
  apply NoDup_cons in Hnd as [Hni _].
  apply Forall_cons in Hin as [Hi _]. pose proof (task_defined i Hi) as Hdef.
  assert (snd (run_tasks run (ran ++ [i]) s0)
          = snd (run i (snd (run_tasks run ran s0)))) as Hst.
  { rewrite run_tasks_app; cbn. by destruct (run i _). }
  unfold task_wrapper. cbn [region expected].
  destruct (run i (snd (run_tasks run ran s0))) as [o s'] eqn:E. cbn in Hres, Hst. subst o.
  unfold expected. rewrite Hst, first_panic_snoc.
  destruct (res i) as [v|p|] eqn:Er; [| |done].
  - cbn [out]. rewrite decide_True by (unfold zlen; rewrite length_fmap;
      change (Z.of_nat (length (zseq n))) with (zlen (zseq n)); rewrite zlen_zseq; lia).
    cbn [successful panic_slot active drops frees].
    rewrite (zset_fmap_zseq _ (slot_spec (ran ++ [i])));
      [|done| |by intros; apply slot_spec_other].
    2: { unfold slot_spec. rewrite decide_True by apply elem_of_snoc. by rewrite Er. }
    rewrite (zset_fmap_zseq _ (flag_spec (ran ++ [i])));
      [|done| |by intros; apply flag_spec_other].
    2: { unfold flag_spec. rewrite bool_decide_true by apply elem_of_snoc. by rewrite Er. }
    by destruct (first_panic res ran).
  - cbn [out successful panic_slot active drops frees].
    destruct (specs_unchanged ran i Hni) as [-> ->]; [by rewrite Er|].
    rewrite lock_panic_payload_content. cbn. by destruct (first_panic res ran).
Qed.

Lemma run_invocations_expected todo ran :
  NoDup (ran ++ todo) -> Forall (fun j => 0 <= j < n) (ran ++ todo) ->
  run_invocations run todo (expected ran) = (Ret tt, expected (ran ++ todo)).
Proof.
  revert ran. induction todo as [|i todo IH]; intros ran Hnd Hin; cbn.
  { by rewrite app_nil_r. }
  assert (ran ++ i :: todo = (ran ++ [i]) ++ todo) as E by (by rewrite <- app_assoc).
  rewrite E in *. unfold mbind, M_bind. rewrite task_wrapper_expected.
  - by apply IH.
  - apply NoDup_app in Hnd as (Hnd & _ & _). rewrite Permutation_app_comm in Hnd. done.
  - apply Forall_app in Hin as [Hin _]. rewrite Permutation_app_comm in Hin. done.
Qed.

(** The out-buffer after the slots in [dropped] were dropped in place. *)
Definition dropped_slot (ran dropped : list Z) (i : Z) : slot R :=
  if decide (i ∈ dropped) then
    match value_spec ran i with Some _ => Moved | None => Uninit end
  else slot_spec ran i.

(** The state after the results of [ran] at the indices [dropped] were dropped. *)
Definition torn_down (ran dropped : list Z) (act : bool) : dstate S R :=
  mkD (snd (run_tasks run ran s0)) (dropped_slot ran dropped <$> zseq n)
    (flag_spec ran <$> zseq n) (mkMutex false (first_panic res ran)) act
    (omap (value_spec ran) dropped) 0.

Lemma flag_value ran i :
  flag_spec ran i = bool_decide (is_Some (value_spec ran i)).
Proof.
  unfold flag_spec, value_spec. destruct (decide (i ∈ ran)) as [Hi|Hi].
  - rewrite bool_decide_true by done. by destruct (res i).
  - by rewrite bool_decide_false.
Qed.

Lemma slot_value_spec ran i v :
  value_spec ran i = Some v -> slot_spec ran i = Init v.
Proof.
  unfold value_spec, slot_spec. destruct (decide _); [|done].
  destruct (res i); cbn; intros; by simplify_eq.
Qed.

Lemma drop_successful_torn_down ran todo dropped act :
  NoDup (dropped ++ todo) -> Forall (fun j => 0 <= j < n) todo ->
  drop_successful todo (torn_down ran dropped act)
  = (Ret tt, torn_down ran (dropped ++ todo) act).
Proof.
  revert dropped. induction todo as [|i todo IH]; intros dropped Hnd Hin; cbn.
  { by rewrite app_nil_r. }
  apply Forall_cons in Hin as [Hi Hin].
  assert (i ∉ dropped) as Hni.
  { apply NoDup_app in Hnd as (_ & Hd & _). intros Hx. apply (Hd i Hx). by left. }
  assert (dropped ++ i :: todo = (dropped ++ [i]) ++ todo) as E by (by rewrite <- app_assoc).
  rewrite E in *. rewrite zget_fmap_zseq, flag_value by done.
  assert (forall j, j <> i ->
    dropped_slot ran (dropped ++ [i]) j = dropped_slot ran dropped j) as Hother.
  { intros j Hj. unfold dropped_slot. apply decide_ext. by apply elem_of_snoc_ne. }
  destruct (value_spec ran i) as [v|] eqn:Ev.
  - rewrite bool_decide_true by done. unfold mbind, M_bind, drop_in_place. cbn [out torn_down].
    rewrite zget_fmap_zseq by done. unfold dropped_slot at 1.
    rewrite decide_False, (slot_value_spec _ _ _ Ev) by done.
    rewrite <- IH by done. cbn. unfold torn_down. rewrite omap_app. cbn. rewrite Ev.
    rewrite (zset_fmap_zseq _ (dropped_slot ran (dropped ++ [i]))); [done|done| |done].
    unfold dropped_slot. rewrite decide_True by apply elem_of_snoc. by rewrite Ev.
  - rewrite bool_decide_false by (by intros [? ?]).
    rewrite <- IH by done. unfold torn_down. rewrite omap_app. cbn. rewrite Ev, app_nil_r.
    do 2 f_equal. apply list_fmap_ext. intros k j _. destruct (decide (j = i)) as [->|];
      [|by rewrite Hother].
    unfold dropped_slot. rewrite decide_False by done.
    rewrite decide_True by apply elem_of_snoc. rewrite Ev. unfold slot_spec, value_spec in *.
    destruct (decide (i ∈ ran)); [|done]. by destruct (res i).
Qed.

Lemma Forall_zseq : Forall (fun j => 0 <= j < n) (zseq n).
Proof. apply Forall_forall. intros j Hj. by apply elem_of_zseq in Hj. Qed.

(** Dropping every flagged slot logs each produced value once, in index order. *)
Lemma drop_all ran act :
  drop_successful (zseq n) (torn_down ran [] act)
  = (Ret tt, torn_down ran (zseq n) act).
Proof.
  rewrite drop_successful_torn_down; [done|apply NoDup_zseq|apply Forall_zseq].
Qed.

Lemma expected_torn_down ran : expected ran = torn_down ran [] true.
Proof. done. Qed.

Lemma disarm_expected ran : disarm (expected ran) = torn_down ran [] false.
Proof. done. Qed.

Lemma out_torn_down ran act : out (torn_down ran [] act) = (slot_spec ran <$> zseq n).
Proof. done. Qed.

Lemma assume_init_all (vals : Z -> R) ran l :
  (forall i, i ∈ l -> slot_spec ran i = Init (vals i)) ->
  assume_init (slot_spec ran <$> l) = Ret (vals <$> l).
Proof.
  induction l as [|i l IH]; intros Hs; [done|]. cbn.
  rewrite (Hs i) by (by left). rewrite IH by (intros; apply Hs; by right). done.
Qed.

Lemma assume_init_omap ran (l : list Z) :
  (forall i, i ∈ l -> if decide (i ∈ ran) then exists v, res i = Ret v else False) ->
  assume_init (slot_spec ran <$> l) = Ret (omap (fun i => ret_value (res i)) l).
Proof.
  induction l as [|i l IH]; intros Hs; [done|]. cbn. unfold slot_spec at 1.
  specialize (Hs i ltac:(by left)) as Hi. destruct (decide (i ∈ ran)); [|done].
  destruct Hi as [v ->]. cbn. rewrite IH; [done|]. intros j Hj. apply Hs. by right.
Qed.

Lemma assume_init_missing ran l i :
  i ∈ l -> slot_spec ran i = Uninit ->
  Forall (fun j => slot_spec ran j = Uninit \/ exists v, slot_spec ran j = Init v) l ->
  assume_init (slot_spec ran <$> l) = UB.
Proof.
  intros Hi Hu Hl. induction Hl as [|j l Hj Hl IH]; [by apply elem_of_nil in Hi|]. cbn.
  apply elem_of_cons in Hi as [<-|Hi]; [by rewrite Hu|].
  rewrite IH by done. by destruct Hj as [->|[v ->]].
Qed.

Lemma first_panic_None l :
  first_panic res l = None <-> forall i p, i ∈ l -> res i <> Panic p.
Proof.
  induction l as [|i l IH]; cbn.
  - split; [|done]. by intros _ i p ?%elem_of_nil.
  - destruct (res i) as [v|p|] eqn:E.
    + rewrite IH. split; intros Hl j p; [intros [->|Hj]%elem_of_cons|]; try congruence;
        try (by apply Hl); intros Hj; apply Hl; by right.
    + split; [done|]. intros Hl. exfalso. by apply (Hl i p); [left|].
    + rewrite IH. split; intros Hl j p; [intros [->|Hj]%elem_of_cons|]; try congruence;
        try (by apply Hl); intros Hj; apply Hl; by right.
Qed.

Lemma first_panic_Some l p :
  first_panic res l = Some p ->
  exists pre i post, l = pre ++ i :: post /\ res i = Panic p /\ first_panic res pre = None.
Proof.
  induction l as [|i l IH]; cbn; [done|].
  destruct (res i) as [v|q|] eqn:E; intros Hp.
  - destruct (IH Hp) as (pre & j & post & -> & ? & ?).
    exists (i :: pre), j, post. cbn. by rewrite E.
  - simplify_eq. by exists [], i, l.
  - destruct (IH Hp) as (pre & j & post & -> & ? & ?).
    exists (i :: pre), j, post. cbn. by rewrite E.
Qed.
End tasks.

(** The three ways out of the guard's scope, from the state in which the tasks
    [ran] have run. *)
Section way_out.
Context {S R : Type} (run : Z -> M S R) (E : ParallelExecutor) (n : Z) (s0 : S)
  (res : Z -> outcome R) (ran : list Z).

Lemma returned_with_results rs :
  unwinds E n = None -> first_panic res ran = None ->
  assume_init (slot_spec res ran <$> zseq n) = Ret rs ->
  exists d, executor_returned E n (expected run n s0 res ran) = (Ret rs, d) /\
    region d = snd (run_tasks run ran s0) /\ drops d = [] /\ frees d = 0%nat.
Proof.
  intros Hu Hf Hi. eexists. split; [apply with_guard_disarmed|].
  - unfold leave_executor, collect_results.
    rewrite Hu, disarm_expected, take_panic_payload_content. cbn [panic_slot torn_down content].
    rewrite Hf. apply hand_over_all; [by rewrite out_torn_down|done].
  - done.
  - done.
Qed.

Lemma returned_with_panic p :
  unwinds E n = None -> first_panic res ran = Some p ->
  exists d, executor_returned E n (expected run n s0 res ran) = (Panic p, d) /\
    region d = snd (run_tasks run ran s0) /\
    drops d = omap (value_spec res ran) (zseq n) /\ frees d = 1%nat.
Proof.
  intros Hu Hf. eexists. split; [apply with_guard_disarmed|].
  - unfold leave_executor, collect_results.
    rewrite Hu, disarm_expected, take_panic_payload_content. cbn [panic_slot torn_down content].
    rewrite Hf. unfold mbind, M_bind. by rewrite drop_all.
  - done.
  - done.
Qed.

Lemma returned_by_unwinding p :
  unwinds E n = Some p ->
  exists d, executor_returned E n (expected run n s0 res ran) = (Panic p, d) /\
    region d = snd (run_tasks run ran s0) /\
    drops d = omap (value_spec res ran) (zseq n) /\ frees d = 1%nat.
Proof.
  intros Hu. unfold executor_returned, with_guard, leave_executor. rewrite Hu, expected_torn_down.
  unfold guard_drop. cbn [active torn_down]. unfold mbind, M_bind. rewrite drop_all. by eexists.
Qed.
End way_out.

Section registered.
Context {S R : Type} (run : Z -> M S R) (E : ParallelExecutor) (n : Z) (s0 : S)
  (res : Z -> outcome R) (final : S).
Context `{!ExecutorContract E, !IndependentTasks run n s0 res final}.

Lemma run_registered :
  run_invocations run (invocations E n) (initial_dstate n s0)
  = (Ret tt, expected run n s0 res (invocations E n)).
Proof.
  rewrite (expected_nil run n s0 res). rewrite (run_invocations_expected run n s0 res final);
    [done|apply invoked_once|].
  apply Forall_forall. intros i Hi. by apply invoked_in_range in Hi.
Qed.

Lemma drive_registered_expected :
  drive_registered run E n s0 = executor_returned E n (expected run n s0 res (invocations E n)).
Proof. apply drive_registered_leave, run_registered. Qed.

Lemma value_spec_all : unwinds E n = None ->
  omap (value_spec res (invocations E n)) (zseq n) = omap (fun i => ret_value (res i)) (zseq n).
Proof.
  intros Hu. apply list_omap_ext, Forall_Forall2_diag, Forall_forall.
  intros i Hi. unfold value_spec. rewrite decide_True; [done|].
  by rewrite (contract_permutation E n Hu).
Qed.
End registered.

Section scoped.
Context {S R : Type} (run : Z -> M S R) (n : Z) (s0 : S) (res : Z -> outcome R) (final : S).
Context `{!IndependentTasks run n s0 res final}.

Lemma res_defined i : 0 <= i < n -> res i <> UB.
Proof. apply (task_defined (run := run) (s0 := s0) (final := final)). Qed.

Lemma run_tasks_outcomes order ran :
  NoDup (ran ++ order) -> Forall (fun j => 0 <= j < n) (ran ++ order) ->
  fst (run_tasks run order (snd (run_tasks run ran s0))) = (fun i => (i, res i)) <$> order.
Proof.
  revert ran. induction order as [|i order IH]; intros ran Hnd Hin; [done|].
  assert (ran ++ i :: order = (ran ++ [i]) ++ order) as E by (by rewrite <- app_assoc).
  rewrite E in *.
  assert (fst (run i (snd (run_tasks run ran s0))) = res i) as Hres.
  { apply task_result.
    - apply NoDup_app in Hnd as (Hnd & _ & _). by rewrite Permutation_app_comm in Hnd.
    - apply Forall_app in Hin as [Hin _]. by rewrite Permutation_app_comm in Hin. }
  specialize (IH (ran ++ [i]) Hnd Hin). rewrite run_tasks_app in IH. cbn in IH |- *.
  destruct (run i (snd (run_tasks run ran s0))) as [o s'] eqn:Er. cbn in Hres, IH. subst o.
  destruct (run_tasks run order s') as [os s''] eqn:Eo. cbn in IH |- *.
  by rewrite IH.
Qed.

Lemma run_tasks_sched sched :
  sched ≡ₚ zseq n ->
  run_tasks run sched s0 = ((fun i => (i, res i)) <$> sched, final).
Proof.
  intros Hp. pose proof (run_tasks_outcomes sched []) as Ho. cbn in Ho.
  rewrite <- Ho; [|rewrite Hp; apply NoDup_zseq|rewrite Hp; apply Forall_zseq].
  rewrite (surjective_pairing (run_tasks run sched s0)). f_equal. by apply task_final.
Qed.

Lemma outcome_of_fmap i l : i ∈ l -> outcome_of i ((fun i => (i, res i)) <$> l) = res i.
Proof.
  induction l as [|j l IH]; intros Hi; [by apply elem_of_nil in Hi|]. cbn.
  destruct (decide (j = i)) as [->|]; [done|]. apply IH.
  by apply elem_of_cons in Hi as [->|].
Qed.

(** What joining [handles] in order gives. *)
Definition join_spec (handles : list Z) : outcome (list R) :=
  match first_panic res handles with
  | Some p => Panic p
  | None => Ret (omap (fun i => ret_value (res i)) handles)
  end.

Lemma join_handles_spec sched handles results :
  Forall (fun i => i ∈ sched /\ 0 <= i < n) handles ->
  join_handles ((fun i => (i, res i)) <$> sched) handles results
  = app results <$> join_spec handles.
Proof.
  revert results. induction handles as [|h handles IH]; intros results Hf; cbn.
  { by rewrite app_nil_r. }
  apply Forall_cons in Hf as [[Hs Hr] Hf]. rewrite outcome_of_fmap by done.
  pose proof (res_defined h Hr). unfold join_spec. cbn.
  destruct (res h) as [v|p|] eqn:E; [|done|done]. rewrite IH by done.
  unfold join_spec. destruct (first_panic res handles); [done|]. cbn.
  by rewrite <- app_assoc.
Qed.

(** The result of the scoped path: the inline task's payload first, then the
    payload of the lowest panicking index, else all results in order. *)
Definition scoped_spec : outcome (list R) :=
  match res (n - 1) with
  | Panic p => Panic p
  | _ => join_spec (zseq n)
  end.

Lemma zseq_last : 1 <= n -> zseq n = zseq (n - 1) ++ [n - 1].
Proof.
  intros. unfold zseq. replace (Z.to_nat n) with (Z.to_nat (n - 1) + 1)%nat by lia.
  rewrite seq_app, fmap_app. cbn. do 2 f_equal. lia.
Qed.

Lemma drive_scoped_spec `{BuildProfile} sched :
  1 <= n <= usize_max -> sched ≡ₚ zseq n ->
  drive_scoped run sched n s0 = (scoped_spec, final).
Proof.
  intros Hn Hp. unfold drive_scoped. destruct (decide (n = 1)) as [Hn1|Hn1].
  - pose proof (task_result [] 0 (NoDup_singleton 0) ltac:(by repeat constructor; lia)) as Hr.
    pose proof (task_final [0] ltac:(by rewrite Hn1)) as Hfin.
    pose proof (res_defined 0 ltac:(lia)). cbn in Hr, Hfin. rewrite Hn1 in *.
    unfold scoped_spec. rewrite Hn1. change (1 - 1) with 0.
    destruct (run 0 s0) as [o s']. cbn in Hr, Hfin. subst o s'.
    unfold join_spec. change (zseq 1) with [0]. cbn. by destruct (res 0).
  - rewrite usub_ok by lia. rewrite run_tasks_sched by done.
    rewrite outcome_of_fmap by (rewrite Hp; apply elem_of_zseq; lia).
    pose proof (res_defined (n - 1) ltac:(lia)).
    unfold scoped_spec. destruct (res (n - 1)) as [v|p|] eqn:E; [|done|done].
    rewrite join_handles_spec.
    2: { apply Forall_forall. intros i Hi%elem_of_zseq. rewrite Hp, elem_of_zseq. lia. }
    f_equal. unfold join_spec. rewrite zseq_last by lia. rewrite omap_app.
    rewrite first_panic_snoc, E. cbn. rewrite E.
    by destruct (first_panic res (zseq (n - 1))).
Qed.

Lemma returns_of_no_panic i (l : list Z) :
  first_panic res l = None -> i ∈ l -> 0 <= i < n -> exists v, res i = Ret v.
Proof.
  intros Hf Hi Hr. pose proof (proj1 (first_panic_None res l) Hf) as Hnp.
  pose proof (res_defined i Hr). destruct (res i) as [v|p|] eqn:E; [by eexists| |done].
  by destruct (Hnp i p Hi).
Qed.

Lemma zlen_omap_ret (l : list Z) :
  (forall i, i ∈ l -> exists v, res i = Ret v) ->
  zlen (omap (fun i => ret_value (res i)) l) = zlen l.
Proof.
  induction l as [|i l IH]; intros Hl; [done|]. cbn.
  destruct (Hl i) as [v ->]; [by left|]. cbn. rewrite !zlen_cons, IH; [done|].
  intros j Hj. apply Hl. by right.
Qed.

Lemma omap_ret_vals (vals : Z -> R) (l : list Z) :
  (forall i, i ∈ l -> res i = Ret (vals i)) ->
  omap (fun i => ret_value (res i)) l = vals <$> l.
Proof.
  induction l as [|i l IH]; intros Hl; [done|]. cbn.
  rewrite (Hl i) by (by left). cbn. rewrite IH; [done|]. intros j Hj. apply Hl. by right.
Qed.
End scoped.

(** The scoped path when every task returns. *)
Lemma scoped_spec_ret {R} (n : Z) (res : Z -> outcome R) (vals : Z -> R) :
  1 <= n -> (forall i, 0 <= i < n -> res i = Ret (vals i)) ->
  scoped_spec n res = Ret (vals <$> zseq n).
Proof.
  intros Hn Hv. unfold scoped_spec, join_spec. rewrite (Hv (n - 1)) by lia.
  rewrite (proj2 (first_panic_None res _)).
  2: { intros i q Hi%elem_of_zseq. by rewrite Hv. }
  f_equal. apply omap_ret_vals. intros i Hi%elem_of_zseq. by apply Hv.
Qed.

(** The success path of a registered executor. *)
Lemma drive_registered_omap {S R} (run : Z -> M S R) (E : ParallelExecutor)
    (n : Z) (s0 : S) (res : Z -> outcome R) (final : S)
    `{!ExecutorContract E, !IndependentTasks run n s0 res final} :
  unwinds E n = None -> (forall i, 0 <= i < n -> exists v, res i = Ret v) ->
  exists d, drive_registered run E n s0
            = (Ret (omap (fun i => ret_value (res i)) (zseq n)), d) /\ region d = final /\
    drops d = [] /\ frees d = 0%nat.
Proof.
  intros Hu Hv. pose proof (contract_permutation E n Hu) as Hp.
  rewrite (drive_registered_expected run E n s0 res final), <- (task_final (final := final) _ Hp).
  apply returned_with_results; [done| |].
  - apply first_panic_None. intros i p Hi. rewrite Hp in Hi. apply elem_of_zseq in Hi.
    by destruct (Hv i Hi) as [v ->].
  - apply assume_init_omap. intros i Hi. rewrite decide_True by (by rewrite Hp).
    apply Hv. by apply elem_of_zseq.
Qed.

(** The panic path of a registered executor. *)
Lemma drive_registered_panic {S R} (run : Z -> M S R) (E : ParallelExecutor)
    (n : Z) (s0 : S) (res : Z -> outcome R) (final : S) (p : panic_payload)
    `{!ExecutorContract E, !IndependentTasks run n s0 res final} :
  unwinds E n = None -> first_panic res (invocations E n) = Some p ->
  exists d, drive_registered run E n s0 = (Panic p, d) /\ region d = final /\
    drops d = omap (fun i => ret_value (res i)) (zseq n) /\ frees d = 1%nat.
Proof.
  intros Hu Ef. pose proof (contract_permutation E n Hu) as Hp.
  rewrite (drive_registered_expected run E n s0 res final), <- (task_final (final := final) _ Hp),
    <- (value_spec_all E n res Hu). by apply returned_with_panic.
Qed.

(** What a call of [drive] can end in, on either driver. *)
Lemma drive_outcome `{BuildProfile, ProgramText} {S R} (run : Z -> M S R)
    (n : Z) (s0 : S) (res : Z -> outcome R) (final : S) (slot : Z) (sched : list Z)
    `{!IndependentTasks run n s0 res final} :
  (forall a, ExecutorContract (executor_at a)) ->
  (forall a, unwinds (executor_at a) n = None) ->
  1 <= n <= usize_max -> sched ≡ₚ zseq n ->
  exists o, drive run slot sched n s0 = (o, final) /\
    match o with
    | Ret rs => rs = omap (fun i => ret_value (res i)) (zseq n) /\
        forall i, 0 <= i < n -> exists v, res i = Ret v
    | Panic p => exists i, 0 <= i < n /\ res i = Panic p
    | UB => False
    end.
Proof.
  intros HE Hu Hn Hp. unfold drive. rewrite bool_decide_false, andb_false_r by lia.
  assert (forall l p, first_panic res l = Some p -> l ≡ₚ zseq n ->
            exists i, 0 <= i < n /\ res i = Panic p) as Hpan.
  { intros l p Hf Hl. destruct (first_panic_Some res _ _ Hf) as (pre & i & post & -> & Hi & _).
    exists i. split; [|done]. apply elem_of_zseq. rewrite <- Hl.
    apply elem_of_app. right. by left. }
  assert (forall l, first_panic res l = None -> l ≡ₚ zseq n ->
            forall i, 0 <= i < n -> exists v, res i = Ret v) as Hret.
  { intros l Hf Hl i Hi. apply (returns_of_no_panic run n s0 res final i l); [done| |done].
    rewrite Hl. by apply elem_of_zseq. }
  destruct (registered_parallel_executor slot) as [e|].
  - specialize (HE (executor_fn e)). specialize (Hu (executor_fn e)). unfold execute.
    pose proof (contract_permutation _ n Hu) as Hperm.
    destruct (first_panic res (invocations (executor_at (executor_fn e)) n)) as [p|] eqn:Ef.
    + destruct (drive_registered_panic run _ n s0 res final p Hu Ef) as (d & -> & <- & _).
      eexists. split; [done|]. by eapply Hpan.
    + assert (forall i, 0 <= i < n -> exists v, res i = Ret v) as Hr by (by eapply Hret).
      destruct (drive_registered_omap run _ n s0 res final Hu Hr) as (d & -> & <- & _).
      eexists. split; [done|]. by split.
  - rewrite (drive_scoped_spec run n s0 res final) by done. eexists. split; [done|].
    unfold scoped_spec, join_spec. pose proof (res_defined run n s0 res final (n - 1) ltac:(lia)).
    destruct (res (n - 1)) as [v|p|] eqn:El; [|by exists (n - 1); split; [lia|]|done].
    destruct (first_panic res (zseq n)) as [p|] eqn:Ef; [by eapply Hpan|].
    split; [done|]. by eapply Hret.
Qed.

(** The success path of a registered executor. *)
Lemma drive_registered_ret {S R} (run : Z -> M S R) (E : ParallelExecutor)
    (n : Z) (s0 : S) (res : Z -> outcome R) (final : S) (vals : Z -> R)
    `{!ExecutorContract E, !IndependentTasks run n s0 res final} :
  unwinds E n = None -> (forall i, 0 <= i < n -> res i = Ret (vals i)) ->
  exists d, drive_registered run E n s0 = (Ret (vals <$> zseq n), d) /\
    region d = final /\ drops d = [] /\ frees d = 0%nat.
Proof.
  intros Hu Hv. rewrite <- (omap_ret_vals res vals (zseq n)).
  - apply (drive_registered_omap run E n s0 res final); [done|]. intros i Hi. by eexists; apply Hv.
  - intros i Hi%elem_of_zseq. by apply Hv.
Qed.

(** ** Properties *)

(** On a registered executor that keeps its contract and returns, a call
    whose tasks all return yields their results in index order, whatever the
    order in which the executor ran them; the buffer is handed to the caller:
    nothing is dropped and nothing is freed. *)
Theorem drive_registered_returns {S R} (run : Z -> M S R) (E : ParallelExecutor)
    (n : Z) (s0 : S) (res : Z -> outcome R) (final : S) (vals : Z -> R) :
  ExecutorContract E -> IndependentTasks run n s0 res final ->
  unwinds E n = None -> (forall i, 0 <= i < n -> res i = Ret (vals i)) ->
  exists d, drive_registered run E n s0 = (Ret (vals <$> zseq n), d) /\
    region d = final /\ drops d = [] /\ frees d = 0%nat.
Proof. intros HE HI Hu Hv. by apply drive_registered_ret with res. Qed.

(** A two-task client over a two-cell region: task [i] stores [10 + i]. *)
Definition store_task (i : Z) : M (list Z) Z := fun m => (Ret (10 + i), zset i (10 + i) m).
Definition store_res (i : Z) : outcome Z := Ret (10 + i).

Lemma store_task_independent : IndependentTasks store_task 2 [0; 0] store_res [10; 11].
Proof.
  split; [done| |done].
  intros order Hp. assert (zseq 2 = [0; 1]) as E by reflexivity. rewrite E in Hp.
  assert (order = [0; 1] \/ order = [1; 0]) as [->| ->]; [|reflexivity|reflexivity].
  symmetry in Hp. apply Permutation_length_2_inv in Hp. naive_solver.
Qed.

Lemma drive_registered_returns_witness :
  exists d, drive_registered store_task Backwards 2 [0; 0] = (Ret [10; 11], d) /\
    region d = [10; 11] /\ drops d = [] /\ frees d = 0%nat.
Proof.
  exact (drive_registered_returns store_task Backwards 2 [0; 0] store_res [10; 11]
    (fun i => 10 + i) Backwards_contract store_task_independent eq_refl (fun i _ => eq_refl)).
Defined.

(** C10: If some task panics, the call re-raises the payload of the first
    panicking task in the executor's order, after dropping in place every
    result that was produced, exactly once and no other slot, and freeing the
    buffer exactly once; all other tasks have still run. *)
Theorem drive_registered_panics {S R} (run : Z -> M S R) (E : ParallelExecutor)
    (n : Z) (s0 : S) (res : Z -> outcome R) (final : S) (k : Z) (q : panic_payload) :
  ExecutorContract E -> IndependentTasks run n s0 res final ->
  unwinds E n = None -> 0 <= k < n -> res k = Panic q ->
  exists d pre i post p, invocations E n = pre ++ i :: post /\ res i = Panic p /\
    (forall j r, j ∈ pre -> res j <> Panic r) /\
    drive_registered run E n s0 = (Panic p, d) /\ region d = final /\
    drops d = omap (fun i => ret_value (res i)) (zseq n) /\ frees d = 1%nat.
Proof.
  intros HE HI Hu Hk Hq. pose proof (contract_permutation E n Hu) as Hp.
  destruct (first_panic res (invocations E n)) as [p|] eqn:Ef.
  2: { exfalso. pose proof (proj1 (first_panic_None res _) Ef) as Hf.
       apply (Hf k q); [|done]. rewrite Hp. by apply elem_of_zseq. }
  destruct (first_panic_Some res _ _ Ef) as (pre & i & post & Hinv & Hi & Hpre).
  destruct (drive_registered_panic run E n s0 res final p Hu Ef) as (d & Hd & Hr & Hdr & Hf).
  exists d, pre, i, post, p. split_and!; [done|done| |done..].
  by apply first_panic_None.
Qed.

(** Three tasks over the unit region, of which task [1] panics. *)
Definition mixed_res (i : Z) : outcome Z :=
  if decide (i = 1) then Panic (UserPanic 7) else Ret (10 + i).
Definition mixed_task (i : Z) : M unit Z := fun s => (mixed_res i, s).

Lemma mixed_task_independent : IndependentTasks mixed_task 3 tt mixed_res tt.
Proof.
  split; [done| |].
  - intros order _. by destruct (snd (run_tasks mixed_task order tt)).
  - intros i _. unfold mixed_res. by destruct (decide _).
Qed.

Lemma drive_registered_panics_witness :
  exists d p, drive_registered mixed_task Backwards 3 tt = (Panic p, d) /\
    drops d = [10; 12] /\ frees d = 1%nat.
Proof.
  destruct (drive_registered_panics mixed_task Backwards 3 tt mixed_res tt 1 (UserPanic 7)
    Backwards_contract mixed_task_independent eq_refl ltac:(lia) eq_refl)
    as (d & pre & i & post & p & _ & _ & _ & Hd & _ & Hdr & Hf).
  exists d, p. split; [exact Hd|]. split; [exact Hdr|exact Hf].
Defined.

(** C11: If the executor itself unwinds, possibly with some indices skipped, the
    drop guard releases exactly what exists: each result produced so far is
    dropped once, the buffer is freed once, and the executor's payload goes on
    unwinding through the caller. *)
Theorem drive_registered_unwinds {S R} (run : Z -> M S R) (E : ParallelExecutor)
    (n : Z) (s0 : S) (res : Z -> outcome R) (final : S) (p : panic_payload) :
  ExecutorContract E -> IndependentTasks run n s0 res final ->
  unwinds E n = Some p ->
  exists d, drive_registered run E n s0 = (Panic p, d) /\
    region d = snd (run_tasks run (invocations E n) s0) /\
    drops d = omap (fun i => if decide (i ∈ invocations E n) then ret_value (res i) else None)
                (zseq n) /\ frees d = 1%nat.
Proof.
  intros HE HI Hu. rewrite (drive_registered_expected run E n s0 res final).
  by apply returned_by_unwinding.
Qed.

(** An executor that runs the even indices and then unwinds. *)
Definition Unwinding : ParallelExecutor :=
  mkPE (fun n => filter (fun i => i mod 2 = 0) (zseq n)) (fun _ => Some (UserPanic 1)).

Lemma Unwinding_contract : ExecutorContract Unwinding.
Proof.
  split; cbn; [| |done].
  - intros n. apply NoDup_filter, NoDup_zseq.
  - intros n i Hi. apply list_elem_of_filter in Hi as [_ Hi]. by apply elem_of_zseq.
Qed.

Lemma drive_registered_unwinds_witness :
  exists d, drive_registered mixed_task Unwinding 3 tt = (Panic (UserPanic 1), d) /\
    region d = tt /\ drops d = [10; 12] /\ frees d = 1%nat.
Proof.
  exact (drive_registered_unwinds mixed_task Unwinding 3 tt mixed_res tt (UserPanic 1)
    Unwinding_contract mixed_task_independent eq_refl).
Defined.

(** The engine depends on the executor's contract for soundness: an
    executor that returns normally but skipped an index, with no task having
    panicked, makes the engine read an uninitialised slot. *)
Theorem drive_registered_skipped_index {S R} (run : Z -> M S R) (E : ParallelExecutor)
    (n : Z) (s0 : S) (res : Z -> outcome R) (final : S) (k : Z) :
  IndependentTasks run n s0 res final -> unwinds E n = None ->
  NoDup (invocations E n) -> (forall i, i ∈ invocations E n -> 0 <= i < n) ->
  (forall i p, res i <> Panic p) -> 0 <= k < n -> k ∉ invocations E n ->
  fst (drive_registered run E n s0) = UB.
Proof.
  intros HI Hu Hnd Hr Hnp Hk Hsk. erewrite drive_registered_leave.
  2: { rewrite (expected_nil run n s0 res), (run_invocations_expected run n s0 res final);
         [reflexivity|done|by apply Forall_forall]. }
  assert (assume_init (slot_spec res (invocations E n) <$> zseq n) = UB) as Hub.
  { apply (assume_init_missing res (invocations E n) (zseq n) k).
    - by apply elem_of_zseq.
    - unfold slot_spec. by rewrite decide_False.
    - apply Forall_forall. intros i _. unfold slot_spec.
      destruct (decide _); [|by left]. destruct (res i); [by right; eexists|by left..]. }
  unfold executor_returned, with_guard, leave_executor, collect_results. cbn [app].
  rewrite Hu, disarm_expected, take_panic_payload_content. cbn [panic_slot torn_down content].
  rewrite (proj2 (first_panic_None res _)) by (intros; apply Hnp).
  unfold hand_over. by rewrite out_torn_down, Hub.
Qed.

(** An executor that forgets the last index. *)
Definition Forgetful : ParallelExecutor := mkPE (fun n => zseq (n - 1)) (fun _ => None).

Lemma drive_registered_skipped_index_witness :
  fst (drive_registered store_task Forgetful 2 [0; 0]) = UB.
Proof.
  apply (drive_registered_skipped_index store_task Forgetful 2 [0; 0] store_res [10; 11] 1
    store_task_independent); [reflexivity|apply NoDup_zseq| |discriminate|lia| ].
  - intros i Hi. apply elem_of_zseq in Hi. lia.
  - intros Hi. apply elem_of_zseq in Hi. lia.
Defined.

(** The scoped-thread path is deterministic: for every order in which the
    threads' tasks take effect, the final region is the same, and the result is
    the payload of the inline (last) task if that panicked, else the payload of
    the lowest panicking index, else the results in index order.  In particular
    the re-raised payload is chosen by index, not by which panic came first. *)
Theorem drive_scoped_deterministic `{BuildProfile} {S R} (run : Z -> M S R)
    (n : Z) (s0 : S) (res : Z -> outcome R) (final : S) (sched : list Z) :
  IndependentTasks run n s0 res final -> 1 <= n <= usize_max -> sched ≡ₚ zseq n ->
  snd (drive_scoped run sched n s0) = final /\
  match fst (drive_scoped run sched n s0) with
  | Ret rs => rs = omap (fun i => ret_value (res i)) (zseq n) /\ zlen rs = n
  | Panic p => exists i, 0 <= i < n /\ res i = Panic p /\
      (i = n - 1 \/ (forall q, res (n - 1) <> Panic q) /\
                     forall j q, 0 <= j < i -> res j <> Panic q)
  | UB => False
  end.
Proof.
  intros HI Hn Hp. rewrite (drive_scoped_spec run n s0 res final) by done.
  split; [done|]. cbn [fst]. unfold scoped_spec, join_spec.
  destruct (res (n - 1)) as [v|p|] eqn:El;
    [|exists (n - 1); by repeat split; [lia..| |left]|by destruct (res_defined run n s0 res final (n - 1) ltac:(lia))].
  destruct (first_panic res (zseq n)) as [p|] eqn:Ef.
  - destruct (first_panic_Some res _ _ Ef) as (pre & i & post & Hz & Hi & Hpre).
    assert (0 <= i < n) as Hin.
    { apply elem_of_zseq. rewrite Hz. apply elem_of_app. right. by left. }
    exists i. split; [done|]. split; [done|]. right. split; [done|].
    intros j q Hj. apply (proj1 (first_panic_None res pre) Hpre).
    rewrite (zseq_split _ _ _ _ Hz). by apply elem_of_zseq.
  - split; [done|]. rewrite (zlen_omap_ret res (zseq n)); [by apply zlen_zseq; lia|].
    intros i Hi. apply (returns_of_no_panic run n s0 res final i _ Ef Hi).
    by apply elem_of_zseq.
Qed.

Lemma drive_scoped_deterministic_witness :
  snd (@drive_scoped _ _ mixed_task debug_profile [2; 1; 0] 3 tt) = tt /\
  fst (@drive_scoped _ _ mixed_task debug_profile [2; 1; 0] 3 tt) = Panic (UserPanic 7).
Proof.
  pose proof (@drive_scoped_deterministic debug_profile _ _ mixed_task 3 tt mixed_res tt
    [2; 1; 0] mixed_task_independent ltac:(split; vm_compute; discriminate)
    ltac:(symmetry; exact (Permutation_rev (zseq 3)))) as [Hs _].
  split; [exact Hs|reflexivity].
Defined.

(** The two drivers are interchangeable: when every task returns, a
    registered executor and the scoped threads produce the same results and the
    same region, for every contract-keeping executor and every schedule, so
    registering a scheduler never changes what a partition call computes. *)
Theorem drivers_agree `{BuildProfile, ProgramText} {S R} (run : Z -> M S R)
    (n : Z) (s0 : S) (res : Z -> outcome R) (final : S) (vals : Z -> R)
    (slot : Z) (sched : list Z) :
  (forall a, ExecutorContract (executor_at a)) ->
  (forall a, unwinds (executor_at a) n = None) ->
  IndependentTasks run n s0 res final -> 1 <= n <= usize_max -> sched ≡ₚ zseq n ->
  (forall i, 0 <= i < n -> res i = Ret (vals i)) ->
  drive run slot sched n s0 = (Ret (vals <$> zseq n), final).
Proof.
  intros HE Hu HI Hn Hp Hv. unfold drive.
  rewrite bool_decide_false, andb_false_r by lia.
  destruct (registered_parallel_executor slot) as [e|].
  - destruct (drive_registered_ret run (execute e) n s0 res final vals) as (d & -> & <- & _);
      [by apply Hu|done|done].
  - rewrite (drive_scoped_spec run n s0 res final) by done. f_equal. apply scoped_spec_ret; [lia|done].
Qed.

Lemma drivers_agree_witness :
  @drive _ _ store_task release_profile (fun _ => Backwards) (as_ptr (Executor_new 5)) [1; 0] 2
    [0; 0] = (Ret [10; 11], [10; 11]).
Proof.
  apply (@drivers_agree release_profile (fun _ => Backwards) _ _ store_task 2 [0; 0]
    store_res [10; 11] (fun i => 10 + i) (as_ptr (Executor_new 5)) [1; 0]
    (fun _ => Backwards_contract) (fun _ => eq_refl) store_task_independent);
    [split; vm_compute; discriminate|exact (perm_swap 0 1 [])|reflexivity].
Defined.
