(* ===== verification/Destructors.v ===== *)
(** * Destructors that panic in the partition engine ([driver_core.rs])

    [Driver] takes the destructors of the results to return.  A client's [Drop]
    may panic, though, and the engine drops results while it cleans up after a
    task's panic: in the epilogue of a registered call, in
    [ExecutorDropGuard::drop] while the executor unwinds, and on the scoped path
    while the scope's body unwinds.  Here each of these runs the destructors:
    a panic in the epilogue unwinds from where it is, past the guard, whose drop
    runs then too; one during an unwinding aborts the process.

    Main results: with destructors that return this is [Driver]; whatever they
    do, no result is dropped twice and every one is dropped, returned or leaked;
    when one panics in the epilogue the rest of the results and the buffer leak
    and the task's payload is lost, and when one panics on the other two paths
    the process aborts. *)
From S2P Require Import Prelude Executor Driver.
From stdpp Require Import base numbers sets list.
Local Open Scope Z_scope.
Local Open Scope mel_scope.

(** How a call ends when a panic may meet another. *)
Inductive ending (A : Type) : Type :=
| Ends (o : outcome A)
| Abort.
Arguments Ends {A} o.
Arguments Abort {A}.

Section destructors.
Context {S R : Type} (run : Z -> M S R).

(** The client's [Drop] for [R]: the payload it panics with, if it does. *)
Context (dtor : R -> option panic_payload).

Definition drop_value (r : R) : outcome unit :=
  match dtor r with None => Ret tt | Some q => Panic q end.

(** [drop_in_place] on a slot: the value is gone also when its destructor
    panics. *)
Definition drop_slot (index : Z) : M (dstate S R) unit := fun d =>
  match zget (out d) index, drop_in_place index d with
  | Some (Init r), (Ret _, d) => (drop_value r, d)
  | _, _ => (UB, d)
  end.

(** The loops of [ExecutorDropGuard::drop] and of the epilogue. *)
Fixpoint drop_slots (indices : list Z) : M (dstate S R) unit :=
  match indices with
  | [] => mret tt
  | index :: indices => fun d =>
      match zget (successful d) index with
      | Some true => (drop_slot index ≫= fun _ => drop_slots indices) d
      | Some false => drop_slots indices d
      | None => (UB, d)
      end
  end.

(** [ExecutorDropGuard::drop]; a panic in it leaves before the buffer is freed. *)
Definition guard_destroy (num_chunks : Z) : M (dstate S R) unit := fun d =>
  if active d
  then (drop_slots (zseq num_chunks) ≫= fun _ => free_buffer) d
  else (Ret tt, d).

(** The epilogue: the thread is not panicking, the task's payload being caught;
    a destructor's panic leaves in its place. *)
Definition collect_or_destroy (num_chunks : Z) : M (dstate S R) (list R) := fun d =>
  let d := disarm d in
  match take_panic_payload (panic_slot d) with
  | Some payload =>
      match (drop_slots (zseq num_chunks) ≫= fun _ => free_buffer) d with
      | (Ret _, d) => (Panic payload, d)
      | (Panic q, d) => (Panic q, d)
      | (UB, d) => (UB, d)
      end
  | None => hand_over d
  end.

(** [Driver.leave_executor] with this epilogue. *)
Definition leave_executor_dtor (E : ParallelExecutor) (num_chunks : Z)
    : M (dstate S R) (list R) := fun d =>
  match unwinds E num_chunks with
  | Some payload => (Panic payload, d)
  | None => collect_or_destroy num_chunks d
  end.

(** The scope of the guard: its [drop] runs however [body] is left, and a panic in
    it, while another unwinds, aborts. *)
Definition with_guard_dtor {A} (num_chunks : Z) (body : M (dstate S R) A) (d : dstate S R)
    : ending A * dstate S R :=
  match body d with
  | (UB, d) => (Ends UB, d)
  | (o, d) =>
      match guard_destroy num_chunks d with
      | (Ret _, d) => (Ends o, d)
      | (Panic q, d) => (if is_ret o then Ends (Panic q) else Abort, d)
      | (UB, d) => (Ends UB, d)
      end
  end.

(** [drive] with a registered executor. *)
Definition drive_registered_dtor (E : ParallelExecutor) (num_chunks : Z) (s : S)
    : ending (list R) * dstate S R :=
  with_guard_dtor num_chunks
    (run_invocations run (invocations E num_chunks) ≫= fun _ => leave_executor_dtor E num_chunks)
    (initial_dstate num_chunks s).

(** ** The scoped path *)

(** Values dropped one after the other while [payload] unwinds (a thread's unread
    result is dropped with its packet, which aborts by itself if that panics).
    With the log of what was dropped. *)
Fixpoint drop_unwinding (payload : panic_payload) (rs : list R) : ending (list R) * list R :=
  match rs with
  | [] => (Ends (Panic payload), [])
  | r :: rs =>
      match drop_value r with
      | Ret _ => let '(e, log) := drop_unwinding payload rs in (e, r :: log)
      | _ => (Abort, [r])
      end
  end.

(** The results that threads not joined yet hold. *)
Definition unread (os : list (Z * outcome R)) (handles : list Z) : list R :=
  omap (fun h => ret_value (outcome_of h os)) handles.

(** The join loop.  [resume_unwind] in it drops the remaining handles, then
    [results], then [last]. *)
Fixpoint join_or_destroy (os : list (Z * outcome R)) (handles : list Z) (results : list R)
    (last : R) : ending (list R) * list R :=
  match handles with
  | [] => (Ends (Ret (results ++ [last])), [])
  | h :: handles =>
      match outcome_of h os with
      | Ret value => join_or_destroy os handles (results ++ [value]) last
      | Panic payload => drop_unwinding payload (unread os handles ++ results ++ [last])
      | UB => (Ends UB, [])
      end
  end.

(** [drive] on scoped threads; when the inline task unwinds the handles are
    dropped.  The third component logs what was dropped. *)
Definition drive_scoped_dtor `{BuildProfile} (sched : list Z) (num_chunks : Z) (s : S)
    : ending (list R) * S * list R :=
  if decide (num_chunks = 1) then
    let '(o, s) := run 0 s in (Ends ((fun r => [r]) <$> o), s, [])
  else
    match num_chunks -! 1 with
    | Ret last_index =>
        let '(os, s) := run_tasks run sched s in
        let '(e, log) :=
          match outcome_of last_index os with
          | Ret last => join_or_destroy os (zseq last_index) [] last
          | Panic p => drop_unwinding p (unread os (zseq last_index))
          | UB => (Ends UB, [])
          end in
        (e, s, log)
    | Panic p => (Ends (Panic p), s, [])
    | UB => (Ends UB, s, [])
    end.
End destructors.

(** Where the results of a registered call are once it has ended: with the caller,
    or still in the buffer. *)
Definition returned_results {R} (e : ending (list R)) : list R :=
  match e with Ends (Ret rs) => rs | _ => [] end.
Definition leaked_results {S R} (d : dstate S R) : list R := omap slot_value (out d).

(** ** Lemmas: dropping values one after the other *)

(** No destructor among [rs] panics. *)
Definition quiet {R} (dtor : R -> option panic_payload) (rs : list R) : Prop :=
  Forall (fun r => dtor r = None) rs.

(** Either all destructors return, or there is a first that panics. *)
Lemma first_loud {R} (dtor : R -> option panic_payload) (rs : list R) :
  quiet dtor rs \/
  exists pre r post q, rs = pre ++ r :: post /\ quiet dtor pre /\ dtor r = Some q.
Proof.
  unfold quiet. induction rs as [|r rs [IH|(pre & r' & post & q & -> & IH & Hq)]]; [by left|..].
  - destruct (dtor r) as [q|] eqn:E; [right; by exists [], r, rs, q|left; by constructor].
  - right. destruct (dtor r) as [q'|] eqn:E; [by exists [], r, (pre ++ r' :: post), q'|].
    exists (r :: pre), r', post, q. split; [done|]. by split; [constructor|].
Qed.

Lemma first_loud_unique {R} (dtor : R -> option panic_payload) pre r post pre' r' post' q q' :
  pre ++ r :: post = pre' ++ r' :: post' -> quiet dtor pre -> quiet dtor pre' ->
  dtor r = Some q -> dtor r' = Some q' -> pre = pre' /\ r = r' /\ post = post'.
Proof.
  intros He Hpre Hpre' Hr Hr'. revert pre' He Hpre'.
  induction Hpre as [|x pre Hx _ IH]; intros [|y pre'] He Hpre'; cbn in He; simplify_eq/=; [done|..].
  - apply Forall_cons in Hpre' as [? _]. congruence.
  - apply Forall_cons in Hpre' as [? Hpre']. by destruct (IH pre') as (-> & -> & ->).
Qed.

Lemma drop_unwinding_quiet {R} (dtor : R -> option panic_payload) p rs :
  quiet dtor rs -> drop_unwinding dtor p rs = (Ends (Panic p), rs).
Proof. induction 1 as [|r rs Hr _ IH]; [done|]. cbn. unfold drop_value. by rewrite Hr, IH. Qed.

Lemma drop_unwinding_loud {R} (dtor : R -> option panic_payload) p pre r post q :
  quiet dtor pre -> dtor r = Some q ->
  drop_unwinding dtor p (pre ++ r :: post) = (Abort, pre ++ [r]).
Proof.
  intros Hpre Hr. induction Hpre as [|x pre Hx _ IH]; cbn; unfold drop_value.
  - by rewrite Hr.
  - by rewrite Hx, IH.
Qed.

(** ** Lemmas: the out-buffer *)

Section buffer.
Context {S R : Type} (run : Z -> M S R) (dtor : R -> option panic_payload).
Context (n : Z) (s0 : S) (res : Z -> outcome R) (ran : list Z).

Local Abbreviation td := (torn_down run n s0 res ran).
Local Abbreviation vals := (omap (value_spec res ran)).

(** One slot, as [Driver.drop_successful_torn_down] describes it. *)
Lemma drop_slots_cons i dropped act indices :
  NoDup (dropped ++ [i]) -> 0 <= i < n ->
  drop_slots dtor (i :: indices) (td dropped act) =
  match value_spec res ran i with
  | Some r =>
      match drop_value dtor r with
      | Ret _ => drop_slots dtor indices (td (dropped ++ [i]) act)
      | Panic q => (Panic q, td (dropped ++ [i]) act)
      | UB => (UB, td (dropped ++ [i]) act)
      end
  | None => drop_slots dtor indices (td (dropped ++ [i]) act)
  end.
Proof.
  intros Hnd Hi.
  assert (Forall (fun j => 0 <= j < n) [i]) as Hf by (by apply Forall_singleton).
  pose proof (drop_successful_torn_down run n s0 res ran [i] dropped act Hnd Hf) as H.
  cbn [drop_successful drop_slots] in H |- *. cbn [successful torn_down] in H |- *.
  rewrite zget_fmap_zseq, flag_value in H |- * by done.
  destruct (value_spec res ran i) as [r|] eqn:Ev.
  - rewrite bool_decide_true in H |- * by done.
    assert (dropped_slot res ran dropped i = Init r) as Hs.
    { unfold dropped_slot. rewrite decide_False; [by apply slot_value_spec|].
      apply NoDup_app in Hnd as (_ & Hd & _). intros Hx. apply (Hd i Hx). by left. }
    unfold mbind, M_bind, drop_slot, drop_in_place in *. cbn [out torn_down] in *.
    rewrite zget_fmap_zseq, Hs in H |- * by done. apply (f_equal snd) in H. cbn in H |- *.
    rewrite H. by destruct (drop_value dtor r).
  - rewrite bool_decide_false in H |- * by (by intros [? ?]).
    apply (f_equal snd) in H. cbn [snd mret M_ret] in H. by rewrite H.
Qed.

Lemma drop_slots_quiet todo dropped act :
  NoDup (dropped ++ todo) -> Forall (fun j => 0 <= j < n) todo -> quiet dtor (vals todo) ->
  drop_slots dtor todo (td dropped act) = (Ret tt, td (dropped ++ todo) act).
Proof.
  revert dropped. induction todo as [|i todo IH]; intros dropped Hnd Hin Hq.
  { by rewrite app_nil_r. }
  apply Forall_cons in Hin as [Hi Hin]. rewrite cons_middle, app_assoc in Hnd |- *.
  rewrite drop_slots_cons; [|by apply NoDup_app in Hnd as (? & _)|done].
  cbn in Hq. destruct (value_spec res ran i) as [r|]; [|by apply IH].
  apply Forall_cons in Hq as [Hr Hq]. unfold drop_value. rewrite Hr. by apply IH.
Qed.

(** The loop stops behind the first value whose destructor panics. *)
Lemma drop_slots_loud todo dropped act pre r post q :
  NoDup (dropped ++ todo) -> Forall (fun j => 0 <= j < n) todo ->
  vals todo = pre ++ r :: post -> quiet dtor pre -> dtor r = Some q ->
  exists ds rest, todo = ds ++ rest /\ vals ds = pre ++ [r] /\ vals rest = post /\
    drop_slots dtor todo (td dropped act) = (Panic q, td (dropped ++ ds) act).
Proof.
  revert dropped pre. induction todo as [|i todo IH]; intros dropped pre Hnd Hin Hv Hpre Hr.
  { by destruct pre. }
  apply Forall_cons in Hin as [Hi Hin]. rewrite cons_middle, app_assoc in Hnd.
  rewrite drop_slots_cons; [|by apply NoDup_app in Hnd as (? & _)|done].
  cbn in Hv. destruct (value_spec res ran i) as [x|] eqn:Ev; unfold drop_value.
  - destruct pre as [|y pre]; injection Hv as -> Hv.
    + rewrite Hr. exists [i], todo. cbn. by rewrite Ev.
    + apply Forall_cons in Hpre as [Hy Hpre]. rewrite Hy.
      destruct (IH (dropped ++ [i]) pre) as (ds & rest & -> & Hds & Hrest & ->); [done..|].
      exists (i :: ds), rest. cbn. rewrite Ev, Hds, <- app_assoc. done.
  - destruct (IH (dropped ++ [i]) pre) as (ds & rest & -> & Hds & Hrest & ->); [done..|].
    exists (i :: ds), rest. cbn. rewrite Ev, <- app_assoc. done.
Qed.

(** What the buffer still holds once the slots [ds] were dropped. *)
Lemma omap_slots (ds l : list Z) :
  omap slot_value (dropped_slot res ran ds <$> l)
  = omap (fun i => if decide (i ∈ ds) then None else value_spec res ran i) l.
Proof.
  induction l as [|i l IH]; [done|]. cbn. rewrite IH. unfold dropped_slot at 1.
  destruct (decide (i ∈ ds)); [by destruct (value_spec res ran i)|].
  unfold slot_spec, value_spec. destruct (decide (i ∈ ran)); [|done]. by destruct (res i).
Qed.

Lemma left_in_buffer ds rest act :
  zseq n = ds ++ rest -> omap slot_value (out (td ds act)) = vals rest.
Proof.
  intros Hz. cbn [out torn_down]. rewrite omap_slots, Hz, omap_app.
  pose proof (NoDup_zseq n) as Hnd. rewrite Hz in Hnd. apply NoDup_app in Hnd as (_ & Hd & _).
  rewrite (list_omap_ext _ (fun _ => None) ds ds).
  2: { apply Forall_Forall2_diag, Forall_forall. intros i Hi. by rewrite decide_True. }
  rewrite (list_omap_ext _ (value_spec res ran) rest rest).
  2: { apply Forall_Forall2_diag, Forall_forall. intros i Hi. rewrite decide_False; [done|].
       intros Hx. by apply (Hd i). }
  by clear; induction ds.
Qed.

(** The two ways through the clean-up of the whole buffer. *)
Lemma destroy_cases act :
  (quiet dtor (vals (zseq n)) /\
   drop_slots dtor (zseq n) (td [] act) = (Ret tt, td (zseq n) act)) \/
  exists pre r post q ds, vals (zseq n) = pre ++ r :: post /\ quiet dtor pre /\ dtor r = Some q /\
    vals ds = pre ++ [r] /\ omap slot_value (out (td ds act)) = post /\
    drop_slots dtor (zseq n) (td [] act) = (Panic q, td ds act).
Proof.
  destruct (first_loud dtor (vals (zseq n))) as [Hq|(pre & r & post & q & Hv & Hpre & Hr)].
  - left. split; [done|]. apply drop_slots_quiet; [apply NoDup_zseq|apply Forall_zseq|done].
  - right. destruct (drop_slots_loud (zseq n) [] act pre r post q) as (ds & rest & Hz & Hds & Hrest & E);
      [apply NoDup_zseq|apply Forall_zseq|done..|].
    exists pre, r, post, q, ds. split_and!; try done. by rewrite (left_in_buffer ds rest).
Qed.
End buffer.

(** ** Lemmas: the registered call *)

Section registered_call.
Context {S R : Type} (run : Z -> M S R) (dtor : R -> option panic_payload) (E : ParallelExecutor).
Context (n : Z) (s0 : S) (res : Z -> outcome R) (final : S).
Context `{!ExecutorContract E, !IndependentTasks run n s0 res final}.

(** The results there are, in index order. *)
Definition produced : list R := omap (value_spec res (invocations E n)) (zseq n).

Lemma no_task_panicked :
  unwinds E n = None -> first_panic res (invocations E n) = None ->
  forall i, 0 <= i < n -> exists v, res i = Ret v.
Proof.
  intros Hu Hf i Hi. apply (returns_of_no_panic run n s0 res final i _ Hf); [|done].
  by apply (invoked_all n i).
Qed.

Lemma drive_registered_dtor_expected :
  drive_registered_dtor run dtor E n s0
  = with_guard_dtor dtor n (leave_executor_dtor dtor E n) (expected run n s0 res (invocations E n)).
Proof.
  unfold drive_registered_dtor, with_guard_dtor, mbind, M_bind.
  by rewrite (run_registered run E n s0 res final).
Qed.

(** The drop of a disarmed guard does nothing. *)
Lemma with_guard_dtor_disarmed {A} (body : M (dstate S R) A) d o d' :
  body d = (o, d') -> active d' = false -> with_guard_dtor dtor n body d = (Ends o, d').
Proof. intros Hb Ha. unfold with_guard_dtor, guard_destroy. rewrite Hb, Ha. by destruct o. Qed.

Local Abbreviation leaves := (with_guard_dtor dtor n (leave_executor_dtor dtor E n)
  (expected run n s0 res (invocations E n))).

(** The epilogue of a call whose executor returned, without and with a panic. *)
Lemma epilogue_returns :
  unwinds E n = None -> first_panic res (invocations E n) = None ->
  exists d, leaves = (Ends (Ret produced), d) /\
    region d = snd (run_tasks run (invocations E n) s0) /\ drops d = [] /\ frees d = 0%nat /\
    omap slot_value (out d) = [].
Proof.
  intros Hu Hf. eexists. split; [apply with_guard_dtor_disarmed|].
  - unfold leave_executor_dtor, collect_or_destroy.
    rewrite Hu, disarm_expected, take_panic_payload_content. cbn [panic_slot torn_down content].
    rewrite Hf. apply hand_over_all; [|done]. unfold produced.
    rewrite value_spec_all, out_torn_down, assume_init_omap; try done.
    intros i Hi. apply elem_of_zseq in Hi. rewrite decide_True by (by apply (invoked_all n i)).
    by apply no_task_panicked.
  - done.
  - split_and!; try done. cbn [out]. clear. by induction (out _).
Qed.

Lemma epilogue_panics p :
  unwinds E n = None -> first_panic res (invocations E n) = Some p ->
  (exists d, quiet dtor produced /\ leaves = (Ends (Panic p), d) /\
     region d = snd (run_tasks run (invocations E n) s0) /\ drops d = produced /\
     frees d = 1%nat /\ omap slot_value (out d) = []) \/
  exists pre r post q d, produced = pre ++ r :: post /\ quiet dtor pre /\ dtor r = Some q /\
    leaves = (Ends (Panic q), d) /\
    region d = snd (run_tasks run (invocations E n) s0) /\ drops d = pre ++ [r] /\
    frees d = 0%nat /\ omap slot_value (out d) = post.
Proof.
  intros Hu Hf.
  assert (leave_executor_dtor dtor E n (expected run n s0 res (invocations E n))
    = match (drop_slots dtor (zseq n) ≫= fun _ => free_buffer)
              (torn_down run n s0 res (invocations E n) [] false) with
      | (Ret _, d) => (Panic p, d) | (Panic q, d) => (Panic q, d) | (UB, d) => (UB, d) end) as He.
  { unfold leave_executor_dtor, collect_or_destroy.
    rewrite Hu, disarm_expected, take_panic_payload_content. cbn [panic_slot torn_down content].
    by rewrite Hf. }
  unfold mbind, M_bind in He.
  destruct (destroy_cases run dtor n s0 res (invocations E n) false)
    as [[Hq Hd]|(pre & r & post & q & ds & Hv & Hpre & Hr & Hds & Hleft & Hd)]; rewrite Hd in He.
  - left. eexists. split; [done|]. split; [apply with_guard_dtor_disarmed; [exact He|done]|].
    split_and!; try done. cbn [out].
    apply (left_in_buffer run n s0 res _ (zseq n) [] false). by rewrite app_nil_r.
  - right. eexists pre, r, post, q, _. do 3 (split; [done|]).
    split; [apply with_guard_dtor_disarmed; [exact He|done]|]. by split_and!.
Qed.

(** The four ways a call ends. *)
Lemma registered_cases :
  exists e d, drive_registered_dtor run dtor E n s0 = (e, d) /\
    region d = snd (run_tasks run (invocations E n) s0) /\
    ( (unwinds E n = None /\ e = Ends (Ret produced) /\ drops d = [] /\ frees d = 0%nat /\
       omap slot_value (out d) = [] /\
       (forall i, 0 <= i < n -> exists v, res i = Ret v)) \/
      (exists p, (unwinds E n = Some p \/ unwinds E n = None /\ first_panic res (invocations E n) = Some p) /\
       quiet dtor produced /\ e = Ends (Panic p) /\ drops d = produced /\ frees d = 1%nat /\
       omap slot_value (out d) = []) \/
      (exists pre r post q, produced = pre ++ r :: post /\ quiet dtor pre /\ dtor r = Some q /\
       e = match unwinds E n with Some _ => Abort | None => Ends (Panic q) end /\
       drops d = pre ++ [r] /\ frees d = 0%nat /\ omap slot_value (out d) = post /\
       (unwinds E n = None -> exists p, first_panic res (invocations E n) = Some p)) ).
Proof.
  rewrite drive_registered_dtor_expected. destruct (unwinds E n) as [p|] eqn:Hu.
  - unfold with_guard_dtor, leave_executor_dtor. rewrite Hu, expected_torn_down.
    unfold guard_destroy. cbn [active torn_down]. unfold mbind, M_bind.
    destruct (destroy_cases run dtor n s0 res (invocations E n) true)
      as [[Hq Hd]|(pre & r & post & q & ds & Hv & Hpre & Hr & Hds & Hleft & Hd)]; rewrite Hd.
    + eexists _, _. split; [reflexivity|]. split; [done|]. right; left. exists p.
      split_and!; try done; [by left|]. cbn [out free_buffer snd].
      apply (left_in_buffer run n s0 res _ (zseq n) [] true). by rewrite app_nil_r.
    + eexists _, _. split; [reflexivity|]. split; [done|]. right; right.
      exists pre, r, post, q. by split_and!.
  - destruct (first_panic res (invocations E n)) as [p|] eqn:Hf.
    + destruct (epilogue_panics p Hu Hf) as [Hd|(pre & r & post & q & d & Hv & Hpre & Hr & Hd & Hrest)].
      * destruct Hd as (d & Hq & -> & ? & ? & ? & ?). eexists _, _. split; [reflexivity|].
        split; [done|]. right; left. exists p. split_and!; try done. by right.
      * rewrite Hd. eexists _, _. split; [reflexivity|]. destruct Hrest as (? & ? & ? & ?).
        split; [done|]. right; right. exists pre, r, post, q. split_and!; try done. by exists p.
    + pose proof (no_task_panicked Hu Hf) as Hr. destruct (epilogue_returns Hu Hf) as (d & -> & ? & ? & ? & ?).
      eexists _, _. split; [reflexivity|]. split; [done|]. left. by split_and!.
Qed.

(** Destructors that return leave the call as [Driver] has it. *)
Lemma quiet_call :
  quiet dtor produced ->
  drive_registered_dtor run dtor E n s0
  = let '(o, d) := drive_registered run E n s0 in (Ends o, d).
Proof.
  intros Hq.
  assert (forall act, drop_slots dtor (zseq n) (torn_down run n s0 res (invocations E n) [] act)
    = drop_successful (zseq n) (torn_down run n s0 res (invocations E n) [] act)) as Hd.
  { intros act. rewrite Driver.drop_all. apply drop_slots_quiet; [apply NoDup_zseq|apply Forall_zseq|done]. }
  rewrite drive_registered_dtor_expected, (drive_registered_expected run E n s0 res final).
  unfold executor_returned, with_guard, with_guard_dtor, leave_executor, leave_executor_dtor,
    collect_or_destroy, collect_results.
  rewrite expected_torn_down.
  change (disarm (torn_down run n s0 res (invocations E n) [] true))
    with (torn_down run n s0 res (invocations E n) [] false).
  unfold guard_destroy, guard_drop. unfold mbind, M_bind.
  rewrite !Hd, !Driver.drop_all. destruct (unwinds E n).
  - cbn [active torn_down]. by rewrite Hd, Driver.drop_all.
  - rewrite take_panic_payload_content. cbn [panic_slot torn_down content].
    destruct (first_panic res (invocations E n)); [done|].
    unfold hand_over. by destruct (assume_init _).
Qed.
End registered_call.

(** ** Lemmas: the scoped path *)

Section scoped_call.
Context {S R : Type} (run : Z -> M S R) (dtor : R -> option panic_payload).
Context (n : Z) (s0 : S) (res : Z -> outcome R) (final : S).
Context `{!IndependentTasks run n s0 res final}.

Local Abbreviation values := (omap (fun i => ret_value (res i))).

Lemma unread_values sched handles :
  Forall (fun i => i ∈ sched) handles ->
  unread ((fun i => (i, res i)) <$> sched) handles = values handles.
Proof.
  unfold unread. induction 1 as [|h handles Hh _ IH]; [done|]. cbn.
  by rewrite outcome_of_fmap, IH.
Qed.

Lemma join_or_destroy_spec sched handles results last :
  Forall (fun i => i ∈ sched /\ 0 <= i < n) handles ->
  match first_panic res handles with
  | None => join_or_destroy dtor ((fun i => (i, res i)) <$> sched) handles results last
            = (Ends (Ret (results ++ values handles ++ [last])), [])
  | Some p => exists rs, rs ≡ₚ results ++ values handles ++ [last] /\
      join_or_destroy dtor ((fun i => (i, res i)) <$> sched) handles results last
      = drop_unwinding dtor p rs
  end.
Proof.
  revert results. induction handles as [|h handles IH]; intros results Hf; [done|].
  apply Forall_cons in Hf as [[Hs Hr] Hf]. cbn. rewrite outcome_of_fmap by done.
  pose proof (res_defined run n s0 res final h Hr).
  destruct (res h) as [v|p|] eqn:Er; [|clear IH|done].
  - specialize (IH (results ++ [v]) Hf). cbn. destruct (first_panic res handles) as [p|].
    + destruct IH as (rs & Hrs & ->). exists rs. split; [|done]. by rewrite Hrs, <- app_assoc.
    + by rewrite IH, <- app_assoc.
  - eexists. split; [|reflexivity]. cbn. rewrite unread_values.
    + by rewrite (Permutation_app_comm (values handles) (results ++ [last])), <- app_assoc,
        (Permutation_app_comm [last]).
    + eapply Forall_impl; [exact Hf|]. by intros i [? _].
Qed.

(** The scoped call of at least two tasks: it returns everything, or it unwinds
    with a task's payload through all the results there are. *)
Lemma scoped_dtor_cases `{BuildProfile} sched :
  2 <= n <= usize_max -> sched ≡ₚ zseq n ->
  match scoped_spec n res with
  | Ret vs => drive_scoped_dtor run dtor sched n s0 = (Ends (Ret vs), final, [])
  | Panic p => exists rs, rs ≡ₚ values (zseq n) /\
      drive_scoped_dtor run dtor sched n s0
      = let '(e, log) := drop_unwinding dtor p rs in (e, final, log)
  | UB => False
  end.
Proof.
  intros Hn Hp. unfold drive_scoped_dtor. rewrite decide_False, usub_ok by lia.
  rewrite (run_tasks_sched run n s0 res final) by done.
  assert (forall i, 0 <= i < n -> i ∈ sched) as Hin by (intros; by rewrite Hp, elem_of_zseq).
  rewrite outcome_of_fmap by (apply Hin; lia).
  pose proof (res_defined run n s0 res final (n - 1) ltac:(lia)) as Hdef.
  assert (values (zseq n) = values (zseq (n - 1)) ++ values [n - 1]) as Hv.
  { rewrite (zseq_last n) by lia. apply omap_app. }
  assert (Forall (fun i => i ∈ sched /\ 0 <= i < n) (zseq (n - 1))) as Hall.
  { apply Forall_forall. intros i Hi%elem_of_zseq. split; [apply Hin|]; lia. }
  unfold scoped_spec. rewrite Hv. destruct (res (n - 1)) as [v|p|] eqn:El; [|clear Hv|done].
  - pose proof (join_or_destroy_spec sched (zseq (n - 1)) [] v Hall) as Hj.
    unfold join_spec. rewrite (zseq_last n), first_panic_snoc, omap_app by lia. cbn. rewrite El. cbn.
    destruct (first_panic res (zseq (n - 1))) as [p|].
    + destruct Hj as (rs & Hrs & ->). exists rs. split; [done|]. by destruct (drop_unwinding _ _ _).
    + by rewrite Hj.
  - eexists. cbn. rewrite El. cbn. rewrite app_nil_r. split; [reflexivity|].
    rewrite unread_values by (eapply Forall_impl; [exact Hall|]; by intros i [? _]).
    by destruct (drop_unwinding _ _ _).
Qed.

(** Some task panics: what the call unwinds with is the payload of one. *)
Lemma scoped_spec_panics k q :
  0 <= k < n -> res k = Panic q -> exists p, scoped_spec n res = Panic p.
Proof.
  intros Hk Hq. unfold scoped_spec, join_spec.
  destruct (first_panic res (zseq n)) as [p|] eqn:Hf.
  - destruct (res (n - 1)); by eexists.
  - exfalso. apply (proj1 (first_panic_None res _) Hf k q); [by apply elem_of_zseq|done].
Qed.
End scoped_call.

(** ** Properties *)

(** C21: Whatever the destructors of the results do, a registered call has no
    undefined behaviour and loses count of nothing: each result a task produced
    is dropped once, or returned, or leaked in the buffer, and these are three
    consecutive parts of the results in index order; the buffer is freed at most
    once; and if every destructor returns, the call is the one whose destructors
    were not looked at. *)
Theorem destructors_conserve_results {S R} (run : Z -> M S R) (dtor : R -> option panic_payload)
    (E : ParallelExecutor) (n : Z) (s0 : S) (res : Z -> outcome R) (final : S) :
  ExecutorContract E -> IndependentTasks run n s0 res final ->
  let '(e, d) := drive_registered_dtor run dtor E n s0 in
  e <> Ends UB /\
  produced E n res = drops d ++ leaked_results d ++ returned_results e /\
  (frees d <= 1)%nat /\
  (quiet dtor (produced E n res) ->
   leaked_results d = [] /\ (e, d) = let '(o, d) := drive_registered run E n s0 in (Ends o, d)).
Proof.
  intros HE HI. pose proof (quiet_call run dtor E n s0 res final) as Hquiet.
  destruct (registered_cases run dtor E n s0 res final)
    as (e & d & Hd & _ & [(_ & -> & Hdr & Hfr & Hl & _)|[(p & _ & Hq & -> & Hdr & Hfr & Hl)|
        (pre & r & post & q & Hv & Hpre & Hr & -> & Hdr & Hfr & Hl & _)]]);
    rewrite Hd in *; unfold leaked_results; rewrite Hdr, Hfr, Hl.
  - split; [done|]. split; [done|]. split; [lia|]. intros Hq. by split; [|apply Hquiet].
  - split; [done|]. cbn. split; [by rewrite app_nil_r|]. split; [lia|].
    intros _. by split; [|apply Hquiet].
  - split; [by destruct (unwinds E n)|]. split; [|split; [lia|]].
    + rewrite Hv. destruct (unwinds E n); cbn; by rewrite app_nil_r, <- app_assoc.
    + intros Hq. exfalso. rewrite Hv in Hq. apply Forall_app in Hq as [_ Hq].
      apply Forall_cons in Hq as [Hq _]. congruence.
Qed.

(** The first result of [mixed_task] cannot be dropped quietly. *)
Definition loud (r : Z) : option panic_payload :=
  if decide (r = 10) then Some (UserPanic r) else None.

Lemma destructors_conserve_results_witness :
  exists e d, drive_registered_dtor mixed_task loud Sequentially 3 tt = (e, d) /\
    e <> Ends UB /\ [10; 12] = drops d ++ leaked_results d ++ returned_results e.
Proof.
  pose proof (destructors_conserve_results mixed_task loud Sequentially 3 tt mixed_res tt
    Sequentially_contract mixed_task_independent) as H.
  destruct (drive_registered_dtor mixed_task loud Sequentially 3 tt) as [e d].
  exists e, d. split; [reflexivity|]. destruct H as (He & Hp & _). split; [exact He|exact Hp].
Defined.

(** C31: A destructor that panics in the epilogue of a registered call takes the
    place of the task's panic: with [r] the first result, in index order, whose
    destructor panics, the results up to [r] have been dropped, the ones behind
    it and the buffer itself leak, and the caller sees the payload of the
    destructor and not that of the task; all tasks have run. *)
Theorem destructor_panic_in_epilogue {S R} (run : Z -> M S R) (dtor : R -> option panic_payload)
    (E : ParallelExecutor) (n : Z) (s0 : S) (res : Z -> outcome R) (final : S)
    (k : Z) (p q : panic_payload) (pre post : list R) (r : R) :
  ExecutorContract E -> IndependentTasks run n s0 res final -> unwinds E n = None ->
  0 <= k < n -> res k = Panic p ->
  omap (fun i => ret_value (res i)) (zseq n) = pre ++ r :: post ->
  Forall (fun x => dtor x = None) pre -> dtor r = Some q ->
  exists d, drive_registered_dtor run dtor E n s0 = (Ends (Panic q), d) /\ region d = final /\
    drops d = pre ++ [r] /\ omap slot_value (out d) = post /\ frees d = 0%nat.
Proof.
  intros HE HI Hu Hk Hp Hv Hpre Hr. pose proof (contract_permutation E n Hu) as Hperm.
  rewrite <- (value_spec_all E n res Hu) in Hv.
  destruct (registered_cases run dtor E n s0 res final)
    as (e & d & Hd & Hreg & [(_ & _ & _ & _ & _ & Hall)|[(p' & _ & Hq & _)|
        (pre' & r' & post' & q' & Hv' & Hpre' & Hr' & -> & Hdr & Hfr & Hl & _)]]).
  - exfalso. destruct (Hall k Hk) as [v Hv']. congruence.
  - exfalso. unfold quiet, produced in Hq. rewrite Hv in Hq. apply Forall_app in Hq as [_ Hq].
    apply Forall_cons in Hq as [Hq _]. congruence.
  - exists d. rewrite Hu in Hd. unfold produced in Hv'. rewrite Hv in Hv'.
    destruct (first_loud_unique dtor pre r post pre' r' post' q q') as (-> & -> & ->); try done.
    split_and!; try done; [congruence|]. rewrite Hreg. by apply (task_final _ Hperm).
Qed.

Lemma destructor_panic_in_epilogue_witness :
  exists d, drive_registered_dtor mixed_task loud Backwards 3 tt = (Ends (Panic (UserPanic 10)), d) /\
    region d = tt /\ drops d = [10] /\ omap slot_value (out d) = [12] /\ frees d = 0%nat.
Proof.
  exact (destructor_panic_in_epilogue mixed_task loud Backwards 3 tt mixed_res tt 1 (UserPanic 7)
    (UserPanic 10) [] [12] 10 Backwards_contract mixed_task_independent eq_refl
    ltac:(lia) eq_refl eq_refl (List.Forall_nil _) eq_refl).
Defined.

(** On the other two clean-up paths such a destructor aborts the process: when
    the executor itself unwinds after a task whose result cannot be dropped
    quietly, and on scoped threads when any task panics, for every schedule.
    So the choice of the driver decides between a leak and an abort. *)
Theorem destructor_panic_aborts `{BuildProfile} {S R} (run : Z -> M S R)
    (dtor : R -> option panic_payload) (n : Z) (s0 : S) (res : Z -> outcome R) (final : S)
    (j : Z) (v : R) (q : panic_payload) :
  IndependentTasks run n s0 res final -> 0 <= j < n -> res j = Ret v -> dtor v = Some q ->
  (forall E p, ExecutorContract E -> unwinds E n = Some p -> j ∈ invocations E n ->
     fst (drive_registered_dtor run dtor E n s0) = Abort) /\
  (forall sched k p, 2 <= n <= usize_max -> sched ≡ₚ zseq n -> 0 <= k < n -> res k = Panic p ->
     exists log, drive_scoped_dtor run dtor sched n s0 = (Abort, final, log)).
Proof.
  intros HI Hj Hv Hq. split.
  - intros E p HE Hu Hin.
    assert (~ quiet dtor (produced E n res)) as Hl.
    { intros Hquiet. rewrite (proj1 (Forall_forall _ _) Hquiet v) in Hq; [done|].
      apply list_elem_of_omap. exists j. split; [by apply elem_of_zseq|].
      unfold value_spec. by rewrite decide_True, Hv. }
    destruct (registered_cases run dtor E n s0 res final)
      as (e & d & -> & _ & [(Hu' & _)|[(p' & _ & Hquiet & _)|
          (pre & r & post & q' & _ & _ & _ & -> & _)]]); [congruence|done|by rewrite Hu].
  - intros sched k p Hn Hp Hk Hpk.
    pose proof (scoped_dtor_cases run dtor n s0 res final sched Hn Hp) as Hc.
    destruct (scoped_spec_panics n res k p Hk Hpk) as [p' Hp']. rewrite Hp' in Hc.
    destruct Hc as (rs & Hrs & ->).
    destruct (first_loud dtor rs) as [Hquiet|(pre & r & post & q' & -> & Hpre & Hr)].
    + exfalso. rewrite (proj1 (Forall_forall _ _) Hquiet v) in Hq; [done|]. rewrite Hrs.
      apply list_elem_of_omap. exists j. split; [by apply elem_of_zseq|]. by rewrite Hv.
    + rewrite (drop_unwinding_loud dtor p' pre r post q') by done. by eexists.
Qed.

Lemma destructor_panic_aborts_witness :
  fst (drive_registered_dtor mixed_task loud Unwinding 3 tt) = Abort /\
  exists log, @drive_scoped_dtor _ _ mixed_task loud debug_profile [2; 1; 0] 3 tt = (Abort, tt, log).
Proof.
  destruct (@destructor_panic_aborts debug_profile _ _ mixed_task loud 3 tt mixed_res tt 0 10
    (UserPanic 10) mixed_task_independent ltac:(lia) eq_refl eq_refl) as [Hr Hs].
  split.
  - apply (Hr Unwinding (UserPanic 1) Unwinding_contract eq_refl).
    apply list_elem_of_filter. split; [reflexivity|]. by apply elem_of_zseq.
  - apply (Hs [2; 1; 0] 1 (UserPanic 7)); [split; vm_compute; discriminate| |lia|reflexivity].
    symmetry. exact (Permutation_rev (zseq 3)).
Defined.

(** On scoped threads destructors that return change nothing, and every result is
    dropped once, or returned. *)
Theorem scoped_destructors_quiet `{BuildProfile} {S R} (run : Z -> M S R)
    (dtor : R -> option panic_payload) (n : Z) (s0 : S) (res : Z -> outcome R) (final : S)
    (sched : list Z) :
  IndependentTasks run n s0 res final -> 2 <= n <= usize_max -> sched ≡ₚ zseq n ->
  quiet dtor (omap (fun i => ret_value (res i)) (zseq n)) ->
  exists log, drive_scoped_dtor run dtor sched n s0
    = (Ends (fst (drive_scoped run sched n s0)), final, log) /\
    log ++ returned_results (Ends (fst (drive_scoped run sched n s0)))
      ≡ₚ omap (fun i => ret_value (res i)) (zseq n).
Proof.
  intros HI Hn Hp Hq. pose proof (scoped_dtor_cases run dtor n s0 res final sched Hn Hp) as Hc.
  rewrite (drive_scoped_spec run n s0 res final) by (done || lia). cbn [fst].
  destruct (scoped_spec n res) as [vs|p|] eqn:Es; [| |done].
  - exists []. split; [done|]. cbn. unfold scoped_spec, join_spec in Es.
    destruct (res (n - 1)); [|done|]; destruct (first_panic res (zseq n)); [done| |done|];
      by injection Es as <-.
  - destruct Hc as (rs & Hrs & ->). rewrite drop_unwinding_quiet.
    + exists rs. by rewrite app_nil_r.
    + unfold quiet. by rewrite Hrs.
Qed.

Lemma scoped_destructors_quiet_witness :
  exists log, @drive_scoped_dtor _ _ mixed_task (fun _ => None) debug_profile [2; 1; 0] 3 tt
    = (Ends (Panic (UserPanic 7)), tt, log).
Proof.
  destruct (@scoped_destructors_quiet debug_profile _ _ mixed_task (fun _ => None) 3 tt mixed_res tt
    [2; 1; 0] mixed_task_independent ltac:(split; vm_compute; discriminate)
    ltac:(symmetry; exact (Permutation_rev (zseq 3)))) as (log & H & _).
  - by apply Forall_forall.
  - exists log. exact H.
Defined.
