(* ===== verification/Shards.v ===== *)
(** * Tasks on disjoint shards

    Closures that run on pairwise disjoint shards of one allocation are
    independent tasks in the sense of [Driver]: whatever runs first, each has the
    outcome it has alone, and the allocation ends the same.  Shared by the
    partition drivers of slices ([PartitionMap]) and of deques
    ([DequePartition]). *)
From S2P Require Import Prelude Region Closure Executor Driver.
From stdpp Require Import base numbers sets list relations.
Local Open Scope Z_scope.

(** Tasks on disjoint shards of a region. *)
Definition disjoint_shards {T} (sh : Z -> WriterShard) (n : Z) (m : list T) : Prop :=
  (forall i, 0 <= i < n -> shard_in (zlen m) (sh i)) /\
  (forall i j, 0 <= i < n -> 0 <= j < n -> i <> j ->
     slice_disjoint (cells (sh i)) (cells (sh j))).

(** The tasks agree on the indices that are run. *)
Lemma run_tasks_ext {S R} (run run' : Z -> M S R) (l : list Z) s :
  (forall i s, i ∈ l -> run i s = run' i s) -> run_tasks run l s = run_tasks run' l s.
Proof.
  revert s. induction l as [|i l IH]; intros s Hr; [done|]. cbn.
  rewrite (Hr i s) by (by left). destruct (run' i s) as [o s'].
  rewrite IH; [done|]. intros j s1 Hj. apply Hr. by right.
Qed.

Lemma independent_ext {S R} (run run' : Z -> M S R) n s0 (res : Z -> outcome R) final :
  (forall i s, 0 <= i < n -> run i s = run' i s) ->
  IndependentTasks run n s0 res final -> IndependentTasks run' n s0 res final.
Proof.
  intros He [Hr Hf Hd]. split; [| |exact Hd].
  - intros ran i Hnd Hin. pose proof Hin as [Hi Hin']%Forall_cons.
    rewrite <- (Hr ran i Hnd Hin), He by done.
    rewrite (run_tasks_ext run run' ran); [done|]. intros j s Hj. rewrite He; [done|].
    by apply (proj1 (Forall_forall _ _) Hin').
  - intros order Ho. rewrite <- (Hf order Ho), (run_tasks_ext run run' order); [done|].
    intros j s Hj. rewrite He; [done|]. apply elem_of_zseq. by rewrite <- Ho.
Qed.

Section shards.
Context {T R : Type} (sh : Z -> WriterShard) (body : Z -> closure T R) (n : Z) (m : list T).
Context (Hin : forall i, 0 <= i < n -> shard_in (zlen m) (sh i)).
Context (Hdis : forall i j, 0 <= i < n -> 0 <= j < n -> i <> j ->
  slice_disjoint (cells (sh i)) (cells (sh j))).

(** Task [i] runs its closure on its shard; alone it would do [shard_eval i]. *)
Definition shard_task (i : Z) : M (list T) R := run_closure (sh i) (body i).
Definition shard_eval (i : Z) : outcome R * list T :=
  eval_closure (body i) (Shard.as_slice m (sh i)).

(** The allocation after the tasks in [ran]. *)
Record shards_done (ran : list Z) (m' : list T) : Prop := {
  sd_len : zlen m' = zlen m;
  sd_shard i : 0 <= i < n ->
    Shard.as_slice m' (sh i) =
    if decide (i ∈ ran) then snd (shard_eval i) else Shard.as_slice m (sh i);
  sd_outside j : 0 <= j -> (forall i, 0 <= i < n -> ~ in_slice (cells (sh i)) j) ->
    zget m' j = zget m j
}.

Lemma zlen_shard_eval i : 0 <= i < n -> zlen (snd (shard_eval i)) = s_len (cells (sh i)).
Proof using Hin.
  intros Hi. unfold shard_eval. rewrite zlen_eval_closure. apply zlen_as_slice. by apply Hin.
Qed.

Lemma shards_done_step ran i m' :
  shards_done ran m' -> 0 <= i < n -> i ∉ ran ->
  fst (shard_task i m') = fst (shard_eval i) /\ shards_done (ran ++ [i]) (snd (shard_task i m')).
Proof using Hin Hdis.
  intros [Hl Ht Ho] Hi Hni. pose proof (Hin i Hi) as Hsi.
  unfold shard_task. rewrite run_closure_eval by (by rewrite Hl).
  rewrite (Ht i Hi), decide_False by done. fold (shard_eval i). cbn [fst snd]. split; [done|].
  pose proof (zlen_shard_eval i Hi) as Hv. destruct Hsi as (Hb & Hn & Hlen).
  split; [rewrite zlen_splice; lia| |].
  - intros j Hj. destruct (Hin j Hj) as (Hb' & Hn' & Hlen').
    destruct (decide (j = i)) as [->|Hne].
    + rewrite decide_True by apply elem_of_snoc. unfold Shard.as_slice. rewrite <- Hv.
      apply subrange_splice_same; lia.
    + rewrite (decide_ext _ _ _ _ (elem_of_snoc_ne ran i j Hne)). rewrite <- (Ht j Hj).
      unfold Shard.as_slice. apply zlist_eq.
      { rewrite !zlen_subrange; rewrite ?zlen_splice; lia. }
      intros x. rewrite zlen_subrange by (rewrite ?zlen_splice; lia). intros Hx.
      rewrite !zget_subrange, zget_splice by lia. rewrite decide_False; [done|].
      intros Hxi. apply (Hdis i j Hi Hj (not_eq_sym Hne) (s_base (cells (sh j)) + x));
        unfold in_slice; lia.
  - intros j Hj Hout. rewrite zget_splice by lia. rewrite decide_False; [by apply Ho|].
    intros Hji. apply (Hout i Hi). unfold in_slice. lia.
Qed.

Lemma shards_done_nil : shards_done [] m.
Proof using. split; [done| |done]. intros i Hi. by rewrite decide_False by apply not_elem_of_nil. Qed.

Lemma run_shards_done order ran :
  NoDup (ran ++ order) -> Forall (fun j => 0 <= j < n) (ran ++ order) ->
  shards_done ran (snd (run_tasks shard_task ran m)) ->
  shards_done (ran ++ order) (snd (run_tasks shard_task (ran ++ order) m)).
Proof using Hin Hdis.
  revert ran. induction order as [|i order IH]; intros ran Hnd Hr Hd; [by rewrite app_nil_r|].
  assert (ran ++ i :: order = (ran ++ [i]) ++ order) as E by (by rewrite <- app_assoc).
  rewrite E in *. apply IH; [done|done|].
  rewrite run_tasks_app. cbn.
  destruct (shards_done_step ran i _ Hd) as [_ Hd'].
  - apply Forall_app in Hr as [Hr _]. apply Forall_app in Hr as [_ Hr]. by apply Forall_inv in Hr.
  - apply NoDup_app in Hnd as (Hnd & _ & _). apply NoDup_app in Hnd as (_ & Hnd & _).
    intros Hi. apply (Hnd i Hi). by left.
  - by destruct (shard_task i _).
Qed.

Lemma run_shards_from_start ran :
  NoDup ran -> Forall (fun j => 0 <= j < n) ran ->
  shards_done ran (snd (run_tasks shard_task ran m)).
Proof using Hin Hdis.
  intros Hnd Hr. apply (run_shards_done ran []); [done|done|apply shards_done_nil].
Qed.

(** What is known of every shard and of the rest determines the allocation. *)
Lemma shards_done_unique ran m1 m2 : shards_done ran m1 -> shards_done ran m2 -> m1 = m2.
Proof using Hin.
  intros [Hl1 Ht1 Ho1] [Hl2 Ht2 Ho2]. apply zlist_eq; [lia|]. intros j Hj.
  destruct (decide (Exists (fun i => in_slice (cells (sh i)) j) (zseq n))) as [He|Hne].
  - apply Exists_exists in He as (i & Hi%elem_of_zseq & Hs). destruct (Hin i Hi) as (? & ? & ?).
    pose proof (Ht1 i Hi) as E. rewrite <- (Ht2 i Hi) in E. unfold in_slice in Hs.
    apply (f_equal (fun l => zget l (j - s_base (cells (sh i))))) in E. unfold Shard.as_slice in E.
    rewrite !zget_subrange in E by lia.
    by replace (s_base (cells (sh i)) + (j - s_base (cells (sh i)))) with j in E by lia.
  - assert (forall i, 0 <= i < n -> ~ in_slice (cells (sh i)) j) as Hout.
    { intros i Hi Hs. apply Hne, Exists_exists. exists i. by rewrite elem_of_zseq. }
    rewrite Ho1, Ho2 by (done || lia). done.
Qed.

(** The allocation once all tasks have run, in any order. *)
Definition shards_after : list T := snd (run_tasks shard_task (zseq n) m).

Lemma shards_after_done : shards_done (zseq n) shards_after.
Proof using Hin Hdis. apply run_shards_from_start; [apply NoDup_zseq|apply Forall_zseq]. Qed.

Lemma shards_independent :
  IndependentTasks shard_task n m (fun i => fst (shard_eval i)) shards_after.
Proof using Hin Hdis.
  split.
  - intros ran i Hnd Hr. apply NoDup_cons in Hnd as [Hni Hnd]. apply Forall_cons in Hr as [Hi Hr].
    by apply (shards_done_step ran i _ (run_shards_from_start ran Hnd Hr)).
  - intros order Ho. apply (shards_done_unique (zseq n)); [|apply shards_after_done].
    destruct (run_shards_from_start order) as [Hl Ht Hout].
    + rewrite Ho. apply NoDup_zseq.
    + rewrite Ho. apply Forall_zseq.
    + split; [done| |done]. intros i Hi. rewrite (Ht i Hi). apply decide_ext. by rewrite Ho.
  - intros i _. apply eval_closure_defined.
Qed.

(** The tasks [inv] as threads that take their accesses in any order. *)
Section interleaved.
Context (inv : list Z) (Hnd : NoDup inv) (Hrange : Forall (fun i => 0 <= i < n) inv).

Definition shard_config : config T R := mkConfig m ((fun i => (sh i, body i)) <$> inv).

Lemma shard_config_thread t w b :
  threads shard_config !! t = Some (w, b) ->
  exists i, inv !! t = Some i /\ 0 <= i < n /\ w = sh i /\ b = body i.
Proof using Hrange.
  cbn. rewrite list_lookup_fmap. intros Ht.
  destruct (inv !! t) as [i|] eqn:E; [|done]. cbn in Ht. simplify_eq. exists i.
  split_and!; [done|apply (proj1 (Forall_forall _ _) Hrange i);
    by eapply list_elem_of_lookup_2..|done|done].
Qed.

Lemma shard_config_ok : threads_ok shard_config.
Proof using Hin Hdis Hnd Hrange.
  split.
  - intros t w b (i & _ & Hi & -> & _)%shard_config_thread. by apply Hin.
  - intros t1 t2 w1 w2 b1 b2 Ht (i & Hi & Hri & -> & _)%shard_config_thread
      (j & Hj & Hrj & -> & _)%shard_config_thread.
    apply Hdis; [done..|]. intros ->. by apply Ht, (NoDup_lookup inv t1 t2 j Hnd).
Qed.

(** A thread that has ended has the outcome of its task. *)
Lemma interleaved_result c t i w b o :
  rtc cstep shard_config c -> inv !! t = Some i -> threads c !! t = Some (w, b) ->
  finished b = Some o -> o = fst (shard_eval i) /\ Shard.as_slice (mem c) (sh i) = snd (shard_eval i).
Proof using Hin Hdis Hnd Hrange.
  intros Hs Hi Hb Hf. pose proof (progressed_steps _ _ shard_config_ok Hs) as Hp.
  destruct (pr_thread _ _ Hp t (sh i) (body i)) as (b' & Hb' & Hev).
  { cbn. by rewrite list_lookup_fmap, Hi. }
  rewrite Hb in Hb'. simplify_eq. rewrite (finished_eval _ _ o Hf) in Hev. cbn in Hev.
  unfold shard_eval. by rewrite <- Hev.
Qed.

(** The allocation once all threads have ended. *)
Lemma interleaved_done c :
  rtc cstep shard_config c -> all_finished c -> shards_done inv (mem c).
Proof using Hin Hdis Hnd Hrange.
  intros Hs Hfin. pose proof (progressed_steps _ _ shard_config_ok Hs) as Hp.
  destruct Hp as [Hl Ht _ Ho]. split; [done| |].
  - intros i Hi. destruct (decide (i ∈ inv)) as [Hii|Hii].
    + apply list_elem_of_lookup in Hii as [t Hti].
      destruct (Ht t (sh i) (body i)) as (b & Hb & _).
      { cbn. by rewrite list_lookup_fmap, Hti. }
      destruct (Hfin t _ _ Hb) as [o Hf]. by destruct (interleaved_result c t i _ b o Hs Hti Hb Hf).
    + destruct (Hin i Hi) as (Hb & Hn & Hm). cbn in Hl.
      apply zlist_eq; [unfold Shard.as_slice; rewrite !zlen_subrange; lia|].
      intros x. unfold Shard.as_slice. rewrite zlen_subrange by lia. intros Hx.
      rewrite !zget_subrange by lia. apply Ho; [lia|].
      intros t w b (j & Hj & Hjr & -> & _)%shard_config_thread Hx'.
      assert (j <> i) as Hne by (by intros ->; apply Hii; eapply list_elem_of_lookup_2).
      apply (Hdis j i Hjr Hi Hne (s_base (cells (sh i)) + x)); [done|unfold in_slice; lia].
  - intros j Hj Hout. apply Ho; [done|].
    intros t w b (i & _ & Hi & -> & _)%shard_config_thread. by apply Hout.
Qed.
End interleaved.
End shards.

(** The single cells of a region as its shards. *)
Definition cell_shard (i : Z) : WriterShard := mkShard (Slice i 1).

Lemma cell_shards_disjoint m : zlen m = 3 -> disjoint_shards cell_shard 3 (m : list Z).
Proof.
  intros Hm. split; [intros i Hi; rewrite Hm; unfold shard_in; cbn; lia|].
  intros i j Hi Hj Hne x. unfold in_slice. cbn. lia.
Qed.
