(* ===== verification/Workers.v ===== *)
(** * The registered executor's workers, one machine step at a time

    [Driver] runs the invocations of a registered executor one after the other.
    Here the invocations are in flight at the same time, as an executor with
    many OS threads has them ([task_wrapper] in
    [src/sync/scoped/partition/driver_core.rs]): a step of the engine is a single
    access of a task's closure to its shard, the write of one out-buffer slot,
    the store of one success flag, or one operation on the panic mutex (acquire,
    [is_none], store, release).  [engine_step] is the step of one invocation;
    it is blocked while it waits for the mutex, and it is [UB] when a raw
    pointer leaves its buffer.

    Main results: no interleaving has undefined behaviour and the mutex excludes;
    every finished interleaving leaves the engine's state exactly as some
    sequential order of the same invocations does, so that everything [Driver]
    proves of an executor holds of a concurrent one; no schedule deadlocks or
    runs forever. *)
From S2P Require Import Prelude Region Closure Executor Driver Shards.
From stdpp Require Import base numbers sets list relations.
Local Open Scope Z_scope.

(** Where an invocation of [task_wrapper] stands. *)
Inductive task_state (T R : Type) : Type :=
| TRun (c : closure T R)          (* inside [catch_unwind(|| run(index))] *)
| TWrite (val : R)                (* [Ok(val)]: before the write of the slot *)
| TFlag                           (* before the store of the flag *)
| TLock (payload : panic_payload) (* [Err(payload)]: before [lock_panic_payload] *)
| TCheck (payload : panic_payload) (* holds the guard, before [g.is_none()] *)
| TStore (payload : panic_payload) (* holds the guard, before [*g = Some(payload)] *)
| TUnlock                         (* holds the guard, before its drop *)
| TDone.
Arguments TRun {T R} c.
Arguments TWrite {T R} val.
Arguments TFlag {T R}.
Arguments TLock {T R} payload.
Arguments TCheck {T R} payload.
Arguments TStore {T R} payload.
Arguments TUnlock {T R}.
Arguments TDone {T R}.

(** The engine while the executor runs: what the invocations share, the
    invocation whose guard locks the panic mutex, and the invocations. *)
Record engine (T R : Type) : Type := mkEngine {
  shared : dstate (list T) R;
  holder : option nat;
  tasks : list (Z * task_state T R)
}.
Arguments mkEngine {T R}.
Arguments shared {T R}.
Arguments holder {T R}.
Arguments tasks {T R}.

(** Assignments to one field of what is shared. *)
Definition set_region {S R} (s : S) (d : dstate S R) : dstate S R :=
  mkD s (out d) (successful d) (panic_slot d) (active d) (drops d) (frees d).
Definition set_slot {S R} (index : Z) (o : slot R) (d : dstate S R) : dstate S R :=
  mkD (region d) (zset index o (out d)) (successful d) (panic_slot d) (active d)
    (drops d) (frees d).
Definition set_flag {S R} (index : Z) (d : dstate S R) : dstate S R :=
  mkD (region d) (out d) (zset index true (successful d)) (panic_slot d) (active d)
    (drops d) (frees d).
Definition set_payload {S R} (p : panic_payload) (d : dstate S R) : dstate S R :=
  mkD (region d) (out d) (successful d) (mkMutex (poisoned (panic_slot d)) (Some p))
    (active d) (drops d) (frees d).

Section engine_steps.
Context {T R : Type} (sh : Z -> WriterShard).

(** One step of the invocation at position [t]: [None] when it is finished or
    blocked. *)
Definition engine_step (t : nat) (e : engine T R) : option (outcome (engine T R)) :=
  match tasks e !! t with
  | None => None
  | Some (index, st) =>
      let d := shared e in
      let go d h st := Some (Ret (mkEngine d h (<[t := (index, st)]> (tasks e)))) in
      match st with
      | TRun c =>
          match access (sh index) c (region d) with
          | Some (c, m) => go (set_region m d) (holder e) (TRun c)
          | None =>
              match finished c with
              | Some (Ret val) => go d (holder e) (TWrite val)
              | Some (Panic payload) => go d (holder e) (TLock payload)
              | _ => None
              end
          end
      | TWrite val =>
          if decide (0 <= index < zlen (out d))
          then go (set_slot index (Init val) d) (holder e) TFlag else Some UB
      | TFlag =>
          if decide (0 <= index < zlen (successful d))
          then go (set_flag index d) (holder e) TDone else Some UB
      | TLock payload =>
          match holder e with None => go d (Some t) (TCheck payload) | Some _ => None end
      | TCheck payload =>
          match lock_panic_payload (panic_slot d) with
          | None => go d (holder e) (TStore payload)
          | Some _ => go d (holder e) TUnlock
          end
      | TStore payload => go (set_payload payload d) (holder e) TUnlock
      | TUnlock => go d None TDone
      | TDone => None
      end
  end.

(** A step of some invocation. *)
Definition estep (e e' : engine T R) : Prop := exists t, engine_step t e = Some (Ret e').

(** Every invocation has returned, so the executor may return. *)
Definition all_done (e : engine T R) : Prop :=
  forall t i st, tasks e !! t = Some (i, st) -> st = TDone.

(** The state in which [execute] starts the invocations [inv]. *)
Definition start_engine (body : Z -> closure T R) (n : Z) (m : list T) (inv : list Z)
    : engine T R :=
  mkEngine (initial_dstate n m) None ((fun i => (i, TRun (body i))) <$> inv).

(** Run a schedule: the positions that take the steps, in order. *)
Fixpoint run_schedule (sched : list nat) (e : engine T R) : option (outcome (engine T R)) :=
  match sched with
  | [] => Some (Ret e)
  | t :: sched =>
      match engine_step t e with
      | Some (Ret e') => run_schedule sched e'
      | r => r
      end
  end.
End engine_steps.

(** ** Termination *)

(** An invocation only moves forward. *)
Inductive sub_task {T R} : task_state T R -> task_state T R -> Prop :=
| sub_access c' c : sub_closure c' c -> sub_task (TRun c') (TRun c)
| sub_ok c v : sub_task (TWrite v) (TRun c)
| sub_err c p : sub_task (TLock p) (TRun c)
| sub_write v : sub_task TFlag (TWrite v)
| sub_flag : sub_task TDone TFlag
| sub_lock p : sub_task (TCheck p) (TLock p)
| sub_none p : sub_task (TStore p) (TCheck p)
| sub_some p : sub_task TUnlock (TCheck p)
| sub_store p : sub_task TUnlock (TStore p)
| sub_unlock : sub_task TDone TUnlock.
#[local] Hint Constructors sub_task sub_closure : core.

(** The stages after the closure. *)
Definition stage {T R} (st : task_state T R) : nat :=
  match st with
  | TRun _ => 5 | TWrite _ => 2 | TFlag => 1 | TLock _ => 4 | TCheck _ => 3
  | TStore _ => 2 | TUnlock => 1 | TDone => 0
  end.

Lemma sub_task_wf {T R} : well_founded (@sub_task T R).
Proof.
  assert (forall st : task_state T R, (stage st < 5)%nat -> Acc sub_task st) as Hlow.
  { intros st. remember (stage st) as k eqn:Hk. revert st Hk.
    induction (lt_wf k) as [k _ IH]. intros st -> Hs. constructor. intros st' Hst.
    destruct Hst; cbn in *; try lia; (eapply IH; [|reflexivity|]); cbn; lia. }
  intros st. destruct st as [c| | | | | | |]; [|apply Hlow; cbn; lia..].
  induction (sub_closure_wf c) as [c _ IH]. constructor. intros st' Hst.
  inversion Hst; subst; [by apply IH|apply Hlow; cbn; lia..].
Qed.

Lemma engine_step_sub {T R} sh t (e e' : engine T R) :
  engine_step sh t e = Some (Ret e') ->
  exists i st st', tasks e !! t = Some (i, st) /\
    tasks e' = <[t := (i, st')]> (tasks e) /\ sub_task st' st.
Proof.
  unfold engine_step. destruct (tasks e !! t) as [[i st]|] eqn:Ht; [|done]. cbn.
  intros Hs. exists i, st.
  destruct st as [c|v| |p|p|p| |]; repeat case_match; simplify_eq; eexists;
    (split; [done|]); (split; [reflexivity|]); eauto using access_sub.
Qed.

Lemma estep_wf {T R} (sh : Z -> WriterShard) : well_founded (flip (@estep T R sh)).
Proof.
  apply (acc_by_measure _ _ (fun e => snd <$> tasks e) (list_step_wf _ sub_task_wf)).
  intros e' e [t Hs]. apply engine_step_sub in Hs as (i & st & st' & Ht & -> & Hsub).
  rewrite list_fmap_insert. exists t, st, st'. rewrite list_lookup_fmap, Ht. done.
Qed.

(** ** Refinement of a sequential order *)

Section refinement.
Context {T R : Type} (sh : Z -> WriterShard) (body : Z -> closure T R) (n : Z) (m : list T).
Context (Hin : forall i, 0 <= i < n -> shard_in (zlen m) (sh i)).
Context (Hdis : forall i j, 0 <= i < n -> 0 <= j < n -> i <> j ->
  slice_disjoint (cells (sh i)) (cells (sh j))).
Context (inv : list Z) (Hnd : NoDup inv) (Hrange : Forall (fun i => 0 <= i < n) inv).

Abbreviation res := (fun i => fst (shard_eval sh body m i)).
Abbreviation run := (shard_task sh body).

(** The closure of an invocation, ended once it is out of [catch_unwind]. *)
Definition thread_of (x : Z * task_state T R) : WriterShard * closure T R :=
  (sh (fst x), match snd x with TRun c => c | _ => ended (res (fst x)) end).

(** What the engine's client threads look like from [Closure]. *)
Definition client (e : engine T R) : config T R :=
  mkConfig (region (shared e)) (thread_of <$> tasks e).

(** What invocation [i] in state [st] has done to its slot and flag, the payload
    or value it carries, whether it has dealt with the mutex, and holds it. *)
Definition slot_of (i : Z) (st : task_state T R) : slot R :=
  match st with
  | TFlag | TDone => match res i with Ret v => Init v | _ => Uninit end
  | _ => Uninit
  end.
Definition flag_of (i : Z) (st : task_state T R) : bool :=
  match st with TDone => is_ret (res i) | _ => false end.
Definition carries (i : Z) (st : task_state T R) : Prop :=
  match st with
  | TRun _ | TDone => True
  | TWrite v => res i = Ret v
  | TFlag => is_ret (res i) = true
  | TLock p | TCheck p | TStore p => res i = Panic p
  | TUnlock => is_ret (res i) = false
  end.
Definition recorded (i : Z) (st : task_state T R) : bool :=
  match st with TUnlock => true | TDone => negb (is_ret (res i)) | _ => false end.
Definition holding (st : task_state T R) : bool :=
  match st with TCheck _ | TStore _ | TUnlock => true | _ => false end.

(** The order in which the panicked invocations dealt with the mutex. *)
Definition record_order (e : engine T R) (order : list Z) : Prop :=
  NoDup order /\
  (forall i, i ∈ order <->
     exists t st, tasks e !! t = Some (i, st) /\ recorded i st = true) /\
  content (panic_slot (shared e)) = first_panic res order.

(** What holds of invocation [i] at position [t]. *)
Record task_inv (e : engine T R) (t : nat) (i : Z) (st : task_state T R) : Prop := {
  ti_slot : zget (out (shared e)) i = Some (slot_of i st);
  ti_flag : zget (successful (shared e)) i = Some (flag_of i st);
  ti_carries : carries i st;
  ti_holder : holding st = true <-> holder e = Some t;
  ti_store p : st = TStore p -> content (panic_slot (shared e)) = None
}.

Record engine_inv (e : engine T R) : Prop := {
  ei_client : rtc cstep (client (start_engine body n m inv)) (client e);
  ei_indices : fst <$> tasks e = inv;
  ei_out : zlen (out (shared e)) = zlen (zseq n);
  ei_flags : zlen (successful (shared e)) = zlen (zseq n);
  ei_task t i st : tasks e !! t = Some (i, st) -> task_inv e t i st;
  ei_idle i : 0 <= i < n -> i ∉ inv ->
    zget (out (shared e)) i = Some Uninit /\ zget (successful (shared e)) i = Some false;
  ei_order : exists order, record_order e order;
  ei_holder u : holder e = Some u -> is_Some (tasks e !! u);
  ei_rest : poisoned (panic_slot (shared e)) = false /\ active (shared e) = true /\
    drops (shared e) = [] /\ frees (shared e) = 0%nat
}.

Lemma zget_replicate {A} (x : A) i : 0 <= i < n -> zget (replicate (Z.to_nat n) x) i = Some x.
Proof using. intros. unfold zget. rewrite decide_True by lia. apply lookup_replicate_2. lia. Qed.

Lemma index_in_range (e : engine T R) t i st :
  fst <$> tasks e = inv -> tasks e !! t = Some (i, st) -> 0 <= i < n.
Proof using Hrange.
  intros Hi Ht. apply (proj1 (Forall_forall _ _) Hrange). rewrite <- Hi.
  apply list_elem_of_fmap. exists (i, st). split; [done|]. by eapply list_elem_of_lookup_2.
Qed.

(** No two invocations have one index. *)
Lemma index_unique (e : engine T R) t u i st su :
  fst <$> tasks e = inv -> tasks e !! t = Some (i, st) -> tasks e !! u = Some (i, su) -> t = u.
Proof using Hnd.
  intros Hi Ht Hu. apply (NoDup_lookup inv t u i Hnd); rewrite <- Hi, list_lookup_fmap;
    by rewrite ?Ht, ?Hu.
Qed.

Lemma engine_start_inv : engine_inv (start_engine body n m inv).
Proof using Hrange.
  split; cbn.
  - apply rtc_refl.
  - rewrite <- list_fmap_compose. cbn. apply list_fmap_id.
  - by rewrite replicate_fmap_zseq, zlen_fmap.
  - by rewrite replicate_fmap_zseq, zlen_fmap.
  - intros t i st Ht. rewrite list_lookup_fmap in Ht.
    destruct (inv !! t) as [j|] eqn:E; [|done]. cbn in Ht. simplify_eq.
    assert (0 <= i < n).
    { apply (proj1 (Forall_forall _ _) Hrange). by eapply list_elem_of_lookup_2. }
    split; cbn; [by apply zget_replicate..|done|done|done].
  - intros i Hi _. by rewrite !zget_replicate.
  - exists []. split; [apply NoDup_nil_2|]. split; [|done]. intros i. split.
    + intros Hi. by apply not_elem_of_nil in Hi.
    + intros (t & st & Ht & Hr). cbn in Ht. rewrite list_lookup_fmap in Ht.
      destruct (inv !! t); [|done]. cbn in Ht. by simplify_eq.
  - done.
  - done.
Qed.

(** ** Lemmas: the invariant is kept *)

Lemma client_start : client (start_engine body n m inv) = shard_config sh body m inv.
Proof using. unfold client, shard_config. cbn. by rewrite <- list_fmap_compose. Qed.

(** A closure that has ended carries the result of its task. *)
Lemma ended_result e t i c o :
  engine_inv e -> tasks e !! t = Some (i, TRun c) -> finished c = Some o -> res i = o.
Proof using Hin Hdis Hnd Hrange.
  intros He Ht Hf. pose proof (ei_client e He) as Hs. rewrite client_start in Hs.
  assert (inv !! t = Some i) as Hi by (by rewrite <- (ei_indices e He), list_lookup_fmap, Ht).
  symmetry. apply (interleaved_result sh body n m Hin Hdis inv Hnd Hrange _ t i (sh i) c o Hs Hi);
    [|done]. cbn. by rewrite list_lookup_fmap, Ht.
Qed.

Section update.
Context (e : engine T R) (t : nat) (i : Z) (st st' : task_state T R) (d' : dstate (list T) R)
  (h' : option nat).
Context (He : engine_inv e) (Ht : tasks e !! t = Some (i, st)).
Abbreviation e' := (mkEngine d' h' (<[t := (i, st')]> (tasks e))).

Lemma update_lookup u j su :
  tasks e' !! u = Some (j, su) ->
  (u = t /\ j = i /\ su = st') \/ (u <> t /\ j <> i /\ tasks e !! u = Some (j, su)).
Proof using Hnd He Ht.
  cbn. intros Hu. destruct (decide (u = t)) as [->|Hne].
  - rewrite list_lookup_insert_eq in Hu by (by eapply lookup_lt_Some). left. by simplify_eq.
  - rewrite list_lookup_insert_ne in Hu by done. right. split_and!; [done| |done]. intros ->.
    by apply Hne, (index_unique e u t i su st (ei_indices e He)).
Qed.

Lemma update_at : tasks e' !! t = Some (i, st').
Proof using Ht. cbn. rewrite list_lookup_insert_eq; [done|]. by eapply lookup_lt_Some. Qed.

(** The mutex was not dealt with in this step. *)
Lemma record_same order :
  recorded i st' = recorded i st ->
  content (panic_slot d') = content (panic_slot (shared e)) ->
  record_order e order -> record_order e' order.
Proof using Hnd He Ht.
  intros Hr Hc (Hno & Hel & Hco). split; [done|]. split; [|by rewrite <- Hco].
  intros j. rewrite Hel. split.
  - intros (u & su & Hu & Hru). destruct (decide (u = t)) as [->|Hne].
    + assert (j = i) as -> by congruence. assert (su = st) as -> by congruence.
      exists t, st'. rewrite Hr. by rewrite update_at.
    + exists u, su. cbn. by rewrite list_lookup_insert_ne.
  - intros (u & su & Hu & Hru).
    apply update_lookup in Hu as [(-> & -> & ->)|(Hne & Hj & Hu)]; [|by exists u, su].
    exists t, st. by rewrite <- Hr.
Qed.

(** It was: the invocation comes last in the order. *)
Lemma record_snoc order :
  recorded i st = false -> recorded i st' = true ->
  content (panic_slot d')
  = match content (panic_slot (shared e)) with
    | Some p => Some p
    | None => match res i with Panic p => Some p | _ => None end
    end ->
  record_order e order -> record_order e' (order ++ [i]).
Proof using Hnd He Ht.
  intros Hr Hr' Hc (Hno & Hel & Hco). split; [|split].
  - apply NoDup_app. split; [done|]. split; [|apply NoDup_singleton].
    intros j Hj%Hel Hji%list_elem_of_singleton. subst j. destruct Hj as (u & su & Hu & Hru).
    rewrite (index_unique e u t i su st (ei_indices e He) Hu Ht) in Hu. congruence.
  - intros j. rewrite elem_of_app, list_elem_of_singleton, Hel. split.
    + intros [(u & su & Hu & Hru)| ->]; [|by exists t, st'; rewrite update_at].
      exists u, su. cbn. rewrite list_lookup_insert_ne; [done|]. intros <-. congruence.
    + intros (u & su & Hu & Hru).
      apply update_lookup in Hu as [(-> & -> & ->)|(Hne & Hj & Hu)]; [by right|].
      left. by exists u, su.
  - rewrite first_panic_snoc, <- Hco. done.
Qed.

Context (Hclient : cstep (client e) (client e') \/ client e' = client e).
Context (Hout : out d' = zset i (slot_of i st') (out (shared e))).
Context (Hflag : successful d' = zset i (flag_of i st') (successful (shared e))).
Context (Hcar : carries i st') (Hhold : holding st' = true <-> h' = Some t).
Context (Hothers : forall u, u <> t -> holder e = Some u <-> h' = Some u).
Context (Horder : forall order, record_order e order -> exists order', record_order e' order').
Context (Hcontent : content (panic_slot d') = content (panic_slot (shared e)) \/ holder e = Some t).
Context (Hstore : forall p, st' = TStore p -> content (panic_slot d') = None).
Context (Hrest : poisoned (panic_slot d') = poisoned (panic_slot (shared e)) /\
  active d' = active (shared e) /\ drops d' = drops (shared e) /\ frees d' = frees (shared e)).

Lemma update_inv : engine_inv e'.
Proof using All.
  pose proof (index_in_range e t i st (ei_indices e He) Ht) as Hi.
  assert (zlen (zseq n) = n) as Hzn by (apply zlen_zseq; lia).
  pose proof (ei_out e He) as Hlo. pose proof (ei_flags e He) as Hlf. rewrite Hzn in *.
  split; cbn [tasks shared holder].
  - destruct Hclient as [Hc| ->]; [|apply He]. eapply rtc_r; [apply He|done].
  - rewrite list_fmap_insert. cbn. rewrite list_insert_id; [apply He|].
    by rewrite list_lookup_fmap, Ht.
  - by rewrite Hout, zlen_zset, Hzn.
  - by rewrite Hflag, zlen_zset, Hzn.
  - intros u j su Hu. apply update_lookup in Hu as [(-> & -> & ->)|(Hne & Hj & Hu)].
    + split; cbn; [|rewrite ?Hout, ?Hflag|done..].
      * rewrite Hout, zget_zset by lia. by rewrite decide_True.
      * rewrite zget_zset by lia. by rewrite decide_True.
    + pose proof (index_in_range e u j su (ei_indices e He) Hu) as Hjr.
      destruct (ei_task e He u j su Hu) as [Hs1 Hs2 Hs3 Hs4 Hs5]. split; cbn.
      * rewrite Hout, zget_zset by lia. by rewrite decide_False.
      * rewrite Hflag, zget_zset by lia. by rewrite decide_False.
      * done.
      * by rewrite Hs4, Hothers.
      * intros p ->. destruct Hcontent as [->|Hh]; [by eapply Hs5|].
        exfalso. pose proof (proj1 Hs4 eq_refl). congruence.
  - intros j Hj Hji. destruct (ei_idle e He j Hj Hji) as [H1 H2].
    assert (i <> j).
    { intros <-. apply Hji. rewrite <- (ei_indices e He). apply list_elem_of_fmap.
      exists (i, st). split; [done|]. by eapply list_elem_of_lookup_2. }
    rewrite Hout, Hflag, !zget_zset by lia. by rewrite !decide_False.
  - destruct (ei_order e He) as [order Ho]. by eapply Horder.
  - intros u Hu. apply lookup_lt_is_Some. rewrite length_insert. apply lookup_lt_is_Some.
    destruct (decide (u = t)) as [->|Hne]; [by eexists|]. apply (ei_holder e He).
    by apply Hothers.
  - destruct Hrest as (-> & -> & -> & ->). apply He.
Qed.
End update.

Lemma zset_same_slot e t i st st' :
  engine_inv e -> tasks e !! t = Some (i, st) -> slot_of i st' = slot_of i st ->
  out (shared e) = zset i (slot_of i st') (out (shared e)).
Proof using.
  intros He Ht ->. symmetry. apply zset_id. by apply (ti_slot e t i st), ei_task.
Qed.

Lemma zset_same_flag e t i st st' :
  engine_inv e -> tasks e !! t = Some (i, st) -> flag_of i st' = flag_of i st ->
  successful (shared e) = zset i (flag_of i st') (successful (shared e)).
Proof using.
  intros He Ht ->. symmetry. apply zset_id. by apply (ti_flag e t i st), ei_task.
Qed.

Lemma client_same e t i st st' d' h' :
  tasks e !! t = Some (i, st) -> region d' = region (shared e) ->
  thread_of (i, st') = thread_of (i, st) ->
  client (mkEngine d' h' (<[t := (i, st')]> (tasks e))) = client e.
Proof using.
  intros Ht Hd Hth. unfold client. cbn. rewrite Hd. f_equal.
  rewrite list_fmap_insert. apply list_insert_id. rewrite list_lookup_fmap, Ht, Hth. done.
Qed.

(** An access of the closure is a step of the client's threads. *)
Lemma client_access e t i c c' m' h' :
  tasks e !! t = Some (i, TRun c) -> access (sh i) c (region (shared e)) = Some (c', m') ->
  cstep (client e) (client (mkEngine (set_region m' (shared e)) h'
                              (<[t := (i, TRun c')]> (tasks e)))).
Proof using.
  intros Ht Ha. unfold client. cbn. rewrite list_fmap_insert.
  apply (access_cstep (sh i) c); [done|]. by rewrite list_lookup_fmap, Ht.
Qed.

(** What a step that leaves slot, flag and payload alone has to show. *)
Ltac keep_slots He Ht :=
  try first [ by apply (zset_same_slot _ _ _ _ _ He Ht) | by apply (zset_same_flag _ _ _ _ _ He Ht)
        | by intros order Ho; exists order; apply (record_same _ _ _ _ _ _ _ He Ht) | done
        | by left | by split_and! ].

Lemma engine_step_inv e t :
  engine_inv e ->
  match engine_step sh t e with
  | Some (Ret e') => engine_inv e' | Some _ => False | None => True
  end.
Proof using Hin Hdis Hnd Hrange.
  intros He. unfold engine_step. destruct (tasks e !! t) as [[i st]|] eqn:Ht; [|done].
  pose proof (index_in_range e t i st (ei_indices e He) Ht) as Hi.
  destruct (ei_task e He t i st Ht) as [Hs1 Hs2 Hs3 Hs4 Hs5].
  assert (zlen (zseq n) = n) as Hzn by (apply zlen_zseq; lia).
  pose proof (ei_out e He) as Hlo. pose proof (ei_flags e He) as Hlf. rewrite Hzn in *.
  destruct st as [c|v| |p|p|p| |]; cbn [carries holding slot_of flag_of recorded] in *.
  - destruct (access (sh i) c (region (shared e))) as [[c' m']|] eqn:Ea.
    { apply (update_inv e t i (TRun c)); keep_slots He Ht. left. by apply (client_access e t i c). }
    destruct (access_None _ _ _ Ea) as [o Hf]. rewrite Hf.
    pose proof (ended_result e t i _ o He Ht Hf) as Hr.
    assert (c = ended (res i)) as Hc by (rewrite Hr; by apply ended_finished).
    destruct o as [r|p|]; [| |done].
    + apply (update_inv e t i (TRun c)); keep_slots He Ht.
      right. apply (client_same e t i (TRun c)); [done..|]. unfold thread_of. cbn [fst snd].
      by rewrite <- Hc.
    + apply (update_inv e t i (TRun c)); keep_slots He Ht.
      right. apply (client_same e t i (TRun c)); [done..|]. unfold thread_of. cbn [fst snd].
      by rewrite <- Hc.
  - rewrite decide_True by lia.
    apply (update_inv e t i (TWrite v)); keep_slots He Ht.
    + right. by apply (client_same e t i (TWrite v)).
    + cbn. by rewrite Hs3.
    + cbn. by rewrite Hs3.
  - rewrite decide_True by lia.
    apply (update_inv e t i TFlag); keep_slots He Ht.
    + right. by apply (client_same e t i TFlag).
    + cbn. by rewrite Hs3.
    + intros order Ho. exists order. apply (record_same e t i TFlag); [done..| |done|done].
      cbn. by rewrite Hs3.
  - destruct (holder e) as [u|] eqn:Eh; [done|].
    apply (update_inv e t i (TLock p)); keep_slots He Ht.
    + right. by apply (client_same e t i (TLock p)).
    + intros u Hu. split; [congruence|]. intros [= <-]. done.
  - rewrite lock_panic_payload_content. pose proof (proj1 Hs4 eq_refl) as Hh.
    destruct (content (panic_slot (shared e))) as [q|] eqn:Ec.
    + apply (update_inv e t i (TCheck p)); keep_slots He Ht.
      * right. by apply (client_same e t i (TCheck p)).
      * cbn. by rewrite Hs3.
      * intros order Ho. eexists. apply (record_snoc e t i (TCheck p)); try done.
        cbn. by rewrite Ec.
    + apply (update_inv e t i (TCheck p)); keep_slots He Ht.
      right. by apply (client_same e t i (TCheck p)).
  - pose proof (proj1 Hs4 eq_refl) as Hh.
    apply (update_inv e t i (TStore p)); keep_slots He Ht.
    + right. by apply (client_same e t i (TStore p)).
    + cbn. by rewrite Hs3.
    + intros order Ho. eexists. apply (record_snoc e t i (TStore p)); try done.
      cbn. by rewrite (Hs5 p eq_refl), Hs3.
    + by right.
  - pose proof (proj1 Hs4 eq_refl) as Hh.
    apply (update_inv e t i TUnlock); keep_slots He Ht.
    + right. by apply (client_same e t i TUnlock).
    + apply (zset_same_slot e t i TUnlock); [done..|]. cbn. cbn in Hs3. by case_match.
    + intros u Hu. split; [congruence|done].
    + intros order Ho. exists order. apply (record_same e t i TUnlock); [done..| |done|done].
      cbn. cbn in Hs3. by rewrite Hs3.
  - done.
Qed.

Lemma engine_reachable_inv e : rtc (estep sh) (start_engine body n m inv) e -> engine_inv e.
Proof using Hin Hdis Hnd Hrange.
  revert e. apply rtc_ind_r; [apply engine_start_inv|]. intros e e' _ [t Hs] He.
  pose proof (engine_step_inv e t He) as Hi. by rewrite Hs in Hi.
Qed.

(** While an invocation is not done, some invocation can step: the one that holds
    the mutex, or any. *)
Lemma engine_progress e : engine_inv e -> all_done e \/ exists e', estep sh e e'.
Proof using Hin Hdis Hnd Hrange.
  intros He.
  assert (forall t i st, tasks e !! t = Some (i, st) -> st <> TDone ->
            holder e = None \/ holder e = Some t -> exists e', estep sh e e') as Hstep.
  { intros t i st Ht Hst Hh. pose proof (engine_step_inv e t He) as Hi.
    destruct (engine_step sh t e) as [[e'| |]|] eqn:Es; [by exists e', t|done..|].
    exfalso. destruct (ei_task e He t i st Ht) as [_ _ _ Hhold _].
    unfold engine_step in Es. rewrite Ht in Es. cbn in Es.
    destruct st as [c|v| |p|p|p| |].
    { destruct (access (sh i) c (region (shared e))) as [[c' m']|] eqn:Ea; [done|].
      destruct (access_None _ _ _ Ea) as [o Hf]. rewrite Hf in Es.
      by destruct c; cbn in Hf; simplify_eq. }
    all: repeat case_match; try done; destruct Hh; try congruence.
    by pose proof (proj2 Hhold ltac:(assumption)). }
  destruct (decide (Forall (fun x => stage (snd x) = 0%nat) (tasks e))) as [Hd|Hd].
  { left. intros t i st Ht. rewrite Forall_lookup in Hd. specialize (Hd t _ Ht). by destruct st. }
  right. apply not_Forall_Exists in Hd; [|apply _].
  apply Exists_exists in Hd as ([i st] & Hel & Hst).
  apply list_elem_of_lookup in Hel as [t Ht]. cbn in Hst.
  assert (st <> TDone) by (by intros ->).
  destruct (holder e) as [u|] eqn:Eh; [|by eapply Hstep; eauto].
  destruct (ei_holder e He u Eh) as [[j su] Hu]. apply (Hstep u j su Hu); [|by right].
  intros ->. by pose proof (proj2 (ti_holder e u j TDone (ei_task e He u j TDone Hu)) Eh).
Qed.

(** The memory once every invocation is done. *)
Lemma done_region e : engine_inv e -> all_done e -> shards_done sh body n m inv (region (shared e)).
Proof using Hin Hdis Hnd Hrange.
  intros He Hd. pose proof (ei_client e He) as Hs. rewrite client_start in Hs.
  apply (interleaved_done sh body n m Hin Hdis inv Hnd Hrange _ Hs).
  intros t w b Ht. cbn in Ht. rewrite list_lookup_fmap in Ht.
  destruct (tasks e !! t) as [[i st]|] eqn:Et; [|done]. pose proof (Hd t i st Et) as ->.
  unfold thread_of in Ht. cbn in Ht. injection Ht as _ <-.
  unfold ended. case_match; by eexists.
Qed.

Lemma shards_done_perm ran ran' m' :
  ran ≡ₚ ran' -> shards_done sh body n m ran m' -> shards_done sh body n m ran' m'.
Proof using.
  intros Hp [Hl Ht Ho]. split; [done| |done]. intros i Hi. rewrite (Ht i Hi).
  apply decide_ext. by rewrite Hp.
Qed.

Lemma first_panic_app (res' : Z -> outcome R) l k :
  first_panic res' k = None -> first_panic res' (l ++ k) = first_panic res' l.
Proof using. intros Hk. induction l as [|i l IH]; [done|]. cbn. by destruct (res' i). Qed.

Lemma is_done e i : engine_inv e -> all_done e -> i ∈ inv -> exists t, tasks e !! t = Some (i, TDone).
Proof using.
  intros He Hd Hi. rewrite <- (ei_indices e He) in Hi.
  apply list_elem_of_fmap in Hi as ([j st] & -> & Hel). apply list_elem_of_lookup in Hel as [t Ht].
  exists t. by rewrite Ht, (Hd t j st Ht).
Qed.

(** Slots and flags once every invocation is done. *)
Lemma done_slots e order i :
  engine_inv e -> all_done e -> order ≡ₚ inv -> 0 <= i < n ->
  zget (out (shared e)) i = Some (slot_spec res order i) /\
  zget (successful (shared e)) i = Some (flag_spec res order i).
Proof using.
  intros He Hd Hp Hi. unfold slot_spec, flag_spec.
  rewrite (decide_ext _ (i ∈ inv)) by (by rewrite Hp).
  rewrite (bool_decide_ext _ (i ∈ inv)) by (by rewrite Hp).
  destruct (decide (i ∈ inv)) as [Hii|Hii].
  - rewrite bool_decide_true by done. destruct (is_done e i He Hd Hii) as [t Ht].
    by destruct (ei_task e He t i _ Ht) as [H1 H2 _ _ _].
  - rewrite bool_decide_false by done. by apply (ei_idle e He).
Qed.

Lemma done_buffers e order :
  engine_inv e -> all_done e -> order ≡ₚ inv ->
  out (shared e) = (slot_spec res order <$> zseq n) /\
  successful (shared e) = (flag_spec res order <$> zseq n).
Proof using.
  intros He Hd Hp.
  assert (forall i, 0 <= i < zlen (zseq n) -> 0 <= i < n) as Hz.
  { intros i Hi. unfold zlen, zseq in Hi. rewrite length_fmap, length_seq in Hi. lia. }
  split; (apply zlist_eq; [rewrite zlen_fmap; apply He|]); intros i Hi;
    rewrite ?(ei_out e He), ?(ei_flags e He) in Hi; rewrite zget_fmap, zget_zseq by auto;
    by apply done_slots; auto.
Qed.

(** A finished engine is what the sequential run of the same invocations leaves,
    in the order in which the panics were recorded. *)
Lemma done_expected e :
  engine_inv e -> all_done e ->
  exists order, order ≡ₚ inv /\ shared e = expected run n m res order.
Proof using Hin Hdis Hnd Hrange.
  intros He Hd. destruct (ei_order e He) as (recs & Hno & Hel & Hco).
  assert (forall i, i ∈ inv -> is_ret (res i) = false -> i ∈ recs) as Hrec.
  { intros i Hi Hr. apply Hel. destruct (is_done e i He Hd Hi) as [t Ht].
    exists t, TDone. split; [done|]. cbn. cbn in Hr. by rewrite Hr. }
  assert (forall i, i ∈ recs -> i ∈ inv) as Hsub.
  { intros i (t & st & Ht & _)%Hel. rewrite <- (ei_indices e He).
    apply list_elem_of_fmap. exists (i, st). split; [done|]. by eapply list_elem_of_lookup_2. }
  exists (recs ++ filter (fun i => i ∉ recs) inv).
  assert (recs ++ filter (fun i => i ∉ recs) inv ≡ₚ inv) as Hp.
  { apply NoDup_Permutation; [|done|].
    - apply NoDup_app. split; [done|]. split; [|by apply NoDup_filter].
      intros i Hi Hf. by apply list_elem_of_filter in Hf as [? _].
    - intros i. rewrite elem_of_app, list_elem_of_filter. split; [intros [?|[_ ?]]; auto|].
      intros Hi. destruct (decide (i ∈ recs)); auto. }
  split; [done|]. destruct (ei_rest e He) as (Hpo & Hac & Hdr & Hfr).
  destruct (done_buffers e _ He Hd Hp) as [Ho Hf].
  pose proof (done_region e He Hd) as Hreg. unfold expected.
  rewrite first_panic_app, <- Hco.
  2: { apply first_panic_None. intros i p (Hni & Hi)%list_elem_of_filter Hpi.
       apply Hni, Hrec; [done|]. cbn. cbn in Hpi. by rewrite Hpi. }
  rewrite <- (shards_done_unique sh body n m Hin inv _ _ Hreg).
  2: { apply (shards_done_perm _ _ _ Hp), (run_shards_from_start sh body n m Hin Hdis);
         [by rewrite Hp|by rewrite Hp]. }
  rewrite <- Ho, <- Hf.
  rewrite <- Hpo, <- Hac, <- Hdr, <- Hfr. destruct (shared e) as [? ? ? [? ?] ? ? ?]. done.
Qed.
End refinement.

Lemma run_schedule_rtc {T R} sh sched (e e' : engine T R) :
  run_schedule sh sched e = Some (Ret e') -> rtc (estep sh) e e'.
Proof.
  revert e. induction sched as [|t sched IH]; intros e Hs; cbn in Hs.
  { injection Hs as ->. apply rtc_refl. }
  destruct (engine_step sh t e) as [[e1| |]|] eqn:Es; [|done..].
  eapply rtc_l; [by exists t|by apply IH].
Qed.

(** An executor that runs the invocations in the given order for [n] tasks. *)
Definition ordered (E : ParallelExecutor) (n : Z) (order : list Z) : ParallelExecutor :=
  mkPE (fun k => if decide (k = n) then order else invocations E k) (unwinds E).

Lemma ordered_contract E `{!ExecutorContract E} n order :
  order ≡ₚ invocations E n -> ExecutorContract (ordered E n order).
Proof.
  intros Hp. split; cbn; intros k; [|intros i|intros i]; destruct (decide (k = n)) as [->|];
    try rewrite Hp; [apply invoked_once..|apply invoked_in_range|apply invoked_in_range
    |apply invoked_all|apply invoked_all].
Qed.

Lemma contract_range E `{!ExecutorContract E} n : Forall (fun i => 0 <= i < n) (invocations E n).
Proof. apply Forall_forall. intros i. apply invoked_in_range. Qed.

(** The way out of the executor is that of a sequential run in some order. *)
Lemma workers_ordered {T R} (sh : Z -> WriterShard) (body : Z -> closure T R)
    (E : ParallelExecutor) `{!ExecutorContract E} (n : Z) (m : list T) (e : engine T R) :
  disjoint_shards sh n m ->
  rtc (estep sh) (start_engine body n m (invocations E n)) e -> all_done e ->
  exists order, order ≡ₚ invocations E n /\
    executor_returned E n (shared e)
    = drive_registered (shard_task sh body) (ordered E n order) n m.
Proof.
  intros [Hin Hdis] Hs Hd.
  pose proof (engine_reachable_inv sh body n m Hin Hdis _ (invoked_once n) (contract_range E n) e Hs) as He.
  destruct (done_expected sh body n m Hin Hdis _ (invoked_once n) (contract_range E n) e He Hd)
    as (order & Hp & Hsh).
  pose proof (ordered_contract E n order Hp) as HE'. exists order. split; [done|].
  rewrite (drive_registered_expected (shard_task sh body) (ordered E n order) n m
    (fun i => fst (shard_eval sh body m i)) (shards_after sh body n m)
    (IndependentTasks0 := shards_independent sh body n m Hin Hdis)).
  cbn [invocations ordered]. by rewrite decide_True, Hsh.
Qed.

(** ** Properties *)

(** C2: The workers of a registered executor refine the sequential engine: whatever
    the interleaving of all accesses, slot writes, flag stores and mutex
    operations of the concurrent [task_wrapper] invocations, once they are all
    done the engine goes on exactly as with some contract-keeping executor that
    performs the same invocations one after the other, with the same result,
    region, drops and release of the buffer. *)
Theorem workers_refine_sequential {T R} (sh : Z -> WriterShard) (body : Z -> closure T R)
    (E : ParallelExecutor) (n : Z) (m : list T) (e : engine T R) :
  ExecutorContract E -> disjoint_shards sh n m ->
  rtc (estep sh) (start_engine body n m (invocations E n)) e -> all_done e ->
  exists E', ExecutorContract E' /\ invocations E' n ≡ₚ invocations E n /\
    unwinds E' n = unwinds E n /\
    executor_returned E n (shared e) = drive_registered (shard_task sh body) E' n m.
Proof.
  intros HE Hsh Hs Hd. destruct (workers_ordered sh body E n m e Hsh Hs Hd) as (order & Hp & Heq).
  exists (ordered E n order).
  split_and!; [by apply ordered_contract|cbn; by rewrite decide_True|done|done].
Qed.

(** Three tasks on the cells of a region: the first stores and returns, the
    others panic; and an interleaving in which both panics race for the mutex. *)
Definition racing_body (i : Z) : closure Z Z :=
  if decide (i = 0) then CSet 0 1 (fun _ => CRet 10) else CPanic (UserPanic i).
Definition racing_sched : list nat := [1; 0; 1; 2; 1; 1; 2; 1; 0; 0; 2; 0; 2]%nat.

Definition racing_end : engine Z Z :=
  match run_schedule cell_shard racing_sched
          (start_engine racing_body 3 [5; 6; 7] (invocations Backwards 3)) with
  | Some (Ret e) => e
  | _ => start_engine racing_body 3 [5; 6; 7] []
  end.

Lemma workers_refine_sequential_witness :
  exists E', ExecutorContract E' /\
    executor_returned Backwards 3 (shared racing_end)
    = drive_registered (shard_task cell_shard racing_body) E' 3 [5; 6; 7] /\
    fst (executor_returned Backwards 3 (shared racing_end)) = Panic (UserPanic 1).
Proof.
  assert (rtc (estep cell_shard)
    (start_engine racing_body 3 [5; 6; 7] (invocations Backwards 3)) racing_end) as Hs.
  { apply (run_schedule_rtc cell_shard racing_sched). vm_compute. reflexivity. }
  assert (all_done racing_end) as Hd.
  { intros [|[|[|t]]] i st Ht; vm_compute in Ht; congruence. }
  destruct (workers_refine_sequential cell_shard racing_body Backwards 3 [5; 6; 7] racing_end
    Backwards_contract (cell_shards_disjoint [5; 6; 7] eq_refl) Hs Hd) as (E' & HE & _ & _ & Heq).
  exists E'. split; [exact HE|]. split; [exact Heq|]. vm_compute. reflexivity.
Defined.

(** C22: No schedule of the workers deadlocks or runs forever: from every reachable
    state every sequence of steps is finite, some invocation can step unless all
    are done (a wait for the panic mutex always ends), and so a state is reached
    in which the executor may return. *)
Theorem workers_always_finish {T R} (sh : Z -> WriterShard) (body : Z -> closure T R)
    (E : ParallelExecutor) (n : Z) (m : list T) (e : engine T R) :
  ExecutorContract E -> disjoint_shards sh n m ->
  rtc (estep sh) (start_engine body n m (invocations E n)) e ->
  Acc (flip (estep sh)) e /\
  (all_done e \/ exists e', estep sh e e') /\
  exists e', rtc (estep sh) e e' /\ all_done e'.
Proof.
  intros HE [Hin Hdis] Hs.
  assert (forall e', rtc (estep sh) e e' -> all_done e' \/ exists e'', estep sh e' e'') as Hp.
  { intros e' He'. apply (engine_progress sh body n m Hin Hdis _ (invoked_once n) (contract_range E n)).
    apply (engine_reachable_inv sh body n m Hin Hdis _ (invoked_once n) (contract_range E n)).
    by etransitivity. }
  split; [apply estep_wf|]. split; [apply Hp, rtc_refl|].
  apply acc_reaches; [done|apply estep_wf].
Qed.

Lemma workers_always_finish_witness :
  exists e', rtc (estep cell_shard)
    (start_engine racing_body 3 [5; 6; 7] (invocations Backwards 3)) e' /\ all_done e'.
Proof.
  exact (proj2 (proj2 (workers_always_finish cell_shard racing_body Backwards 3 [5; 6; 7] _
    Backwards_contract (cell_shards_disjoint [5; 6; 7] eq_refl) (rtc_refl _ _)))).
Defined.

(** The raw accesses of the workers are safe in every reachable state: no step
    has undefined behaviour, at most one invocation is between the lock and the
    unlock of the panic mutex, a recorded payload is never replaced, and a slot
    is only written while its invocation is the one that owns it and it is
    still uninitialised. *)
Theorem workers_safe {T R} (sh : Z -> WriterShard) (body : Z -> closure T R)
    (E : ParallelExecutor) (n : Z) (m : list T) (e : engine T R) :
  ExecutorContract E -> disjoint_shards sh n m ->
  rtc (estep sh) (start_engine body n m (invocations E n)) e ->
  (forall t, engine_step sh t e <> Some UB) /\
  (forall t u i j st su, tasks e !! t = Some (i, st) -> tasks e !! u = Some (j, su) ->
     holding st = true -> holding su = true -> t = u) /\
  (forall e' p, estep sh e e' -> content (panic_slot (shared e)) = Some p ->
     content (panic_slot (shared e')) = Some p) /\
  (forall t i v, tasks e !! t = Some (i, TWrite v) -> zget (out (shared e)) i = Some Uninit).
Proof.
  intros HE [Hin Hdis] Hs.
  pose proof (engine_reachable_inv sh body n m Hin Hdis _ (invoked_once n) (contract_range E n) e Hs) as He.
  split_and!.
  - intros t Ht. pose proof (engine_step_inv sh body n m Hin Hdis _ (invoked_once n)
      (contract_range E n) e t He) as Hi. by rewrite Ht in Hi.
  - intros t u i j st su Ht Hu Hst Hsu.
    apply (ei_task _ _ _ _ _ _ He) in Ht as [_ _ _ Hh1 _], Hu as [_ _ _ Hh2 _].
    apply Hh1 in Hst. apply Hh2 in Hsu. congruence.
  - intros e' p [t Ht] Hc. unfold engine_step in Ht.
    destruct (tasks e !! t) as [[i st]|] eqn:Et; [|done]. cbn in Ht.
    pose proof (ti_store _ _ _ _ _ _ _ (ei_task _ _ _ _ _ _ He t i st Et)) as Hst.
    repeat case_match; simplify_eq; try done. exfalso. by rewrite (Hst _ eq_refl) in Hc.
  - intros t i v Ht. by destruct (ei_task _ _ _ _ _ _ He t i _ Ht) as [-> _ _ _ _].
Qed.

Lemma workers_safe_witness :
  exists e, run_schedule cell_shard (take 5 racing_sched)
      (start_engine racing_body 3 [5; 6; 7] (invocations Backwards 3)) = Some (Ret e) /\
    holder e = Some 1%nat /\ (forall t, engine_step cell_shard t e <> Some UB).
Proof.
  eexists. split; [vm_compute; reflexivity|]. split; [reflexivity|].
  refine (proj1 (workers_safe cell_shard racing_body Backwards 3 [5; 6; 7] _
    Backwards_contract (cell_shards_disjoint [5; 6; 7] eq_refl) _)).
  apply (run_schedule_rtc cell_shard (take 5 racing_sched)). vm_compute. reflexivity.
Defined.
