(* ===== verification/ScopedThreads.v ===== *)
(** * The scoped-thread path of the engine, step by step

    [Driver.drive_scoped] takes the order in which the threads' tasks take effect
    as a given.  Here the path is the program of [driver_core.rs] itself: the
    calling thread spawns a thread per task but the last, runs the last task
    inline, joins the handles in index order and leaves [std::thread::scope],
    which waits for every thread, also when the body of the scope unwinds.  The
    spawned threads run between these steps, one access of their closures at a
    time.

    Main results: a call that ends has exactly the outcome and the region of
    [Driver.drive_scoped]; no schedule deadlocks or runs forever, and a call
    never ends while a thread it spawned still runs. *)
From S2P Require Import Prelude Region Closure Executor Driver Shards.
From stdpp Require Import base numbers sets list relations.
Local Open Scope Z_scope.
Local Open Scope mel_scope.

(** Where the calling thread stands. *)
Inductive main_state (T R : Type) : Type :=
| Single (c : closure T R)              (* [vec![run(0)]], without a scope *)
| Spawning (index : Z)                  (* [for index in 0..(num_chunks - 1)] *)
| Inline (c : closure T R)              (* [let last = run(num_chunks - 1)] *)
| Joining (h : Z) (results : list R) (last : R)  (* [for h in handles], at the [h]-th *)
| Leaving (o : outcome (list R))        (* the scope's body has ended *)
| Returned (o : outcome (list R)).
Arguments Single {T R} c.
Arguments Spawning {T R} index.
Arguments Inline {T R} c.
Arguments Joining {T R} h results last.
Arguments Leaving {T R} o.
Arguments Returned {T R} o.

(** The region, the calling thread, the threads spawned so far in index order,
    and [num_chunks - 1]. *)
Record scoped (T R : Type) : Type := mkScoped {
  s_region : list T;
  s_main : main_state T R;
  s_spawned : list (closure T R);
  s_last : Z
}.
Arguments mkScoped {T R}.
Arguments s_region {T R}.
Arguments s_main {T R}.
Arguments s_spawned {T R}.
Arguments s_last {T R}.

Section scoped_steps.
Context {T R : Type} (sh : Z -> WriterShard) (body : Z -> closure T R).

Definition scoped_start `{BuildProfile} (num_chunks : Z) (m : list T) : outcome (scoped T R) :=
  if decide (num_chunks = 1) then Ret (mkScoped m (Single (body 0)) [] 0)
  else last_index ← num_chunks -! 1; Ret (mkScoped m (Spawning 0) [] last_index).

(** Whether every spawned thread has ended. *)
Definition threads_ended (s : scoped T R) : bool :=
  forallb (fun c => bool_decide (is_Some (finished c))) (s_spawned s).

(** One step of the calling thread; [None] when it has returned or waits.  Every
    handle is joined before the body of the scope returns a value, so the scope
    has no unjoined panic of its own to report. *)
Definition main_step (s : scoped T R) : option (scoped T R) :=
  let main st := Some (mkScoped (s_region s) st (s_spawned s) (s_last s)) in
  match s_main s with
  | Single c =>
      match access (sh (s_last s)) c (s_region s) with
      | Some (c, m) => Some (mkScoped m (Single c) (s_spawned s) (s_last s))
      | None => o ← finished c; main (Returned ((fun r => [r]) <$> o))
      end
  | Spawning index =>
      if decide (index < s_last s) then
        Some (mkScoped (s_region s) (Spawning (index + 1)) (s_spawned s ++ [body index]) (s_last s))
      else main (Inline (body (s_last s)))
  | Inline c =>
      match access (sh (s_last s)) c (s_region s) with
      | Some (c, m) => Some (mkScoped m (Inline c) (s_spawned s) (s_last s))
      | None =>
          o ← finished c;
          match o with
          | Ret last => main (Joining 0 [] last)
          | Panic p => main (Leaving (Panic p))
          | UB => main (Leaving UB)
          end
      end
  | Joining h results last =>
      match zget (s_spawned s) h with
      | Some c =>
          o ← finished c;
          match o with
          | Ret value => main (Joining (h + 1) (results ++ [value]) last)
          | Panic payload => main (Leaving (Panic payload))
          | UB => main (Leaving UB)
          end
      | None => main (Leaving (Ret (results ++ [last])))
      end
  | Leaving o => if threads_ended s then main (Returned o) else None
  | Returned _ => None
  end.

(** One access of the spawned thread [k]. *)
Definition thread_step (k : nat) (s : scoped T R) : option (scoped T R) :=
  c ← s_spawned s !! k;
  '(c', m) ← access (sh (Z.of_nat k)) c (s_region s);
  Some (mkScoped m (s_main s) (<[k := c']> (s_spawned s)) (s_last s)).

Definition sstep (s s' : scoped T R) : Prop :=
  main_step s = Some s' \/ exists k, thread_step k s = Some s'.

(** Run a schedule: [None] is the calling thread, [Some k] the [k]-th spawned. *)
Fixpoint run_scoped (sched : list (option nat)) (s : scoped T R) : option (scoped T R) :=
  match sched with
  | [] => Some s
  | t :: sched =>
      s' ← match t with None => main_step s | Some k => thread_step k s end;
      run_scoped sched s'
  end.
End scoped_steps.

(** ** Termination *)

Section termination.
Context {T R : Type} (sh : Z -> WriterShard) (body : Z -> closure T R).
Abbreviation ends := (Acc (flip (sstep sh body))).

Lemma thread_step_same k (s s' : scoped T R) :
  thread_step sh k s = Some s' ->
  s_main s' = s_main s /\ s_last s' = s_last s /\
  length (s_spawned s') = length (s_spawned s) /\
  list_step sub_closure (s_spawned s') (s_spawned s).
Proof.
  unfold thread_step. intros (c & Hc & ([c' m] & Ha & Hs)%bind_Some)%bind_Some.
  injection Hs as <-. cbn. split_and!; [done|done|apply length_insert|].
  exists k, c, c'. split_and!; [done|by eapply access_sub|done].
Qed.

(** The threads alone cannot run forever, so a stage of the calling thread ends
    if the next one does. *)
Lemma stage_ends (P : scoped T R -> Prop) :
  (forall s s' k, P s -> thread_step sh k s = Some s' -> P s') ->
  (forall s s', P s -> main_step sh body s = Some s' -> ends s') ->
  forall s, P s -> ends s.
Proof.
  intros Ht Hm s. remember (s_spawned s) as pool eqn:Hpool. revert s Hpool.
  induction (list_step_wf _ (@sub_closure_wf T R) pool) as [pool _ IH].
  intros s -> Hs. constructor. intros s' [Hs'|[k Hs']]; [by eapply Hm|].
  destruct (thread_step_same k s s' Hs') as (_ & _ & _ & Hl). by eapply IH; [..|eapply Ht].
Qed.


Lemma returned_ends s o : s_main s = Returned o -> ends s.
Proof.
  intros Hs. apply (stage_ends (fun s => s_main s = Returned o)); [| |done].
  - by intros s1 s2 k Hm (-> & _)%thread_step_same.
  - intros s1 s2 Hm. unfold main_step. by rewrite Hm.
Qed.

Lemma leaving_ends s o : s_main s = Leaving o -> ends s.
Proof.
  intros Hs. apply (stage_ends (fun s => s_main s = Leaving o)); [| |done].
  - by intros s1 s2 k Hm (-> & _)%thread_step_same.
  - intros s1 s2 Hm. unfold main_step. rewrite Hm. case_match; intros; simplify_eq.
    by eapply returned_ends.
Qed.

Lemma joining_ends d s h rs last :
  s_main s = Joining h rs last -> Z.to_nat (zlen (s_spawned s) - h) = d -> ends s.
Proof.
  revert s h rs. induction d as [d IH] using lt_wf_ind. intros s h rs Hs Hd.
  apply (stage_ends (fun s => s_main s = Joining h rs last /\
    Z.to_nat (zlen (s_spawned s) - h) = d)); [| |done].
  - intros s1 s2 k [Hm1 Hm2] (E1 & _ & E3 & _)%thread_step_same. unfold zlen in *.
    by rewrite E1, E3.
  - intros s1 s2 [Hm1 Hm2] Hstep. unfold main_step in Hstep. rewrite Hm1 in Hstep.
    destruct (zget (s_spawned s1) h) as [c|] eqn:Hc.
    2: { simplify_eq. by eapply leaving_ends. }
    assert (0 <= h < zlen (s_spawned s1)) as Hh by (apply zget_lt_is_Some; by eexists).
    apply bind_Some in Hstep as (o & _ & Hstep). destruct o as [v|p|]; simplify_eq;
      [|by eapply leaving_ends..].
    eapply (IH (Z.to_nat (zlen (s_spawned s1) - (h + 1)))); [lia|done|done].
Qed.

Lemma inline_ends c s : s_main s = Inline c -> ends s.
Proof.
  revert s. induction (sub_closure_wf c) as [c _ IH]. intros s Hs.
  apply (stage_ends (fun s => s_main s = Inline c)); [| |done].
  - by intros s1 s2 k Hm (-> & _)%thread_step_same.
  - intros s1 s2 Hm Hstep. unfold main_step in Hstep. rewrite Hm in Hstep.
    destruct (access _ c _) as [[c' m]|] eqn:Ha.
    { simplify_eq. by eapply IH; [eapply access_sub|]. }
    apply bind_Some in Hstep as (o & _ & Hstep). destruct o; simplify_eq;
      [by eapply joining_ends|by eapply leaving_ends..].
Qed.

Lemma single_ends c s : s_main s = Single c -> ends s.
Proof.
  revert s. induction (sub_closure_wf c) as [c _ IH]. intros s Hs.
  apply (stage_ends (fun s => s_main s = Single c)); [| |done].
  - by intros s1 s2 k Hm (-> & _)%thread_step_same.
  - intros s1 s2 Hm Hstep. unfold main_step in Hstep. rewrite Hm in Hstep.
    destruct (access _ c _) as [[c' m]|] eqn:Ha.
    { simplify_eq. by eapply IH; [eapply access_sub|]. }
    apply bind_Some in Hstep as (o & _ & Hstep). simplify_eq. by eapply returned_ends.
Qed.

Lemma spawning_ends d s i : s_main s = Spawning i -> Z.to_nat (s_last s - i) = d -> ends s.
Proof.
  revert s i. induction d as [d IH] using lt_wf_ind. intros s i Hs Hd.
  apply (stage_ends (fun s => s_main s = Spawning i /\ Z.to_nat (s_last s - i) = d)); [| |done].
  - intros s1 s2 k [Hm1 Hm2] (E1 & E2 & _ & _)%thread_step_same. by rewrite E1, E2.
  - intros s1 s2 [Hm1 Hm2] Hstep. unfold main_step in Hstep. rewrite Hm1 in Hstep.
    case_decide; simplify_eq; [|by eapply inline_ends].
    eapply (IH (Z.to_nat (s_last s1 - (i + 1)))); [lia|done|done].
Qed.

Lemma sstep_wf : well_founded (flip (sstep sh body)).
Proof.
  intros s. destruct (s_main s) as [c|i|c|h rs last|o|o] eqn:E.
  - by eapply single_ends.
  - by eapply spawning_ends.
  - by eapply inline_ends.
  - by eapply joining_ends.
  - by eapply leaving_ends.
  - by eapply returned_ends.
Qed.
End termination.

(** ** Refinement of the sequential account *)

Section refinement.
Context {T R : Type} (sh : Z -> WriterShard) (body : Z -> closure T R) (n : Z) (m : list T).
Context (Hin : forall i, 0 <= i < n -> shard_in (zlen m) (sh i)).
Context (Hdis : forall i j, 0 <= i < n -> 0 <= j < n -> i <> j ->
  slice_disjoint (cells (sh i)) (cells (sh j))).
Context (Hn : 1 <= n).

Abbreviation res := (fun i => fst (shard_eval sh body m i)).

(** The closure of task [i] as it stands, spawned or not. *)
Definition thread_at (s : scoped T R) (i : Z) : closure T R :=
  if decide (i = n - 1) then
    match s_main s with
    | Single c | Inline c => c
    | Spawning _ => body (n - 1)
    | _ => ended (res (n - 1))
    end
  else default (body i) (zget (s_spawned s) i).

Definition client (s : scoped T R) : config T R :=
  mkConfig (s_region s) ((fun i => (sh i, thread_at s i)) <$> zseq n).

Definition main_inv (s : scoped T R) : Prop :=
  match s_main s with
  | Single _ => n = 1 /\ zlen (s_spawned s) = n - 1
  | Spawning i => i <= n - 1 /\ zlen (s_spawned s) = i
  | Inline _ => zlen (s_spawned s) = n - 1
  | Joining h rs last =>
      zlen (s_spawned s) = n - 1 /\ 0 <= h <= n - 1 /\ res (n - 1) = Ret last /\
      rs = omap (fun i => ret_value (res i)) (zseq h) /\ first_panic res (zseq h) = None
  | Leaving o => zlen (s_spawned s) = n - 1 /\ o = scoped_spec n res
  | Returned o =>
      zlen (s_spawned s) = n - 1 /\ o = scoped_spec n res /\ threads_ended s = true
  end.

Record scoped_inv (s : scoped T R) : Prop := {
  si_last : s_last s = n - 1;
  si_client : rtc cstep (shard_config sh body m (zseq n)) (client s);
  si_main : main_inv s
}.

Lemma lookup_zseq i : 0 <= i < n -> zseq n !! Z.to_nat i = Some i.
Proof using.
  intros Hi. pose proof (zget_zseq n i Hi) as Hz. unfold zget in Hz.
  by rewrite decide_True in Hz by lia.
Qed.

(** The end of a closure is the outcome of its task. *)
Lemma thread_result s i o :
  scoped_inv s -> 0 <= i < n -> finished (thread_at s i) = Some o -> res i = o.
Proof using Hin Hdis.
  intros Hs Hi Hf. symmetry.
  apply (interleaved_result sh body n m Hin Hdis (zseq n) (NoDup_zseq n) (Forall_zseq n) _
    (Z.to_nat i) i (sh i) (thread_at s i) o (si_client s Hs)); [by apply lookup_zseq| |done].
  cbn. by rewrite list_lookup_fmap, lookup_zseq.
Qed.

Lemma threads_same s s' :
  s_region s' = s_region s -> (forall i, 0 <= i < n -> thread_at s' i = thread_at s i) ->
  client s' = client s.
Proof using.
  intros Hr Ht. unfold client. rewrite Hr. f_equal. apply list_fmap_ext. intros k i Hk.
  rewrite Ht; [done|]. apply elem_of_zseq. by eapply list_elem_of_lookup_2.
Qed.

Lemma threads_access s s' i c c' :
  0 <= i < n -> thread_at s i = c -> access (sh i) c (s_region s) = Some (c', s_region s') ->
  thread_at s' i = c' -> (forall j, j <> i -> thread_at s' j = thread_at s j) ->
  cstep (client s) (client s').
Proof using.
  intros Hi Hc Ha Hc' Hj. unfold client.
  rewrite <- (zset_fmap_zseq (fun i => (sh i, thread_at s i)) (fun i => (sh i, thread_at s' i))
    n i (sh i, c') Hi).
  - apply (access_cstep (sh i) c); [done|]. rewrite list_lookup_fmap, lookup_zseq by done.
    by rewrite <- Hc.
  - by rewrite Hc'.
  - intros j Hne. by rewrite Hj.
Qed.

Lemma inv_step s s' :
  scoped_inv s -> s_last s' = s_last s -> cstep (client s) (client s') \/ client s' = client s ->
  main_inv s' -> scoped_inv s'.
Proof using.
  intros [Hl Hc Hm] Hl' Hs Hm'. split; [congruence| |done].
  destruct Hs as [Hs| ->]; [by eapply rtc_r|done].
Qed.

Lemma threads_ended_lookup (s : scoped T R) k c :
  threads_ended s = true -> s_spawned s !! k = Some c -> is_Some (finished c).
Proof using.
  unfold threads_ended. rewrite forallb_forall. intros Hf Hk.
  specialize (Hf c). rewrite bool_decide_eq_true in Hf. apply Hf.
  apply list_elem_of_In. by eapply list_elem_of_lookup_2.
Qed.

Lemma spawned_at s i :
  i <> n - 1 -> thread_at s i = default (body i) (zget (s_spawned s) i).
Proof using. intros Hi. unfold thread_at. by rewrite decide_False. Qed.

(** The number of threads never exceeds the tasks but the last. *)
Lemma main_inv_spawned (s : scoped T R) : main_inv s -> zlen (s_spawned s) <= n - 1.
Proof using. unfold main_inv. destruct (s_main s); intros; destruct_and?; lia. Qed.

(** A step of a thread leaves what the calling thread knows. *)
Lemma thread_step_inv s s' k : scoped_inv s -> thread_step sh k s = Some s' -> scoped_inv s'.
Proof using Hin Hdis Hn.
  intros Hs Hstep. pose proof (thread_step_same sh k s s' Hstep) as (Hm & Hl & Hlen & _).
  pose proof Hstep as (c & Hc & ([c' m'] & Ha & E)%bind_Some)%bind_Some. injection E as <-.
  pose proof (main_inv_spawned s (si_main s Hs)) as Hle.
  assert (Z.of_nat k < n - 1) as Hk.
  { apply lookup_lt_Some in Hc. unfold zlen in Hle. lia. }
  assert (zlen (<[k:=c']> (s_spawned s)) = zlen (s_spawned s)) as Hz
    by (unfold zlen; by rewrite length_insert).
  apply (inv_step s); [done..| |].
  - left. apply (threads_access s _ (Z.of_nat k) c c'); [lia| |done| |].
    + rewrite spawned_at by lia. by rewrite zget_nth, Hc.
    + rewrite spawned_at by lia. cbn. rewrite zget_nth.
      by rewrite list_lookup_insert_eq by (by eapply lookup_lt_Some).
    + intros j Hj. unfold thread_at. cbn. destruct (decide (j = n - 1)); [done|].
      f_equal. unfold zget. case_decide; [|done]. by rewrite list_lookup_insert_ne by lia.
  - pose proof (si_main s Hs) as Hi. unfold main_inv in *. cbn [s_main s_spawned]. rewrite Hz.
    destruct (s_main s) eqn:E; try done. destruct Hi as (H1 & H2 & H3). split_and!; [done|done|].
    pose proof (threads_ended_lookup s k c H3 Hc) as [oc Ho].
    by rewrite (access_finished _ _ _ _ Ho) in Ha.
Qed.

(** The payload the joins re-raise. *)
Lemma join_panic h p :
  0 <= h < n - 1 -> first_panic res (zseq h) = None -> res h = Panic p ->
  (forall q, res (n - 1) <> Panic q) -> scoped_spec n res = Panic p.
Proof using.
  intros Hh Hf Hp Hl. unfold scoped_spec, join_spec.
  assert (first_panic res (zseq n) = Some p) as ->.
  { pose proof (take_drop_middle (zseq n) (Z.to_nat h) h ltac:(apply lookup_zseq; lia)) as Hz.
    rewrite (zseq_split n _ h _ (eq_sym Hz)) in Hz. rewrite <- Hz. clear -Hf Hp. induction (zseq h) as [|i l IH]; cbn in *; [by rewrite Hp|].
    destruct (fst (shard_eval sh body m i)); [auto|done|auto]. }
  destruct (res (n - 1)) as [v|q|] eqn:E; [done|by destruct (Hl q)|done].
Qed.

Lemma join_end last :
  res (n - 1) = Ret last -> first_panic res (zseq (n - 1)) = None ->
  scoped_spec n res = Ret (omap (fun i => ret_value (res i)) (zseq (n - 1)) ++ [last]).
Proof using Hn.
  intros Hl Hf. unfold scoped_spec, join_spec. rewrite zseq_last by done.
  rewrite first_panic_snoc, Hf, Hl, omap_app. cbn. cbn in Hl. by rewrite Hl.
Qed.

(** The inline task of the calling thread: an access, or its end. *)
Lemma inline_access s c c' m' st' :
  scoped_inv s -> thread_at s (n - 1) = c -> access (sh (s_last s)) c (s_region s) = Some (c', m') ->
  let s' := mkScoped m' st' (s_spawned s) (s_last s) in
  thread_at s' (n - 1) = c' -> main_inv s' -> scoped_inv s'.
Proof using Hn.
  intros Hs Hc Ha s' Hc' Hm. apply (inv_step s); [done..| |done]. left.
  rewrite (si_last s Hs) in Ha. apply (threads_access s _ (n - 1) c c'); [lia|done..|].
  intros j Hj. unfold thread_at. by rewrite !decide_False.
Qed.

Lemma main_moves s st' :
  scoped_inv s -> let s' := mkScoped (s_region s) st' (s_spawned s) (s_last s) in
  thread_at s' (n - 1) = thread_at s (n - 1) -> main_inv s' -> scoped_inv s'.
Proof using.
  intros Hs s' Hc Hm. apply (inv_step s); [done..| |done]. right. apply threads_same; [done|].
  intros i Hi. destruct (decide (i = n - 1)) as [->|Hne]; [done|].
  unfold thread_at. by rewrite !decide_False.
Qed.

Lemma last_thread (s : scoped T R) :
  thread_at s (n - 1) =
  match s_main s with
  | Single c | Inline c => c
  | Spawning _ => body (n - 1)
  | _ => ended (res (n - 1))
  end.
Proof using. unfold thread_at. by rewrite decide_True. Qed.

Lemma inline_result s c o :
  scoped_inv s -> thread_at s (n - 1) = c -> finished c = Some o ->
  res (n - 1) = o /\ c = ended (res (n - 1)).
Proof using Hin Hdis Hn.
  intros Hs Hc Hf. assert (res (n - 1) = o) as Hr.
  { apply (thread_result s (n - 1) o Hs); [lia|by rewrite Hc]. }
  split; [done|]. rewrite Hr. by apply ended_finished.
Qed.

Lemma single_step_inv s c s' :
  scoped_inv s -> s_main s = Single c -> main_step sh body s = Some s' -> scoped_inv s'.
Proof using Hin Hdis Hn.
  intros Hs E Hstep. pose proof (si_main s Hs) as Hi. unfold main_inv in Hi. rewrite E in Hi.
  pose proof (last_thread s) as Hth. rewrite E in Hth. unfold main_step in Hstep. rewrite E in Hstep.
  destruct Hi as [Hn1 Hz]. destruct (access _ c _) as [[c' m']|] eqn:Ha; cbn in Hstep.
  - injection Hstep as <-. apply (inline_access s c c');
      [done|done|done|by rewrite last_thread|done].
  - destruct (access_None _ _ _ Ha) as [o Ho]. rewrite Ho in Hstep. cbn in Hstep.
    injection Hstep as <-. destruct (inline_result s _ o Hs Hth Ho) as [Hr Hc].
    apply main_moves; [done|by rewrite !last_thread, E|].
    unfold main_inv. cbn. split_and!; [done| |].
    + clear - Hr Hn1 Ho. unfold scoped_spec, join_spec. rewrite Hr, Hn1 in *. change (zseq 1) with [0].
      cbn. change (1 - 1) with 0 in Hr. cbn in Hr. rewrite Hr. destruct o; [done|done|by destruct c].
    + unfold threads_ended. cbn. assert (s_spawned s = []) as -> by (apply zlen_0; lia). done.
Qed.

Lemma inline_step_inv s c s' :
  scoped_inv s -> s_main s = Inline c -> main_step sh body s = Some s' -> scoped_inv s'.
Proof using Hin Hdis Hn.
  intros Hs E Hstep. pose proof (si_main s Hs) as Hi. unfold main_inv in Hi. rewrite E in Hi.
  pose proof (last_thread s) as Hth. rewrite E in Hth. unfold main_step in Hstep. rewrite E in Hstep.
  destruct (access _ c _) as [[c' m']|] eqn:Ha; cbn in Hstep.
  - injection Hstep as <-. apply (inline_access s c c');
      [done|done|done|by rewrite last_thread|done].
  - destruct (access_None _ _ _ Ha) as [o Ho]. rewrite Ho in Hstep. cbn in Hstep.
    destruct (inline_result s _ o Hs Hth Ho) as [Hr Hc].
    destruct o as [v|p|]; injection Hstep as <-;
      (apply main_moves; [done|by rewrite !last_thread, E|]); unfold main_inv; cbn [s_main s_spawned].
    + split_and!; [done|lia|lia|done|done|done].
    + split; [done|]. unfold scoped_spec. by rewrite Hr.
    + split; [done|]. by destruct c.
Qed.

Lemma joining_step_inv s h rs last s' :
  scoped_inv s -> s_main s = Joining h rs last -> main_step sh body s = Some s' -> scoped_inv s'.
Proof using Hin Hdis Hn.
  intros Hs E Hstep. pose proof (si_main s Hs) as Hi. unfold main_inv in Hi. rewrite E in Hi.
  unfold main_step in Hstep. rewrite E in Hstep. destruct Hi as (Hz & Hh & Hl & Hrs & Hf).
  destruct (zget (s_spawned s) h) as [c|] eqn:Hc.
  - assert (0 <= h < n - 1) as Hh' by (rewrite <- Hz; apply zget_lt_is_Some; by eexists).
    apply bind_Some in Hstep as (o & Ho & Hstep).
    assert (res h = o) as Hr.
    { apply (thread_result s h o Hs); [lia|]. rewrite spawned_at by lia. by rewrite Hc. }
    assert (zseq (h + 1) = zseq h ++ [h]) as Hz1.
    { rewrite zseq_last by lia. by replace (h + 1 - 1) with h by lia. }
    destruct o as [v|p|]; injection Hstep as <-;
      (apply main_moves; [done|by rewrite !last_thread, E|]); unfold main_inv; cbn [s_main s_spawned].
    + rewrite Hz1, first_panic_snoc, Hf, omap_app. cbn [omap list_omap]. rewrite Hr.
      split_and!; [done|lia|lia|done|by rewrite Hrs|done].
    + split; [done|]. symmetry. apply (join_panic h); [done|done|done|]. intros q. by rewrite Hl.
    + by destruct c.
  - simplify_eq. apply main_moves; [done|by rewrite !last_thread, E|]. unfold main_inv.
    cbn [s_main s_spawned]. split; [done|].
    assert (h = n - 1) as Heq.
    { destruct (decide (h < n - 1)); [|lia].
      assert (is_Some (zget (s_spawned s) h)) as [? ?] by (apply zget_lt_is_Some; lia). congruence. }
    rewrite Heq in *. symmetry. by apply join_end.
Qed.

Lemma spawning_step_inv s i s' :
  scoped_inv s -> s_main s = Spawning i -> main_step sh body s = Some s' -> scoped_inv s'.
Proof using Hn.
  intros Hs E Hstep. pose proof (si_main s Hs) as Hi. unfold main_inv in Hi. rewrite E in Hi.
  pose proof (si_last s Hs) as Hlast. unfold main_step in Hstep. rewrite E in Hstep.
  destruct Hi as (Hle & Hz). case_decide; simplify_eq.
  - apply (inv_step s); [done..| |].
    + right. apply threads_same; [done|]. intros j Hj. unfold thread_at. cbn. rewrite E.
      case_decide; [done|]. destruct (decide (j < zlen (s_spawned s))).
      * by rewrite zget_app_l.
      * rewrite zget_app_r by lia.
        rewrite (zget_ge_None (s_spawned s)) by lia.
        destruct (decide (j = zlen (s_spawned s))) as [->|]; [by rewrite Z.sub_diag|].
        by rewrite zget_ge_None by (rewrite zlen_cons, zlen_nil; lia).
    + unfold main_inv. cbn. rewrite zlen_app, zlen_cons, zlen_nil. lia.
  - apply main_moves; [done| |].
    + rewrite !last_thread, E. cbn. by rewrite Hlast.
    + unfold main_inv. cbn. lia.
Qed.

Lemma main_step_inv s s' : scoped_inv s -> main_step sh body s = Some s' -> scoped_inv s'.
Proof using Hin Hdis Hn.
  intros Hs Hstep. destruct (s_main s) as [c|i|c|h rs last|o|o] eqn:E.
  - by eapply single_step_inv.
  - by eapply spawning_step_inv.
  - by eapply inline_step_inv.
  - by eapply joining_step_inv.
  - pose proof (si_main s Hs) as Hi. unfold main_inv in Hi. unfold main_step in Hstep.
    rewrite E in Hi, Hstep. destruct (threads_ended s) eqn:Ht; simplify_eq.
    apply main_moves; [done|by rewrite !last_thread, E|]. unfold main_inv. cbn.
    destruct Hi. by split_and!.
  - unfold main_step in Hstep. by rewrite E in Hstep.
Qed.

Lemma scoped_start_inv `{BuildProfile} s :
  n <= usize_max -> scoped_start body n m = Ret s -> scoped_inv s.
Proof using Hn.
  intros Hu Hs. unfold scoped_start in Hs.
  assert (forall s0, s_region s0 = m -> (forall i, 0 <= i < n -> thread_at s0 i = body i) ->
            rtc cstep (shard_config sh body m (zseq n)) (client s0)) as Hc.
  { intros s0 Hr Ht. unfold client, shard_config. rewrite Hr.
    replace ((fun i => (sh i, thread_at s0 i)) <$> zseq n) with ((fun i => (sh i, body i)) <$> zseq n);
      [apply rtc_refl|].
    apply list_fmap_ext. intros k i Hk. rewrite Ht; [done|]. apply elem_of_zseq.
    by eapply list_elem_of_lookup_2. }
  destruct (decide (n = 1)) as [Hn1|Hn1].
  - simplify_eq. split; [cbn; lia| |unfold main_inv; cbn; unfold zlen; cbn; lia].
    apply Hc; [done|]. intros i Hi. unfold thread_at. cbn. rewrite decide_True by lia.
    assert (i = 0) as -> by lia. done.
  - rewrite usub_ok in Hs by lia. cbn in Hs. simplify_eq.
    split; [done| |unfold main_inv; cbn; unfold zlen; cbn; lia].
    apply Hc; [done|]. intros i Hi. unfold thread_at. cbn.
    destruct (decide (i = n - 1)) as [->|]; [done|].
    by rewrite zget_ge_None by (rewrite zlen_nil; lia).
Qed.

Lemma inv_steps s s' : scoped_inv s -> rtc (sstep sh body) s s' -> scoped_inv s'.
Proof using Hin Hdis Hn.
  intros Hs Hr. induction Hr as [s|s s1 s2 [Hm|[k Hk]] _ IH]; [done| |].
  - by eapply IH, main_step_inv.
  - by eapply IH, thread_step_inv.
Qed.

Lemma thread_can_step (s : scoped T R) k c :
  s_spawned s !! k = Some c -> ~ is_Some (finished c) -> exists s', sstep sh body s s'.
Proof using.
  intros Hk Hf. destruct (access (sh (Z.of_nat k)) c (s_region s)) as [[c' m']|] eqn:Ha.
  - eexists. right. exists k. unfold thread_step. rewrite Hk. cbn. by rewrite Ha.
  - by apply access_None in Ha.
Qed.

(** A call that has not returned can always go on: where the calling thread
    waits, for a handle or at the end of the scope, some thread still runs. *)
Lemma scoped_progress s :
  (exists o, s_main s = Returned o) \/ exists s', sstep sh body s s'.
Proof using.
  destruct (s_main s) as [c|i|c|h rs last|o|o] eqn:E; [right..|by left; exists o].
  - destruct (access (sh (s_last s)) c (s_region s)) as [[c' m']|] eqn:Ha.
    + eexists. left. unfold main_step. by rewrite E, Ha.
    + destruct (access_None _ _ _ Ha) as [o Ho]. eexists. left. unfold main_step.
      by rewrite E, Ha, Ho.
  - destruct (decide (i < s_last s)) eqn:Hd; eexists; left; unfold main_step; by rewrite E, Hd.
  - destruct (access (sh (s_last s)) c (s_region s)) as [[c' m']|] eqn:Ha.
    + eexists. left. unfold main_step. by rewrite E, Ha.
    + destruct (access_None _ _ _ Ha) as [o Ho].
      destruct o eqn:Eo; eexists; left; unfold main_step; by rewrite E, Ha, Ho.
  - destruct (zget (s_spawned s) h) as [c|] eqn:Hc.
    2: { eexists. left. unfold main_step. by rewrite E, Hc. }
    destruct (finished c) as [o|] eqn:Ho.
    + destruct o eqn:Eo; eexists; left; unfold main_step; by rewrite E, Hc, Ho.
    + unfold zget in Hc. case_decide; [|done]. apply (thread_can_step s _ c Hc).
      rewrite Ho. by intros [? ?].
  - destruct (threads_ended s) eqn:Ht.
    { eexists. left. unfold main_step. by rewrite E, Ht. }
    assert (~ Forall (fun c => is_Some (finished c)) (s_spawned s)) as Hnf.
    { intros Hf. apply not_true_iff_false in Ht. apply Ht, forallb_forall. intros c Hc.
      apply bool_decide_eq_true. apply (proj1 (Forall_forall _ _) Hf). by apply list_elem_of_In. }
    apply not_Forall_Exists in Hnf; [|apply _]. apply Exists_exists in Hnf as (c & Hc & Hcf).
    apply list_elem_of_lookup in Hc as [k Hk]. by apply (thread_can_step s k c).
Qed.

(** What a returned call leaves. *)
Lemma returned_spec s o :
  scoped_inv s -> s_main s = Returned o ->
  o = scoped_spec n res /\ s_region s = shards_after sh body n m /\ threads_ended s = true.
Proof using Hin Hdis Hn.
  intros Hs E. pose proof (si_main s Hs) as Hi. unfold main_inv in Hi. rewrite E in Hi.
  destruct Hi as (Hz & Ho & Ht). split_and!; [done| |done].
  apply (shards_done_unique sh body n m Hin (zseq n));
    [|by apply shards_after_done].
  apply (interleaved_done sh body n m Hin Hdis (zseq n) (NoDup_zseq n) (Forall_zseq n)
    (client s) (si_client s Hs)).
  intros t w b Htb. cbn in Htb. rewrite list_lookup_fmap in Htb.
  destruct (zseq n !! t) as [i|] eqn:Ei; [|done]. cbn in Htb. injection Htb as _ <-.
  assert (0 <= i < n) as Hir by (apply elem_of_zseq; by eapply list_elem_of_lookup_2).
  destruct (decide (i = n - 1)) as [->|Hne].
  - rewrite last_thread, E. eexists. apply finished_ended, eval_closure_defined.
  - rewrite spawned_at by done. destruct (zget (s_spawned s) i) as [c|] eqn:Hc.
    + unfold zget in Hc. case_decide; [|done]. by eapply threads_ended_lookup.
    + assert (is_Some (zget (s_spawned s) i)) as [? ?] by (apply zget_lt_is_Some; lia). congruence.
Qed.
End refinement.

Lemma run_scoped_rtc {T R} sh body sched (s s' : scoped T R) :
  run_scoped sh body sched s = Some s' -> rtc (sstep sh body) s s'.
Proof.
  revert s. induction sched as [|t sched IH]; intros s Hs; cbn in Hs.
  { injection Hs as ->. apply rtc_refl. }
  destruct t as [k|]; apply bind_Some in Hs as (s1 & Hs1 & Hs).
  - eapply rtc_l; [right; by exists k|by apply IH].
  - eapply rtc_l; [by left|by apply IH].
Qed.

(** ** Properties *)

(** C12: The scoped-thread path refines its sequential account: whatever the
    interleaving of spawns, accesses and joins, when the calling thread returns,
    the outcome (results in index order, or the payload that is re-raised) and
    the region are those of [drive_scoped] for every order of the tasks. *)
Theorem scoped_threads_refine `{BuildProfile} {T R} (sh : Z -> WriterShard)
    (body : Z -> closure T R) (n : Z) (m : list T) (s0 s : scoped T R) o (sched : list Z) :
  1 <= n <= usize_max -> disjoint_shards sh n m -> scoped_start body n m = Ret s0 ->
  rtc (sstep sh body) s0 s -> s_main s = Returned o -> sched ≡ₚ zseq n ->
  drive_scoped (shard_task sh body) sched n m = (o, s_region s).
Proof.
  intros [Hn Hu] [Hin Hdis] H0 Hs Hm Hp.
  pose proof (inv_steps sh body n m Hin Hdis Hn s0 s (scoped_start_inv sh body n m Hn s0 Hu H0) Hs) as Hi.
  destruct (returned_spec sh body n m Hin Hdis Hn s o Hi Hm) as (-> & -> & _).
  by apply (drive_scoped_spec (shard_task sh body) n m _ (shards_after sh body n m)
    (IndependentTasks0 := shards_independent sh body n m Hin Hdis)).
Qed.

(** Three tasks on the cells of a region: task [0] stores and returns, task [1]
    panics, the inline task [2] copies its cell's successor; and an interleaving. *)
Definition trio_body (i : Z) : closure Z Z :=
  if decide (i = 0) then CSet 0 1 (fun _ => CRet 10)
  else if decide (i = 1) then CPanic (UserPanic 1)
  else CGet 0 (fun o => CSet 0 (default 0 o + 1) (fun _ => CRet 12)).
Definition trio_start : scoped Z Z := mkScoped [5; 6; 7] (Spawning 0) [] 2.
Definition trio_sched : list (option nat) :=
  [None; None; None; None; Some 0%nat; None; None; None; None; None].
Definition trio_end : scoped Z Z :=
  default trio_start (run_scoped cell_shard trio_body trio_sched trio_start).

Lemma trio_order : [1; 2; 0] ≡ₚ zseq 3.
Proof. exact (Permutation_app_comm [1; 2] [0]). Qed.

Lemma scoped_threads_refine_witness :
  s_main trio_end = Returned (Panic (UserPanic 1)) /\
  @drive_scoped _ _ (shard_task cell_shard trio_body) debug_profile [1; 2; 0] 3 [5; 6; 7]
    = (Panic (UserPanic 1), [1; 6; 8]).
Proof.
  assert (s_main trio_end = Returned (Panic (UserPanic 1))) as Hm by (vm_compute; reflexivity).
  assert ([1; 6; 8] = s_region trio_end) as Hr by (vm_compute; reflexivity).
  assert (rtc (sstep cell_shard trio_body) trio_start trio_end) as Hs.
  { apply (run_scoped_rtc cell_shard trio_body trio_sched). vm_compute. reflexivity. }
  split; [exact Hm|]. rewrite Hr.
  exact (@scoped_threads_refine debug_profile _ _ cell_shard trio_body 3 [5; 6; 7] trio_start
    trio_end _ [1; 2; 0] ltac:(split; vm_compute; discriminate)
    (cell_shards_disjoint [5; 6; 7] eq_refl) eq_refl Hs Hm trio_order).
Defined.

(** C23: The scoped-thread path always comes back: from every reachable state every
    schedule is finite, something can step until the calling thread has
    returned, so a return is reached; and whenever it has returned, by value or
    by unwinding, no spawned thread is left running. *)
Theorem scoped_threads_finish `{BuildProfile} {T R} (sh : Z -> WriterShard)
    (body : Z -> closure T R) (n : Z) (m : list T) (s0 s : scoped T R) :
  1 <= n <= usize_max -> disjoint_shards sh n m -> scoped_start body n m = Ret s0 ->
  rtc (sstep sh body) s0 s ->
  Acc (flip (sstep sh body)) s /\
  ((exists o, s_main s = Returned o) \/ exists s', sstep sh body s s') /\
  (exists s' o, rtc (sstep sh body) s s' /\ s_main s' = Returned o) /\
  (forall o k c, s_main s = Returned o -> s_spawned s !! k = Some c -> is_Some (finished c)).
Proof.
  intros [Hn Hu] [Hin Hdis] H0 Hs.
  pose proof (inv_steps sh body n m Hin Hdis Hn s0 s (scoped_start_inv sh body n m Hn s0 Hu H0) Hs) as Hi.
  split_and!; [apply sstep_wf|apply scoped_progress| |].
  - destruct (acc_reaches (sstep sh body) (fun s => exists o, s_main s = Returned o) s)
      as (s' & Hs' & o & Ho); [intros; apply scoped_progress|apply sstep_wf|by exists s', o].
  - intros o k c Hm Hk. destruct (returned_spec sh body n m Hin Hdis Hn s o Hi Hm) as (_ & _ & Ht).
    by eapply threads_ended_lookup.
Qed.

Lemma scoped_threads_finish_witness :
  exists s' o, rtc (sstep cell_shard trio_body) trio_start s' /\ s_main s' = Returned o.
Proof.
  exact (proj1 (proj2 (proj2 (@scoped_threads_finish debug_profile _ _ cell_shard trio_body 3
    [5; 6; 7] trio_start trio_start ltac:(split; vm_compute; discriminate)
    (cell_shards_disjoint [5; 6; 7] eq_refl) eq_refl (rtc_refl _ _))))).
Defined.
