(* ===== verification/PartitionMap.v ===== *)
(** * The partition drivers ([src/sync/scoped/partition/map.rs], [read_map.rs])

    [partition_map_with] splits an exclusive slice by a plan and runs one client
    closure per shard; [partition_read_map_with] does the same over a shared
    slice.  Both go through the engine [drive].  The state is the whole
    allocation; the region is a slice of it.  The environment of a call is the
    executor slot, the schedule of the scoped path and the hardware parallelism
    reported.  Main results: the call returns the per-shard results in partition
    order and leaves the region as if each shard had been processed alone, for
    every plan, executor and schedule; a panic of a closure is propagated and the
    other shards are still processed; the read drivers agree with the write
    drivers and change nothing. *)
From S2P Require Import Prelude Region Plan Closure Executor Driver Shards Workers ScopedThreads.
From stdpp Require Import base numbers sets list relations.
Local Open Scope Z_scope.
Local Open Scope mel_scope.

(** The circumstances of a call. *)
Record call_env : Type := mkEnv {
  env_slot : Z;                     (* [PARALLEL_EXECUTOR] *)
  env_sched : Z -> list Z;          (* completion order of scoped threads *)
  env_available : option positive   (* [available_parallelism()] *)
}.

Section drivers.
Context `{BuildProfile, ProgramText} (env : call_env) {T R : Type}.

(** The closure [f] gets the start index and its shard; its behaviour depends
    on the shard through its length and the accesses it makes. *)
Implicit Types f : Z -> Z -> closure T R.

(** The task that [drive] runs for one index. *)
Definition map_task (par : ParChunks) (chunk_size : Z) f (index : Z) : M (list T) R := fun m =>
  match index *! chunk_size with
  | Ret start =>
      match Par.get_unchecked_chunk par index with
      | Ret shard => run_closure shard (f start (Shard.len shard)) m
      | Panic p => (Panic p, m)
      | UB => (UB, m)
      end
  | Panic p => (Panic p, m)
  | UB => (UB, m)
  end.

Definition partition_map_with (cells : slice) (plan : PartitionPlan) f
    : M (list T) (list R) := fun m =>
  match resolve (env_available env) plan (s_len cells) with
  | Ret chunk =>
      let chunk_size := Z.max chunk 1 in
      let par := Shard.par_chunks (Shard.new cells) chunk_size in
      match Par.len par with
      | Ret num_chunks =>
          if decide (num_chunks = 0) then (Ret [], m)
          else drive (map_task par chunk_size f) (env_slot env) (env_sched env num_chunks)
                 num_chunks m
      | Panic p => (Panic p, m)
      | UB => (UB, m)
      end
  | Panic p => (Panic p, m)
  | UB => (UB, m)
  end.

Definition partition_map (cells : slice) (n : Z) f : M (list T) (list R) :=
  partition_map_with cells (parts n) f.

Definition partition_map_available (cells : slice) f : M (list T) (list R) :=
  partition_map_with cells available_parallelism f.

(** The [for_each] drivers discard the results. *)
Definition partition_for_each (cells : slice) (n : Z) f : M (list T) unit :=
  partition_map cells n f ≫= fun _ => mret tt.

Definition partition_for_each_with (cells : slice) (plan : PartitionPlan) f
    : M (list T) unit :=
  partition_map_with cells plan f ≫= fun _ => mret tt.

Definition partition_for_each_available (cells : slice) f : M (list T) unit :=
  partition_map_available cells f ≫= fun _ => mret tt.

(** [&slice[start..end]]: panics unless [start <= end <= len]. *)
Definition index_range (l : list T) (start end_ : Z) : outcome (list T) :=
  if decide (0 <= start <= end_ /\ end_ <= zlen l) then Ret (subrange start (end_ - start) l)
  else Panic BoundsPanic.

(** A closure over shared sub-slices.  It may have effects of its own on a state
    [St] (interior mutability, raw pointers). *)
Context {St : Type}.
Implicit Types g : Z -> list T -> M St R.

Definition read_task (l : list T) (chunk_size : Z) g (index : Z) : M St R := fun st =>
  match
    start ← index *! chunk_size;
    end_ ← start +! chunk_size;
    let end_ := Z.min end_ (zlen l) in
    sub ← index_range l start end_;
    Ret (start, sub)
  with
  | Ret (start, sub) => g start sub st
  | Panic p => (Panic p, st)
  | UB => (UB, st)
  end.

Definition partition_read_map_with (l : list T) (plan : PartitionPlan) g
    : M St (list R) := fun st =>
  match
    chunk ← resolve (env_available env) plan (zlen l);
    let chunk_size := Z.max chunk 1 in
    num_chunks ← partition_count (zlen l) chunk_size;
    Ret (chunk_size, num_chunks)
  with
  | Ret (chunk_size, num_chunks) =>
      if decide (num_chunks = 0) then (Ret [], st)
      else drive (read_task l chunk_size g) (env_slot env) (env_sched env num_chunks) num_chunks st
  | Panic p => (Panic p, st)
  | UB => (UB, st)
  end.

Definition partition_read_map (l : list T) (n : Z) g : M St (list R) :=
  partition_read_map_with l (parts n) g.

Definition partition_read_map_available (l : list T) g : M St (list R) :=
  partition_read_map_with l available_parallelism g.

Definition partition_read_for_each (l : list T) (n : Z) g : M St unit :=
  partition_read_map l n g ≫= fun _ => mret tt.

Definition partition_read_for_each_with (l : list T) (plan : PartitionPlan) g : M St unit :=
  partition_read_map_with l plan g ≫= fun _ => mret tt.

Definition partition_read_for_each_available (l : list T) g : M St unit :=
  partition_read_map_available l g ≫= fun _ => mret tt.

End drivers.

(** ** Specification *)

(** What the environment promises: registered executors keep the contract and
    return; the scope joins every thread. *)
Class CallEnv `{ProgramText} (env : call_env) : Prop := {
  env_contract addr : ExecutorContract (executor_at addr);
  env_returns addr n : unwinds (executor_at addr) n = None;
  env_joins n : env_sched env n ≡ₚ zseq n
}.

(** The outcome and the new contents of tile [i] of the region. *)
Definition tile_eval {T R} (f : Z -> Z -> closure T R) (p : ParChunks) (m : list T) (i : Z)
    : outcome R * list T :=
  eval_closure (f (i * par_chunk p) (Shard.len (tile p i))) (Shard.as_slice m (tile p i)).

(** The allocation once every tile has been processed alone. *)
Definition region_after {T R} (f : Z -> Z -> closure T R) (p : ParChunks) (m : list T) : list T :=
  splice (par_base p)
    (concat ((fun i => snd (tile_eval f p m i)) <$> zseq (tile_count (par_len p) (par_chunk p)))) m.

(** The contents of tile [i] of a shared slice. *)
Definition read_tile {T} (l : list T) (chunk i : Z) : list T :=
  subrange (i * chunk) (Z.min chunk (zlen l - i * chunk)) l.

(** ** Lemmas *)

Section map_tasks.
Context `{BuildProfile} {T R : Type} (f : Z -> Z -> closure T R) (p : ParChunks) (m : list T).
Context (Hp : par_ok p) (Hm : par_base p + par_len p <= zlen m).
#[local] Abbreviation n := (tile_count (par_len p) (par_chunk p)).

Lemma tile_shard_in i : 0 <= i < n -> shard_in (zlen m) (tile p i).
Proof using Hp Hm.
  intros [Hi0 Hi]. pose proof Hp as (? & ? & ?). apply tile_count_lt in Hi; [|lia..].
  unfold shard_in, tile; cbn. nia.
Qed.

Lemma tile_disjoint i j : 0 <= i < n -> 0 <= j < n -> i <> j ->
  slice_disjoint (cells (tile p i)) (cells (tile p j)).
Proof using Hp. intros [Hi _] [Hj _] Hne. by apply tiles_disjoint. Qed.

(** What tile [i] runs. *)
#[local] Abbreviation body := (fun i => f (i * par_chunk p) (Shard.len (tile p i))).

Lemma map_task_shard i m' :
  0 <= i < n -> shard_task (tile p) body i m' = map_task p (par_chunk p) f i m'.
Proof using Hp.
  intros Hi. unfold map_task. destruct (par_ok_no_overflow p i Hp Hi) as [Hlt Hmax].
  pose proof Hp as (? & ? & ?). rewrite umul_ok by ulia. by rewrite get_unchecked_chunk_tile.
Qed.

Lemma zlen_tile_eval i : 0 <= i < n -> zlen (snd (tile_eval f p m i)) = Shard.len (tile p i).
Proof using Hp Hm. apply (zlen_shard_eval (tile p) body n m tile_shard_in). Qed.

Lemma region_after_unique m' : shards_done (tile p) body n m (zseq n) m' -> m' = region_after f p m.
Proof using Hp Hm.
  intros [Hl Ht Ho]. pose proof Hp as (Hb & Hlen & Hc).
  assert (concat ((fun i => snd (tile_eval f p m i)) <$> zseq n)
          = subrange (par_base p) (par_len p) m') as Hcat.
  { rewrite <- concat_tiles by done. f_equal. unfold tiles. rewrite <- list_fmap_compose.
    apply list_fmap_ext. intros k i Hi. apply list_elem_of_lookup_2, elem_of_zseq in Hi.
    unfold compose. rewrite (Ht i Hi). by rewrite decide_True by (by apply elem_of_zseq). }
  unfold region_after. rewrite Hcat.
  assert (zlen (subrange (par_base p) (par_len p) m') = par_len p) as Hz
    by (apply zlen_subrange; lia).
  apply zlist_eq; [rewrite zlen_splice; lia|]. intros j Hj.
  rewrite zget_splice by lia. rewrite Hz. destruct (decide _) as [Hin|Hout].
  - rewrite zget_subrange by lia. f_equal. lia.
  - apply Ho; [lia|]. intros i [Hi _] Hs. by apply in_tile_iff in Hs as [? _].
Qed.

#[export] Instance map_task_independent :
  IndependentTasks (map_task p (par_chunk p) f) n m
    (fun i => fst (tile_eval f p m i)) (region_after f p m).
Proof using Hp Hm.
  rewrite <- (region_after_unique (shards_after (tile p) body n m)).
  - apply (independent_ext (shard_task (tile p) body)); [by intros; apply map_task_shard|].
    apply (shards_independent (tile p) body n m tile_shard_in tile_disjoint).
  - apply (shards_after_done (tile p) body n m tile_shard_in tile_disjoint).
Qed.
End map_tasks.

Lemma par_new_chunk available plan len s :
  s_len s = len -> is_usize len -> plan_ok plan ->
  Shard.par_chunks (Shard.new s) (Z.max (plan_chunk available plan len) 1)
  = mkPar (s_base s) len (plan_chunk available plan len).
Proof.
  intros <- Hl Hp. pose proof (plan_chunk_bounds available plan (s_len s) Hl Hp).
  unfold Shard.par_chunks, Par.new, Shard.new. cbn. f_equal. lia.
Qed.

Section outcome.
Context `{BuildProfile, ProgramText} (env : call_env) `{!CallEnv env} {T R : Type}.

(** The view the driver builds for a plan. *)
Definition plan_view (s : slice) (plan : PartitionPlan) : ParChunks :=
  mkPar (s_base s) (s_len s) (plan_chunk (env_available env) plan (s_len s)).

Lemma plan_view_ok s plan : slice_ok s -> plan_ok plan -> par_ok (plan_view s plan).
Proof.
  intros [? ?] Hp. unfold par_ok, plan_view; cbn. split; [lia|]. split; [lia|].
  apply plan_chunk_bounds; [ulia|done].
Qed.

Lemma partition_map_with_unfold s plan (f : Z -> Z -> closure T R) m :
  slice_ok s -> plan_ok plan ->
  partition_map_with env s plan f m =
  let p := plan_view s plan in
  let n := tile_count (par_len p) (par_chunk p) in
  if decide (n = 0) then (Ret [], m)
  else drive (map_task p (par_chunk p) f) (env_slot env) (env_sched env n) n m.
Proof.
  intros Hs Hp. pose proof (plan_view_ok s plan Hs Hp) as (_ & Hl & Hc).
  assert (is_usize (s_len s)) as Hu by (cbn in Hl; ulia).
  unfold partition_map_with. rewrite resolve_ok by done.
  rewrite par_new_chunk by done. fold (plan_view s plan).
  unfold Par.len. rewrite partition_count_ok by (cbn in *; done || lia).
  by rewrite Z.max_l by (cbn in Hc; lia).
Qed.

Lemma env_sched_order n : env_sched env n ≡ₚ zseq n.
Proof. apply env_joins. Qed.

(** Every call ends in the region of tile-wise processing; its outcome is the
    list of all tile results or the payload of some tile. *)
Lemma partition_map_with_outcome s plan (f : Z -> Z -> closure T R) m :
  slice_ok s -> plan_ok plan -> s_base s + s_len s <= zlen m ->
  exists o, partition_map_with env s plan f m = (o, region_after f (plan_view s plan) m) /\
    let p := plan_view s plan in
    let n := tile_count (par_len p) (par_chunk p) in
    match o with
    | Ret rs => rs = omap (fun i => ret_value (fst (tile_eval f p m i))) (zseq n) /\
        forall i, 0 <= i < n -> exists v, fst (tile_eval f p m i) = Ret v
    | Panic q => exists i, 0 <= i < n /\ fst (tile_eval f p m i) = Panic q
    | UB => False
    end.
Proof.
  intros Hs Hp Hm. pose proof (plan_view_ok s plan Hs Hp) as Hpar.
  rewrite partition_map_with_unfold by done. set (p := plan_view s plan) in *.
  cbv zeta. set (n := tile_count (par_len p) (par_chunk p)).
  pose proof Hpar as (_ & Hl & Hc). pose proof (tile_count_bounds (par_len p) (par_chunk p)
    ltac:(lia) ltac:(lia)) as Hn. fold n in Hn.
  destruct (decide (n = 0)) as [Hn0|Hn0].
  - exists (Ret []). split; [|split; [by rewrite Hn0|intros; lia]].
    f_equal. symmetry. unfold region_after. fold n. rewrite Hn0.
    by apply splice_nil.
  - pose proof (map_task_independent f p m Hpar Hm) as Hind. fold n in Hind.
    apply (drive_outcome _ n m _ _ _ _);
      [apply env_contract|intros; apply env_returns|ulia|apply env_sched_order].
Qed.

(** All closures return. *)
Lemma partition_map_with_returns s plan (f : Z -> Z -> closure T R) m (r : Z -> R) :
  slice_ok s -> plan_ok plan -> s_base s + s_len s <= zlen m ->
  let p := plan_view s plan in
  let n := tile_count (par_len p) (par_chunk p) in
  (forall i, 0 <= i < n -> fst (tile_eval f p m i) = Ret (r i)) ->
  partition_map_with env s plan f m = (Ret (r <$> zseq n), region_after f p m).
Proof.
  intros Hs Hp Hm p n Hr.
  destruct (partition_map_with_outcome s plan f m Hs Hp Hm) as (o & -> & Ho).
  fold p in Ho |- *. cbv zeta in Ho. fold n in Ho. f_equal.
  destruct o as [rs|q|]; [|destruct Ho as (i & Hi & Hq); by rewrite Hr in Hq|done].
  destruct Ho as [-> _]. f_equal. apply omap_ret_vals.
  intros i Hi%elem_of_zseq. by apply Hr.
Qed.
End outcome.

(** ** Lemmas: the read drivers *)

Lemma mapM_ret_values {A R} (f : A -> outcome R) (l : list A) :
  (forall x, x ∈ l -> exists v, f x = Ret v) ->
  mapM f l = Ret (omap (fun x => ret_value (f x)) l).
Proof.
  induction l as [|x l IH]; intros Hf; [done|].
  destruct (Hf x ltac:(by left)) as [v Hv]. cbn. rewrite Hv. cbn.
  rewrite IH; [done|]. intros y Hy. apply Hf. by right.
Qed.

(** The tile length the read driver settles on. *)
Definition read_chunk (env : call_env) {T} (l : list T) (plan : PartitionPlan) : Z :=
  plan_chunk (env_available env) plan (zlen l).

(** What task [i] of the read driver runs. *)
Definition read_body {T R St} (l : list T) (chunk : Z) (g : Z -> list T -> M St R) (i : Z) : M St R :=
  g (i * chunk) (read_tile l chunk i).

Lemma read_task_tile `{BuildProfile} {T R St} (l : list T) chunk (g : Z -> list T -> M St R) i st :
  zlen l <= isize_max -> 1 <= chunk <= usize_max -> 0 <= i < tile_count (zlen l) chunk ->
  read_task l chunk g i st = read_body l chunk g i st.
Proof.
  intros Hl Hc Hi. assert (par_ok (mkPar 0 (zlen l) chunk)) as Hp
    by (split; [done|]; cbn; pose proof (zlen_nonneg l); lia).
  destruct (par_ok_no_overflow _ i Hp Hi) as [Hlt Hmax]. cbn in Hlt, Hmax.
  unfold read_task. rewrite umul_ok by ulia. cbn [mbind outcome_bind].
  rewrite uadd_ok by ulia. cbn [mbind outcome_bind]. unfold index_range.
  rewrite decide_True by lia. cbn [mbind outcome_bind]. unfold read_body, read_tile.
  do 2 f_equal. lia.
Qed.

(** The read driver over independent closures. *)
Lemma partition_read_map_with_outcome `{BuildProfile, ProgramText} (env : call_env)
    `{!CallEnv env} {T R St} (l : list T) plan (g : Z -> list T -> M St R) st res final :
  zlen l <= isize_max -> plan_ok plan ->
  let c := read_chunk env l plan in
  let n := tile_count (zlen l) c in
  IndependentTasks (read_body l c g) n st res final ->
  exists o, partition_read_map_with env l plan g st = (o, final) /\
    match o with
    | Ret rs => rs = omap (fun i => ret_value (res i)) (zseq n) /\
        forall i, 0 <= i < n -> exists v, res i = Ret v
    | Panic q => exists i, 0 <= i < n /\ res i = Panic q
    | UB => False
    end.
Proof.
  intros Hl Hp c n Hind. pose proof (zlen_nonneg l) as Hlen0.
  assert (is_usize (zlen l)) as Hu by ulia.
  pose proof (plan_chunk_bounds (env_available env) plan (zlen l) Hu Hp) as Hc.
  fold (read_chunk env l plan) in Hc. fold c in Hc.
  pose proof (tile_count_bounds (zlen l) c Hlen0 ltac:(lia)) as Hn. fold n in Hn.
  unfold partition_read_map_with. rewrite resolve_ok by done. cbn [mbind outcome_bind].
  fold (read_chunk env l plan). fold c. rewrite Z.max_l by lia.
  rewrite partition_count_ok by (done || lia). cbn [mbind outcome_bind]. fold n.
  destruct (decide (n = 0)) as [Hn0|Hn0].
  - exists (Ret []). rewrite Hn0 in Hind |- *. split; [|split; [done|intros; lia]].
    f_equal. apply (task_final (IndependentTasks := Hind) []). done.
  - assert (IndependentTasks (read_task l c g) n st res final) as Hind'.
    { apply (independent_ext (read_body l c g)); [|done].
      intros i s Hi. symmetry. by apply read_task_tile. }
    apply (drive_outcome (read_task l c g) n st res final (env_slot env) (env_sched env n)
      (IndependentTasks0 := Hind'));
      [apply env_contract|intros; apply env_returns|ulia|by apply env_sched_order].
Qed.

(** A closure without effects, that returns or panics. *)
Definition pure_body {T R} (g : Z -> list T -> outcome R) : Z -> list T -> M unit R :=
  fun start sub u => (g start sub, u).

Lemma pure_independent {T R} (l : list T) chunk n (g : Z -> list T -> outcome R) :
  (forall i, 0 <= i < n -> defined (g (i * chunk) (read_tile l chunk i))) ->
  IndependentTasks (read_body l chunk (pure_body g)) n tt
    (fun i => g (i * chunk) (read_tile l chunk i)) tt.
Proof. intros Hg. split; [done|by intros; destruct (snd _)|done]. Qed.

(** ** Lemmas: closures with a known effect *)

(** If every tile ends as the same tile of [m'], the region ends as [m']. *)
Lemma region_after_known {T R} (f : Z -> Z -> closure T R) p m m' :
  par_ok p -> zlen m' = zlen m -> par_base p + par_len p <= zlen m ->
  (forall j, 0 <= j -> ~ (par_base p <= j < par_base p + par_len p) -> zget m' j = zget m j) ->
  (forall i, 0 <= i < tile_count (par_len p) (par_chunk p) ->
     snd (tile_eval f p m i) = Shard.as_slice m' (tile p i)) ->
  region_after f p m = m'.
Proof.
  intros Hp Hl Hm Ho Ht. symmetry. apply region_after_unique; [done..|].
  split; [done| |].
  - intros i Hi. rewrite decide_True by (by apply elem_of_zseq). by rewrite <- Ht.
  - intros j Hj Hout. apply Ho; [done|]. intros Hin.
    destruct (in_some_tile p j Hp Hin) as (i & Hi & Hs). by apply (Hout i).
Qed.

(** The closure of the documentation: the [j]-th cell of the shard that starts
    at [start] gets [start + j]; [k] cells are left to do. *)
Fixpoint fill_from (start j : Z) (k : nat) : closure Z unit :=
  match k with
  | O => CRet tt
  | S k => CSet j (start + j) (fun _ => fill_from start (j + 1) k)
  end.
Definition fill_indices (start len : Z) : closure Z unit := fill_from start 0 (Z.to_nat len).

Lemma eval_fill_from start k j view :
  0 <= j -> j + Z.of_nat k <= zlen view ->
  fst (eval_closure (fill_from start j k) view) = Ret tt /\
  forall x, 0 <= x < zlen view ->
    zget (snd (eval_closure (fill_from start j k) view)) x =
    if decide (j <= x < j + Z.of_nat k) then Some (start + x) else zget view x.
Proof.
  revert j view. induction k as [|k IH]; intros j view Hj Hk; cbn [fill_from eval_closure].
  - split; [done|]. intros x Hx. by rewrite decide_False by lia.
  - rewrite decide_True by lia.
    destruct (IH (j + 1) (zset j (start + j) view)) as [Hr Hx]; [lia|rewrite zlen_zset; lia|].
    split; [done|]. intros x Hx0. rewrite Hx by (by rewrite zlen_zset).
    rewrite zget_zset by lia. repeat case_decide; try lia; subst; done.
Qed.

Lemma slice_ok_nonneg s : slice_ok s -> 0 <= s_base s /\ 0 <= s_len s.
Proof. intros [? ?]. lia. Qed.

Lemma fill_tile p (m : list Z) i :
  par_ok p -> par_base p + par_len p <= zlen m ->
  0 <= i < tile_count (par_len p) (par_chunk p) ->
  fst (tile_eval fill_indices p m i) = Ret tt /\
  snd (tile_eval fill_indices p m i) =
  Shard.as_slice (splice (par_base p) (zseq (par_len p)) m) (tile p i).
Proof.
  intros Hp Hm Hi. pose proof (tile_shard_in p m Hp Hm i Hi) as Hin.
  pose proof (zlen_tile_eval fill_indices p m Hp Hm i Hi) as Hz.
  pose proof (zlen_as_slice m _ Hin) as Hv. destruct Hin as (Hb & Hl & Hlen).
  unfold Shard.len in Hz. pose proof Hp as (Hpb & Hpl & Hpc).
  assert (zlen (zseq (par_len p)) = par_len p) as Hq by (apply zlen_zseq; lia).
  pose proof (eval_fill_from (i * par_chunk p) (Z.to_nat (Shard.len (tile p i))) 0
    (Shard.as_slice m (tile p i)) ltac:(done)) as He. unfold Shard.len in He.
  destruct He as [Hr Hx]; [lia|]. unfold tile_eval at 1. split; [exact Hr|].
  apply zlist_eq.
  { rewrite Hz, zlen_as_slice; [done|]. split; [done|]. split; [done|].
    rewrite zlen_splice; lia. }
  intros x Hx0. rewrite Hz in Hx0. unfold tile_eval, fill_indices, Shard.len. rewrite Hx by lia.
  rewrite decide_True by lia. unfold Shard.as_slice. rewrite zget_subrange by lia.
  rewrite zget_splice by lia. cbn [s_base cells tile s_len] in *. rewrite decide_True by lia.
  symmetry. etransitivity; [apply zget_zseq; lia|]. f_equal. lia.
Qed.

(** ** Properties *)

(** C5: When the closure returns for every shard, [partition_map_with] returns
    the results in partition order and leaves the region as if every shard had
    been processed alone, in every build profile and for every plan, every
    contract-keeping executor and every completion order of the threads; the
    cells outside the slice are untouched. *)
Theorem partition_map_with_computes `{BuildProfile, ProgramText} (env : call_env)
    {T R} (s : slice) (plan : PartitionPlan) (f : Z -> Z -> closure T R) (m : list T)
    (r : Z -> R) :
  CallEnv env -> slice_ok s -> plan_ok plan -> s_base s + s_len s <= zlen m ->
  let p := plan_view env s plan in
  let n := tile_count (par_len p) (par_chunk p) in
  (forall i, 0 <= i < n -> fst (tile_eval f p m i) = Ret (r i)) ->
  partition_map_with env s plan f m = (Ret (r <$> zseq n), region_after f p m).
Proof. intros He Hs Hp Hm p n Hr. by apply partition_map_with_returns. Qed.

(** An environment with a registered executor, and one without. *)
Definition registered_env : call_env :=
  mkEnv (as_ptr (Executor_new 1)) (fun n => zseq n) (Some 4%positive).
Definition scoped_env : call_env :=
  mkEnv initial_slot (fun n => reverse (zseq n)) None.
#[export] Instance backwards_text : ProgramText := fun _ => Backwards.

Lemma registered_env_ok : CallEnv registered_env.
Proof. split; [intros; apply Backwards_contract|done|done]. Qed.
Lemma scoped_env_ok : CallEnv scoped_env.
Proof. split; [intros; apply Backwards_contract|done|intros; apply reverse_Permutation]. Qed.

(** A closure that stores the shard's start in its first cell. *)
Definition tag_start (start len : Z) : closure Z Z := CSet 0 start (fun _ => CRet len).

Lemma partition_map_with_computes_witness :
  @partition_map_with debug_profile _ registered_env _ _ (Slice 1 5) (chunk_size 2) tag_start
    [9; 9; 9; 9; 9; 9; 9] = (Ret [2; 2; 1], [9; 0; 9; 2; 9; 4; 9]).
Proof.
  etransitivity.
  - apply (@partition_map_with_computes debug_profile _ registered_env _ _ (Slice 1 5)
      (chunk_size 2) tag_start [9; 9; 9; 9; 9; 9; 9] (fun i => Z.min 2 (5 - i * 2))
      registered_env_ok); [split; cbn; ulia|vm_compute; discriminate|vm_compute; discriminate|].
    change (forall i, 0 <= i < 3 ->
      fst (tile_eval tag_start (mkPar 1 5 2) [9; 9; 9; 9; 9; 9; 9] i) = Ret (Z.min 2 (5 - i * 2))).
    intros i Hi. assert (i = 0 \/ i = 1 \/ i = 2) as [->|[->| ->]] by lia; reflexivity.
  - reflexivity.
Defined.

(** On threads: the executions behind a call of [partition_map_with] whose
    closures all return, step by step.  Every interleaving of the concurrent
    workers of a contract-keeping executor, and every interleaving of the scoped
    threads, that ends gives the results and the region that the call is said to
    compute; the out-buffer is handed over with nothing dropped or freed. *)
Theorem partition_map_on_threads `{BuildProfile, ProgramText} (env : call_env)
    {T R} (s : slice) (plan : PartitionPlan) (f : Z -> Z -> closure T R) (m : list T)
    (r : Z -> R) :
  CallEnv env -> slice_ok s -> plan_ok plan -> s_base s + s_len s <= zlen m ->
  let p := plan_view env s plan in
  let n := tile_count (par_len p) (par_chunk p) in
  let body := fun i => f (i * par_chunk p) (Shard.len (tile p i)) in
  (forall i, 0 <= i < n -> fst (tile_eval f p m i) = Ret (r i)) -> 1 <= n ->
  (forall E e, ExecutorContract E -> unwinds E n = None ->
     rtc (estep (tile p)) (start_engine body n m (invocations E n)) e -> all_done e ->
     exists d, executor_returned E n (shared e) = (Ret (r <$> zseq n), d) /\
       partition_map_with env s plan f m = (Ret (r <$> zseq n), region d) /\
       drops d = [] /\ frees d = 0%nat) /\
  (forall s0 st o, scoped_start body n m = Ret s0 -> rtc (sstep (tile p) body) s0 st ->
     s_main st = Returned o -> partition_map_with env s plan f m = (o, s_region st)).
Proof.
  intros He Hs Hp Hm p n body Hr Hn.
  assert (par_ok p) as Hpar by (by apply plan_view_ok).
  assert (partition_map_with env s plan f m = (Ret (r <$> zseq n), region_after f p m)) as Hres
    by (by apply partition_map_with_returns).
  assert (disjoint_shards (tile p) n m) as Hsh
    by (split; [by apply tile_shard_in|by apply tile_disjoint]).
  pose proof (shards_independent (tile p) body n m (proj1 Hsh) (proj2 Hsh)) as Hind.
  assert (shards_after (tile p) body n m = region_after f p m) as Hafter.
  { apply region_after_unique; [done|done|]. by apply (shards_after_done (tile p) body n m); destruct Hsh. }
  split.
  - intros E e HE Hu Hst Hd. destruct (workers_ordered (tile p) body E n m e Hsh Hst Hd)
      as (order & Ho & ->). pose proof (ordered_contract E n order Ho) as HE'.
    destruct (drive_registered_ret (shard_task (tile p) body) (ordered E n order) n m
      (fun i => fst (shard_eval (tile p) body m i)) (shards_after (tile p) body n m) r Hu Hr)
      as (d & -> & Hd1 & Hd2 & Hd3).
    exists d. rewrite Hres, Hd1, <- Hafter. by split_and!.
  - intros s0 st o Hst0 Hst Ho. assert (1 <= n <= usize_max) as [_ Hmax].
    { pose proof Hpar as (_ & Hl & Hc). pose proof (tile_count_bounds (par_len p) (par_chunk p)
        ltac:(lia) ltac:(lia)) as Hb. subst n. split; [done|]. ulia. }
    pose proof (inv_steps (tile p) body n m (proj1 Hsh) (proj2 Hsh) Hn s0 st
      (scoped_start_inv (tile p) body n m Hn s0 Hmax Hst0) Hst) as Hi.
    destruct (returned_spec (tile p) body n m (proj1 Hsh) (proj2 Hsh) Hn st o Hi Ho)
      as (-> & -> & _).
    rewrite Hres, <- Hafter. f_equal. symmetry. by apply scoped_spec_ret.
Qed.

(** The witness's tiles, tasks and scoped execution. *)
Definition tag_view : ParChunks := plan_view registered_env (Slice 1 5) (chunk_size 2).
Definition tag_body (i : Z) : closure Z Z :=
  tag_start (i * par_chunk tag_view) (Shard.len (tile tag_view i)).
Definition tag_start_state : scoped Z Z := mkScoped [9; 9; 9; 9; 9; 9; 9] (Spawning 0) [] 2.
Definition tag_sched : list (option nat) :=
  [None; None; None; None; Some 1%nat; Some 0%nat; None; None; None; None; None].
Definition tag_end : scoped Z Z :=
  default tag_start_state (run_scoped (tile tag_view) tag_body tag_sched tag_start_state).

Lemma tag_results i : 0 <= i < 3 ->
  fst (tile_eval tag_start tag_view [9; 9; 9; 9; 9; 9; 9] i) = Ret (Z.min 2 (5 - i * 2)).
Proof. intros Hi. assert (i = 0 \/ i = 1 \/ i = 2) as [->|[->| ->]] by lia; reflexivity. Qed.

Lemma partition_map_on_threads_witness :
  @partition_map_with debug_profile _ registered_env _ _ (Slice 1 5) (chunk_size 2) tag_start
    [9; 9; 9; 9; 9; 9; 9] = (Ret [2; 2; 1], s_region tag_end).
Proof.
  refine (proj2 (@partition_map_on_threads debug_profile _ registered_env _ _ (Slice 1 5)
    (chunk_size 2) tag_start [9; 9; 9; 9; 9; 9; 9] (fun i => Z.min 2 (5 - i * 2))
    registered_env_ok _ _ _ tag_results _) tag_start_state tag_end _ eq_refl _ _).
  - split; cbn; ulia.
  - vm_compute; discriminate.
  - vm_compute; discriminate.
  - vm_compute; discriminate.
  - apply (run_scoped_rtc (tile tag_view) tag_body tag_sched). vm_compute. reflexivity.
  - vm_compute. reflexivity.
Defined.

(** C36: A panicking closure does not stop the others: the call re-raises the
    payload of a shard's panic and never returns normally, while the region is
    the one in which all shards were processed (each up to its panic). *)
Theorem partition_map_with_panics `{BuildProfile, ProgramText} (env : call_env)
    {T R} (s : slice) (plan : PartitionPlan) (f : Z -> Z -> closure T R) (m : list T)
    (k : Z) (q : panic_payload) :
  CallEnv env -> slice_ok s -> plan_ok plan -> s_base s + s_len s <= zlen m ->
  let p := plan_view env s plan in
  let n := tile_count (par_len p) (par_chunk p) in
  0 <= k < n -> fst (tile_eval f p m k) = Panic q ->
  exists i p', 0 <= i < n /\ fst (tile_eval f p m i) = Panic p' /\
    partition_map_with env s plan f m = (Panic p', region_after f p m).
Proof.
  intros He Hs Hp Hm p n Hk Hq.
  destruct (partition_map_with_outcome env s plan f m Hs Hp Hm) as (o & -> & Ho).
  fold p in Ho |- *. cbv zeta in Ho. fold n in Ho.
  destruct o as [rs|p'|]; [|by destruct Ho as (i & Hi & Hpi); exists i, p'|done].
  destruct Ho as [_ Ho]. destruct (Ho k Hk) as [v Hv]. congruence.
Qed.

(** A closure that panics on the shard that starts at [2]. *)
Definition panic_at_2 (start len : Z) : closure Z Z :=
  if decide (start = 2) then CPanic (UserPanic 3) else tag_start start len.

Lemma partition_map_with_panics_witness :
  @partition_map_with release_profile _ scoped_env _ _ (Slice 0 5) (chunk_size 2) panic_at_2
    [9; 9; 9; 9; 9] = (Panic (UserPanic 3), [0; 9; 9; 9; 4]).
Proof.
  destruct (@partition_map_with_panics release_profile _ scoped_env _ _ (Slice 0 5)
    (chunk_size 2) panic_at_2 [9; 9; 9; 9; 9] 1 (UserPanic 3) scoped_env_ok
    ltac:(split; cbn; ulia) ltac:(vm_compute; discriminate)
    ltac:(vm_compute; discriminate) ltac:(split; vm_compute; congruence) eq_refl)
    as (i & p' & Hi & Hp & Heq).
  change (0 <= i < 3) in Hi. rewrite Heq. clear Heq.
  assert (i = 0 \/ i = 1 \/ i = 2) as [->|[->| ->]] by lia;
    vm_compute in Hp; [discriminate Hp|injection Hp as <-; reflexivity|discriminate Hp].
Defined.

(** The read driver is the sequential loop over the tiles: when the closure
    returns for every sub-slice the call returns those values in partition order,
    and otherwise it panics with the payload of one of the sub-slices; neither
    slicing nor arithmetic fails, for every plan, executor and schedule. *)
Theorem partition_read_map_sequential `{BuildProfile, ProgramText} (env : call_env)
    {T R} (l : list T) (plan : PartitionPlan) (g : Z -> list T -> outcome R) :
  CallEnv env -> zlen l <= isize_max -> plan_ok plan ->
  let c := read_chunk env l plan in
  let n := tile_count (zlen l) c in
  (forall i, 0 <= i < n -> defined (g (i * c) (read_tile l c i))) ->
  match mapM (fun i => g (i * c) (read_tile l c i)) (zseq n) with
  | Ret rs => partition_read_map_with env l plan (pure_body g) tt = (Ret rs, tt)
  | _ => exists i q, 0 <= i < n /\ g (i * c) (read_tile l c i) = Panic q /\
           partition_read_map_with env l plan (pure_body g) tt = (Panic q, tt)
  end.
Proof.
  intros He Hl Hp c n Hg.
  destruct (partition_read_map_with_outcome env l plan (pure_body g) tt _ tt Hl Hp
    (pure_independent l c n g Hg)) as (o & -> & Ho). fold c in Ho. fold n in Ho.
  destruct o as [rs|q|]; [|destruct Ho as (i & Hi & Hq)|done].
  - destruct Ho as [-> Hv]. rewrite mapM_ret_values; [done|].
    intros i Hi%elem_of_zseq. by apply Hv.
  - destruct (mapM _ _) as [rs|p|] eqn:E; [|by exists i, q..].
    apply elem_of_zseq in Hi. destruct (mapM_Ret_inv _ _ _ E i Hi) as [v Hv]. congruence.
Qed.

(** Adds up a sub-slice; panics on an empty one. *)
Definition sum_shard (start : Z) (sub : list Z) : outcome Z :=
  match sub with [] => Panic (UserPanic 0) | _ => Ret (foldr Z.add 0 sub) end.

Lemma partition_read_map_sequential_witness :
  @partition_read_map_with debug_profile _ registered_env _ _ _ [1; 2; 3; 4; 5] (parts 2)
    (pure_body sum_shard) tt = (Ret [6; 9], tt).
Proof.
  refine (@partition_read_map_sequential debug_profile _ registered_env _ _ [1; 2; 3; 4; 5]
    (parts 2) sum_shard registered_env_ok _ _ _); [vm_compute; discriminate..|].
  change (forall i, 0 <= i < 2 -> defined (sum_shard (i * 3) (read_tile [1; 2; 3; 4; 5] 3 i))).
  intros i Hi. assert (i = 0 \/ i = 1) as [->| ->] by lia; discriminate.
Defined.

(** The global index a shard is given is right: filling every shard with
    [start + j] numbers the cells of the slice [0, 1, 2, ...], whatever the plan,
    the executor and the schedule, and changes nothing outside the slice. *)
Theorem partition_for_each_fill `{BuildProfile, ProgramText} (env : call_env)
    (s : slice) (plan : PartitionPlan) (m : list Z) :
  CallEnv env -> slice_ok s -> plan_ok plan -> s_base s + s_len s <= zlen m ->
  partition_for_each_with env s plan fill_indices m =
  (Ret tt, splice (s_base s) (zseq (s_len s)) m).
Proof.
  intros He Hs Hp Hm. pose proof (plan_view_ok env s plan Hs Hp) as Hpar.
  pose proof (slice_ok_nonneg s Hs) as [Hb Hl0].
  assert (forall i, 0 <= i < tile_count (s_len s) (par_chunk (plan_view env s plan)) ->
    fst (tile_eval fill_indices (plan_view env s plan) m i) = Ret tt /\
    snd (tile_eval fill_indices (plan_view env s plan) m i) =
    Shard.as_slice (splice (s_base s) (zseq (s_len s)) m) (tile (plan_view env s plan) i)) as Ht.
  { intros i Hi. by apply fill_tile. }
  unfold partition_for_each_with, mbind, M_bind.
  destruct (partition_map_with_outcome env s plan fill_indices m Hs Hp Hm) as (o & -> & Ho).
  cbv zeta in Ho. cbn [par_len plan_view] in Ho.
  rewrite (region_after_known fill_indices (plan_view env s plan) m
             (splice (s_base s) (zseq (s_len s)) m));
    [|done|by rewrite zlen_splice by (rewrite ?zlen_zseq; lia)|done| |by intros; apply Ht].
  - destruct o as [rs|q|]; [done| |done]. destruct Ho as (i & Hi & Hq).
    destruct (Ht i Hi) as [Hr _]. congruence.
  - cbn. intros j Hj Hout. rewrite zget_splice by (rewrite ?zlen_zseq; lia).
    by rewrite decide_False by (rewrite zlen_zseq; lia).
Qed.

Lemma partition_for_each_fill_witness :
  @partition_for_each_with debug_profile _ scoped_env _ _ (Slice 1 5) (parts 3) fill_indices
    [9; 9; 9; 9; 9; 9; 9] = (Ret tt, [9; 0; 1; 2; 3; 4; 9]).
Proof.
  apply (@partition_for_each_fill debug_profile _ scoped_env (Slice 1 5) (parts 3)
    [9; 9; 9; 9; 9; 9; 9] scoped_env_ok); [split; cbn; ulia|vm_compute; discriminate..].
Defined.
