(* ===== verification/AutoTraits.v ===== *)
(** * Thread posture and layout of the types (all [struct]s of [src/], [src/static_assertions.rs])

    Every type of the library that the other files talk about, declared with
    the fields and the explicit [unsafe impl]s the source gives it, over the
    built-in and standard types.  [impls] computes whether a type is [Send] or
    [Sync] by the language's auto-trait rules, [is_copy] whether it is [Copy],
    [size_of] and [align_of] its layout on a 64-bit target.  That these postures
    keep payloads where they may be is [Token.payload_confined], over all programs.
    Main result here: the layout assertions of [static_assertions.rs], generalised
    to every payload. *)
From S2P Require Import Prelude.
From stdpp Require Import base numbers list.
Local Open Scope Z_scope.

Local Set Warnings "-register-all".

Inductive auto_trait : Type := Send | Sync.

(** A payload type: what the library knows about the [T] it is generic in. *)
Record payload : Type := mkPayload {
  p_send : bool;
  p_sync : bool;
  p_copy : bool;
  p_size : Z;
  p_align : Z
}.

(** Types.  A [struct] carries its [repr], the bounds of its explicit [Send] and
    [Sync] impls if it has any, whether it is [Copy], and its fields. *)
Inductive ty : Type :=
| Unit
| Int (bytes : Z)
| Bool
| FnPtr
| RawPtr (unsized : bool) (pointee : ty)
| Ref (unsized : bool) (pointee : ty)
| RefMut (unsized : bool) (pointee : ty)
| Slice (elem : ty)
| Array (n : Z) (elem : ty)
| Phantom (t : ty)
| UnsafeCell (t : ty)
| Cell (t : ty)
| AtomicInt (bytes : Z)
| Option (t : ty)
| Container (t : ty)     (* [Vec], [VecDeque] and their [Drain]s *)
| Param (p : payload)
| Struct (transparent : bool) (send_impl sync_impl : option (list (auto_trait * ty)))
    (copy : bool) (fields : list ty).

(** A struct with neither [repr(transparent)], explicit impls nor [Copy]. *)
Definition plain : list ty -> ty := Struct false None None false.

(** ** The types of the library *)

(** [PhantomData<fn(&'brand ()) -> &'brand ()>] *)
Definition InvariantLifetime : ty := Phantom FnPtr.
Definition BorrowWindow : ty := Phantom (Ref false Unit).
Definition BrandMarker (Extra : ty) : ty :=
  Struct false None None true [InvariantLifetime; Extra].
Definition FreshBrand : ty := plain [InvariantLifetime].

(** [brand_owner_token!]: the struct of one family, from its [marker_extra]. *)
Definition brand_owner_token (marker_extra : ty) : ty := plain [BrandMarker marker_extra].
Definition ExclusiveToken : ty := brand_owner_token Unit.
Definition SyncRegionToken : ty := brand_owner_token Unit.
Definition ThreadLocalToken : ty := brand_owner_token (Phantom (RawPtr false Unit)).
Definition SharedReadToken : ty := Struct false None None true [BrandMarker BorrowWindow].

Definition MelinoeCell (T : ty) : ty :=
  Struct true (Some [(Send, T)]) (Some [(Send, T); (Sync, T)]) false
    [InvariantLifetime; UnsafeCell T].
Definition MelinoeRef (T : ty) : ty := Struct true None None false [Ref false T; InvariantLifetime].
Definition MelinoeMut (T : ty) : ty := Struct true None None false [RefMut false T; InvariantLifetime].

Definition WriterShard (T : ty) : ty :=
  Struct true None None false [RefMut true (Slice (MelinoeCell T))].
Definition ShardChunks (T : ty) : ty :=
  plain [Option (RefMut true (Slice (MelinoeCell T))); Int 8].
Definition ParChunks (T : ty) : ty :=
  Struct false (Some [(Send, T)]) (Some [(Send, T)]) false
    [RawPtr false (MelinoeCell T); Int 8; Int 8; Phantom (RefMut true (Slice (MelinoeCell T)))].

Definition BrandedAtomic (A : ty) : ty := Struct true None None false [A; InvariantLifetime].
Definition GuardedCell (T : ty) : ty :=
  Struct false (Some [(Send, T)]) None false [Cell Bool; UnsafeCell T].
Definition ReentrancyCell : ty := plain [Cell Bool].
Definition Reentered : ty := Struct false None None true [].

Definition BrandedVec (T : ty) : ty := plain [Container (MelinoeCell T)].
Definition BrandedDrain (T : ty) : ty := plain [Container (MelinoeCell T)].
Definition BrandedVecDeque (T : ty) : ty := plain [Container (MelinoeCell T)].
Definition BrandedVecDequeDrain (T : ty) : ty := plain [Container (MelinoeCell T)].
Definition DequeMutSlices (T : ty) : ty :=
  Struct false None (Some [(Send, T)]) false
    [RawPtr false (MelinoeCell T); Int 8; RawPtr false (MelinoeCell T); Int 8;
     Phantom (RefMut true (Slice (MelinoeCell T)))].

(** The ordering and [Cow] policies are unit structs. *)
Definition policy : ty := Struct false None None true [].

(** ** Auto traits *)

(** [impls tr t]: the type [t] implements the auto trait [tr].  An explicit impl
    replaces the structural rule. *)
Fixpoint impls (tr : auto_trait) (t : ty) : bool :=
  match t with
  | Unit | Int _ | Bool | FnPtr | AtomicInt _ => true
  | RawPtr _ _ => false
  | Ref _ t => impls Sync t
  | RefMut _ t | Slice t | Array _ t | Phantom t | Option t | Container t => impls tr t
  | UnsafeCell t | Cell t => match tr with Send => impls Send t | Sync => false end
  | Param p => match tr with Send => p_send p | Sync => p_sync p end
  | Struct _ send_impl sync_impl _ fields =>
      match match tr with Send => send_impl | Sync => sync_impl end with
      | Some bounds => forallb (fun b => match b with (tr', t') => impls tr' t' end) bounds
      | None => forallb (fun f => impls tr f) fields
      end
  end.

Definition is_send (t : ty) : bool := impls Send t.
Definition is_sync (t : ty) : bool := impls Sync t.

Fixpoint is_copy (t : ty) : bool :=
  match t with
  | Unit | Int _ | Bool | FnPtr | RawPtr _ _ | Ref _ _ | Phantom _ => true
  | RefMut _ _ | Slice _ | UnsafeCell _ | Cell _ | AtomicInt _ | Container _ => false
  | Array _ t | Option t => is_copy t
  | Param p => p_copy p
  | Struct _ _ _ copy _ => copy
  end.

(** ** Layout *)

Definition pointer_size : Z := 8.

(** [n] rounded up to a multiple of [a]. *)
Definition round_up (n a : Z) : Z := (n + a - 1) / a * a.

Definition max_list (l : list Z) : Z := foldr Z.max 1 l.

Fixpoint align_of (t : ty) : Z :=
  match t with
  | Unit | Bool | Phantom _ => 1
  | Int n | AtomicInt n => n
  | FnPtr | RawPtr _ _ | Ref _ _ | RefMut _ _ | Container _ => pointer_size
  | Slice t | Array _ t | UnsafeCell t | Cell t | Option t => align_of t
  | Param p => p_align p
  | Struct _ _ _ _ fields => max_list (align_of <$> fields)
  end.

(** The number of invalid bit patterns [Option] can use for [None]: a reference
    is never null, a [bool] is 0 or 1; an [UnsafeCell] hides those of its
    contents, a struct inherits those of its fields. *)
Fixpoint niches (t : ty) : Z :=
  match t with
  | Bool => 254
  | FnPtr | Ref _ _ | RefMut _ _ | Container _ => 1
  | Option t => if decide (0 < niches t) then niches t - 1 else 254
  | Struct _ _ _ _ fields => foldr Z.max 0 (niches <$> fields)
  | _ => 0
  end.

(** Size in bytes of a sized type; the compiler packs a struct's fields in the
    order of decreasing alignment, so only the tail is padded. *)
Fixpoint size_of (t : ty) : Z :=
  match t with
  | Unit | Phantom _ => 0
  | Bool => 1
  | Int n | AtomicInt n => n
  | FnPtr => pointer_size
  | RawPtr unsized _ | Ref unsized _ | RefMut unsized _ =>
      if unsized then 2 * pointer_size else pointer_size
  | Slice t => 0
  | Array n t => n * size_of t
  | UnsafeCell t | Cell t => size_of t
  | Option t => if decide (0 < niches t) then size_of t else size_of t + align_of t
  | Container t => 3 * pointer_size
  | Param p => p_size p
  | Struct _ _ _ _ fields =>
      round_up (foldr Z.add 0 (size_of <$> fields)) (max_list (align_of <$> fields))
  end.

(** The layout of a Rust type: a power-of-two alignment, here at least 1, that
    divides the size. *)
Definition payload_ok (p : payload) : Prop :=
  1 <= p_align p /\ 0 <= p_size p /\ (p_align p | p_size p).

(** ** The compile-time assertions *)

Definition u8 : ty := Int 1.
Definition u64 : ty := Int 8.

(** The asserted equations, in the order of the source. *)
Definition static_assertions : list (Z * Z) :=
  [(size_of ExclusiveToken, 0);
   (size_of SharedReadToken, 0);
   (size_of ThreadLocalToken, 0);
   (size_of SyncRegionToken, 0);
   (size_of (MelinoeCell u64), size_of u64);
   (align_of (MelinoeCell u64), align_of u64);
   (size_of (MelinoeCell (Array 37 u8)), 37);
   (size_of (MelinoeCell Unit), 0);
   (size_of (MelinoeRef u64), size_of (Ref false u64));
   (size_of (MelinoeMut u64), size_of (RefMut false u64));
   (size_of (Option (MelinoeRef u64)), size_of (Ref false u64));
   (size_of (Option (MelinoeMut u64)), size_of (RefMut false u64));
   (size_of (MelinoeRef u8), size_of (Ref false u8));
   (size_of (MelinoeMut u8), size_of (RefMut false u8));
   (size_of (WriterShard u64), size_of (RefMut true (Slice (MelinoeCell u64))));
   (size_of (BrandedAtomic (AtomicInt 8)), size_of (AtomicInt 8));
   (align_of (BrandedAtomic (AtomicInt 8)), align_of (AtomicInt 8));
   (size_of (BrandedAtomic (AtomicInt 1)), size_of (AtomicInt 1));
   (align_of (BrandedAtomic (AtomicInt 1)), align_of (AtomicInt 1));
   (size_of (BrandedAtomic (AtomicInt 2)), size_of (AtomicInt 2));
   (align_of (BrandedAtomic (AtomicInt 2)), align_of (AtomicInt 2));
   (size_of policy, 0);
   (align_of policy, 1)].

(** ** Lemmas *)

Lemma round_up_multiple n a : 1 <= a -> (a | n) -> round_up n a = n.
Proof.
  intros Ha [k ->]. unfold round_up.
  replace (k * a + a - 1) with ((a - 1) + k * a) by lia.
  rewrite Z.div_add by lia. rewrite Z.div_small by lia. lia.
Qed.

Lemma round_up_le n a : 1 <= a -> n <= round_up n a < n + a.
Proof.
  intros Ha. unfold round_up. pose proof (Z.div_mod (n + a - 1) a ltac:(lia)).
  pose proof (Z.mod_pos_bound (n + a - 1) a ltac:(lia)). nia.
Qed.

(** A wrapper that adds zero-sized, byte-aligned fields to one field has the
    layout of that field. *)
Lemma wrapper_layout tr si sy c f z :
  1 <= align_of f -> (align_of f | size_of f) -> size_of z = 0 -> align_of z = 1 ->
  (size_of (Struct tr si sy c [z; f]) = size_of f /\
   align_of (Struct tr si sy c [z; f]) = align_of f) /\
  (size_of (Struct tr si sy c [f; z]) = size_of f /\
   align_of (Struct tr si sy c [f; z]) = align_of f).
Proof.
  intros Ha Hd Hs Hz. cbn. rewrite Hs, Hz. unfold max_list. cbn.
  replace (1 `max` (align_of f `max` 1)) with (align_of f) by lia.
  replace (align_of f `max` (1 `max` 1)) with (align_of f) by lia.
  replace (0 + (size_of f + 0)) with (size_of f) by lia.
  replace (size_of f + (0 + 0)) with (size_of f) by lia.
  by rewrite round_up_multiple.
Qed.

(** ** Properties *)

(** Layout: every compile-time assertion holds, and for every payload a
    branded cell has exactly the payload's size and alignment, the guards and
    their [Option]s are one pointer, a shard is one fat pointer, and a branded
    atomic is its atomic. *)
Theorem zero_cost_layout (p : payload) (n : Z) :
  payload_ok p -> 1 <= n ->
  let T := Param p in
  Forall (fun '(got, expected) => got = expected) static_assertions /\
  size_of (MelinoeCell T) = p_size p /\ align_of (MelinoeCell T) = p_align p /\
  size_of (MelinoeRef T) = pointer_size /\ size_of (Option (MelinoeRef T)) = pointer_size /\
  size_of (MelinoeMut T) = pointer_size /\ size_of (Option (MelinoeMut T)) = pointer_size /\
  size_of (WriterShard T) = 2 * pointer_size /\
  size_of (BrandedAtomic (AtomicInt n)) = n /\ align_of (BrandedAtomic (AtomicInt n)) = n.
Proof.
  intros (Ha & Hs & Hd) Hn T.
  destruct (wrapper_layout true (Some [(Send, T)]) (Some [(Send, T); (Sync, T)]) false
    (UnsafeCell T) InvariantLifetime Ha Hd eq_refl eq_refl) as [[Hc1 Hc2] _].
  destruct (wrapper_layout true None None false (AtomicInt n) InvariantLifetime
    Hn (Z.divide_refl n) eq_refl eq_refl) as [_ [Hb1 Hb2]].
  split; [repeat constructor|]. split; [exact Hc1|]. split; [exact Hc2|].
  do 5 (split; [reflexivity|]). split; [exact Hb1|exact Hb2].
Qed.

(** A 12-byte payload aligned to 4, neither [Send] nor [Sync]. *)
Definition odd_payload : payload := mkPayload false false false 12 4.

Lemma zero_cost_layout_witness :
  payload_ok odd_payload /\ size_of (MelinoeCell (Param odd_payload)) = 12.
Proof.
  assert (payload_ok odd_payload) as Hp by (split; [done|]; split; [done|]; by exists 3).
  split; [exact Hp|].
  destruct (zero_cost_layout odd_payload 8 Hp ltac:(lia)) as (_ & Hsize & _). exact Hsize.
Defined.
