(* ===== verification/Token.v ===== *)
(** * Brands, tokens, permits and guards ([src/token/], [src/sync/tokens/], [src/cell/])

    A machine whose state is the set of live tokens, borrows and branded cells
    of a program and whose operations are the library's, guarded by the rules
    the language enforces on the values involved: a token is move-only, [&mut]
    excludes every other borrow, a [Copy] value may be duplicated, a value moves
    to another thread only when its type is [Send], and a reference is usable on
    another thread only when its target is [Sync].  The types and their posture
    are those of [AutoTraits].  A cell's contents are a tuple of components, so
    that the projections of a guard ([map], [map_split]) are ranges of them.

    The token rules are the whole run-time content of the library: [borrow] and
    [borrow_mut] check nothing.  Main results: two live guards of a brand never
    overlap if one of them writes, what a guard sees changes only through
    itself, a thread-local token and its permits never leave their thread,
    components that are not [Send] or not [Sync] are used on one thread only;
    and [new_unchecked] without its contract breaks the first of these. *)
From S2P Require Import Prelude AutoTraits.
From stdpp Require Import base numbers list gmap.
Local Open Scope Z_scope.

(** The token families, and the type of their tokens. *)
Inductive family : Type := ExclusiveFamily | SyncRegionFamily | ThreadLocalFamily.

Definition token_ty (f : family) : ty :=
  match f with
  | ExclusiveFamily => ExclusiveToken
  | SyncRegionFamily => SyncRegionToken
  | ThreadLocalFamily => ThreadLocalToken
  end.

(** [share: yes] or [share: no] in the family's declaration. *)
Definition has_share (f : family) : bool :=
  match f with ThreadLocalFamily => false | _ => true end.

(** An owner token; [t_birth] records where it was minted. *)
Record token : Type := mkToken {
  t_brand : positive;
  t_family : family;
  t_thread : positive;
  t_birth : positive
}.

(** The permits: [&token], [&mut token], [SharedReadToken]. *)
Inductive permit_form : Type := ByRef | ByMut | ByShared.

(** What holds a borrow of a token: a permit, or a guard ([MelinoeRef],
    [MelinoeMut]) on the components [lo, hi) of a cell. *)
Inductive hold : Type :=
| Permit (form : permit_form)
| Guard (cell : positive) (lo hi : Z) (writes : bool).

Record holder : Type := mkHolder {
  h_token : positive;     (* the token borrowed *)
  h_excl : bool;          (* by [&mut] *)
  h_thread : positive;
  h_hold : hold
}.

(** A branded cell; [c_origin] records where it was created. *)
Record cell : Type := mkCell {
  c_brand : positive;
  c_thread : positive;
  c_origin : positive;
  c_parts : list payload;
  c_value : list Z
}.

Record world : Type := mkWorld {
  next : positive;
  tokens : gmap positive token;
  holders : gmap positive holder;
  cells : gmap positive cell
}.

#[export] Instance family_eq_dec : EqDecision family.
Proof. solve_decision. Defined.
#[export] Instance permit_form_eq_dec : EqDecision permit_form.
Proof. solve_decision. Defined.
#[export] Instance hold_eq_dec : EqDecision hold.
Proof. solve_decision. Defined.

Definition initial_world : world := mkWorld 1 ∅ ∅ ∅.

(** ** The types involved *)

(** The posture of the components [lo, hi), a tuple of theirs. *)
Definition range_payload (parts : list payload) (lo hi : Z) : payload :=
  let sub := subrange lo (hi - lo) parts in
  mkPayload (forallb p_send sub) (forallb p_sync sub) (forallb p_copy sub) 0 1.

Definition cell_ty (c : cell) : ty := MelinoeCell (Param (range_payload (c_parts c) 0 (zlen (c_parts c)))).

Definition guard_ty (c : cell) (lo hi : Z) (writes : bool) : ty :=
  let T := Param (range_payload (c_parts c) lo hi) in
  if writes then MelinoeMut T else MelinoeRef T.

Definition permit_ty (f : family) (form : permit_form) : ty :=
  match form with
  | ByRef => Ref false (token_ty f)
  | ByMut => RefMut false (token_ty f)
  | ByShared => SharedReadToken
  end.

(** ** The rules of the language *)

(** No borrow of token [t] is live. *)
Definition unborrowed (t : positive) (w : world) : Prop :=
  map_Forall (fun _ h => h_token h <> t) (holders w).

(** No [&mut] borrow of token [t] is live. *)
Definition not_excl (t : positive) (w : world) : Prop :=
  map_Forall (fun _ h => h_token h = t -> h_excl h = false) (holders w).

(** No guard on cell [c] is live. *)
Definition unguarded (c : positive) (w : world) : Prop :=
  map_Forall (fun _ h => match h_hold h with Guard c' _ _ _ => c' <> c | Permit _ => True end)
    (holders w).

#[export] Instance unguarded_dec c w : Decision (unguarded c w).
Proof.
  apply map_Forall_dec. intros i h. destruct (h_hold h); apply _.
Defined.

(** A reference to the cell can be used on thread [th]. *)
Definition may_access (th : positive) (c : cell) : Prop :=
  th = c_thread c \/ is_sync (cell_ty c) = true.

(** [lo, hi) is a range of components of [c]. *)
Definition in_parts (lo hi : Z) (c : cell) : Prop := 0 <= lo /\ lo <= hi /\ hi <= zlen (c_parts c).

#[export] Instance in_parts_dec lo hi c : Decision (in_parts lo hi c).
Proof. unfold in_parts. apply _. Defined.

Definition disjoint_ranges (lo hi lo' hi' : Z) : Prop := hi <= lo' \/ hi' <= lo.

(** ** State updates *)

Definition bump (w : world) : world :=
  mkWorld (Pos.succ (next w)) (tokens w) (holders w) (cells w).

Definition set_token (t : positive) (k : token) (w : world) : world :=
  mkWorld (next w) (<[t := k]> (tokens w)) (holders w) (cells w).

Definition set_holder (i : positive) (h : holder) (w : world) : world :=
  mkWorld (next w) (tokens w) (<[i := h]> (holders w)) (cells w).

Definition set_cell (i : positive) (c : cell) (w : world) : world :=
  mkWorld (next w) (tokens w) (holders w) (<[i := c]> (cells w)).

Definition drop_holder (i : positive) (w : world) : world :=
  mkWorld (next w) (tokens w) (delete i (holders w)) (cells w).

(** A new holder under a fresh name. *)
Definition add_holder (h : holder) (w : world) : world := bump (set_holder (next w) h w).

(** ** Tokens *)

(** [mint] of a family on a brand. *)
Definition mint (f : family) (brand th : positive) (w : world) : world :=
  bump (set_token (next w) (mkToken brand f th th) w).

(** [with_fresh_token]: the brand is fresh, named by the token's name. *)
Definition with_fresh_token (f : family) (th : positive) (w : world) : option world :=
  Some (mint f (next w) th w).

(** [new_unchecked]: any brand at all. *)
Definition new_unchecked (f : family) (brand th : positive) (w : world) : option world :=
  Some (mint f brand th w).

(** [&token] *)
Definition borrow_token (th t : positive) (w : world) : option world :=
  k ← tokens w !! t;
  guard (t_thread k = th \/ is_sync (token_ty (t_family k)) = true);;
  guard (not_excl t w);;
  Some (add_holder (mkHolder t false th (Permit ByRef)) w).

(** [&mut token] *)
Definition borrow_token_mut (th t : positive) (w : world) : option world :=
  k ← tokens w !! t;
  guard (t_thread k = th);;
  guard (unborrowed t w);;
  Some (add_holder (mkHolder t true th (Permit ByMut)) w).

(** [token.share()] *)
Definition share (th t : positive) (w : world) : option world :=
  k ← tokens w !! t;
  guard (has_share (t_family k) = true);;
  guard (t_thread k = th \/ is_sync (token_ty (t_family k)) = true);;
  guard (not_excl t w);;
  Some (add_holder (mkHolder t false th (Permit ByShared)) w).

(** A [Copy] permit is duplicated. *)
Definition copy_permit (i : positive) (w : world) : option world :=
  h ← holders w !! i;
  k ← tokens w !! h_token h;
  match h_hold h with
  | Permit form =>
      guard (is_copy (permit_ty (t_family k) form) = true);; Some (add_holder h w)
  | Guard _ _ _ _ => None
  end.

(** The last use of a permit or guard is over. *)
Definition end_borrow (i : positive) (w : world) : option world :=
  _ ← holders w !! i; Some (drop_holder i w).

(** ** Moving values to another thread *)

Definition send_token (t th : positive) (w : world) : option world :=
  k ← tokens w !! t;
  guard (is_send (token_ty (t_family k)) = true);;
  guard (unborrowed t w);;
  Some (set_token t (mkToken (t_brand k) (t_family k) th (t_birth k)) w).

Definition send_holder (i th : positive) (w : world) : option world :=
  h ← holders w !! i;
  k ← tokens w !! h_token h;
  t ← match h_hold h with
      | Permit form => Some (permit_ty (t_family k) form)
      | Guard c lo hi writes => c ← cells w !! c; Some (guard_ty c lo hi writes)
      end;
  guard (is_send t = true);;
  Some (set_holder i (mkHolder (h_token h) (h_excl h) th (h_hold h)) w).

Definition send_cell (i th : positive) (w : world) : option world :=
  c ← cells w !! i;
  guard (is_send (cell_ty c) = true);;
  guard (unguarded i w);;
  Some (set_cell i (mkCell (c_brand c) th (c_origin c) (c_parts c) (c_value c)) w).

(** ** Cells *)

(** [MelinoeCell::new], with the ambient brand. *)
Definition new_cell (th brand : positive) (parts : list payload) (v : list Z) (w : world)
    : option world :=
  guard (brand < next w)%positive;;
  guard (zlen parts = zlen v);;
  Some (bump (set_cell (next w) (mkCell brand th th parts v) w)).

(** The permit [i] opens cell [c]: same brand (the brands are invariant), and the
    cell can be used on the permit's thread. *)
Definition opens (i c : positive) (w : world) : option (holder * permit_form * cell) :=
  h ← holders w !! i;
  k ← tokens w !! h_token h;
  d ← cells w !! c;
  match h_hold h with
  | Permit form =>
      guard (t_brand k = c_brand d);; guard (may_access (h_thread h) d);; Some (h, form, d)
  | Guard _ _ _ _ => None
  end.

(** A guard that borrows the components [lo, hi) of cell [c] with the permit [h],
    and the one that borrows all of it. *)
Definition range_guard (h : holder) (c : positive) (lo hi : Z) (writes : bool) : holder :=
  mkHolder (h_token h) (h_excl h) (h_thread h) (Guard c lo hi writes).
Definition full_guard (h : holder) (c : positive) (d : cell) (writes : bool) : holder :=
  range_guard h c 0 (zlen (c_parts d)) writes.

(** What becomes of permit [i] when it lends a guard: a [Copy] permit stays
    usable beside the guard, a [&mut] one is moved into it. *)
Definition lend (i : positive) (form : permit_form) (g : holder) (w : world) : world :=
  match form with ByMut => set_holder i g w | ByRef | ByShared => add_holder g w end.

(** [cell.borrow(permit)] *)
Definition cell_borrow (i c : positive) (w : world) : option world :=
  '(h, form, d) ← opens i c w;
  Some (lend i form (full_guard h c d false) w).

(** [cell.borrow_mut(permit)]: only [&mut token] is a [WritePermit]. *)
Definition cell_borrow_mut (i c : positive) (w : world) : option world :=
  '(h, form, d) ← opens i c w;
  guard (form = ByMut);;
  Some (lend i form (full_guard h c d true) w).

(** [cells[lo..hi].borrow_slice(permit)] and [borrow_slice_mut]: the components of
    [c] are the cells of a slice, and the view is a plain reference to a range of
    them; a single cell of the slice is the range of length one. *)
Definition slice_borrow (i c : positive) (lo hi : Z) (w : world) : option world :=
  '(h, form, d) ← opens i c w;
  guard (in_parts lo hi d);;
  Some (lend i form (range_guard h c lo hi false) w).
Definition slice_borrow_mut (i c : positive) (lo hi : Z) (w : world) : option world :=
  '(h, form, d) ← opens i c w;
  guard (form = ByMut);;
  guard (in_parts lo hi d);;
  Some (lend i form (range_guard h c lo hi true) w).

(** [cell.replace(v, permit)]: the guard of [borrow_mut] lives for the swap. *)
Definition cell_replace (i c : positive) (v : list Z) (w : world) : option world :=
  '(h, form, d) ← opens i c w;
  guard (form = ByMut);;
  guard (zlen v = zlen (c_parts d));;
  Some (drop_holder i
    (set_cell c (mkCell (c_brand d) (c_thread d) (c_origin d) (c_parts d) v) w)).

(** A write through [cell.get_mut()]: [&mut self] excludes every guard. *)
Definition cell_get_mut (th c : positive) (j x : Z) (w : world) : option world :=
  d ← cells w !! c;
  guard (c_thread d = th);;
  guard (unguarded c w);;
  guard (0 <= j < zlen (c_value d));;
  Some (set_cell c
    (mkCell (c_brand d) (c_thread d) (c_origin d) (c_parts d) (zset j x (c_value d))) w).

(** [cell.into_inner()] consumes the cell. *)
Definition cell_into_inner (th c : positive) (w : world) : option world :=
  d ← cells w !! c;
  guard (c_thread d = th);;
  guard (unguarded c w);;
  Some (mkWorld (next w) (tokens w) (holders w) (delete c (cells w))).

(** ** Guards *)

(** [guard.into_ref()], [guard.into_mut()]: the guard becomes the plain reference
    it wraps, which holds the same borrow. *)
Definition guard_into (i : positive) (w : world) : option world :=
  h ← holders w !! i;
  match h_hold h with Guard _ _ _ _ => Some w | Permit _ => None end.

(** What [Deref] of a guard shows. *)
Definition guard_deref (i : positive) (w : world) : option (list Z) :=
  h ← holders w !! i;
  match h_hold h with
  | Guard c lo hi _ => d ← cells w !! c; Some (subrange lo (hi - lo) (c_value d))
  | Permit _ => None
  end.

(** [guard[j] = x] through [DerefMut], which only [MelinoeMut] has. *)
Definition guard_deref_mut (i : positive) (j x : Z) (w : world) : option world :=
  h ← holders w !! i;
  match h_hold h with
  | Guard c lo hi writes =>
      d ← cells w !! c;
      guard (writes = true);;
      guard (0 <= j < hi - lo);;
      Some (set_cell c
        (mkCell (c_brand d) (c_thread d) (c_origin d) (c_parts d) (zset (lo + j) x (c_value d))) w)
  | Permit _ => None
  end.

(** [map]: the guard is consumed, its projection covers a sub-range. *)
Definition guard_map (i : positive) (lo' hi' : Z) (w : world) : option world :=
  h ← holders w !! i;
  match h_hold h with
  | Guard c lo hi writes =>
      guard (lo <= lo' /\ lo' <= hi' /\ hi' <= hi);;
      Some (set_holder i (mkHolder (h_token h) (h_excl h) (h_thread h) (Guard c lo' hi' writes)) w)
  | Permit _ => None
  end.

(** [map_split]: two projections; those of a [MelinoeMut] are two live [&mut],
    which the closure can only return when they do not overlap. *)
Definition guard_map_split (i : positive) (lo1 hi1 lo2 hi2 : Z) (w : world) : option world :=
  h ← holders w !! i;
  match h_hold h with
  | Guard c lo hi writes =>
      guard (lo <= lo1 /\ lo1 <= hi1 /\ hi1 <= hi /\ lo <= lo2 /\ lo2 <= hi2 /\ hi2 <= hi);;
      guard (writes = true -> disjoint_ranges lo1 hi1 lo2 hi2);;
      let piece l r := mkHolder (h_token h) (h_excl h) (h_thread h) (Guard c l r writes) in
      Some (add_holder (piece lo2 hi2) (set_holder i (piece lo1 hi1) w))
  | Permit _ => None
  end.

(** The closure of a scope has returned: nothing of the brand can escape. *)
Definition of_brand (b : positive) (w : world) (h : holder) : bool :=
  match tokens w !! h_token h with Some k => bool_decide (t_brand k = b) | None => false end.

Definition scope_end (b : positive) (w : world) : option world :=
  Some (mkWorld (next w)
    (filter (fun '(_, k) => t_brand k <> b) (tokens w))
    (filter (fun '(_, h) => of_brand b w h = false) (holders w))
    (filter (fun '(_, c) => c_brand c <> b) (cells w))).

(** ** Programs *)

Inductive op : Type :=
| WithFreshToken (f : family) (th : positive)
| BorrowToken (th t : positive)
| BorrowTokenMut (th t : positive)
| Share (th t : positive)
| CopyPermit (i : positive)
| EndBorrow (i : positive)
| SendToken (t th : positive)
| SendHolder (i th : positive)
| SendCell (c th : positive)
| NewCell (th brand : positive) (parts : list payload) (v : list Z)
| CellBorrow (i c : positive)
| CellBorrowMut (i c : positive)
| SliceBorrow (i c : positive) (lo hi : Z)
| SliceBorrowMut (i c : positive) (lo hi : Z)
| CellReplace (i c : positive) (v : list Z)
| CellGetMut (th c : positive) (j x : Z)
| CellIntoInner (th c : positive)
| GuardDerefMut (i : positive) (j x : Z)
| GuardInto (i : positive)
| GuardMap (i : positive) (lo hi : Z)
| GuardMapSplit (i : positive) (lo1 hi1 lo2 hi2 : Z)
| ScopeEnd (b : positive)
| NewUnchecked (f : family) (brand th : positive).

(** [None]: the compiler rejects the operation. *)
Definition exec (o : op) : world -> option world :=
  match o with
  | WithFreshToken f th => with_fresh_token f th
  | BorrowToken th t => borrow_token th t
  | BorrowTokenMut th t => borrow_token_mut th t
  | Share th t => share th t
  | CopyPermit i => copy_permit i
  | EndBorrow i => end_borrow i
  | SendToken t th => send_token t th
  | SendHolder i th => send_holder i th
  | SendCell c th => send_cell c th
  | NewCell th brand parts v => new_cell th brand parts v
  | CellBorrow i c => cell_borrow i c
  | CellBorrowMut i c => cell_borrow_mut i c
  | SliceBorrow i c lo hi => slice_borrow i c lo hi
  | SliceBorrowMut i c lo hi => slice_borrow_mut i c lo hi
  | CellReplace i c v => cell_replace i c v
  | CellGetMut th c j x => cell_get_mut th c j x
  | CellIntoInner th c => cell_into_inner th c
  | GuardDerefMut i j x => guard_deref_mut i j x
  | GuardInto i => guard_into i
  | GuardMap i lo hi => guard_map i lo hi
  | GuardMapSplit i lo1 hi1 lo2 hi2 => guard_map_split i lo1 hi1 lo2 hi2
  | ScopeEnd b => scope_end b
  | NewUnchecked f brand th => new_unchecked f brand th
  end.

(** Safe code cannot call the [unsafe] constructor. *)
Definition safe (o : op) : bool := match o with NewUnchecked _ _ _ => false | _ => true end.

Definition run (ops : list op) (w : world) : option world :=
  foldl (fun w o => w ≫= exec o) (Some w) ops.

(** The states of safe programs. *)
Inductive reachable : world -> Prop :=
| reach_init : reachable initial_world
| reach_step w o w' : reachable w -> safe o = true -> exec o w = Some w' -> reachable w'.

(** ** The invariant *)

(** Two live borrows of one token: both shared, or both guards split from one
    exclusive borrow, on one cell and disjoint unless they only read. *)
Definition compatible (h h' : holder) : Prop :=
  h_token h = h_token h' ->
  (h_excl h = false /\ h_excl h' = false) \/
  match h_hold h, h_hold h' with
  | Guard c lo hi writes, Guard c' lo' hi' writes' =>
      h_excl h = true /\ h_excl h' = true /\ c = c' /\
      ((writes = false /\ writes' = false) \/ disjoint_ranges lo hi lo' hi')
  | _, _ => False
  end.

(** The part of a cell's contents at component [j] has posture [p]. *)
Definition part_at (c : cell) (j : Z) (p : payload) : Prop := zget (c_parts c) j = Some p.

(** A guard that is not on its cell's thread got there as its type allows. *)
Definition guard_placed (h : holder) (c : cell) (lo hi : Z) (writes : bool) : Prop :=
  forall j p, lo <= j < hi -> part_at c j p ->
    (if writes then p_send p else p_sync p) = false -> h_thread h = c_thread c.

Definition holder_ok (w : world) (h : holder) : Prop :=
  exists k, tokens w !! h_token h = Some k /\
  match h_hold h with
  | Permit form =>
      h_excl h = bool_decide (form = ByMut) /\
      (form = ByShared -> has_share (t_family k) = true) /\
      (t_family k = ThreadLocalFamily -> h_thread h = t_birth k)
  | Guard c lo hi writes =>
      (writes = true -> h_excl h = true) /\
      exists d, cells w !! c = Some d /\ c_brand d = t_brand k /\ in_parts lo hi d /\
        guard_placed h d lo hi writes
  end.

Definition token_ok (w : world) (t : positive) (k : token) : Prop :=
  (t < next w)%positive /\ (t_brand k < next w)%positive /\
  (t_family k = ThreadLocalFamily -> t_thread k = t_birth k).

Definition cell_ok (w : world) (i : positive) (c : cell) : Prop :=
  (i < next w)%positive /\ (c_brand c < next w)%positive /\ zlen (c_parts c) = zlen (c_value c) /\
  (forall j p, part_at c j p -> p_send p = false -> c_thread c = c_origin c).

Record inv (w : world) : Prop := {
  inv_tokens : map_Forall (token_ok w) (tokens w);
  inv_unique t t' k k' : tokens w !! t = Some k -> tokens w !! t' = Some k' ->
    t_brand k = t_brand k' -> t = t';
  inv_holders : map_Forall (fun i h => (i < next w)%positive /\ holder_ok w h) (holders w);
  inv_compatible i j h h' : i <> j -> holders w !! i = Some h -> holders w !! j = Some h' ->
    compatible h h';
  inv_cells : map_Forall (cell_ok w) (cells w)
}.

(** ** Lemmas: the updates preserve the invariant *)

Lemma compatible_sym h h' : compatible h h' -> compatible h' h.
Proof.
  unfold compatible, disjoint_ranges. intros Hc He. specialize (Hc (eq_sym He)).
  destruct Hc as [[? ?]|Hc]; [by left|right]. destruct (h_hold h), (h_hold h'); try done.
  destruct Hc as (? & ? & ? & [[? ?]|[?|?]]); auto 10.
Qed.

Lemma inv_initial : inv initial_world.
Proof. split; try apply map_Forall_empty; by intros. Qed.

Lemma holder_fresh w h : inv w -> holders w !! next w = Some h -> False.
Proof. intros Hw Hh. apply (inv_holders _ Hw) in Hh as [Hlt _]. lia. Qed.

Lemma inv_bump w : inv w -> inv (bump w).
Proof.
  intros [Ht Hu Hh Hc Hce]. split; [| exact Hu| |exact Hc|]; cbn.
  - intros i k Hk. destruct (Ht i k Hk) as (? & ? & ?). repeat split; cbn; [lia..|done].
  - intros i h Hi. destruct (Hh i h Hi) as [? Hok]. split; [lia|exact Hok].
  - intros i c Hi. destruct (Hce i c Hi) as (? & ? & ? & ?). repeat split; cbn; [lia..|done|done].
Qed.

Lemma inv_set_holder i h w :
  inv w -> (i < next w)%positive -> holder_ok w h ->
  (forall j h', i <> j -> holders w !! j = Some h' -> compatible h h') -> inv (set_holder i h w).
Proof.
  intros [Ht Hu Hh Hc Hce] Hi Hok Hcomp. split; [exact Ht|exact Hu| | |exact Hce]; cbn.
  - intros j h' [[-> ->]|[Hne Hj]]%lookup_insert_Some; [by split|]. by apply Hh.
  - intros j j' h1 h2 Hne [[-> ->]|[Hne1 H1]]%lookup_insert_Some
      [[-> ->]|[Hne2 H2]]%lookup_insert_Some; [done|by eapply Hcomp|
      by apply compatible_sym; eapply Hcomp|by eapply (Hc j j')].
Qed.

Lemma inv_add_holder h w :
  inv w -> holder_ok w h -> (forall j h', holders w !! j = Some h' -> compatible h h') ->
  inv (add_holder h w).
Proof.
  intros Hw Hok Hcomp. pose proof Hw as [Ht Hu Hh Hc Hce].
  split; cbn; [|exact Hu| | |].
  - intros j k Hk. destruct (Ht j k Hk) as (? & ? & ?). repeat split; cbn; [lia..|done].
  - intros j h' [[<- <-]|[Hne Hj]]%lookup_insert_Some; [split; [lia|exact Hok]|].
    destruct (Hh j h' Hj) as [? ?]. split; [lia|done].
  - intros j j' h1 h2 Hne [[<- <-]|[Hne1 H1]]%lookup_insert_Some
      [[<- <-]|[Hne2 H2]]%lookup_insert_Some; [done|by eapply Hcomp|
      by apply compatible_sym; eapply Hcomp|by eapply (Hc j j')].
  - intros j c Hj. destruct (Hce j c Hj) as (? & ? & ? & ?). repeat split; cbn; [lia..|done|done].
Qed.

Lemma inv_drop_holder i w : inv w -> inv (drop_holder i w).
Proof.
  intros [Ht Hu Hh Hc Hce]. split; [exact Ht|exact Hu| | |exact Hce]; cbn.
  - intros j h [_ Hj]%lookup_delete_Some. by apply Hh.
  - intros j j' h1 h2 Hne [_ H1]%lookup_delete_Some [_ H2]%lookup_delete_Some. by apply (Hc j j').
Qed.

(** A cell whose brand and parts are kept, and which moves only unguarded. *)
Lemma inv_set_cell i c c' w :
  inv w -> cells w !! i = Some c -> c_brand c' = c_brand c -> c_parts c' = c_parts c ->
  c_thread c' = c_thread c \/ unguarded i w -> cell_ok w i c' -> inv (set_cell i c' w).
Proof.
  intros [Ht Hu Hh Hc Hce] Hi Hb Hp Hth Hok. split; [exact Ht|exact Hu| |exact Hc|]; cbn.
  - intros j h Hj. destruct (Hh j h Hj) as [? (k & Hk & Hhold)]. split; [done|].
    exists k. split; [done|]. destruct (h_hold h) as [form|d lo hi writes] eqn:Eh; [done|].
    destruct Hhold as (Hwr & dc & Hd & Hbr & Hin & Hpl). split; [done|]. cbn.
    destruct (decide (d = i)) as [->|Hne].
    + rewrite lookup_insert_eq. assert (dc = c) as -> by congruence.
      exists c'. unfold in_parts, guard_placed, part_at in *. rewrite Hb, Hp.
      repeat (split; [naive_solver|]). destruct Hth as [->|Hun]; [done|].
      specialize (Hun j h Hj). cbn in Hun. by rewrite Eh in Hun.
    + rewrite lookup_insert_ne by done. by exists dc.
  - intros j d [[<- <-]|[Hne Hj]]%lookup_insert_Some; [done|by apply Hce].
Qed.

Lemma inv_new_cell c w :
  inv w -> cell_ok (bump w) (next w) c -> inv (bump (set_cell (next w) c w)).
Proof.
  intros Hw Hok. pose proof Hw as [Ht Hu Hh Hc Hce]. split; cbn; [|exact Hu| |exact Hc|].
  - intros j k Hk. destruct (Ht j k Hk) as (? & ? & ?). repeat split; cbn; [lia..|done].
  - intros j h Hj. destruct (Hh j h Hj) as [? (k & Hk & Hhold)]. split; [lia|].
    exists k. split; [done|]. destruct (h_hold h) as [form|d lo hi writes]; [done|].
    destruct Hhold as (Hwr & dc & Hd & Hrest). split; [done|]. exists dc. split; [|done]. cbn.
    rewrite lookup_insert_ne; [done|]. intros <-. apply Hce in Hd as [? _]. lia.
  - intros j d [[<- <-]|[Hne Hj]]%lookup_insert_Some; [done|].
    destruct (Hce j d Hj) as (? & ? & ? & ?). repeat split; cbn; [lia..|done|done].
Qed.

Lemma inv_mint f th w : inv w -> inv (mint f (next w) th w).
Proof.
  intros Hw. pose proof Hw as [Ht Hu Hh Hc Hce]. split; cbn; [| | |exact Hc|].
  - intros j k [[<- <-]|[Hne Hk]]%lookup_insert_Some; [repeat split; cbn; lia|].
    destruct (Ht j k Hk) as (? & ? & ?). repeat split; cbn; [lia..|done].
  - intros t t' k k' [[<- <-]|[Hn1 H1]]%lookup_insert_Some
      [[<- <-]|[Hn2 H2]]%lookup_insert_Some Hb; cbn in Hb; [done| | |by eapply Hu].
    + apply Ht in H2 as (_ & ? & _). lia.
    + apply Ht in H1 as (_ & ? & _). lia.
  - intros j h Hj. destruct (Hh j h Hj) as [? (k & Hk & Hhold)]. split; [lia|].
    exists k. split; [|done]. cbn. rewrite lookup_insert_ne; [done|].
    intros E. rewrite <- E in Hk. apply Ht in Hk as [? _]. lia.
  - intros j c Hj. destruct (Hce j c Hj) as (? & ? & ? & ?). repeat split; cbn; [lia..|done|done].
Qed.

(** A token moves while nothing borrows it. *)
Lemma inv_move_token t k th w :
  inv w -> tokens w !! t = Some k -> t_family k <> ThreadLocalFamily -> unborrowed t w ->
  inv (set_token t (mkToken (t_brand k) (t_family k) th (t_birth k)) w).
Proof.
  intros [Ht Hu Hh Hc Hce] Hk Hf Hun. split; cbn; [| | |exact Hc|exact Hce].
  - intros j k' [[<- <-]|[Hne Hk']]%lookup_insert_Some; [|by apply Ht].
    apply Ht in Hk as (? & ? & _). by repeat split.
  - intros t1 t2 k1 k2 [[<- <-]|[Hn1 H1]]%lookup_insert_Some
      [[<- <-]|[Hn2 H2]]%lookup_insert_Some Hb; cbn in Hb; [done| | |by eapply Hu].
    + by apply (Hu _ _ k k2).
    + by apply (Hu _ _ k1 k).
  - intros j h Hj. destruct (Hh j h Hj) as [? (k' & Hk' & Hhold)]. split; [done|].
    exists k'. split; [|done]. cbn. rewrite lookup_insert_ne; [done|].
    intros ->. by apply (Hun j h Hj).
Qed.

Lemma inv_scope_end b w :
  inv w -> inv (mkWorld (next w)
    (filter (fun '(_, k) => t_brand k <> b) (tokens w))
    (filter (fun '(_, h) => of_brand b w h = false) (holders w))
    (filter (fun '(_, c) => c_brand c <> b) (cells w))).
Proof.
  intros [Ht Hu Hh Hc Hce]. split; cbn.
  - intros j k [Hk _]%map_lookup_filter_Some. by apply Ht.
  - intros t t' k k' [H1 _]%map_lookup_filter_Some [H2 _]%map_lookup_filter_Some. by apply Hu.
  - intros j h [Hj Hb]%map_lookup_filter_Some. destruct (Hh j h Hj) as [? (k & Hk & Hhold)].
    unfold of_brand in Hb. rewrite Hk in Hb. apply bool_decide_eq_false in Hb.
    split; [done|]. exists k. split; [by apply map_lookup_filter_Some|].
    destruct (h_hold h) as [form|d lo hi writes]; [done|].
    destruct Hhold as (Hwr & dc & Hd & Hbr & Hrest). split; [done|]. exists dc.
    split; [|done]. apply map_lookup_filter_Some. split; [done|]. congruence.
  - intros i j h h' Hne [H1 _]%map_lookup_filter_Some [H2 _]%map_lookup_filter_Some.
    by apply (Hc i j).
  - intros j c [Hj _]%map_lookup_filter_Some. by apply Hce.
Qed.

(** ** Lemmas: posture of ranges *)

Lemma forallb_subrange {A} (f : A -> bool) (l : list A) lo hi j x :
  0 <= lo -> forallb f (subrange lo (hi - lo) l) = true -> lo <= j < hi ->
  zget l j = Some x -> f x = true.
Proof.
  intros Hlo Hf Hj Hx. rewrite forallb_forall in Hf. apply Hf, list_elem_of_In.
  assert (zget (subrange lo (hi - lo) l) (j - lo) = Some x) as Hz.
  { rewrite zget_subrange by lia. by replace (lo + (j - lo)) with j by lia. }
  unfold zget in Hz. case_decide; [|done]. by eapply list_elem_of_lookup_2.
Qed.

Lemma part_in_range c j p : part_at c j p -> 0 <= j < zlen (c_parts c).
Proof. intros Hp. apply zget_lt_is_Some. by exists p. Qed.

Lemma cell_send_parts c j p : is_send (cell_ty c) = true -> part_at c j p -> p_send p = true.
Proof.
  unfold is_send. cbn. rewrite andb_true_r. intros Hs Hp.
  eapply forallb_subrange; [|exact Hs|by eapply part_in_range|exact Hp]. done.
Qed.

Lemma cell_sync_parts c j p :
  is_sync (cell_ty c) = true -> part_at c j p -> p_send p = true /\ p_sync p = true.
Proof.
  unfold is_sync. cbn. rewrite andb_true_r. intros [Hs Hy]%andb_true_iff Hp.
  split; (eapply forallb_subrange; [|done|by eapply part_in_range|exact Hp]; done).
Qed.

Lemma guard_send_parts c lo hi writes j p :
  0 <= lo -> is_send (guard_ty c lo hi writes) = true -> lo <= j < hi -> part_at c j p ->
  (if writes then p_send p else p_sync p) = true.
Proof.
  intros Hlo Hs Hj Hp. unfold is_send in Hs. destruct writes; cbn in Hs;
    rewrite andb_true_r in Hs; by eapply forallb_subrange.
Qed.

(** ** Lemmas: every safe operation preserves the invariant *)

Lemma opens_inv i c w h form d :
  inv w -> opens i c w = Some (h, form, d) ->
  holders w !! i = Some h /\ h_hold h = Permit form /\ cells w !! c = Some d /\
  exists k, tokens w !! h_token h = Some k /\ t_brand k = c_brand d /\ may_access (h_thread h) d /\
    h_excl h = bool_decide (form = ByMut).
Proof.
  intros Hw (h' & Hh & (k & Hk & (d' & Hd & Ho)%bind_Some)%bind_Some)%bind_Some.
  destruct (h_hold h') as [form'|] eqn:Hf; [|done].
  apply guard_Some in Ho as [Hb [Ha [= -> -> ->]]%guard_Some].
  destruct (inv_holders w Hw i h Hh) as [_ (k' & Hk' & Hp)]. rewrite Hf in Hp.
  do 3 (split; [done|]).
  exists k. assert (k' = k) as -> by congruence. by destruct Hp as [-> _].
Qed.

(** A guard is well placed wherever the permit is. *)
Lemma range_guard_ok w h k c d lo hi writes :
  inv w -> tokens w !! h_token h = Some k -> cells w !! c = Some d -> t_brand k = c_brand d ->
  may_access (h_thread h) d -> (writes = true -> h_excl h = true) -> in_parts lo hi d ->
  holder_ok w (range_guard h c lo hi writes).
Proof.
  intros Hw Hk Hd Hb Ha Hwr Hin. exists k. split; [done|]. cbn. split; [done|]. exists d.
  do 3 (split; [done|]). intros j p Hj Hp Hpost. cbn. destruct Ha as [->|Hsync]; [done|].
  destruct (cell_sync_parts d j p Hsync Hp). destruct writes; congruence.
Qed.

Lemma all_parts d : in_parts 0 (zlen (c_parts d)) d.
Proof. unfold in_parts. pose proof (zlen_nonneg (c_parts d)). lia. Qed.

(** A sub-range of a guard is a good guard. *)
Lemma sub_guard_ok w h c lo hi lo' hi' writes th :
  holder_ok w h -> h_hold h = Guard c lo hi writes -> lo <= lo' -> lo' <= hi' -> hi' <= hi ->
  th = h_thread h -> holder_ok w (mkHolder (h_token h) (h_excl h) th (Guard c lo' hi' writes)).
Proof.
  intros (k & Hk & Hg) Eh ? ? ? ->. rewrite Eh in Hg. destruct Hg as (Hwr & d & Hd & Hb & Hin & Hpl).
  exists k. split; [done|]. cbn. split; [done|]. exists d. unfold in_parts in *.
  repeat (split; [done || lia|]). intros j p Hj. apply (Hpl j p). lia.
Qed.

(** What is compatible with a guard is compatible with a sub-range of it. *)
Lemma sub_guard_compatible h c lo hi lo' hi' writes h' :
  h_hold h = Guard c lo hi writes -> lo <= lo' -> hi' <= hi -> compatible h h' ->
  compatible (mkHolder (h_token h) (h_excl h) (h_thread h) (Guard c lo' hi' writes)) h'.
Proof.
  intros Eh ? ? Hc He. specialize (Hc He). cbn. rewrite Eh in Hc.
  destruct Hc as [?|Hc]; [by left|right]. destruct (h_hold h'); [done|].
  unfold disjoint_ranges in *. destruct Hc as (? & ? & ? & [?|?]); repeat split; auto; right; lia.
Qed.

(** A [&mut] permit is the only borrow of its token. *)
Lemma permit_mut_alone w i h j h' :
  inv w -> holders w !! i = Some h -> h_hold h = Permit ByMut -> i <> j ->
  holders w !! j = Some h' -> h_token h <> h_token h'.
Proof.
  intros Hw Hi Hf Hne Hj He. destruct (inv_holders w Hw i h Hi) as [_ (k & _ & Hp)].
  rewrite Hf in Hp. destruct Hp as [Hx _].
  destruct (inv_compatible w Hw i j h h' Hne Hi Hj He) as [[? _]|Hc].
  - rewrite bool_decide_true in Hx by done. congruence.
  - by rewrite Hf in Hc.
Qed.

(** Shared borrows are compatible when nothing exclusive is around. *)
Lemma shared_compatible h j h' w :
  h_excl h = false -> not_excl (h_token h) w -> holders w !! j = Some h' -> compatible h h'.
Proof. intros Hs Hn Hj He. left. split; [done|]. apply (Hn j h' Hj). congruence. Qed.

(** Whatever shares its token with a shared borrow is shared. *)
Lemma shared_not_excl w i h :
  inv w -> holders w !! i = Some h -> h_excl h = false -> not_excl (h_token h) w.
Proof.
  intros Hw Hi Hx j h' Hj He. destruct (decide (i = j)) as [<-|Hne]; [congruence|].
  destruct (inv_compatible w Hw i j h h' Hne Hi Hj (eq_sym He)) as [[_ ?]|Hc]; [done|].
  destruct (h_hold h), (h_hold h'); [done..|]. destruct Hc as (? & _). congruence.
Qed.

Lemma unborrowed_compatible w t h j h' :
  unborrowed t w -> h_token h = t -> holders w !! j = Some h' -> compatible h h'.
Proof. intros Hu <- Hj He. by destruct (Hu j h' Hj). Qed.

(** A thread-local token is neither [Send] nor [Sync]. *)
Lemma thread_local_pinned f :
  is_send (token_ty f) = true \/ is_sync (token_ty f) = true -> f <> ThreadLocalFamily.
Proof. by destruct f; intros [|]. Qed.

Lemma permit_pinned f form :
  form <> ByShared -> is_send (permit_ty f form) = true -> f <> ThreadLocalFamily.
Proof. by destruct f, form. Qed.

Section preservation.
Context (w w' : world) (Hw : inv w).

Lemma inv_borrow_token th t : borrow_token th t w = Some w' -> inv w'.
Proof using Hw.
  intros (k & Hk & [Ha [Hn [= <-]]%guard_Some]%guard_Some)%bind_Some.
  apply inv_add_holder; [done| |intros; by eapply shared_compatible].
  exists k. split; [done|]. cbn. do 2 (split; [done|]). intros Hf.
  destruct Ha as [<-|Ha]; [by apply (inv_tokens w Hw t k Hk)|].
  by destruct (thread_local_pinned (t_family k)); [right|].
Qed.

Lemma inv_borrow_token_mut th t : borrow_token_mut th t w = Some w' -> inv w'.
Proof using Hw.
  intros (k & Hk & [<- [Hn [= <-]]%guard_Some]%guard_Some)%bind_Some.
  apply inv_add_holder; [done| |intros; by eapply unborrowed_compatible].
  exists k. split; [done|]. cbn. do 2 (split; [done|]). by apply (inv_tokens w Hw t k Hk).
Qed.

Lemma inv_share th t : share th t w = Some w' -> inv w'.
Proof using Hw.
  intros (k & Hk & [Hs [Ha [Hn [= <-]]%guard_Some]%guard_Some]%guard_Some)%bind_Some.
  apply inv_add_holder; [done| |intros; by eapply shared_compatible].
  exists k. split; [done|]. cbn. do 2 (split; [done|]). intros Hf. by rewrite Hf in Hs.
Qed.

Lemma inv_copy_permit i : copy_permit i w = Some w' -> inv w'.
Proof using Hw.
  intros (h & Hh & (k & Hk & Hc)%bind_Some)%bind_Some.
  destruct (h_hold h) as [form|] eqn:Hf; [|done]. apply guard_Some in Hc as [Hc [= <-]].
  destruct (inv_holders w Hw i h Hh) as [_ Hok].
  assert (h_excl h = false) as Hx.
  { destruct Hok as (k' & _ & Hp). rewrite Hf in Hp. destruct Hp as [-> _]. by destruct form. }
  apply inv_add_holder; [done|done|]. intros j h' Hj. eapply shared_compatible; [done| |done].
  by eapply shared_not_excl.
Qed.

Lemma inv_end_borrow i : end_borrow i w = Some w' -> inv w'.
Proof using Hw. intros (h & _ & [= <-])%bind_Some. by apply inv_drop_holder. Qed.

Lemma inv_send_token t th : send_token t th w = Some w' -> inv w'.
Proof using Hw.
  intros (k & Hk & [Hs [Hn [= <-]]%guard_Some]%guard_Some)%bind_Some.
  apply inv_move_token; [done..| |done]. apply thread_local_pinned. by left.
Qed.

Lemma inv_send_holder i th : send_holder i th w = Some w' -> inv w'.
Proof using Hw.
  intros (h & Hh & (k & Hk & (t & Ht & [Hs [= <-]]%guard_Some)%bind_Some)%bind_Some)%bind_Some.
  destruct (inv_holders w Hw i h Hh) as [Hi (k' & Hk' & Hhold)].
  assert (k' = k) as -> by congruence.
  apply inv_set_holder; [done|done| |].
  - exists k. split; [done|]. cbn. destruct (h_hold h) as [form|c lo hi writes] eqn:Ef.
    + injection Ht as <-. destruct Hhold as (Hx & Hsh & _). do 2 (split; [done|]). intros Hf.
      destruct (decide (form = ByShared)) as [->|Hne]; [|by destruct (permit_pinned _ _ Hne Hs)].
      specialize (Hsh eq_refl). by rewrite Hf in Hsh.
    + apply bind_Some in Ht as (d & Hd & [= <-]). destruct Hhold as (Hwr & d' & Hd' & Hb & Hin & _).
      split; [done|]. exists d. assert (d' = d) as -> by congruence. do 3 (split; [done|]).
      intros j p Hj Hp Hpost. destruct Hin as [? _].
      pose proof (guard_send_parts d lo hi writes j p ltac:(done) Hs Hj Hp). congruence.
  - intros j h' Hne Hj He. apply (inv_compatible w Hw i j h h' Hne Hh Hj He).
Qed.

Lemma inv_send_cell i th : send_cell i th w = Some w' -> inv w'.
Proof using Hw.
  intros (c & Hc & [Hs [Hun [= <-]]%guard_Some]%guard_Some)%bind_Some.
  apply (inv_set_cell i c); [done..|by right|].
  destruct (inv_cells w Hw i c Hc) as (? & ? & ? & Ho). repeat split; [done..|].
  intros j p Hp Hsend. pose proof (cell_send_parts c j p Hs Hp). congruence.
Qed.

Lemma inv_new_cell_op th b parts v : new_cell th b parts v w = Some w' -> inv w'.
Proof using Hw.
  intros [Hb [Hl [= <-]]%guard_Some]%guard_Some. apply inv_new_cell; [done|].
  repeat split; cbn; [lia..|done].
Qed.

(** A permit that opens a cell may lend any range of it, to be written only if
    the permit is a [&mut]. *)
Lemma inv_lend i c h form d lo hi writes :
  opens i c w = Some (h, form, d) -> in_parts lo hi d -> (writes = true -> form = ByMut) ->
  inv (lend i form (range_guard h c lo hi writes) w).
Proof using Hw.
  intros Ho Hin Hwr.
  destruct (opens_inv i c w h form d Hw Ho) as (Hh & Hf & Hd & k & Hk & Hbr & Ha & Hx).
  assert (holder_ok w (range_guard h c lo hi writes)) as Hok.
  { eapply range_guard_ok; [done..| |done]. intros ->. rewrite Hx. by rewrite bool_decide_true by auto. }
  assert (form <> ByMut -> not_excl (h_token h) w) as Hsh.
  { intros Hne. apply (shared_not_excl w i h Hw Hh). by rewrite Hx, bool_decide_false. }
  assert (form <> ByMut -> h_excl (range_guard h c lo hi writes) = false) as Hxg.
  { intros Hne. cbn. by rewrite Hx, bool_decide_false. }
  destruct form; cbn [lend].
  - apply inv_add_holder; [done|done|]. intros j h' Hj.
    by eapply shared_compatible, Hj; [apply Hxg|apply Hsh].
  - apply inv_set_holder; [done|by eapply (inv_holders w Hw)|done|].
    intros j h' Hne Hj He. by destruct (permit_mut_alone w i h j h' Hw Hh Hf Hne Hj).
  - apply inv_add_holder; [done|done|]. intros j h' Hj.
    by eapply shared_compatible, Hj; [apply Hxg|apply Hsh].
Qed.

Lemma inv_cell_borrow i c : cell_borrow i c w = Some w' -> inv w'.
Proof using Hw.
  intros ([[h form] d] & Ho & [= <-])%bind_Some. eapply inv_lend; [done|apply all_parts|done].
Qed.

Lemma inv_cell_borrow_mut i c : cell_borrow_mut i c w = Some w' -> inv w'.
Proof using Hw.
  intros ([[h form] d] & Ho & [-> [= <-]]%guard_Some)%bind_Some.
  eapply (inv_lend i c h ByMut); [done|apply all_parts|done].
Qed.

Lemma inv_slice_borrow i c lo hi : slice_borrow i c lo hi w = Some w' -> inv w'.
Proof using Hw.
  intros ([[h form] d] & Ho & [Hin [= <-]]%guard_Some)%bind_Some. by eapply inv_lend.
Qed.

Lemma inv_slice_borrow_mut i c lo hi : slice_borrow_mut i c lo hi w = Some w' -> inv w'.
Proof using Hw.
  intros ([[h form] d] & Ho & [-> [Hin [= <-]]%guard_Some]%guard_Some)%bind_Some.
  by eapply (inv_lend i c h ByMut).
Qed.

Lemma inv_guard_into i : guard_into i w = Some w' -> inv w'.
Proof using Hw. intros (h & _ & Hg)%bind_Some. by destruct (h_hold h); simplify_eq. Qed.

(** New contents of the right length keep the invariant. *)
Lemma inv_set_value u c d v :
  inv u -> cells u !! c = Some d -> zlen v = zlen (c_value d) ->
  inv (set_cell c (mkCell (c_brand d) (c_thread d) (c_origin d) (c_parts d) v) u).
Proof using.
  intros Hu Hd Hv. apply (inv_set_cell c d); [done..|by left|].
  destruct (inv_cells u Hu c d Hd) as (? & ? & ? & ?). repeat split; cbn; [done..|lia|done].
Qed.

Lemma inv_cell_replace i c v : cell_replace i c v w = Some w' -> inv w'.
Proof using Hw.
  intros ([[h form] d] & Ho & [-> [Hl [= <-]]%guard_Some]%guard_Some)%bind_Some.
  destruct (opens_inv i c w h ByMut d Hw Ho) as (_ & _ & Hd & _).
  apply inv_drop_holder, inv_set_value; [done..|].
  destruct (inv_cells w Hw c d Hd) as (_ & _ & <- & _). done.
Qed.

Lemma inv_cell_get_mut th c j x : cell_get_mut th c j x w = Some w' -> inv w'.
Proof using Hw.
  intros (d & Hd & [_ [_ [Hj [= <-]]%guard_Some]%guard_Some]%guard_Some)%bind_Some.
  apply inv_set_value; [done..|]. apply zlen_zset.
Qed.

Lemma inv_cell_into_inner th c : cell_into_inner th c w = Some w' -> inv w'.
Proof using Hw.
  intros (d & Hd & [_ [Hun [= <-]]%guard_Some]%guard_Some)%bind_Some.
  destruct Hw as [Ht Hu Hh Hc Hce]. split; [exact Ht|exact Hu| |exact Hc|]; cbn.
  - intros i h Hi. destruct (Hh i h Hi) as [? (k & Hk & Hhold)]. split; [done|].
    exists k. split; [done|]. specialize (Hun i h Hi). cbn in Hun.
    destruct (h_hold h) as [|c' lo hi writes]; [done|]. cbn. by rewrite lookup_delete_ne.
  - intros i c' [_ Hi]%lookup_delete_Some. by apply Hce.
Qed.

Lemma inv_guard_deref_mut i j x : guard_deref_mut i j x w = Some w' -> inv w'.
Proof using Hw.
  intros (h & Hh & Hg)%bind_Some. destruct (h_hold h) as [|c lo hi writes]; [done|].
  apply bind_Some in Hg as (d & Hd & [_ [Hj [= <-]]%guard_Some]%guard_Some).
  apply inv_set_value; [done..|]. apply zlen_zset.
Qed.

Lemma inv_guard_map i lo' hi' : guard_map i lo' hi' w = Some w' -> inv w'.
Proof using Hw.
  intros (h & Hh & Hg)%bind_Some. destruct (h_hold h) as [|c lo hi writes] eqn:Ef; [done|].
  apply guard_Some in Hg as [(? & ? & ?) [= <-]].
  destruct (inv_holders w Hw i h Hh) as [Hi Hok].
  apply inv_set_holder; [done|done|by eapply sub_guard_ok|].
  intros j h' Hne Hj. eapply sub_guard_compatible; [done..|]. by eapply (inv_compatible w Hw i j).
Qed.

Lemma inv_guard_map_split i lo1 hi1 lo2 hi2 :
  guard_map_split i lo1 hi1 lo2 hi2 w = Some w' -> inv w'.
Proof using Hw.
  intros (h & Hh & Hg)%bind_Some. destruct (h_hold h) as [|c lo hi writes] eqn:Ef; [done|].
  apply guard_Some in Hg as [(? & ? & ? & ? & ? & ?) [Hdis [= <-]]%guard_Some].
  destruct (inv_holders w Hw i h Hh) as [Hi Hok].
  assert (inv (set_holder i (mkHolder (h_token h) (h_excl h) (h_thread h) (Guard c lo1 hi1 writes)) w))
    as Hw1.
  { apply inv_set_holder; [done|done|by eapply sub_guard_ok|].
    intros j h' Hne Hj. eapply sub_guard_compatible; [done..|]. by eapply (inv_compatible w Hw i j). }
  apply inv_add_holder; [done| |].
  - assert (holder_ok w (mkHolder (h_token h) (h_excl h) (h_thread h) (Guard c lo2 hi2 writes)))
      as (k & ? & ?) by (by eapply sub_guard_ok). by exists k.
  - cbn [holders set_holder]. intros j h' [[<- <-]|[Hne Hj]]%lookup_insert_Some.
    + intros _. destruct (h_excl h) eqn:Hx; [right|by left]. cbn. do 3 (split; [done|]).
      unfold disjoint_ranges in *. destruct writes; [right; destruct (Hdis eq_refl); lia|by left].
    + eapply sub_guard_compatible; [done..|]. by eapply (inv_compatible w Hw i j).
Qed.
End preservation.

Lemma exec_inv o w w' : inv w -> safe o = true -> exec o w = Some w' -> inv w'.
Proof.
  intros Hw Hs He. destruct o; try done; cbn [exec] in He.
  - injection He as <-. by apply inv_mint.
  - by eapply inv_borrow_token.
  - by eapply inv_borrow_token_mut.
  - by eapply inv_share.
  - by eapply inv_copy_permit.
  - by eapply inv_end_borrow.
  - by eapply inv_send_token.
  - by eapply inv_send_holder.
  - by eapply inv_send_cell.
  - by eapply inv_new_cell_op.
  - by eapply inv_cell_borrow.
  - by eapply inv_cell_borrow_mut.
  - by eapply inv_slice_borrow.
  - by eapply inv_slice_borrow_mut.
  - by eapply inv_cell_replace.
  - by eapply inv_cell_get_mut.
  - by eapply inv_cell_into_inner.
  - by eapply inv_guard_deref_mut.
  - by eapply inv_guard_into.
  - by eapply inv_guard_map.
  - by eapply inv_guard_map_split.
  - injection He as <-. by apply inv_scope_end.
Qed.

Lemma reachable_inv w : reachable w -> inv w.
Proof. induction 1; [apply inv_initial|by eapply exec_inv]. Qed.

(** ** Lemmas: what a guard sees *)

(** The operation ends, writes through, or narrows holder [i], or closes the
    scope of a brand. *)
Definition touches (i : positive) (o : op) : bool :=
  match o with
  | EndBorrow j | GuardDerefMut j _ _ | GuardMap j _ _ | GuardMapSplit j _ _ _ _ => bool_decide (j = i)
  | ScopeEnd _ => true
  | _ => false
  end.

(** Same hold, same contents: same view. *)
Lemma deref_ext i w w' h h' c lo hi writes d d' :
  holders w !! i = Some h -> holders w' !! i = Some h' -> h_hold h = Guard c lo hi writes ->
  h_hold h' = h_hold h -> cells w !! c = Some d -> cells w' !! c = Some d' ->
  subrange lo (hi - lo) (c_value d') = subrange lo (hi - lo) (c_value d) ->
  guard_deref i w' = guard_deref i w.
Proof.
  intros Hi Hi' Hh Hh' Hc Hc' Hv. unfold guard_deref. rewrite Hi, Hi'. cbn.
  rewrite Hh', Hh, Hc, Hc'. cbn. by rewrite Hv.
Qed.

(** The cell table changes at [c'] only, and only where [i] does not look. *)
Definition undisturbed (i : positive) (w w' : world) : Prop :=
  (exists h', holders w' !! i = Some h' /\ h_hold <$> holders w !! i = Some (h_hold h')) /\
  forall h c lo hi writes d, holders w !! i = Some h -> h_hold h = Guard c lo hi writes ->
    cells w !! c = Some d ->
    exists d', cells w' !! c = Some d' /\
      subrange lo (hi - lo) (c_value d') = subrange lo (hi - lo) (c_value d).

Lemma undisturbed_trans i w1 w2 w3 : undisturbed i w1 w2 -> undisturbed i w2 w3 -> undisturbed i w1 w3.
Proof.
  intros [(h2 & Hh2 & E2) H2] [(h3 & Hh3 & E3) H3]. rewrite Hh2 in E3. injection E3 as E3.
  split; [exists h3; by rewrite E2, E3|]. intros h c lo hi wr d Hh Eh Hd.
  destruct (H2 h c lo hi wr d Hh Eh Hd) as (d2 & Hd2 & V2). rewrite Hh in E2. injection E2 as E2.
  destruct (H3 h2 c lo hi wr d2 Hh2 ltac:(congruence) Hd2) as (d3 & Hd3 & V3). exists d3. by rewrite V3, V2.
Qed.

Lemma undisturbed_deref i w w' v :
  undisturbed i w w' -> guard_deref i w = Some v -> guard_deref i w' = Some v.
Proof.
  intros [(h' & Hh' & He) Hc] Hv. rewrite <- Hv.
  destruct (holders w !! i) as [h|] eqn:Hi; [|done]. injection He as He.
  unfold guard_deref in Hv. rewrite Hi in Hv. cbn in Hv.
  destruct (h_hold h) as [|c lo hi writes] eqn:Eh; [done|].
  apply bind_Some in Hv as (d & Hd & _). destruct (Hc h c lo hi writes d eq_refl Eh Hd) as (d' & Hd' & Hs).
  eapply deref_ext; [exact Hi|exact Hh'|exact Eh| |exact Hd|exact Hd'|exact Hs]. congruence.
Qed.

Section views.
Context (w : world) (i : positive) (h0 : holder) (Hw : inv w) (Hi : holders w !! i = Some h0).

(** The holder table keeps [i]'s hold; the cells are as they were. *)
Lemma undisturbed_holders w' h' :
  cells w' = cells w -> holders w' !! i = Some h' -> h_hold h' = h_hold h0 -> undisturbed i w w'.
Proof using Hi.
  intros Hc Hh He. split; [exists h'; rewrite Hi; cbn; by rewrite He|].
  intros h c lo hi writes d _ _ Hd. exists d. by rewrite Hc.
Qed.

Lemma undisturbed_add h : undisturbed i w (add_holder h w).
Proof using Hw Hi.
  apply (undisturbed_holders _ h0); [done| |done]. cbn. rewrite lookup_insert_ne; [done|].
  intros E. rewrite <- E in Hi. by eapply holder_fresh.
Qed.

Lemma undisturbed_set j h :
  (j = i -> h_hold h = h_hold h0) -> undisturbed i w (set_holder j h w).
Proof using Hi.
  intros He. destruct (decide (j = i)) as [->|Hne].
  - apply (undisturbed_holders _ h); [done|apply lookup_insert_eq|by apply He].
  - apply (undisturbed_holders _ h0); [done| |done]. cbn. by rewrite lookup_insert_ne.
Qed.

Lemma undisturbed_cells w' c d :
  holders w' !! i = Some h0 ->
  (forall c', c' <> c -> cells w' !! c' = cells w !! c') -> cells w' !! c = Some d ->
  (forall lo hi writes dc, h_hold h0 = Guard c lo hi writes -> cells w !! c = Some dc ->
     subrange lo (hi - lo) (c_value d) = subrange lo (hi - lo) (c_value dc)) ->
  undisturbed i w w'.
Proof using Hi.
  intros Hh Hne Hd Hs. split; [exists h0; by rewrite Hi|].
  intros h c' lo hi writes dc Hh' Eh Hc. assert (h = h0) as -> by congruence.
  destruct (decide (c' = c)) as [->|Hn]; [by exists d; eauto|exists dc; by rewrite Hne].
Qed.

(** The cell is not the one [i] guards. *)
Lemma unguarded_other c lo hi writes : unguarded c w -> h_hold h0 = Guard c lo hi writes -> False.
Proof using Hi. intros Hu Eh. specialize (Hu i h0 Hi). cbn in Hu. by rewrite Eh in Hu. Qed.
End views.

(** Two guards on one cell borrow the same token. *)
Lemma same_cell_same_token w i j h h' c lo hi lo' hi' wr wr' :
  inv w -> holders w !! i = Some h -> holders w !! j = Some h' ->
  h_hold h = Guard c lo hi wr -> h_hold h' = Guard c lo' hi' wr' -> h_token h = h_token h'.
Proof.
  intros Hw Hi Hj Eh Eh'.
  destruct (inv_holders w Hw i h Hi) as [_ (k & Hk & Hg)]. rewrite Eh in Hg.
  destruct (inv_holders w Hw j h' Hj) as [_ (k' & Hk' & Hg')]. rewrite Eh' in Hg'.
  destruct Hg as (_ & d & Hd & Hb & _). destruct Hg' as (_ & d' & Hd' & Hb' & _).
  apply (inv_unique w Hw _ _ k k' Hk Hk'). congruence.
Qed.

(** A writing guard excludes every other borrow of its token but the guards
    split from the same borrow, which do not overlap it. *)
Lemma writer_excludes w i j h h' c lo hi :
  inv w -> i <> j -> holders w !! i = Some h -> holders w !! j = Some h' ->
  h_hold h = Guard c lo hi true -> h_token h = h_token h' ->
  exists lo' hi' wr', h_hold h' = Guard c lo' hi' wr' /\ disjoint_ranges lo hi lo' hi'.
Proof.
  intros Hw Hne Hi Hj Eh Ht. pose proof (inv_compatible w Hw i j h h' Hne Hi Hj Ht) as Hc.
  destruct (inv_holders w Hw i h Hi) as [_ (k & _ & Hg)]. rewrite Eh in Hg, Hc.
  destruct Hg as [Hx _]. specialize (Hx eq_refl).
  destruct Hc as [[? _]|Hc]; [congruence|]. destruct (h_hold h') as [|c' lo' hi' wr']; [done|].
  destruct Hc as (_ & _ & <- & [[? _]|?]); [done|]. by exists lo', hi', wr'.
Qed.

(** Guards on one cell only read, or show parts of it that do not overlap. *)
Lemma same_cell_guards w i j h h' c lo hi writes lo' hi' writes' :
  inv w -> i <> j -> holders w !! i = Some h -> holders w !! j = Some h' ->
  h_hold h = Guard c lo hi writes -> h_hold h' = Guard c lo' hi' writes' ->
  (writes = false /\ writes' = false) \/ disjoint_ranges lo hi lo' hi'.
Proof.
  intros Hw Hne Hi Hj Eh Eh'.
  pose proof (same_cell_same_token _ i j h h' c _ _ _ _ _ _ Hw Hi Hj Eh Eh') as Ht.
  destruct writes; [right|destruct writes'; [right|by left]].
  - destruct (writer_excludes _ i j h h' c lo hi Hw Hne Hi Hj Eh Ht) as (l & r & wr & E & Hdis). congruence.
  - destruct (writer_excludes _ j i h' h c lo' hi' Hw (not_eq_sym Hne) Hj Hi Eh' (eq_sym Ht))
      as (l & r & wr & E & Hdis). unfold disjoint_ranges in *. rewrite Eh in E. injection E as <- <- <-. lia.
Qed.

(** Writing through one guard is not seen through another. *)
Lemma write_elsewhere w i j h0 c0 lo0 hi0 wr0 h c lo hi d x y :
  inv w -> j <> i -> holders w !! i = Some h0 -> h_hold h0 = Guard c0 lo0 hi0 wr0 ->
  holders w !! j = Some h -> h_hold h = Guard c lo hi true -> cells w !! c = Some d ->
  0 <= x < hi - lo ->
  undisturbed i w (set_cell c
    (mkCell (c_brand d) (c_thread d) (c_origin d) (c_parts d) (zset (lo + x) y (c_value d))) w).
Proof.
  intros Hw Hne Hi E Hj Eg Hd Hx.
  eapply (undisturbed_cells w i h0 Hi _ c);
    [done|intros; by apply lookup_insert_ne|apply lookup_insert_eq|].
  intros lo' hi' wr dc E' Hdc. assert (dc = d) as -> by congruence. cbn. rewrite E in E'.
  injection E' as -> -> -> ->.
  destruct (writer_excludes w j i h h0 c lo hi Hw Hne Hj Hi Eg) as (l & r & wr' & E' & Hdis);
    [by eapply same_cell_same_token|]. rewrite E in E'. injection E' as <- <- <-.
  destruct (inv_holders w Hw j h Hj) as [_ (k & _ & Hgh)]. rewrite Eg in Hgh.
  destruct Hgh as (_ & d' & Hd' & _ & Hin & _). assert (d' = d) as -> by congruence.
  destruct (inv_holders w Hw i h0 Hi) as [_ (k0 & _ & Hgi)]. rewrite E in Hgi.
  destruct Hgi as (_ & d0 & Hd0 & _ & Hin0 & _). assert (d0 = d) as -> by congruence.
  destruct (inv_cells w Hw c d Hd) as (_ & _ & Hlen & _). unfold in_parts, disjoint_ranges in *.
  apply subrange_zset_disjoint; lia.
Qed.

(** [replace] with a [&mut] permit finds no guard on the cell. *)
Lemma replace_elsewhere w i j h0 c0 lo0 hi0 wr0 h c d k v :
  inv w -> holders w !! i = Some h0 -> h_hold h0 = Guard c0 lo0 hi0 wr0 ->
  holders w !! j = Some h -> h_hold h = Permit ByMut -> cells w !! c = Some d ->
  tokens w !! h_token h = Some k -> t_brand k = c_brand d ->
  undisturbed i w (drop_holder j
    (set_cell c (mkCell (c_brand d) (c_thread d) (c_origin d) (c_parts d) v) w)).
Proof.
  intros Hw Hi E Hj Hf Hd Hk Hb. assert (j <> i) as Hne by (intros ->; congruence).
  eapply (undisturbed_cells w i h0 Hi _ c);
    [by apply lookup_delete_Some|intros; by apply lookup_insert_ne|apply lookup_insert_eq|].
  intros lo hi wr dc E' _. exfalso.
  destruct (inv_holders w Hw i h0 Hi) as [_ (k0 & Hk0 & Hg)]. rewrite E' in Hg.
  destruct Hg as (_ & d' & Hd' & Hb' & _). assert (d' = d) as -> by congruence.
  apply (permit_mut_alone w j h i h0 Hw Hj Hf Hne Hi). apply (inv_unique w Hw _ _ k k0); congruence.
Qed.

(** The operations of a cell's owner, and those a permit opens. *)
Definition by_owner (o : op) : bool :=
  match o with SendCell _ _ | NewCell _ _ _ _ | CellGetMut _ _ _ _ | CellIntoInner _ _ => true | _ => false end.
Definition by_permit (o : op) : bool :=
  match o with CellBorrow _ _ | CellBorrowMut _ _ | SliceBorrow _ _ _ _ | SliceBorrowMut _ _ _ _
  | CellReplace _ _ _ => true | _ => false end.

Lemma owner_undisturbed w w' i h0 c0 lo0 hi0 wr0 o :
  inv w -> holders w !! i = Some h0 -> h_hold h0 = Guard c0 lo0 hi0 wr0 -> by_owner o = true ->
  exec o w = Some w' -> undisturbed i w w'.
Proof.
  intros Hw Hi Eh Ho He. destruct o; try done; cbn [exec] in He.
  - apply bind_Some in He as (d & Hd & [_ [Hun [= <-]]%guard_Some]%guard_Some).
    eapply (undisturbed_cells w i h0 Hi _ c); [done|intros; by apply lookup_insert_ne|apply lookup_insert_eq|].
    intros lo hi wr dc E. by destruct (unguarded_other w i h0 Hi c lo hi wr Hun E).
  - apply guard_Some in He as [_ [_ [= <-]]%guard_Some].
    eapply (undisturbed_cells w i h0 Hi _ (next w)); [done|intros; by apply lookup_insert_ne|apply lookup_insert_eq|].
    intros lo hi wr dc _ Hc. apply (inv_cells w Hw) in Hc as [? _]. lia.
  - apply bind_Some in He as (d & Hd & [_ [Hun [_ [= <-]]%guard_Some]%guard_Some]%guard_Some).
    eapply (undisturbed_cells w i h0 Hi _ c); [done|intros; by apply lookup_insert_ne|apply lookup_insert_eq|].
    intros lo hi wr dc E. by destruct (unguarded_other w i h0 Hi c lo hi wr Hun E).
  - apply bind_Some in He as (d & Hd & [_ [Hun [= <-]]%guard_Some]%guard_Some).
    split; [exists h0; by rewrite Hi|]. intros h c' lo hi wr dc Hh E Hdc. exists dc. split; [|done].
    cbn. rewrite lookup_delete_ne; [done|]. intros <-. assert (h = h0) as -> by congruence.
    by eapply unguarded_other.
Qed.

(** Lending a guard does not show in another. *)
Lemma lend_undisturbed w i h0 c0 lo0 hi0 wr0 j c h form d g :
  inv w -> holders w !! i = Some h0 -> h_hold h0 = Guard c0 lo0 hi0 wr0 ->
  opens j c w = Some (h, form, d) -> undisturbed i w (lend j form g w).
Proof.
  intros Hw Hi Eh Ho. destruct (opens_inv _ _ _ _ _ _ Hw Ho) as (Hh & Hf & _).
  destruct form; cbn [lend]; [by eapply undisturbed_add| |by eapply undisturbed_add].
  eapply undisturbed_set; [done|]. intros ->. congruence.
Qed.

Lemma permit_undisturbed w w' i h0 c0 lo0 hi0 wr0 o :
  inv w -> holders w !! i = Some h0 -> h_hold h0 = Guard c0 lo0 hi0 wr0 -> by_permit o = true ->
  exec o w = Some w' -> undisturbed i w w'.
Proof.
  intros Hw Hi Eh Hp He. destruct o; try done; cbn [exec] in He.
  - apply bind_Some in He as ([[h form] d] & Ho & [= <-]). by eapply lend_undisturbed.
  - apply bind_Some in He as ([[h form] d] & Ho & [_ [= <-]]%guard_Some). by eapply lend_undisturbed.
  - apply bind_Some in He as ([[h form] d] & Ho & [_ [= <-]]%guard_Some). by eapply lend_undisturbed.
  - apply bind_Some in He as ([[h form] d] & Ho & [_ [_ [= <-]]%guard_Some]%guard_Some).
    by eapply lend_undisturbed.
  - apply bind_Some in He as ([[h form] d] & Ho & [-> [_ [= <-]]%guard_Some]%guard_Some).
    destruct (opens_inv _ _ _ _ _ _ Hw Ho) as (Hh & Hf & Hd & k & Hk & Hbr & _ & _).
    by eapply (replace_elsewhere w i i0).
Qed.

Lemma exec_undisturbed w w' i h0 c0 lo0 hi0 wr0 o :
  inv w -> holders w !! i = Some h0 -> h_hold h0 = Guard c0 lo0 hi0 wr0 -> safe o = true ->
  touches i o = false -> exec o w = Some w' -> undisturbed i w w'.
Proof.
  intros Hw Hi Eh Hs Ht He.
  destruct (by_owner o) eqn:Eo; [by eapply owner_undisturbed|].
  destruct (by_permit o) eqn:Ep; [by eapply permit_undisturbed|].
  destruct o; try done; cbn [exec touches] in He, Ht; try apply bool_decide_eq_false in Ht.
  - injection He as <-. by apply (undisturbed_holders w i h0 Hi _ h0).
  - apply bind_Some in He as (k & Hk & [_ [_ [= <-]]%guard_Some]%guard_Some).
    by eapply undisturbed_add.
  - apply bind_Some in He as (k & Hk & [_ [_ [= <-]]%guard_Some]%guard_Some).
    by eapply undisturbed_add.
  - apply bind_Some in He as (k & Hk & [_ [_ [_ [= <-]]%guard_Some]%guard_Some]%guard_Some).
    by eapply undisturbed_add.
  - apply bind_Some in He as (h & Hh & (k & Hk & Hc)%bind_Some).
    destruct (h_hold h); [|done]. apply guard_Some in Hc as [_ [= <-]]. by eapply undisturbed_add.
  - apply bind_Some in He as (h & _ & [= <-]). apply (undisturbed_holders w i h0 Hi _ h0); [done| |done].
    cbn. by rewrite lookup_delete_ne.
  - apply bind_Some in He as (k & Hk & [_ [_ [= <-]]%guard_Some]%guard_Some).
    by apply (undisturbed_holders w i h0 Hi _ h0).
  - apply bind_Some in He as (h & Hh & (k & Hk & (t & _ & [_ [= <-]]%guard_Some)%bind_Some)%bind_Some).
    eapply undisturbed_set; [done|]. intros ->. cbn. congruence.
  - apply bind_Some in He as (h & Hh & Hg). destruct (h_hold h) as [|c lo hi writes] eqn:Eg; [done|].
    apply bind_Some in Hg as (d & Hd & [-> [Hj [= <-]]%guard_Some]%guard_Some).
    by eapply (write_elsewhere w i i0).
  - apply bind_Some in He as (h & _ & Hg). destruct (h_hold h); [done|]. injection Hg as <-.
    by apply (undisturbed_holders w i h0 Hi _ h0).
  - apply bind_Some in He as (h & Hh & Hg). destruct (h_hold h) as [|c lo' hi' writes] eqn:Eg; [done|].
    apply guard_Some in Hg as [_ [= <-]]. by eapply undisturbed_set.
  - apply bind_Some in He as (h & Hh & Hg). destruct (h_hold h) as [|c lo' hi' writes] eqn:Eg; [done|].
    apply guard_Some in Hg as [_ [_ [= <-]]%guard_Some].
    apply (undisturbed_holders w i h0 Hi _ h0); [done| |done]. cbn.
    rewrite !lookup_insert_ne; [done|done|]. intros E. rewrite <- E in Hi. by eapply holder_fresh.
Qed.

Lemma deref_own_write w w' i j x v :
  inv w -> guard_deref i w = Some v -> guard_deref_mut i j x w = Some w' ->
  guard_deref i w' = Some (zset j x v).
Proof.
  intros Hw Hv (h & Hh & Hg)%bind_Some. unfold guard_deref in *. rewrite Hh in Hv. cbn in Hv.
  destruct (inv_holders w Hw i h Hh) as [_ (k & _ & Hok)].
  destruct (h_hold h) as [|c lo hi writes] eqn:Eh; [done|].
  apply bind_Some in Hg as (d & Hd & [-> [Hj [= <-]]%guard_Some]%guard_Some).
  destruct Hok as (_ & d' & Hd' & _ & Hin & _). assert (d' = d) as -> by congruence.
  destruct (inv_cells w Hw c d Hd) as (_ & _ & Hlen & _). unfold in_parts in Hin.
  rewrite Hd in Hv. injection Hv as <-. cbn. rewrite Hh. cbn. rewrite Eh, lookup_insert_eq. cbn.
  f_equal. rewrite (subrange_zset lo (hi - lo) j x (c_value d)); [done|lia..].
Qed.

(** ** Lemmas: brands that are gone *)

(** The brand was minted and no token of it is left. *)
Definition brand_over (b : positive) (w : world) : Prop :=
  (b < next w)%positive /\ map_Forall (fun _ k => t_brand k <> b) (tokens w).

(** Takes a successful operation apart. *)
Ltac exec_inv_tac He :=
  repeat first
    [ progress unfold lend in He
    | apply guard_Some in He as [? He]
    | apply bind_Some in He as (? & ? & He)
    | match type of He with
      | context [let (_, _) := ?p in _] => destruct p
      | context [match ?m with _ => _ end] => destruct m
      end ]; try discriminate He; injection He as <-.

Lemma exec_next o w w' : exec o w = Some w' -> (next w <= next w')%positive.
Proof. destruct o; cbn; intros He; exec_inv_tac He; cbn; lia. Qed.

(** The brand of a token is fresh or was there before. *)
Lemma exec_tokens o w w' t k' :
  safe o = true -> exec o w = Some w' -> tokens w' !! t = Some k' ->
  t_brand k' = next w \/ exists t0 k, tokens w !! t0 = Some k /\ t_brand k = t_brand k'.
Proof.
  destruct o; cbn; intros Hs He Hk; try done; exec_inv_tac He; cbn in Hk;
    try (right; by exists t, k').
  - apply lookup_insert_Some in Hk as [[_ <-]|[_ Hk]]; [by left|right; by exists t, k'].
  - apply lookup_insert_Some in Hk as [[_ <-]|[_ Hk]]; [right; by eexists _, _|right; by exists t, k'].
  - apply map_lookup_filter_Some in Hk as [Hk _]. right. by exists t, k'.
Qed.

Lemma brand_over_step o w w' b :
  safe o = true -> exec o w = Some w' -> brand_over b w -> brand_over b w'.
Proof.
  intros Hs He [Hlt Hb]. split; [pose proof (exec_next o w w' He); lia|].
  intros t k' Hk. destruct (exec_tokens o w w' t k' Hs He Hk) as [->|(t0 & k & H0 & <-)];
    [lia|by apply (Hb t0 k)].
Qed.

Lemma run_cons o ops w : run (o :: ops) w = exec o w ≫= run ops.
Proof.
  unfold run. cbn. destruct (exec o w) as [w1|]; [done|]. cbn.
  induction ops as [|o' ops IH]; [done|exact IH].
Qed.

Lemma brand_over_run ops w w' b :
  forallb safe ops = true -> run ops w = Some w' -> brand_over b w -> brand_over b w'.
Proof.
  revert w. induction ops as [|o ops IH]; intros w Hs Hr Hb; [by injection Hr as <-|].
  apply andb_true_iff in Hs as [Ho Hs]. rewrite run_cons in Hr.
  apply bind_Some in Hr as (w1 & H1 & Hr). by eapply IH; [| |eapply brand_over_step].
Qed.

Lemma run_reachable ops w w' :
  reachable w -> forallb safe ops = true -> run ops w = Some w' -> reachable w'.
Proof.
  revert w. induction ops as [|o ops IH]; intros w Hw Hs Hr; [by injection Hr as <-|].
  apply andb_true_iff in Hs as [Ho Hs]. rewrite run_cons in Hr.
  apply bind_Some in Hr as (w1 & H1 & Hr). by eapply IH; [eapply reach_step| |].
Qed.

(** ** Properties *)

(** C1: The brand-wide exclusion, from which the library's name for it
    ([T xor &mut T xor &T]) comes: in every state a safe program can reach, a
    live [MelinoeMut] excludes every other borrow of its brand, on all cells and
    all threads; the only others there can be are the [MelinoeMut]s split from
    the same one, on the same cell and not overlapping it. *)
Theorem brand_xor (w : world) (i j : positive) (h h' : holder) (k k' : token)
    (c : positive) (lo hi : Z) :
  reachable w -> i <> j -> holders w !! i = Some h -> holders w !! j = Some h' ->
  tokens w !! h_token h = Some k -> tokens w !! h_token h' = Some k' ->
  t_brand k = t_brand k' -> h_hold h = Guard c lo hi true ->
  exists lo' hi' writes, h_hold h' = Guard c lo' hi' writes /\ disjoint_ranges lo hi lo' hi'.
Proof.
  intros Hr Hne Hi Hj Hk Hk' Hb Eh. pose proof (reachable_inv w Hr) as Hw.
  eapply (writer_excludes w i j h h' c lo hi); [done..|]. by eapply (inv_unique w Hw).
Qed.

(** A program: a cell of three components, written through the two halves of a
    split guard, one of them on another thread. *)
Definition u32_parts : list payload := replicate 3 (mkPayload true true true 4 4).
Definition split_program : list op :=
  [WithFreshToken ExclusiveFamily 1; NewCell 1 1 u32_parts [7; 8; 9]; BorrowTokenMut 1 1;
   CellBorrowMut 3 2; GuardMapSplit 3 0 1 1 3; SendHolder 4 2; GuardDerefMut 4 1 5].
Definition run_from_start (ops : list op) : world :=
  match run ops initial_world with Some w => w | None => initial_world end.

Lemma brand_xor_witness :
  let w := run_from_start split_program in
  guard_deref 4 w = Some [8; 5] /\
  exists lo' hi' writes, h_hold (mkHolder 1 true 2 (Guard 2 1 3 true)) = Guard 2 lo' hi' writes /\
    disjoint_ranges 0 1 lo' hi'.
Proof.
  split; [reflexivity|].
  apply (brand_xor (run_from_start split_program) 3 4 (mkHolder 1 true 1 (Guard 2 0 1 true))
    (mkHolder 1 true 2 (Guard 2 1 3 true)) (mkToken 1 ExclusiveFamily 1 1)
    (mkToken 1 ExclusiveFamily 1 1) 2 0 1);
    [|discriminate|reflexivity..].
  apply (run_reachable split_program initial_world); [apply reach_init|reflexivity..].
Defined.

(** What a guard sees is its own: no operation of any thread, other than
    one on the guard itself, changes the contents it shows (so a [MelinoeRef]
    is constant), and a write through a [MelinoeMut] changes exactly the
    component written. *)
Theorem guard_view_stable (w w' : world) (i : positive) (v : list Z) :
  reachable w -> guard_deref i w = Some v ->
  (forall o, safe o = true -> touches i o = false -> exec o w = Some w' -> guard_deref i w' = Some v) /\
  (forall j x, guard_deref_mut i j x w = Some w' -> guard_deref i w' = Some (zset j x v)).
Proof.
  intros Hr Hv. pose proof (reachable_inv w Hr) as Hw. split.
  - intros o Hs Ht He. pose proof Hv as Hv'. unfold guard_deref in Hv'.
    apply bind_Some in Hv' as (h & Hh & Hd). destruct (h_hold h) as [|c lo hi wr] eqn:E; [done|].
    eapply undisturbed_deref; [by eapply exec_undisturbed|done].
  - intros j x Hx. by eapply deref_own_write.
Qed.

Lemma guard_view_stable_witness :
  guard_deref 3 (run_from_start split_program) = Some [7] /\
  guard_deref 3 (run_from_start (split_program ++ [GuardDerefMut 4 0 6])) = Some [7].
Proof.
  split; [reflexivity|].
  destruct (guard_view_stable (run_from_start split_program)
    (run_from_start (split_program ++ [GuardDerefMut 4 0 6])) 3 [7]) as [Hother _];
    [apply (run_reachable split_program initial_world); [apply reach_init|reflexivity..]
    |reflexivity|].
  by apply (Hother (GuardDerefMut 4 0 6)).
Defined.

(** A thread-local capability never leaves its thread: the token stays
    where it was minted, and every permit borrowed from it is there too. *)
Theorem thread_local_confined (w : world) (t : positive) (k : token) :
  reachable w -> tokens w !! t = Some k -> t_family k = ThreadLocalFamily ->
  t_thread k = t_birth k /\
  forall i h form, holders w !! i = Some h -> h_token h = t -> h_hold h = Permit form ->
    h_thread h = t_birth k.
Proof.
  intros Hr Hk Hf. pose proof (reachable_inv w Hr) as Hw. split.
  - by apply (inv_tokens w Hw t k Hk).
  - intros i h form Hi <- E. destruct (inv_holders w Hw i h Hi) as [_ (k' & Hk' & Hp)].
    assert (k' = k) as -> by congruence. rewrite E in Hp. by apply Hp.
Qed.

Definition local_program : list op :=
  [WithFreshToken ThreadLocalFamily 4; BorrowToken 4 1; CopyPermit 2].

Lemma thread_local_confined_witness :
  t_thread (mkToken 1 ThreadLocalFamily 4 4) = 4%positive.
Proof.
  apply (thread_local_confined (run_from_start local_program) 1);
    [|reflexivity|reflexivity].
  apply (run_reachable local_program initial_world); [apply reach_init|reflexivity..].
Defined.

(** C35: Data-race freedom of the payloads: a component that is not [Send] is
    only ever written on the thread that created its cell, and two live guards
    on a component that is not [Sync] are on the same thread. *)
Theorem payload_confined (w : world) (i : positive) (h : holder) (c : positive) (lo hi : Z)
    (writes : bool) (d : cell) (x : Z) (p : payload) :
  reachable w -> holders w !! i = Some h -> h_hold h = Guard c lo hi writes ->
  cells w !! c = Some d -> lo <= x < hi -> part_at d x p ->
  (writes = true -> p_send p = false -> h_thread h = c_origin d) /\
  (p_sync p = false -> forall j h' lo' hi' writes', holders w !! j = Some h' ->
     h_hold h' = Guard c lo' hi' writes' -> lo' <= x < hi' -> h_thread h' = h_thread h).
Proof.
  intros Hr Hi E Hd Hx Hp. pose proof (reachable_inv w Hr) as Hw.
  destruct (inv_holders w Hw i h Hi) as [_ (k & _ & Hg)]. rewrite E in Hg.
  destruct Hg as (_ & d1 & Hd1 & _ & _ & Hpl). assert (d1 = d) as -> by congruence.
  split.
  - intros -> Hs. rewrite (Hpl x p Hx Hp Hs). by apply (inv_cells w Hw c d Hd) with x p.
  - intros Hs j h' lo' hi' writes' Hj E' Hx'. destruct (decide (i = j)) as [<-|Hne]; [congruence|].
    assert (h_token h = h_token h') as Ht by (by eapply (same_cell_same_token w i j)).
    destruct writes.
    + destruct (writer_excludes w i j h h' c lo hi Hw Hne Hi Hj E Ht) as (l & r & wr & E'' & Hdis).
      rewrite E' in E''. injection E'' as <- <- <-. unfold disjoint_ranges in Hdis. lia.
    + destruct writes'.
      * destruct (writer_excludes w j i h' h c lo' hi' Hw (not_eq_sym Hne) Hj Hi E' (eq_sym Ht))
          as (l & r & wr & E'' & Hdis).
        rewrite E in E''. injection E'' as <- <- <-. unfold disjoint_ranges in Hdis. lia.
      * destruct (inv_holders w Hw j h' Hj) as [_ (k' & _ & Hg')]. rewrite E' in Hg'.
        destruct Hg' as (_ & d2 & Hd2 & _ & _ & Hpl'). assert (d2 = d) as -> by congruence.
        rewrite (Hpl x p Hx Hp Hs). by apply (Hpl' x p Hx' Hp Hs).
Qed.

(** A cell whose second component is neither [Send] nor [Sync]. *)
Definition mixed_parts : list payload :=
  [mkPayload true true true 4 4; mkPayload false false false 8 8].
Definition mixed_program : list op :=
  [WithFreshToken ExclusiveFamily 6; NewCell 6 1 mixed_parts [1; 2]; BorrowTokenMut 6 1;
   CellBorrowMut 3 2; GuardMapSplit 3 1 2 0 1; SendHolder 4 7].

Lemma payload_confined_witness :
  h_thread (mkHolder 1 true 6 (Guard 2 1 2 true)) = c_origin (mkCell 1 6 6 mixed_parts [1; 2]).
Proof.
  destruct (payload_confined (run_from_start mixed_program) 3
    (mkHolder 1 true 6 (Guard 2 1 2 true)) 2 1 2 true (mkCell 1 6 6 mixed_parts [1; 2]) 1
    (mkPayload false false false 8 8)) as [Hw _];
    [|reflexivity..|lia|reflexivity|by apply Hw].
  apply (run_reachable mixed_program initial_world); [apply reach_init|reflexivity..].
Defined.

(** A brand cannot be had back: once the scope of a brand is over, no safe
    continuation ever holds a token of it again, and no permit opens a cell of
    it. *)
Theorem brand_is_generative (w w1 w2 : world) (b : positive) (ops : list op) :
  reachable w -> (b < next w)%positive -> scope_end b w = Some w1 ->
  forallb safe ops = true -> run ops w1 = Some w2 ->
  (forall t k, tokens w2 !! t = Some k -> t_brand k <> b) /\
  (forall i c h form d, opens i c w2 = Some (h, form, d) -> c_brand d <> b).
Proof.
  intros Hr Hb [= <-] Hs Hrun.
  assert (brand_over b w2) as [_ Hover].
  { eapply brand_over_run; [exact Hs|exact Hrun|]. split; [done|].
    by intros t k [_ Hk]%map_lookup_filter_Some. }
  split; [exact Hover|]. intros i c h form d Ho.
  apply bind_Some in Ho as (h' & Hh & (k & Hk & (d' & Hd & Ho)%bind_Some)%bind_Some).
  destruct (h_hold h'); [|done]. apply guard_Some in Ho as [Hbr [_ [= -> -> ->]]%guard_Some].
  rewrite <- Hbr. by apply (Hover (h_token h)).
Qed.

Lemma brand_is_generative_witness :
  exists k, tokens (run_from_start
      (split_program ++ [ScopeEnd 1; WithFreshToken SyncRegionFamily 1])) !! 5%positive = Some k /\
    t_brand k <> 1%positive.
Proof.
  destruct (brand_is_generative (run_from_start split_program)
    (run_from_start (split_program ++ [ScopeEnd 1]))
    (run_from_start (split_program ++ [ScopeEnd 1; WithFreshToken SyncRegionFamily 1])) 1
    [WithFreshToken SyncRegionFamily 1]) as [Hover _]; [|reflexivity..|].
  - apply (run_reachable split_program initial_world); [apply reach_init|reflexivity..].
  - eexists. split; [reflexivity|]. apply (Hover 5%positive). reflexivity.
Defined.

(** The contract of [new_unchecked] is needed: with one call that mints a
    second token of a brand, two overlapping [MelinoeMut]s on one cell, on two
    threads, are live at once. *)
Theorem new_unchecked_breaks_xor :
  exists ops w h h', run ops initial_world = Some w /\
    count_occ bool_dec (map safe ops) false = 1%nat /\
    holders w !! 5%positive = Some h /\ holders w !! 6%positive = Some h' /\
    h_hold h = Guard 2 0 3 true /\ h_hold h' = Guard 2 0 3 true /\ h_thread h <> h_thread h'.
Proof.
  exists [WithFreshToken ExclusiveFamily 1; NewCell 1 1 u32_parts [7; 8; 9];
    NewUnchecked ExclusiveFamily 1 1; SendToken 3 2; WithFreshToken ExclusiveFamily 1;
    BorrowTokenMut 1 1; BorrowTokenMut 2 3; CellBorrowMut 5 2; CellBorrowMut 6 2].
  eexists _, _, _. split; [vm_compute; reflexivity|]. repeat split; discriminate.
Qed.

(** The confinement of a thread-local brand is that of its token, not of
    its data: a [MelinoeMut] obtained with a [ThreadLocalToken] may be on another
    thread than the token, and a cell of the brand may be sent away. *)
Theorem thread_local_data_travels :
  exists w h k d, reachable w /\ holders w !! 3%positive = Some h /\
    h_hold h = Guard 2 0 3 true /\ tokens w !! h_token h = Some k /\
    t_family k = ThreadLocalFamily /\ h_thread h <> t_birth k /\
    cells w !! 4%positive = Some d /\ c_brand d = t_brand k /\ c_thread d <> t_birth k.
Proof.
  set (ops := [WithFreshToken ThreadLocalFamily 1; NewCell 1 1 u32_parts [7; 8; 9];
    BorrowTokenMut 1 1; CellBorrowMut 3 2; SendHolder 3 2; NewCell 1 1 u32_parts [0; 0; 0];
    SendCell 4 2]).
  exists (run_from_start ops). eexists _, _, _.
  split; [apply (run_reachable ops initial_world); [apply reach_init|reflexivity..]|].
  do 4 (split; [reflexivity|]). split; [discriminate|]. do 2 (split; [reflexivity|]). discriminate.
Qed.
