(* ===== verification/Reborrow.v ===== *)
(** * Permits that are parameters: reborrows ([token/capability.rs])

    A function that takes [token: &mut ExclusiveToken] (as those of
    [examples/book_conditional_atomics.rs] and [examples/codegen.rs] do) presents
    its permit many times: each use reborrows it, exclusively ([&mut *token]),
    shared ([&*token]) or through [token.share()], and the permit is usable again
    when that borrow, and all that was made from it, is over.  [Token] moves a
    [&mut] permit into what it lends; here a permit is put aside while its reborrow
    lives, one above the other, and comes back, under a new name.

    Main results: what programs with reborrows do to tokens, borrows and cells is
    what programs without them can do, so everything [Token] shows holds of them;
    a permit comes back only as the single borrow of its token, and while one is
    aside its owner cannot touch the token. *)
From S2P Require Import Prelude AutoTraits Token.
From stdpp Require Import base numbers list gmap.
Local Open Scope Z_scope.

(** The permits put aside, by token: the threads they are on, the innermost first. *)
Record bmachine : Type := mkBM {
  base : world;
  aside : gmap positive (list positive)
}.

Definition initial_bmachine : bmachine := mkBM initial_world ∅.

(** ** Code *)

Definition permits_aside (t : positive) (m : bmachine) : list positive := default [] (aside m !! t).

(** The new permit of form [form] on the token and thread of [h]. *)
Definition permit_like (h : holder) (form : permit_form) : holder :=
  mkHolder (h_token h) (bool_decide (form = ByMut)) (h_thread h) (Permit form).

(** [&mut *p], [&*p], [p.share()] of a permit [p: &mut Token]. *)
Definition reborrow (i : positive) (form : permit_form) (m : bmachine) : option bmachine :=
  h ← holders (base m) !! i;
  k ← tokens (base m) !! h_token h;
  guard (h_hold h = Permit ByMut);;
  guard (form = ByShared -> has_share (t_family k) = true);;
  Some (mkBM (add_holder (permit_like h form) (drop_holder i (base m)))
             (<[h_token h := h_thread h :: permits_aside (h_token h) m]> (aside m))).

(** [r.share()] of a permit [r: &Token]. *)
Definition share_permit (i : positive) (m : bmachine) : option bmachine :=
  h ← holders (base m) !! i;
  guard (h_hold h = Permit ByRef);;
  w ← share (h_thread h) (h_token h) (base m);
  Some (mkBM w (aside m)).

(** The permit put aside last on token [t] is used again: all that came from its
    reborrow is over. *)
Definition resume (t : positive) (m : bmachine) : option bmachine :=
  match aside m !! t with
  | Some (th :: rest) =>
      guard (unborrowed t (base m));;
      Some (mkBM (add_holder (mkHolder t true th (Permit ByMut)) (base m)) (<[t := rest]> (aside m)))
  | _ => None
  end.

(** It is not: its own borrow ends with its reborrow's. *)
Definition abandon (t : positive) (m : bmachine) : option bmachine :=
  match aside m !! t with
  | Some (_ :: rest) => Some (mkBM (base m) (<[t := rest]> (aside m)))
  | _ => None
  end.

(** The token an operation of its owner is on. *)
Definition of_owner (o : op) : option positive :=
  match o with
  | BorrowToken _ t | BorrowTokenMut _ t | Share _ t | SendToken t _ => Some t
  | _ => None
  end.

(** A token lent to a permit that is aside is not its owner's to use. *)
Definition plain_op (o : op) (m : bmachine) : option bmachine :=
  guard (of_owner o ≫= (fun t => head (permits_aside t m)) = None);;
  w ← exec o (base m);
  Some (mkBM w (filter (fun '(t, _) => is_Some (tokens w !! t)) (aside m))).

Inductive bop : Type :=
| BOp (o : op)
| BReborrow (i : positive) (form : permit_form)
| BShare (i : positive)
| BResume (t : positive)
| BAbandon (t : positive).

Definition bexec (o : bop) : bmachine -> option bmachine :=
  match o with
  | BOp o => plain_op o
  | BReborrow i form => reborrow i form
  | BShare i => share_permit i
  | BResume t => resume t
  | BAbandon t => abandon t
  end.

Definition bsafe (o : bop) : bool := match o with BOp o => safe o | _ => true end.

Definition brun (ops : list bop) (m : bmachine) : option bmachine :=
  foldl (fun m o => m ≫= bexec o) (Some m) ops.

Definition breachable (m : bmachine) : Prop :=
  exists ops, forallb bsafe ops = true /\ brun ops initial_bmachine = Some m.

(** ** Lemmas: the same without reborrows *)

(** The thread of a permit of token [k]. *)
Definition at_home (k : token) (th : positive) : Prop := t_family k = ThreadLocalFamily -> th = t_birth k.

Record binv (m : bmachine) : Prop := {
  binv_base : inv (base m);
  binv_aside t ths : aside m !! t = Some ths ->
    exists k, tokens (base m) !! t = Some k /\ Forall (at_home k) ths
}.

(** What the owner does for a permit of form [form]: it borrows the token and, if
    need be, sends the borrow. *)
Definition owner_borrow (th t : positive) (form : permit_form) : op :=
  match form with ByMut => BorrowTokenMut th t | ByRef => BorrowToken th t | ByShared => Share th t end.

Definition by_owner_path (k : token) (t th i : positive) (form : permit_form) : list op :=
  owner_borrow (t_thread k) t form :: (if decide (th = t_thread k) then [] else [SendHolder i th]).

Lemma run_app ops1 ops2 w : run (ops1 ++ ops2) w = run ops1 w ≫= run ops2.
Proof.
  revert w. induction ops1 as [|o ops1 IH]; intros w; [done|]. cbn [app]. rewrite !run_cons.
  destruct (exec o w); [apply IH|done].
Qed.

(** A token nothing borrows can be borrowed by its owner for any thread its type
    lets a permit be on. *)
Lemma owner_path_run w t k th form :
  tokens w !! t = Some k -> unborrowed t w -> (t_family k = ThreadLocalFamily -> th = t_thread k) ->
  (form = ByShared -> has_share (t_family k) = true) ->
  run (by_owner_path k t th (next w) form) w =
    Some (add_holder (mkHolder t (bool_decide (form = ByMut)) th (Permit form)) w).
Proof.
  intros Hk Hu Hth Hsh. unfold by_owner_path. rewrite run_cons.
  assert (not_excl t w) as Hne by (intros j h Hj Ht; by destruct (Hu j h Hj)).
  assert (exec (owner_borrow (t_thread k) t form) w =
    Some (add_holder (mkHolder t (bool_decide (form = ByMut)) (t_thread k) (Permit form)) w)) as ->.
  { destruct form; cbn; unfold borrow_token, borrow_token_mut, share; rewrite Hk; cbn [mbind option_bind];
      rewrite ?(option_guard_True _ _ (Hsh eq_refl)); cbn [mbind option_bind];
      rewrite ?option_guard_True by (done || by left); done. }
  cbn [mbind option_bind]. destruct (decide (th = t_thread k)) as [->|Hne']; [done|].
  rewrite run_cons. cbn [exec]. unfold send_holder. cbn [holders add_holder bump set_holder tokens].
  rewrite lookup_insert_eq. cbn [mbind option_bind h_token]. rewrite Hk. cbn [mbind option_bind h_hold].
  rewrite option_guard_True; [|destruct (t_family k) eqn:Ef; [by destruct form..|by destruct Hne'; apply Hth]].
  cbn. unfold add_holder, set_holder, bump. cbn. by rewrite insert_insert_eq.
Qed.

Lemma safe_owner_path k t th i form : forallb safe (by_owner_path k t th i form) = true.
Proof. unfold by_owner_path. destruct form; by case_decide. Qed.

(** Tokens stay of their family and where they were born. *)
Lemma exec_token_kept o w w' t k k' :
  inv w -> exec o w = Some w' -> tokens w !! t = Some k -> tokens w' !! t = Some k' ->
  t_family k' = t_family k /\ t_birth k' = t_birth k.
Proof.
  intros Hw He Hk Hk'. assert (t <> next w) as Hn by (intros ->; destruct (inv_tokens w Hw _ k Hk); lia).
  destruct o; cbn in He; try (exec_inv_tac He; cbn in Hk'; simplify_eq; done).
  - injection He as <-. cbn in Hk'. rewrite lookup_insert_ne in Hk' by done. by simplify_eq.
  - exec_inv_tac He. cbn in Hk'. apply lookup_insert_Some in Hk' as [[<- <-]|[_ Hk']]; by simplify_eq.
  - injection He as <-. cbn in Hk'. apply map_lookup_filter_Some in Hk' as [Hk' _]. by simplify_eq.
  - injection He as <-. cbn in Hk'. rewrite lookup_insert_ne in Hk' by done. by simplify_eq.
Qed.

(** What a step does to the world, by operations of [Token]. *)
Definition by_token_ops (w w' : world) : Prop :=
  exists ops, forallb safe ops = true /\ run ops w = Some w'.

(** A permit [&mut] is the only borrow of its token. *)
Lemma permit_dropped w i h :
  inv w -> holders w !! i = Some h -> h_hold h = Permit ByMut -> unborrowed (h_token h) (drop_holder i w).
Proof.
  intros Hw Hi Hf j h' Hj Ht. cbn in Hj. apply lookup_delete_Some in Hj as [Hne Hj].
  by apply (permit_mut_alone w i h j h' Hw Hi Hf Hne Hj).
Qed.

Lemma permit_home w i h k :
  inv w -> holders w !! i = Some h -> h_hold h = Permit ByMut -> tokens w !! h_token h = Some k ->
  at_home k (h_thread h) /\ (t_family k = ThreadLocalFamily -> t_thread k = t_birth k).
Proof.
  intros Hw Hi Hf Hk. destruct (inv_holders w Hw i h Hi) as [_ (k' & Hk' & Hp)]. rewrite Hf in Hp.
  assert (k' = k) as -> by congruence. destruct (inv_tokens w Hw _ k Hk) as (_ & _ & Ht).
  split; [exact (proj2 (proj2 Hp))|done].
Qed.

Section step.
Context (m m' : bmachine) (Hm : binv m).

Lemma reborrow_simulated i form : reborrow i form m = Some m' -> by_token_ops (base m) (base m').
Proof using Hm.
  intros (h & Hi & (k & Hk & [Hf [Hsh [= <-]]%guard_Some]%guard_Some)%bind_Some)%bind_Some.
  destruct (permit_home _ i h k (binv_base m Hm) Hi Hf Hk) as [Hth Htk].
  exists (EndBorrow i :: by_owner_path k (h_token h) (h_thread h) (next (base m)) form).
  split; [apply safe_owner_path|]. rewrite run_cons. cbn [exec]. unfold end_borrow. rewrite Hi. cbn [mbind option_bind base].
  apply (owner_path_run (drop_holder i (base m))); [done|by apply permit_dropped; [apply Hm|..]| |done].
  intros Ef. rewrite (Hth Ef), (Htk Ef). done.
Qed.

Lemma share_simulated i : share_permit i m = Some m' -> by_token_ops (base m) (base m').
Proof using.
  intros (h & Hi & [_ (w & Hw & [= <-])%bind_Some]%guard_Some)%bind_Some.
  exists [Share (h_thread h) (h_token h)]. split; [done|]. rewrite run_cons. cbn [exec]. by rewrite Hw.
Qed.

Lemma resume_simulated t : resume t m = Some m' -> by_token_ops (base m) (base m').
Proof using Hm.
  unfold resume. destruct (aside m !! t) as [[|th rest]|] eqn:Ea; [done| |done].
  intros [Hu [= <-]]%guard_Some. destruct (binv_aside m Hm t _ Ea) as (k & Hk & [Hth _]%Forall_cons).
  destruct (inv_tokens _ (binv_base m Hm) t k Hk) as (_ & _ & Htk).
  exists (by_owner_path k t th (next (base m)) ByMut). split; [apply safe_owner_path|].
  apply owner_path_run; [done|done| |done]. intros Ef. by rewrite (Hth Ef), (Htk Ef).
Qed.

Lemma bexec_simulated o : bsafe o = true -> bexec o m = Some m' -> by_token_ops (base m) (base m').
Proof using Hm.
  intros Hs. destruct o as [o|i form|i|t|t]; cbn [bexec].
  - intros [_ (w & Hw & [= <-])%bind_Some]%guard_Some. exists [o]. split; [by cbn in *; rewrite Hs|].
    rewrite run_cons, Hw. done.
  - apply reborrow_simulated.
  - apply share_simulated.
  - apply resume_simulated.
  - unfold abandon. destruct (aside m !! t) as [[|th rest]|]; [done| |done]. intros [= <-]. by exists [].
Qed.

(** The invariant. *)
Lemma inv_by_token_ops w w' : inv w -> by_token_ops w w' -> inv w'.
Proof using.
  intros Hw (ops & Hs & Hr). revert w Hw Hr. induction ops as [|o ops IH]; intros w Hw Hr; [by injection Hr as <-|].
  apply andb_true_iff in Hs as [Ho Hs]. rewrite run_cons in Hr. apply bind_Some in Hr as (w1 & H1 & Hr).
  by eapply (IH Hs w1); [eapply exec_inv|].
Qed.

Lemma binv_bexec o : bsafe o = true -> bexec o m = Some m' -> binv m'.
Proof using Hm.
  intros Hs He. pose proof (bexec_simulated o Hs He) as Hsim.
  split; [by eapply inv_by_token_ops; [apply Hm|]|]. intros t ths Ht.
  destruct o as [o|i form|i|t'|t']; cbn [bexec] in He.
  - apply guard_Some in He as [_ (w & Hw & [= <-])%bind_Some]. cbn in *.
    apply map_lookup_filter_Some in Ht as [Ht [k' Hk']]. destruct (binv_aside m Hm t ths Ht) as (k & Hk & Hths).
    destruct (exec_token_kept o _ w t k k' (binv_base m Hm) Hw Hk Hk') as [Ef Eb]. exists k'. split; [done|].
    unfold at_home in *. by rewrite Ef, Eb.
  - apply bind_Some in He as (h & Hi & (k & Hk & [Hf [_ [= <-]]%guard_Some]%guard_Some)%bind_Some). cbn in *.
    apply lookup_insert_Some in Ht as [[<- <-]|[_ Ht]]; [|by apply (binv_aside m Hm)]. exists k. split; [done|].
    apply Forall_cons. split; [by eapply (permit_home _ i h k (binv_base m Hm))|].
    unfold permits_aside. destruct (aside m !! h_token h) as [l|] eqn:E; [|by constructor].
    destruct (binv_aside m Hm _ l E) as (k' & Hk' & Hl). by assert (k' = k) as -> by congruence.
  - apply bind_Some in He as (h & Hi & [_ (w & Hw & [= <-])%bind_Some]%guard_Some). cbn in *.
    assert (tokens w = tokens (base m)) as -> by (unfold share in Hw; by exec_inv_tac Hw). by apply (binv_aside m Hm).
  - unfold resume in He. destruct (aside m !! t') as [[|th rest]|] eqn:Ea; [done| |done].
    apply guard_Some in He as [_ [= <-]]. cbn in *.
    apply lookup_insert_Some in Ht as [[<- <-]|[_ Ht]]; [|by apply (binv_aside m Hm)].
    destruct (binv_aside m Hm t' _ Ea) as (k & Hk & [_ Hrest]%Forall_cons). by exists k.
  - unfold abandon in He. destruct (aside m !! t') as [[|th rest]|] eqn:Ea; [done| |done]. injection He as <-. cbn in *.
    apply lookup_insert_Some in Ht as [[<- <-]|[_ Ht]]; [|by apply (binv_aside m Hm)].
    destruct (binv_aside m Hm t' _ Ea) as (k & Hk & [_ Hrest]%Forall_cons). by exists k.
Qed.
End step.

Lemma brun_cons o ops m : brun (o :: ops) m = bexec o m ≫= brun ops.
Proof.
  unfold brun. cbn. destruct (bexec o m) as [m1|]; [done|]. cbn.
  induction ops as [|o' ops IH]; [done|exact IH].
Qed.

Lemma binv_initial : binv initial_bmachine.
Proof. split; [apply inv_initial|done]. Qed.

Lemma brun_simulated ops m m' :
  binv m -> forallb bsafe ops = true -> brun ops m = Some m' -> binv m' /\ by_token_ops (base m) (base m').
Proof.
  revert m. induction ops as [|o ops IH]; intros m Hm Hs Hr; [injection Hr as <-; split; [done|by exists []]|].
  apply andb_true_iff in Hs as [Ho Hs]. rewrite brun_cons in Hr. apply bind_Some in Hr as (m1 & H1 & Hr).
  destruct (bexec_simulated m m1 Hm o Ho H1) as (ops1 & Hs1 & Hr1).
  destruct (IH m1 (binv_bexec m m1 Hm o Ho H1) Hs Hr) as (Hm' & ops2 & Hs2 & Hr2). split; [done|].
  exists (ops1 ++ ops2). split; [by rewrite forallb_app, Hs1, Hs2|]. rewrite run_app, Hr1. exact Hr2.
Qed.

Lemma breachable_inv m : breachable m -> binv m.
Proof. intros (ops & Hs & Hr). by apply (brun_simulated ops _ m binv_initial Hs Hr). Qed.

(** ** Properties *)

(** C7: Programs with reborrows do what programs without them can do: to every safe
    program in which functions reborrow their permits, share through them and use
    them again, to any depth and on any threads, there is a safe program in which
    only owners borrow their tokens and that leads to the same tokens, borrows,
    cells and contents; so every theorem on reachable states of the token machine
    holds of the states of programs with reborrows. *)
Theorem reborrows_refine_tokens (ops : list bop) (m : bmachine) :
  forallb bsafe ops = true -> brun ops initial_bmachine = Some m ->
  reachable (base m) /\ exists ops', forallb safe ops' = true /\ run ops' initial_world = Some (base m).
Proof.
  intros Hs Hr. destruct (brun_simulated ops _ m binv_initial Hs Hr) as [_ (ops' & Hs' & Hr')].
  split; [|by exists ops']. by eapply run_reachable; [apply reach_init|..].
Qed.

(** A permit that is put aside is out of reach until it comes back alone: its
    reborrow is then the only borrow of the token and the permit itself cannot be
    presented; while any permit of a token is aside its owner can neither borrow,
    share nor send the token; the permit comes back only as the single borrow of its
    token, with nothing else changed; and when a reborrow is ended at once the
    permit can come back, on its thread. *)
Theorem permits_return_alone (m : bmachine) :
  breachable m ->
  (forall i form m', reborrow i form m = Some m' -> exists h j,
     holders (base m) !! i = Some h /\ holders (base m') !! i = None /\
     holders (base m') !! j = Some (permit_like h form) /\
     (forall j' h', holders (base m') !! j' = Some h' -> h_token h' = h_token h -> j' = j) /\
     permits_aside (h_token h) m' = h_thread h :: permits_aside (h_token h) m /\
     exists m1 m2 n, plain_op (EndBorrow j) m' = Some m1 /\ resume (h_token h) m1 = Some m2 /\
       holders (base m2) = <[n := h]> (delete i (holders (base m))) /\ cells (base m2) = cells (base m)) /\
  (forall t o, permits_aside t m <> [] -> of_owner o = Some t -> bexec (BOp o) m = None) /\
  (forall t m', resume t m = Some m' -> exists th rest j,
     permits_aside t m = th :: rest /\ permits_aside t m' = rest /\
     holders (base m') !! j = Some (mkHolder t true th (Permit ByMut)) /\
     (forall j' h', holders (base m') !! j' = Some h' -> h_token h' = t -> j' = j) /\
     tokens (base m') = tokens (base m) /\ cells (base m') = cells (base m)).
Proof.
  intros Hm%breachable_inv. pose proof (binv_base m Hm) as Hw. split; [|split].
  - intros i form m' (h & Hi & (k & Hk & [Hf [Hsh [= <-]]%guard_Some]%guard_Some)%bind_Some)%bind_Some.
    pose proof (permit_dropped _ i h Hw Hi Hf) as Hun. destruct (inv_holders _ Hw i h Hi) as [Hlt (k' & _ & Hp)].
    rewrite Hf in Hp. destruct Hp as [Hx _]. rewrite bool_decide_true in Hx by done.
    assert (<[next (base m) := permit_like h form]> (delete i (holders (base m))) !! next (base m)
      = Some (permit_like h form)) as Hj by apply lookup_insert_eq.
    exists h, (next (base m)). cbn [base aside holders add_holder bump set_holder drop_holder next].
    split; [done|]. split; [rewrite lookup_insert_ne by lia; apply lookup_delete_eq|]. split; [exact Hj|]. split.
    { intros j' h' [[<- _]|[_ Hj']]%lookup_insert_Some Ht; [done|]. by destruct (Hun j' h' Hj'). }
    unfold permits_aside at 1. cbn [aside]. rewrite lookup_insert_eq. cbn [default]. split; [done|].
    assert (delete (next (base m)) (<[next (base m) := permit_like h form]> (delete i (holders (base m))))
      = delete i (holders (base m))) as Hdel.
    { rewrite delete_insert_eq. apply delete_id. rewrite lookup_delete_ne by lia.
      destruct (holders (base m) !! next (base m)) eqn:E; [by destruct (holder_fresh _ _ Hw E)|done]. }
    eexists _, _, _. split.
    { unfold plain_op. rewrite option_guard_True by done. cbn [mbind option_bind exec]. unfold end_borrow.
      cbn [base holders add_holder bump set_holder drop_holder next]. rewrite Hj. done. }
    unfold resume. cbn [aside base].
    erewrite map_lookup_filter_Some_2; [|apply lookup_insert_eq|by exists k].
    cbv iota. rewrite option_guard_True.
    + split; [done|]. cbn. split; [|done]. rewrite Hdel. f_equal. destruct h as [t x th hd]; cbn in *. by subst.
    + intros j' h' Hj'. cbn in Hj'. rewrite Hdel in Hj'. by apply (Hun j' h').
  - intros t o Hne Ho. cbn [bexec]. unfold plain_op. apply guard_None. rewrite Ho. cbn.
    by destruct (permits_aside t m).
  - intros t m' Hr. unfold resume in Hr. destruct (aside m !! t) as [[|th rest]|] eqn:Ea; [done| |done].
    apply guard_Some in Hr as [Hu [= <-]]. exists th, rest, (next (base m)). unfold permits_aside. cbn.
    rewrite Ea, lookup_insert_eq. split_and!; [done|done|apply lookup_insert_eq| |done|done].
    intros j' h' [[<- _]|[_ Hj']]%lookup_insert_Some Ht; [done|]. by destruct (Hu j' h' Hj').
Qed.

(** A function on another thread is given the token's [&mut] permit; it shares
    through it, a reader reads, and then it writes with the permit it has back. *)
Definition with_parameter : list bop :=
  [BOp (WithFreshToken ExclusiveFamily 1); BOp (NewCell 1 1 (replicate 1 (mkPayload true true true 4 4)) [7]);
   BOp (BorrowTokenMut 1 1); BOp (SendHolder 3 2); BReborrow 3 ByShared; BOp (CellBorrow 4 2)].
Definition permit_again : list bop :=
  [BOp (EndBorrow 4); BOp (EndBorrow 5); BResume 1; BReborrow 6 ByMut; BOp (CellBorrowMut 7 2);
   BOp (GuardDerefMut 7 0 8); BOp (EndBorrow 7); BResume 1].

Definition parameter_shared : bmachine :=
  match brun with_parameter initial_bmachine with Some m => m | None => initial_bmachine end.

Lemma reborrows_refine_tokens_witness :
  exists m, brun (with_parameter ++ permit_again) initial_bmachine = Some m /\
    c_value <$> cells (base m) !! 2%positive = Some [8] /\ reachable (base m).
Proof.
  destruct (brun (with_parameter ++ permit_again) initial_bmachine) as [m|] eqn:E; [|vm_compute in E; discriminate].
  exists m. split; [reflexivity|].
  pose proof (proj1 (reborrows_refine_tokens (with_parameter ++ permit_again) m ltac:(vm_compute; reflexivity) E)) as Hr.
  vm_compute in E. injection E as <-. split; [reflexivity|exact Hr].
Defined.

Lemma permits_return_alone_witness :
  permits_aside 1 parameter_shared = [2%positive] /\ guard_deref 5 (base parameter_shared) = Some [7] /\
  resume 1 parameter_shared = None /\ bexec (BOp (BorrowToken 1 1)) parameter_shared = None.
Proof.
  destruct (permits_return_alone parameter_shared) as (_ & Hown & _).
  { exists with_parameter. split; vm_compute; reflexivity. }
  do 3 (split; [vm_compute; reflexivity|]). apply (Hown 1%positive); [vm_compute; discriminate|reflexivity].
Defined.
