(* ===== verification/Scope.v ===== *)
(** * Brand scopes ([src/token/brand.rs], [src/sync/tokens/], [src/sync/scoped/mod.rs])

    A scope mints the token of a fresh brand, runs the client's closure with it,
    and ends the brand when the closure returns or unwinds; [scope_exclusive]
    does so on a worker thread and passes the result or the panic back.  The
    closure is any state transformer that performs safe operations of [Token].
    Main results: the closure's result or panic payload is passed on, the world
    stays one a safe program can reach, and the brand leaves no trace. *)
From S2P Require Import Prelude AutoTraits Token.
From stdpp Require Import base numbers list gmap.

(** ** Code *)

Section scopes.
Context {R : Type}.

(** [with_fresh_token::<Family, _, _>(f)] on thread [th]; the name of the token
    is also the name of its brand. *)
Definition with_fresh_token_in (family : family) (th : positive) (f : positive -> M world R)
    : M world R := fun w =>
  let t := next w in
  let '(o, w') := f t (mint family t th w) in
  match scope_end t w' with Some w'' => (o, w'') | None => (UB, w') end.

Definition brand_scope (th : positive) (f : positive -> M world R) : M world R :=
  with_fresh_token_in ExclusiveFamily th f.

Definition sync_region_scope (th : positive) (f : positive -> M world R) : M world R :=
  with_fresh_token_in SyncRegionFamily th f.

Definition thread_local_scope (th : positive) (f : positive -> M world R) : M world R :=
  with_fresh_token_in ThreadLocalFamily th f.

(** [handle.join()]: how the worker's closure ended. *)
Definition join (o : outcome R) : outcome (R + panic_payload) :=
  match o with Ret r => Ret (inl r) | Panic p => Ret (inr p) | UB => UB end.

(** [scope_exclusive]: the worker runs the scope, the caller joins it and returns
    its result or resumes the unwinding. *)
Definition scope_exclusive (worker : positive) (f : positive -> M world R) : M world R := fun w =>
  let '(o, w') := with_fresh_token_in SyncRegionFamily worker f w in
  match join o with
  | Ret (inl result) => (Ret result, w')
  | Ret (inr payload) => (Panic payload, w')
  | Panic p => (Panic p, w')
  | UB => (UB, w')
  end.

(** A closure that only performs safe operations. *)
Definition safe_closure (f : positive -> M world R) : Prop :=
  forall t w, exists ops, forallb safe ops = true /\ run ops w = Some (snd (f t w)).

(** Nothing of brand [b] is left. *)
Definition no_trace (b : positive) (w : world) : Prop :=
  map_Forall (fun _ k => t_brand k <> b) (tokens w) /\
  map_Forall (fun _ c => c_brand c <> b) (cells w) /\
  map_Forall (fun _ h => of_brand b w h = false) (holders w).

End scopes.

(** ** Lemmas *)

Lemma scope_end_no_trace b w w' : scope_end b w = Some w' -> no_trace b w'.
Proof.
  intros [= <-]. split; [by intros t k [_ Hk]%map_lookup_filter_Some|].
  split; [by intros c d [_ Hd]%map_lookup_filter_Some|].
  intros i h [Hh Hb]%map_lookup_filter_Some. unfold of_brand in *. cbn.
  rewrite map_lookup_filter. destruct (tokens w !! h_token h) as [k|]; [cbn|done].
  case_guard; cbn; [by apply bool_decide_eq_false|done].
Qed.

Lemma with_fresh_token_in_spec {R} family th (f : positive -> M world R) w :
  reachable w -> safe_closure f ->
  exists w', with_fresh_token_in family th f w = (fst (f (next w) (mint family (next w) th w)), w') /\
    reachable w' /\ no_trace (next w) w'.
Proof.
  intros Hr Hf. unfold with_fresh_token_in.
  destruct (Hf (next w) (mint family (next w) th w)) as (ops & Hs & Hrun).
  destruct (f (next w) (mint family (next w) th w)) as [o w1]. cbn in Hrun.
  assert (reachable (mint family (next w) th w)) as H0
    by (by apply (reach_step w (WithFreshToken family th))).
  pose proof (run_reachable ops _ _ H0 Hs Hrun) as H1.
  cbn [fst]. eexists. split; [reflexivity|]. split; [|by eapply scope_end_no_trace].
  by apply (reach_step w1 (ScopeEnd (next w))).
Qed.

(** ** Properties *)

(** [scope_exclusive] is the closure run with the unique token of a fresh
    brand on the worker thread: its result is returned, a panic is re-raised
    with the same payload, the world stays one that safe programs reach, and
    when the call is over no token, borrow or cell of the brand exists. *)
Theorem scope_exclusive_handoff {R} (worker : positive) (f : positive -> M world R) (w : world) :
  reachable w -> safe_closure f ->
  let w0 := mint SyncRegionFamily (next w) worker w in
  tokens w0 !! next w = Some (mkToken (next w) SyncRegionFamily worker worker) /\
  (forall t k, tokens w0 !! t = Some k -> t_brand k = next w -> t = next w) /\
  exists w', scope_exclusive worker f w = (fst (f (next w) w0), w') /\
    reachable w' /\ no_trace (next w) w'.
Proof.
  intros Hr Hf w0. split; [apply lookup_insert_eq|]. split.
  - intros t k Hk Hb. unfold w0, mint in Hk. cbn in Hk.
    apply lookup_insert_Some in Hk as [[<- <-]|[_ Hk]]; [done|].
    apply (inv_tokens w (reachable_inv w Hr)) in Hk as (_ & ? & _). lia.
  - destruct (with_fresh_token_in_spec SyncRegionFamily worker f w Hr Hf) as (w' & He & Hr' & Hn).
    exists w'. unfold scope_exclusive. rewrite He. fold w0.
    by destruct (fst (f (next w) w0)).
Qed.

(** A closure that makes a cell, writes it, and panics. *)
Definition make_and_panic (t : positive) : M world Z := fun w =>
  match run [NewCell 2 t u32_parts [1; 2; 3]%Z] w with
  | Some w' => (Panic (UserPanic 8), w')
  | None => (Ret 0%Z, w)
  end.

Lemma make_and_panic_safe : safe_closure make_and_panic.
Proof.
  intros t w. unfold make_and_panic.
  destruct (run [NewCell 2 t u32_parts [1; 2; 3]%Z] w) as [w'|] eqn:E.
  - exists [NewCell 2 t u32_parts [1; 2; 3]%Z]. by split.
  - exists []. by split.
Qed.

Lemma scope_exclusive_handoff_witness :
  exists w', scope_exclusive 2 make_and_panic initial_world = (Panic (UserPanic 8), w') /\
    no_trace 1 w'.
Proof.
  destruct (scope_exclusive_handoff 2 make_and_panic initial_world reach_init make_and_panic_safe)
    as (_ & _ & w' & He & _ & Hn).
  exists w'. split; [rewrite He; reflexivity|exact Hn].
Defined.
