(* ===== verification/BrandLock.v ===== *)
(** * A brand is a readers-writer lock without a lock

    The specification behind [src/token/capability.rs] and the cells' [borrow]
    and [borrow_mut]: to its clients a brand is a readers-writer lock.  It is
    free, or read by any number of holders, or written by the parts of one
    exclusive borrow; a reader never becomes a writer, nor a writer a reader,
    without the brand having been free in between.  [phase_of] abstracts a state
    of the token machine to the phase of a brand and [phase_step] is the lock;
    the machine, which keeps no flag and checks nothing at run time, refines it.

    The class [BrandPhases] is the interface a client's proof needs of a machine
    with brands: the theorems about phases hold of every instance, and the token
    machine is one. *)
From S2P Require Import Prelude AutoTraits Token.
From stdpp Require Import base numbers list gmap relations.

(** ** The specification *)

Inductive phase : Type := Free | Reading | Writing.

#[export] Instance phase_eq_dec : EqDecision phase.
Proof. solve_decision. Defined.

(** The moves of the lock: take it to read or to write when it is free, go on
    in the same phase, release it. *)
Inductive phase_step : phase -> phase -> Prop :=
| phase_stay p : phase_step p p
| phase_read : phase_step Free Reading
| phase_write : phase_step Free Writing
| phase_release p : phase_step p Free.

(** A machine whose states have a phase for every brand, and whose steps are the
    lock's. *)
Class BrandPhases {W : Type} (step : relation W) (ok : W -> Prop)
    (phase_at : positive -> W -> phase) : Prop := {
  ok_step w w' : ok w -> step w w' -> ok w';
  lock_step b w w' : ok w -> step w w' -> phase_step (phase_at b w) (phase_at b w')
}.

Section lock.
Context {W : Type} (step : relation W) (ok : W -> Prop) (phase_at : positive -> W -> phase).
Context `{!BrandPhases step ok phase_at}.

Lemma ok_steps w w' : ok w -> rtc step w w' -> ok w'.
Proof using All. intros Hw Hs. induction Hs as [|w w1 w2 H1 _ IH]; [done|]. by eapply IH, ok_step. Qed.

(** The lock's trace of an execution. *)
Lemma lock_steps b w w' : ok w -> rtc step w w' -> rtc phase_step (phase_at b w) (phase_at b w').
Proof using All.
  intros Hw Hs. induction Hs as [|w w1 w2 H1 _ IH]; [done|].
  eapply rtc_l; [by apply lock_step|]. by apply IH; eapply ok_step.
Qed.

(** Between a read phase and a write phase of a brand it was free. *)
Lemma free_between b w w' :
  ok w -> rtc step w w' -> phase_at b w <> Free -> phase_at b w' <> Free ->
  phase_at b w <> phase_at b w' ->
  exists v, rtc step w v /\ rtc step v w' /\ phase_at b v = Free.
Proof using All.
  intros Hw Hs. induction Hs as [|w w1 w2 H1 H2 IH]; intros Hf Hf' Hne; [done|].
  pose proof (lock_step b w w1 Hw H1) as Hp.
  destruct (decide (phase_at b w1 = Free)) as [E|E].
  - exists w1. split; [by eapply rtc_once|]. by split.
  - assert (phase_at b w1 = phase_at b w) as E1 by (inversion Hp; congruence).
    destruct IH as (v & Hv & Hv' & Ev); [by eapply ok_step|done|done|by rewrite E1|].
    exists v. split; [by eapply rtc_l|done].
Qed.
End lock.

(** ** The abstraction of the token machine *)

(** The borrows of the tokens of brand [b]. *)
Definition brand_holders (b : positive) (w : world) : gmap positive holder :=
  filter (fun '(_, h) => of_brand b w h = true) (holders w).

Definition phase_of (b : positive) (w : world) : phase :=
  if decide (brand_holders b w = ∅) then Free
  else if decide (map_Forall (fun _ h => h_excl h = false) (brand_holders b w)) then Reading
  else Writing.

(** A step of a safe program. *)
Definition safe_step (w w' : world) : Prop := exists o, safe o = true /\ exec o w = Some w'.

(** ** Lemmas *)

Lemma brand_holders_lookup b w i h :
  brand_holders b w !! i = Some h <-> holders w !! i = Some h /\ of_brand b w h = true.
Proof. unfold brand_holders. by rewrite map_lookup_filter_Some. Qed.

Lemma phase_free b w :
  phase_of b w = Free <-> forall i h, holders w !! i = Some h -> of_brand b w h = false.
Proof.
  unfold phase_of. destruct (decide _) as [E|E].
  - split; [intros _ i h Hi|done]. apply not_true_iff_false. intros Hb.
    assert (brand_holders b w !! i = Some h) as H by (by apply brand_holders_lookup).
    by rewrite E in H.
  - split; [by destruct (decide _)|]. intros Hf. destruct E. apply map_empty. intros i.
    apply eq_None_not_Some. intros [h (Hi & Hb)%brand_holders_lookup]. by rewrite (Hf i h Hi) in Hb.
Qed.

Lemma phase_reading b w :
  phase_of b w = Reading ->
  (exists i h, holders w !! i = Some h /\ of_brand b w h = true) /\
  forall i h, holders w !! i = Some h -> of_brand b w h = true -> h_excl h = false.
Proof.
  unfold phase_of. destruct (decide _) as [E|E]; [done|]. destruct (decide _) as [Hs|]; [|done].
  intros _. split.
  - apply map_choose in E as (i & h & Hi). exists i, h. by apply brand_holders_lookup.
  - intros i h Hi Hb. apply (Hs i h). by apply brand_holders_lookup.
Qed.

Lemma phase_writing b w :
  phase_of b w = Writing ->
  exists i h, holders w !! i = Some h /\ of_brand b w h = true /\ h_excl h = true.
Proof.
  unfold phase_of. destruct (decide _) as [E|E]; [done|]. destruct (decide _) as [|Hs]; [done|].
  intros _. apply map_not_Forall in Hs as (i & h & (Hi & Hb)%brand_holders_lookup & Hx); [|apply _].
  exists i, h. split; [done|]. split; [done|]. by apply not_false_is_true.
Qed.

(** Two borrows of one brand are both shared or both exclusive. *)
Lemma same_brand_excl b w i j h h' :
  inv w -> holders w !! i = Some h -> holders w !! j = Some h' ->
  of_brand b w h = true -> of_brand b w h' = true -> h_excl h = h_excl h'.
Proof.
  intros Hw Hi Hj Hb Hb'. destruct (decide (i = j)) as [<-|Hne]; [congruence|].
  unfold of_brand in Hb, Hb'.
  destruct (tokens w !! h_token h) as [k|] eqn:Hk; [|done].
  destruct (tokens w !! h_token h') as [k'|] eqn:Hk'; [|done].
  apply bool_decide_eq_true in Hb, Hb'.
  assert (h_token h = h_token h') as Ht by (apply (inv_unique w Hw _ _ k k'); congruence).
  destruct (inv_compatible w Hw i j h h' Hne Hi Hj Ht) as [[-> ->]|Hc]; [done|].
  destruct (h_hold h), (h_hold h'); try done. by destruct Hc as (-> & -> & _).
Qed.

(** Two exclusive borrows of one brand are parts of one borrow. *)
Lemma writers_apart b w i j h h' :
  inv w -> i <> j -> holders w !! i = Some h -> holders w !! j = Some h' ->
  of_brand b w h = true -> of_brand b w h' = true -> h_excl h = true ->
  h_token h' = h_token h /\
  exists c lo hi wr lo' hi' wr', h_hold h = Guard c lo hi wr /\ h_hold h' = Guard c lo' hi' wr' /\
    ((wr = false /\ wr' = false) \/ disjoint_ranges lo hi lo' hi').
Proof.
  intros Hw Hne Hi Hj Hb Hb' Hx. unfold of_brand in Hb, Hb'.
  destruct (tokens w !! h_token h) as [k|] eqn:Hk; [|done].
  destruct (tokens w !! h_token h') as [k'|] eqn:Hk'; [|done].
  apply bool_decide_eq_true in Hb, Hb'.
  assert (h_token h = h_token h') as Ht by (apply (inv_unique w Hw _ _ k k'); congruence).
  split; [done|].
  destruct (inv_compatible w Hw i j h h' Hne Hi Hj Ht) as [[? _]|Hc]; [congruence|].
  destruct (h_hold h) as [|c lo hi wr], (h_hold h') as [|c' lo' hi' wr']; try done.
  destruct Hc as (_ & _ & <- & Hc). by exists c, lo, hi, wr, lo', hi', wr'.
Qed.

(** Two borrows are of the same token, in the same mode, seen from two states
    that give the token one brand. *)
Definition same_borrow (w w' : world) (h h' : holder) : Prop :=
  h_token h' = h_token h /\ h_excl h' = h_excl h /\ forall b, of_brand b w' h' = of_brand b w h.

(** A step keeps every borrow, or only ends borrows. *)
Definition grows (w w' : world) : Prop :=
  forall i h, holders w !! i = Some h -> exists h', holders w' !! i = Some h' /\ same_borrow w w' h h'.
Definition shrinks (w w' : world) : Prop :=
  forall i h', holders w' !! i = Some h' -> exists h, holders w !! i = Some h /\ same_borrow w w' h h'.

Lemma grows_same w w' :
  tokens w' = tokens w -> holders w' = holders w -> grows w w'.
Proof.
  intros Ht Hh i h Hi. exists h. rewrite Hh. split; [done|]. do 2 (split; [done|]).
  intros b. unfold of_brand. by rewrite Ht.
Qed.

Lemma grows_add w h : inv w -> grows w (add_holder h w).
Proof.
  intros Hw i h' Hi. exists h'. cbn. rewrite lookup_insert_ne; [by split_and!|].
  intros E. rewrite <- E in Hi. by eapply holder_fresh.
Qed.

Lemma grows_set w i h g :
  holders w !! i = Some h -> h_token g = h_token h -> h_excl g = h_excl h ->
  grows w (set_holder i g w).
Proof.
  intros Hi Ht Hx j h' Hj. cbn. destruct (decide (j = i)) as [->|Hne].
  - rewrite lookup_insert_eq. exists g. split; [done|]. assert (h' = h) as -> by congruence.
    split_and!; [done|done|]. intros b. unfold of_brand. cbn. by rewrite Ht.
  - rewrite lookup_insert_ne by done. exists h'. by split_and!.
Qed.

Lemma grows_trans w1 w2 w3 : grows w1 w2 -> grows w2 w3 -> grows w1 w3.
Proof.
  intros H1 H2 i h Hi. destruct (H1 i h Hi) as (h2 & Hi2 & Ht & Hx & Hb).
  destruct (H2 i h2 Hi2) as (h3 & Hi3 & Ht3 & Hx3 & Hb3). exists h3. split; [done|].
  split_and!; [congruence|congruence|]. intros b. by rewrite Hb3, Hb.
Qed.

Lemma shrinks_drop w i : shrinks w (drop_holder i w).
Proof.
  intros j h Hj. cbn in Hj. apply lookup_delete_Some in Hj as [_ Hj]. exists h. by split_and!.
Qed.

(** The token table may change where the brands stay. *)
Lemma grows_tokens w w' :
  inv w -> holders w' = holders w ->
  (forall t k, tokens w !! t = Some k -> exists k', tokens w' !! t = Some k' /\ t_brand k' = t_brand k) ->
  grows w w'.
Proof.
  intros Hw Hh Ht i h Hi. exists h. rewrite Hh. split; [done|]. do 2 (split; [done|]).
  intros b. destruct (inv_holders w Hw i h Hi) as [_ (k & Hk & _)].
  destruct (Ht _ k Hk) as (k' & Hk' & Hb). unfold of_brand. by rewrite Hk, Hk', Hb.
Qed.

Lemma grows_lend w i c h form d g :
  inv w -> opens i c w = Some (h, form, d) -> h_token g = h_token h -> h_excl g = h_excl h ->
  grows w (lend i form g w).
Proof.
  intros Hw Ho Ht Hx. destruct (opens_inv _ _ _ _ _ _ Hw Ho) as (Hh & _).
  destruct form; cbn [lend]; [by apply grows_add|by eapply grows_set|by apply grows_add].
Qed.

Lemma shrinks_scope_end w b w' : inv w -> scope_end b w = Some w' -> shrinks w w'.
Proof.
  intros Hw [= <-] i h Hi. cbn in Hi. apply map_lookup_filter_Some in Hi as [Hi Hb]. exists h. split; [done|].
  do 2 (split; [done|]). intros b'. destruct (inv_holders w Hw i h Hi) as [_ (k & Hk & _)].
  unfold of_brand in *. cbn. rewrite Hk in *. apply bool_decide_eq_false in Hb.
  assert (filter (fun '(_, k) => t_brand k <> b) (tokens w) !! h_token h = Some k) as ->; [|done].
  by apply map_lookup_filter_Some.
Qed.

(** No operation both ends a borrow and starts one. *)
Lemma exec_grows_or_shrinks o w w' :
  inv w -> safe o = true -> exec o w = Some w' -> grows w w' \/ shrinks w w'.
Proof.
  intros Hw Hs He. destruct o; try done; cbn [exec] in He.
  - left. injection He as <-. apply grows_tokens; [done|done|]. intros t k Hk. cbn.
    rewrite lookup_insert_ne; [by eexists|]. intros E. rewrite <- E in Hk.
    apply (inv_tokens w Hw) in Hk as [? _]. lia.
  - left. apply bind_Some in He as (k & Hk & [_ [_ [= <-]]%guard_Some]%guard_Some). by apply grows_add.
  - left. apply bind_Some in He as (k & Hk & [_ [_ [= <-]]%guard_Some]%guard_Some). by apply grows_add.
  - left. apply bind_Some in He as (k & Hk & [_ [_ [_ [= <-]]%guard_Some]%guard_Some]%guard_Some).
    by apply grows_add.
  - left. apply bind_Some in He as (h & Hh & (k & Hk & Hc)%bind_Some). destruct (h_hold h); [|done].
    apply guard_Some in Hc as [_ [= <-]]. by apply grows_add.
  - right. apply bind_Some in He as (h & _ & [= <-]). apply shrinks_drop.
  - left. apply bind_Some in He as (k & Hk & [_ [_ [= <-]]%guard_Some]%guard_Some).
    apply grows_tokens; [done|done|]. intros t' k' Hk'. cbn.
    destruct (decide (t' = t)) as [->|Hne]; [|by rewrite lookup_insert_ne; eauto].
    rewrite lookup_insert_eq. eexists. split; [done|]. cbn. congruence.
  - left. apply bind_Some in He as (h & Hh & (k & Hk & (t & _ & [_ [= <-]]%guard_Some)%bind_Some)%bind_Some).
    by eapply grows_set.
  - left. apply bind_Some in He as (d & Hd & [_ [Hun [= <-]]%guard_Some]%guard_Some).
    by apply grows_same.
  - left. apply guard_Some in He as [_ [_ [= <-]]%guard_Some]. by apply grows_same.
  - left. apply bind_Some in He as ([[h form] d] & Ho & [= <-]). by eapply grows_lend.
  - left. apply bind_Some in He as ([[h form] d] & Ho & [_ [= <-]]%guard_Some). by eapply grows_lend.
  - left. apply bind_Some in He as ([[h form] d] & Ho & [_ [= <-]]%guard_Some). by eapply grows_lend.
  - left. apply bind_Some in He as ([[h form] d] & Ho & [_ [_ [= <-]]%guard_Some]%guard_Some).
    by eapply grows_lend.
  - right. apply bind_Some in He as ([[h form] d] & Ho & [_ [_ [= <-]]%guard_Some]%guard_Some).
    apply (shrinks_drop (set_cell _ _ w)).
  - left. apply bind_Some in He as (d & Hd & [_ [_ [_ [= <-]]%guard_Some]%guard_Some]%guard_Some).
    by apply grows_same.
  - left. apply bind_Some in He as (d & Hd & [_ [_ [= <-]]%guard_Some]%guard_Some). by apply grows_same.
  - left. apply bind_Some in He as (h & Hh & Hg). destruct (h_hold h); [done|].
    apply bind_Some in Hg as (d & Hd & [_ [_ [= <-]]%guard_Some]%guard_Some). by apply grows_same.
  - left. apply bind_Some in He as (h & _ & Hg). destruct (h_hold h); [done|]. injection Hg as <-.
    by apply grows_same.
  - left. apply bind_Some in He as (h & Hh & Hg). destruct (h_hold h); [done|].
    apply guard_Some in Hg as [_ [= <-]]. by eapply grows_set.
  - left. apply bind_Some in He as (h & Hh & Hg). destruct (h_hold h) as [|c lo' hi' writes]; [done|].
    apply guard_Some in Hg as [_ [_ [= <-]]%guard_Some].
    intros j h' Hj. destruct (grows_set w i h (mkHolder (h_token h) (h_excl h) (h_thread h)
      (Guard c lo1 hi1 writes)) Hh eq_refl eq_refl j h' Hj) as (h1 & Hj1 & Hsb).
    exists h1. split; [|done]. cbn. rewrite lookup_insert_ne; [done|].
    intros E. rewrite <- E in Hj. by eapply holder_fresh.
  - right. by eapply shrinks_scope_end.
Qed.

(** A step of the machine is a step of every brand's lock. *)
Lemma exec_phase_step b o w w' :
  inv w -> safe o = true -> exec o w = Some w' -> phase_step (phase_of b w) (phase_of b w').
Proof.
  intros Hw Hs He. pose proof (exec_inv o w w' Hw Hs He) as Hw'.
  destruct (phase_of b w) eqn:E, (phase_of b w') eqn:E'; try constructor; exfalso.
  - apply phase_reading in E as [(i & h & Hi & Hb) Hall].
    apply phase_writing in E' as (j & g & Hj & Hgb & Hgx).
    destruct (exec_grows_or_shrinks o w w' Hw Hs He) as [Hg|Hg].
    + destruct (Hg i h Hi) as (h' & Hi' & _ & Hx & Hof).
      pose proof (same_brand_excl b w' i j h' g Hw' Hi' Hj ltac:(by rewrite Hof) Hgb) as Hsb.
      rewrite Hx, (Hall i h Hi Hb) in Hsb. congruence.
    + destruct (Hg j g Hj) as (h' & Hj' & _ & Hx & Hof).
      rewrite Hof in Hgb. pose proof (Hall j h' Hj' Hgb). congruence.
  - apply phase_reading in E' as [(i & h & Hi & Hb) Hall].
    apply phase_writing in E as (j & g & Hj & Hgb & Hgx).
    destruct (exec_grows_or_shrinks o w w' Hw Hs He) as [Hg|Hg].
    + destruct (Hg j g Hj) as (g' & Hj' & _ & Hx & Hof).
      rewrite <- Hof in Hgb. pose proof (Hall j g' Hj' Hgb). congruence.
    + destruct (Hg i h Hi) as (h' & Hi' & _ & Hx & Hof). rewrite Hof in Hb.
      pose proof (same_brand_excl b w i j h' g Hw Hi' Hj Hb Hgb).
      rewrite <- Hof in Hb. pose proof (Hall i h Hi Hb). congruence.
Qed.

#[export] Instance token_phases : BrandPhases safe_step inv phase_of.
Proof.
  split.
  - intros w w' Hw (o & Hs & He). by eapply exec_inv.
  - intros b w w' Hw (o & Hs & He). by eapply exec_phase_step.
Qed.

Lemma run_safe_steps ops w w' :
  forallb safe ops = true -> run ops w = Some w' -> rtc safe_step w w'.
Proof.
  revert w. induction ops as [|o ops IH]; intros w Hs Hr; [injection Hr as <-; apply rtc_refl|].
  apply andb_true_iff in Hs as [Ho Hs]. rewrite run_cons in Hr.
  apply bind_Some in Hr as (w1 & H1 & Hr). eapply rtc_l; [by exists o|by apply IH].
Qed.

(** ** Properties *)

(** C6: The token machine refines the readers-writer lock, for every brand at once:
    along every safe program the phases of a brand are a run of the lock, and
    what the lock promises in a phase holds in the machine: a brand that is read
    has no borrow that can write, on any cell or thread, and a brand that is
    written has one token borrowed, exclusively, by parts that do not overlap
    where they write. *)
Theorem brand_refines_lock (b : positive) (w w' : world) (ops : list op) :
  reachable w -> forallb safe ops = true -> run ops w = Some w' ->
  rtc phase_step (phase_of b w) (phase_of b w') /\
  (forall i h, holders w' !! i = Some h -> of_brand b w' h = true ->
     match phase_of b w' with
     | Free => False
     | Reading => h_excl h = false /\ forall c lo hi writes, h_hold h = Guard c lo hi writes -> writes = false
     | Writing => h_excl h = true /\
         forall j h', i <> j -> holders w' !! j = Some h' -> of_brand b w' h' = true ->
           h_token h' = h_token h /\
           exists c lo hi wr lo' hi' wr', h_hold h = Guard c lo hi wr /\ h_hold h' = Guard c lo' hi' wr' /\
             ((wr = false /\ wr' = false) \/ disjoint_ranges lo hi lo' hi')
     end) /\
  (phase_of b w <> Free -> phase_of b w' <> Free -> phase_of b w <> phase_of b w' ->
   exists v, rtc safe_step w v /\ rtc safe_step v w' /\ phase_of b v = Free).
Proof.
  intros Hr Hs Hrun. pose proof (reachable_inv w Hr) as Hw.
  pose proof (run_safe_steps ops w w' Hs Hrun) as Hsteps.
  pose proof (ok_steps safe_step inv phase_of w w' Hw Hsteps) as Hw'. split_and!.
  - by apply (lock_steps safe_step inv phase_of).
  - intros i h Hi Hb. destruct (phase_of b w') eqn:E.
    + by rewrite (proj1 (phase_free b w') E i h Hi) in Hb.
    + pose proof (proj2 (phase_reading b w' E) i h Hi Hb) as Hx. split; [done|].
      intros c lo hi writes Eh. destruct (inv_holders w' Hw' i h Hi) as [_ (k & _ & Hg)].
      rewrite Eh in Hg. destruct Hg as [Hwr _]. destruct writes; [|done]. by rewrite Hwr in Hx.
    + apply phase_writing in E as (i0 & h0 & Hi0 & Hb0 & Hx0).
      pose proof (same_brand_excl b w' i i0 h h0 Hw' Hi Hi0 Hb Hb0) as Hx. rewrite Hx0 in Hx.
      split; [done|]. intros j h' Hne Hj Hb'. by apply (writers_apart b w' i j).
  - by apply (free_between safe_step inv phase_of).
Qed.

Lemma brand_refines_lock_witness :
  phase_of 1 (run_from_start split_program) = Writing /\
  rtc phase_step (phase_of 1 initial_world) (phase_of 1 (run_from_start split_program)).
Proof.
  split; [reflexivity|].
  exact (proj1 (brand_refines_lock 1 initial_world (run_from_start split_program) split_program
    reach_init eq_refl eq_refl)).
Defined.
