(* ===== verification/Frames.v ===== *)
(** * Scopes and gates as frames of the threads
      ([src/token/brand.rs], [src/sync/], [src/reentrant/gate.rs])

    [Scope] runs a scope as a function.  Here the calls that own a brand are
    frames on the threads' stacks in the token machine: [brand_scope],
    [sync_region_scope], [thread_local_scope], [scope_exclusive] with its worker,
    and [ReentrancyCell::enter], whose frame also holds the gate.  A frame is
    pushed when the call mints its token and popped when its closure returns or
    unwinds; between the two any thread does anything.

    Main results: the machine refines that of [Token]; a token exists only while
    the call that minted it runs, and afterwards nothing of its brand is left; a
    gate is active exactly while one call of [enter] runs, that call's token is
    the only one there is of all that calls on the gate have minted, and another
    [enter] is refused; unwinding a thread
    to any depth gives back the gates and brands of that depth. *)
From S2P Require Import Prelude AutoTraits Token BrandLock Scope.
From stdpp Require Import base numbers list gmap relations.

(** A call that is running: one with a brand, and perhaps a gate, or the wait of
    [scope_exclusive] for its worker. *)
Inductive frame : Type :=
| Owning (brand : positive) (gate : option positive)
| Waiting (worker : positive).

(** A [ReentrancyCell]: the thread it is on, and [active]. *)
Record gate : Type := mkGate { g_thread : positive; active : bool }.

Record fmachine : Type := mkFM {
  base : world;
  stacks : gmap positive (list frame);
  gates : gmap positive gate
}.

Definition initial_fmachine : fmachine := mkFM initial_world ∅ ∅.

Definition stack (th : positive) (vs : gmap positive (list frame)) : list frame := default [] (vs !! th).

(** The thread does not wait for a worker. *)
Definition runs (th : positive) (m : fmachine) : Prop :=
  match stack th (stacks m) with Waiting _ :: _ => False | _ => True end.

#[export] Instance runs_dec th m : Decision (runs th m).
Proof. unfold runs. destruct (stack th (stacks m)) as [|[]]; apply _. Defined.

Inductive scope_kind : Type := BrandScope | SyncRegionScope | ThreadLocalScope.

Definition scope_family (k : scope_kind) : family :=
  match k with
  | BrandScope => ExclusiveFamily
  | SyncRegionScope => SyncRegionFamily
  | ThreadLocalScope => ThreadLocalFamily
  end.

(** ** Code *)

Definition push (th : positive) (f : frame) (m : fmachine) : fmachine :=
  mkFM (base m) (<[th := f :: stack th (stacks m)]> (stacks m)) (gates m).

Definition set_active (c : positive) (b : bool) (m : fmachine) : fmachine :=
  mkFM (base m) (stacks m) (alter (fun g => mkGate (g_thread g) b) c (gates m)).

(** [with_fresh_token::<Family, _, _>(f)] up to the call of [f]. *)
Definition open_scope (fam : family) (th : positive) (g : option positive) (m : fmachine) : fmachine :=
  push th (Owning (next (base m)) g) (mkFM (mint fam (next (base m)) th (base m)) (stacks m) (gates m)).

Definition enter_scope (k : scope_kind) (th : positive) (m : fmachine) : option fmachine :=
  guard (runs th m);; Some (open_scope (scope_family k) th None m).

(** [scope_exclusive(f)]: a worker that runs nothing else opens the scope. *)
Definition enter_exclusive (th worker : positive) (m : fmachine) : option fmachine :=
  guard (runs th m /\ worker <> th /\ stack worker (stacks m) = []);;
  Some (open_scope SyncRegionFamily worker None (push th (Waiting worker) m)).

(** [ReentrancyCell::new], [is_active]; a move to another thread, and the drop,
    need a gate that nothing borrows. *)
Definition gate_new (c th : positive) (m : fmachine) : option fmachine :=
  guard (gates m !! c = None);;
  Some (mkFM (base m) (stacks m) (<[c := mkGate th false]> (gates m))).
Definition gate_is_active (c : positive) (m : fmachine) : option bool := active <$> gates m !! c.
Definition gate_move (c : positive) (th : option positive) (m : fmachine) : option fmachine :=
  g ← gates m !! c;
  guard (active g = false);;
  Some (mkFM (base m) (stacks m)
    (match th with Some th => <[c := mkGate th false]> (gates m) | None => delete c (gates m) end)).

(** [ReentrancyCell::enter]: [inr] is [Err(Reentered)]. *)
Definition enter_gate (c th : positive) (m : fmachine) : option (unit + unit) * fmachine :=
  match gates m !! c with
  | Some g =>
      if decide (g_thread g = th /\ runs th m) then
        if active g then (Some (inr tt), m)
        else (Some (inl tt), open_scope ExclusiveFamily th (Some c) (set_active c true m))
      else (None, m)
  | None => (None, m)
  end.

(** The topmost call of the thread ends, by returning or by unwinding: its brand
    ends and [Reset] clears the gate; the wait ends when the worker has. *)
Definition leave (th : positive) (m : fmachine) : option fmachine :=
  match stack th (stacks m) with
  | Owning b g :: rest =>
      w ← scope_end b (base m);
      let m := mkFM w (<[th := rest]> (stacks m)) (gates m) in
      Some (match g with Some c => set_active c false m | None => m end)
  | Waiting worker :: rest =>
      guard (stack worker (stacks m) = []);;
      Some (mkFM (base m) (<[th := rest]> (stacks m)) (gates m))
  | [] => None
  end.

(** Brands begin and end with frames only. *)
Definition unscoped (o : op) : bool :=
  match o with WithFreshToken _ _ | ScopeEnd _ | NewUnchecked _ _ _ => false | _ => true end.

Inductive fop : Type :=
| FBase (o : op)
| FEnter (k : scope_kind) (th : positive)
| FExclusive (th worker : positive)
| FGateNew (c th : positive)
| FGateMove (c : positive) (th : option positive)
| FEnterGate (c th : positive)
| FLeave (th : positive).

(** [None]: the compiler rejects the operation, or the thread is not there. *)
Definition fexec (o : fop) (m : fmachine) : option fmachine :=
  match o with
  | FBase o => guard (unscoped o = true);; w ← exec o (base m); Some (mkFM w (stacks m) (gates m))
  | FEnter k th => enter_scope k th m
  | FExclusive th worker => enter_exclusive th worker m
  | FGateNew c th => gate_new c th m
  | FGateMove c th => gate_move c th m
  | FEnterGate c th => let '(r, m) := enter_gate c th m in _ ← r; Some m
  | FLeave th => leave th m
  end.

Definition frun (ops : list fop) (m : fmachine) : option fmachine :=
  foldl (fun m o => m ≫= fexec o) (Some m) ops.

Definition fstep (m m' : fmachine) : Prop := exists o, fexec o m = Some m'.

(** A panic on the thread that is caught when [n] calls are left. *)
Fixpoint unwind_to (n : nat) (fuel : nat) (th : positive) (m : fmachine) : option fmachine :=
  if decide (length (stack th (stacks m)) <= n)%nat then Some m
  else match fuel with O => None | S fuel => m ← leave th m; unwind_to n fuel th m end.

(** ** The invariant *)

Definition brands (l : list frame) : list positive :=
  omap (fun f => match f with Owning b _ => Some b | Waiting _ => None end) l.
Definition held (l : list frame) : list positive :=
  omap (fun f => match f with Owning _ g => g | Waiting _ => None end) l.

Record finv (m : fmachine) : Prop := {
  finv_base : reachable (base m);
  finv_tokens t k : tokens (base m) !! t = Some k -> exists th, t_brand k ∈ brands (stack th (stacks m));
  finv_next th b : b ∈ brands (stack th (stacks m)) -> (b < next (base m))%positive;
  finv_distinct th : NoDup (brands (stack th (stacks m)));
  finv_owner th th' b : b ∈ brands (stack th (stacks m)) -> b ∈ brands (stack th' (stacks m)) -> th = th';
  finv_held th : NoDup (held (stack th (stacks m)));
  finv_gate c th : c ∈ held (stack th (stacks m)) <-> gates m !! c = Some (mkGate th true)
}.

(** ** Lemmas: stacks *)

Lemma stack_insert th th' l vs : stack th' (<[th := l]> vs) = if decide (th = th') then l else stack th' vs.
Proof. unfold stack. case_decide as E; [subst; by rewrite lookup_insert_eq|by rewrite lookup_insert_ne]. Qed.

Lemma brands_owning b g l : brands (Owning b g :: l) = b :: brands l.
Proof. done. Qed.
Lemma brands_waiting t l : brands (Waiting t :: l) = brands l.
Proof. done. Qed.
Lemma held_gate b c l : held (Owning b (Some c) :: l) = c :: held l.
Proof. done. Qed.

(** Operations other than the frames' bring no brand. *)
Lemma exec_brands o w w' t k' :
  unscoped o = true -> exec o w = Some w' -> tokens w' !! t = Some k' ->
  exists t0 k, tokens w !! t0 = Some k /\ t_brand k = t_brand k'.
Proof.
  destruct o; cbn; intros Hs He Hk; try done; exec_inv_tac He; cbn in Hk; try (by exists t, k').
  apply lookup_insert_Some in Hk as [[_ <-]|[_ Hk]]; [by eexists _, _|by exists t, k'].
Qed.

Lemma unscoped_safe o : unscoped o = true -> safe o = true.
Proof. by destruct o. Qed.

(** ** Lemmas: the invariant *)

Section preservation.
Context (m : fmachine) (Hm : finv m).

Lemma fresh_brand th : next (base m) ∉ brands (stack th (stacks m)).
Proof using Hm. intros Hb. apply (finv_next m Hm) in Hb. lia. Qed.

(** A call begins on [th], with a fresh brand and perhaps an idle gate. *)
Lemma finv_open fam th (g : option positive) gs :
  match g with
  | Some c => gates m !! c = Some (mkGate th false) /\ gs = <[c := mkGate th true]> (gates m)
  | None => gs = gates m
  end ->
  finv (open_scope fam th g (mkFM (base m) (stacks m) gs)).
Proof using Hm.
  intros Hg. unfold open_scope, push. cbn [base stacks gates].
  assert (forall c th', c ∈ held (stack th' (stacks m)) -> gates m !! c = Some (mkGate th' true)) as Hheld.
  { intros c th'. apply (finv_gate m Hm). }
  split; cbn [base]; [| | intros th' b| intros th'| intros th' th'' b| intros th'| intros c th'];
    cbn [stacks gates]; rewrite ?stack_insert.
  - by apply (reach_step (base m) (WithFreshToken fam th)); [apply Hm| |].
  - intros t k Hk. cbn in Hk. apply lookup_insert_Some in Hk as [[<- <-]|[_ Hk]].
    + exists th. cbn [stacks]. rewrite stack_insert, decide_True by done. rewrite brands_owning. by left.
    + destruct (finv_tokens m Hm t k Hk) as [th' Hin]. exists th'. cbn [stacks]. rewrite stack_insert.
      case_decide; [subst; rewrite brands_owning; by right|exact Hin].
  - case_decide as E; [subst th'; rewrite brands_owning, elem_of_cons; intros [->|Hb]; [cbn; lia|]|intros Hb];
      apply (finv_next m Hm) in Hb; cbn; lia.
  - case_decide as E; [subst th'; rewrite brands_owning|apply (finv_distinct m Hm)].
    apply NoDup_cons. split; [apply fresh_brand|apply (finv_distinct m Hm)].
  - repeat case_decide; subst; try done; rewrite ?brands_owning, ?elem_of_cons.
    + intros [->|Hb] Hb'; [by apply fresh_brand in Hb'|by eapply (finv_owner m Hm)].
    + intros Hb [->|Hb']; [by apply fresh_brand in Hb|by eapply (finv_owner m Hm)].
    + by apply (finv_owner m Hm).
  - case_decide as E; [subst th'|apply (finv_held m Hm)]. destruct g as [c|]; [|apply (finv_held m Hm)].
    rewrite held_gate. apply NoDup_cons. split; [|apply (finv_held m Hm)].
    intros Hc%Hheld. destruct Hg as [Hg _]. congruence.
  - pose proof (finv_gate m Hm c th') as Hc. destruct g as [c'|].
    + destruct Hg as [Hg ->]. destruct (decide (c = c')) as [->|Hne].
      * rewrite lookup_insert_eq. case_decide as E; [subst th'; rewrite held_gate; split; [done|intros _; by left]|].
        split; [intros H%Hheld; congruence|congruence].
      * rewrite lookup_insert_ne by done. case_decide as E; [subst th'|done].
        rewrite held_gate, elem_of_cons. rewrite <- Hc. tauto.
    + subst gs. case_decide as E; [subst th'|done]. exact Hc.
Qed.

(** The stacks change by frames without brand or gate. *)
Lemma finv_restack vs :
  (forall th, brands (stack th vs) = brands (stack th (stacks m)) /\
              held (stack th vs) = held (stack th (stacks m))) ->
  finv (mkFM (base m) vs (gates m)).
Proof using Hm.
  intros Hvs. split; cbn [base stacks gates].
  - apply Hm.
  - intros t k Hk. destruct (finv_tokens m Hm t k Hk) as [th Hin]. exists th. by rewrite (proj1 (Hvs th)).
  - intros th b. rewrite (proj1 (Hvs th)). apply (finv_next m Hm).
  - intros th. rewrite (proj1 (Hvs th)). apply (finv_distinct m Hm).
  - intros th th' b. rewrite (proj1 (Hvs th)), (proj1 (Hvs th')). apply (finv_owner m Hm).
  - intros th. rewrite (proj2 (Hvs th)). apply (finv_held m Hm).
  - intros c th. rewrite (proj2 (Hvs th)). apply (finv_gate m Hm).
Qed.

(** The topmost call of [th], of brand [b], ends. *)
Lemma finv_close th b g rest w gs :
  stack th (stacks m) = Owning b g :: rest -> scope_end b (base m) = Some w ->
  gs = match g with Some c => alter (fun x => mkGate (g_thread x) false) c (gates m) | None => gates m end ->
  finv (mkFM w (<[th := rest]> (stacks m)) gs).
Proof using Hm.
  intros Hst He ->. pose proof He as [= <-].
  assert (forall th', brands (stack th' (<[th := rest]> (stacks m))) ⊆ brands (stack th' (stacks m))) as Hsub.
  { intros th' x. rewrite stack_insert. case_decide as E; [subst th'; rewrite Hst|done].
    rewrite brands_owning. by right. }
  pose proof (finv_distinct m Hm th) as Hb. rewrite Hst, brands_owning, NoDup_cons in Hb. destruct Hb as [Hb Hd].
  pose proof (finv_held m Hm th) as Hh. rewrite Hst in Hh.
  split; cbn [base stacks gates].
  - by apply (reach_step (base m) (ScopeEnd b)); [apply Hm| |].
  - intros t k [Hk Hne]%map_lookup_filter_Some. destruct (finv_tokens m Hm t k Hk) as [th' Hin]. exists th'.
    rewrite stack_insert. case_decide as E; [subst th'|exact Hin].
    rewrite Hst, brands_owning, elem_of_cons in Hin. by destruct Hin as [Hx|Hin].
  - intros th' x Hx%Hsub. by apply (finv_next m Hm) in Hx.
  - intros th'. rewrite stack_insert. case_decide; [done|apply (finv_distinct m Hm)].
  - intros th' th'' x Hx%Hsub Hx'%Hsub. by apply (finv_owner m Hm th' th'' x).
  - intros th'. rewrite stack_insert. case_decide as E; [|apply (finv_held m Hm)].
    destruct g; [|exact Hh]. by apply NoDup_cons in Hh as [_ Hh].
  - intros c th'. rewrite stack_insert. pose proof (finv_gate m Hm c th') as Hc.
    destruct g as [c0|].
    + rewrite held_gate, NoDup_cons in Hh. destruct Hh as [Hc0 Hh].
      assert (gates m !! c0 = Some (mkGate th true)) as Hg.
      { apply (finv_gate m Hm). rewrite Hst, held_gate. by left. }
      destruct (decide (c = c0)) as [->|Hne].
      * rewrite lookup_alter_eq, Hg. cbn. split; [|intros [=]].
        case_decide as E; [done|]. intros H%Hc. congruence.
      * rewrite lookup_alter_ne by done. case_decide as E; [subst th'|done].
        rewrite <- Hc, Hst, held_gate, elem_of_cons. tauto.
    + case_decide as E; [subst th'|done]. by rewrite Hst in Hc.
Qed.

Lemma finv_leave th m' : leave th m = Some m' -> finv m'.
Proof using Hm.
  unfold leave. destruct (stack th (stacks m)) as [|[b g|worker] rest] eqn:Hst; [done|..].
  - intros (w & He & [= <-])%bind_Some.
    pose proof (finv_close th b g rest w _ Hst He eq_refl) as Hf. by destruct g.
  - intros [_ [= <-]]%guard_Some. apply finv_restack. intros th'. rewrite stack_insert.
    case_decide as E; [subst th'; by rewrite Hst|done].
Qed.

Lemma finv_push_waiting th worker : finv (push th (Waiting worker) m).
Proof using Hm.
  apply finv_restack. intros th'. rewrite stack_insert. case_decide as E; [by subst th'|done].
Qed.

Lemma finv_gates gs :
  (forall c th, gs !! c = Some (mkGate th true) <-> gates m !! c = Some (mkGate th true)) ->
  finv (mkFM (base m) (stacks m) gs).
Proof using Hm.
  intros Hgs. split; cbn [base stacks gates]; try apply Hm. intros c th. rewrite Hgs. apply Hm.
Qed.
End preservation.

Lemma finv_fexec o m m' : finv m -> fexec o m = Some m' -> finv m'.
Proof.
  intros Hm. destruct o as [o|k th|th worker|c th|c th|c th|th]; cbn [fexec].
  - intros [Hu (w & He & [= <-])%bind_Some]%guard_Some. split; cbn [base stacks gates].
    + apply (reach_step (base m) o); [apply Hm|by apply unscoped_safe|done].
    + intros t k' Hk. destruct (exec_brands o _ w t k' Hu He Hk) as (t0 & k & H0 & <-).
      by apply (finv_tokens m Hm t0).
    + intros th b Hb%(finv_next m Hm). apply exec_next in He. lia.
    + apply Hm.
    + apply Hm.
    + apply Hm.
    + apply Hm.
  - intros [_ [= <-]]%guard_Some. destruct m as [w vs gs]. by apply (finv_open (mkFM w vs gs) Hm _ _ None).
  - intros [_ [= <-]]%guard_Some.
    by apply (finv_open _ (finv_push_waiting m Hm th worker) _ _ None).
  - intros [Hc [= <-]]%guard_Some. apply (finv_gates m Hm). intros c' th'.
    destruct (decide (c = c')) as [->|Hne]; [rewrite lookup_insert_eq, Hc|by rewrite lookup_insert_ne].
    split; congruence.
  - intros (g & Hg & [Ha [= <-]]%guard_Some)%bind_Some. apply (finv_gates m Hm). intros c' th'.
    destruct th as [th|]; (destruct (decide (c = c')) as [<-|Hne];
      [rewrite ?lookup_insert_eq, ?lookup_delete_eq, Hg|by rewrite ?lookup_insert_ne, ?lookup_delete_ne]);
      split; intros [=]; destruct g; cbn in *; congruence.
  - unfold enter_gate. destruct (gates m !! c) as [g|] eqn:Hg; [|done]. case_decide as Hth; [|done].
    destruct (active g) eqn:Ha; cbn; intros [= <-]; [done|].
    apply (finv_open m Hm ExclusiveFamily th (Some c)). destruct g as [gt ga]. cbn in *. destruct Hth as [-> _].
    subst ga. split; [done|]. apply map_eq. intros c'.
    destruct (decide (c = c')) as [<-|Hne]; [by rewrite lookup_alter_eq, lookup_insert_eq, Hg|].
    by rewrite lookup_alter_ne, lookup_insert_ne.
  - by apply finv_leave.
Qed.

(** ** Lemmas: programs *)

Lemma finv_initial : finv initial_fmachine.
Proof.
  assert (forall th, stack th (stacks initial_fmachine) = []) as Hst by done.
  split.
  - apply reach_init.
  - done.
  - intros th b. rewrite Hst. intros Hb. by apply elem_of_nil in Hb.
  - intros th. rewrite Hst. by apply NoDup_nil.
  - intros th th' b. rewrite Hst. intros Hb. by apply elem_of_nil in Hb.
  - intros th. rewrite Hst. by apply NoDup_nil.
  - intros c th. rewrite Hst. split; [|done]. intros Hc. by apply elem_of_nil in Hc.
Qed.

Lemma frun_cons o ops m : frun (o :: ops) m = fexec o m ≫= frun ops.
Proof.
  unfold frun. cbn. destruct (fexec o m) as [m1|]; [done|]. cbn.
  induction ops as [|o' ops IH]; [done|exact IH].
Qed.

Definition freachable (m : fmachine) : Prop := exists ops, frun ops initial_fmachine = Some m.

(** Along every program, whatever each step preserves. *)
Lemma frun_ind (P : fmachine -> Prop) :
  (forall o m m', finv m -> fexec o m = Some m' -> P m -> P m') ->
  forall ops m m', finv m -> P m -> frun ops m = Some m' -> finv m' /\ P m'.
Proof.
  intros Hstep. induction ops as [|o ops IH]; intros m m' Hm HP Hr; [injection Hr as <-; by split|].
  rewrite frun_cons in Hr. apply bind_Some in Hr as (m1 & He & Hr).
  eapply (IH m1); [by eapply finv_fexec|by eapply Hstep|done].
Qed.

Lemma freachable_inv m : freachable m -> finv m.
Proof.
  intros [ops Hr]. by eapply (frun_ind (fun _ => True)) in Hr as [Hm _]; [|done|apply finv_initial|].
Qed.

(** A step is one of the token machine, or leaves its world alone. *)
Lemma fexec_base o m m' :
  fexec o m = Some m' ->
  base m' = base m \/ exists q, safe q = true /\ exec q (base m) = Some (base m').
Proof.
  destruct o as [q|k th|th worker|c th|c th|c th|th]; cbn [fexec].
  - intros [Hu (w & He & [= <-])%bind_Some]%guard_Some. right. exists q. split; [by apply unscoped_safe|done].
  - intros [_ [= <-]]%guard_Some. right. by exists (WithFreshToken (scope_family k) th).
  - intros [_ [= <-]]%guard_Some. right. by exists (WithFreshToken SyncRegionFamily worker).
  - intros [_ [= <-]]%guard_Some. by left.
  - intros (g & _ & [_ [= <-]]%guard_Some)%bind_Some. by left.
  - unfold enter_gate. destruct (gates m !! c) as [g|]; [|done]. case_decide; [|done].
    destruct (active g); intros [= <-]; [by left|]. right. by exists (WithFreshToken ExclusiveFamily th).
  - unfold leave. destruct (stack th (stacks m)) as [|[b g|worker] rest]; [done|..].
    + intros (w & He & [= <-])%bind_Some. right. exists (ScopeEnd b). split; [done|]. cbn. by destruct g.
    + intros [_ [= <-]]%guard_Some. by left.
Qed.

#[export] Instance frame_phases : BrandPhases fstep finv (fun b m => phase_of b (base m)).
Proof.
  split; [intros m m' Hm (o & He); by eapply finv_fexec|].
  intros b m m' Hm (o & He). destruct (fexec_base o m m' He) as [->|(q & Hs & He')]; [constructor|].
  eapply exec_phase_step; [apply reachable_inv, Hm|done..].
Qed.

Lemma frun_steps ops m m' : frun ops m = Some m' -> rtc fstep m m'.
Proof.
  revert m. induction ops as [|o ops IH]; intros m Hr; [injection Hr as <-; apply rtc_refl|].
  rewrite frun_cons in Hr. apply bind_Some in Hr as (m1 & He & Hr). eapply rtc_l; [by exists o|by apply IH].
Qed.

(** No running call has brand [b], and none will. *)
Definition past (b : positive) (m : fmachine) : Prop :=
  (b < next (base m))%positive /\ forall th, b ∉ brands (stack th (stacks m)).

Lemma past_open b fam th g m : past b m -> past b (open_scope fam th g m).
Proof.
  intros [Hlt Hb]. split; [cbn; lia|]. intros th'. cbn. rewrite stack_insert.
  case_decide; [subst; rewrite brands_owning, elem_of_cons; intros [->|Hx]; [lia|by apply Hb in Hx]|apply Hb].
Qed.

Lemma past_step b o m m' : finv m -> fexec o m = Some m' -> past b m -> past b m'.
Proof.
  intros Hm He [Hlt Hb]. destruct o as [q|k th|th worker|c th|c th|c th|th]; cbn [fexec] in He.
  - apply guard_Some in He as [_ (w & He & [= <-])%bind_Some]. apply exec_next in He. split; [cbn; lia|done].
  - apply guard_Some in He as [_ [= <-]]. by apply past_open.
  - apply guard_Some in He as [_ [= <-]]. apply past_open. split; [done|]. intros th'. cbn.
    rewrite stack_insert. case_decide; [subst; rewrite brands_waiting|]; apply Hb.
  - apply guard_Some in He as [_ [= <-]]. done.
  - apply bind_Some in He as (g & _ & [_ [= <-]]%guard_Some). done.
  - unfold enter_gate in He. destruct (gates m !! c) as [g|]; [|done]. case_decide; [|done].
    destruct (active g); injection He as <-; [done|]. by apply past_open.
  - unfold leave in He. destruct (stack th (stacks m)) as [|[b' g|worker] rest] eqn:Hst; [done|..].
    + apply bind_Some in He as (w & [= <-] & [= <-]).
      assert (forall th', b ∉ brands (stack th' (<[th := rest]> (stacks m)))) as Hb'.
      { intros th' Hx. rewrite stack_insert in Hx. case_decide as E; [subst th'|by apply (Hb th')].
        apply (Hb th). rewrite Hst, brands_owning. by right. }
      by destruct g.
    + apply guard_Some in He as [_ [= <-]]. split; [done|]. intros th' Hx. cbn in Hx.
      rewrite stack_insert in Hx. case_decide as E; [subst th'|by apply (Hb th')].
      apply (Hb th). by rewrite Hst.
Qed.

Lemma leave_past th b g rest m m' :
  finv m -> stack th (stacks m) = Owning b g :: rest -> leave th m = Some m' ->
  stack th (stacks m') = rest /\ no_trace b (base m') /\ past b m'.
Proof.
  intros Hm Hst Hlv. unfold leave in Hlv. rewrite Hst in Hlv.
  apply bind_Some in Hlv as (w & He & [= <-]). pose proof He as [= Ew].
  assert (past b (mkFM w (<[th := rest]> (stacks m)) (gates m))) as Hp.
  { split.
    - rewrite <- Ew. cbn. apply (finv_next m Hm th). rewrite Hst. by left.
    - intros th' Hx. cbn in Hx. rewrite stack_insert in Hx. pose proof (finv_distinct m Hm th) as Hd.
      rewrite Hst, brands_owning, NoDup_cons in Hd. case_decide as E; [by apply (proj1 Hd)|].
      apply E. apply (finv_owner m Hm th th' b); [rewrite Hst; by left|done]. }
  pose proof (scope_end_no_trace b _ w He) as Hn.
  destruct g; cbn; by rewrite stack_insert, decide_True.
Qed.

(** ** Lemmas: the brands of a gate *)

(** The brands that the calls of [enter] on gate [c] mint along a program. *)
Fixpoint minted (c : positive) (ops : list fop) (m : fmachine) : list positive :=
  match ops with
  | [] => []
  | o :: ops =>
      match o with
      | FEnterGate c' th =>
          match fst (enter_gate c' th m) with
          | Some (inl _) => if decide (c' = c) then [next (base m)] else []
          | _ => []
          end
      | _ => []
      end ++ match fexec o m with Some m => minted c ops m | None => [] end
  end.

(** Such a brand belongs to a running call on the gate, or to one that ended. *)
Definition brand_of_gate (c b : positive) (m : fmachine) : Prop :=
  past b m \/ exists th, Owning b (Some c) ∈ stack th (stacks m).

Lemma gate_brand_open c b fam th g m :
  brand_of_gate c b m -> brand_of_gate c b (open_scope fam th g m).
Proof.
  intros [Hp|[th' Hin]]; [left; by apply past_open|right]. exists th'. cbn. rewrite stack_insert.
  case_decide as E; [subst th'; by right|done].
Qed.

Lemma gate_brand_step c b o m m' :
  finv m -> fexec o m = Some m' -> brand_of_gate c b m -> brand_of_gate c b m'.
Proof.
  intros Hm He [Hp|[t Hin]]; [left; by eapply past_step|].
  assert (brand_of_gate c b m) as Hb by (right; by exists t).
  destruct o as [q|k th|th worker|c' th|c' th|c' th|th]; cbn [fexec] in He.
  - apply guard_Some in He as [_ (w & _ & [= <-])%bind_Some]. right. by exists t.
  - apply guard_Some in He as [_ [= <-]]. by apply gate_brand_open.
  - apply guard_Some in He as [_ [= <-]]. apply gate_brand_open. right. exists t. cbn.
    rewrite stack_insert. case_decide; [subst; by right|done].
  - apply guard_Some in He as [_ [= <-]]. right. by exists t.
  - apply bind_Some in He as (g & _ & [_ [= <-]]%guard_Some). right. by exists t.
  - unfold enter_gate in He. destruct (gates m !! c') as [g|]; [|done]. case_decide; [|done].
    destruct (active g); injection He as <-; [done|]. apply gate_brand_open. right. by exists t.
  - destruct (stack th (stacks m)) as [|[b' g|worker] rest] eqn:Hst; [by unfold leave in He; rewrite Hst in He|..].
    + destruct (decide (t = th)) as [->|Hne].
      * rewrite Hst in Hin. apply elem_of_cons in Hin as [[= <- <-]|Hin].
        { left. by eapply (leave_past th b (Some c)). }
        right. exists th. destruct (leave_past th b' g rest m m' Hm Hst He) as [-> _]. done.
      * right. exists t. unfold leave in He. rewrite Hst in He. apply bind_Some in He as (w & _ & [= <-]).
        destruct g; cbn; rewrite stack_insert; by case_decide.
    + unfold leave in He. rewrite Hst in He. apply guard_Some in He as [_ [= <-]].
      right. exists t. cbn. rewrite stack_insert. case_decide as E; [subst t|done].
      rewrite Hst in Hin. apply elem_of_cons in Hin as [?|?]; done.
Qed.

Lemma minted_of_gate c b ops m m' :
  finv m -> frun ops m = Some m' -> b ∈ minted c ops m -> brand_of_gate c b m'.
Proof.
  revert m. induction ops as [|o ops IH]; intros m Hm Hr Hb; [by apply elem_of_nil in Hb|].
  rewrite frun_cons in Hr. apply bind_Some in Hr as (m1 & He & Hr). cbn [minted] in Hb.
  rewrite He in Hb. pose proof (finv_fexec o m m1 Hm He) as Hm1.
  apply elem_of_app in Hb as [Hb|Hb]; [|by apply (IH m1)].
  destruct (frun_ind (brand_of_gate c b) (gate_brand_step c b) ops m1 m') as [_ Hout]; try done.
  destruct o as [| | | | |c' th|]; try (by apply elem_of_nil in Hb). cbn [fexec] in He.
  unfold enter_gate in He, Hb. destruct (gates m !! c') as [g|]; [|by apply elem_of_nil in Hb].
  case_decide; [|by apply elem_of_nil in Hb]. destruct (active g); [by apply elem_of_nil in Hb|].
  injection He as <-. cbn [fst] in Hb. destruct (decide (c' = c)) as [->|]; [|by apply elem_of_nil in Hb].
  apply list_elem_of_singleton in Hb as ->. right. exists th. cbn. rewrite stack_insert, decide_True by done.
  by left.
Qed.

(** ** Lemmas: unwinding *)

Lemma no_trace_scope_end b b' w w' : no_trace b w -> scope_end b' w = Some w' -> no_trace b w'.
Proof.
  intros (Ht & Hc & Hh) [= <-]. split; [by intros t k [Hk _]%map_lookup_filter_Some; apply (Ht t)|].
  split; [by intros c d [Hd _]%map_lookup_filter_Some; apply (Hc c)|].
  intros i h _. unfold of_brand. cbn. destruct (filter _ (tokens w) !! h_token h) as [k|] eqn:Hk; [|done].
  apply map_lookup_filter_Some in Hk as [Hk _]. by apply bool_decide_eq_false, (Ht _ k Hk).
Qed.

(** The brands [l] end, one after the other. *)
Definition end_brands (l : list positive) (w : world) : world :=
  foldl (fun w b => default w (scope_end b w)) w l.

Lemma end_brands_tokens l w t :
  tokens (end_brands l w) !! t = k ← tokens w !! t; if decide (t_brand k ∈ l) then None else Some k.
Proof.
  revert w. induction l as [|b l IH]; intros w; cbn.
  - destruct (tokens w !! t); [|done]. cbn. by rewrite decide_False by (by intros Hc%elem_of_nil).
  - unfold end_brands in IH. rewrite IH. cbn [tokens]. rewrite map_lookup_filter.
    destruct (tokens w !! t) as [k|]; [|done]. cbn [mbind option_bind].
    destruct (decide (t_brand k = b)) as [E|E].
    + rewrite option_guard_False by (by intros H). cbn. by rewrite decide_True by (rewrite E; by left).
    + rewrite option_guard_True by done. cbn. apply decide_ext. rewrite elem_of_cons. tauto.
Qed.

Lemma end_brands_no_trace l w b : b ∈ l \/ no_trace b w -> no_trace b (end_brands l w).
Proof.
  revert w. induction l as [|x l IH]; intros w Hb; cbn.
  - by destruct Hb as [Hb%elem_of_nil|Hb].
  - apply IH. destruct (decide (x = b)) as [->|Hne].
    + right. by apply (scope_end_no_trace b w).
    + destruct Hb as [[->|Hb]%elem_of_cons|Hb]; [done|by left|right].
      by apply (no_trace_scope_end b x w).
Qed.

(** What is left when the calls [l] of [th] have ended. *)
Definition unwound (th : positive) (l rest : list frame) (m m' : fmachine) : Prop :=
  stack th (stacks m') = rest /\
  (forall th', th' <> th -> stack th' (stacks m') = stack th' (stacks m)) /\
  (forall c, gates m' !! c = if decide (c ∈ held l) then Some (mkGate th false) else gates m !! c) /\
  base m' = end_brands (brands l) (base m).

Definition owns (f : frame) : bool := match f with Owning _ _ => true | Waiting _ => false end.

Lemma unwound_refl th m : unwound th [] (stack th (stacks m)) m m.
Proof.
  split_and!; [done|done| |done]. intros c. by rewrite decide_False by (by intros Hc%elem_of_nil).
Qed.

(** One call more. *)
Lemma unwound_leave th b g l rest m :
  finv m -> stack th (stacks m) = Owning b g :: l ++ rest ->
  exists m1, leave th m = Some m1 /\ stack th (stacks m1) = l ++ rest /\
    forall m', unwound th l rest m1 m' -> unwound th (Owning b g :: l) rest m m'.
Proof.
  intros Hm Hst.
  exists (mkFM (default (base m) (scope_end b (base m))) (<[th := l ++ rest]> (stacks m))
    match g with Some c => alter (fun x => mkGate (g_thread x) false) c (gates m) | None => gates m end).
  split; [unfold leave; rewrite Hst; by destruct g|].
  split; [cbn; by rewrite stack_insert, decide_True|].
  intros m' (Hstk & Hother & Hgates & Hbase). split_and!; [done| | |by rewrite Hbase].
  - intros th' Hne. rewrite Hother by done. cbn. by rewrite stack_insert, decide_False.
  - intros c. rewrite Hgates. cbn [gates]. destruct g as [c0|]; [|done].
    assert (gates m !! c0 = Some (mkGate th true)) as Hc0
      by (apply (finv_gate m Hm); rewrite Hst, held_gate; by left).
    rewrite held_gate. destruct (decide (c = c0)) as [->|Hne].
    + rewrite lookup_alter_eq, Hc0. cbn. rewrite (decide_True (P := c0 ∈ c0 :: held l)) by (by left).
      by case_decide.
    + rewrite lookup_alter_ne by done. apply decide_ext. rewrite elem_of_cons. tauto.
Qed.

Lemma unwind_spec th l rest m :
  finv m -> forallb owns l = true -> stack th (stacks m) = l ++ rest ->
  exists m', unwind_to (length rest) (length l) th m = Some m' /\ unwound th l rest m m'.
Proof.
  revert m. induction l as [|[b g|worker] l IH]; intros m Hm Hl Hst; [|cbn in Hl|done].
  - cbn in Hst. subst rest. exists m. split; [|apply unwound_refl]. cbn. by rewrite decide_True.
  - destruct (unwound_leave th b g l rest m Hm Hst) as (m1 & Hlv & Hst1 & Hun).
    destruct (IH m1 (finv_leave m Hm th m1 Hlv) Hl Hst1) as (m' & Hrun & Hm').
    exists m'. split; [|by apply Hun]. cbn. rewrite decide_False.
    + by rewrite Hlv.
    + rewrite Hst. cbn. rewrite length_app. lia.
Qed.

(** ** Lemmas: the tokens of a gate *)

(** A token of a call on the gate is that of a running one. *)
Lemma token_of_gate m c ops t k :
  finv m -> frun ops initial_fmachine = Some m -> tokens (base m) !! t = Some k ->
  t_brand k ∈ minted c ops initial_fmachine ->
  exists th, Owning (t_brand k) (Some c) ∈ stack th (stacks m).
Proof.
  intros Hm Hrun Hk Hb. destruct (minted_of_gate c _ ops _ m finv_initial Hrun Hb) as [[_ Hp]|Hin]; [|done].
  destruct (finv_tokens m Hm t k Hk) as [th Hin]. by destruct (Hp th).
Qed.

(** A running call on the gate is on its thread, and the gate is active. *)
Lemma gate_frame m c g th b :
  finv m -> gates m !! c = Some g -> Owning b (Some c) ∈ stack th (stacks m) ->
  th = g_thread g /\ active g = true.
Proof.
  intros Hm Hg Hin. assert (c ∈ held (stack th (stacks m))) as Hc.
  { apply list_elem_of_omap. by eexists. }
  apply (finv_gate m Hm) in Hc. rewrite Hg in Hc. by injection Hc as ->.
Qed.

(** No value twice among those picked from a list. *)
Lemma omap_lookup_inj {A B} (f : A -> option B) l i j x y b :
  NoDup (omap f l) -> l !! i = Some x -> l !! j = Some y -> f x = Some b -> f y = Some b -> i = j.
Proof.
  revert i j. induction l as [|z l IH]; intros i j Hn Hi Hj Hx Hy; [done|].
  assert (forall n u, l !! n = Some u -> f u = Some b -> b ∈ omap f l) as Hin.
  { intros n u Hu Hb. apply list_elem_of_omap. exists u. split; [by eapply list_elem_of_lookup_2|done]. }
  destruct i as [|i], j as [|j]; cbn in Hi, Hj, Hn; simplify_eq; try done.
  - rewrite Hx in Hn. apply NoDup_cons in Hn as [Hn _]. by destruct Hn; eapply Hin.
  - rewrite Hy in Hn. apply NoDup_cons in Hn as [Hn _]. by destruct Hn; eapply Hin.
  - f_equal. eapply IH; [|done..]. destruct (f z); [by apply NoDup_cons in Hn as [_ Hn]|done].
Qed.

(** One call at a time runs on the gate. *)
Lemma gate_frame_unique m c th b b' :
  finv m -> Owning b (Some c) ∈ stack th (stacks m) -> Owning b' (Some c) ∈ stack th (stacks m) -> b = b'.
Proof.
  intros Hm [i Hi]%list_elem_of_lookup [j Hj]%list_elem_of_lookup.
  pose proof (omap_lookup_inj _ _ i j _ _ c (finv_held m Hm th) Hi Hj eq_refl eq_refl) as ->. congruence.
Qed.

(** ** Properties *)

(** C29: Brands live as long as the calls that mint them: in every state a program
    reaches, on any number of threads with any nesting of scopes and gates, the
    world is one of the token machine and each brand goes through the phases of
    its lock; every token is of the brand of one running call, on one thread, and
    each running call has at most one; and once the call has ended, by a return
    or by unwinding, no token, permit, guard or cell of its brand is left, and no
    token of it ever comes back. *)
Theorem frames_own_brands (m : fmachine) :
  freachable m ->
  reachable (base m) /\
  (forall b, rtc phase_step Free (phase_of b (base m))) /\
  (forall t k, tokens (base m) !! t = Some k ->
     exists th, t_brand k ∈ brands (stack th (stacks m)) /\
       (forall th', t_brand k ∈ brands (stack th' (stacks m)) -> th' = th) /\
       (forall t' k', tokens (base m) !! t' = Some k' -> t_brand k' = t_brand k -> t' = t)) /\
  (forall th b g rest m1 m2 ops, stack th (stacks m) = Owning b g :: rest -> leave th m = Some m1 ->
     frun ops m1 = Some m2 ->
     stack th (stacks m1) = rest /\ no_trace b (base m1) /\
     forall t k, tokens (base m2) !! t = Some k -> t_brand k <> b).
Proof.
  intros Hr. pose proof (freachable_inv m Hr) as Hm. pose proof (finv_base m Hm) as Hb.
  split_and!; [done| | |].
  - intros b. destruct Hr as [ops Hr].
    exact (lock_steps fstep finv (fun b m => phase_of b (base m)) b _ _ finv_initial (frun_steps ops _ m Hr)).
  - intros t k Hk. destruct (finv_tokens m Hm t k Hk) as [th Hin]. exists th. split_and!; [done| |].
    + intros th' Hin'. by apply (finv_owner m Hm th' th (t_brand k)).
    + intros t' k' Hk' E. by apply (inv_unique _ (reachable_inv _ Hb) t' t k' k).
  - intros th b g rest m1 m2 ops Hst Hlv Hrun.
    destruct (leave_past th b g rest m m1 Hm Hst Hlv) as (Hst1 & Hn & Hp).
    do 2 (split; [done|]). intros t k Hk.
    destruct (frun_ind (past b) (past_step b) ops m1 m2 (finv_leave m Hm th m1 Hlv) Hp Hrun) as [Hm2 [_ Hout]].
    intros <-. destruct (finv_tokens m2 Hm2 t k Hk) as [th' Hin]. by apply (Hout th').
Qed.

(** C30: A [ReentrancyCell] hands out one token at a time: the gate is active exactly
    while a call of [enter] on its thread runs, which is then the only one; until
    that call ends [enter] is refused and changes nothing; an idle gate lets in,
    with the only token of a fresh brand; and of all tokens that the calls on this
    gate have minted since the program began at most one exists, the one of the
    call that is running. *)
Theorem gate_hands_out_one_token (m : fmachine) (c : positive) (g : gate) :
  freachable m -> gates m !! c = Some g ->
  (active g = true <-> c ∈ held (stack (g_thread g) (stacks m))) /\
  (forall th, c ∈ held (stack th (stacks m)) -> th = g_thread g) /\
  (forall th i j b b', stack th (stacks m) !! i = Some (Owning b (Some c)) ->
     stack th (stacks m) !! j = Some (Owning b' (Some c)) -> i = j) /\
  (runs (g_thread g) m ->
   if active g then enter_gate c (g_thread g) m = (Some (inr tt), m)
   else exists m' t k, enter_gate c (g_thread g) m = (Some (inl tt), m') /\
     tokens (base m') !! t = Some k /\ t_thread k = g_thread g /\ t_family k = ExclusiveFamily /\
     stack (g_thread g) (stacks m') = Owning (t_brand k) (Some c) :: stack (g_thread g) (stacks m) /\
     (forall t' k', tokens (base m') !! t' = Some k' -> t_brand k' = t_brand k -> t' = t)) /\
  (forall ops t t' k k', frun ops initial_fmachine = Some m ->
     tokens (base m) !! t = Some k -> t_brand k ∈ minted c ops initial_fmachine ->
     tokens (base m) !! t' = Some k' -> t_brand k' ∈ minted c ops initial_fmachine ->
     t = t' /\ active g = true /\
     Owning (t_brand k) (Some c) ∈ stack (g_thread g) (stacks m)).
Proof.
  intros Hr Hg. pose proof (freachable_inv m Hr) as Hm. destruct g as [gt ga]. cbn [g_thread active].
  split_and!.
  - rewrite (finv_gate m Hm c gt), Hg. destruct ga; split; congruence.
  - intros th Hin%(finv_gate m Hm). congruence.
  - intros th i j b b' Hi Hj. by eapply (omap_lookup_inj _ _ i j _ _ c (finv_held m Hm th) Hi Hj).
  - intros Hruns. unfold enter_gate. rewrite Hg. cbn [g_thread active].
    rewrite decide_True by done. destruct ga; [done|].
    eexists _, (next (base m)), (mkToken (next (base m)) ExclusiveFamily gt gt). split; [done|]. cbn.
    split; [apply lookup_insert_eq|]. do 2 (split; [done|]).
    split; [by rewrite stack_insert, decide_True|].
    intros t k Hk. apply lookup_insert_Some in Hk as [[<- _]|[_ Hk]]; [done|]. intros Hb.
    apply (inv_tokens _ (reachable_inv _ (finv_base m Hm))) in Hk as (_ & Hlt & _). lia.
  - intros ops t t' k k' Hrun Hk Hb Hk' Hb'.
    destruct (token_of_gate m c ops t k Hm Hrun Hk Hb) as [th Hin].
    destruct (token_of_gate m c ops t' k' Hm Hrun Hk' Hb') as [th' Hin'].
    destruct (gate_frame m c (mkGate gt ga) th (t_brand k) Hm Hg Hin) as [-> [= Ha]].
    destruct (gate_frame m c (mkGate gt ga) th' (t_brand k') Hm Hg Hin') as [-> _].
    split; [|by split]. apply (inv_unique _ (reachable_inv _ (finv_base m Hm)) t t' k k'); try done.
    by apply (gate_frame_unique m c gt).
Qed.

(** C39: A panic that is caught gives back what was there: when a thread unwinds the
    calls it opened since some depth, scopes and gates in any nesting, each of
    their gates is idle again, on its thread, every other gate is as it was, as
    are the other threads' calls; nothing of the calls' brands is left, and the
    tokens of all other brands are untouched. *)
Theorem unwinding_restores (m : fmachine) (th : positive) (l rest : list frame) :
  freachable m -> forallb owns l = true -> stack th (stacks m) = l ++ rest ->
  exists m', unwind_to (length rest) (length l) th m = Some m' /\
    stack th (stacks m') = rest /\
    (forall th', th' <> th -> stack th' (stacks m') = stack th' (stacks m)) /\
    (forall c, gates m' !! c = if decide (c ∈ held l) then Some (mkGate th false) else gates m !! c) /\
    (forall b, b ∈ brands l -> no_trace b (base m')) /\
    (forall t k, tokens (base m) !! t = Some k -> t_brand k ∉ brands l ->
       tokens (base m') !! t = Some k).
Proof.
  intros Hr Hl Hst. destruct (unwind_spec th l rest m (freachable_inv m Hr) Hl Hst) as (m' & Hrun & Hun).
  destruct Hun as (Hstk & Hother & Hgates & Hbase). exists m'. split_and!; try done.
  - intros b Hb. rewrite Hbase. apply end_brands_no_trace. by left.
  - intros t k Hk Hb. rewrite Hbase, end_brands_tokens, Hk. cbn. by rewrite decide_False.
Qed.

(** On thread 1 a scope, in it a gate and in it a thread-local scope, while thread 2
    runs the worker of an exclusive scope. *)
Definition nested : list fop :=
  [FGateNew 7 1; FEnter BrandScope 1; FEnterGate 7 1; FEnter ThreadLocalScope 1;
   FExclusive 3 2; FBase (NewCell 1 2 u32_parts [7; 8; 9]%Z); FEnterGate 7 1].

Definition nested_state : fmachine :=
  match frun nested initial_fmachine with Some m => m | None => initial_fmachine end.

Lemma nested_reachable : freachable nested_state.
Proof. exists nested. vm_compute. reflexivity. Qed.

Lemma frames_own_brands_witness :
  stack 1 (stacks nested_state) = [Owning 3 None; Owning 2 (Some 7%positive); Owning 1 None] /\
  exists th, 2%positive ∈ brands (stack th (stacks nested_state)) /\
    forall th', 2%positive ∈ brands (stack th' (stacks nested_state)) -> th' = th.
Proof.
  split; [vm_compute; reflexivity|].
  destruct (frames_own_brands nested_state nested_reachable) as (_ & _ & Htok & _).
  destruct (Htok 2%positive (mkToken 2 ExclusiveFamily 1 1) ltac:(vm_compute; reflexivity)) as (th & Hin & Ho & _).
  by exists th.
Defined.

Lemma gate_hands_out_one_token_witness :
  enter_gate 7 1 nested_state = (Some (inr tt), nested_state) /\
  forall t k, tokens (base nested_state) !! t = Some k ->
    t_brand k ∈ minted 7 nested initial_fmachine -> t = 2%positive.
Proof.
  destruct (gate_hands_out_one_token nested_state 7 (mkGate 1 true) nested_reachable ltac:(vm_compute; reflexivity))
    as (_ & _ & _ & Hent & Hone).
  split; [apply Hent; vm_compute; exact I|].
  intros t k Hk Hb.
  destruct (Hone nested t 2%positive k (mkToken 2 ExclusiveFamily 1 1) ltac:(vm_compute; reflexivity) Hk Hb
    ltac:(vm_compute; reflexivity) ltac:(left)) as (Ht & _ & _).
  exact Ht.
Defined.

Lemma unwinding_restores_witness :
  exists m', unwind_to 1 2 1 nested_state = Some m' /\
    stack 1 (stacks m') = [Owning 1 None] /\ gates m' !! 7%positive = Some (mkGate 1 false) /\
    no_trace 2 (base m').
Proof.
  destruct (unwinding_restores nested_state 1 [Owning 3 None; Owning 2 (Some 7%positive)] [Owning 1 None]
    nested_reachable eq_refl ltac:(vm_compute; reflexivity)) as (m' & Hrun & Hst & _ & Hg & Hn & _).
  exists m'. split; [exact Hrun|]. split; [exact Hst|]. split.
  - rewrite Hg. by rewrite decide_True by (by left).
  - apply Hn. right. by left.
Defined.
