(* ===== verification/Views.v ===== *)
(** * In-place branding ([MelinoeCell::from_mut], [from_mut_slice] in [src/cell/melinoe_cell.rs])

    [from_mut] turns an exclusive borrow of a plain value into an exclusive borrow
    of a branded cell at the same address; [from_mut_slice] does it for a slice.
    The machine of [Token] is extended with plain values ([place]s) and with the
    views that borrow them: while a view is live its place is not accessible, and
    when the view's borrow ends the place holds what the cell holds.

    Main results: with views the token machine only makes moves it makes anyway,
    so all that is proved of it, the brand-wide exclusion and the readers-writer
    phases included, holds of views; and two views never overlap.  That the view
    is at the address of the value is the cast's and the layout's
    ([repr(transparent)]), and not proved here: a value and the cell that views it
    are never accessible at once, so the model keeps the current contents with
    whichever of the two is. *)
From S2P Require Import Prelude AutoTraits Token BrandLock.
From stdpp Require Import base numbers list gmap relations.
Local Open Scope Z_scope.

(** A plain value with its owner: a tuple of components, or the elements of a
    slice. *)
Record place : Type := mkPlace {
  pl_thread : positive;
  pl_parts : list payload;
  pl_value : list Z
}.

(** The token machine, the places, and the place each view borrows. *)
Record vworld : Type := mkV {
  base : world;
  places : gmap positive place;
  views : gmap positive positive
}.

Definition initial_vworld : vworld := mkV initial_world ∅ ∅.

(** ** Operations *)

(** No view borrows place [p]. *)
Definition unviewed (p : positive) (v : vworld) : Prop := map_Forall (fun _ p' => p' <> p) (views v).

(** No view of brand [b] is live: its type mentions the brand. *)
Definition no_view_of (b : positive) (v : vworld) : Prop :=
  map_Forall (fun c _ => match cells (base v) !! c with Some d => c_brand d <> b | None => True end)
    (views v).

#[export] Instance no_view_of_dec b v : Decision (no_view_of b v).
Proof. apply map_Forall_dec. intros c p. destruct (cells (base v) !! c); apply _. Defined.

(** [let mut x = v], on thread [th]. *)
Definition new_place (p th : positive) (parts : list payload) (x : list Z) (v : vworld) : option vworld :=
  guard (places v !! p = None);;
  guard (zlen parts = zlen x);;
  Some (mkV (base v) (<[p := mkPlace th parts x]> (places v)) (views v)).

(** [x[j] = y] on the plain value. *)
Definition write_place (p : positive) (j y : Z) (v : vworld) : option vworld :=
  pl ← places v !! p;
  guard (unviewed p v);;
  guard (0 <= j < zlen (pl_value pl));;
  Some (mkV (base v)
    (<[p := mkPlace (pl_thread pl) (pl_parts pl) (zset j y (pl_value pl))]> (places v)) (views v)).

(** [MelinoeCell::from_mut(&mut x)] and [MelinoeCell::from_mut_slice(&mut xs)]:
    the brand is whatever the caller's types say. *)
Definition from_mut (p brand : positive) (v : vworld) : option vworld :=
  pl ← places v !! p;
  guard (unviewed p v);;
  w ← new_cell (pl_thread pl) brand (pl_parts pl) (pl_value pl) (base v);
  Some (mkV w (places v) (<[next (base v) := p]> (views v))).
Definition from_mut_slice (p brand : positive) (v : vworld) : option vworld := from_mut p brand v.

(** The borrow of the view ends, which no code of the library does: the borrows of
    the cell have ended, and the value, with what was written through the view, is
    accessible under its own name again. *)
Definition end_view (c : positive) (v : vworld) : option vworld :=
  p ← views v !! c;
  pl ← places v !! p;
  d ← cells (base v) !! c;
  w ← cell_into_inner (c_thread d) c (base v);
  Some (mkV w (<[p := mkPlace (pl_thread pl) (pl_parts pl) (c_value d)]> (places v))
    (delete c (views v))).

(** [impl From<T>], [impl Default] for [MelinoeCell]: [T::default()] is [T]'s. *)
Definition cell_from (th brand : positive) (parts : list payload) (x : list Z) (w : world)
    : option world := new_cell th brand parts x w.
Definition cell_default (th brand : positive) (parts : list payload) (default_value : list Z)
    (w : world) : option world := new_cell th brand parts default_value w.

(** ** Programs *)

Inductive vop : Type :=
| VBase (o : op)
| NewPlace (p th : positive) (parts : list payload) (x : list Z)
| WritePlace (p : positive) (j y : Z)
| FromMut (p brand : positive)
| EndView (c : positive).

(** An operation of the token machine: a view is only a borrow of its cell, which
    cannot be moved out of, and it does not outlive its brand. *)
Definition base_op (o : op) (v : vworld) : option vworld :=
  guard (match o with CellIntoInner _ c => bool_decide (views v !! c = None) | _ => true end = true);;
  guard (match o with ScopeEnd b => bool_decide (no_view_of b v) | _ => true end = true);;
  w ← exec o (base v);
  Some (mkV w (places v) (views v)).

Definition vexec (o : vop) : vworld -> option vworld :=
  match o with
  | VBase o => base_op o
  | NewPlace p th parts x => new_place p th parts x
  | WritePlace p j y => write_place p j y
  | FromMut p brand => from_mut p brand
  | EndView c => end_view c
  end.

Definition vsafe (o : vop) : bool := match o with VBase o => safe o | _ => true end.

Definition vrun (ops : list vop) (v : vworld) : option vworld :=
  foldl (fun v o => v ≫= vexec o) (Some v) ops.

(** A step of a safe program. *)
Definition vstep (v v' : vworld) : Prop := exists o, vsafe o = true /\ vexec o v = Some v'.

(** ** The invariant *)

Record vinv (v : vworld) : Prop := {
  vinv_base : inv (base v);
  vinv_views c p : views v !! c = Some p -> exists d pl, cells (base v) !! c = Some d /\
    places v !! p = Some pl /\ c_parts d = pl_parts pl;
  vinv_apart c c' p : views v !! c = Some p -> views v !! c' = Some p -> c = c'
}.

(** ** Lemmas *)

(** A step is a step of the token machine, or leaves it alone. *)
Lemma vstep_base v v' : vstep v v' -> base v' = base v \/ safe_step (base v) (base v').
Proof.
  intros (o & Hs & He). destruct o as [o|p th parts x|p j y|p b|c]; cbn [vexec vsafe] in *.
  - right. apply guard_Some in He as [_ [_ (w & Hw & [= <-])%bind_Some]%guard_Some]. by exists o.
  - left. apply guard_Some in He as [_ [_ [= <-]]%guard_Some]. done.
  - left. apply bind_Some in He as (pl & _ & [_ [_ [= <-]]%guard_Some]%guard_Some). done.
  - right. apply bind_Some in He as (pl & _ & [_ (w & Hw & [= <-])%bind_Some]%guard_Some).
    by exists (NewCell (pl_thread pl) b (pl_parts pl) (pl_value pl)).
  - right. apply bind_Some in He as (p & _ & (pl & _ & (d & _ & (w & Hw & [= <-])%bind_Some)%bind_Some)%bind_Some).
    by exists (CellIntoInner (c_thread d) c).
Qed.

Lemma inv_safe_step w w' : inv w -> safe_step w w' -> inv w'.
Proof. intros Hw (o & Hs & He). by eapply exec_inv. Qed.

(** Same brand and parts. *)
Definition same_shape (d d' : cell) : Prop := c_parts d' = c_parts d /\ c_brand d' = c_brand d.

Lemma insert_keeps_cell (m : gmap positive cell) c0 d0 d0' c d :
  m !! c0 = Some d0 -> same_shape d0 d0' -> m !! c = Some d ->
  exists d', <[c0 := d0']> m !! c = Some d' /\ same_shape d d'.
Proof.
  intros H0 Hs Hc. destruct (decide (c0 = c)) as [->|Hne].
  - rewrite lookup_insert_eq. exists d0'. by assert (d0 = d) as <- by congruence.
  - rewrite lookup_insert_ne by done. by exists d.
Qed.

(** A cell stays, with its brand and parts, unless it is consumed or its brand
    ends. *)
Lemma exec_keeps_cell o w w' c d :
  inv w -> exec o w = Some w' -> cells w !! c = Some d ->
  (forall th, o <> CellIntoInner th c) -> o <> ScopeEnd (c_brand d) ->
  exists d', cells w' !! c = Some d' /\ same_shape d d'.
Proof.
  intros Hw He Hc Hin Hse.
  destruct o; cbn in He; try (exec_inv_tac He; by exists d);
    try (exec_inv_tac He; by eapply insert_keeps_cell).
  - apply guard_Some in He as [_ [_ [= <-]]%guard_Some]. cbn. exists d.
    rewrite lookup_insert_ne; [done|]. intros E. rewrite <- E in Hc.
    apply (inv_cells w Hw) in Hc as [? _]. lia.
  - apply bind_Some in He as ([[h form] d0] & Ho & [_ [_ [= <-]]%guard_Some]%guard_Some).
    destruct (opens_inv _ _ _ _ _ _ Hw Ho) as (_ & _ & Hd & _). by eapply insert_keeps_cell.
  - apply bind_Some in He as (d0 & Hd & [_ [_ [= <-]]%guard_Some]%guard_Some). cbn. exists d.
    rewrite lookup_delete_ne; [done|]. intros ->. by eapply Hin.
  - injection He as <-. exists d. split; [|done]. apply map_lookup_filter_Some. split; [done|].
    congruence.
Qed.

Lemma vinv_initial : vinv initial_vworld.
Proof. split; [apply inv_initial|done|done]. Qed.

Lemma cell_old w c d : inv w -> cells w !! c = Some d -> c <> next w.
Proof. intros Hw Hc. apply (inv_cells w Hw) in Hc as [? _]. lia. Qed.

Lemma fresh_unguarded w : inv w -> unguarded (next w) w.
Proof.
  intros Hw i h Hi. destruct (inv_holders w Hw i h Hi) as [_ (k & _ & Hg)].
  destruct (h_hold h) as [|c lo hi writes]; [done|]. destruct Hg as (_ & d & Hd & _).
  by eapply cell_old.
Qed.

Section steps.
Context (v v' : vworld) (Hv : vinv v).

Lemma vinv_base_op o : safe o = true -> base_op o v = Some v' -> vinv v'.
Proof using Hv.
  intros Hs [Hi [He (w & Hw & [= <-])%bind_Some]%guard_Some]%guard_Some.
  pose proof Hv as [Hb Hvw Ha]. split; cbn; [by eapply exec_inv| |done].
  intros c p Hc. destruct (Hvw c p Hc) as (d & pl & Hd & Hp & Hpa).
  destruct (exec_keeps_cell o (base v) w c d Hb Hw Hd) as (d' & Hd' & Hpd & _).
  - intros th ->. apply bool_decide_eq_true in Hi. congruence.
  - intros ->. apply bool_decide_eq_true in He. specialize (He c p Hc). cbn in He.
    by rewrite Hd in He.
  - exists d', pl. split_and!; [done|done|congruence].
Qed.

Lemma vinv_new_place p th parts x : new_place p th parts x v = Some v' -> vinv v'.
Proof using Hv.
  intros [Hn [_ [= <-]]%guard_Some]%guard_Some. destruct Hv as [Hb Hvw Ha]. split; [done| |done].
  intros c q Hc. destruct (Hvw c q Hc) as (d & pl & Hd & Hp & Hpa). exists d, pl. cbn.
  rewrite lookup_insert_ne by congruence. done.
Qed.

Lemma vinv_write_place p j y : write_place p j y v = Some v' -> vinv v'.
Proof using Hv.
  intros (pl & Hpl & [Hu [_ [= <-]]%guard_Some]%guard_Some)%bind_Some.
  destruct Hv as [Hb Hvw Ha]. split; [done| |done].
  intros c q Hc. destruct (Hvw c q Hc) as (d & pl' & Hd & Hp & Hpa). exists d, pl'. cbn.
  rewrite lookup_insert_ne; [done|]. intros <-. by apply (Hu c p Hc).
Qed.

Lemma vinv_from_mut p b : from_mut p b v = Some v' -> vinv v'.
Proof using Hv.
  intros (pl & Hpl & [Hu (w & Hw & [= <-])%bind_Some]%guard_Some)%bind_Some.
  destruct Hv as [Hb Hvw Ha].
  assert (inv w) as Hiw by (by eapply (exec_inv (NewCell (pl_thread pl) b (pl_parts pl) (pl_value pl)))).
  apply guard_Some in Hw as [_ [_ [= <-]]%guard_Some]. split; [done| |]; cbn.
  - intros c q [[<- <-]|[Hne Hc]]%lookup_insert_Some.
    + rewrite lookup_insert_eq. by eexists _, pl.
    + destruct (Hvw c q Hc) as (d & pl' & Hd & Hp & Hpa). exists d, pl'.
      rewrite lookup_insert_ne; [done|]. intros E. by apply (cell_old _ _ _ Hb Hd).
  - intros c c' q [[<- <-]|[Hne Hc]]%lookup_insert_Some [[<- E]|[Hne' Hc']]%lookup_insert_Some;
      [done|by destruct (Hu c' p Hc')|subst q; by destruct (Hu c p Hc)|by eapply Ha].
Qed.

Lemma vinv_end_view c : end_view c v = Some v' -> vinv v'.
Proof using Hv.
  intros (p & Hp & (pl & Hpl & (d & Hd & (w & Hw & [= <-])%bind_Some)%bind_Some)%bind_Some)%bind_Some.
  destruct Hv as [Hb Hvw Ha].
  assert (inv w) as Hiw by (by eapply (exec_inv (CellIntoInner (c_thread d) c))).
  split; [done| |]; cbn.
  - intros c' q [Hne Hc']%lookup_delete_Some.
    destruct (Hvw c' q Hc') as (d' & pl' & Hd' & Hp' & Hpa).
    destruct (exec_keeps_cell (CellIntoInner (c_thread d) c) (base v) w c' d' Hb Hw Hd')
      as (d2 & Hd2 & Hpd & _); [by intros th [= _ E]|done|].
    exists d2, pl'. split; [done|]. split; [|congruence].
    rewrite lookup_insert_ne; [done|]. intros <-. by apply Hne, (Ha c c' p).
  - intros c1 c2 q [_ H1]%lookup_delete_Some [_ H2]%lookup_delete_Some. by eapply Ha.
Qed.

Lemma vinv_step : vstep v v' -> vinv v'.
Proof using Hv.
  intros (o & Hs & He). destruct o; cbn in He.
  - by eapply vinv_base_op.
  - by eapply vinv_new_place.
  - by eapply vinv_write_place.
  - by eapply vinv_from_mut.
  - by eapply vinv_end_view.
Qed.
End steps.

(** The phases of brands, as the clients of the extended machine see them. *)
#[export] Instance view_phases : BrandPhases vstep vinv (fun b v => phase_of b (base v)).
Proof.
  split; [intros v v' Hv; by apply vinv_step|].
  intros b v v' Hv [->|Hs]%vstep_base; [constructor|].
  apply (lock_step (ok := inv) (phase_at := phase_of) b _ _ (vinv_base v Hv) Hs).
Qed.

Lemma vrun_steps ops v v' :
  forallb vsafe ops = true -> vrun ops v = Some v' -> rtc vstep v v'.
Proof.
  revert v. unfold vrun. induction ops as [|o ops IH]; intros v Hs Hr; cbn in Hr.
  { injection Hr as <-. apply rtc_refl. }
  apply andb_true_iff in Hs as [Ho Hs]. destruct (vexec o v) as [v1|] eqn:E.
  - eapply rtc_l; [by exists o|by apply IH].
  - exfalso. clear -Hr. induction ops; [done|by auto].
Qed.

(** ** Properties *)

(** C28: In-place branding refines the token machine: whatever a safe program does
    with views, the tokens, permits, guards and cells behave as those of some
    safe program without views, so every invariant of the token machine holds of
    them, and every brand goes through the phases of its readers-writer lock; two
    views never borrow one place, and while a view is live its place can be
    neither written nor viewed again. *)
Theorem views_refine_tokens (ops : list vop) (v : vworld) :
  forallb vsafe ops = true -> vrun ops initial_vworld = Some v ->
  reachable (base v) /\
  (forall b, rtc phase_step Free (phase_of b (base v))) /\
  (forall c c' p, views v !! c = Some p -> views v !! c' = Some p -> c = c') /\
  (forall c p, views v !! c = Some p ->
     (exists d pl, cells (base v) !! c = Some d /\ places v !! p = Some pl /\ c_parts d = pl_parts pl) /\
     (forall j y, write_place p j y v = None) /\ (forall b, from_mut p b v = None)).
Proof.
  intros Hs Hr. pose proof (vrun_steps ops _ v Hs Hr) as Hsteps.
  pose proof (ok_steps vstep vinv (fun b v => phase_of b (base v)) _ _ vinv_initial Hsteps) as Hv.
  split_and!.
  - clear Hr. assert (forall v0, rtc vstep v0 v -> reachable (base v0) -> reachable (base v)) as Hgen.
    { clear. intros v0 Hst. induction Hst as [|v0 v1 v2 H1 _ IH]; intros Hr; [done|]. apply IH.
      destruct (vstep_base v0 v1 H1) as [->|(o & Hso & He)]; [done|by eapply reach_step]. }
    apply (Hgen _ Hsteps), reach_init.
  - intros b. apply (lock_steps vstep vinv (fun b v => phase_of b (base v)) b _ _ vinv_initial Hsteps).
  - intros c c' p. apply (vinv_apart v Hv).
  - intros c p Hc. split; [by apply (vinv_views v Hv)|].
    assert (~ unviewed p v) as Hn by (intros Hu; by apply (Hu c p Hc)). split.
    + intros j y. unfold write_place. destruct (places v !! p); [|done]. cbn.
      by apply guard_None.
    + intros b. unfold from_mut. destruct (places v !! p); [|done]. cbn.
      by apply guard_None.
Qed.

(** A slice of three values, viewed with the brand of a live token, opened with
    its permit as a sub-slice, and written through it. *)
Definition view_program : list vop :=
  [VBase (WithFreshToken ExclusiveFamily 1); NewPlace 1 1 u32_parts [7; 8; 9]; FromMut 1 1;
   VBase (BorrowTokenMut 1 1); VBase (SliceBorrowMut 3 2 1 3); VBase (GuardDerefMut 3 1 5)].

Definition vrun_from_start (ops : list vop) : vworld :=
  match vrun ops initial_vworld with Some v => v | None => initial_vworld end.

Lemma views_refine_tokens_witness :
  write_place 1 0 0 (vrun_from_start view_program) = None /\
  guard_deref 3 (base (vrun_from_start view_program)) = Some [8; 5].
Proof.
  destruct (views_refine_tokens view_program (vrun_from_start view_program) eq_refl eq_refl)
    as (_ & _ & _ & Hv).
  split; [|reflexivity]. exact (proj1 (proj2 (Hv 2%positive 1%positive eq_refl)) 0 0).
Defined.

(** The brand of a view is the caller's choice, and it may be a live scope's: a
    view made with [from_mut_slice] can be opened by a permit of the scope, for
    writing, although the view itself carries no token. *)
Theorem view_opened_by_permit :
  exists v h, vrun view_program initial_vworld = Some v /\ forallb vsafe view_program = true /\
    views v !! 2%positive = Some 1%positive /\ holders (base v) !! 3%positive = Some h /\
    h_hold h = Guard 2 1 3 true /\ tokens (base v) !! h_token h = Some (mkToken 1 ExclusiveFamily 1 1).
Proof. eexists _, _. split; [vm_compute; reflexivity|]. repeat split. Qed.
