(* ===== verification/Cow.v ===== *)
(** * Slice views and [Cow] boundaries ([src/cell/slice.rs], [src/cell/cow.rs])

    A branded cell slice is a range of the allocation; [borrow_slice] returns the
    same range as a plain slice.  At the boundary a [Cow] either is such a range,
    read in whatever the allocation holds later, or owns copies of the elements.
    [T::clone] is the client's: a computation on a state of its own, which may
    panic.  Main results: both policies show the slice's contents, [Borrowed]
    clones nothing, [Retained] clones every element once and in order and its
    result is immune to later writes; two segments are always copied. *)
From S2P Require Import Prelude Region.
From stdpp Require Import base numbers list.
Local Open Scope Z_scope.

(** ** Code *)

(** [Cow<'a, [T]>] *)
Inductive Cow (T : Type) : Type :=
| CowBorrowed (s : slice)
| CowOwned (v : list T).
Arguments CowBorrowed {T} s.
Arguments CowOwned {T} v.

(** The elements of a slice of the allocation [m]. *)
Definition contents {T} (m : list T) (s : slice) : list T := subrange (s_base s) (s_len s) m.

(** What [Deref] of a [Cow] shows in the allocation [m]. *)
Definition cow_deref {T} (m : list T) (c : Cow T) : list T :=
  match c with CowBorrowed s => contents m s | CowOwned v => v end.

(** [<[MelinoeCell<T>]>::borrow_slice(permit)] and [borrow_slice_mut]: the cells
    of the slice, seen as plain elements in place. *)
Definition borrow_slice (cells : slice) : slice := cells.
Definition borrow_slice_mut (cells : slice) : slice := cells.
Definition slice_as_unsafe_cell (cells : slice) : slice := cells.

(** The retain policies: zero-sized types that select the body. *)
Class CowPolicy (C : Type) : Type :=
  policy_cow : forall {T St}, (T -> M St T) -> list T -> slice -> M St (Cow T).

Inductive Borrowed : Type := mkBorrowed.
Inductive Retained : Type := mkRetained.

Section clones.
Context {T St : Type} (clone : T -> M St T).

(** [slice.to_vec()], [vec.extend_from_slice(slice)]: clone in order. *)
Definition to_vec (l : list T) : M St (list T) := mapM clone l.
Definition extend_from_slice (values l : list T) : M St (list T) :=
  copies ← mapM clone l; mret (values ++ copies).
End clones.

#[export] Instance Borrowed_policy : CowPolicy Borrowed := fun T St clone m s =>
  mret (CowBorrowed s).
#[export] Instance Retained_policy : CowPolicy Retained := fun T St clone m s =>
  v ← to_vec clone (contents m s); mret (CowOwned v).

Inductive RetainDecision : Type := Borrow | Retain.

Section operations.
Context {T St : Type} (clone : T -> M St T) (m : list T).

Definition decision_cow (d : RetainDecision) (s : slice) : M St (Cow T) :=
  match d with
  | Borrow => policy_cow (C := Borrowed) clone m s
  | Retain => policy_cow (C := Retained) clone m s
  end.

(** [cow_from_segments(first, second, policy)] *)
Definition cow_from_segments `{CowPolicy C} (first second : slice) (policy : C) : M St (Cow T) :=
  if decide (s_len second = 0) then policy_cow (C := C) clone m first
  else values ← extend_from_slice clone [] (contents m first);
       values ← extend_from_slice clone values (contents m second);
       mret (CowOwned values).

Definition borrow_cow (cells : slice) : M St (Cow T) :=
  policy_cow (C := Borrowed) clone m (borrow_slice cells).
Definition retain_cow (cells : slice) : M St (Cow T) :=
  policy_cow (C := Retained) clone m (borrow_slice cells).
Definition borrow_cow_with `{CowPolicy C} (cells : slice) (policy : C) : M St (Cow T) :=
  policy_cow (C := C) clone m (borrow_slice cells).
Definition borrow_cow_if (cells : slice) (d : RetainDecision) : M St (Cow T) :=
  decision_cow d (borrow_slice cells).
End operations.

(** ** Lemmas *)

(** A clone that counts its calls and returns an equal value. *)
Definition counting_clone {T} : T -> M Z T := fun x calls => (Ret x, calls + 1).

Lemma mapM_counting {T} (l : list T) n : mapM counting_clone l n = (Ret l, n + zlen l).
Proof.
  revert n. induction l as [|x l IH]; intros n.
  - cbn. unfold mret, M_ret. f_equal. by rewrite Z.add_0_r.
  - rewrite M_mapM_cons. cbn. rewrite IH, zlen_cons. f_equal. lia.
Qed.

Lemma extend_counting {T} (v l : list T) n :
  extend_from_slice counting_clone v l n = (Ret (v ++ l), n + zlen l).
Proof. unfold extend_from_slice. by rewrite M_bind_eq, mapM_counting. Qed.

(** The closing [Cow] of a slice under [Retained], clones that may panic. *)
Lemma to_vec_panics {T St} (clone : T -> M St T) l p st st' :
  to_vec clone l st = (Panic p, st') ->
  exists pre x post copies st1, l = pre ++ x :: post /\ mapM clone pre st = (Ret copies, st1) /\
    clone x st1 = (Panic p, st').
Proof.
  unfold to_vec. revert st. induction l as [|x l IH]; intros st Hm; [done|].
  rewrite M_mapM_cons in Hm. destruct (clone x st) as [[y|q|] st1] eqn:Ex;
    [|injection Hm as -> ->; by exists [], x, l, [], st|done].
  destruct (mapM clone l st1) as [[ys|q|] st2] eqn:El; [done| |done].
  injection Hm as -> ->. destruct (IH st1 El) as (pre & z & post & copies & st3 & -> & Hp & Hz).
  exists (x :: pre), z, post, (y :: copies), st3. split; [done|]. split; [|done].
  by rewrite M_mapM_cons, Ex, Hp.
Qed.

(** ** Properties *)

(** The boundary policies: [Borrowed] (and the run-time [Borrow]) is the
    slice itself, without a call of [clone]; [Retained] (and [Retain]) calls
    [clone] once per element, in order, and owns equal elements, which later
    writes to the allocation cannot change; two segments are copied once each
    under either policy, and one segment follows the policy. *)
Theorem cow_policies {T} (m m' : list T) (s s2 : slice) (n : Z) :
  0 <= s_base s -> 0 <= s_len s -> s_base s + s_len s <= zlen m ->
  0 <= s_base s2 -> 0 < s_len s2 -> s_base s2 + s_len s2 <= zlen m ->
  borrow_cow counting_clone m s n = (Ret (CowBorrowed s), n) /\
  borrow_cow_if counting_clone m s Borrow n = borrow_cow_with counting_clone m s mkBorrowed n /\
  borrow_cow_if counting_clone m s Retain n = borrow_cow_with counting_clone m s mkRetained n /\
  (exists c, retain_cow counting_clone m s n = (Ret c, n + s_len s) /\
     cow_deref m c = cow_deref m (CowBorrowed s) /\ cow_deref m' c = cow_deref m c) /\
  cow_from_segments counting_clone m s (Slice 0 0) mkBorrowed n = borrow_cow counting_clone m s n /\
  cow_from_segments counting_clone m s (Slice 0 0) mkRetained n = retain_cow counting_clone m s n /\
  (exists c, cow_from_segments counting_clone m s s2 mkBorrowed n = (Ret c, n + s_len s + s_len s2) /\
     cow_from_segments counting_clone m s s2 mkRetained n = (Ret c, n + s_len s + s_len s2) /\
     cow_deref m' c = contents m s ++ contents m s2).
Proof.
  intros Hb Hl Hm Hb2 Hl2 Hm2. do 3 (split; [done|]).
  assert (zlen (contents m s) = s_len s) as Hz by (by apply zlen_subrange).
  assert (zlen (contents m s2) = s_len s2) as Hz2 by (apply zlen_subrange; lia).
  split.
  { exists (CowOwned (contents m s)). split; [|done]. unfold retain_cow, policy_cow, Retained_policy,
      to_vec, borrow_slice. by rewrite M_bind_eq, mapM_counting, Hz. }
  do 2 (split; [done|]). exists (CowOwned (contents m s ++ contents m s2)).
  unfold cow_from_segments. rewrite !decide_False by lia.
  rewrite !M_bind_eq, extend_counting, Hz. cbn [app]. by rewrite M_bind_eq, extend_counting, Hz2.
Qed.

Lemma cow_policies_witness :
  exists c, cow_from_segments counting_clone [1; 2; 3; 4] (Slice 2 2) (Slice 0 2) mkBorrowed 0
    = (Ret c, 4) /\ cow_deref [0; 0; 0; 0] c = [3; 4; 1; 2].
Proof.
  destruct (cow_policies [1; 2; 3; 4] [0; 0; 0; 0] (Slice 2 2) (Slice 0 2) 0)
    as (_ & _ & _ & _ & _ & _ & c & Hc & _ & Hd); [vm_compute; congruence..|].
  exists c. split; [exact Hc|exact Hd].
Defined.

(** A panicking [clone] leaves the boundary by its own payload after the
    elements before it were cloned in order, and nothing after it. *)
Theorem retain_clone_panics {T St} (clone : T -> M St T) (m : list T) (s : slice)
    (st st' : St) (p : panic_payload) :
  retain_cow clone m s st = (Panic p, st') ->
  exists pre x post copies st1, contents m s = pre ++ x :: post /\
    mapM clone pre st = (Ret copies, st1) /\ clone x st1 = (Panic p, st').
Proof.
  unfold retain_cow, policy_cow, Retained_policy, borrow_slice. intros Hr. rewrite M_bind_eq in Hr.
  destruct (to_vec clone (contents m s) st) as [[v|q|] st1] eqn:E; [done| |done].
  injection Hr as -> ->. by apply to_vec_panics.
Qed.

(** Panics on zero. *)
Definition nonzero_clone (x : Z) : M Z Z := fun calls =>
  (if decide (x = 0) then Panic (UserPanic 1) else Ret x, calls + 1).

Lemma retain_clone_panics_witness :
  exists pre x post copies st1, [5; 0; 6] = pre ++ x :: post /\
    mapM nonzero_clone pre 0 = (Ret copies, st1) /\ nonzero_clone x st1 = (Panic (UserPanic 1), 2).
Proof. apply (retain_clone_panics nonzero_clone [5; 0; 6] (Slice 0 3) 0 2). reflexivity. Defined.
