(* ===== verification/Atomic.v ===== *)
(** * Branded atomics ([src/atomic/])

    The value of an atomic is an integer of its type's width, kept as [Z] with
    the wrap-around written out; the operations of the standard atomics are
    given their documented meaning, including the memory orderings each one
    rejects by panicking.  On top of them the library's methods: the ordering
    sources (a run-time [Ordering] or a zero-sized policy), the plain operations
    of the exclusive phase and the atomic ones of the shared phase.  Main
    results: a policy is never rejected and a run-time ordering is rejected
    exactly as documented; the integer operations bit by bit; concurrent
    [fetch_add]s commute and hand out distinct tickets; [fetch_update] ends and
    is one atomic update; the exclusive phase agrees with the shared one. *)
From S2P Require Import Prelude.
From stdpp Require Import base numbers sets list.
Local Open Scope Z_scope.

(** ** Orderings *)

Module Ordering.
Inductive t : Type := Relaxed | Release | Acquire | AcqRel | SeqCst.
End Ordering.
Abbreviation Ordering := Ordering.t.

#[export] Instance ordering_eq_dec : EqDecision Ordering.
Proof. solve_decision. Defined.

(** A policy: one ordering per role. *)
Class AtomicOrder (P : Type) : Type := {
  LOAD : Ordering;
  STORE : Ordering;
  RMW : Ordering;
  FAILURE : Ordering
}.
Arguments LOAD P {_}.
Arguments STORE P {_}.
Arguments RMW P {_}.
Arguments FAILURE P {_}.

Inductive Relaxed : Type := mkRelaxed.
Inductive AcqRel : Type := mkAcqRel.
Inductive SeqCst : Type := mkSeqCst.

#[export] Instance Relaxed_order : AtomicOrder Relaxed :=
  {| LOAD := Ordering.Relaxed; STORE := Ordering.Relaxed;
     RMW := Ordering.Relaxed; FAILURE := Ordering.Relaxed |}.
#[export] Instance AcqRel_order : AtomicOrder AcqRel :=
  {| LOAD := Ordering.Acquire; STORE := Ordering.Release;
     RMW := Ordering.AcqRel; FAILURE := Ordering.Acquire |}.
#[export] Instance SeqCst_order : AtomicOrder SeqCst :=
  {| LOAD := Ordering.SeqCst; STORE := Ordering.SeqCst;
     RMW := Ordering.SeqCst; FAILURE := Ordering.SeqCst |}.

(** What an operation asks of the ordering it is given. *)
Class OrderingSource (P : Type) : Type := {
  load_order : P -> Ordering;
  store_order : P -> Ordering;
  rmw_order : P -> Ordering;
  failure_order : P -> Ordering
}.

#[export] Instance runtime_source : OrderingSource Ordering :=
  {| load_order := fun o => o; store_order := fun o => o;
     rmw_order := fun o => o; failure_order := fun o => o |}.
#[export] Instance policy_source `{AtomicOrder P} : OrderingSource P :=
  {| load_order := fun _ => LOAD P; store_order := fun _ => STORE P;
     rmw_order := fun _ => RMW P; failure_order := fun _ => FAILURE P |}.

(** The policies of the library are the three above: [AtomicOrder] is sealed. *)
Class Policy (P : Type) `{AtomicOrder P} : Prop :=
  policy_cases :
    (LOAD P, STORE P, RMW P, FAILURE P) ∈
      [(Ordering.Relaxed, Ordering.Relaxed, Ordering.Relaxed, Ordering.Relaxed);
       (Ordering.Acquire, Ordering.Release, Ordering.AcqRel, Ordering.Acquire);
       (Ordering.SeqCst, Ordering.SeqCst, Ordering.SeqCst, Ordering.SeqCst)].
#[export] Instance Relaxed_policy : Policy Relaxed.
Proof. unfold Policy. cbn. set_solver. Qed.
#[export] Instance AcqRel_policy : Policy AcqRel.
Proof. unfold Policy. cbn. set_solver. Qed.
#[export] Instance SeqCst_policy : Policy SeqCst.
Proof. unfold Policy. cbn. set_solver. Qed.

(** ** Values *)

(** The integer type of an atomic. *)
Record int_type : Type := mkInt { signed : bool; bits : Z }.

(** The value an integer takes in [w] bits of two's complement. *)
Definition wrap (t : int_type) (n : Z) : Z :=
  let m := n mod 2 ^ bits t in
  if signed t && bool_decide (2 ^ (bits t - 1) <= m) then m - 2 ^ bits t else m.

Definition in_range (t : int_type) (n : Z) : Prop :=
  if signed t then - 2 ^ (bits t - 1) <= n < 2 ^ (bits t - 1) else 0 <= n < 2 ^ bits t.

Definition int_type_ok (t : int_type) : Prop := 1 <= bits t.

(** ** The standard atomics (trait [Atomic]) *)

(** The state is the value stored. *)
Definition rejects_load (o : Ordering) : bool :=
  match o with Ordering.Release | Ordering.AcqRel => true | _ => false end.
Definition rejects_store (o : Ordering) : bool :=
  match o with Ordering.Acquire | Ordering.AcqRel => true | _ => false end.

Definition atomic_load {V} (order : Ordering) : M V V := fun v =>
  if rejects_load order then (Panic OrderingPanic, v) else (Ret v, v).

Definition atomic_store {V} (value : V) (order : Ordering) : M V unit := fun v =>
  if rejects_store order then (Panic OrderingPanic, v) else (Ret tt, value).

Definition atomic_swap {V} (value : V) (order : Ordering) : M V V := fun v => (Ret v, value).

(** [new_atomic]; [atomic_get_mut] and [value_ptr], through which a client does [f]
    to the value; [atomic_into_inner]. *)
Definition new_atomic {V} (value : V) : V := value.
Definition atomic_get_mut {V R} (f : M V R) : M V R := f.
Definition value_ptr {V R} (f : M V R) : M V R := f.
Definition atomic_into_inner {V} (v : V) : V := v.

(** [Ok] is [inl], [Err] is [inr].  A failure ordering is one of a load. *)
Definition atomic_compare_exchange {V} `{EqDecision V} (current new : V)
    (success failure : Ordering) : M V (V + V) := fun v =>
  if rejects_load failure then (Panic OrderingPanic, v)
  else if decide (v = current) then (Ret (inl v), new) else (Ret (inr v), v).

(** What other threads do before an attempt of [fetch_update], and whether the
    attempt's weak compare-exchange fails for no reason. *)
Record attempt (V : Type) : Type := mkAttempt {
  writes_before : list V;
  spurious : bool
}.
Arguments mkAttempt {V}.
Arguments writes_before {V}.
Arguments spurious {V}.

(** The value after other threads' writes. *)
Definition interfered {V} (a : attempt V) (v : V) : V := default v (last (writes_before a)).

(** The loop of the standard [fetch_update]; the closure has a state [St] of its
    own.  Past the end of [env] nobody interferes.  [None]: out of fuel. *)
Section fetch_update.
Context {V St : Type} `{EqDecision V} (f : V -> M St (option V)) (set_order fetch_order : Ordering).

Fixpoint fetch_update_loop (fuel : nat) (prev : V) (env : list (attempt V)) (v : V) (st : St)
    : option (outcome (V + V) * (V * St)) :=
  match fuel with
  | O => None
  | S fuel =>
      match f prev st with
      | (Panic p, st) => Some (Panic p, (v, st))
      | (UB, st) => Some (UB, (v, st))
      | (Ret None, st) => Some (Ret (inr prev), (v, st))
      | (Ret (Some next), st) =>
          let a := default (mkAttempt [] false) (head env) in
          let v := interfered a v in
          if spurious a then fetch_update_loop fuel v (tail env) v st
          else match atomic_compare_exchange prev next set_order fetch_order v with
               | (Ret (inl old), v) => Some (Ret (inl old), (v, st))
               | (Ret (inr now), v) => fetch_update_loop fuel now (tail env) v st
               | (Panic p, v) => Some (Panic p, (v, st))
               | (UB, v) => Some (UB, (v, st))
               end
      end
  end.

Definition atomic_fetch_update (fuel : nat) (env : list (attempt V)) (v : V) (st : St)
    : option (outcome (V + V) * (V * St)) :=
  match atomic_load fetch_order v with
  | (Ret prev, v) => fetch_update_loop fuel prev env v st
  | (Panic p, v) => Some (Panic p, (v, st))
  | (UB, v) => Some (UB, (v, st))
  end.
End fetch_update.

(** ** The standard integer atomics (trait [AtomicInt]) *)

Section integers.
Context (t : int_type).

(** [fetch_*]: store the new value, return the old one. *)
Definition fetch (g : Z -> Z -> Z) (value : Z) (order : Ordering) : M Z Z := fun v =>
  (Ret v, g v value).

Definition atomic_fetch_add := fetch (fun a b => wrap t (a + b)).
Definition atomic_fetch_sub := fetch (fun a b => wrap t (a - b)).
Definition atomic_fetch_and := fetch (fun a b => wrap t (Z.land a b)).
Definition atomic_fetch_or := fetch (fun a b => wrap t (Z.lor a b)).
Definition atomic_fetch_xor := fetch (fun a b => wrap t (Z.lxor a b)).
Definition atomic_fetch_nand := fetch (fun a b => wrap t (Z.lnot (Z.land a b))).
Definition atomic_fetch_max := fetch Z.max.
Definition atomic_fetch_min := fetch Z.min.
End integers.

(** ** [BrandedAtomic] *)

(** [#[repr(transparent)]]: the state is that of [inner]. *)
Definition new {V} (value : V) : V := new_atomic value.
Definition into_inner {V} (inner : V) : V := atomic_into_inner inner.

(** The views of one and the same atomic: [from_mut] brands an atomic in place,
    [as_atomic] and [as_atomic_mut] show the one inside, [into_atomic] gives it
    up; [f] is what is done through the view. *)
Definition from_mut {V R} (f : M V R) : M V R := f.
Definition as_atomic_mut {V R} (f : M V R) : M V R := f.
Definition into_atomic {V} (inner : V) : V := inner.

(** The exclusive phase: a plain [&mut] to the value. *)
Definition with_exclusive {V R} (f : M V R) : M V R := value_ptr f.
Definition get_mut {V R} (f : M V R) : M V R := atomic_get_mut f.
Definition load_exclusive {V} : M V V := with_exclusive (fun v => (Ret v, v)).
Definition store_exclusive {V} (value : V) : M V unit := with_exclusive (fun _ => (Ret tt, value)).

(** The shared phase: each body is written once, for both ordering sources. *)
Section shared_phase.
Context {V : Type} `{EqDecision V} {P : Type} `{OrderingSource P}.

Definition load_ordered (order : P) : M V V := atomic_load (load_order order).
Definition store_ordered (value : V) (order : P) : M V unit :=
  atomic_store value (store_order order).
Definition swap_ordered (value : V) (order : P) : M V V := atomic_swap value (rmw_order order).

Definition compare_exchange_ordered (current new : V) (success failure : P) : M V (V + V) :=
  atomic_compare_exchange current new (rmw_order success) (failure_order failure).

Definition fetch_update_ordered {St} (set_order fetch_order : P) (f : V -> M St (option V)) :=
  atomic_fetch_update f (rmw_order set_order) (failure_order fetch_order).
End shared_phase.

(** [order_pair!]: the run-time entry point and its policy twin. *)
Definition load {V} (order : Ordering) : M V V := load_ordered order.
Definition load_with `{AtomicOrder P} {V} (order : P) : M V V := load_ordered order.
Definition store {V} (value : V) (order : Ordering) : M V unit := store_ordered value order.
Definition store_with `{AtomicOrder P} {V} (value : V) (order : P) : M V unit :=
  store_ordered value order.
Definition swap {V} (value : V) (order : Ordering) : M V V := swap_ordered value order.
Definition swap_with `{AtomicOrder P} {V} (value : V) (order : P) : M V V :=
  swap_ordered value order.
Definition compare_exchange `{EqDecision V} (current new : V) (success failure : Ordering)
    : M V (V + V) := compare_exchange_ordered current new success failure.
Definition compare_exchange_with `{AtomicOrder P} `{EqDecision V} (current new : V) (order : P)
    : M V (V + V) := compare_exchange_ordered current new order order.
Definition fetch_update `{EqDecision V} {St} (set_order fetch_order : Ordering)
    (f : V -> M St (option V)) := fetch_update_ordered set_order fetch_order f.
Definition fetch_update_with `{AtomicOrder P} `{EqDecision V} {St} (order : P)
    (f : V -> M St (option V)) := fetch_update_ordered order order f.

Section integer_methods.
Context (t : int_type) {P : Type} `{OrderingSource P}.

Definition fetch_add (value : Z) (order : P) : M Z Z := atomic_fetch_add t value (rmw_order order).
Definition fetch_sub (value : Z) (order : P) : M Z Z := atomic_fetch_sub t value (rmw_order order).
Definition fetch_and (value : Z) (order : P) : M Z Z := atomic_fetch_and t value (rmw_order order).
Definition fetch_or (value : Z) (order : P) : M Z Z := atomic_fetch_or t value (rmw_order order).
Definition fetch_xor (value : Z) (order : P) : M Z Z := atomic_fetch_xor t value (rmw_order order).
Definition fetch_nand (value : Z) (order : P) : M Z Z := atomic_fetch_nand t value (rmw_order order).
Definition fetch_max (value : Z) (order : P) : M Z Z := atomic_fetch_max value (rmw_order order).
Definition fetch_min (value : Z) (order : P) : M Z Z := atomic_fetch_min value (rmw_order order).
End integer_methods.

(** ** Lemmas: wrapping *)

Section wrapping.
Context (t : int_type) (Ht : int_type_ok t).

Lemma bits_pow : 2 ^ bits t = 2 * 2 ^ (bits t - 1) /\ 1 <= 2 ^ (bits t - 1).
Proof using Ht.
  unfold int_type_ok in Ht. split; [|apply (Z.pow_le_mono_r 2 0); lia].
  rewrite <- Z.pow_succ_r by lia. f_equal. lia.
Qed.

Lemma wrap_mod n : wrap t n mod 2 ^ bits t = n mod 2 ^ bits t.
Proof using Ht.
  pose proof bits_pow as [? ?]. unfold wrap. destruct (_ && _).
  - rewrite <- (Z.mod_add _ 1) by lia.
    replace (n mod 2 ^ bits t - 2 ^ bits t + 1 * 2 ^ bits t) with (n mod 2 ^ bits t) by lia.
    apply Z.mod_mod. lia.
  - apply Z.mod_mod. lia.
Qed.

Lemma wrap_range n : in_range t (wrap t n).
Proof using Ht.
  pose proof bits_pow as [? ?]. pose proof (Z.mod_pos_bound n (2 ^ bits t) ltac:(lia)).
  unfold wrap, in_range. destruct (signed t); cbn; [|lia]. case_bool_decide; lia.
Qed.

Lemma wrap_unique n v : in_range t v -> v mod 2 ^ bits t = n mod 2 ^ bits t -> wrap t n = v.
Proof using Ht.
  pose proof bits_pow as [? ?]. intros Hr He. unfold wrap. rewrite <- He.
  unfold in_range in Hr. destruct (signed t); cbn.
  - destruct (decide (0 <= v)).
    + rewrite Z.mod_small by lia. case_bool_decide; lia.
    + assert (v mod 2 ^ bits t = v + 2 ^ bits t) as ->.
      { rewrite <- (Z.mod_add _ 1), Z.mod_small by lia. lia. }
      case_bool_decide; lia.
  - by apply Z.mod_small.
Qed.

Lemma wrap_congr a b : a mod 2 ^ bits t = b mod 2 ^ bits t -> wrap t a = wrap t b.
Proof using Ht. intros He. unfold wrap. by rewrite He. Qed.

Lemma wrap_id v : in_range t v -> wrap t v = v.
Proof using Ht. intros Hv. by apply wrap_unique. Qed.

Lemma wrap_add_l a b : wrap t (wrap t a + b) = wrap t (a + b).
Proof using Ht.
  apply wrap_congr. pose proof bits_pow as [? ?].
  by rewrite Z.add_mod, wrap_mod, <- Z.add_mod by lia.
Qed.

Lemma wrap_testbit n i : 0 <= i < bits t -> Z.testbit (wrap t n) i = Z.testbit n i.
Proof using Ht.
  intros Hi. rewrite <- (Z.mod_pow2_bits_low (wrap t n) (bits t) i) by lia.
  rewrite wrap_mod. apply Z.mod_pow2_bits_low. lia.
Qed.
End wrapping.

(** ** Lemmas: sequences of [fetch_add] *)

(** One atomic addition after the other, whichever threads they come from. *)
Definition fetch_adds (t : int_type) (order : Ordering) (l : list Z) : M Z (list Z) :=
  mapM (fun x => fetch_add t x order) l.

Definition sum_list (l : list Z) : Z := foldr Z.add 0 l.

(** The values the additions of [l] find. *)
Fixpoint tickets (t : int_type) (v : Z) (l : list Z) : list Z :=
  match l with [] => [] | x :: l => v :: tickets t (wrap t (v + x)) l end.

Lemma sum_list_perm l l' : l ≡ₚ l' -> sum_list l = sum_list l'.
Proof. unfold sum_list. induction 1; cbn; lia. Qed.

Lemma fetch_adds_eval t order l v :
  int_type_ok t -> in_range t v ->
  fetch_adds t order l v = (Ret (tickets t v l), wrap t (v + sum_list l)).
Proof.
  intros Ht. unfold fetch_adds. revert v. induction l as [|x l IH]; intros v Hv; cbn.
  - unfold mret, M_ret. by rewrite Z.add_0_r, wrap_id.
  - unfold mbind, M_bind at 1. cbn. unfold M_bind. rewrite IH by (by apply wrap_range). cbn.
    unfold mret, M_ret. by rewrite wrap_add_l, Z.add_assoc by done.
Qed.

Lemma tickets_ones t v n :
  int_type_ok t -> in_range t v ->
  tickets t v (replicate n 1) = (fun k => wrap t (v + Z.of_nat k)) <$> seq 0 n.
Proof.
  intros Ht. revert v. induction n as [|n IH]; intros v Hv; [done|]. cbn.
  change (Z.of_nat 0) with 0. rewrite Z.add_0_r, (wrap_id t Ht v) by done. f_equal.
  rewrite IH by (by apply wrap_range). rewrite <- fmap_S_seq, <- list_fmap_compose.
  apply list_fmap_ext. intros i k _. unfold compose. rewrite wrap_add_l by done. f_equal. lia.
Qed.

Lemma wrap_distinct t v j k :
  int_type_ok t -> 0 <= j < 2 ^ bits t -> 0 <= k < 2 ^ bits t ->
  wrap t (v + j) = wrap t (v + k) -> j = k.
Proof.
  intros Ht Hj Hk He. pose proof (bits_pow t Ht) as [? ?].
  assert ((v + j) mod 2 ^ bits t = (v + k) mod 2 ^ bits t) as Hm
    by (by rewrite <- (wrap_mod t Ht (v + j)), He, wrap_mod).
  assert ((v + j - (v + k)) mod 2 ^ bits t = 0) as Hd0
    by (rewrite Zminus_mod, Hm, Z.sub_diag; apply Z.mod_0_l; lia).
  replace (v + j - (v + k)) with (j - k) in Hd0 by lia.
  apply Z.mod_divide in Hd0 as [q Hq]; [|lia]. assert (q = 0) as -> by nia. lia.
Qed.

(** ** Lemmas: the fetch-update loop *)

(** The value as the other threads leave it after their first attempts. *)
Definition value_after {V} (v : V) (env : list (attempt V)) : V :=
  foldl (fun v a => interfered a v) v env.

Lemma fetch_update_loop_cons {V St} `{EqDecision V} (f : V -> M St (option V))
    (set_order fetch_order : Ordering) fuel prev a env v st :
  fetch_update_loop f set_order fetch_order (S fuel) prev (a :: env) v st =
  match f prev st with
  | (Panic p, st) => Some (Panic p, (v, st))
  | (UB, st) => Some (UB, (v, st))
  | (Ret None, st) => Some (Ret (inr prev), (v, st))
  | (Ret (Some next), st) =>
      let v := interfered a v in
      if spurious a then fetch_update_loop f set_order fetch_order fuel v env v st
      else match atomic_compare_exchange prev next set_order fetch_order v with
           | (Ret (inl old), v) => Some (Ret (inl old), (v, st))
           | (Ret (inr now), v) => fetch_update_loop f set_order fetch_order fuel now env v st
           | (Panic p, v) => Some (Panic p, (v, st))
           | (UB, v) => Some (UB, (v, st))
           end
  end.
Proof. reflexivity. Qed.

Lemma fetch_update_loop_spec {V St} `{EqDecision V} (f : V -> M St (option V))
    (set_order fetch_order : Ordering) env v st :
  rejects_load fetch_order = false ->
  (forall x s, exists r s', f x s = (Ret r, s')) ->
  exists r v' st', fetch_update_loop f set_order fetch_order (S (length env)) v env v st
    = Some (Ret r, (v', st')) /\
  exists k st1, (k <= length env)%nat /\
    match r with
    | inl old => old = value_after v (take k env) /\ exists new, f old st1 = (Ret (Some new), st') /\ v' = new
    | inr old => old = value_after v (take k env) /\ f old st1 = (Ret None, st') /\ v' = old
    end.
Proof.
  intros Ho Hf. revert v st. induction env as [|a env IH]; intros v st.
  - cbn. destruct (Hf v st) as (r & st' & E). rewrite E. destruct r as [new|].
    + unfold atomic_compare_exchange. rewrite Ho. cbn. rewrite decide_True by done.
      exists (inl v), new, st'. split; [done|]. exists O, st. split; [done|]. split; [done|by exists new].
    + exists (inr v), v, st'. split; [done|]. by exists O, st.
  - cbn [length]. rewrite fetch_update_loop_cons. destruct (Hf v st) as (r & st1 & E). rewrite E.
    destruct r as [new|].
    + cbv zeta. destruct (spurious a).
      * destruct (IH (interfered a v) st1) as (r & v' & st' & He & k & s & Hk & Hr).
        exists r, v', st'. split; [exact He|]. exists (S k), s. split; [cbn; lia|done].
      * unfold atomic_compare_exchange at 1. rewrite Ho. destruct (decide (interfered a v = v)) as [Hi|Hi].
        -- rewrite Hi. exists (inl v), new, st1. split; [done|]. exists O, st. split; [lia|].
           split; [done|]. by exists new.
        -- destruct (IH (interfered a v) st1) as (r & v' & st' & He & k & s & Hk & Hr).
           exists r, v', st'. split; [exact He|]. exists (S k), s. split; [cbn; lia|done].
    + exists (inr v), v, st1. split; [done|]. exists O, st. split; [lia|done].
Qed.

(** ** Properties *)

(** The ordering policies are always accepted: under every policy each
    shared operation completes and does what the plain operation would; with a
    run-time ordering [load] panics exactly for [Release] and [AcqRel], [store]
    exactly for [Acquire] and [AcqRel], [compare_exchange] exactly when its
    failure ordering is [Release] or [AcqRel], and the value is then untouched. *)
Theorem orderings_accepted `{Policy P} (order : P) `{EqDecision V} (v x current : V)
    (runtime success : Ordering) :
  load_with order v = (Ret v, v) /\ store_with x order v = (Ret tt, x) /\
  swap_with x order v = (Ret v, x) /\
  compare_exchange_with current x order v =
    (if decide (v = current) then (Ret (inl v), x) else (Ret (inr v), v)) /\
  load runtime v =
    (if decide (runtime = Ordering.Release \/ runtime = Ordering.AcqRel)
     then (Panic OrderingPanic, v) else (Ret v, v)) /\
  store x runtime v =
    (if decide (runtime = Ordering.Acquire \/ runtime = Ordering.AcqRel)
     then (Panic OrderingPanic, v) else (Ret tt, x)) /\
  swap x runtime v = (Ret v, x) /\
  compare_exchange current x success runtime v =
    (if decide (runtime = Ordering.Release \/ runtime = Ordering.AcqRel)
     then (Panic OrderingPanic, v)
     else if decide (v = current) then (Ret (inl v), x) else (Ret (inr v), v)).
Proof.
  match goal with H : Policy _ |- _ => pose proof (policy_cases (Policy := H)) as Hp end.
  assert (rejects_load (LOAD P) = false /\ rejects_store (STORE P) = false /\
          rejects_load (FAILURE P) = false) as (Hl & Hs & Hf).
  { rewrite !elem_of_cons in Hp. destruct Hp as [Hp|[Hp|[Hp|Hp]]];
      [injection Hp as -> -> _ ->; done..|by apply not_elem_of_nil in Hp]. }
  unfold load_with, store_with, compare_exchange_with, load_ordered, store_ordered,
    compare_exchange_ordered, atomic_load, atomic_store, atomic_compare_exchange; cbn.
  rewrite Hl, Hs, Hf. do 4 (split; [done|]).
  unfold load, store, compare_exchange, load_ordered, store_ordered, compare_exchange_ordered,
    atomic_load, atomic_store, atomic_compare_exchange; cbn.
  destruct runtime; cbn; repeat split; repeat case_decide; intuition congruence.
Qed.

Lemma orderings_accepted_witness : load_with mkAcqRel 4 = (Ret 4, 4).
Proof. apply (orderings_accepted mkAcqRel 4 5 6 Ordering.Release Ordering.SeqCst). Defined.

(** The integer read-modify-writes at the width of the type: each returns
    the old value and leaves one in range; addition and subtraction are modulo
    [2 ^ bits], the bitwise operations act on each of the [bits] bits, maximum
    and minimum on the values (signed or not). *)
Theorem fetch_operations (t : int_type) (order : Ordering) (v x : Z) :
  int_type_ok t -> in_range t v -> in_range t x ->
  Forall (fun op : M Z Z => fst (op v) = Ret v /\ in_range t (snd (op v)))
    [fetch_add t x order; fetch_sub t x order; fetch_and t x order; fetch_or t x order;
     fetch_xor t x order; fetch_nand t x order; fetch_max x order; fetch_min x order] /\
  snd (fetch_add t x order v) mod 2 ^ bits t = (v + x) mod 2 ^ bits t /\
  snd (fetch_sub t x order v) mod 2 ^ bits t = (v - x) mod 2 ^ bits t /\
  (forall i, 0 <= i < bits t ->
    Z.testbit (snd (fetch_and t x order v)) i = Z.testbit v i && Z.testbit x i /\
    Z.testbit (snd (fetch_or t x order v)) i = Z.testbit v i || Z.testbit x i /\
    Z.testbit (snd (fetch_xor t x order v)) i = xorb (Z.testbit v i) (Z.testbit x i) /\
    Z.testbit (snd (fetch_nand t x order v)) i = negb (Z.testbit v i && Z.testbit x i)) /\
  snd (fetch_max x order v) = Z.max v x /\ snd (fetch_min x order v) = Z.min v x.
Proof.
  intros Ht Hv Hx. split.
  { repeat constructor; cbn; try (by apply wrap_range);
      unfold in_range in *; destruct (signed t); lia. }
  cbn. split; [by apply wrap_mod|]. split; [by apply wrap_mod|]. split; [|done].
  intros i Hi. rewrite !wrap_testbit by done.
  by rewrite Z.lnot_spec, Z.land_spec, Z.lor_spec, Z.lxor_spec by lia.
Qed.

Definition i8 : int_type := mkInt true 8.
Definition u16 : int_type := mkInt false 16.

Lemma fetch_operations_witness : snd (fetch_add i8 100 mkSeqCst 100) mod 256 = 200 mod 256.
Proof.
  destruct (fetch_operations i8 Ordering.SeqCst 100 100) as (_ & Ha & _);
    [unfold int_type_ok; cbn; lia|unfold in_range; cbn; lia..|exact Ha].
Defined.

(** Concurrent counters: however the [fetch_add]s of the threads interleave
    the final value is the same, the sum modulo [2 ^ bits]; and up to
    [2 ^ bits] increments hand out pairwise distinct tickets. *)
Theorem fetch_add_interleavings (t : int_type) (order : Ordering) (v : Z) (l l' : list Z) (n : nat) :
  int_type_ok t -> in_range t v -> l ≡ₚ l' -> Z.of_nat n <= 2 ^ bits t ->
  snd (fetch_adds t order l v) = snd (fetch_adds t order l' v) /\
  snd (fetch_adds t order l v) mod 2 ^ bits t = (v + sum_list l) mod 2 ^ bits t /\
  exists seen, fetch_adds t order (replicate n 1) v = (Ret seen, wrap t (v + Z.of_nat n)) /\
    length seen = n /\ NoDup seen.
Proof.
  intros Ht Hv Hp Hn. rewrite !fetch_adds_eval by done. cbn [snd].
  split; [by rewrite (sum_list_perm l l')|]. split; [by apply wrap_mod|].
  exists (tickets t v (replicate n 1)).
  assert (sum_list (replicate n 1) = Z.of_nat n) as ->.
  { clear. unfold sum_list. induction n as [|n IH]; [done|]. cbn [replicate foldr]. lia. }
  split; [done|]. rewrite tickets_ones by done. split; [by rewrite length_fmap, length_seq|].
  apply NoDup_fmap_2_strong; [|apply NoDup_seq].
  intros j k Hj%elem_of_seq Hk%elem_of_seq He. apply wrap_distinct in He; [lia|done|lia..].
Qed.

Lemma fetch_add_interleavings_witness :
  snd (fetch_adds u16 Ordering.Relaxed [65000; 1000; 3] 5) =
  snd (fetch_adds u16 Ordering.Relaxed [3; 65000; 1000] 5).
Proof.
  apply (fetch_add_interleavings u16 Ordering.Relaxed 5 [65000; 1000; 3] [3; 65000; 1000] 2);
    [unfold int_type_ok; cbn; lia|unfold in_range; cbn; lia| |cbn; lia].
  symmetry. apply (Permutation_middle [65000; 1000] [] 3).
Defined.

(** [fetch_update] ends and is one atomic update, whatever the other threads
    write meanwhile and however often the weak compare-exchange fails without
    reason: it returns [Ok(old)] after storing the closure's value for [old],
    where [old] is what the atomic held at that moment, or [Err(old)] without
    storing anything when the closure declines [old]. *)
Theorem fetch_update_atomic {V St} `{EqDecision V} (f : V -> M St (option V))
    (set_order fetch_order : Ordering) (env : list (attempt V)) (v : V) (st : St) :
  rejects_load fetch_order = false -> (forall x s, exists r s', f x s = (Ret r, s')) ->
  exists r v' st',
    fetch_update set_order fetch_order f (S (length env)) env v st = Some (Ret r, (v', st')) /\
  exists k st1, (k <= length env)%nat /\
    match r with
    | inl old => old = value_after v (take k env) /\
        exists new, f old st1 = (Ret (Some new), st') /\ v' = new
    | inr old => old = value_after v (take k env) /\ f old st1 = (Ret None, st') /\ v' = old
    end.
Proof.
  intros Ho Hf. unfold fetch_update, fetch_update_ordered, atomic_fetch_update, atomic_load; cbn.
  rewrite Ho. by apply fetch_update_loop_spec.
Qed.

(** Halves even values, declines odd ones, and counts its calls. *)
Definition halve (x : Z) : M Z (option Z) := fun calls =>
  (Ret (if decide (x mod 2 = 0) then Some (x / 2) else None), calls + 1).

Lemma fetch_update_atomic_witness :
  exists r v' st', fetch_update Ordering.SeqCst Ordering.Relaxed halve 3
    [mkAttempt [12] false; mkAttempt [] true] 10 0 = Some (Ret r, (v', st')).
Proof.
  destruct (fetch_update_atomic halve Ordering.SeqCst Ordering.Relaxed
    [mkAttempt [12] false; mkAttempt [] true] 10 0 eq_refl) as (r & v' & st' & He & _).
  - intros x s. unfold halve. eauto.
  - exists r, v', st'. exact He.
Defined.

(** The exclusive phase agrees with the shared one: a plain load or store
    has the effect of the atomic one, and a plain read-modify-write through
    [with_exclusive] that of the atomic [swap], [fetch_add] and
    [fetch_update] run without interference. *)
Theorem exclusive_phase_agrees `{Policy P} (order : P) (t : int_type) (v x : Z) (g : Z -> Z) :
  @load_exclusive Z v = load_with order v /\
  store_exclusive x v = store_with x order v /\
  with_exclusive (fun old => (Ret old, x)) v = swap_with x order v /\
  with_exclusive (fun old => (Ret old, wrap t (old + x))) v = fetch_add t x order v /\
  fetch_update_with order (fun old (u : unit) => (Ret (Some (g old)), u)) 1 [] v tt =
    Some (Ret (inl v), (snd (with_exclusive (fun old => (Ret old, g old)) v), tt)).
Proof.
  match goal with H : Policy _ |- _ => pose proof (policy_cases (Policy := H)) as Hp end.
  rewrite !elem_of_cons in Hp.
  unfold load_with, store_with, fetch_update_with, load_ordered, store_ordered, fetch_update_ordered,
    atomic_fetch_update, atomic_load, atomic_store; cbn.
  destruct Hp as [Hp|[Hp|[Hp|Hp]]]; [|..|by apply not_elem_of_nil in Hp];
    injection Hp as -> -> _ ->; cbn; unfold atomic_compare_exchange; cbn;
    by rewrite decide_True by done.
Qed.

Lemma exclusive_phase_agrees_witness : @load_exclusive Z 3 = load_with mkRelaxed 3.
Proof. apply (exclusive_phase_agrees mkRelaxed i8 3 4 Z.succ). Defined.
