(* ===== verification/AtomicPhases.v ===== *)
(** * Branded atomics under the phases of their brand ([src/atomic/branded.rs])

    [BrandedAtomic] has two ways to its value: plain accesses under a write
    permit ([with_exclusive]) and atomic operations under a read permit.  They
    must never meet.  Here the branded atomics live in the token machine of
    [Token]: an atomic is a cell with one component and an integer type, a
    running [with_exclusive] is a writing guard on it, a reference obtained with
    [as_atomic] is a reading one, and the methods of [Atomic] run against the
    current value in one step.  Operations of any number of threads follow one
    another in any order.

    Main results: a plain access excludes every other access the permits
    control; each atomic is a sequential register whose operations take effect
    one after the other, however the threads interleave; its value is always in
    the range of its type.  The [Debug] implementation, which takes no permit,
    is the exception, and breaks the first. *)
From S2P Require Import Prelude AutoTraits Token BrandLock Views Atomic.
From stdpp Require Import base numbers list gmap relations.
Local Open Scope Z_scope.

#[export] Instance in_range_dec t v : Decision (in_range t v).
Proof. unfold in_range. destruct (signed t); apply _. Defined.
#[export] Instance int_type_ok_dec t : Decision (int_type_ok t).
Proof. unfold int_type_ok. apply _. Defined.

(** ** The methods *)

(** The atomic methods of a branded integer, with the orderings they end up
    with: those of the run-time variant, or of the policy. *)
Inductive method : Type :=
| Load (order : Ordering)
| Store (value : Z) (order : Ordering)
| Swap (value : Z) (order : Ordering)
| CompareExchange (current new : Z) (success failure : Ordering)
| FetchAdd (value : Z) (order : Ordering)
| FetchSub (value : Z) (order : Ordering)
| FetchAnd (value : Z) (order : Ordering)
| FetchOr (value : Z) (order : Ordering)
| FetchXor (value : Z) (order : Ordering)
| FetchNand (value : Z) (order : Ordering)
| FetchMax (value : Z) (order : Ordering)
| FetchMin (value : Z) (order : Ordering).

Inductive reply : Type :=
| Done
| Value (v : Z)
| Exchanged (r : Z + Z).

Definition call (t : int_type) (m : method) : M Z reply :=
  match m with
  | Load o => v ← load o; mret (Value v)
  | Store x o => _ ← store x o; mret Done
  | Swap x o => v ← swap x o; mret (Value v)
  | CompareExchange x y s f => r ← compare_exchange x y s f; mret (Exchanged r)
  | FetchAdd x o => v ← fetch_add t x o; mret (Value v)
  | FetchSub x o => v ← fetch_sub t x o; mret (Value v)
  | FetchAnd x o => v ← fetch_and t x o; mret (Value v)
  | FetchOr x o => v ← fetch_or t x o; mret (Value v)
  | FetchXor x o => v ← fetch_xor t x o; mret (Value v)
  | FetchNand x o => v ← fetch_nand t x o; mret (Value v)
  | FetchMax x o => v ← fetch_max x o; mret (Value v)
  | FetchMin x o => v ← fetch_min x o; mret (Value v)
  end.

(** The arguments are values of the atomic's type. *)
Definition method_ok (t : int_type) (m : method) : Prop :=
  match m with
  | Load _ => True
  | CompareExchange _ y _ _ => in_range t y
  | Store x _ | Swap x _ | FetchAdd x _ | FetchSub x _ | FetchAnd x _ | FetchOr x _
  | FetchXor x _ | FetchNand x _ | FetchMax x _ | FetchMin x _ => in_range t x
  end.

#[export] Instance method_ok_dec t m : Decision (method_ok t m).
Proof. destruct m; apply _. Defined.

(** ** The machine *)

(** The atomics are the cells with an integer type. *)
Record amachine : Type := mkAM {
  machine : world;
  types : gmap positive int_type
}.

Definition initial_machine : amachine := mkAM initial_world ∅.

Definition atomic_payload : payload := mkPayload true true true 8 8.

Definition with_value (d : cell) (x : list Z) : cell :=
  mkCell (c_brand d) (c_thread d) (c_origin d) (c_parts d) x.

(** The cell [c] holds [v]. *)
Definition value_of (c : positive) (w : world) : option Z := d ← cells w !! c; head (c_value d).
Definition put_value (c : positive) (v : Z) (w : world) : option world :=
  d ← cells w !! c; Some (set_cell c (with_value d [v]) w).

Definition set_machine (a : amachine) (w : world) : amachine := mkAM w (types a).

(** [BrandedAtomic::new], with the ambient brand. *)
Definition branded_new (th brand : positive) (t : int_type) (v : Z) (a : amachine) : option amachine :=
  guard (int_type_ok t /\ in_range t v);;
  w ← new_cell th brand [atomic_payload] [new v] (machine a);
  Some (mkAM w (<[next (machine a) := t]> (types a))).

(** One method on the value of [c]. *)
Definition run_call (c : positive) (m : method) (a : amachine) : option (outcome reply * amachine) :=
  t ← types a !! c;
  guard (method_ok t m);;
  v ← value_of c (machine a);
  let '(o, v) := call t m v in
  w ← put_value c v (machine a);
  Some (o, set_machine a w).

(** [atomic.method(.., permit, ..)]: any permit of the brand will do; a [&mut]
    one is moved into the call. *)
Definition shared_call (i c : positive) (m : method) (a : amachine)
    : option (outcome reply * amachine) :=
  '(h, form, d) ← opens i c (machine a);
  '(o, a) ← run_call c m a;
  Some (o, match form with
           | ByMut => set_machine a (drop_holder i (machine a))
           | ByRef | ByShared => a
           end).

(** [atomic.as_atomic(permit)] lends a [&A]; the methods of [A] are called on it. *)
Definition as_atomic (i c : positive) (a : amachine) : option amachine :=
  _ ← types a !! c;
  w ← cell_borrow i c (machine a);
  Some (set_machine a w).
Definition ref_call (g : positive) (m : method) (a : amachine) : option (outcome reply * amachine) :=
  h ← holders (machine a) !! g;
  match h_hold h with
  | Guard c _ _ false => run_call c m a
  | Guard _ _ _ true | Permit _ => None
  end.

(** [atomic.with_exclusive(permit, f)]: [f] is running; what it writes; it ends
    with the borrow. *)
Definition exclusive_begin (i c : positive) (a : amachine) : option amachine :=
  _ ← types a !! c;
  w ← cell_borrow_mut i c (machine a);
  Some (set_machine a w).
Definition exclusive_write (g : positive) (x : Z) (a : amachine) : option amachine :=
  h ← holders (machine a) !! g;
  match h_hold h with
  | Guard c _ _ _ =>
      t ← types a !! c;
      guard (in_range t x);;
      w ← guard_deref_mut g 0 x (machine a);
      Some (set_machine a w)
  | Permit _ => None
  end.
Definition exclusive_read (g : positive) (a : amachine) : option Z :=
  guard_deref g (machine a) ≫= head.
Definition exclusive_end (g : positive) (a : amachine) : option amachine :=
  w ← end_borrow g (machine a);
  Some (set_machine a w).

(** [load_exclusive], [store_exclusive]: [with_exclusive] with one access. *)
Definition branded_load_exclusive (i c : positive) (a : amachine) : option (Z * amachine) :=
  a ← exclusive_begin i c a;
  v ← exclusive_read i a;
  a ← exclusive_end i a;
  Some (v, a).
Definition branded_store_exclusive (i c : positive) (x : Z) (a : amachine) : option amachine :=
  a ← exclusive_begin i c a;
  a ← exclusive_write i x a;
  exclusive_end i a.

(** A write through [get_mut] or [as_atomic_mut], by the owner. *)
Definition branded_get_mut (th c : positive) (x : Z) (a : amachine) : option amachine :=
  t ← types a !! c;
  guard (in_range t x);;
  w ← cell_get_mut th c 0 x (machine a);
  Some (set_machine a w).

(** [into_inner], [into_atomic] *)
Definition branded_into_inner (th c : positive) (a : amachine) : option (Z * amachine) :=
  _ ← types a !! c;
  v ← value_of c (machine a);
  w ← cell_into_inner th c (machine a);
  Some (v, mkAM w (delete c (types a))).

(** [fmt] of [Debug]: the standard atomic's [fmt] loads the value; a shared
    reference to the atomic is enough. *)
Definition debug_fmt (th c : positive) (a : amachine) : option Z :=
  _ ← types a !! c;
  d ← cells (machine a) !! c;
  guard (may_access th d);;
  value_of c (machine a).

(** ** Programs *)

(** The cell an operation of the token machine reaches the contents of. *)
Definition reaches (o : op) (w : world) : option positive :=
  match o with
  | CellBorrow _ c | CellBorrowMut _ c | SliceBorrow _ c _ _ | SliceBorrowMut _ c _ _
  | CellReplace _ c _ | CellGetMut _ c _ _ | CellIntoInner _ c => Some c
  | GuardDerefMut i _ _ | GuardMap i _ _ | GuardMapSplit i _ _ _ _ =>
      h ← holders w !! i;
      match h_hold h with Guard c _ _ _ => Some c | Permit _ => None end
  | _ => None
  end.

(** Tokens, permits, borrows and ordinary cells; the contents of an atomic are
    reached by the operations above only.  The atomics of a brand end with it. *)
Definition machine_op (o : op) (a : amachine) : option amachine :=
  guard (reaches o (machine a) ≫= (fun c => types a !! c) = None);;
  w ← exec o (machine a);
  Some (mkAM w (filter (fun '(c, _) => is_Some (cells w !! c)) (types a))).

Inductive aop : Type :=
| ABase (o : op)
| ANew (th brand : positive) (t : int_type) (v : Z)
| ACall (i c : positive) (m : method)
| AAsAtomic (i c : positive)
| ARefCall (g : positive) (m : method)
| AExclusive (i c : positive)
| AWrite (g : positive) (x : Z)
| AGetMut (th c : positive) (x : Z)
| AIntoInner (th c : positive)
| ADebug (th c : positive).

Definition silent (r : option amachine) : option (outcome reply * amachine) :=
  a ← r; Some (Ret Done, a).

(** [None]: the compiler rejects the operation. *)
Definition aexec (o : aop) (a : amachine) : option (outcome reply * amachine) :=
  match o with
  | ABase o => silent (machine_op o a)
  | ANew th brand t v => silent (branded_new th brand t v a)
  | ACall i c m => shared_call i c m a
  | AAsAtomic i c => silent (as_atomic i c a)
  | ARefCall g m => ref_call g m a
  | AExclusive i c => silent (exclusive_begin i c a)
  | AWrite g x => silent (exclusive_write g x a)
  | AGetMut th c x => silent (branded_get_mut th c x a)
  | AIntoInner th c => '(v, a) ← branded_into_inner th c a; Some (Ret (Value v), a)
  | ADebug th c => v ← debug_fmt th c a; Some (Ret (Value v), a)
  end.

Definition asafe (o : aop) : bool := match o with ABase o => safe o | _ => true end.

(** The operations of all threads, in the order they take effect, and what they
    return. *)
Fixpoint arun (ops : list aop) (a : amachine) : option (list (outcome reply) * amachine) :=
  match ops with
  | [] => Some ([], a)
  | o :: ops =>
      '(r, a) ← aexec o a;
      '(rs, a) ← arun ops a;
      Some (r :: rs, a)
  end.

(** A step of a safe program. *)
Definition astep (a a' : amachine) : Prop := exists o r, asafe o = true /\ aexec o a = Some (r, a').

(** ** The invariant *)

Record ainv (a : amachine) : Prop := {
  ainv_machine : inv (machine a);
  ainv_atomics c t : types a !! c = Some t -> int_type_ok t /\
    exists d v, cells (machine a) !! c = Some d /\ c_parts d = [atomic_payload] /\
      c_value d = [v] /\ in_range t v;
  ainv_guards i h c lo hi writes : holders (machine a) !! i = Some h ->
    h_hold h = Guard c lo hi writes -> is_Some (types a !! c) -> lo = 0 /\ hi = 1
}.

(** ** Lemmas: the values *)

Lemma wrapped_result t g x o v r v' :
  int_type_ok t -> fetch (fun a b => wrap t (g a b)) x o v = (r, v') -> in_range t v'.
Proof. intros Ht [= _ <-]. by apply wrap_range. Qed.

Lemma call_in_range t m v r v' :
  int_type_ok t -> method_ok t m -> in_range t v -> call t m v = (r, v') -> in_range t v'.
Proof.
  intros Ht Hm Hv. destruct m; cbn in Hm |- *; unfold mbind, M_bind, mret, M_ret;
    try (intros [= _ <-]; by apply wrap_range); try (by intros [= _ <-]).
  - unfold load, load_ordered, atomic_load. cbn. destruct (rejects_load _); by intros [= _ <-].
  - unfold store, store_ordered, atomic_store. cbn. destruct (rejects_store _); by intros [= _ <-].
  - unfold compare_exchange, compare_exchange_ordered, atomic_compare_exchange. cbn.
    destruct (rejects_load _); [by intros [= _ <-]|]. destruct (decide _); by intros [= _ <-].
  - cbn. intros [= _ <-]. unfold Z.max. by destruct (v ?= value).
  - cbn. intros [= _ <-]. unfold Z.min. by destruct (v ?= value).
Qed.

(** ** Lemmas: one operation *)

Lemma insert_keeps_value (m : gmap positive cell) c0 d0 d0' c d :
  m !! c0 = Some d0 -> same_shape d0 d0' -> c_value d0' = c_value d0 -> m !! c = Some d ->
  exists d', <[c0 := d0']> m !! c = Some d' /\ same_shape d d' /\ c_value d' = c_value d.
Proof.
  intros H0 Hs Hv Hc. destruct (decide (c0 = c)) as [->|Hne].
  - rewrite lookup_insert_eq. exists d0'. by assert (d0 = d) as <- by congruence.
  - rewrite lookup_insert_ne by done. by exists d.
Qed.

(** The operation leaves the contents of [c] alone. *)
Lemma exec_spares_cell o w w' c d :
  inv w -> exec o w = Some w' -> reaches o w <> Some c -> cells w !! c = Some d ->
  cells w' !! c = None \/
  exists d', cells w' !! c = Some d' /\ same_shape d d' /\ c_value d' = c_value d.
Proof.
  intros Hw He Hr Hc. assert (c <> next w) as Hn by (by eapply cell_old).
  destruct o; cbn in He, Hr; try (exec_inv_tac He; right; by exists d).
  - apply bind_Some in He as (d0 & Hd & [_ [_ [= <-]]%guard_Some]%guard_Some). right. cbn.
    by eapply insert_keeps_value.
  - apply guard_Some in He as [_ [_ [= <-]]%guard_Some]. right. exists d. cbn.
    by rewrite lookup_insert_ne.
  - exec_inv_tac He; right; exists d; cbn; by rewrite lookup_insert_ne by congruence.
  - exec_inv_tac He; right; exists d; cbn; by rewrite lookup_insert_ne by congruence.
  - exec_inv_tac He; right; exists d; cbn; by rewrite lookup_delete_ne by congruence.
  - apply bind_Some in He as (h & Hh & He). rewrite Hh in Hr. cbn in Hr.
    destruct (h_hold h) as [|c' lo hi wr]; [done|].
    apply bind_Some in He as (d0 & Hd & [_ [_ [= <-]]%guard_Some]%guard_Some). right. exists d. cbn.
    by rewrite lookup_insert_ne by congruence.
  - injection He as <-. cbn [cells].
    destruct (decide (c_brand d = b)) as [Hb|Hb].
    + left. apply map_lookup_filter_None. right. intros d' Hd' Hne. congruence.
    + right. exists d. split; [|done]. by apply map_lookup_filter_Some.
Qed.

Lemma lend_guard i form g w j h :
  holders (lend i form g w) !! j = Some h -> h = g \/ holders w !! j = Some h.
Proof.
  destruct form; cbn; intros [[_ <-]|[_ Hj]]%lookup_insert_Some; auto.
Qed.

(** It makes no guard on [c], and leaves the range of those there are. *)
Lemma exec_spares_guard o w w' c i h lo hi writes :
  inv w -> exec o w = Some w' -> reaches o w <> Some c ->
  holders w' !! i = Some h -> h_hold h = Guard c lo hi writes ->
  exists h0, holders w !! i = Some h0 /\ h_hold h0 = Guard c lo hi writes.
Proof.
  intros Hw He Hr Hi Eh. destruct o; cbn in He, Hr;
    try (exec_inv_tac He; by exists h);
    try (exec_inv_tac He; cbn in Hi; apply lookup_insert_Some in Hi as [[<- <-]|[_ Hi]];
      [discriminate Eh|by exists h]).
  - apply bind_Some in He as (h0 & Hh & (k & _ & He)%bind_Some). destruct (h_hold h0) eqn:E0; [|done].
    apply guard_Some in He as [_ [= <-]]. cbn in Hi.
    apply lookup_insert_Some in Hi as [[<- <-]|[_ Hi]]; [congruence|by exists h].
  - exec_inv_tac He. cbn in Hi. apply lookup_delete_Some in Hi as [_ Hi]. by exists h.
  - apply bind_Some in He as (h0 & Hh & (k & _ & (t & _ & [_ [= <-]]%guard_Some)%bind_Some)%bind_Some).
    cbn in Hi. apply lookup_insert_Some in Hi as [[<- <-]|[_ Hi]]; [by exists h0|by exists h].
  - apply bind_Some in He as ([[h0 form] d] & _ & [= <-]).
    apply lend_guard in Hi as [->|Hi]; [injection Eh; congruence|by exists h].
  - apply bind_Some in He as ([[h0 form] d] & _ & [_ [= <-]]%guard_Some).
    apply lend_guard in Hi as [->|Hi]; [injection Eh; congruence|by exists h].
  - apply bind_Some in He as ([[h0 form] d] & _ & [_ [= <-]]%guard_Some).
    apply lend_guard in Hi as [->|Hi]; [injection Eh; congruence|by exists h].
  - apply bind_Some in He as ([[h0 form] d] & _ & [_ [_ [= <-]]%guard_Some]%guard_Some).
    apply lend_guard in Hi as [->|Hi]; [injection Eh; congruence|by exists h].
  - apply bind_Some in He as ([[h0 form] d] & _ & [_ [_ [= <-]]%guard_Some]%guard_Some).
    cbn in Hi. apply lookup_delete_Some in Hi as [_ Hi]. by exists h.
  - apply bind_Some in He as (h0 & Hh & He). rewrite Hh in Hr. cbn in Hr.
    destruct (h_hold h0) as [|c' lo' hi' wr] eqn:E0; [done|]. apply guard_Some in He as [_ [= <-]].
    cbn in Hi. apply lookup_insert_Some in Hi as [[<- <-]|[_ Hi]]; [injection Eh; congruence|by exists h].
  - apply bind_Some in He as (h0 & Hh & He). rewrite Hh in Hr. cbn in Hr.
    destruct (h_hold h0) as [|c' lo' hi' wr] eqn:E0; [done|].
    apply guard_Some in He as [_ [_ [= <-]]%guard_Some]. cbn in Hi.
    apply lookup_insert_Some in Hi as [[<- <-]|[_ [[<- <-]|[_ Hi]]%lookup_insert_Some]];
      [injection Eh; congruence..|by exists h].
  - injection He as <-. cbn in Hi. apply map_lookup_filter_Some in Hi as [Hi _]. by exists h.
Qed.

(** ** Lemmas: every operation preserves the invariant *)

Section preservation.
Context (a : amachine) (Ha : ainv a).

Lemma atomic_cell c t :
  types a !! c = Some t -> exists d v, cells (machine a) !! c = Some d /\
    c_parts d = [atomic_payload] /\ c_value d = [v] /\ in_range t v /\ value_of c (machine a) = Some v.
Proof using Ha.
  intros Hc. destruct (ainv_atomics a Ha c t Hc) as (_ & d & v & Hd & Hp & Hv & Hr).
  exists d, v. do 4 (split; [done|]). unfold value_of. rewrite Hd. cbn. by rewrite Hv.
Qed.

(** Writes into a value of one component put it. *)
Lemma zset_one (x v : Z) : zset 0 x [v] = [x].
Proof. done. Qed.

Lemma ainv_put c t v w :
  types a !! c = Some t -> in_range t v -> put_value c v (machine a) = Some w -> ainv (set_machine a w).
Proof using Ha.
  intros Hc Hv Hp. destruct (atomic_cell c t Hc) as (d & v0 & Hd & Hpa & Hv0 & _ & _).
  unfold put_value in Hp. rewrite Hd in Hp. injection Hp as <-.
  pose proof Ha as [Hm Hat Hg]. split; [| |exact Hg].
  - eapply inv_set_cell; [done|done|done|done|by left|].
    destruct (inv_cells _ Hm c d Hd) as (? & ? & Hlen & Hth). unfold cell_ok. cbn.
    repeat split; [done|done|rewrite Hpa; done|exact Hth].
  - intros c' t' Hc'. destruct (Hat c' t' Hc') as (Ht & d' & v' & Hd' & Hp' & Hv' & Hr'). cbn in *.
    split; [done|]. destruct (decide (c' = c)) as [->|Hne].
    + rewrite lookup_insert_eq. exists (with_value d [v]), v. cbn.
      assert (t' = t) as -> by congruence. by split_and!.
    + rewrite lookup_insert_ne by done. by exists d', v'.
Qed.

Lemma ainv_drop i : ainv (set_machine a (drop_holder i (machine a))).
Proof using Ha.
  pose proof Ha as [Hm Hat Hg]. split; [by apply inv_drop_holder|exact Hat|].
  intros j h c lo hi wr Hj. cbn in Hj. apply lookup_delete_Some in Hj as [_ Hj]. by eapply Hg.
Qed.

Lemma ainv_lend i c h form d t writes :
  opens i c (machine a) = Some (h, form, d) -> types a !! c = Some t ->
  inv (lend i form (full_guard h c d writes) (machine a)) ->
  ainv (set_machine a (lend i form (full_guard h c d writes) (machine a))).
Proof using Ha.
  intros Ho Hc Hinv. pose proof Ha as [Hm Hat Hg].
  destruct (opens_inv _ _ _ _ _ _ Hm Ho) as (_ & _ & Hd & _).
  destruct (Hat c t Hc) as (_ & d' & v & Hd' & Hpa & _ & _). assert (d' = d) as -> by congruence.
  split; [done|by destruct form|].
  intros j h' c' lo hi wr Hj Eh Hs. apply lend_guard in Hj as [->|Hj]; [|by eapply Hg].
  injection Eh as <- <- <- <-. by rewrite Hpa.
Qed.

Lemma ainv_machine_op o a' : safe o = true -> machine_op o a = Some a' -> ainv a'.
Proof using Ha.
  intros Hs [Hr (w & He & [= <-])%bind_Some]%guard_Some. pose proof Ha as [Hm Hat Hg].
  assert (forall c, is_Some (types a !! c) -> reaches o (machine a) <> Some c) as Hsp.
  { intros c [t Hc] E. rewrite E in Hr. cbn in Hr. congruence. }
  split; cbn; [by eapply exec_inv| |].
  - intros c t [Hc [d' Hd']]%map_lookup_filter_Some.
    destruct (Hat c t Hc) as (Ht & d & v & Hd & Hpa & Hv & Hrg). split; [done|].
    destruct (exec_spares_cell o _ w c d Hm He (Hsp c ltac:(by exists t)) Hd)
      as [?|(d1 & Hd1 & [Hp1 _] & Hv1)]; [congruence|].
    exists d1, v. split_and!; [done|congruence|congruence|done].
  - intros i h c lo hi wr Hi Eh [t [Hc _]%map_lookup_filter_Some].
    destruct (exec_spares_guard o _ w c i h lo hi wr Hm He (Hsp c ltac:(by exists t)) Hi Eh)
      as (h0 & Hi0 & Eh0).
    eapply Hg; [exact Hi0|exact Eh0|by exists t].
Qed.

Lemma ainv_branded_new th b t v a' : branded_new th b t v a = Some a' -> ainv a'.
Proof using Ha.
  intros [[Ht Hv] (w & Hw & [= <-])%bind_Some]%guard_Some. pose proof Ha as [Hm Hat Hg].
  assert (inv w) as Hiw by (by eapply inv_new_cell_op).
  apply guard_Some in Hw as [_ [_ [= <-]]%guard_Some]. split; cbn; [done| |].
  - intros c t' [[<- <-]|[Hne Hc]]%lookup_insert_Some.
    + split; [done|]. rewrite lookup_insert_eq. by eexists _, v.
    + rewrite lookup_insert_ne by done. by apply Hat.
  - intros i h c lo hi wr Hi Eh Hs. destruct (decide (c = next (machine a))) as [->|Hne].
    + exfalso. pose proof (fresh_unguarded _ Hm i h Hi) as Hf. cbn in Hf. by rewrite Eh in Hf.
    + eapply Hg; [exact Hi|exact Eh|]. by rewrite lookup_insert_ne in Hs.
Qed.

Lemma ainv_into_inner th c v a' : branded_into_inner th c a = Some (v, a') -> ainv a'.
Proof using Ha.
  intros (t & Hc & (v0 & Hv0 & (w & Hw & [= _ <-])%bind_Some)%bind_Some)%bind_Some.
  pose proof Ha as [Hm Hat Hg].
  assert (inv w) as Hiw by (by eapply inv_cell_into_inner).
  apply bind_Some in Hw as (d & _ & [_ [_ [= <-]]%guard_Some]%guard_Some).
  split; cbn; [done| |].
  - intros c' t' [Hne Hc']%lookup_delete_Some. rewrite lookup_delete_ne by done. by apply Hat.
  - intros i h c' lo hi wr Hi Eh [t' [_ Hc']%lookup_delete_Some]. eapply Hg; [done..|]. by exists t'.
Qed.
End preservation.

(** ** Lemmas: what the operations do *)

Section effects.
Context (a : amachine) (Ha : ainv a).

Lemma run_call_inv c m r a' :
  run_call c m a = Some (r, a') ->
  exists t d v v' w, types a !! c = Some t /\ method_ok t m /\ cells (machine a) !! c = Some d /\
    c_value d = [v] /\ call t m v = (r, v') /\ in_range t v' /\
    w = set_cell c (with_value d [v']) (machine a) /\ put_value c v' (machine a) = Some w /\
    a' = set_machine a w.
Proof using Ha.
  intros (t & Hc & [Hm (v & Hv & Hp)%bind_Some]%guard_Some)%bind_Some.
  destruct (atomic_cell a Ha c t Hc) as (d & v0 & Hd & _ & Hv0 & Hr0 & Hval).
  assert (v0 = v) as -> by congruence. destruct (call t m v) as [o v'] eqn:Ec.
  assert (put_value c v' (machine a) = Some (set_cell c (with_value d [v']) (machine a))) as Hput.
  { unfold put_value. by rewrite Hd. }
  rewrite Hput in Hp. injection Hp as -> <-. exists t, d, v, v', (set_cell c (with_value d [v']) (machine a)).
  split_and!; try done. eapply call_in_range; [|done..]. by destruct (ainv_atomics a Ha c t Hc).
Qed.

Lemma ainv_run_call c m r a' : run_call c m a = Some (r, a') -> ainv a'.
Proof using Ha.
  intros (t & d & v & v' & w & Hc & _ & _ & _ & _ & Hr & _ & Hp & ->)%run_call_inv.
  by eapply ainv_put.
Qed.

(** The guards on an atomic cover it. *)
Lemma exclusive_write_inv g x a' :
  exclusive_write g x a = Some a' ->
  exists h c t w, holders (machine a) !! g = Some h /\ h_hold h = Guard c 0 1 true /\
    types a !! c = Some t /\ in_range t x /\ put_value c x (machine a) = Some w /\ a' = set_machine a w.
Proof using Ha.
  intros (h & Hh & Hg)%bind_Some. destruct (h_hold h) as [|c lo hi wr] eqn:Eh; [done|].
  apply bind_Some in Hg as (t & Hc & [Hr (w & Hw & [= <-])%bind_Some]%guard_Some).
  destruct (ainv_guards a Ha g h c lo hi wr Hh Eh ltac:(by exists t)) as [-> ->].
  destruct (atomic_cell a Ha c t Hc) as (d & v & Hd & _ & Hv & _).
  apply bind_Some in Hw as (h' & Hh' & Hw). assert (h' = h) as -> by congruence. rewrite Eh in Hw.
  apply bind_Some in Hw as (d' & Hd' & [-> [_ [= <-]]%guard_Some]%guard_Some).
  assert (d' = d) as -> by congruence. exists h, c, t, (set_cell c (with_value d [x]) (machine a)).
  split_and!; try done; [unfold put_value; by rewrite Hd|]. unfold with_value. by rewrite Hv.
Qed.

Lemma get_mut_inv th c x a' :
  branded_get_mut th c x a = Some a' ->
  unguarded c (machine a) /\
  exists t w, types a !! c = Some t /\ in_range t x /\ put_value c x (machine a) = Some w /\
    a' = set_machine a w.
Proof using Ha.
  intros (t & Hc & [Hr (w & Hw & [= <-])%bind_Some]%guard_Some)%bind_Some.
  destruct (atomic_cell a Ha c t Hc) as (d & v & Hd & _ & Hv & _).
  apply bind_Some in Hw as (d' & Hd' & [_ [Hu [_ [= <-]]%guard_Some]%guard_Some]%guard_Some).
  assert (d' = d) as -> by congruence. split; [done|].
  exists t, (set_cell c (with_value d [x]) (machine a)).
  split_and!; try done; [unfold put_value; by rewrite Hd|]. unfold with_value. by rewrite Hv.
Qed.

Lemma put_value_is c v w : put_value c v (machine a) = Some w -> value_of c w = Some v.
Proof using.
  intros (d & Hd & [= <-])%bind_Some. unfold value_of. cbn. by rewrite lookup_insert_eq.
Qed.

Lemma put_value_other c c' v w :
  c' <> c -> put_value c v (machine a) = Some w -> value_of c' w = value_of c' (machine a).
Proof using.
  intros Hne (d & Hd & [= <-])%bind_Some. unfold value_of. cbn. by rewrite lookup_insert_ne.
Qed.

Lemma ainv_aexec o r a' : asafe o = true -> aexec o a = Some (r, a') -> ainv a'.
Proof using Ha.
  intros Hs He. destruct o; cbn in He, Hs.
  - apply bind_Some in He as (a1 & He & [= _ <-]). by eapply ainv_machine_op.
  - apply bind_Some in He as (a1 & He & [= _ <-]). by eapply ainv_branded_new.
  - apply bind_Some in He as ([[h form] d] & Ho & ([r1 a1] & Hr & [= _ <-])%bind_Some).
    apply ainv_run_call in Hr. destruct form; try done. by apply ainv_drop.
  - apply bind_Some in He as (a1 & (t & Hc & (w & Hw & [= <-])%bind_Some)%bind_Some & [= _ <-]).
    assert (inv w) as Hiw by (eapply inv_cell_borrow; [apply Ha|done]).
    apply bind_Some in Hw as ([[h form] d] & Ho & [= <-]). by eapply ainv_lend.
  - apply bind_Some in He as (h & Hh & He). destruct (h_hold h) as [|c lo hi []]; [done..|].
    by apply ainv_run_call in He.
  - apply bind_Some in He as (a1 & (t & Hc & (w & Hw & [= <-])%bind_Some)%bind_Some & [= _ <-]).
    assert (inv w) as Hiw by (eapply inv_cell_borrow_mut; [apply Ha|done]).
    apply bind_Some in Hw as ([[h form] d] & Ho & [_ [= <-]]%guard_Some). by eapply ainv_lend.
  - apply bind_Some in He as (a1 & He & [= _ <-]).
    apply exclusive_write_inv in He as (h & c & t & w & _ & _ & Hc & Hr & Hp & ->). by eapply ainv_put.
  - apply bind_Some in He as (a1 & He & [= _ <-]).
    apply get_mut_inv in He as (_ & t & w & Hc & Hr & Hp & ->). by eapply ainv_put.
  - apply bind_Some in He as ([v a1] & He & [= _ <-]). by eapply ainv_into_inner.
  - apply bind_Some in He as (v & _ & [= _ <-]). done.
Qed.
End effects.

Lemma ainv_initial : ainv initial_machine.
Proof. split; [apply inv_initial|done|done]. Qed.

Lemma arun_inv ops a rs a' :
  ainv a -> forallb asafe ops = true -> arun ops a = Some (rs, a') -> ainv a'.
Proof.
  revert a rs. induction ops as [|o ops IH]; intros a rs Ha Hs Hr; [by injection Hr as _ <-|].
  apply andb_true_iff in Hs as [Ho Hs].
  apply bind_Some in Hr as ([r a1] & He & ([rs1 a2] & Hr & [= _ <-])%bind_Some).
  eapply IH; [|done|exact Hr]. by eapply ainv_aexec.
Qed.

(** The states of safe programs. *)
Definition areachable (a : amachine) : Prop :=
  exists ops rs, forallb asafe ops = true /\ arun ops initial_machine = Some (rs, a).

Lemma areachable_inv a : areachable a -> ainv a.
Proof. intros (ops & rs & Hs & Hr). eapply arun_inv; [apply ainv_initial|done..]. Qed.

(** ** Lemmas: the phases of the brand *)

Lemma phase_of_ext b w w' :
  tokens w' = tokens w -> holders w' = holders w -> phase_of b w' = phase_of b w.
Proof.
  intros Ht Hh. unfold phase_of, brand_holders, of_brand. by rewrite Ht, Hh.
Qed.

Lemma put_value_phase b c v w w' : put_value c v w = Some w' -> phase_of b w' = phase_of b w.
Proof. intros (d & _ & [= <-])%bind_Some. by apply phase_of_ext. Qed.

(** The atomics make the moves of the lock only: what the permits they take are
    borrowed for is what the token machine says. *)
#[export] Instance atomic_phases : BrandPhases astep ainv (fun b a => phase_of b (machine a)).
Proof.
  split; [intros a a' Ha (o & r & Hs & He); by eapply ainv_aexec|].
  intros b a a' Ha (o & r & Hs & He). pose proof (ainv_machine a Ha) as Hm.
  destruct o; cbn [aexec asafe] in *; unfold silent in *.
  - apply bind_Some in He as (a1 & [_ (w & Hw & [= <-])%bind_Some]%guard_Some & [= _ <-]).
    by eapply exec_phase_step.
  - apply bind_Some in He as (a1 & [_ (w & Hw & [= <-])%bind_Some]%guard_Some & [= _ <-]).
    by apply (exec_phase_step b (NewCell th brand [atomic_payload] [new v])).
  - apply bind_Some in He as ([[h form] d] & Ho & ([r1 a1] & Hr & [= _ <-])%bind_Some).
    pose proof (ainv_run_call a Ha c m r1 a1 Hr) as Ha1.
    apply run_call_inv in Hr as (t & d' & v & v' & w & _ & _ & _ & _ & _ & _ & _ & Hp & ->); [|done].
    rewrite <- (put_value_phase b c v' (machine a) w Hp).
    destruct form; [constructor| |constructor].
    apply (exec_phase_step b (EndBorrow i)); [by apply (ainv_machine _ Ha1)|done|]. cbn. unfold end_borrow.
    destruct (opens_inv _ _ _ _ _ _ Hm Ho) as (Hi & _).
    assert (holders w !! i = Some h) as Hi'; [|by rewrite Hi'].
    by apply bind_Some in Hp as (? & _ & [= <-]).
  - apply bind_Some in He as (a1 & (t & Hc & (w & Hw & [= <-])%bind_Some)%bind_Some & [= _ <-]).
    by apply (exec_phase_step b (CellBorrow i c)).
  - apply bind_Some in He as (h & Hh & He). destruct (h_hold h) as [|c lo hi []]; [done..|].
    apply run_call_inv in He as (t & d' & v & v' & w & _ & _ & _ & _ & _ & _ & _ & Hp & ->); [|done].
    cbn. rewrite (put_value_phase b _ _ _ _ Hp). constructor.
  - apply bind_Some in He as (a1 & (t & Hc & (w & Hw & [= <-])%bind_Some)%bind_Some & [= _ <-]).
    by apply (exec_phase_step b (CellBorrowMut i c)).
  - apply bind_Some in He as (a1 & He & [= _ <-]).
    apply exclusive_write_inv in He as (h & c & t & w & _ & _ & _ & _ & Hp & ->); [|done].
    cbn. rewrite (put_value_phase b _ _ _ _ Hp). constructor.
  - apply bind_Some in He as (a1 & He & [= _ <-]).
    apply get_mut_inv in He as (_ & t & w & _ & _ & Hp & ->); [|done].
    cbn. rewrite (put_value_phase b _ _ _ _ Hp). constructor.
  - apply bind_Some in He as ([v a1] & (t & _ & (v0 & _ & (w & Hw & [= _ <-])%bind_Some)%bind_Some)%bind_Some & [= _ <-]).
    by apply (exec_phase_step b (CellIntoInner th c)).
  - apply bind_Some in He as (v & _ & [= _ <-]). constructor.
Qed.

Lemma arun_steps ops a rs a' :
  forallb asafe ops = true -> arun ops a = Some (rs, a') -> rtc astep a a'.
Proof.
  revert a rs. induction ops as [|o ops IH]; intros a rs Hs Hr; [injection Hr as _ <-; apply rtc_refl|].
  apply andb_true_iff in Hs as [Ho Hs].
  apply bind_Some in Hr as ([r a1] & He & ([rs1 a2] & Hr & [= _ <-])%bind_Some).
  eapply rtc_l; [by exists o, r|by eapply IH].
Qed.

(** ** Lemmas: accesses *)

(** A plain access, or one with an atomic operation; borrowing the atomic for
    one counts as one. *)
Inductive kind : Type := Plain | Atomically.

Definition guarded_cell (g : positive) (a : amachine) : option positive :=
  h ← holders (machine a) !! g;
  match h_hold h with Guard c _ _ _ => Some c | Permit _ => None end.

(** How the operation accesses the atomic [c]. *)
Definition access_of (c : positive) (o : aop) (a : amachine) : option kind :=
  let at_ (c' : option positive) (k : kind) := if decide (c' = Some c) then Some k else None in
  match o with
  | ABase _ | ANew _ _ _ _ => None
  | ACall _ c' _ | AAsAtomic _ c' | ADebug _ c' => at_ (Some c') Atomically
  | ARefCall g _ => at_ (guarded_cell g a) Atomically
  | AExclusive _ c' | AGetMut _ c' _ | AIntoInner _ c' => at_ (Some c') Plain
  | AWrite g _ => at_ (guarded_cell g a) Plain
  end.

Section overlap.
Context (a : amachine) (Ha : ainv a) (g c : positive) (h : holder) (lo hi : Z) (writes : bool).
Context (Hg : holders (machine a) !! g = Some h) (Eh : h_hold h = Guard c lo hi writes).
Context (Hc : is_Some (types a !! c)).

(** A permit that opens the atomic borrows the token of the guard. *)
Lemma opens_same_token i h' form d :
  opens i c (machine a) = Some (h', form, d) ->
  holders (machine a) !! i = Some h' /\ h_hold h' = Permit form /\ h_token h = h_token h' /\ g <> i.
Proof using Ha Hg Eh.
  intros Ho. pose proof (ainv_machine a Ha) as Hm.
  destruct (opens_inv _ _ _ _ _ _ Hm Ho) as (Hi & Hf & Hd & k & Hk & Hb & _).
  do 2 (split; [done|]). split; [|intros ->; congruence].
  destruct (inv_holders _ Hm g h Hg) as [_ (k' & Hk' & Hh)]. rewrite Eh in Hh.
  destruct Hh as (_ & d' & Hd' & Hb' & _).
  apply (inv_unique _ Hm _ _ k' k Hk' Hk). congruence.
Qed.

(** No permit opens an atomic that is accessed plainly, nor a write permit one
    that is accessed at all. *)
Lemma opens_excluded i h' form d :
  opens i c (machine a) = Some (h', form, d) -> writes = true \/ form = ByMut -> False.
Proof using Ha Hg Eh.
  intros (Hi & Hf & Ht & Hne)%opens_same_token [-> | ->]; pose proof (ainv_machine a Ha) as Hm.
  - destruct (writer_excludes _ g i h h' c lo hi Hm Hne Hg Hi Eh Ht) as (? & ? & ? & E & _). congruence.
  - by apply (permit_mut_alone _ i h' g h Hm Hi Hf (not_eq_sym Hne) Hg).
Qed.

(** Of two guards on an atomic neither writes. *)
Lemma guards_excluded g' h' lo' hi' writes' :
  holders (machine a) !! g' = Some h' -> h_hold h' = Guard c lo' hi' writes' ->
  g' <> g -> writes = true \/ writes' = true -> False.
Proof using Ha Hg Eh Hc.
  intros Hg' Eh' Hne Hw. pose proof (ainv_machine a Ha) as Hm.
  destruct (ainv_guards a Ha g h c lo hi writes Hg Eh Hc) as [-> ->].
  destruct (ainv_guards a Ha g' h' c lo' hi' writes' Hg' Eh' Hc) as [-> ->].
  pose proof (same_cell_same_token _ g g' h h' c _ _ _ _ _ _ Hm Hg Hg' Eh Eh') as Ht.
  destruct Hw as [-> | ->].
  - destruct (writer_excludes _ g g' h h' c 0 1 Hm (not_eq_sym Hne) Hg Hg' Eh Ht)
      as (l & r & wr & E & [?|?]); rewrite Eh' in E; injection E; lia.
  - destruct (writer_excludes _ g' g h' h c 0 1 Hm Hne Hg' Hg Eh' (eq_sym Ht))
      as (l & r & wr & E & [?|?]); rewrite Eh in E; injection E; lia.
Qed.

Lemma unguarded_excluded : unguarded c (machine a) -> False.
Proof using Hg Eh. intros Hu. specialize (Hu g h Hg). cbn in Hu. by rewrite Eh in Hu. Qed.
End overlap.

Lemma guarded_cell_Some g a c :
  guarded_cell g a = Some c ->
  exists h lo hi writes, holders (machine a) !! g = Some h /\ h_hold h = Guard c lo hi writes.
Proof.
  intros (h & Hh & E)%bind_Some. destruct (h_hold h) as [|c' lo hi wr] eqn:Eh; [done|].
  injection E as ->. by eexists h, lo, hi, wr.
Qed.

(** ** Lemmas: the register *)

(** What one access does to the value. *)
Inductive event : Type :=
| Operation (m : method)
| PlainWrite (x : Z).

Definition register_step (t : int_type) (e : event) : M Z reply :=
  match e with Operation m => call t m | PlainWrite x => fun _ => (Ret Done, x) end.

Fixpoint register_run (t : int_type) (es : list event) (v : Z) : list (outcome reply) * Z :=
  match es with
  | [] => ([], v)
  | e :: es =>
      let '(r, v) := register_step t e v in
      let '(rs, v) := register_run t es v in (r :: rs, v)
  end.

(** The access of the value of [c] that the operation makes. *)
Definition event_of (c : positive) (o : aop) (a : amachine) : option event :=
  let at_ (c' : option positive) (e : event) := if decide (c' = Some c) then Some e else None in
  match o with
  | ACall _ c' m => at_ (Some c') (Operation m)
  | ARefCall g m => at_ (guarded_cell g a) (Operation m)
  | AWrite g x => at_ (guarded_cell g a) (PlainWrite x)
  | AGetMut _ c' x => at_ (Some c') (PlainWrite x)
  | ADebug _ c' => at_ (Some c') (Operation (Load Ordering.Relaxed))
  | _ => None
  end.

(** The accesses of [c] in a program, with what they returned. *)
Fixpoint history (c : positive) (ops : list aop) (a : amachine) : list (event * outcome reply) :=
  match ops with
  | [] => []
  | o :: ops =>
      match aexec o a with
      | None => []
      | Some (r, a') =>
          match event_of c o a with
          | Some e => (e, r) :: history c ops a'
          | None => history c ops a'
          end
      end
  end.

Section register.
Context (a : amachine) (Ha : ainv a) (c : positive) (t : int_type) (v : Z).
Context (Hc : types a !! c = Some t) (Hv : value_of c (machine a) = Some v).

(** A call on [c'] is one step of the register [c] when [c'] is [c], and no
    step of it otherwise. *)
Lemma call_effect c' m r a' :
  run_call c' m a = Some (r, a') ->
  if decide (Some c' = Some c)
  then exists v', call t m v = (r, v') /\ value_of c (machine a') = Some v'
  else value_of c (machine a') = Some v.
Proof using Ha Hc Hv.
  intros (t' & d & v0 & v' & w & Hc' & _ & Hd & Hv0 & He & _ & _ & Hp & ->)%run_call_inv; [|done].
  destruct (decide _) as [[= ->]|Hne].
  - exists v'. assert (t' = t) as -> by congruence.
    assert (v0 = v) as ->.
    { unfold value_of in Hv. rewrite Hd in Hv. cbn in Hv. rewrite Hv0 in Hv. by injection Hv. }
    split; [done|]. by eapply put_value_is.
  - cbn. rewrite <- Hv. refine (put_value_other a _ _ _ _ _ Hp); by intros ->.
Qed.

Lemma write_effect c' x w :
  put_value c' x (machine a) = Some w ->
  if decide (Some c' = Some c) then value_of c w = Some x else value_of c w = Some v.
Proof using Hc Hv.
  intros Hp. destruct (decide _) as [[= ->]|Hne].
  - by eapply put_value_is.
  - rewrite <- Hv. refine (put_value_other a _ _ _ _ _ Hp); by intros ->.
Qed.

(** An operation that makes no access leaves the value. *)
Lemma same_cells_value w : cells w = cells (machine a) -> value_of c w = Some v.
Proof using Hv. intros E. rewrite <- Hv. unfold value_of. by rewrite E. Qed.

Lemma lend_value i form g0 : value_of c (lend i form g0 (machine a)) = Some v.
Proof using Hv. apply same_cells_value. by destruct form. Qed.

Lemma machine_op_value o a' :
  machine_op o a = Some a' -> types a' !! c = Some t -> value_of c (machine a') = Some v.
Proof using Ha Hc Hv.
  intros [Hr (w & He & [= <-])%bind_Some]%guard_Some [_ [d' Hd']]%map_lookup_filter_Some.
  unfold value_of in *. cbn. apply bind_Some in Hv as (d & Hd & Hh).
  destruct (exec_spares_cell o _ w c d (ainv_machine a Ha) He) as [?|(d1 & Hd1 & _ & E)];
    [|done|congruence|].
  - intros E. rewrite E in Hr. cbn in Hr. congruence.
  - rewrite Hd1. cbn. by rewrite E.
Qed.

(** One operation is at most one step of the register. *)
Lemma aexec_register o r a' :
  aexec o a = Some (r, a') -> types a' !! c = Some t ->
  match event_of c o a with
  | Some e => exists v', register_step t e v = (r, v') /\ value_of c (machine a') = Some v'
  | None => value_of c (machine a') = Some v
  end.
Proof using Ha Hc Hv.
  intros He Hc'. destruct o; cbn [aexec event_of] in *; unfold silent in *.
  - apply bind_Some in He as (a1 & He & [= _ <-]). by eapply machine_op_value.
  - apply bind_Some in He as (a1 & [_ (w & Hw & [= <-])%bind_Some]%guard_Some & [= _ <-]).
    apply guard_Some in Hw as [_ [_ [= <-]]%guard_Some]. rewrite <- Hv. unfold value_of. cbn.
    destruct (atomic_cell a Ha c t Hc) as (d & _ & Hd & _).
    rewrite lookup_insert_ne; [done|]. intros E. by apply (cell_old _ _ _ (ainv_machine a Ha) Hd).
  - apply bind_Some in He as ([[h form] d] & Ho & ([r1 a1] & Hr & [= <- <-])%bind_Some).
    pose proof (call_effect _ _ _ _ Hr) as Hef. destruct (decide _); by destruct form.
  - apply bind_Some in He as (a1 & (t' & _ & (w & Hw & [= <-])%bind_Some)%bind_Some & [= _ <-]).
    apply bind_Some in Hw as ([[h form] d] & Ho & [= <-]). apply lend_value.
  - apply bind_Some in He as (h & Hh & He). unfold guarded_cell. rewrite Hh. cbn.
    destruct (h_hold h) as [|c' lo hi []]; [done..|].
    pose proof (call_effect _ _ _ _ He) as Hef. by destruct (decide _).
  - apply bind_Some in He as (a1 & (t' & _ & (w & Hw & [= <-])%bind_Some)%bind_Some & [= _ <-]).
    apply bind_Some in Hw as ([[h form] d] & Ho & [_ [= <-]]%guard_Some). apply lend_value.
  - apply bind_Some in He as (a1 & He & [= <- <-]).
    apply exclusive_write_inv in He as (h & c' & t' & w & Hh & Eh & _ & _ & Hp & ->); [|done].
    unfold guarded_cell. rewrite Hh. cbn. rewrite Eh.
    pose proof (write_effect _ _ _ Hp) as Hef. destruct (decide _); [by eexists|done].
  - apply bind_Some in He as (a1 & He & [= <- <-]).
    apply get_mut_inv in He as (_ & t' & w & _ & _ & Hp & ->); [|done].
    pose proof (write_effect _ _ _ Hp) as Hef. destruct (decide _); [by eexists|done].
  - apply bind_Some in He as ([v1 a1] & (t' & _ & (v0 & _ & (w & Hw & [= _ <-])%bind_Some)%bind_Some)%bind_Some & [= _ <-]).
    cbn in Hc'. apply lookup_delete_Some in Hc' as [Hne _].
    apply bind_Some in Hw as (d & _ & [_ [_ [= <-]]%guard_Some]%guard_Some).
    rewrite <- Hv. unfold value_of. cbn. by rewrite lookup_delete_ne.
  - apply bind_Some in He as (v0 & (t' & _ & (d & _ & [_ Hv0]%guard_Some)%bind_Some)%bind_Some & [= <- <-]).
    destruct (decide _) as [[= ->]|]; [|done]. exists v. split; [|done].
    rewrite Hv in Hv0. by injection Hv0 as <-.
Qed.
End register.

(** An atomic that is there at the end of a program was there all along, with
    the same type. *)
Lemma types_monotone o r a a' c t :
  ainv a -> aexec o a = Some (r, a') -> (c < next (machine a))%positive ->
  types a' !! c = Some t -> types a !! c = Some t.
Proof.
  intros Ha He Hlt Hc. destruct o; cbn [aexec] in *; unfold silent in *.
  - apply bind_Some in He as (a1 & [_ (w & He & [= <-])%bind_Some]%guard_Some & [= _ <-]).
    by apply map_lookup_filter_Some in Hc as [Hc _].
  - apply bind_Some in He as (a1 & [_ (w & Hw & [= <-])%bind_Some]%guard_Some & [= _ <-]).
    cbn in Hc. by rewrite lookup_insert_ne in Hc by lia.
  - apply bind_Some in He as ([[h form] d] & Ho & ([r1 a1] & Hr & [= _ <-])%bind_Some).
    apply run_call_inv in Hr as (t' & d' & v & v' & w & _ & _ & _ & _ & _ & _ & _ & _ & ->); [|done].
    by destruct form.
  - by apply bind_Some in He as (a1 & (t' & _ & (w & Hw & [= <-])%bind_Some)%bind_Some & [= _ <-]).
  - apply bind_Some in He as (h & Hh & He). destruct (h_hold h) as [|c' lo hi []]; [done..|].
    by apply run_call_inv in He as (t' & d' & v & v' & w & _ & _ & _ & _ & _ & _ & _ & _ & ->).
  - by apply bind_Some in He as (a1 & (t' & _ & (w & Hw & [= <-])%bind_Some)%bind_Some & [= _ <-]).
  - apply bind_Some in He as (a1 & He & [= _ <-]).
    by apply exclusive_write_inv in He as (h & c' & t' & w & _ & _ & _ & _ & _ & ->).
  - apply bind_Some in He as (a1 & He & [= _ <-]).
    by apply get_mut_inv in He as (_ & t' & w & _ & _ & _ & ->).
  - apply bind_Some in He as ([v1 a1] & (t' & _ & (v0 & _ & (w & Hw & [= _ <-])%bind_Some)%bind_Some)%bind_Some & [= _ <-]).
    cbn in Hc. by apply lookup_delete_Some in Hc as [_ Hc].
  - by apply bind_Some in He as (v0 & _ & [= _ <-]).
Qed.

(** Values are created under fresh names. *)
Lemma aexec_next o r a a' :
  ainv a -> aexec o a = Some (r, a') -> (next (machine a) <= next (machine a'))%positive.
Proof.
  intros Ha He. assert (forall c v w, put_value c v (machine a) = Some w -> next w = next (machine a)) as Hput.
  { by intros c v w (d & _ & [= <-])%bind_Some. }
  destruct o; cbn [aexec] in *; unfold silent in *.
  - apply bind_Some in He as (a1 & [_ (w & He & [= <-])%bind_Some]%guard_Some & [= _ <-]).
    by apply (exec_next o).
  - apply bind_Some in He as (a1 & [_ (w & Hw & [= <-])%bind_Some]%guard_Some & [= _ <-]).
    by apply (exec_next (NewCell th brand [atomic_payload] [new v])).
  - apply bind_Some in He as ([[h form] d] & Ho & ([r1 a1] & Hr & [= _ <-])%bind_Some).
    apply run_call_inv in Hr as (t & d' & v & v' & w & _ & _ & _ & _ & _ & _ & _ & Hp & ->); [|done].
    apply Hput in Hp. destruct form; cbn; lia.
  - apply bind_Some in He as (a1 & (t & Hc & (w & Hw & [= <-])%bind_Some)%bind_Some & [= _ <-]).
    by apply (exec_next (CellBorrow i c)).
  - apply bind_Some in He as (h & Hh & He). destruct (h_hold h) as [|c lo hi []]; [done..|].
    apply run_call_inv in He as (t & d' & v & v' & w & _ & _ & _ & _ & _ & _ & _ & Hp & ->); [|done].
    apply Hput in Hp. cbn. lia.
  - apply bind_Some in He as (a1 & (t & Hc & (w & Hw & [= <-])%bind_Some)%bind_Some & [= _ <-]).
    by apply (exec_next (CellBorrowMut i c)).
  - apply bind_Some in He as (a1 & He & [= _ <-]).
    apply exclusive_write_inv in He as (h & c & t & w & _ & _ & _ & _ & Hp & ->); [|done].
    apply Hput in Hp. cbn. lia.
  - apply bind_Some in He as (a1 & He & [= _ <-]).
    apply get_mut_inv in He as (_ & t & w & _ & _ & Hp & ->); [|done]. apply Hput in Hp. cbn. lia.
  - apply bind_Some in He as ([v a1] & (t & _ & (v0 & _ & (w & Hw & [= _ <-])%bind_Some)%bind_Some)%bind_Some & [= _ <-]).
    by apply (exec_next (CellIntoInner th c)).
  - apply bind_Some in He as (v & _ & [= _ <-]). lia.
Qed.

Lemma arun_types ops a rs a' c t :
  ainv a -> forallb asafe ops = true -> arun ops a = Some (rs, a') ->
  (c < next (machine a))%positive -> types a' !! c = Some t -> types a !! c = Some t.
Proof.
  revert a rs. induction ops as [|o ops IH]; intros a rs Ha Hs Hr Hlt Hc; [by injection Hr as _ ->|].
  apply andb_true_iff in Hs as [Ho Hs].
  apply bind_Some in Hr as ([r a1] & He & ([rs1 a2] & Hr & [= _ <-])%bind_Some).
  eapply types_monotone; [done|exact He|done|]. eapply IH; [by eapply ainv_aexec|done|exact Hr| |done].
  pose proof (aexec_next o r a a1 Ha He). lia.
Qed.

(** A program is a run of the register. *)
Lemma arun_register ops a rs a' c t v :
  ainv a -> forallb asafe ops = true -> arun ops a = Some (rs, a') ->
  (c < next (machine a))%positive -> types a' !! c = Some t -> value_of c (machine a) = Some v ->
  exists v', value_of c (machine a') = Some v' /\
    register_run t (fst <$> history c ops a) v = (snd <$> history c ops a, v').
Proof.
  revert a rs v. induction ops as [|o ops IH]; intros a rs v Ha Hs Hr Hlt Hc Hv.
  { injection Hr as _ ->. by exists v. }
  pose proof (arun_types _ _ _ _ c t Ha Hs Hr Hlt Hc) as Hct.
  apply andb_true_iff in Hs as [Ho Hs].
  apply bind_Some in Hr as ([r a1] & He & ([rs1 a2] & Hr & [= _ <-])%bind_Some).
  pose proof (ainv_aexec a Ha o r a1 Ho He) as Ha1. pose proof (aexec_next o r a a1 Ha He) as Hn.
  assert (types a1 !! c = Some t) as Hc1 by (eapply (arun_types ops); [done..|lia|done]).
  pose proof (aexec_register a Ha c t v Hct Hv o r a1 He Hc1) as Hstep.
  cbn [history]. rewrite He. destruct (event_of c o a) as [e|].
  - destruct Hstep as (v1 & Hstep & Hv1).
    destruct (IH a1 rs1 v1 Ha1 Hs Hr ltac:(lia) Hc Hv1) as (v' & Hv' & Hrun). exists v'. split; [done|].
    cbn. by rewrite Hstep, Hrun.
  - destruct (IH a1 rs1 v Ha1 Hs Hr ltac:(lia) Hc Hstep) as (v' & Hv' & Hrun). by exists v'.
Qed.

(** Of additions only, with whatever orderings. *)
Definition additions (l : list (Z * Ordering)) : list event :=
  map (fun '(x, o) => Operation (FetchAdd x o)) l.

Lemma register_run_adds t l v :
  int_type_ok t -> in_range t v ->
  register_run t (additions l) v
  = (map (fun x => Ret (Value x)) (tickets t v (map fst l)), wrap t (v + Atomic.sum_list (map fst l))).
Proof.
  intros Ht. revert v. induction l as [|[x o] l IH]; intros v Hv; cbn.
  - by rewrite Z.add_0_r, wrap_id.
  - unfold mbind, M_bind, mret, M_ret. cbn. fold (additions l).
    rewrite (IH (wrap t (v + x))) by (by apply wrap_range). by rewrite wrap_add_l, Z.add_assoc.
Qed.

(** ** Properties *)

(** C8: The two phases never meet: while a plain access to a branded atomic runs
    ([with_exclusive]), the only operations of a safe program, on any thread,
    that access the atomic are the writes of that access and [Debug]; and while
    a reference from [as_atomic] is live every access is an atomic operation. *)
Theorem phases_never_overlap (a : amachine) (g c : positive) (h : holder) (lo hi : Z)
    (writes : bool) (o : aop) (r : outcome reply) (a' : amachine) (k : kind) :
  areachable a -> holders (machine a) !! g = Some h -> h_hold h = Guard c lo hi writes ->
  is_Some (types a !! c) -> aexec o a = Some (r, a') -> access_of c o a = Some k ->
  if writes then (exists x, o = AWrite g x) \/ (exists th, o = ADebug th c) else k = Atomically.
Proof.
  intros Ha%areachable_inv Hg Eh Hc He Hk.
  pose proof (opens_excluded a Ha g c h lo hi writes Hg Eh) as Hopen.
  pose proof (guards_excluded a Ha g c h lo hi writes Hg Eh Hc) as Hguard.
  pose proof (unguarded_excluded a g c h lo hi writes Hg Eh) as Hun.
  destruct o; cbn [aexec access_of] in *; unfold silent in *; try done;
    destruct (decide _) as [E|]; try done; injection Hk as <-.
  - injection E as ->. destruct writes; [|done]. exfalso.
    apply bind_Some in He as ([[h1 form] d] & Ho & _). eapply Hopen; [exact Ho|by left].
  - injection E as ->. destruct writes; [|done]. exfalso.
    apply bind_Some in He as (a1 & (t & _ & (w & Hw & _)%bind_Some)%bind_Some & _).
    apply bind_Some in Hw as ([[h1 form] d] & Ho & _). eapply Hopen; [exact Ho|by left].
  - destruct writes; [|done]. exfalso.
    apply bind_Some in He as (h1 & Hh1 & He). unfold guarded_cell in E. rewrite Hh1 in E. cbn in E.
    destruct (h_hold h1) as [|c1 lo1 hi1 wr1] eqn:Eh1; [done|]. injection E as ->.
    destruct wr1; [done|]. eapply (Hguard g0); [done|done| |by left]. intros ->. congruence.
  - exfalso. injection E as ->.
    apply bind_Some in He as (a1 & (t & _ & (w & Hw & _)%bind_Some)%bind_Some & _).
    apply bind_Some in Hw as ([[h1 form] d] & Ho & [-> _]%guard_Some).
    eapply Hopen; [exact Ho|by right].
  - apply bind_Some in He as (a1 & He & _).
    apply exclusive_write_inv in He as (h1 & c1 & t & w & Hh1 & Eh1 & _); [|done].
    unfold guarded_cell in E. rewrite Hh1 in E. cbn in E. rewrite Eh1 in E. injection E as ->.
    destruct (decide (g0 = g)) as [->|Hne]; [|exfalso; eapply Hguard; [done|done|done|by right]].
    assert (h1 = h) as -> by congruence. destruct writes; [left; by eexists|congruence].
  - exfalso. injection E as ->. apply bind_Some in He as (a1 & He & _).
    apply get_mut_inv in He as (Hu & _); [|done]. by apply Hun.
  - exfalso. injection E as ->. apply bind_Some in He as ([v a1] & He & _).
    apply bind_Some in He as (t & _ & (v0 & _ & (w & Hw & _)%bind_Some)%bind_Some).
    apply bind_Some in Hw as (d & _ & [_ [Hu _]%guard_Some]%guard_Some). by apply Hun.
  - injection E as ->. destruct writes; [right; by eexists|done].
Qed.

Definition u8 : int_type := mkInt false 8.

(** An atomic [u8] that thread 1 has open for plain access. *)
Definition exclusive_program : list aop :=
  [ABase (WithFreshToken ExclusiveFamily 1); ANew 1 1 u8 250; ABase (BorrowTokenMut 1 1);
   AExclusive 3 2].

Definition arun_from_start (ops : list aop) : amachine :=
  match arun ops initial_machine with Some (_, a) => a | None => initial_machine end.

Lemma phases_never_overlap_witness :
  exists a r a', arun exclusive_program initial_machine = Some (replicate 4 (Ret Done), a) /\
    aexec (AWrite 3 7) a = Some (r, a') /\ value_of 2 (machine a') = Some 7 /\
    ((exists x, AWrite 3 7 = AWrite 3 x) \/ exists th, AWrite 3 7 = ADebug th 2).
Proof.
  exists (arun_from_start exclusive_program). eexists _, _.
  split; [vm_compute; reflexivity|]. split; [vm_compute; reflexivity|]. split; [vm_compute; reflexivity|].
  refine (phases_never_overlap (arun_from_start exclusive_program) 3 2 (mkHolder 1 true 1 (Guard 2 0 1 true))
    0 1 true (AWrite 3 7) _ _ Plain _ eq_refl eq_refl _ _ eq_refl).
  - exists exclusive_program, (replicate 4 (Ret Done)). split; vm_compute; reflexivity.
  - exists u8. reflexivity.
  - vm_compute. reflexivity.
Defined.

(** C13: A branded atomic refines a sequential register: in every program, however
    the operations of its threads on any tokens, cells and atomics interleave,
    the values a branded atomic goes through and the answers its operations give
    are those of a register of its type on which the plain writes and the atomic
    operations of the program are performed one after the other; the value stays
    in the range of the type, and every brand goes through the phases of its
    lock. *)
Theorem branded_atomic_refines_register (ops : list aop) (a a' : amachine)
    (rs : list (outcome reply)) (c : positive) (t : int_type) (v : Z) :
  areachable a -> forallb asafe ops = true -> arun ops a = Some (rs, a') ->
  value_of c (machine a) = Some v -> types a' !! c = Some t ->
  (exists v', value_of c (machine a') = Some v' /\ in_range t v' /\
     register_run t (fst <$> history c ops a) v = (snd <$> history c ops a, v')) /\
  (forall b, phase_of b (machine a) <> Free -> phase_of b (machine a') <> Free ->
     phase_of b (machine a) <> phase_of b (machine a') ->
     exists a1, rtc astep a a1 /\ rtc astep a1 a' /\ phase_of b (machine a1) = Free).
Proof.
  intros Ha%areachable_inv Hs Hr Hv Hc. split.
  - assert (c < next (machine a))%positive as Hlt.
    { apply bind_Some in Hv as (d & Hd & _). by apply (inv_cells _ (ainv_machine a Ha)) in Hd as [? _]. }
    destruct (arun_register ops a rs a' c t v Ha Hs Hr Hlt Hc Hv) as (v' & Hv' & Hrun).
    exists v'. split; [done|]. split; [|done]. pose proof (arun_inv ops a rs a' Ha Hs Hr) as Ha'.
    destruct (atomic_cell a' Ha' c t Hc) as (d & v1 & _ & _ & _ & Hr1 & Hv1).
    by assert (v1 = v') as <- by congruence.
  - intros b. apply (free_between astep ainv (fun b a => phase_of b (machine a))); [done|].
    by eapply arun_steps.
Qed.

(** A plain store, then two threads that share the brand and interleave on the
    atomic, one by calls and one through [as_atomic]. *)
Definition shared_program : list aop :=
  [ABase (WithFreshToken ExclusiveFamily 1); ANew 1 1 u8 0; ABase (BorrowTokenMut 1 1);
   AExclusive 3 2; AWrite 3 250; ABase (EndBorrow 3);
   ABase (Share 1 1); ABase (CopyPermit 4); ABase (SendHolder 5 2)].
Definition shared_calls : list aop :=
  [ACall 4 2 (FetchAdd 4 Ordering.Relaxed); AAsAtomic 5 2; ACall 4 2 (Load Ordering.Release);
   ARefCall 6 (FetchAdd 5 Ordering.AcqRel); ACall 4 2 (CompareExchange 3 9 Ordering.SeqCst Ordering.Relaxed)].

Lemma branded_atomic_refines_register_witness :
  exists rs a', arun shared_calls (arun_from_start shared_program) = Some (rs, a') /\
    value_of 2 (machine a') = Some 9 /\
    register_run u8 [Operation (FetchAdd 4 Ordering.Relaxed); Operation (Load Ordering.Release);
        Operation (FetchAdd 5 Ordering.AcqRel);
        Operation (CompareExchange 3 9 Ordering.SeqCst Ordering.Relaxed)] 250
      = ([Ret (Value 250); Panic OrderingPanic; Ret (Value 254); Ret (Exchanged (inl 3))], 9).
Proof.
  eexists _, (arun_from_start (shared_program ++ shared_calls)).
  split; [vm_compute; reflexivity|].
  destruct (branded_atomic_refines_register shared_calls (arun_from_start shared_program)
    (arun_from_start (shared_program ++ shared_calls))
    [Ret (Value 250); Ret Done; Panic OrderingPanic; Ret (Value 254); Ret (Exchanged (inl 3))]
    2 u8 250) as [(v' & Hv' & _ & Hrun) _].
  - exists shared_program, (replicate 9 (Ret Done)). split; vm_compute; reflexivity.
  - reflexivity.
  - vm_compute. reflexivity.
  - vm_compute. reflexivity.
  - vm_compute. reflexivity.
  - assert (v' = 9) as -> by (vm_compute in Hv'; congruence). split; [done|].
    vm_compute in Hrun |- *. exact Hrun.
Defined.

(** A shared counter counts: in a program that accesses the atomic by
    [fetch_add]s only, from any number of threads, by method calls or through
    [as_atomic], with any orderings and interleaved with any other operations,
    the final value is the wrapped sum; the values returned are the partial
    sums. *)
Theorem shared_counter_exact (ops : list aop) (a a' : amachine) (rs : list (outcome reply))
    (c : positive) (t : int_type) (v : Z) (l : list (Z * Ordering)) :
  areachable a -> forallb asafe ops = true -> arun ops a = Some (rs, a') ->
  value_of c (machine a) = Some v -> types a' !! c = Some t ->
  fst <$> history c ops a = additions l ->
  value_of c (machine a') = Some (wrap t (v + Atomic.sum_list (map fst l))) /\
  snd <$> history c ops a = map (fun x => Ret (Value x)) (tickets t v (map fst l)).
Proof.
  intros Ha%areachable_inv Hs Hr Hv Hc Hh.
  assert (c < next (machine a))%positive as Hlt.
  { apply bind_Some in Hv as (d & Hd & _). by apply (inv_cells _ (ainv_machine a Ha)) in Hd as [? _]. }
  pose proof (arun_types ops a rs a' c t Ha Hs Hr Hlt Hc) as Hc0.
  destruct (atomic_cell a Ha c t Hc0) as (d & v0 & _ & _ & _ & Hr0 & Hv0).
  assert (v0 = v) as -> by congruence. destruct (ainv_atomics a Ha c t Hc0) as [Ht _].
  destruct (arun_register ops a rs a' c t v Ha Hs Hr Hlt Hc Hv) as (v' & Hv' & Hrun).
  rewrite Hh, register_run_adds in Hrun by done. injection Hrun as Hsnd <-. by split.
Qed.

Lemma shared_counter_exact_witness :
  value_of 2 (machine (arun_from_start (shared_program ++ [ACall 4 2 (FetchAdd 4 Ordering.Relaxed);
    AAsAtomic 5 2; ARefCall 6 (FetchAdd 5 Ordering.AcqRel)]))) = Some 3.
Proof.
  refine (proj1 (shared_counter_exact [ACall 4 2 (FetchAdd 4 Ordering.Relaxed); AAsAtomic 5 2;
    ARefCall 6 (FetchAdd 5 Ordering.AcqRel)] (arun_from_start shared_program) _ _ 2 u8 250
    [(4, Ordering.Relaxed); (5, Ordering.AcqRel)] _ eq_refl _ eq_refl _ _)).
  - exists shared_program, (replicate 9 (Ret Done)). split; vm_compute; reflexivity.
  - vm_compute. reflexivity.
  - vm_compute. reflexivity.
  - vm_compute. reflexivity.
Defined.

(** [Debug] breaks the discipline: while thread 1 has the atomic open for a plain
    write, thread 2 may format it, and that reads the value; both operations are
    enabled in one state, and neither thread needs [unsafe]. *)
Theorem debug_meets_exclusive_access :
  exists a h, areachable a /\ holders (machine a) !! 3%positive = Some h /\ h_thread h = 1%positive /\
    h_hold h = Guard 2 0 1 true /\
    (exists a', aexec (AWrite 3 7) a = Some (Ret Done, a')) /\
    aexec (ADebug 2 2) a = Some (Ret (Value 250), a) /\ access_of 2 (AWrite 3 7) a = Some Plain.
Proof.
  exists (arun_from_start exclusive_program). eexists. split.
  { exists exclusive_program, (replicate 4 (Ret Done)). split; vm_compute; reflexivity. }
  split; [vm_compute; reflexivity|]. do 2 (split; [reflexivity|]).
  split; [eexists; vm_compute; reflexivity|]. split; vm_compute; reflexivity.
Qed.
