(* ===== verification/AtomicUpdate.v ===== *)
(** * [fetch_update] among other threads' operations ([src/atomic/branded.rs])

    [AtomicPhases] performs every method of a branded atomic in one step, which
    is right for all but [fetch_update]: that one is a loop of a load and of weak
    compare-exchanges, and the operations of other threads come in between.  Here
    the loops run in the machine of [AtomicPhases], any number of them at once,
    one access at a time, each under the permit it was called with.

    Main results: the machine does nothing the machine of [AtomicPhases] cannot
    do, so its theorems stay true; each [fetch_update] takes effect in one of its
    steps, as if the closure had been applied to the value and the result stored
    at once; an attempt fails only spuriously or because another operation on the
    atomic took effect in the meantime, and a call that runs alone ends. *)
From S2P Require Import Prelude AutoTraits Token BrandLock Views Atomic AtomicPhases.
From stdpp Require Import base numbers list gmap relations.
Local Open Scope Z_scope.

#[export] Instance holder_eq_dec : EqDecision holder.
Proof. solve_decision. Defined.

Section updates.
(** The closures' own state. *)
Context {St : Type}.

(** Before the first load; after a read of [prev], of which the closure, called in
    the state [called], said [Some(next)]. *)
Inductive update_phase : Type :=
| Loading (st : St)
| Trying (prev next : Z) (called st : St).

(** A call of [fetch_update] on the atomic [u_cell]. *)
Record update : Type := mkUpdate {
  u_cell : positive;
  u_f : Z -> M St (option Z);
  u_set : Ordering;
  u_fetch : Ordering;
  u_phase : update_phase
}.

(** The running calls, by the borrow of the atomic that the call is. *)
Record umachine : Type := mkUM {
  atomics : amachine;
  running : gmap positive update
}.

Definition initial_umachine : umachine := mkUM initial_machine ∅.

(** What an operation answers: an access its reply, a call of [fetch_update] its
    result ([Ok] is [inl]) when it ends. *)
Inductive ureply : Type :=
| Access (r : outcome reply)
| Pending
| Updated (r : outcome (Z + Z)).

(** [atomic.fetch_update(permit, set_order, fetch_order, f)] is called: the permit
    is spent on a shared reference to [self.inner], as in [as_atomic]. *)
Definition update_begin (i c : positive) (f : Z -> M St (option Z)) (st : St)
    (set_order fetch_order : Ordering) (u : umachine) : option umachine :=
  '(_, form, _) ← opens i c (machine (atomics u));
  a ← as_atomic i c (atomics u);
  let g := match form with ByMut => i | ByRef | ByShared => next (machine (atomics u)) end in
  Some (mkUM a (<[g := mkUpdate c f set_order fetch_order (Loading st)]> (running u))).

(** The call ends, and its borrow with it. *)
Definition update_end (g : positive) (r : outcome (Z + Z)) (u : umachine)
    : option (ureply * umachine) :=
  '(_, a) ← aexec (ABase (EndBorrow g)) (atomics u);
  Some (Updated r, mkUM a (delete g (running u))).

(** The closure is asked about the value [now]. *)
Definition update_ask (g : positive) (up : update) (now : Z) (st : St) (u : umachine)
    : option (ureply * umachine) :=
  match u_f up now st with
  | (Ret (Some next), st') =>
      Some (Pending, mkUM (atomics u) (<[g := mkUpdate (u_cell up) (u_f up) (u_set up) (u_fetch up)
                                               (Trying now next st st')]> (running u)))
  | (Ret None, _) => update_end g (Ret (inr now)) u
  | (Panic p, _) => update_end g (Panic p) u
  | (UB, _) => update_end g UB u
  end.

(** One access of the call [g]: the load, or a weak compare-exchange, which may
    fail for no reason and then is a load with the failure ordering. *)
Definition update_step (g : positive) (spurious : bool) (u : umachine)
    : option (ureply * umachine) :=
  up ← running u !! g;
  let access := match u_phase up with
    | Loading _ => Load (u_fetch up)
    | Trying prev next _ _ =>
        if spurious then Load (u_fetch up)
        else CompareExchange prev next (u_set up) (u_fetch up)
    end in
  let st := match u_phase up with Loading st | Trying _ _ _ st => st end in
  '(r, a) ← aexec (ARefCall g access) (atomics u);
  let u := mkUM a (running u) in
  match r with
  | Ret (Exchanged (inl old)) => update_end g (Ret (inl old)) u
  | Ret (Exchanged (inr now)) | Ret (Value now) => update_ask g up now st u
  | Panic p => update_end g (Panic p) u
  | Ret Done | UB => None
  end.

(** Any other operation; the borrows of the running calls are in use. *)
Definition beside (o : aop) (u : umachine) : option (ureply * umachine) :=
  '(r, a) ← aexec o (atomics u);
  guard (map_Forall (fun g _ => holders (machine a) !! g = holders (machine (atomics u)) !! g)
           (running u));;
  Some (Access r, mkUM a (running u)).

Inductive uop : Type :=
| UOther (o : aop)
| UBegin (i c : positive) (f : Z -> M St (option Z)) (st : St) (set_order fetch_order : Ordering)
| UStep (g : positive) (spurious : bool).

(** [None]: the compiler rejects the operation, or the call is not running. *)
Definition uexec (o : uop) (u : umachine) : option (ureply * umachine) :=
  match o with
  | UOther o => beside o u
  | UBegin i c f st set_order fetch_order =>
      u ← update_begin i c f st set_order fetch_order u; Some (Pending, u)
  | UStep g spurious => update_step g spurious u
  end.

Definition usafe (o : uop) : bool := match o with UOther o => asafe o | _ => true end.

Fixpoint urun (ops : list uop) (u : umachine) : option (list ureply * umachine) :=
  match ops with
  | [] => Some ([], u)
  | o :: ops =>
      '(r, u) ← uexec o u;
      '(rs, u) ← urun ops u;
      Some (r :: rs, u)
  end.

(** ** The specification: a register with one-step updates *)

Inductive uevent : Type :=
| UAccess (e : event)
| UUpdate (f : Z -> M St (option Z)) (st : St).

Definition uregister_step (t : int_type) (e : uevent) (v : Z) : ureply * Z :=
  match e with
  | UAccess e => let '(r, v) := register_step t e v in (Access r, v)
  | UUpdate f st =>
      match fst (f v st) with
      | Ret (Some next) => (Updated (Ret (inl v)), next)
      | Ret None => (Updated (Ret (inr v)), v)
      | Panic p => (Updated (Panic p), v)
      | UB => (Updated UB, v)
      end
  end.

Fixpoint uregister_run (t : int_type) (es : list uevent) (v : Z) : list ureply * Z :=
  match es with
  | [] => ([], v)
  | e :: es =>
      let '(r, v) := uregister_step t e v in
      let '(rs, v) := uregister_run t es v in (r :: rs, v)
  end.

(** The event of [c] that a step which answered [r] is: an access of another
    operation, or the step with which a call ends, unless its ordering was
    rejected. *)
Definition uevent_of (c : positive) (o : uop) (r : ureply) (u : umachine) : option uevent :=
  match o, r with
  | UOther o, _ => UAccess <$> event_of c o (atomics u)
  | UStep g _, Updated r =>
      up ← running u !! g;
      guard (u_cell up = c /\ rejects_load (u_fetch up) = false);;
      Some (UUpdate (u_f up)
        match u_phase up, r with
        | Trying _ _ called _, Ret (inl _) => called
        | Loading st, _ | Trying _ _ _ st, _ => st
        end)
  | _, _ => None
  end.

Fixpoint uhistory (c : positive) (ops : list uop) (u : umachine) : list (uevent * ureply) :=
  match ops with
  | [] => []
  | o :: ops =>
      match uexec o u with
      | None => []
      | Some (r, u') =>
          match uevent_of c o r u with
          | Some e => (e, r) :: uhistory c ops u'
          | None => uhistory c ops u'
          end
      end
  end.

(** ** The invariant *)

(** A running call holds a reading borrow of its atomic, and what it is about to
    store is what its closure said of the value it read. *)
Definition update_ok (a : amachine) (g : positive) (up : update) : Prop :=
  (exists h lo hi, holders (machine a) !! g = Some h /\ h_hold h = Guard (u_cell up) lo hi false) /\
  is_Some (types a !! u_cell up) /\
  match u_phase up with
  | Loading _ => True
  | Trying prev next called st => u_f up prev called = (Ret (Some next), st)
  end.

Record uinv (u : umachine) : Prop := {
  uinv_atomics : ainv (atomics u);
  uinv_running : map_Forall (update_ok (atomics u)) (running u)
}.
End updates.
Arguments update_phase St : clear implicits.
Arguments update St : clear implicits.
Arguments umachine St : clear implicits.
Arguments uop St : clear implicits.
Arguments uevent St : clear implicits.

(** ** Lemmas: the atomics stay where running calls borrow them *)

(** What an operation leaves of the types. *)
Lemma aexec_types o r a a' :
  ainv a -> aexec o a = Some (r, a') ->
  types a' = types a \/
  (exists o', o = ABase o' /\ types a' = filter (fun '(c, _) => is_Some (cells (machine a') !! c)) (types a)) \/
  (exists th b t v, o = ANew th b t v /\ types a' = <[next (machine a) := t]> (types a)) \/
  (exists th c, o = AIntoInner th c /\ types a' = delete c (types a) /\ unguarded c (machine a) /\
     holders (machine a') = holders (machine a)).
Proof.
  intros Ha He. destruct o; cbn [aexec] in *; unfold silent in *.
  - apply bind_Some in He as (a1 & [_ (w & He & [= <-])%bind_Some]%guard_Some & [= _ <-]).
    right; left. by exists o.
  - apply bind_Some in He as (a1 & [_ (w & Hw & [= <-])%bind_Some]%guard_Some & [= _ <-]).
    right; right; left. by exists th, brand, t, v.
  - apply bind_Some in He as ([[h form] d] & Ho & ([r1 a1] & Hr & [= _ <-])%bind_Some). left.
    apply run_call_inv in Hr as (t' & d' & v & v' & w & _ & _ & _ & _ & _ & _ & _ & _ & ->); [|done].
    by destruct form.
  - left. by apply bind_Some in He as (a1 & (t' & _ & (w & Hw & [= <-])%bind_Some)%bind_Some & [= _ <-]).
  - apply bind_Some in He as (h & Hh & He). destruct (h_hold h) as [|c' lo hi []]; [done..|]. left.
    by apply run_call_inv in He as (t' & d' & v & v' & w & _ & _ & _ & _ & _ & _ & _ & _ & ->).
  - left. by apply bind_Some in He as (a1 & (t' & _ & (w & Hw & [= <-])%bind_Some)%bind_Some & [= _ <-]).
  - apply bind_Some in He as (a1 & He & [= _ <-]). left.
    by apply exclusive_write_inv in He as (h & c' & t' & w & _ & _ & _ & _ & _ & ->).
  - apply bind_Some in He as (a1 & He & [= _ <-]). left.
    by apply get_mut_inv in He as (_ & t' & w & _ & _ & _ & ->).
  - apply bind_Some in He as ([v1 a1] & (t' & _ & (v0 & _ & (w & Hw & [= _ <-])%bind_Some)%bind_Some)%bind_Some & [= _ <-]).
    apply bind_Some in Hw as (d & _ & [_ [Hu [= <-]]%guard_Some]%guard_Some).
    right; right; right. by exists th, c.
  - left. by apply bind_Some in He as (v0 & _ & [= _ <-]).
Qed.

Lemma guarded_type_kept o r a a' c g h lo hi :
  ainv a -> asafe o = true -> aexec o a = Some (r, a') -> is_Some (types a !! c) ->
  holders (machine a') !! g = Some h -> h_hold h = Guard c lo hi false -> is_Some (types a' !! c).
Proof.
  intros Ha Hs He [t Ht] Hg Eh. pose proof (ainv_aexec a Ha o r a' Hs He) as Ha'.
  destruct (aexec_types o r a a' Ha He)
    as [->|[(o' & -> & ->)|[(th & b & t' & v & -> & ->)|(th & c' & -> & -> & Hu & E)]]].
  - by exists t.
  - exists t. apply map_lookup_filter_Some. split; [done|].
    destruct (inv_holders _ (ainv_machine a' Ha') g h Hg) as [_ (k & _ & Hk)]. rewrite Eh in Hk.
    destruct Hk as (_ & d & Hd & _). by exists d.
  - destruct (decide (next (machine a) = c)) as [->|Hne].
    + rewrite lookup_insert_eq. by eexists.
    + rewrite lookup_insert_ne by done. by exists t.
  - destruct (decide (c' = c)) as [->|Hne].
    + exfalso. rewrite E in Hg. specialize (Hu g h Hg). cbn in Hu. by rewrite Eh in Hu.
    + rewrite lookup_delete_ne by done. by exists t.
Qed.

(** A shared borrow of an atomic leaves the values and the other holders. *)
Lemma as_atomic_inv a i c a' h form d :
  ainv a -> opens i c (machine a) = Some (h, form, d) -> as_atomic i c a = Some a' ->
  let g := match form with ByMut => i | ByRef | ByShared => next (machine a) end in
  is_Some (types a !! c) /\ types a' = types a /\ cells (machine a') = cells (machine a) /\
  (exists h', holders (machine a') !! g = Some h' /\ h_hold h' = Guard c 0 (zlen (c_parts d)) false) /\
  (forall j hj, j <> i -> holders (machine a) !! j = Some hj -> holders (machine a') !! j = Some hj).
Proof.
  intros Ha Ho (t & Ht & (w & Hw & [= <-])%bind_Some)%bind_Some. unfold cell_borrow in Hw.
  rewrite Ho in Hw. injection Hw as <-. split; [by exists t|].
  destruct form; cbn; (split; [done|]; split; [done|]; split).
  all: try (rewrite lookup_insert_eq; by eexists).
  all: intros j hj Hne Hj; rewrite lookup_insert_ne; [done|].
  all: try done.
  all: intros <-; by apply (holder_fresh _ _ (ainv_machine a Ha) Hj).
Qed.

(** The call of a method on a borrowed atomic leaves everything but the value. *)
Lemma ref_call_inv a g m r a' h c lo hi :
  ainv a -> holders (machine a) !! g = Some h -> h_hold h = Guard c lo hi false ->
  aexec (ARefCall g m) a = Some (r, a') ->
  run_call c m a = Some (r, a') /\ types a' = types a /\
  holders (machine a') = holders (machine a).
Proof.
  intros Ha Hg Eh He. cbn in He. unfold ref_call in He. rewrite Hg in He. cbn in He. rewrite Eh in He.
  split; [done|].
  by apply run_call_inv in He as (t & d & v & v' & w & _ & _ & _ & _ & _ & _ & -> & _ & ->).
Qed.

(** Giving a borrow back leaves everything but the borrow. *)
Lemma end_borrow_inv a g r a' :
  ainv a -> aexec (ABase (EndBorrow g)) a = Some (r, a') ->
  machine a' = drop_holder g (machine a) /\ (forall c, types a' !! c = types a !! c).
Proof.
  intros Ha (a1 & [_ (w & He & [= <-])%bind_Some]%guard_Some & [= _ <-])%bind_Some. cbn in He.
  apply bind_Some in He as (h & _ & [= <-]). split; [done|]. intros c. cbn.
  destruct (types a !! c) as [t|] eqn:Ht.
  - apply map_lookup_filter_Some. split; [done|].
    destruct (ainv_atomics a Ha c t Ht) as (_ & d & v & Hd & _). by exists d.
  - apply map_lookup_filter_None. by left.
Qed.

(** ** Lemmas: the machine is one of [AtomicPhases] *)

Section machine_lemmas.
Context {St : Type}.
Implicit Type u : umachine St.

Lemma update_end_eq g r u x :
  update_end g r u = Some x ->
  exists a', aexec (ABase (EndBorrow g)) (atomics u) = Some (Ret Done, a') /\
    x = (Updated r, mkUM a' (delete g (running u))).
Proof.
  intros ([r' a'] & He & [= <-])%bind_Some. exists a'. split; [|done]. rewrite He.
  by apply bind_Some in He as (a1 & _ & [= <- _]).
Qed.

(** How an access of a running call goes on. *)
Lemma update_ask_cases g up now st u r u' :
  update_ask g up now st u = Some (r, u') ->
  (exists next st', u_f up now st = (Ret (Some next), st') /\ r = Pending /\
     u' = mkUM (atomics u) (<[g := mkUpdate (u_cell up) (u_f up) (u_set up) (u_fetch up)
                                     (Trying now next st st')]> (running u))) \/
  exists o, r = Updated o /\ update_end g o u = Some (r, u') /\
    match fst (u_f up now st) with
    | Ret (Some _) => False
    | Ret None => o = Ret (inr now)
    | Panic p => o = Panic p
    | UB => o = UB
    end.
Proof.
  unfold update_ask. destruct (u_f up now st) as [[[next|]|p|] st']; cbn.
  - intros [= <- <-]. left. by exists next, st'.
  - intros He. right. pose proof (update_end_eq _ _ _ _ He) as (a' & _ & [= -> _]). by eexists.
  - intros He. right. pose proof (update_end_eq _ _ _ _ He) as (a' & _ & [= -> _]). by eexists.
  - intros He. right. pose proof (update_end_eq _ _ _ _ He) as (a' & _ & [= -> _]). by eexists.
Qed.

Lemma load_reply g order a r a' :
  aexec (ARefCall g (Load order)) a = Some (r, a') ->
  rejects_load order = true /\ r = Panic OrderingPanic \/ exists v, r = Ret (Value v).
Proof.
  intros (h & _ & Hl)%bind_Some. destruct (h_hold h) as [|c lo hi []]; [done..|].
  apply bind_Some in Hl as (t & _ & [_ (v & _ & Hl)%bind_Some]%guard_Some).
  unfold call, load, load_ordered, atomic_load, mbind, M_bind, mret, M_ret in Hl. cbn in Hl.
  destruct (rejects_load order); apply bind_Some in Hl as (w & _ & [= <- _]); [by left|right; by exists v].
Qed.

Lemma compare_exchange_reply g prev next success failure a r a' :
  aexec (ARefCall g (CompareExchange prev next success failure)) a = Some (r, a') ->
  rejects_load failure = true /\ r = Panic OrderingPanic \/
  r = Ret (Exchanged (inl prev)) \/ exists now, r = Ret (Exchanged (inr now)).
Proof.
  intros (h & _ & Hl)%bind_Some. destruct (h_hold h) as [|c lo hi []]; [done..|].
  apply bind_Some in Hl as (t & _ & [_ (v & _ & Hl)%bind_Some]%guard_Some).
  unfold call, compare_exchange, compare_exchange_ordered, atomic_compare_exchange,
    mbind, M_bind, mret, M_ret in Hl. cbn in Hl.
  destruct (rejects_load failure); [|destruct (decide (v = prev)) as [->|]];
    apply bind_Some in Hl as (w & _ & [= <- _]); [by left|right; by left|right; right; by exists v].
Qed.

Lemma update_step_cases g spurious u r u' :
  update_step g spurious u = Some (r, u') ->
  exists up m r1 a, running u !! g = Some up /\ aexec (ARefCall g m) (atomics u) = Some (r1, a) /\
    ( (exists now st, (r1 = Ret (Value now) /\ m = Load (u_fetch up) \/
                       r1 = Ret (Exchanged (inr now)) /\ exists prev next called,
                         u_phase up = Trying prev next called st /\
                         m = CompareExchange prev next (u_set up) (u_fetch up)) /\
         st = match u_phase up with Loading st | Trying _ _ _ st => st end /\
         update_ask g up now st (mkUM a (running u)) = Some (r, u')) \/
      (exists prev next called st, u_phase up = Trying prev next called st /\
         m = CompareExchange prev next (u_set up) (u_fetch up) /\ r1 = Ret (Exchanged (inl prev)) /\
         update_end g (Ret (inl prev)) (mkUM a (running u)) = Some (r, u')) \/
      (rejects_load (u_fetch up) = true /\
         (m = Load (u_fetch up) \/ exists prev next, m = CompareExchange prev next (u_set up) (u_fetch up)) /\
         update_end g (Panic OrderingPanic) (mkUM a (running u)) = Some (r, u')) ).
Proof.
  intros (up & Hup & ([r1 a] & He & Hk)%bind_Some)%bind_Some. exists up.
  destruct (u_phase up) as [st|prev next called st] eqn:Eph; [|destruct spurious].
  1,2: exists (Load (u_fetch up)), r1, a; do 2 (split; [done|]).
  1,2: destruct (load_reply _ _ _ _ _ He) as [[Hr ->]|[v ->]].
  1,3: by right; right; split; [|split; [left|]].
  1,2: left; eexists v, _; split; [by left|]; split; [reflexivity|exact Hk].
  exists (CompareExchange prev next (u_set up) (u_fetch up)), r1, a. do 2 (split; [done|]).
  destruct (compare_exchange_reply _ _ _ _ _ _ _ _ He) as [[Hr ->]|[->|[now ->]]].
  - right; right. split; [done|]. split; [right; by exists prev, next|done].
  - right; left. by exists prev, next, called, st.
  - left. exists now, st. split; [|by split]. right. split; [done|]. by exists prev, next, called.
Qed.

(** Each operation is a few operations of [AtomicPhases]. *)
Lemma uexec_simulated o u r u' :
  usafe o = true -> uexec o u = Some (r, u') ->
  exists ops rs, forallb asafe ops = true /\ arun ops (atomics u) = Some (rs, atomics u').
Proof.
  intros Hs He. destruct o as [o|i c f st s fo|g sp]; cbn [uexec] in He.
  - apply bind_Some in He as ([r1 a] & He & [_ [= _ <-]]%guard_Some).
    exists [o], [r1]. cbn. rewrite He. split; [by rewrite andb_true_r|done].
  - apply bind_Some in He as (u1 & ([[h form] d] & Ho & (a & Ha & [= <-])%bind_Some)%bind_Some & [= _ <-]).
    exists [AAsAtomic i c], [Ret Done]. split; [done|]. cbn. unfold silent. by rewrite Ha.
  - apply update_step_cases in He as (up & m & r1 & a & Hup & He & Hcases).
    assert (forall o, update_end g o (mkUM a (running u)) = Some (r, u') ->
      exists ops rs, forallb asafe ops = true /\ arun ops (atomics u) = Some (rs, atomics u')) as Hend.
    { intros o (a' & Hb & [= -> ->])%update_end_eq.
      exists [ARefCall g m; ABase (EndBorrow g)], [r1; Ret Done]. split; [done|].
      cbn [arun]. rewrite He. cbn [mbind option_bind]. cbn [atomics] in Hb. by rewrite Hb. }
    destruct Hcases as [(now & st & _ & _ & Hask)|[(? & ? & ? & ? & _ & _ & _ & Hk)|(_ & _ & Hk)]].
    + apply update_ask_cases in Hask as [(next & st' & _ & -> & ->)|(o & -> & Hk & _)]; [|by eapply Hend].
      exists [ARefCall g m], [r1]. split; [done|]. cbn [arun]. by rewrite He.
    + by eapply Hend.
    + by eapply Hend.
Qed.

(** ** Lemmas: the invariant *)

Lemma update_ok_kept a a' g (up : update St) :
  update_ok a g up -> holders (machine a') !! g = holders (machine a) !! g ->
  (is_Some (types a !! u_cell up) -> is_Some (types a' !! u_cell up)) -> update_ok a' g up.
Proof.
  intros ((h & lo & hi & Hh & Eh) & Ht & Hp) E Hty. split; [|by split; [apply Hty|]].
  exists h, lo, hi. by rewrite E.
Qed.

Lemma uinv_ref_call u g up m r a :
  uinv u -> running u !! g = Some up -> aexec (ARefCall g m) (atomics u) = Some (r, a) ->
  uinv (mkUM a (running u)) /\ run_call (u_cell up) m (atomics u) = Some (r, a) /\
  types a = types (atomics u).
Proof.
  intros [Ha Hr] Hup He. pose proof (Hr g up Hup) as ((h & lo & hi & Hh & Eh) & _).
  destruct (ref_call_inv _ _ _ _ _ _ _ _ _ Ha Hh Eh He) as (Hc & Ht & Hho).
  split; [|done]. split; [by eapply (ainv_aexec _ Ha (ARefCall g m))|].
  intros j uj Hj. eapply update_ok_kept; [by apply Hr|by cbn; rewrite Hho|by cbn; rewrite Ht].
Qed.

Lemma uinv_update_end u g o r u' :
  uinv u -> update_end g o u = Some (r, u') ->
  uinv u' /\ cells (machine (atomics u')) = cells (machine (atomics u)) /\
  (forall c, types (atomics u') !! c = types (atomics u) !! c) /\
  running u' = delete g (running u).
Proof.
  intros [Ha Hr] (a' & He & [= _ ->])%update_end_eq. cbn [atomics running].
  destruct (end_borrow_inv _ _ _ _ Ha He) as (Hm & Ht). split.
  - split; [by eapply (ainv_aexec _ Ha (ABase (EndBorrow g)))|].
    cbn [running atomics].
    intros j uj [Hne Hj]%lookup_delete_Some. eapply update_ok_kept; [by apply Hr| |by rewrite Ht].
    rewrite Hm. cbn. by rewrite lookup_delete_ne.
  - split_and!; [by rewrite Hm|exact Ht|done].
Qed.

Lemma uinv_update_ask u g up now st r u' :
  uinv u -> running u !! g = Some up -> update_ask g up now st u = Some (r, u') -> uinv u'.
Proof.
  intros Hu Hup [(next & st' & Hf & _ & ->)|(o & _ & He & _)]%update_ask_cases.
  - split; [apply Hu|]. cbn [running atomics]. intros j uj [[<- <-]|[_ Hj]]%lookup_insert_Some; [|by apply (uinv_running _ Hu)].
    destruct (uinv_running _ Hu g up Hup) as (Hh & Ht & _). by split_and!.
  - by destruct (uinv_update_end _ _ _ _ _ Hu He).
Qed.

Lemma uinv_uexec o u r u' :
  uinv u -> usafe o = true -> uexec o u = Some (r, u') -> uinv u'.
Proof.
  intros Hu Hs He. pose proof Hu as [Ha Hr]. destruct o as [o|i c f st s fo|g sp]; cbn [uexec] in He.
  - apply bind_Some in He as ([r1 a] & He & [Hb [= _ <-]]%guard_Some).
    split; [by eapply ainv_aexec|]. intros g up Hup. pose proof (Hr g up Hup) as Hok.
    specialize (Hb g up Hup). cbn in Hb. eapply update_ok_kept; [done|done|].
    intros Ht. destruct Hok as ((h & lo & hi & Hh & Eh) & _).
    eapply guarded_type_kept; [exact Ha|done|done|done| |exact Eh]. cbn. by rewrite Hb.
  - apply bind_Some in He as (u1 & ([[h form] d] & Ho & (a & Has & [= <-])%bind_Some)%bind_Some & [= _ <-]).
    pose proof (as_atomic_inv _ _ _ _ _ _ _ Ha Ho Has) as (Hc & Hty & _ & (h' & Hh' & Eh') & Hother).
    split.
    + eapply (ainv_aexec _ Ha (AAsAtomic i c)); [done|]. cbn. unfold silent. by rewrite Has.
    + cbn [running atomics]. intros j uj [[<- <-]|[_ Hj]]%lookup_insert_Some.
      * split; [|split; [|done]]; cbn [u_cell atomics]; [by exists h', 0, (zlen (c_parts d))|by rewrite Hty].
      * pose proof (Hr j uj Hj) as Hok. eapply update_ok_kept; [done| |cbn; by rewrite Hty].
        destruct Hok as ((hj & lo & hi & Hhj & Ehj) & _). cbn. rewrite Hhj. apply Hother; [|done].
        intros ->. destruct (opens_inv _ _ _ _ _ _ (ainv_machine _ Ha) Ho) as (Hi & Hf & _). congruence.
  - apply update_step_cases in He as (up & m & r1 & a & Hup & He & Hcases).
    destruct (uinv_ref_call _ _ _ _ _ _ Hu Hup He) as (Hu1 & _).
    destruct Hcases as [(now & st & _ & _ & Hask)|[(? & ? & ? & ? & _ & _ & _ & Hk)|(_ & _ & Hk)]].
    + by eapply uinv_update_ask, Hask.
    + by destruct (uinv_update_end _ _ _ _ _ Hu1 Hk).
    + by destruct (uinv_update_end _ _ _ _ _ Hu1 Hk).
Qed.
End machine_lemmas.

(** ** Lemmas: the register *)

Lemma call_load t order v :
  call t (Load order) v
  = if rejects_load order then (Panic OrderingPanic, v) else (Ret (Value v), v).
Proof.
  cbn. unfold load, load_ordered, atomic_load, mbind, M_bind, mret, M_ret. cbn.
  by destruct (rejects_load order).
Qed.

Lemma call_compare_exchange t x y s f v :
  call t (CompareExchange x y s f) v
  = if rejects_load f then (Panic OrderingPanic, v)
    else if decide (v = x) then (Ret (Exchanged (inl v)), y) else (Ret (Exchanged (inr v)), v).
Proof.
  cbn. unfold compare_exchange, compare_exchange_ordered, atomic_compare_exchange,
    mbind, M_bind, mret, M_ret. cbn. destruct (rejects_load f); [done|]. by destruct (decide _).
Qed.

Section uregister.
Context {St : Type} (u : umachine St) (Hu : uinv u) (c : positive) (t : int_type) (v : Z).
Context (Hc : types (atomics u) !! c = Some t) (Hv : value_of c (machine (atomics u)) = Some v).

Lemma update_end_value (u1 u' : umachine St) g o r :
  uinv u1 -> update_end g o u1 = Some (r, u') ->
  value_of c (machine (atomics u')) = value_of c (machine (atomics u1)) /\ r = Updated o.
Proof using.
  intros Hi He. destruct (uinv_update_end _ _ _ _ _ Hi He) as (_ & E & _). unfold value_of. rewrite E.
  split; [done|]. by apply update_end_eq in He as (a' & _ & [= -> _]).
Qed.

(** An access that stores nothing: the load, a compare-exchange that fails, or one
    whose ordering is rejected. *)
Lemma idle_access c' m r a x set_order fetch_order :
  run_call c' m (atomics u) = Some (r, a) ->
  (r = Ret (Value x) \/ r = Ret (Exchanged (inr x)) \/ rejects_load fetch_order = true) ->
  (m = Load fetch_order \/ exists prev next, m = CompareExchange prev next set_order fetch_order) ->
  value_of c (machine a) = Some v /\
  (rejects_load fetch_order = false -> c' = c -> x = v) /\
  (r <> Panic OrderingPanic -> rejects_load fetch_order = false).
Proof using Hu Hc Hv.
  intros Hcall Hr Hm. pose proof (uinv_atomics u Hu) as Ha.
  pose proof (call_effect (atomics u) Ha c t v Hc Hv _ _ _ _ Hcall) as Hef.
  apply run_call_inv in Hcall as (t' & d' & v0 & v1 & w & _ & _ & _ & _ & Hcl & _); [|done].
  destruct Hm as [->|(prev & next & ->)]; rewrite ?call_load, ?call_compare_exchange in *;
    destruct (rejects_load fetch_order); simplify_eq; destruct (decide (Some c' = Some c)) as [E|E];
    try (destruct Hef as (v' & Hef & Hv')); repeat case_decide; naive_solver.
Qed.

(** A step of a call that only reads: the call goes on, or the closure declines. *)
Lemma asked_register g up now st m a r u' :
  running u !! g = Some up -> uinv (mkUM a (running u)) ->
  value_of c (machine a) = Some v -> rejects_load (u_fetch up) = false ->
  (u_cell up = c -> now = v) -> st = match u_phase up with Loading st | Trying _ _ _ st => st end ->
  update_ask g up now st (mkUM a (running u)) = Some (r, u') ->
  match uevent_of c (UStep g m) r u with
  | Some e => exists v', uregister_step t e v = (r, v') /\ value_of c (machine (atomics u')) = Some v'
  | None => value_of c (machine (atomics u')) = Some v
  end.
Proof using.
  intros Hup Hu1 Hva Hrej Hnow Hst Hask. cbn [uevent_of]. rewrite Hup. cbn [mbind option_bind].
  apply update_ask_cases in Hask as [(next & st' & Hf & -> & ->)|(o & -> & Hk & Ho)]; [exact Hva|].
  destruct (update_end_value _ _ _ _ _ Hu1 Hk) as [E _]. cbn [atomics] in E. rewrite <- E in Hva.
  destruct (decide (u_cell up = c)) as [Ec|Ec]; [|rewrite option_guard_False by naive_solver; exact Hva].
  rewrite option_guard_True by done. rewrite (Hnow Ec) in Ho. cbn [mbind option_bind].
  exists v. split; [|exact Hva].
  assert (match u_phase up, o with
    | Trying _ _ called _, Ret (inl _) => called
    | Loading st, _ | Trying _ _ _ st, _ => st
    end = st) as ->.
  { rewrite Hst. destruct (u_phase up); [done|]. destruct o as [[old|]| |]; [|done..]. exfalso.
    by destruct (fst _) as [[|]| |]. }
  cbn. destruct (fst _) as [[n|]|p|]; [done|by rewrite Ho..].
Qed.

(** One operation is at most one step of the register. *)
Lemma uexec_register o r u' :
  uexec o u = Some (r, u') -> types (atomics u') !! c = Some t ->
  match uevent_of c o r u with
  | Some e => exists v', uregister_step t e v = (r, v') /\ value_of c (machine (atomics u')) = Some v'
  | None => value_of c (machine (atomics u')) = Some v
  end.
Proof using Hu Hc Hv.
  intros He Hc'. pose proof (uinv_atomics u Hu) as Ha.
  destruct o as [o|i c' f st s fo|g sp]; cbn [uexec] in *.
  - apply bind_Some in He as ([r1 a] & He & [_ [= <- <-]]%guard_Some). cbn [atomics uevent_of] in *.
    pose proof (aexec_register (atomics u) Ha c t v Hc Hv o r1 a He Hc') as Hs.
    destruct (event_of c o (atomics u)) as [e|]; cbn; [|done].
    destruct Hs as (v' & Hs & Hv'). exists v'. by rewrite Hs.
  - apply bind_Some in He as (u1 & ([[h form] d] & Ho & (a & Has & [= <-])%bind_Some)%bind_Some & [= <- <-]).
    pose proof (as_atomic_inv _ _ _ _ _ _ _ Ha Ho Has) as (_ & _ & E & _).
    unfold value_of in *. cbn. by rewrite E.
  - apply update_step_cases in He as (up & m & r1 & a & Hup & He & Hcases).
    destruct (uinv_ref_call _ _ _ _ _ _ Hu Hup He) as (Hu1 & Hcall & _).
    destruct Hcases as [(now & st & Hm & Hst & Hask)|
      [(prev & next & called & st & Eph & -> & -> & Hk)|(Hrej & Hm & Hk)]].
    + destruct (idle_access (u_cell up) m r1 a now (u_set up) (u_fetch up) Hcall)
        as (Hva & Hnow & Hrej).
      * destruct Hm as [[-> _]|[-> _]]; auto.
      * destruct Hm as [[_ ->]|[_ (prev & next & called & _ & ->)]]; [by left|right; by exists prev, next].
      * assert (rejects_load (u_fetch up) = false) as Hr.
        { apply Hrej. by destruct Hm as [[-> _]|[-> _]]. }
        eapply asked_register; [exact Hup|exact Hu1|exact Hva|exact Hr|by apply Hnow|exact Hst|exact Hask].
    + pose proof (call_effect (atomics u) Ha c t v Hc Hv _ _ _ _ Hcall) as Hef.
      destruct (update_end_value _ _ _ _ _ Hu1 Hk) as [-> ->]. cbn [uevent_of atomics]. rewrite Hup. cbn [mbind option_bind].
      destruct (decide (Some (u_cell up) = Some c)) as [[= E]|Hne];
        [|rewrite option_guard_False by naive_solver; done].
      destruct Hef as (v' & Hef & Hv'). rewrite call_compare_exchange in Hef.
      destruct (rejects_load (u_fetch up)); [done|].
      destruct (decide (v = prev)) as [<-|]; [|done]. injection Hef as <-.
      rewrite option_guard_True by done. cbn [mbind option_bind]. rewrite Eph. exists next.
      split; [|done]. destruct (uinv_running u Hu g up Hup) as (_ & _ & Hp). rewrite Eph in Hp.
      cbn. by rewrite Hp.
    + destruct (update_end_value _ _ _ _ _ Hu1 Hk) as [-> ->]. cbn [uevent_of atomics].
      rewrite Hup. cbn [mbind option_bind]. rewrite option_guard_False by (intros [_ ?]; congruence).
      by destruct (idle_access (u_cell up) m r1 a v (u_set up) (u_fetch up) Hcall) as (Hva & _); [auto..|].
Qed.
End uregister.

(** ** Lemmas: runs *)

Lemma arun_app ops1 ops2 a rs1 a1 rs2 a2 :
  arun ops1 a = Some (rs1, a1) -> arun ops2 a1 = Some (rs2, a2) ->
  arun (ops1 ++ ops2) a = Some (rs1 ++ rs2, a2).
Proof.
  revert a rs1. induction ops1 as [|o ops1 IH]; intros a rs1 H1 H2; [by injection H1 as <- ->|].
  apply bind_Some in H1 as ([r a'] & He & ([rs a''] & Hr & [= <- ->])%bind_Some). cbn.
  rewrite He. cbn. by rewrite (IH a' rs).
Qed.

Lemma arun_next ops a rs a' :
  ainv a -> forallb asafe ops = true -> arun ops a = Some (rs, a') ->
  (next (machine a) <= next (machine a'))%positive.
Proof.
  revert a rs. induction ops as [|o ops IH]; intros a rs Ha Hs Hr; [injection Hr as _ <-; lia|].
  apply andb_true_iff in Hs as [Ho Hs].
  apply bind_Some in Hr as ([r a1] & He & ([rs1 a2] & Hr & [= _ <-])%bind_Some).
  pose proof (aexec_next o r a a1 Ha He). pose proof (IH a1 rs1 (ainv_aexec a Ha o r a1 Ho He) Hs Hr). lia.
Qed.

Section runs.
Context {St : Type}.
Implicit Type u : umachine St.

Lemma urun_app ops1 ops2 u rs1 u1 rs2 u2 :
  urun ops1 u = Some (rs1, u1) -> urun ops2 u1 = Some (rs2, u2) ->
  urun (ops1 ++ ops2) u = Some (rs1 ++ rs2, u2).
Proof.
  revert u rs1. induction ops1 as [|o ops1 IH]; intros u rs1 H1 H2; [by injection H1 as <- ->|].
  apply bind_Some in H1 as ([r u'] & He & ([rs u''] & Hr & [= <- ->])%bind_Some). cbn.
  rewrite He. cbn. by rewrite (IH u' rs).
Qed.

Lemma urun_simulated ops u rs u' :
  forallb usafe ops = true -> urun ops u = Some (rs, u') ->
  exists aops ars, forallb asafe aops = true /\ arun aops (atomics u) = Some (ars, atomics u').
Proof.
  revert u rs. induction ops as [|o ops IH]; intros u rs Hs Hr.
  { injection Hr as _ <-. by exists [], []. }
  apply andb_true_iff in Hs as [Ho Hs].
  apply bind_Some in Hr as ([r u1] & He & ([rs1 u2] & Hr & [= _ <-])%bind_Some).
  destruct (uexec_simulated o u r u1 Ho He) as (o1 & r1 & Hs1 & Hr1).
  destruct (IH u1 rs1 Hs Hr) as (o2 & r2 & Hs2 & Hr2).
  exists (o1 ++ o2), (r1 ++ r2). split; [by rewrite forallb_app, Hs1, Hs2|by eapply arun_app].
Qed.

Lemma urun_inv ops u rs u' :
  uinv u -> forallb usafe ops = true -> urun ops u = Some (rs, u') -> uinv u'.
Proof.
  revert u rs. induction ops as [|o ops IH]; intros u rs Hu Hs Hr; [by injection Hr as _ <-|].
  apply andb_true_iff in Hs as [Ho Hs].
  apply bind_Some in Hr as ([r u1] & He & ([rs1 u2] & Hr & [= _ <-])%bind_Some).
  eapply IH; [|done|exact Hr]. by eapply uinv_uexec.
Qed.

(** The states of safe programs. *)
Definition ureachable u : Prop :=
  exists ops rs, forallb usafe ops = true /\ urun ops initial_umachine = Some (rs, u).

Lemma ureachable_inv u : ureachable u -> uinv u.
Proof.
  intros (ops & rs & Hs & Hr). eapply urun_inv; [|done..].
  split; [apply ainv_initial|apply map_Forall_empty].
Qed.

Lemma ureachable_areachable u : ureachable u -> areachable (atomics u).
Proof.
  intros (ops & rs & Hs & Hr).
  destruct (urun_simulated ops initial_umachine rs u Hs Hr) as (aops & ars & Hs' & Hr').
  by exists aops, ars.
Qed.

(** An atomic that is there in the end was there all along. *)
Lemma urun_types ops u rs u' c t v :
  uinv u -> forallb usafe ops = true -> urun ops u = Some (rs, u') ->
  value_of c (machine (atomics u)) = Some v -> types (atomics u') !! c = Some t ->
  types (atomics u) !! c = Some t.
Proof.
  intros Hu Hs Hr Hv Hc. destruct (urun_simulated ops u rs u' Hs Hr) as (aops & ars & Hs' & Hr').
  eapply arun_types; [apply Hu|exact Hs'|exact Hr'| |exact Hc].
  apply bind_Some in Hv as (d & Hd & _).
  by apply (inv_cells _ (ainv_machine _ (uinv_atomics u Hu))) in Hd as [? _].
Qed.

Lemma urun_register ops u rs u' c t v :
  uinv u -> forallb usafe ops = true -> urun ops u = Some (rs, u') ->
  value_of c (machine (atomics u)) = Some v -> types (atomics u') !! c = Some t ->
  exists v', value_of c (machine (atomics u')) = Some v' /\
    uregister_run t (fst <$> uhistory c ops u) v = (snd <$> uhistory c ops u, v').
Proof.
  revert u rs v. induction ops as [|o ops IH]; intros u rs v Hu Hs Hr Hv Hc.
  { injection Hr as _ ->. by exists v. }
  pose proof (urun_types _ _ _ _ c t v Hu Hs Hr Hv Hc) as Hct.
  apply andb_true_iff in Hs as [Ho Hs].
  apply bind_Some in Hr as ([r u1] & He & ([rs1 u2] & Hr & [= _ <-])%bind_Some).
  pose proof (uinv_uexec o u r u1 Hu Ho He) as Hu1.
  assert (types (atomics u1) !! c = Some t) as Hc1.
  { destruct (urun_simulated ops u1 rs1 u2 Hs Hr) as (aops & ars & Hs' & Hr').
    eapply arun_types; [apply Hu1|exact Hs'|exact Hr'| |exact Hc].
    apply bind_Some in Hv as (d & Hd & _).
    apply (inv_cells _ (ainv_machine _ (uinv_atomics u Hu))) in Hd as [Hlt _].
    destruct (uexec_simulated o u r u1 Ho He) as (o1 & r1 & Hs1 & Hr1).
    pose proof (arun_next o1 (atomics u) r1 (atomics u1) (uinv_atomics u Hu) Hs1 Hr1). lia. }
  pose proof (uexec_register u Hu c t v Hct Hv o r u1 He Hc1) as Hstep.
  cbn [uhistory]. rewrite He. destruct (uevent_of c o r u) as [e|].
  - destruct Hstep as (v1 & Hstep & Hv1).
    destruct (IH u1 rs1 v1 Hu1 Hs Hr Hv1 Hc) as (v' & Hv' & Hrun). exists v'. split; [done|].
    cbn. by rewrite Hstep, Hrun.
  - destruct (IH u1 rs1 v Hu1 Hs Hr Hstep Hc) as (v' & Hv' & Hrun). by exists v'.
Qed.
End runs.

(** ** Lemmas: an undisturbed call *)

Lemma end_enabled {St} (u : umachine St) g up o :
  uinv u -> running u !! g = Some up ->
  exists u', update_end g o u = Some (Updated o, u') /\ running u' !! g = None.
Proof.
  intros Hu Hup. pose proof (uinv_running u Hu g up Hup) as ((h & lo & hi & Hh & Eh) & _).
  unfold update_end. cbn [aexec]. unfold silent, machine_op. rewrite option_guard_True by done.
  cbn. unfold end_borrow. rewrite Hh. cbn. eexists. split; [reflexivity|]. apply lookup_delete_eq.
Qed.

(** The closure answers on every value, with a value of the atomic's type. *)
Definition closure_total {St} (f : Z -> M St (option Z)) (t : int_type) : Prop :=
  forall x s, exists r s', f x s = (Ret r, s') /\ match r with Some n => in_range t n | None => True end.

Section progress.
Context {St : Type} (u : umachine St) (g : positive) (up : update St) (t : int_type) (v : Z).
Context (Hu : uinv u) (Hup : running u !! g = Some up).
Context (Ht : types (atomics u) !! u_cell up = Some t).
Context (Hv : value_of (u_cell up) (machine (atomics u)) = Some v).
Context (Hrej : rejects_load (u_fetch up) = false).

(** A step of the call is a method on its atomic. *)
Lemma call_enabled m r v' :
  method_ok t m -> call t m v = (r, v') ->
  exists a, aexec (ARefCall g m) (atomics u) = Some (r, a) /\ uinv (mkUM a (running u)) /\
    types a = types (atomics u) /\ value_of (u_cell up) (machine a) = Some v'.
Proof using Hu Hup Ht Hv.
  intros Hm Hcall. pose proof (uinv_running u Hu g up Hup) as ((h & lo & hi & Hh & Eh) & _).
  assert (exists w, put_value (u_cell up) v' (machine (atomics u)) = Some w) as [w Hw].
  { unfold value_of in Hv. apply bind_Some in Hv as (d & Hd & _). unfold put_value. rewrite Hd. by eexists. }
  assert (aexec (ARefCall g m) (atomics u) = Some (r, set_machine (atomics u) w)) as He.
  { cbn. unfold ref_call. rewrite Hh. cbn. rewrite Eh. unfold run_call. rewrite Ht. cbn.
    rewrite option_guard_True by done. cbn. rewrite Hv. cbn. by rewrite Hcall, Hw. }
  eexists. split; [exact He|].
  destruct (uinv_ref_call _ _ _ _ _ _ Hu Hup He) as (Hu1 & Hc & Hty).
  split; [done|]. split; [done|]. by apply (put_value_is _ _ _ _ Hw).
Qed.

(** An attempt that finds the value it expects succeeds. *)
Lemma attempt_succeeds next called st :
  u_phase up = Trying v next called st -> in_range t next ->
  exists u', update_step g false u = Some (Updated (Ret (inl v)), u') /\ running u' !! g = None.
Proof using Hu Hup Ht Hv Hrej.
  intros Eph Hn.
  destruct (call_enabled (CompareExchange v next (u_set up) (u_fetch up)) (Ret (Exchanged (inl v))) next)
    as (a & He & Hu1 & _); [done|by rewrite call_compare_exchange, Hrej, decide_True|].
  unfold update_step. rewrite Hup. cbn [mbind option_bind]. rewrite Eph, He. cbn [mbind option_bind].
  by apply (end_enabled _ g up).
Qed.

(** One that does not asks the closure about the current value, as the load does. *)
Lemma attempt_asks :
  match u_phase up with
  | Loading _ => True
  | Trying prev next _ _ => prev <> v /\ in_range t next
  end ->
  exists a, uinv (mkUM a (running u)) /\ types a = types (atomics u) /\
    value_of (u_cell up) (machine a) = Some v /\
    update_step g false u
    = update_ask g up v match u_phase up with Loading st | Trying _ _ _ st => st end
        (mkUM a (running u)).
Proof using Hu Hup Ht Hv Hrej.
  intros Hph. unfold update_step. rewrite Hup. cbn [mbind option_bind].
  destruct (u_phase up) as [st|prev next called st].
  - destruct (call_enabled (Load (u_fetch up)) (Ret (Value v)) v) as (a & -> & Hu1 & Hty & Hva);
      [done|by rewrite call_load, Hrej|]. by exists a.
  - destruct Hph as [Hne Hn].
    destruct (call_enabled (CompareExchange prev next (u_set up) (u_fetch up)) (Ret (Exchanged (inr v))) v)
      as (a & -> & Hu1 & Hty & Hva); [done|by rewrite call_compare_exchange, Hrej, decide_False|]. by exists a.
Qed.

Lemma next_in_range prev next called st :
  closure_total (u_f up) t -> u_phase up = Trying prev next called st -> in_range t next.
Proof using Hu Hup.
  intros Hf Eph. destruct (uinv_running u Hu g up Hup) as (_ & _ & Hp). rewrite Eph in Hp.
  destruct (Hf prev called) as (r & s' & E & Hr). rewrite Hp in E. by injection E as <- <-.
Qed.
End progress.

(** A call that has just asked its closure ends there, or with the next attempt. *)
Lemma asked_then_ends {St} (u u1 : umachine St) g up t v st :
  uinv u1 -> running u1 !! g = Some up -> types (atomics u1) !! u_cell up = Some t ->
  value_of (u_cell up) (machine (atomics u1)) = Some v -> rejects_load (u_fetch up) = false ->
  closure_total (u_f up) t -> update_step g false u = update_ask g up v st u1 ->
  exists n rs r u', (n <= 2)%nat /\
    urun (replicate n (UStep g false)) u = Some (rs ++ [Updated (Ret r)], u') /\ running u' !! g = None.
Proof.
  intros Hu1 Hup Ht Hv Hrej Hf Hask. unfold update_ask in Hask.
  destruct (Hf v st) as ([next|] & st' & E & Hn); rewrite E in Hask.
  - set (up' := mkUpdate (u_cell up) (u_f up) (u_set up) (u_fetch up) (Trying v next st st')) in Hask.
    pose proof (uinv_update_ask u1 g up v st Pending (mkUM (atomics u1) (<[g:=up']> (running u1))) Hu1 Hup) as Hu2.
    destruct (attempt_succeeds (mkUM (atomics u1) (<[g:=up']> (running u1))) g up' t v)
      with next st st' as (u' & Hs & Hd); try done.
    { apply Hu2. unfold update_ask. by rewrite E. }
    { apply lookup_insert_eq. }
    exists 2%nat, [Pending], (inl v), u'. split; [lia|]. split; [|done].
    cbn [replicate urun uexec]. rewrite Hask. cbn [mbind option_bind]. by rewrite Hs.
  - destruct (end_enabled u1 g up (Ret (inr v)) Hu1 Hup) as (u' & Hs & Hd).
    exists 1%nat, [], (inr v), u'. split; [lia|]. split; [|done].
    cbn [replicate urun uexec]. by rewrite Hask, Hs.
Qed.


(** ** Properties *)

(** C14: [fetch_update] is atomic: in every program, however the accesses of any
    number of running calls interleave with each other and with all other
    operations, and however often attempts fail for no reason, each call takes
    effect in the one step in which it ends; the values the atomic goes through
    and the answers given are those of a register on which each update is a
    single step that applies its closure to the value and stores the result, or
    stores nothing if the closure declines or panics.  And the machine reaches
    only states of the machine of branded atomics. *)
Theorem fetch_update_linearizes {St} (ops : list (uop St)) (u u' : umachine St) (rs : list ureply)
    (c : positive) (t : int_type) (v : Z) :
  ureachable u -> forallb usafe ops = true -> urun ops u = Some (rs, u') ->
  value_of c (machine (atomics u)) = Some v -> types (atomics u') !! c = Some t ->
  areachable (atomics u') /\
  exists v', value_of c (machine (atomics u')) = Some v' /\ in_range t v' /\
    uregister_run t (fst <$> uhistory c ops u) v = (snd <$> uhistory c ops u, v').
Proof.
  intros Hreach Hs Hr Hv Hc. pose proof (ureachable_inv u Hreach) as Hu. split.
  - apply ureachable_areachable. destruct Hreach as (ops0 & rs0 & Hs0 & Hr0).
    exists (ops0 ++ ops), (rs0 ++ rs). split; [by rewrite forallb_app, Hs0, Hs|]. by eapply urun_app.
  - destruct (urun_register ops u rs u' c t v Hu Hs Hr Hv Hc) as (v' & Hv' & Hrun).
    exists v'. split; [done|]. split; [|done].
    pose proof (uinv_atomics _ (urun_inv ops u rs u' Hu Hs Hr)) as Ha'.
    destruct (atomic_cell _ Ha' c t Hc) as (d & v1 & _ & _ & _ & Hr1 & Hv1). congruence.
Qed.

(** Increments, and counts the calls of the closure. *)
Definition increment (x : Z) : M Z (option Z) := fun calls => (Ret (Some (wrap u8 (x + 1))), calls + 1).

Definition urun_from_start (ops : list (uop Z)) : umachine Z :=
  match urun ops initial_umachine with Some (_, u) => u | None => initial_umachine end.

(** Two threads read 250; the attempt of the second fails once because of the
    first, and once for no reason. *)
Definition two_updates : list (uop Z) :=
  [UBegin 4 2 increment 0 Ordering.AcqRel Ordering.Acquire;
   UBegin 5 2 increment 0 Ordering.SeqCst Ordering.Relaxed;
   UStep 6 false; UStep 7 false; UStep 6 false; UStep 7 false; UStep 7 true; UStep 7 false].

Lemma fetch_update_linearizes_witness :
  exists rs u', urun two_updates (urun_from_start (map UOther shared_program)) = Some (rs, u') /\
    value_of 2 (machine (atomics u')) = Some 252 /\
    snd <$> uhistory 2 two_updates (urun_from_start (map UOther shared_program))
      = [Updated (Ret (inl 250)); Updated (Ret (inl 251))] /\
    exists v', value_of 2 (machine (atomics u')) = Some v' /\
      uregister_run u8 [UUpdate increment 0; UUpdate increment 2] 250
      = ([Updated (Ret (inl 250)); Updated (Ret (inl 251))], v').
Proof.
  eexists _, (urun_from_start (map UOther shared_program ++ two_updates)).
  split; [vm_compute; reflexivity|]. split; [vm_compute; reflexivity|]. split; [vm_compute; reflexivity|].
  destruct (fetch_update_linearizes two_updates (urun_from_start (map UOther shared_program))
    (urun_from_start (map UOther shared_program ++ two_updates))
    [Pending; Pending; Pending; Pending; Updated (Ret (inl 250)); Pending; Pending; Updated (Ret (inl 251))]
    2 u8 250) as [_ (v' & Hv' & _ & Hrun)].
  - exists (map UOther shared_program), (replicate 9 (Access (Ret Done))). split; vm_compute; reflexivity.
  - reflexivity.
  - vm_compute. reflexivity.
  - vm_compute. reflexivity.
  - vm_compute. reflexivity.
  - exists v'. split; [exact Hv'|]. vm_compute in Hrun |- *. exact Hrun.
Defined.

(** C32: No running call is ever stuck: an attempt succeeds if the atomic still has
    the value it expects, so only a spurious failure or another operation that
    changed the value makes it fail; and a call that is left to run alone ends
    within two accesses, from any state, if its closure answers. *)
Theorem fetch_update_progress {St} (u : umachine St) (g : positive) (up : update St) (t : int_type)
    (v : Z) :
  ureachable u -> running u !! g = Some up -> types (atomics u) !! u_cell up = Some t ->
  value_of (u_cell up) (machine (atomics u)) = Some v ->
  rejects_load (u_fetch up) = false -> closure_total (u_f up) t ->
  (forall next called st, u_phase up = Trying v next called st ->
     exists u', uexec (UStep g false) u = Some (Updated (Ret (inl v)), u')) /\
  exists n rs r u', (n <= 2)%nat /\
    urun (replicate n (UStep g false)) u = Some (rs ++ [Updated (Ret r)], u') /\ running u' !! g = None.
Proof.
  intros Hu%ureachable_inv Hup Ht Hv Hrej Hf.
  assert (forall next called st, u_phase up = Trying v next called st ->
    exists u', uexec (UStep g false) u = Some (Updated (Ret (inl v)), u') /\ running u' !! g = None) as Hok.
  { intros next called st Eph. apply (attempt_succeeds u g up t v Hu Hup Ht Hv Hrej next called st Eph).
    by eapply next_in_range. }
  split; [intros next called st Eph; destruct (Hok next called st Eph) as (u' & Hs & _); by exists u'|].
  assert ((exists next called st, u_phase up = Trying v next called st) \/
    match u_phase up with
    | Loading _ => True
    | Trying prev next _ _ => prev <> v /\ in_range t next
    end) as [(next & called & st & Eph)|Hph].
  { destruct (u_phase up) as [st|prev next called st] eqn:Eph; [by right|].
    destruct (decide (prev = v)) as [->|Hne]; [left; by exists next, called, st|right].
    split; [done|]. by eapply next_in_range. }
  - destruct (Hok next called st Eph) as (u' & Hs & Hd). exists 1%nat, [], (inl v), u'.
    split; [lia|]. split; [|done]. cbn [replicate urun]. by rewrite Hs.
  - destruct (attempt_asks u g up t v Hu Hup Ht Hv Hrej Hph) as (a & Hu1 & Hty & Hva & Hstep).
    eapply (asked_then_ends u (mkUM a (running u))); try done. cbn. by rewrite Hty.
Qed.

Lemma fetch_update_progress_witness :
  exists up n rs r u',
    running (urun_from_start (map UOther shared_program ++ take 5 two_updates)) !! 7%positive = Some up /\
    u_phase up = Trying 250 251 0 1 /\ (n <= 2)%nat /\
    urun (replicate n (UStep 7 false)) (urun_from_start (map UOther shared_program ++ take 5 two_updates))
      = Some (rs ++ [Updated (Ret r)], u').
Proof.
  exists (mkUpdate 2 increment Ordering.SeqCst Ordering.Relaxed (Trying 250 251 0 1)).
  destruct (fetch_update_progress (urun_from_start (map UOther shared_program ++ take 5 two_updates)) 7
    (mkUpdate 2 increment Ordering.SeqCst Ordering.Relaxed (Trying 250 251 0 1)) u8 251)
    as [_ (n & rs & r & u' & Hn & Hrun & _)].
  - exists (map UOther shared_program ++ take 5 two_updates).
    exists (replicate 9 (Access (Ret Done)) ++
      [Pending; Pending; Pending; Pending; Updated (Ret (inl 250))]). split; vm_compute; reflexivity.
  - vm_compute. reflexivity.
  - reflexivity.
  - vm_compute. reflexivity.
  - reflexivity.
  - intros x s. eexists _, _. split; [reflexivity|]. apply wrap_range. unfold int_type_ok. cbn. lia.
  - exists n, rs, r, u'. split; [vm_compute; reflexivity|]. split; [reflexivity|]. split; [exact Hn|exact Hrun].
Defined.
