(* ===== verification/AtomicTraits.v ===== *)
(** * The atomic primitives as the trait presents them ([src/atomic/traits.rs])

    [Atomic] and [AtomicPhases] work on the values of an atomic.  The library's
    [BrandedAtomic] is generic: it is written against the traits [Atomic] and
    [AtomicInt], which eleven standard types implement by two macros.  Here the
    traits are type classes, the macros build instances, the branded methods are
    written over the classes ([branded.rs], [branded/integer.rs]), and what they
    rely on is a class of laws which every instance meets.  An atomic is its value
    and the accesses made to it so far, each with the orderings it was made with,
    so that the role in which a method uses its ordering source can be seen.

    Main results: over any primitive that meets the laws, the branded methods are
    those of a register of its values, each atomic method makes one access with
    the orderings documented for it and the plain ones make none; every integer
    read-modify-write is the [fetch_update] of its arithmetic; the eleven
    primitives meet the laws. *)
From S2P Require Import Prelude Atomic.
From stdpp Require Import base numbers list.
Local Open Scope Z_scope.

(** ** [traits.rs] *)

(** [trait Atomic] *)
Class Atomic (A : Type) : Type := {
  Value : Type;
  Value_eq_dec :: EqDecision Value;
  new_atomic : Value -> A;
  atomic_load : Ordering -> M A Value;
  atomic_store : Value -> Ordering -> M A unit;
  atomic_swap : Value -> Ordering -> M A Value;
  atomic_compare_exchange : Value -> Value -> Ordering -> Ordering -> M A (Value + Value);
  (* what is done through the reference, or the pointer *)
  atomic_get_mut : forall {R}, M Value R -> M A R;
  atomic_into_inner : A -> Value;
  value_ptr : forall {R}, M Value R -> M A R;
  atomic_fetch_update : forall {St}, Ordering -> Ordering -> (Value -> M St (option Value)) ->
    nat -> list (attempt Value) -> A -> St -> option (outcome (Value + Value) * (A * St))
}.
Arguments Value A {_}.

(** [trait AtomicInt: Atomic] *)
Class AtomicInt (A : Type) `{Atomic A} : Type := {
  atomic_fetch_add : Value A -> Ordering -> M A (Value A);
  atomic_fetch_sub : Value A -> Ordering -> M A (Value A);
  atomic_fetch_and : Value A -> Ordering -> M A (Value A);
  atomic_fetch_or : Value A -> Ordering -> M A (Value A);
  atomic_fetch_xor : Value A -> Ordering -> M A (Value A);
  atomic_fetch_nand : Value A -> Ordering -> M A (Value A);
  atomic_fetch_max : Value A -> Ordering -> M A (Value A);
  atomic_fetch_min : Value A -> Ordering -> M A (Value A)
}.

(** What the memory sees of a method: the kind of access and its orderings. *)
Inductive access : Type :=
| Loaded (order : Ordering)
| Stored (order : Ordering)
| Swapped (order : Ordering)
| Compared (success failure : Ordering)
| Updated (set_order fetch_order : Ordering)
| Fetched (order : Ordering).

(** A standard atomic type: its value, and the accesses made to it. *)
Section impl_atomic_base.
Context {A V : Type} `{EqDecision V} (atomic : V -> list access -> A) (value : A -> V)
  (accesses : A -> list access).

(** A plain access to the value, and an atomic one; one that panics, its ordering
    being rejected, is not made. *)
Definition plainly {R} (f : M V R) : M A R := fun a =>
  let '(o, v) := f (value a) in (o, atomic v (accesses a)).
Definition accessed {R} (e : access) (f : M V R) : M A R := fun a =>
  let '(o, v) := f (value a) in
  (o, atomic v (if is_ret o then accesses a ++ [e] else accesses a)).

(** The accesses of [fetch_update], as one. *)
Definition update_accesses (set_order fetch_order : Ordering) : list access :=
  if rejects_load fetch_order then [] else [Updated set_order fetch_order].

(** [impl_atomic_base!] *)
Definition impl_atomic_base : Atomic A :=
  {| new_atomic v := atomic (Atomic.new_atomic v) [];
     atomic_load order := accessed (Loaded order) (Atomic.atomic_load order);
     atomic_store v order := accessed (Stored order) (Atomic.atomic_store v order);
     atomic_swap v order := accessed (Swapped order) (Atomic.atomic_swap v order);
     atomic_compare_exchange current new success failure :=
       accessed (Compared success failure) (Atomic.atomic_compare_exchange current new success failure);
     atomic_get_mut R f := plainly (Atomic.atomic_get_mut f);
     atomic_into_inner a := Atomic.atomic_into_inner (value a);
     value_ptr R f := plainly (Atomic.value_ptr f);
     atomic_fetch_update St set_order fetch_order f fuel env a st :=
       '(o, (v, st)) ← Atomic.atomic_fetch_update f set_order fetch_order fuel env (value a) st;
       Some (o, (atomic v (accesses a ++ update_accesses set_order fetch_order), st)) |}.
End impl_atomic_base.

(** The standard types; an atomic integer carries its width. *)
Record atomic_int (t : int_type) : Type := mkAtomicInt { int_value : Z; int_accesses : list access }.
Arguments mkAtomicInt {t}.
Arguments int_value {t}.
Arguments int_accesses {t}.
Record AtomicBool : Type := mkAtomicBool { bool_value : bool; bool_accesses : list access }.

#[export] Instance int_base t : Atomic (atomic_int t) := impl_atomic_base mkAtomicInt int_value int_accesses.

(** [impl_atomic_int!] *)
#[export] Instance impl_atomic_int t : AtomicInt (atomic_int t) :=
  let int (op : Z -> Ordering -> M Z Z) (v : Z) (order : Ordering) :=
    accessed mkAtomicInt int_value int_accesses (Fetched order) (op v order) in
  @Build_AtomicInt (atomic_int t) (int_base t)
    (int (Atomic.atomic_fetch_add t)) (int (Atomic.atomic_fetch_sub t)) (int (Atomic.atomic_fetch_and t))
    (int (Atomic.atomic_fetch_or t)) (int (Atomic.atomic_fetch_xor t)) (int (Atomic.atomic_fetch_nand t))
    (int Atomic.atomic_fetch_max) (int Atomic.atomic_fetch_min).

(** The invocations of the macros, with 64-bit pointers. *)
Definition AtomicUsize : Type := atomic_int (mkInt false 64).
Definition AtomicIsize : Type := atomic_int (mkInt true 64).
Definition AtomicU32 : Type := atomic_int (mkInt false 32).
Definition AtomicI32 : Type := atomic_int (mkInt true 32).
Definition AtomicU64 : Type := atomic_int (mkInt false 64).
Definition AtomicI64 : Type := atomic_int (mkInt true 64).
Definition AtomicU8 : Type := atomic_int (mkInt false 8).
Definition AtomicI8 : Type := atomic_int (mkInt true 8).
Definition AtomicU16 : Type := atomic_int (mkInt false 16).
Definition AtomicI16 : Type := atomic_int (mkInt true 16).
#[export] Instance AtomicBool_atomic : Atomic AtomicBool :=
  impl_atomic_base mkAtomicBool bool_value bool_accesses.

(** ** [branded.rs], [branded/integer.rs] *)

(** [BrandedAtomic<'brand, A>]: [#[repr(transparent)]] over its [inner]. *)
Module BrandedAtomic.
Record t (A : Type) : Type := mk { inner : A }.
Arguments mk {A}.
Arguments inner {A}.

Section methods.
Context {A : Type} `{Atomic A}.

Definition on_inner {R} (f : M A R) : M (t A) R := fun b =>
  let '(o, a) := f (inner b) in (o, mk a).

Definition new (value : Value A) : t A := mk (new_atomic value).
Definition from_mut {R} (f : M (t A) R) : M A R := fun atomic =>
  let '(o, b) := f (mk atomic) in (o, inner b).
Definition as_atomic {R} (f : M A R) : M (t A) R := on_inner f.
Definition as_atomic_mut {R} (f : M A R) : M (t A) R := on_inner f.
Definition with_exclusive {R} (f : M (Value A) R) : M (t A) R := on_inner (value_ptr f).
Definition load_exclusive : M (t A) (Value A) := with_exclusive (fun v => (Ret v, v)).
Definition store_exclusive (value : Value A) : M (t A) unit := with_exclusive (fun _ => (Ret tt, value)).
Definition get_mut {R} (f : M (Value A) R) : M (t A) R := on_inner (atomic_get_mut f).
Definition into_inner (b : t A) : Value A := atomic_into_inner (inner b).

(** The bodies, for both kinds of ordering source. *)
Section ordered.
Context {P : Type} `{OrderingSource P}.

Definition load_ordered (order : P) : M (t A) (Value A) := on_inner (atomic_load (load_order order)).
Definition store_ordered (value : Value A) (order : P) : M (t A) unit :=
  on_inner (atomic_store value (store_order order)).
Definition swap_ordered (value : Value A) (order : P) : M (t A) (Value A) :=
  on_inner (atomic_swap value (rmw_order order)).
Definition compare_exchange_ordered (current new : Value A) (success failure : P)
    : M (t A) (Value A + Value A) :=
  on_inner (atomic_compare_exchange current new (rmw_order success) (failure_order failure)).
Definition fetch_update_ordered {St} (set_order fetch_order : P)
    (f : Value A -> M St (option (Value A))) (fuel : nat) (env : list (attempt (Value A)))
    (b : t A) (st : St) : option (outcome (Value A + Value A) * (t A * St)) :=
  '(o, (a, st)) ← atomic_fetch_update (rmw_order set_order) (failure_order fetch_order) f fuel env (inner b) st;
  Some (o, (mk a, st)).
End ordered.

(** [order_pair!]: each method with a run-time ordering and with a policy. *)
Definition load (order : Ordering) := load_ordered order.
Definition load_with {P} `{AtomicOrder P} (order : P) := load_ordered order.
Definition store (value : Value A) (order : Ordering) := store_ordered value order.
Definition store_with {P} `{AtomicOrder P} (value : Value A) (order : P) := store_ordered value order.
Definition swap (value : Value A) (order : Ordering) := swap_ordered value order.
Definition swap_with {P} `{AtomicOrder P} (value : Value A) (order : P) := swap_ordered value order.
Definition compare_exchange (current new : Value A) (success failure : Ordering) :=
  compare_exchange_ordered current new success failure.
Definition compare_exchange_with {P} `{AtomicOrder P} (current new : Value A) (order : P) :=
  compare_exchange_ordered current new order order.
Definition fetch_update {St} (set_order fetch_order : Ordering)
    (f : Value A -> M St (option (Value A))) := fetch_update_ordered set_order fetch_order f.
Definition fetch_update_with {P} `{AtomicOrder P} {St} (order : P)
    (f : Value A -> M St (option (Value A))) := fetch_update_ordered order order f.
End methods.

(** The eight methods of integers differ in the primitive they call. *)
Section integer_methods.
Context {A : Type} `{AtomicInt A} {P : Type} `{OrderingSource P}.

Inductive fetch_op : Type := Add | Sub | And | Or | Xor | Nand | Max | Min.

Definition primitive (op : fetch_op) : Value A -> Ordering -> M A (Value A) :=
  match op with
  | Add => atomic_fetch_add | Sub => atomic_fetch_sub | And => atomic_fetch_and | Or => atomic_fetch_or
  | Xor => atomic_fetch_xor | Nand => atomic_fetch_nand | Max => atomic_fetch_max | Min => atomic_fetch_min
  end.

Definition fetch (op : fetch_op) (value : Value A) (order : P) : M (t A) (Value A) :=
  on_inner (primitive op value (rmw_order order)).
End integer_methods.
End BrandedAtomic.
Import BrandedAtomic.

(** The policies: the trait is sealed. *)
Inductive policy : Type := UseRelaxed | UseAcqRel | UseSeqCst.

Definition with_policy {R} (p : policy) (k : forall P, AtomicOrder P -> P -> R) : R :=
  match p with
  | UseRelaxed => k Relaxed _ mkRelaxed
  | UseAcqRel => k AcqRel _ mkAcqRel
  | UseSeqCst => k SeqCst _ mkSeqCst
  end.

(** Calls of the branded methods.  [Rebranded]: the call is made after the inner
    atomic was borrowed with [as_atomic_mut] and branded again with [from_mut]. *)
Inductive bcall (V : Type) : Type :=
| Load (order : Ordering)
| LoadWith (p : policy)
| Store (value : V) (order : Ordering)
| StoreWith (value : V) (p : policy)
| Swap (value : V) (order : Ordering)
| SwapWith (value : V) (p : policy)
| CompareExchange (current new : V) (success failure : Ordering)
| CompareExchangeWith (current new : V) (p : policy)
| FetchUpdate (set_order fetch_order : Ordering) (f : V -> outcome (option V))
| FetchUpdateWith (p : policy) (f : V -> outcome (option V))
| LoadExclusive
| StoreExclusive (value : V)
| WithExclusive (f : M V V)
| GetMut (f : M V V)
| Rebranded (c : bcall V).
Arguments Load {V}.
Arguments LoadWith {V}.
Arguments Store {V}.
Arguments StoreWith {V}.
Arguments Swap {V}.
Arguments SwapWith {V}.
Arguments CompareExchange {V}.
Arguments CompareExchangeWith {V}.
Arguments FetchUpdate {V}.
Arguments FetchUpdateWith {V}.
Arguments LoadExclusive {V}.
Arguments StoreExclusive {V}.
Arguments WithExclusive {V}.
Arguments GetMut {V}.
Arguments Rebranded {V}.

Inductive breply (V : Type) : Type := Done | Got (v : V) | Exchanged (r : V + V).
Arguments Done {V}.
Arguments Got {V}.
Arguments Exchanged {V}.

(** The closure of a [fetch_update] that nothing interferes with. *)
Definition stateless {V} (f : V -> outcome (option V)) : V -> M unit (option V) := fun v u => (f v, u).

(** A call of [fetch_update] that is given the fuel of one attempt. *)
Definition once {A} `{Atomic A}
    (update : nat -> list (attempt (Value A)) -> t A -> unit ->
              option (outcome (Value A + Value A) * (t A * unit)))
    : M (t A) (breply (Value A)) := fun b =>
  match update 1%nat [] b tt with
  | Some (Ret r, (b, _)) => (Ret (Exchanged r), b)
  | Some (Panic p, (b, _)) => (Panic p, b)
  | Some (UB, (b, _)) => (UB, b)
  | None => (UB, b)
  end.

Fixpoint bexec {A} `{Atomic A} (c : bcall (Value A)) : M (t A) (breply (Value A)) :=
  match c with
  | Load order => v ← load order; mret (Got v)
  | LoadWith p => v ← with_policy p (fun P _ order => load_with order); mret (Got v)
  | Store value order => _ ← store value order; mret Done
  | StoreWith value p => _ ← with_policy p (fun P _ order => store_with value order); mret Done
  | Swap value order => v ← swap value order; mret (Got v)
  | SwapWith value p => v ← with_policy p (fun P _ order => swap_with value order); mret (Got v)
  | CompareExchange current new success failure =>
      r ← compare_exchange current new success failure; mret (Exchanged r)
  | CompareExchangeWith current new p =>
      r ← with_policy p (fun P _ order => compare_exchange_with current new order); mret (Exchanged r)
  | FetchUpdate set_order fetch_order f => once (fetch_update set_order fetch_order (stateless f))
  | FetchUpdateWith p f => once (with_policy p (fun P _ order => fetch_update_with order (stateless f)))
  | LoadExclusive => v ← load_exclusive; mret (Got v)
  | StoreExclusive value => _ ← store_exclusive value; mret Done
  | WithExclusive f => v ← with_exclusive f; mret (Got v)
  | GetMut f => v ← get_mut f; mret (Got v)
  | Rebranded c => as_atomic_mut (from_mut (bexec c))
  end.

(** One call after the other; one that panics ends nothing but itself. *)
Fixpoint bexec_all {A} `{Atomic A} (cs : list (bcall (Value A))) (b : t A)
    : list (outcome (breply (Value A))) * t A :=
  match cs with
  | [] => ([], b)
  | c :: cs =>
      let '(o, b) := bexec c b in
      let '(os, b) := bexec_all cs b in
      (o :: os, b)
  end.

(** ** Specification *)

(** The standard methods on the value and the list of accesses made so far. *)
Definition traced {V R} (e : access) (f : M V R) : M (V * list access) R := fun '(v, l) =>
  let '(o, v) := f v in (o, (v, if is_ret o then l ++ [e] else l)).
Definition untraced {V R} (f : M V R) : M (V * list access) R := fun '(v, l) =>
  let '(o, v) := f v in (o, (v, l)).

(** What a primitive promises: it holds a value, each method does to it what the
    standard atomic does, and each atomic one is an access with the orderings it
    is given. *)
Definition acts {A T R} (state : A -> T) (f : M A R) (g : M T R) : Prop :=
  forall a, fst (f a) = fst (g (state a)) /\ state (snd (f a)) = snd (g (state a)).

Class AtomicLaws (A : Type) `{Atomic A} : Type := {
  state_of : A -> Value A * list access;
  state_of_new v : state_of (new_atomic v) = (v, []);
  state_of_into_inner a : atomic_into_inner a = fst (state_of a);
  load_acts order : acts state_of (atomic_load order) (traced (Loaded order) (Atomic.atomic_load order));
  store_acts v order :
    acts state_of (atomic_store v order) (traced (Stored order) (Atomic.atomic_store v order));
  swap_acts v order : acts state_of (atomic_swap v order) (traced (Swapped order) (Atomic.atomic_swap v order));
  compare_exchange_acts current new success failure :
    acts state_of (atomic_compare_exchange current new success failure)
      (traced (Compared success failure) (Atomic.atomic_compare_exchange current new success failure));
  get_mut_acts {R} (f : M (Value A) R) : acts state_of (atomic_get_mut f) (untraced f);
  value_ptr_acts {R} (f : M (Value A) R) : acts state_of (value_ptr f) (untraced f);
  fetch_update_acts {St} set_order fetch_order (f : Value A -> M St (option (Value A))) fuel env a st :
    match Atomic.atomic_fetch_update f set_order fetch_order fuel env (fst (state_of a)) st with
    | Some (o, (v, st')) =>
        exists a', atomic_fetch_update set_order fetch_order f fuel env a st = Some (o, (a', st')) /\
          state_of a' = (v, snd (state_of a) ++ update_accesses set_order fetch_order)
    | None => atomic_fetch_update set_order fetch_order f fuel env a st = None
    end
}.

(** The orderings a policy is documented to stand for, by the role of the access. *)
Inductive role : Type := Loading | Storing | Updating | Failing.

Definition documented (p : policy) (r : role) : Ordering :=
  match p, r with
  | UseRelaxed, _ => Ordering.Relaxed
  | UseAcqRel, (Loading | Failing) => Ordering.Acquire
  | UseAcqRel, Storing => Ordering.Release
  | UseAcqRel, Updating => Ordering.AcqRel
  | UseSeqCst, _ => Ordering.SeqCst
  end.

(** A register of [V] with the accesses made to it.  A run-time ordering that the
    kind of access does not allow panics and nothing happens; a policy never does. *)
Definition compare_and_set {V} `{EqDecision V} (current new v : V) : outcome (breply V) * V :=
  if decide (v = current) then (Ret (Exchanged (inl v)), new) else (Ret (Exchanged (inr v)), v).
Definition update_with {V} (f : V -> outcome (option V)) (v : V) : outcome (breply V) * V :=
  match f v with
  | Ret (Some new) => (Ret (Exchanged (inl v)), new)
  | Ret None => (Ret (Exchanged (inr v)), v)
  | Panic p => (Panic p, v)
  | UB => (UB, v)
  end.
Definition change {V} (f : M V V) (v : V) : outcome (breply V) * V :=
  match f v with
  | (Ret x, v) => (Ret (Got x), v)
  | (Panic p, v) => (Panic p, v)
  | (UB, v) => (UB, v)
  end.

Definition refused {V} (v : V) : outcome (breply V) * V * list access := (Panic OrderingPanic, v, []).

Fixpoint register_call {V} `{EqDecision V} (c : bcall V) (v : V) : outcome (breply V) * V * list access :=
  match c with
  | Load order => if rejects_load order then refused v else (Ret (Got v), v, [Loaded order])
  | LoadWith p => (Ret (Got v), v, [Loaded (documented p Loading)])
  | Store value order => if rejects_store order then refused v else (Ret Done, value, [Stored order])
  | StoreWith value p => (Ret Done, value, [Stored (documented p Storing)])
  | Swap value order => (Ret (Got v), value, [Swapped order])
  | SwapWith value p => (Ret (Got v), value, [Swapped (documented p Updating)])
  | CompareExchange current new success failure =>
      if rejects_load failure then refused v
      else (compare_and_set current new v, [Compared success failure])
  | CompareExchangeWith current new p =>
      (compare_and_set current new v, [Compared (documented p Updating) (documented p Failing)])
  | FetchUpdate set_order fetch_order f =>
      if rejects_load fetch_order then refused v else (update_with f v, [Updated set_order fetch_order])
  | FetchUpdateWith p f => (update_with f v, [Updated (documented p Updating) (documented p Failing)])
  | LoadExclusive => (Ret (Got v), v, [])
  | StoreExclusive value => (Ret Done, value, [])
  | WithExclusive f | GetMut f => (change f v, [])
  | Rebranded c => register_call c v
  end.

Fixpoint register_calls {V} `{EqDecision V} (cs : list (bcall V)) (v : V)
    : list (outcome (breply V)) * V * list access :=
  match cs with
  | [] => ([], v, [])
  | c :: cs =>
      let '(o, v, l) := register_call c v in
      let '(os, v, l') := register_calls cs v in
      (o :: os, v, l ++ l')
  end.

(** What the integer operations do to a value. *)
Definition arithmetic (t : int_type) (op : fetch_op) (v x : Z) : Z :=
  match op with
  | Add => wrap t (v + x) | Sub => wrap t (v - x)
  | And => wrap t (Z.land v x) | Or => wrap t (Z.lor v x) | Xor => wrap t (Z.lxor v x)
  | Nand => wrap t (Z.lnot (Z.land v x)) | Max => Z.max v x | Min => Z.min v x
  end.

(** ** Lemmas *)

Section laws.
Context {A : Type} `{Atomic A} (L : AtomicLaws A).
Implicit Types (b : t A) (c : bcall (Value A)).

(** The value of a branded atomic, with the accesses made to it. *)
Definition content b : Value A * list access := state_of (inner b).

Lemma on_inner_acts {R} (f : M A R) (g : M (Value A * list access) R) :
  acts state_of f g -> acts content (on_inner f) g.
Proof using. intros Hf [a]. destruct (Hf a) as [E1 E2]. unfold on_inner, content. cbn. by destruct (f a). Qed.

Lemma acts_bind {R R'} (f : M (t A) R) (g : M (Value A * list access) R) (k : R -> R') :
  acts content f g -> acts content (x ← f; mret (k x)) (x ← g; mret (k x)).
Proof using.
  intros Hf b. destruct (Hf b) as [E1 E2]. rewrite !M_bind_eq.
  destruct (f b) as [o b'], (g (content b)) as [o' v']. cbn in *. subst. by destruct o'.
Qed.

(** A register's call, on the value and the accesses so far. *)
Definition appends (g : Value A -> outcome (breply (Value A)) * Value A * list access)
    : M (Value A * list access) (breply (Value A)) := fun '(v, l) =>
  let '(o, v, l') := g v in (o, (v, l ++ l')).

Lemma acts_eq {R} (f : M (t A) R) (g g' : M (Value A * list access) R) :
  acts content f g -> (forall v l, g (v, l) = g' (v, l)) -> acts content f g'.
Proof using. intros Hf Hg b. destruct (content b) as [v l] eqn:E. rewrite <- Hg, <- E. apply Hf. Qed.

Lemma rebranded_acts {R} (f : M (t A) R) (g : M (Value A * list access) R) :
  acts content f g -> acts content (as_atomic_mut (from_mut f)) g.
Proof using.
  intros Hf [a]. destruct (Hf (mk a)) as [E1 E2]. unfold as_atomic_mut, on_inner, from_mut. cbn in *.
  destruct (f (mk a)) as [o [a']]. by cbn in *.
Qed.

Lemma update_acts {P} `{OrderingSource P} (set_order fetch_order : P)
    (f : Value A -> outcome (option (Value A))) :
  acts content (once (fetch_update_ordered set_order fetch_order (stateless f)))
    (appends (fun v => if rejects_load (failure_order fetch_order) then refused v
                       else (update_with f v, [Updated (rmw_order set_order) (failure_order fetch_order)]))).
Proof using.
  intros [a]. unfold once, fetch_update_ordered, content, appends, update_with. cbn [inner].
  pose proof (fetch_update_acts (AtomicLaws := L) (rmw_order set_order) (failure_order fetch_order)
    (stateless f) 1 [] a tt) as Hf.
  destruct (state_of a) as [v l]. unfold Atomic.atomic_fetch_update, Atomic.atomic_load, update_accesses in Hf.
  cbn in Hf |- *.
  destruct (rejects_load (failure_order fetch_order)) eqn:Eo;
    [by destruct Hf as (a' & -> & Ea); cbn; rewrite Ea|].
  cbn in Hf. destruct (f v) as [[x|]|p|]; cbn in Hf;
    [|by destruct Hf as (a' & -> & Ea); cbn; rewrite Ea..].
  unfold Atomic.atomic_compare_exchange in Hf. rewrite Eo, decide_True in Hf by done.
  destruct Hf as (a' & -> & Ea). cbn. by rewrite Ea.
Qed.

(** The primitives that a method calls, and the register's answer. *)
Ltac solve_acts :=
  eapply acts_eq;
    [apply acts_bind, on_inner_acts;
       first [apply (load_acts (AtomicLaws := L)) | apply (store_acts (AtomicLaws := L))
             |apply (swap_acts (AtomicLaws := L)) | apply (compare_exchange_acts (AtomicLaws := L))
             |apply (value_ptr_acts (AtomicLaws := L)) | apply (get_mut_acts (AtomicLaws := L))]
    |intros v l; rewrite M_bind_eq; cbn;
     unfold Atomic.atomic_load, Atomic.atomic_store, Atomic.atomic_swap, Atomic.atomic_compare_exchange,
       compare_and_set, change; cbn; rewrite ?app_nil_r;
     repeat (first [case_match | case_decide]; cbn; simplify_eq/=; rewrite ?app_nil_r); done].

Lemma bexec_acts c : acts content (bexec c) (appends (register_call c)).
Proof using.
  induction c; try by apply rebranded_acts.
  all: try destruct p; cbn [bexec with_policy].
  all: try lazymatch goal with
       | |- acts _ (once (fetch_update ?so ?fo (stateless ?f))) _ => exact (update_acts so fo f)
       | |- acts _ (once (fetch_update_with ?order (stateless ?f))) _ => exact (update_acts order order f)
       end.
  all: solve_acts.
Qed.

Lemma bexec_all_acts (cs : list (bcall (Value A))) b :
  let '(os, v, l) := register_calls cs (fst (content b)) in
  fst (bexec_all cs b) = os /\ content (snd (bexec_all cs b)) = (v, snd (content b) ++ l).
Proof using.
  revert b. induction cs as [|c cs IH]; intros b; cbn.
  { rewrite app_nil_r. split; [done|]. by destruct (content b). }
  destruct (bexec_acts c b) as [E1 E2]. destruct (bexec c b) as [o b1]. unfold appends in E1, E2.
  destruct (content b) as [v l]. cbn [fst snd] in *.
  destruct (register_call c v) as [[o' v1] l1]. cbn in E1, E2. subst.
  specialize (IH b1). rewrite E2 in IH. cbn [fst snd] in IH.
  destruct (bexec_all cs b1) as [os b2], (register_calls cs v1) as [[os' v2] l2]. cbn in *.
  destruct IH as [-> ->]. by rewrite app_assoc.
Qed.
End laws.

(** The instances the macros make meet the laws. *)
Section wrapper.
Context {A V : Type} `{!EqDecision V} (atomic : V -> list access -> A) (value : A -> V)
  (accesses : A -> list access).
Context (Hv : forall v l, value (atomic v l) = v) (Hl : forall v l, accesses (atomic v l) = l).

Local Abbreviation state := (fun a => (value a, accesses a)).

Lemma accessed_acts {R} e (f : M V R) : acts state (accessed atomic value accesses e f) (traced e f).
Proof using Hv Hl.
  intros a. unfold accessed, traced. destruct (f (value a)) as [o v]. cbn. by rewrite Hv, Hl.
Qed.

Lemma plainly_acts {R} (f : M V R) : acts state (plainly atomic value accesses f) (untraced f).
Proof using Hv Hl.
  intros a. unfold plainly, untraced. destruct (f (value a)) as [o v]. cbn. by rewrite Hv, Hl.
Qed.

Definition wrapper_laws : @AtomicLaws A (impl_atomic_base atomic value accesses).
Proof using Hv Hl.
  refine (@Build_AtomicLaws A (impl_atomic_base atomic value accesses) state _ (fun _ => eq_refl) _ _ _ _ _ _ _);
    intros; try apply accessed_acts; try apply plainly_acts.
  - cbn. by rewrite Hv, Hl.
  - cbn. destruct (Atomic.atomic_fetch_update _ _ _ _ _ _ _) as [[o [v st']]|]; [|done].
    eexists. split; [done|]. by rewrite Hv, Hl.
Defined.
End wrapper.

#[export] Instance int_laws t : AtomicLaws (atomic_int t) :=
  wrapper_laws mkAtomicInt int_value int_accesses (fun _ _ => eq_refl) (fun _ _ => eq_refl).
#[export] Instance bool_laws : AtomicLaws AtomicBool :=
  wrapper_laws mkAtomicBool bool_value bool_accesses (fun _ _ => eq_refl) (fun _ _ => eq_refl).

Lemma arithmetic_range t op v x :
  int_type_ok t -> in_range t v -> in_range t x -> in_range t (arithmetic t op v x).
Proof.
  intros Ht Hv Hx. destruct op; cbn; try (by apply wrap_range);
    unfold in_range in *; destruct (signed t); lia.
Qed.

(** ** Properties *)

(** C33: Whatever primitive implements the trait, a branded atomic is a register: over
    any type that meets the laws of [Atomic], calls of the branded methods, with
    run-time orderings and with policies, plain or through the views that brand it
    again, answer as a register of its values that starts at the given value, and
    [into_inner] gives that register's value; a run-time ordering is rejected by a
    panic exactly when its access does not allow it, a policy never is; and each
    atomic method makes one access, with the orderings that its policy documents
    for that kind of access, and the plain ones make none. *)
Theorem branded_is_register {A} `{Atomic A, !AtomicLaws A} (cs : list (bcall (Value A))) (v : Value A) :
  let '(os, b) := bexec_all cs (BrandedAtomic.new v) in
  register_calls cs v = (os, into_inner b, snd (state_of (inner b))).
Proof.
  match goal with L : AtomicLaws A |- _ => pose proof (bexec_all_acts L cs (BrandedAtomic.new v)) as Hc end.
  assert (content _ (BrandedAtomic.new v) = (v, [])) as Ev by apply state_of_new. rewrite Ev in Hc.
  cbn [fst snd app] in Hc. destruct (bexec_all cs (BrandedAtomic.new v)) as [os b]. cbn [fst snd] in Hc.
  destruct (register_calls cs v) as [[os' v'] l].
  destruct Hc as [<- Hc]. unfold into_inner. rewrite state_of_into_inner. unfold content in Hc. by rewrite Hc.
Qed.

(** The integer read-modify-writes are updates: on every integer primitive each
    of the eight methods, with a run-time ordering or a policy, returns the old
    value and leaves what [fetch_update] with the corresponding arithmetic, modulo
    the width, leaves, and this value is one of the type. *)
Theorem integer_methods_are_updates (t : int_type) (op : fetch_op) (v x : Z) {P} `{OrderingSource P}
    (order : P) (set_order fetch_order : Ordering) :
  int_type_ok t -> in_range t v -> in_range t x -> rejects_load fetch_order = false ->
  exists b b', fetch op x order (BrandedAtomic.new (A := atomic_int t) v) = (Ret v, b) /\
    @fetch_update (atomic_int t) (int_base t) unit set_order fetch_order
      (fun old u => (Ret (Some (arithmetic t op old x)), u)) 1 []
      (BrandedAtomic.new (A := atomic_int t) v) tt
    = Some (Ret (inl v), (b', tt)) /\
    into_inner b = arithmetic t op v x /\ into_inner b' = arithmetic t op v x /\
    in_range t (arithmetic t op v x) /\
    int_accesses (inner b) = [Fetched (rmw_order order)].
Proof.
  intros Ht Hv Hx Ho.
  exists (mk (mkAtomicInt (arithmetic t op v x) [Fetched (rmw_order order)])),
    (mk (mkAtomicInt (arithmetic t op v x) [Updated set_order fetch_order])).
  split; [by destruct op|].
  split_and!; [|done|done|by apply arithmetic_range|done].
  unfold fetch_update, fetch_update_ordered. cbn.
  unfold Atomic.atomic_fetch_update, Atomic.atomic_load, update_accesses. cbn. rewrite Ho. cbn.
  unfold Atomic.atomic_compare_exchange. by rewrite Ho, decide_True.
Qed.

Lemma integer_methods_are_updates_witness :
  exists b, fetch (P := AcqRel) Add (100 : Value AtomicI8) mkAcqRel (BrandedAtomic.new (A := AtomicI8) 100) = (Ret 100, b) /\
    into_inner b = -56 /\ int_accesses (inner b) = [Fetched Ordering.AcqRel].
Proof.
  destruct (integer_methods_are_updates (mkInt true 8) Add 100 100 (P := AcqRel) mkAcqRel Ordering.SeqCst Ordering.Relaxed)
    as (b & b' & H & _ & Hb & _ & _ & Ha); [unfold int_type_ok; cbn; lia|unfold in_range; cbn; lia..|done|].
  exists b. split; [exact H|]. split; [exact Hb|exact Ha].
Defined.

(** Calls on a branded [AtomicBool]. *)
Definition bool_calls : list (bcall bool) :=
  [Load Ordering.Relaxed; Store true Ordering.Acquire; SwapWith true UseAcqRel; LoadWith UseAcqRel;
   Rebranded (CompareExchangeWith true false UseAcqRel); LoadExclusive].

Lemma branded_is_register_witness :
  exists os b, bexec_all (A := AtomicBool) bool_calls (BrandedAtomic.new (A := AtomicBool) false) = (os, b) /\
    os = [Ret (Got false); Panic OrderingPanic; Ret (Got false); Ret (Got true);
          Ret (Exchanged (inl true)); Ret (Got false)] /\
    into_inner b = false /\
    bool_accesses (inner b) = [Loaded Ordering.Relaxed; Swapped Ordering.AcqRel; Loaded Ordering.Acquire;
      Compared Ordering.AcqRel Ordering.Acquire].
Proof.
  eexists _, _. split; [reflexivity|]. split; [reflexivity|].
  pose proof (branded_is_register (A := AtomicBool) bool_calls false) as H.
  split; [exact (f_equal (fun x => snd (fst x)) (eq_sym H))|exact (f_equal snd (eq_sym H))].
Defined.
