(* ===== verification/Reentrant.v ===== *)
(** * Re-entrancy gates ([src/reentrant/])

    The gates of one thread: which flags are armed, the contents of the guarded
    cells, and which cells have a live [&mut] into them.  Forming a second
    [&mut] to the contents while one is live in a closure that is still running
    is undefined behaviour.  Client code is a tree of the library's calls, with
    nested closures, panics and [catch_unwind].  Main results: a gate is always
    as it was before once a call is over, also after a panic; an armed gate
    refuses and an idle one runs the closure; a program that keeps the contract
    of [enter_unguarded] never aliases, and without the contract it does. *)
From S2P Require Import Prelude.
From stdpp Require Import base numbers list gmap sets.
Local Open Scope Z_scope.

(** The gates of a thread, by name: [GuardedCell]s and [ReentrancyCell]s. *)
Record gates : Type := mkGates {
  armed : gset positive;          (* [active.get() == true] *)
  live : gset positive;           (* a [&mut] to the contents is live *)
  value : gmap positive Z;        (* contents of the guarded cells *)
  next_brand : positive           (* brands minted so far *)
}.

Inductive Reentered : Type := mkReentered.

(** ** Code *)

(** [active.get()], [active.set(b)] *)
Definition active_get (c : positive) (s : gates) : bool := bool_decide (c ∈ armed s).
Definition active_set (c : positive) (b : bool) (s : gates) : gates :=
  mkGates (if b then {[c]} ∪ armed s else armed s ∖ {[c]}) (live s) (value s) (next_brand s).

(** [Reset::acquire] and [Reset::drop] *)
Definition acquire (c : positive) : M gates (unit + Reentered) := fun s =>
  if active_get c s then (Ret (inr mkReentered), s)
  else (Ret (inl tt), active_set c true s).
Definition reset_drop (c : positive) (s : gates) : gates := active_set c false s.

(** [unsafe { &mut *self.value.get() }] and the end of that borrow. *)
Definition borrow_value (c : positive) : M gates unit := fun s =>
  if decide (c ∈ live s) then (UB, s)
  else (Ret tt, mkGates (armed s) ({[c]} ∪ live s) (value s) (next_brand s)).
Definition end_borrow (c : positive) (s : gates) : gates :=
  mkGates (armed s) (live s ∖ {[c]}) (value s) (next_brand s).

(** [new], on a fresh cell name; [into_inner], [get_mut] and [as_ptr] need or
    prove unique ownership and touch no flag. *)
Definition GuardedCell_new (c : positive) (v : Z) (s : gates) : gates :=
  mkGates (armed s ∖ {[c]}) (live s) (<[c := v]> (value s)) (next_brand s).
Definition into_inner (c : positive) (s : gates) : Z := default 0 (value s !! c).
Definition get_mut (c : positive) (x : Z) (s : gates) : gates :=
  mkGates (armed s) (live s) (<[c := x]> (value s)) (next_brand s).
Definition is_active (c : positive) (s : gates) : bool := active_get c s.

(** [GuardedCell::enter]: the guard is dropped however the closure ends. *)
Definition enter {R} (c : positive) (f : M gates R) : M gates (R + Reentered) := fun s =>
  match acquire c s with
  | (Ret (inr e), s) => (Ret (inr e), s)
  | (Ret (inl _), s) =>
      match borrow_value c s with
      | (Ret _, s) =>
          let '(o, s) := f s in
          let s := reset_drop c (end_borrow c s) in
          match o with
          | Ret r => (Ret (inl r), s)
          | Panic p => (Panic p, s)
          | UB => (UB, s)
          end
      | (Panic p, s) => (Panic p, reset_drop c s)
      | (UB, s) => (UB, s)
      end
  | (Panic p, s) => (Panic p, s)
  | (UB, s) => (UB, s)
  end.

(** [GuardedCell::enter_unguarded]: the flag is only read. *)
Definition enter_unguarded {R} (c : positive) (f : M gates R) : M gates (R + Reentered) := fun s =>
  if active_get c s then (Ret (inr mkReentered), s)
  else match borrow_value c s with
       | (Ret _, s) =>
           let '(o, s) := f s in
           let s := end_borrow c s in
           match o with
           | Ret r => (Ret (inl r), s)
           | Panic p => (Panic p, s)
           | UB => (UB, s)
           end
       | (Panic p, s) => (Panic p, s)
       | (UB, s) => (UB, s)
       end.

(** [ReentrancyCell::enter]: the closure gets the token of a fresh brand. *)
Definition enter_gate {R} (c : positive) (f : positive -> M gates R) : M gates (R + Reentered) :=
  fun s =>
  match acquire c s with
  | (Ret (inr e), s) => (Ret (inr e), s)
  | (Ret (inl _), s) =>
      let brand := next_brand s in
      let '(o, s) := f brand (mkGates (armed s) (live s) (value s) (Pos.succ brand)) in
      let s := reset_drop c s in
      match o with
      | Ret r => (Ret (inl r), s)
      | Panic p => (Panic p, s)
      | UB => (UB, s)
      end
  | (Panic p, s) => (Panic p, s)
  | (UB, s) => (UB, s)
  end.

(** ** Client programs *)

Inductive prog : Type :=
| Done (r : Z)
| Throw (p : panic_payload)
| Enter (c : positive) (body : prog) (k : Z + Reentered -> prog)
| EnterUnguarded (c : positive) (body : prog) (k : Z + Reentered -> prog)
| EnterGate (c : positive) (body : positive -> prog) (k : Z + Reentered -> prog)
| IsActive (c : positive) (k : bool -> prog)
| Load (c : positive) (k : Z -> prog)          (* through the closure's [&mut] *)
| Store (c : positive) (x : Z) (k : prog)
| CatchUnwind (body : prog) (k : Z + panic_payload -> prog).

Fixpoint run (p : prog) : M gates Z :=
  match p with
  | Done r => mret r
  | Throw q => fun s => (Panic q, s)
  | Enter c body k => r ← enter c (run body); run (k r)
  | EnterUnguarded c body k => r ← enter_unguarded c (run body); run (k r)
  | EnterGate c body k => r ← enter_gate c (fun b => run (body b)); run (k r)
  | IsActive c k => fun s => run (k (is_active c s)) s
  | Load c k => fun s => run (k (default 0 (value s !! c))) s
  | Store c x k => fun s => run k (get_mut c x s)
  | CatchUnwind body k => fun s =>
      match run body s with
      | (Ret r, s) => run (k (inl r)) s
      | (Panic q, s) => run (k (inr q)) s
      | (UB, s) => (UB, s)
      end
  end.

(** The safety contract of [enter_unguarded]: its closure does not, directly or
    transitively, enter the cell.  [u]: the cells whose unguarded closure is
    running. *)
Fixpoint contract (u : gset positive) (p : prog) : Prop :=
  match p with
  | Done _ | Throw _ => True
  | Enter c body k => c ∉ u /\ contract u body /\ forall r, contract u (k r)
  | EnterUnguarded c body k => c ∉ u /\ contract ({[c]} ∪ u) body /\ forall r, contract u (k r)
  | EnterGate c body k => (forall b, contract u (body b)) /\ forall r, contract u (k r)
  | IsActive c k => forall b, contract u (k b)
  | Load c k => forall x, contract u (k x)
  | Store c x k => contract u k
  | CatchUnwind body k => contract u body /\ forall r, contract u (k r)
  end.

(** Safe code has no unguarded entry. *)
Fixpoint safe (p : prog) : Prop :=
  match p with
  | Done _ | Throw _ => True
  | Enter c body k => safe body /\ forall r, safe (k r)
  | EnterUnguarded _ _ _ => False
  | EnterGate c body k => (forall b, safe (body b)) /\ forall r, safe (k r)
  | IsActive c k => forall b, safe (k b)
  | Load c k => forall x, safe (k x)
  | Store c x k => safe k
  | CatchUnwind body k => safe body /\ forall r, safe (k r)
  end.

(** Every live [&mut] is announced by its flag, or is an unguarded one. *)
Definition announced (u : gset positive) (s : gates) : Prop := live s ⊆ armed s ∪ u.

(** The gates are as before. *)
Definition same_gates (s s' : gates) : Prop := armed s' = armed s /\ live s' = live s.

(** ** Lemmas *)

Lemma same_gates_refl s : same_gates s s.
Proof. done. Qed.

Lemma same_gates_trans s1 s2 s3 : same_gates s1 s2 -> same_gates s2 s3 -> same_gates s1 s3.
Proof. unfold same_gates. intuition congruence. Qed.

Lemma announced_same u s s' : same_gates s s' -> announced u s -> announced u s'.
Proof. unfold announced. by intros [-> ->]. Qed.

#[export] Hint Resolve same_gates_refl : mel.

(** A computation that respects the gates: no undefined behaviour, and
    everything released, whatever the outcome. *)
Definition respects {R} (u : gset positive) (f : M gates R) : Prop :=
  forall s, announced u s -> fst (f s) <> UB /\ same_gates s (snd (f s)).

Lemma respects_bind {R R'} u (f : M gates R) (k : R -> M gates R') :
  respects u f -> (forall r, respects u (k r)) -> respects u (f ≫= k).
Proof.
  intros Hf Hk s Ha. rewrite M_bind_eq. destruct (Hf s Ha) as [Hd Hs].
  destruct (f s) as [[r|p|] s1]; cbn in *; [|by split|done].
  destruct (Hk r s1) as [Hd' Hs']; [by eapply announced_same|].
  split; [done|]. by eapply same_gates_trans.
Qed.

Lemma set_release (a : gset positive) (c : positive) : c ∉ a -> ({[c]} ∪ a) ∖ {[c]} = a.
Proof. set_solver. Qed.

Lemma respects_enter {R} u c (f : M gates R) :
  c ∉ u -> respects u f -> respects u (enter c f).
Proof.
  intros Hc Hf s Ha. unfold enter, acquire, active_get.
  case_bool_decide as Hact; [by split; [|apply same_gates_refl]|].
  assert (c ∉ live s) as Hl by (unfold announced in Ha; set_solver).
  unfold borrow_value, active_set; cbn. rewrite decide_False by done.
  match goal with |- context [f ?s1] => destruct (Hf s1) as [Hd [Hsa Hsl]] end.
  { unfold announced in *; cbn. set_solver. }
  destruct (f _) as [[r|p|] s1]; cbn in *; [| |done];
    (split; [done|]); split; cbn; rewrite ?Hsa, ?Hsl; by apply set_release.
Qed.

Lemma respects_enter_unguarded {R} u c (f : M gates R) :
  c ∉ u -> respects ({[c]} ∪ u) f -> respects u (enter_unguarded c f).
Proof.
  intros Hc Hf s Ha. unfold enter_unguarded, active_get.
  case_bool_decide as Hact; [by split; [|apply same_gates_refl]|].
  assert (c ∉ live s) as Hl by (unfold announced in Ha; set_solver).
  unfold borrow_value; cbn. rewrite decide_False by done.
  match goal with |- context [f ?s1] => destruct (Hf s1) as [Hd [Hsa Hsl]] end.
  { unfold announced in *; cbn. set_solver. }
  destruct (f _) as [[r|p|] s1]; cbn in *; [| |done];
    (split; [done|]); split; cbn; rewrite ?Hsa, ?Hsl; [done|by apply set_release|done|by apply set_release].
Qed.

Lemma respects_enter_gate {R} u c (f : positive -> M gates R) :
  (forall b, respects u (f b)) -> respects u (enter_gate c f).
Proof.
  intros Hf s Ha. unfold enter_gate, acquire, active_get.
  case_bool_decide as Hact; [by split; [|apply same_gates_refl]|]. unfold active_set; cbn.
  match goal with |- context [f ?b ?s1] => destruct (Hf b s1) as [Hd [Hsa Hsl]] end.
  { unfold announced in *; cbn. set_solver. }
  destruct (f _ _) as [[r|p|] s1]; cbn in *; [| |done];
    (split; [done|]); split; cbn; rewrite ?Hsa, ?Hsl; [by apply set_release|done|by apply set_release|done].
Qed.

Lemma run_respects p u : contract u p -> respects u (run p).
Proof.
  revert u. induction p as [r|q|c body IHb k IHk|c body IHb k IHk|c body IHb k IHk|c k IHk|c k IHk
    |c x k IHk|body IHb k IHk]; intros u Hc; cbn in Hc.
  - by intros s Ha.
  - by intros s Ha.
  - destruct Hc as (Hu & Hb & Hk). apply respects_bind; [apply respects_enter; auto|auto].
  - destruct Hc as (Hu & Hb & Hk). apply respects_bind; [apply respects_enter_unguarded; auto|auto].
  - destruct Hc as (Hb & Hk). apply respects_bind; [apply respects_enter_gate; auto|auto].
  - intros s Ha. exact (IHk (is_active c s) u (Hc _) s Ha).
  - intros s Ha. exact (IHk (default 0 (value s !! c)) u (Hc _) s Ha).
  - intros s Ha. destruct (IHk u Hc (get_mut c x s)) as [? [? ?]]; [done|].
    by split; [|split].
  - destruct Hc as (Hb & Hk). intros s Ha. cbn. destruct (IHb u Hb s Ha) as [Hd Hs].
    destruct (run body s) as [[r|q|] s1]; cbn in *; [| |done].
    + destruct (IHk (inl r) u (Hk (inl r)) s1) as [? ?]; [by eapply announced_same|].
      split; [done|by eapply same_gates_trans].
    + destruct (IHk (inr q) u (Hk (inr q)) s1) as [? ?]; [by eapply announced_same|].
      split; [done|by eapply same_gates_trans].
Qed.

Lemma safe_contract p : safe p -> contract ∅ p.
Proof.
  induction p as [r|q|c body IHb k IHk|c body IHb k IHk|c body IHb k IHk|c k IHk|c k IHk
    |c x k IHk|body IHb k IHk]; cbn;
    [done|done| |done|..]; [intros [? ?]; split; [set_solver|auto]|..]; try (intros [? ?]); auto.
Qed.

(** The state inside a guarded and an unguarded entry. *)
Definition inside (c : positive) (s : gates) : gates :=
  mkGates ({[c]} ∪ armed s) ({[c]} ∪ live s) (value s) (next_brand s).
Definition inside_unguarded (c : positive) (s : gates) : gates :=
  mkGates (armed s) ({[c]} ∪ live s) (value s) (next_brand s).

Section entries.
Context {R : Type} (c : positive) (f : M gates R) (s : gates).

Lemma enter_idle : c ∉ armed s -> c ∉ live s ->
  enter c f s = (inl <$> fst (f (inside c s)), reset_drop c (end_borrow c (snd (f (inside c s))))).
Proof using.
  intros Ha Hl. unfold enter, acquire, active_get. rewrite bool_decide_false by done.
  unfold borrow_value; cbn. rewrite decide_False by done. fold (inside c s).
  by destruct (f (inside c s)) as [[]].
Qed.

Lemma enter_unguarded_idle : c ∉ armed s -> c ∉ live s ->
  enter_unguarded c f s =
  (inl <$> fst (f (inside_unguarded c s)), end_borrow c (snd (f (inside_unguarded c s)))).
Proof using.
  intros Ha Hl. unfold enter_unguarded, active_get. rewrite bool_decide_false by done.
  unfold borrow_value; cbn. rewrite decide_False by done. fold (inside_unguarded c s).
  by destruct (f (inside_unguarded c s)) as [[]].
Qed.

Lemma enter_aliased : c ∉ armed s -> c ∈ live s ->
  fst (enter c f s) = UB /\ fst (enter_unguarded c f s) = UB.
Proof using.
  intros Ha Hl. unfold enter, enter_unguarded, acquire, active_get.
  rewrite bool_decide_false by done. unfold borrow_value; cbn. by rewrite !decide_True by done.
Qed.
End entries.

(** Undefined behaviour is final. *)
Lemma bind_UB {S A B} (c : M S A) (k : A -> M S B) s :
  fst (c s) = UB -> fst ((c ≫= k) s) = UB.
Proof. rewrite M_bind_eq. by destruct (c s) as [[]]. Qed.

(** ** Properties *)

(** C38: A program that keeps the contract of [enter_unguarded] (in particular
    any safe program) never has two live [&mut] to the contents of a cell, and
    whether it returns or panics every gate is afterwards armed or idle, and
    every cell borrowed or free, exactly as before: a panic cannot poison one. *)
Theorem gates_never_alias (u : gset positive) (p : prog) (s : gates) :
  announced u s -> contract u p \/ (u = ∅ /\ safe p) ->
  fst (run p s) <> UB /\ same_gates s (snd (run p s)).
Proof.
  intros Ha [Hc|[-> Hs]]; [exact (run_respects p u Hc s Ha)|].
  exact (run_respects p ∅ (safe_contract p Hs) s Ha).
Qed.

(** An idle thread whose cell [1] holds [7]. *)
Definition idle_gates : gates := mkGates ∅ ∅ {[1%positive := 7]} 1.

(** Two nested cells, a refused re-entry, and a panic out of both. *)
Definition nested_panic : prog :=
  Enter 1 (EnterUnguarded 2 (Enter 1 (Done 0)
    (fun r => match r with inr _ => Throw (UserPanic 5) | inl _ => Done 1 end)) (fun _ => Done 2))
    (fun _ => Done 3).

Lemma gates_never_alias_witness :
  run nested_panic idle_gates = (Panic (UserPanic 5), idle_gates) /\
  same_gates idle_gates (snd (run nested_panic idle_gates)).
Proof.
  split; [reflexivity|].
  apply (gates_never_alias ∅ nested_panic idle_gates); [intros c Hc; by apply not_elem_of_empty in Hc|].
  left. cbn. split; [set_solver|]. split; [|done]. split; [set_solver|]. split; [|done].
  split; [set_solver|]. split; [done|]. by intros [|].
Defined.

(** [enter] at the boundary: while the gate is armed it refuses with
    [Reentered], runs nothing and changes nothing; when it is idle the closure
    runs exactly once with the flag armed, its result is returned and its panic
    passed on.  The same holds of [ReentrancyCell::enter], whose closure gets a
    brand no earlier entry got. *)
Theorem enter_boundary {R} (c : positive) (f : M gates R) (g : positive -> M gates R) (s : gates) :
  c ∉ live s ->
  if is_active c s
  then enter c f s = (Ret (inr mkReentered), s) /\ enter_gate c g s = (Ret (inr mkReentered), s) /\
       enter_unguarded c f s = (Ret (inr mkReentered), s)
  else
    let inside_gate := mkGates ({[c]} ∪ armed s) (live s) (value s) (Pos.succ (next_brand s)) in
    enter c f s =
      (inl <$> fst (f (inside c s)), reset_drop c (end_borrow c (snd (f (inside c s))))) /\
    enter_gate c g s =
      (inl <$> fst (g (next_brand s) inside_gate),
       reset_drop c (snd (g (next_brand s) inside_gate))).
Proof.
  intros Hl. unfold is_active, active_get. case_bool_decide as Ha.
  - unfold enter, enter_gate, enter_unguarded, acquire, active_get. by rewrite bool_decide_true.
  - split; [by apply enter_idle|]. unfold enter_gate, acquire, active_get, active_set.
    rewrite bool_decide_false by done. cbn. by destruct (g _ _) as [[]].
Qed.

Lemma enter_boundary_witness :
  enter 1 (run (Load 1 (fun x => Store 1 (x + 34) (Load 1 Done)))) idle_gates =
  (Ret (inl 41), mkGates ∅ ∅ {[1%positive := 41]} 1).
Proof.
  pose proof (enter_boundary 1 (run (Load 1 (fun x => Store 1 (x + 34) (Load 1 Done))))
    (fun _ => mret 0) idle_gates ltac:(set_solver)) as He.
  change (is_active 1 idle_gates) with false in He. destruct He as [-> _]. reflexivity.
Defined.

(** The contract of [enter_unguarded] is needed: an unguarded closure that
    enters the same idle cell again, guarded or not, aliases its contents. *)
Theorem unguarded_reentry_aliases (c : positive) (v : gmap positive Z) (b : positive)
    (body : prog) (k k' : Z + Reentered -> prog) :
  let s := mkGates ∅ ∅ v b in
  fst (run (EnterUnguarded c (Enter c body k') k) s) = UB /\
  fst (run (EnterUnguarded c (EnterUnguarded c body k') k) s) = UB.
Proof.
  cbn [run]. split; apply bind_UB; rewrite enter_unguarded_idle by set_solver; cbn [fst];
    rewrite bind_UB; [done| |done|]; apply enter_aliased; set_solver.
Qed.

(** Leaving and entering again loses nothing: two guarded entries in a row
    are one entry that runs both closures (the first one's result feeding the
    second), for any closures that leave the gates as they were. *)
Theorem enter_fusion {R R'} (c : positive) (f : M gates R) (g : R -> M gates R') (s : gates) :
  c ∉ live s -> c ∉ armed s -> (forall s1, same_gates s1 (snd (f s1))) ->
  (r ← enter c f; match r with inl r => enter c (g r) | inr e => mret (inr e) end) s =
  enter c (r ← f; g r) s.
Proof.
  intros Hl Ha Hf. rewrite M_bind_eq, !enter_idle, M_bind_eq by done.
  destruct (Hf (inside c s)) as [Hsa Hsl].
  destruct (f (inside c s)) as [[r|p|] [a l v b]]; cbn in *; [|done..]. subst a l.
  unfold reset_drop, active_set, end_borrow; cbn. rewrite !set_release by done.
  rewrite enter_idle by done. unfold inside, reset_drop, active_set, end_borrow; cbn.
  by destruct (g r _) as [[]].
Qed.

Lemma enter_fusion_witness :
  (r ← enter 1 (run (Store 1 8 (Load 1 Done)));
   match r with inl r => enter 1 (run (Load 1 (fun x => Done (x + r)))) | inr e => mret (inr e) end)
  idle_gates = (Ret (inl 16), mkGates ∅ ∅ {[1%positive := 8]} 1).
Proof.
  etransitivity; [|reflexivity].
  apply (enter_fusion 1 (run (Store 1 8 (Load 1 Done)))
    (fun r => run (Load 1 (fun x => Done (x + r)))) idle_gates); [set_solver..|].
  intros s1. assert (announced (live s1) s1) as Ha by (unfold announced; set_solver).
  exact (proj2 (run_respects (Store 1 8 (Load 1 Done)) (live s1) (fun _ => I) s1 Ha)).
Defined.
