(* ===== verification/ThreadCached.v ===== *)
(** * Per-thread caches ([src/thread_cached.rs])

    The storage of one [thread_cached!] site: a [Cell<Option<T>>] per thread, by
    thread name.  The two expansions (nightly [#[thread_local]], stable
    [thread_local!]) run the same accesses.  The [init] closure is client code
    that may use the cache itself, panic, and keep a state [St] of its own.
    Main result: the cache memoises per thread. *)
From S2P Require Import Prelude.
From stdpp Require Import base numbers list gmap.

Section site.
Context {V St : Type}.

(** The site's storage and the client's state. *)
Record tls : Type := mkTls { values : gmap positive V; client : St }.

(** [VALUE.get()] and [VALUE.set(v)] on thread [th]. *)
Definition cell_get (th : positive) (s : tls) : option V := values s !! th.
Definition cell_set (th : positive) (v : option V) (s : tls) : tls :=
  mkTls (partial_alter (fun _ => v) th (values s)) (client s).

Definition get_or_init (th : positive) (init : M tls V) : M tls V := fun s =>
  match cell_get th s with
  | Some value => (Ret value, s)
  | None =>
      match init s with
      | (Ret value, s) => (Ret value, cell_set th (Some value) s)
      | (Panic p, s) => (Panic p, s)
      | (UB, s) => (UB, s)
      end
  end.

Definition set (th : positive) (value : V) : M tls unit := fun s =>
  (Ret tt, cell_set th (Some value) s).

Definition get (th : positive) : M tls (option V) := fun s => (Ret (cell_get th s), s).

Definition clear (th : positive) : M tls unit := fun s => (Ret tt, cell_set th None s).

(** The computation touches the storage of thread [th] only. *)
Definition confined {R} (th : positive) (c : M tls R) : Prop :=
  forall s th', th' <> th -> cell_get th' (snd (c s)) = cell_get th' s.
End site.
Arguments tls : clear implicits.
Arguments mkTls {V St}.

(** ** Lemmas *)

Lemma cell_get_set {V St} th th' v (s : tls V St) :
  cell_get th' (cell_set th v s) = if decide (th' = th) then v else cell_get th' s.
Proof.
  unfold cell_get, cell_set; cbn. case_decide as E; [subst; apply lookup_partial_alter_eq|].
  by apply lookup_partial_alter_ne.
Qed.

Lemma confined_get_or_init {V St} th (init : M (tls V St) V) :
  confined th init -> confined th (get_or_init th init).
Proof.
  intros Hi s th' Hne. unfold get_or_init. destruct (cell_get th s); [done|].
  specialize (Hi s th' Hne). destruct (init s) as [[v|p|] s']; cbn in *; [|done..].
  rewrite cell_get_set. by rewrite decide_False.
Qed.

(** ** Properties *)

(** The cache memoises per thread: a first access runs [init] once and
    stores its value, which every later access of the thread returns without
    running anything until the value is overwritten or cleared; an [init] that
    panics caches nothing, so the next access tries again; no operation of a
    thread is seen by another. *)
Theorem cache_memoises {V St} (th : positive) (init init' : M (tls V St) V) (s s' : tls V St)
    (v : V) (p : panic_payload) :
  cell_get th s = None ->
  (init s = (Ret v, s') ->
     let s1 := cell_set th (Some v) s' in
     get_or_init th init s = (Ret v, s1) /\ get_or_init th init' s1 = (Ret v, s1) /\
     get th s1 = (Ret (Some v), s1) /\
     (forall w, get_or_init th init' (snd (set th w s1)) = (Ret w, snd (set th w s1))) /\
     get_or_init th init' (snd (clear th s1)) =
       match init' (snd (clear th s1)) with
       | (Ret w, s2) => (Ret w, cell_set th (Some w) s2)
       | o => o
       end) /\
  (init s = (Panic p, s') -> get_or_init th init s = (Panic p, s') /\
     (cell_get th s' = None -> get th s' = (Ret None, s'))) /\
  (confined th init -> confined th (get_or_init th init)) /\
  (forall w, confined th (@set V St th w)) /\ confined th (@clear V St th).
Proof.
  intros Hs. split; [|split; [|split; [|split]]].
  - intros Hi s1. unfold get_or_init, get, set, clear. rewrite Hs, Hi. cbn [snd].
    assert (cell_get th s1 = Some v) as -> by (unfold s1; by rewrite cell_get_set, decide_True).
    do 3 (split; [done|]). split; [intros w; by rewrite cell_get_set, decide_True|].
    rewrite cell_get_set, decide_True by done. by destruct (init' _) as [[]].
  - intros Hi. unfold get_or_init, get. rewrite Hs, Hi. split; [done|]. by intros ->.
  - apply confined_get_or_init.
  - intros w s0 th' Hne. cbn. rewrite cell_get_set. by rewrite decide_False.
  - intros s0 th' Hne. cbn. rewrite cell_get_set. by rewrite decide_False.
Qed.

(** Counts its runs. *)
Definition counted_init : M (tls Z Z) Z := fun s =>
  (Ret (client s * 10)%Z, mkTls (values s) (client s + 1)%Z).

Definition empty_cache : tls Z Z := mkTls ∅ 4%Z.

Lemma cache_memoises_witness :
  get_or_init 3 counted_init (snd (get_or_init 3 counted_init empty_cache)) =
  (Ret 40%Z, mkTls {[3%positive := 40%Z]} 5%Z).
Proof.
  destruct (cache_memoises 3 counted_init counted_init empty_cache (mkTls ∅ 5%Z) 40%Z OverflowPanic)
    as (Hm & _); [reflexivity|].
  destruct (Hm eq_refl) as (-> & He & _). exact He.
Defined.
