(* ===== verification/DequePartition.v ===== *)
(** * Partitioned deques ([src/collections/deque/partition.rs])

    A deque's elements are the concatenation of two segments, the front and back
    slices of its ring buffer.  [DequeShardPlan::from_lengths] cuts the logical
    sequence into tiles and each tile into at most two shards, one per segment;
    the drivers run one closure per shard through [partition_read_map_with] over
    the list of descriptors.  Main results: the loop ends and its shards are a
    contiguous cover of the logical sequence in bounds of the segments; the
    mutable driver never aliases, leaves the buffer as if each shard had been
    processed alone and is given the right logical indices. *)
From S2P Require Import Prelude Region Plan Closure Executor Driver Shards PartitionMap.
From stdpp Require Import base numbers sets list.
Local Open Scope Z_scope.
Local Open Scope mel_scope.

(** ** Code *)

Inductive DequeSegment : Type := Front | Back.

Record DequeShard : Type := mkDequeShard {
  start : Z;
  segment : DequeSegment;
  offset : Z;
  len : Z
}.

#[export] Instance DequeSegment_eq_dec : EqDecision DequeSegment.
Proof. solve_decision. Defined.
#[export] Instance DequeShard_eq_dec : EqDecision DequeShard.
Proof. solve_decision. Defined.

(** [size_of::<DequeShard>()], and the most of them a [Vec] holds. *)
Definition shard_size : Z := 32.
Definition max_shards : Z := isize_max / shard_size.

Definition with_capacity (n : Z) : outcome (list DequeShard) :=
  if decide (n <= max_shards) then Ret [] else Panic CapacityPanic.

Section plan.
Context `{BuildProfile} (available : option positive).

(** The body of the [while] loop: the shards pushed for the tile at [start], and
    the next [start]. *)
Definition plan_step (front_len total_len chunk_len start : Z) (shards : list DequeShard)
    : outcome (list DequeShard * Z) :=
  e ← start +! chunk_len;
  let end_ := Z.min e total_len in
  shards ← (if decide (start < front_len)
            then let front_end := Z.min end_ front_len in
                 n ← front_end -! start;
                 Ret (shards ++ [mkDequeShard start Front start n])
            else Ret shards);
  shards ← (if decide (end_ > front_len)
            then back_start ← Z.max start front_len -! front_len;
                 s ← front_len +! back_start;
                 n ← end_ -! Z.max start front_len;
                 Ret (shards ++ [mkDequeShard s Back back_start n])
            else Ret shards);
  Ret (shards, end_).

(** The loop; [None] when out of fuel. *)
Fixpoint plan_loop (fuel : nat) (front_len total_len chunk_len start : Z)
    (shards : list DequeShard) : option (outcome (list DequeShard)) :=
  if decide (start < total_len) then
    match fuel with
    | O => None
    | S fuel =>
        match plan_step front_len total_len chunk_len start shards with
        | Ret (shards, start) => plan_loop fuel front_len total_len chunk_len start shards
        | Panic p => Some (Panic p)
        | UB => Some UB
        end
    end
  else Some (Ret shards).

Definition from_lengths (fuel : nat) (front_len back_len : Z) (plan : PartitionPlan)
    : option (outcome (list DequeShard)) :=
  match
    total_len ← front_len +! back_len;
    chunk ← chunk_len_for available plan total_len;
    let chunk_len := Z.max chunk 1 in
    num_chunks ← udiv (total_len + (chunk_len - 1)) chunk_len;   (* [div_ceil], which cannot overflow *)
    cap ← num_chunks *! 2;
    shards ← with_capacity cap;
    Ret (total_len, chunk_len, shards)
  with
  | Ret (total_len, chunk_len, shards) =>
      plan_loop fuel front_len total_len chunk_len 0 shards
  | Panic p => Some (Panic p)
  | UB => Some UB
  end.
End plan.

(** [debug_assert!] *)
Definition debug_assert `{BuildProfile} (b : bool) : outcome unit :=
  if overflow_checks && negb b then Panic AssertPanic else Ret tt.

Definition read_slice `{BuildProfile} {T} (s : DequeShard) (front back : list T)
    : outcome (list T) :=
  end_ ← offset s +! len s;
  match segment s with
  | Front => index_range front (offset s) end_
  | Back => index_range back (offset s) end_
  end.

(** The raw view of both segments: their base addresses and lengths. *)
Record DequeMutSlices : Type := mkMutSlices {
  front : slice;
  back : slice
}.

Definition DequeMutSlices_new (f b : slice) : DequeMutSlices := mkMutSlices f b.

Section drivers.
Context `{BuildProfile, ProgramText} (env : call_env) {T R : Type}.

Definition with_shard_mut (slices : DequeMutSlices) (shard : DequeShard)
    (f : Z -> Z -> closure T R) : M (list T) R := fun m =>
  let seg := match segment shard with Front => front slices | Back => back slices end in
  match
    debug_assert (bool_decide (offset shard <= s_len seg));;
    rest ← (if overflow_checks then s_len seg -! offset shard else Ret 0);
    debug_assert (bool_decide (len shard <= rest));;
    from_raw_parts_mut (s_base seg) (s_len seg) (offset shard) (len shard)
  with
  | Ret cells =>
      let writer := Shard.new cells in
      run_closure writer (f (start shard) (Shard.len writer)) m
  | Panic p => (Panic p, m)
  | UB => (UB, m)
  end.

(** [shard[0]] of a one-descriptor slice. *)
Definition only (shard : list DequeShard) : outcome DequeShard :=
  debug_assert (bool_decide (zlen shard = 1));;
  match zget shard 0 with Some s => Ret s | None => Panic BoundsPanic end.

Definition map_mut (shards : list DequeShard) (f_slice b_slice : slice)
    (f : Z -> Z -> closure T R) : M (list T) (list R) :=
  if decide (shards = []) then mret []
  else
    let slices := DequeMutSlices_new f_slice b_slice in
    partition_read_map_with env shards (chunk_size 1)
      (fun _ shard m =>
         match only shard with
         | Ret s => with_shard_mut slices s f m
         | Panic p => (Panic p, m)
         | UB => (UB, m)
         end).

Definition for_each_mut (shards : list DequeShard) (f_slice b_slice : slice)
    (f : Z -> Z -> closure T R) : M (list T) unit :=
  map_mut shards f_slice b_slice f ≫= fun _ => mret tt.

(** The closure over a shared sub-slice, with effects on a state of its own. *)
Context {St : Type}.

Definition map_read (shards : list DequeShard) (f_slice b_slice : list T)
    (g : Z -> list T -> M St R) : M St (list R) :=
  if decide (shards = []) then mret []
  else
    partition_read_map_with env shards (chunk_size 1)
      (fun _ shard st =>
         match s ← only shard; sub ← read_slice s f_slice b_slice; Ret (start s, sub) with
         | Ret (start, sub) => g start sub st
         | Panic p => (Panic p, st)
         | UB => (UB, st)
         end).

Definition for_each_read (shards : list DequeShard) (f_slice b_slice : list T)
    (g : Z -> list T -> M St R) : M St unit :=
  map_read shards f_slice b_slice g ≫= fun _ => mret tt.

(** The public methods, on the segments of the deque. *)
Definition planned {S A} (fuel : nat) (front_len back_len : Z) (plan : PartitionPlan)
    (k : list DequeShard -> M S A) (s : S) : option (outcome A * S) :=
  match from_lengths (env_available env) fuel front_len back_len plan with
  | Some (Ret shards) => Some (k shards s)
  | Some (Panic p) => Some (Panic p, s)
  | Some UB => Some (UB, s)
  | None => None
  end.

Definition deque_partition_map_with fuel (s1 s2 : list T) (plan : PartitionPlan)
    (g : Z -> list T -> M St R) : St -> option (outcome (list R) * St) :=
  planned fuel (zlen s1) (zlen s2) plan (fun shards => map_read shards s1 s2 g).

Definition deque_partition_for_each_with fuel (s1 s2 : list T) (plan : PartitionPlan)
    (g : Z -> list T -> M St R) : St -> option (outcome unit * St) :=
  planned fuel (zlen s1) (zlen s2) plan (fun shards => for_each_read shards s1 s2 g).

Definition deque_partition_map_mut_with fuel (s1 s2 : slice) (plan : PartitionPlan)
    (f : Z -> Z -> closure T R) : list T -> option (outcome (list R) * list T) :=
  planned fuel (s_len s1) (s_len s2) plan (fun shards => map_mut shards s1 s2 f).

Definition deque_partition_for_each_mut_with fuel (s1 s2 : slice) (plan : PartitionPlan)
    (f : Z -> Z -> closure T R) : list T -> option (outcome unit * list T) :=
  planned fuel (s_len s1) (s_len s2) plan (fun shards => for_each_mut shards s1 s2 f).
End drivers.

(** ** Specification *)

(** The shards of the tile at [st]. *)
Definition pieces (front_len total_len chunk_len st : Z) : list DequeShard :=
  let e := Z.min (st + chunk_len) total_len in
  (if decide (st < front_len)
   then [mkDequeShard st Front st (Z.min e front_len - st)] else []) ++
  (if decide (front_len < e)
   then [mkDequeShard (Z.max st front_len) Back (Z.max st front_len - front_len)
           (e - Z.max st front_len)] else []).

(** The shard is not empty, and lies in its segment at the place its logical
    start says. *)
Definition placed (front_len total_len : Z) (s : DequeShard) : Prop :=
  1 <= len s /\
  match segment s with
  | Front => 0 <= start s /\ offset s = start s /\ start s + len s <= front_len
  | Back => front_len <= start s /\ offset s = start s - front_len /\ start s + len s <= total_len
  end.

(** The shards cover [pos, fin) one after the other. *)
Fixpoint cover (front_len total_len pos fin : Z) (shards : list DequeShard) : Prop :=
  match shards with
  | [] => pos = fin
  | s :: shards =>
      start s = pos /\ placed front_len total_len s /\
      cover front_len total_len (pos + len s) fin shards
  end.

(** [from_lengths] as a function. *)
Definition deque_shards (available : option positive) (front_len back_len : Z)
    (plan : PartitionPlan) : list DequeShard :=
  let total := front_len + back_len in
  let c := plan_chunk available plan total in
  concat ((fun i => pieces front_len total c (i * c)) <$> zseq (tile_count total c)).

(** The lengths and plan for which the descriptors fit in a [Vec]. *)
Definition plan_fits (available : option positive) (front_len back_len : Z)
    (plan : PartitionPlan) : Prop :=
  0 <= front_len /\ 0 <= back_len /\ front_len + back_len <= isize_max /\ plan_ok plan /\
  2 * tile_count (front_len + back_len) (plan_chunk available plan (front_len + back_len))
    <= max_shards.

(** ** Lemmas: the plan *)

Section plan_lemmas.
Context `{BuildProfile} (front_len total_len chunk_len : Z).
Context (Hf : 0 <= front_len <= total_len) (Ht : total_len <= isize_max).
Context (Hc : 1 <= chunk_len <= usize_max).

Lemma plan_step_ok st shards :
  0 <= st < total_len -> st + chunk_len <= usize_max ->
  plan_step front_len total_len chunk_len st shards =
  Ret (shards ++ pieces front_len total_len chunk_len st, Z.min (st + chunk_len) total_len).
Proof using Hf Ht Hc.
  intros Hst Hmax. unfold plan_step, pieces. rewrite uadd_ok by ulia.
  cbn [mbind outcome_bind]. destruct (decide (st < front_len)) as [Hlt|Hge].
  - rewrite (usub_ok (Z.min (Z.min (st + chunk_len) total_len) front_len) st) by ulia.
    cbn [mbind outcome_bind]. repeat case_decide; try lia.
    + uok. rewrite <- app_assoc. repeat f_equal; lia.
    + by rewrite app_nil_r.
  - cbn [mbind outcome_bind]. rewrite !decide_True by lia. uok. cbn [app]. repeat f_equal; lia.
Qed.

Lemma pieces_cover st :
  0 <= st < total_len ->
  cover front_len total_len st (Z.min (st + chunk_len) total_len)
    (pieces front_len total_len chunk_len st).
Proof using Hf Hc.
  intros Hst. unfold pieces, placed. repeat case_decide; cbn; unfold placed; cbn; lia.
Qed.

Lemma cover_app pos mid fin l1 l2 :
  cover front_len total_len pos mid l1 -> cover front_len total_len mid fin l2 ->
  cover front_len total_len pos fin (l1 ++ l2).
Proof using.
  revert pos. induction l1 as [|s l1 IH]; intros pos Hl1 Hl2; cbn in *; [by subst|].
  destruct Hl1 as (? & ? & Hl1). split; [done|]. split; [done|]. by apply IH.
Qed.

(** The shards of the tiles from number [i] on, [k] of them. *)
Definition tail_pieces (i k : nat) : list DequeShard :=
  concat ((fun j => pieces front_len total_len chunk_len (Z.of_nat j * chunk_len)) <$> seq i k).

#[local] Abbreviation N := (Z.to_nat (tile_count total_len chunk_len)).

Lemma tile_start i : (i < N)%nat ->
  Z.of_nat i * chunk_len < total_len /\ Z.of_nat i * chunk_len + chunk_len <= usize_max.
Proof using Hf Ht Hc.
  intros Hi. apply (par_ok_no_overflow (mkPar 0 total_len chunk_len) (Z.of_nat i));
    [split; cbn; lia|cbn; lia].
Qed.

Lemma tile_end i : (N <= i)%nat -> total_len <= Z.of_nat i * chunk_len.
Proof using Hf Hc.
  intros Hi. pose proof (tile_count_lt total_len chunk_len (Z.of_nat i) ltac:(lia) ltac:(lia)).
  pose proof (tile_count_bounds total_len chunk_len ltac:(lia) ltac:(lia)). lia.
Qed.

Lemma min_step i : (i < N)%nat ->
  Z.min (Z.of_nat i * chunk_len + chunk_len) total_len = Z.min (Z.of_nat (S i) * chunk_len) total_len.
Proof using. intros _. f_equal. lia. Qed.

Lemma plan_loop_ok k i shards fuel :
  (i + k = N)%nat -> (k <= fuel)%nat ->
  plan_loop fuel front_len total_len chunk_len (Z.min (Z.of_nat i * chunk_len) total_len) shards =
  Some (Ret (shards ++ tail_pieces i k)).
Proof using Hf Ht Hc.
  revert i shards fuel. induction k as [|k IH]; intros i shards fuel Hik Hfuel.
  - pose proof (tile_end i ltac:(lia)).
    destruct fuel; cbn; rewrite decide_False by lia; by rewrite app_nil_r.
  - destruct (tile_start i ltac:(lia)) as [Hlt Hmax]. rewrite Z.min_l by lia.
    destruct fuel as [|fuel]; [lia|]. cbn [plan_loop]. rewrite decide_True by done. rewrite plan_step_ok by (done || lia).
    rewrite min_step, IH by lia. by rewrite <- app_assoc.
Qed.

Lemma tail_pieces_cover k i :
  (i + k = N)%nat ->
  cover front_len total_len (Z.min (Z.of_nat i * chunk_len) total_len) total_len (tail_pieces i k).
Proof using Hf Ht Hc.
  revert i. induction k as [|k IH]; intros i Hik.
  - pose proof (tile_end i ltac:(lia)). cbn. lia.
  - destruct (tile_start i ltac:(lia)) as [Hlt Hmax]. rewrite Z.min_l by lia.
    apply (cover_app _ (Z.min (Z.of_nat (S i) * chunk_len) total_len)); [|by apply IH; lia].
    rewrite <- min_step by lia. apply pieces_cover. lia.
Qed.

Lemma length_tail_pieces i k : (length (tail_pieces i k) <= 2 * k)%nat.
Proof using.
  revert i. induction k as [|k IH]; intros i; [done|]. unfold tail_pieces in *. cbn.
  rewrite length_app. specialize (IH (S i)).
  enough (length (pieces front_len total_len chunk_len (Z.of_nat i * chunk_len)) <= 2)%nat by lia.
  unfold pieces. repeat case_decide; cbn; lia.
Qed.
End plan_lemmas.

Lemma deque_shards_tail available f b plan :
  deque_shards available f b plan =
  tail_pieces f (f + b) (plan_chunk available plan (f + b)) 0
    (Z.to_nat (tile_count (f + b) (plan_chunk available plan (f + b)))).
Proof. unfold deque_shards, tail_pieces, zseq. by rewrite <- list_fmap_compose. Qed.

Section planned.
Context `{BuildProfile} (available : option positive) (f b : Z) (plan : PartitionPlan).
Context (Hfit : plan_fits available f b plan).
#[local] Abbreviation c := (plan_chunk available plan (f + b)).

Lemma fit_chunk : is_usize (f + b) /\ 1 <= c <= usize_max.
Proof using Hfit.
  destruct Hfit as (? & ? & ? & ? & _). assert (is_usize (f + b)) by ulia.
  split; [done|]. by apply plan_chunk_bounds.
Qed.

Lemma deque_shards_cover : cover f (f + b) 0 (f + b) (deque_shards available f b plan).
Proof using Hfit.
  destruct fit_chunk as [Hu Hc]. destruct Hfit as (? & ? & ? & _).
  pose proof (tail_pieces_cover f (f + b) c ltac:(lia) ltac:(lia) Hc
    (Z.to_nat (tile_count (f + b) c)) 0 ltac:(lia)) as Hcov.
  rewrite deque_shards_tail. by rewrite Z.min_l in Hcov by lia.
Qed.

Lemma zlen_deque_shards : zlen (deque_shards available f b plan) <= 2 * tile_count (f + b) c.
Proof using Hfit.
  destruct fit_chunk as [Hu Hc]. destruct Hfit as (? & ? & ? & _).
  pose proof (tile_count_bounds (f + b) c ltac:(lia) ltac:(lia)).
  rewrite deque_shards_tail. unfold zlen.
  pose proof (length_tail_pieces f (f + b) c 0 (Z.to_nat (tile_count (f + b) c))). lia.
Qed.

(** The loop ends after one round per tile. *)
Lemma from_lengths_ok fuel :
  (Z.to_nat (tile_count (f + b) c) <= fuel)%nat ->
  from_lengths available fuel f b plan = Some (Ret (deque_shards available f b plan)).
Proof using Hfit.
  intros Hfuel. destruct fit_chunk as [Hu Hc]. destruct Hfit as (? & ? & ? & _ & Hcap).
  pose proof (tile_count_bounds (f + b) c ltac:(lia) ltac:(lia)).
  assert (max_shards <= isize_max) as Hmax by (unfold max_shards, shard_size, isize_max; vm_compute; discriminate).
  unfold from_lengths. rewrite uadd_ok by ulia. cbn [mbind outcome_bind].
  fold (resolve available plan (f + b)). rewrite resolve_ok by done. cbn [mbind outcome_bind].
  rewrite Z.max_l by lia. unfold udiv. rewrite decide_False by lia. cbn [mbind outcome_bind].
  rewrite tile_count_div_ceil by lia.
  rewrite umul_ok by ulia. cbn [mbind outcome_bind]. unfold with_capacity.
  rewrite decide_True by lia. cbn [mbind outcome_bind].
  pose proof (plan_loop_ok f (f + b) c ltac:(lia) ltac:(lia) Hc
    (Z.to_nat (tile_count (f + b) c)) 0 [] fuel ltac:(lia) Hfuel) as Hloop.
  rewrite Z.min_l in Hloop by lia. rewrite deque_shards_tail. exact Hloop.
Qed.
End planned.

(** ** Lemmas: covers *)

Lemma cover_le fl tl pos fin l : cover fl tl pos fin l -> pos <= fin.
Proof.
  revert pos. induction l as [|s l IH]; intros pos Hc; cbn in Hc; [lia|].
  destruct Hc as (? & [? _] & Hc). specialize (IH _ Hc). lia.
Qed.

Lemma cover_lookup fl tl pos fin l i s :
  cover fl tl pos fin l -> l !! i = Some s ->
  pos <= start s /\ placed fl tl s /\ start s + len s <= fin.
Proof.
  revert pos i. induction l as [|s0 l IH]; intros pos i Hc Hs; [done|].
  destruct Hc as (Hs0 & Hp & Hc). pose proof Hp as [Hl _]. destruct i as [|i]; cbn in Hs.
  - injection Hs as <-. apply cover_le in Hc. split; [lia|]. split; [done|lia].
  - destruct (IH _ _ Hc Hs) as (? & ? & ?). split; [lia|done].
Qed.

Lemma cover_ordered fl tl pos fin l i j s s' :
  cover fl tl pos fin l -> l !! i = Some s -> l !! j = Some s' -> (i < j)%nat ->
  start s + len s <= start s'.
Proof.
  revert pos i j. induction l as [|s0 l IH]; intros pos i j Hc Hs Hs' Hij; [done|].
  destruct Hc as (Hs0 & Hp & Hc). destruct j as [|j]; [lia|]. cbn in Hs'.
  destruct i as [|i]; cbn in Hs.
  - injection Hs as <-. destruct (cover_lookup _ _ _ _ _ _ _ Hc Hs') as (? & _). lia.
  - apply (IH _ i j Hc Hs Hs'). lia.
Qed.

(** The shards' parts of a sequence, one after the other, are the sequence. *)
Lemma cover_concat {T} fl (l : list T) pos shards :
  0 <= pos -> cover fl (zlen l) pos (zlen l) shards ->
  concat ((fun s => subrange (start s) (len s) l) <$> shards) = subrange pos (zlen l - pos) l.
Proof.
  revert pos. induction shards as [|s shards IH]; intros pos Hpos Hc; cbn in Hc.
  - rewrite <- Hc. cbn. unfold subrange. by rewrite Z.sub_diag.
  - destruct Hc as (Hs & [Hl _] & Hc). pose proof (cover_le _ _ _ _ _ Hc).
    cbn. rewrite (IH (pos + len s)) by (done || lia). rewrite Hs.
    rewrite subrange_app by lia. f_equal. lia.
Qed.

(** ** Lemmas: one shard *)

Section one_shard.
Context `{BuildProfile}.

Lemma read_slice_placed {T} (s : DequeShard) (f b : list T) :
  zlen f + zlen b <= isize_max -> placed (zlen f) (zlen f + zlen b) s ->
  read_slice s f b = Ret (subrange (start s) (len s) (f ++ b)).
Proof.
  intros Hmax [Hl Hp]. pose proof (zlen_nonneg f). pose proof (zlen_nonneg b).
  unfold read_slice, index_range. destruct (segment s).
  - destruct Hp as (? & Ho & ?). uok. rewrite decide_True by lia. f_equal.
    apply zlist_eq; [rewrite !zlen_subrange; rewrite ?zlen_app; lia|].
    intros i Hi. rewrite zlen_subrange in Hi by lia. rewrite !zget_subrange by lia.
    rewrite zget_app_l by lia. f_equal. lia.
  - destruct Hp as (? & Ho & ?). uok. rewrite decide_True by lia. f_equal.
    apply zlist_eq; [rewrite !zlen_subrange; rewrite ?zlen_app; lia|].
    intros i Hi. rewrite zlen_subrange in Hi by lia. rewrite !zget_subrange by lia.
    rewrite zget_app_r by lia. f_equal. lia.
Qed.

(** Where a shard is in the allocation. *)
Definition shard_slice (f b : slice) (s : DequeShard) : slice :=
  Slice (s_base (match segment s with Front => f | Back => b end) + offset s) (len s).

Lemma with_shard_mut_placed {T R} (f b : slice) (s : DequeShard) (g : Z -> Z -> closure T R) m :
  0 <= s_len f -> 0 <= s_len b -> s_len f + s_len b <= isize_max ->
  placed (s_len f) (s_len f + s_len b) s ->
  with_shard_mut (DequeMutSlices_new f b) s g m =
  run_closure (mkShard (shard_slice f b s)) (g (start s) (len s)) m.
Proof.
  intros Hf Hb Hmax [Hl Hp]. unfold with_shard_mut, shard_slice, debug_assert, from_raw_parts_mut.
  cbn [front back DequeMutSlices_new].
  destruct (segment s); destruct Hp as (? & Ho & ?);
    rewrite !bool_decide_true by lia; rewrite andb_false_r; cbn [mbind outcome_bind];
    (destruct overflow_checks; [uok|cbn [mbind outcome_bind]]);
    rewrite ?bool_decide_true, ?andb_false_r by lia; cbn [mbind outcome_bind negb andb];
    by rewrite decide_True by lia.
Qed.
End one_shard.

(** ** Lemmas: the drivers over a list of descriptors *)

Section descriptors.
Context (shards : list DequeShard) (front_len total_len : Z).
Context (Hcov : cover front_len total_len 0 total_len shards).

Definition shard_at (i : Z) : DequeShard := default (mkDequeShard 0 Front 0 0) (zget shards i).

Lemma shard_at_lookup i : 0 <= i < zlen shards -> shards !! Z.to_nat i = Some (shard_at i).
Proof using.
  intros Hi. destruct (proj1 (zget_lt_is_Some shards i) Hi) as [s Hs]. unfold shard_at. rewrite Hs.
  unfold zget in Hs. by rewrite decide_True in Hs by lia.
Qed.

Lemma shard_at_placed i : 0 <= i < zlen shards -> placed front_len total_len (shard_at i).
Proof using Hcov.
  intros Hi. by destruct (cover_lookup _ _ _ _ _ _ _ Hcov (shard_at_lookup i Hi)) as (_ & ? & _).
Qed.

Lemma only_read_tile `{BuildProfile} i :
  0 <= i < zlen shards -> only (read_tile shards 1 i) = Ret (shard_at i).
Proof using.
  intros Hi. unfold only, read_tile, debug_assert. rewrite Z.mul_1_r, Z.min_l by lia.
  rewrite zlen_subrange by lia. rewrite bool_decide_true, andb_false_r by done. cbn [mbind outcome_bind].
  rewrite zget_subrange by lia. rewrite Z.add_0_r.
  destruct (proj1 (zget_lt_is_Some shards i) Hi) as [s Hs]. unfold shard_at. by rewrite Hs.
Qed.

Lemma read_chunk_one env : read_chunk env shards (chunk_size 1) = 1.
Proof using. reflexivity. Qed.

Lemma tile_count_one n : 0 <= n -> tile_count n 1 = n.
Proof using. intros Hn. unfold tile_count. case_decide; [lia|]. rewrite Z.div_1_r. lia. Qed.

Section memory.
Context (f b : slice) (m_len : Z) (Hf : 0 <= s_base f /\ s_len f = front_len /\ 0 <= front_len).
Context (Hb : 0 <= s_base b /\ front_len + s_len b = total_len /\ 0 <= s_len b).
Context (Hm : s_base f + s_len f <= m_len /\ s_base b + s_len b <= m_len).
Context (Hfb : slice_disjoint f b).

Lemma shard_slice_in i :
  0 <= i < zlen shards -> shard_in m_len (mkShard (shard_slice f b (shard_at i))).
Proof using Hcov Hf Hb Hm.
  intros Hi. destruct (shard_at_placed i Hi) as [Hl Hp]. unfold shard_in, shard_slice; cbn.
  destruct (segment (shard_at i)); lia.
Qed.

Lemma shard_slice_inside i x :
  0 <= i < zlen shards -> in_slice (shard_slice f b (shard_at i)) x -> in_slice f x \/ in_slice b x.
Proof using Hcov Hf Hb.
  intros Hi Hx. destruct (shard_at_placed i Hi) as [Hl Hp]. unfold in_slice, shard_slice in *; cbn in *.
  destruct (segment (shard_at i)); [left|right]; lia.
Qed.

Lemma shard_slice_disjoint i j :
  0 <= i < zlen shards -> 0 <= j < zlen shards -> i <> j ->
  slice_disjoint (shard_slice f b (shard_at i)) (shard_slice f b (shard_at j)).
Proof using Hcov Hf Hb Hfb.
  intros Hi Hj Hne x Hxi Hxj.
  assert (forall i j, 0 <= i < zlen shards -> 0 <= j < zlen shards -> i < j ->
    in_slice (shard_slice f b (shard_at i)) x -> in_slice (shard_slice f b (shard_at j)) x -> False) as Hlt.
  { clear i j Hi Hj Hne Hxi Hxj. intros i j Hi Hj Hij Hxi Hxj.
    pose proof (cover_ordered _ _ _ _ _ _ _ _ _ Hcov (shard_at_lookup i Hi) (shard_at_lookup j Hj)
      ltac:(lia)) as Ho.
    destruct (shard_at_placed i Hi) as [Hli Hpi]. destruct (shard_at_placed j Hj) as [Hlj Hpj].
    unfold in_slice, shard_slice in *; cbn in *.
    destruct (segment (shard_at i)), (segment (shard_at j)); try lia;
      apply (Hfb x); unfold in_slice; lia. }
  destruct (Z.lt_total i j) as [|[|]]; [by apply (Hlt i j)|done|by apply (Hlt j i)].
Qed.

Context `{BuildProfile} {T R : Type} (g : Z -> Z -> closure T R) (m : list T) (Hml : m_len = zlen m).
Context (Hmax : total_len <= isize_max).

(** What a shard does alone: its outcome and new contents. *)
Definition shard_alone (s : DequeShard) : outcome R * list T :=
  eval_closure (g (start s) (len s)) (Shard.as_slice m (mkShard (shard_slice f b s))).

#[local] Abbreviation sh := (fun i => mkShard (shard_slice f b (shard_at i))).
#[local] Abbreviation body := (fun i => g (start (shard_at i)) (len (shard_at i))).

(** The allocation once every shard has been processed. *)
Definition deque_after : list T := shards_after sh body (zlen shards) m.

Lemma deque_after_done : shards_done sh body (zlen shards) m (zseq (zlen shards)) deque_after.
Proof using Hcov Hf Hb Hm Hfb Hml.
  apply shards_after_done; [rewrite <- Hml; apply shard_slice_in|apply shard_slice_disjoint].
Qed.

Lemma map_mut_independent :
  IndependentTasks (read_body shards 1 (fun _ shard m =>
      match only shard with
      | Ret s => with_shard_mut (DequeMutSlices_new f b) s g m
      | Panic p => (Panic p, m)
      | UB => (UB, m)
      end)) (zlen shards) m (fun i => fst (shard_alone (shard_at i))) deque_after.
Proof using Hcov Hf Hb Hm Hfb Hml Hmax.
  apply (independent_ext (shard_task sh body)).
  - intros i s Hi. unfold read_body. rewrite only_read_tile by done.
    rewrite with_shard_mut_placed; [done|lia..|].
    replace (s_len f + s_len b) with total_len by lia. replace (s_len f) with front_len by lia.
    by apply shard_at_placed.
  - apply shards_independent; [rewrite <- Hml; apply shard_slice_in|apply shard_slice_disjoint].
Qed.
End memory.
End descriptors.

(** The two segments of a ring buffer in the allocation. *)
Definition segments_ok {T} (f b : slice) (m : list T) : Prop :=
  0 <= s_base f /\ 0 <= s_len f /\ s_base f + s_len f <= zlen m /\
  0 <= s_base b /\ 0 <= s_len b /\ s_base b + s_len b <= zlen m /\ slice_disjoint f b.

Lemma plan_ok_one : plan_ok (chunk_size 1).
Proof. vm_compute. discriminate. Qed.

Lemma deque_shards_fit available f b plan :
  plan_fits available f b plan -> zlen (deque_shards available f b plan) <= isize_max.
Proof.
  intros Hfit. pose proof (zlen_deque_shards available f b plan Hfit). destruct Hfit as (_ & _ & _ & _ & Hc).
  assert (max_shards <= isize_max) by (vm_compute; discriminate). lia.
Qed.

(** Reading off the results of a driver, shard by shard. *)
Lemma shard_results {R} (shards : list DequeShard) (res : DequeShard -> outcome R) :
  omap (fun i => ret_value (res (shard_at shards i))) (zseq (zlen shards)) =
  omap (fun s => ret_value (res s)) shards.
Proof.
  assert (shard_at shards <$> zseq (zlen shards) = shards) as Hs.
  { pose proof (zlen_nonneg shards). apply zlist_eq; [by rewrite zlen_fmap, zlen_zseq|].
    intros i Hi. rewrite zlen_fmap, zlen_zseq in Hi by done.
    rewrite zget_fmap, zget_zseq by done. cbn. unfold zget. rewrite decide_True by lia.
    symmetry. by apply shard_at_lookup. }
  rewrite <- Hs at 2. generalize (zseq (zlen shards)). intros l. induction l as [|i l IH]; [done|].
  cbn. by rewrite IH.
Qed.

Lemma map_mut_outcome `{BuildProfile, ProgramText} (env : call_env) `{!CallEnv env} {T R}
    (f b : slice) (plan : PartitionPlan) (g : Z -> Z -> closure T R) (m : list T) :
  segments_ok f b m -> plan_fits (env_available env) (s_len f) (s_len b) plan ->
  let shards := deque_shards (env_available env) (s_len f) (s_len b) plan in
  exists o, map_mut env shards f b g m = (o, deque_after shards f b g m) /\
    match o with
    | Ret rs => rs = omap (fun s => ret_value (fst (shard_alone f b g m s))) shards /\
        forall i, 0 <= i < zlen shards -> exists v, fst (shard_alone f b g m (shard_at shards i)) = Ret v
    | Panic q => exists i, 0 <= i < zlen shards /\ fst (shard_alone f b g m (shard_at shards i)) = Panic q
    | UB => False
    end.
Proof.
  intros (Hbf & Hlf & Hmf & Hbb & Hlb & Hmb & Hdis) Hfit shards.
  pose proof (deque_shards_cover _ _ _ _ Hfit) as Hcov. fold shards in Hcov.
  pose proof (deque_shards_fit _ _ _ _ Hfit) as Hmax. fold shards in Hmax.
  pose proof Hfit as (_ & _ & Htot & _). unfold map_mut. destruct (decide (shards = [])) as [E|E].
  - exists (Ret []). rewrite E. do 2 (split; [done|]). intros i Hi. unfold zlen in Hi; cbn in Hi. lia.
  - pose proof (map_mut_independent shards (s_len f) (s_len f + s_len b) Hcov f b (zlen m)
      ltac:(lia) ltac:(lia) ltac:(lia) Hdis g m eq_refl Htot) as Hind.
    epose proof (partition_read_map_with_outcome env shards (chunk_size 1) _ m _ _ Hmax plan_ok_one)
      as Hd. cbv zeta in Hd. change (read_chunk env shards (chunk_size 1)) with 1 in Hd.
    rewrite tile_count_one in Hd by apply zlen_nonneg. destruct (Hd Hind) as (o & He & Ho).
    exists o. split; [exact He|]. destruct o as [rs|q|]; [|done|done].
    destruct Ho as [-> Hv]. split; [|exact Hv].
    apply (shard_results shards (fun s => fst (shard_alone f b g m s))).
Qed.

Lemma deque_shard_len available f b plan s :
  plan_fits available f b plan -> s ∈ deque_shards available f b plan ->
  len s <= plan_chunk available plan (f + b).
Proof.
  intros Hfit Hs. unfold deque_shards in Hs. rewrite list_elem_of_In, in_concat in Hs.
  destruct Hs as (l & Hl & Hs). apply list_elem_of_In in Hl, Hs.
  apply list_elem_of_fmap in Hl as (i & -> & Hi).
  unfold pieces in Hs. apply elem_of_app in Hs as [Hs|Hs]; case_decide;
    (apply list_elem_of_singleton in Hs as -> || by apply not_elem_of_nil in Hs); cbn; lia.
Qed.

Lemma deque_after_facts `{BuildProfile} (env : call_env) {T R}
    (f b : slice) (plan : PartitionPlan) (g : Z -> Z -> closure T R) (m : list T) :
  segments_ok f b m -> plan_fits (env_available env) (s_len f) (s_len b) plan ->
  let shards := deque_shards (env_available env) (s_len f) (s_len b) plan in
  let m' := deque_after shards f b g m in
  zlen m' = zlen m /\
  Forall (fun s => Shard.as_slice m' (mkShard (shard_slice f b s)) = snd (shard_alone f b g m s)) shards /\
  (forall x, 0 <= x -> ~ in_slice f x -> ~ in_slice b x -> zget m' x = zget m x).
Proof.
  intros (Hbf & Hlf & Hmf & Hbb & Hlb & Hmb & Hdis) Hfit shards m'.
  pose proof (deque_shards_cover _ _ _ _ Hfit) as Hcov. fold shards in Hcov.
  destruct (deque_after_done shards (s_len f) (s_len f + s_len b) Hcov f b (zlen m)
    ltac:(lia) ltac:(lia) ltac:(lia) Hdis g m eq_refl) as [Hl Hs Hout].
  split; [exact Hl|]. split.
  - apply Forall_forall. intros s [i Hi]%list_elem_of_lookup.
    assert (0 <= Z.of_nat i < zlen shards) as Hr by (apply lookup_lt_Some in Hi; unfold zlen; lia).
    specialize (Hs (Z.of_nat i) Hr). rewrite decide_True in Hs by (by apply elem_of_zseq).
    pose proof (shard_at_lookup shards (Z.of_nat i) Hr) as Ha. rewrite Nat2Z.id, Hi in Ha.
    injection Ha as Ha. rewrite Ha. exact Hs.
  - intros x Hx Hnf Hnb. apply Hout; [done|]. intros i Hi Hin.
    destruct (shard_slice_inside shards (s_len f) (s_len f + s_len b) Hcov f b
      ltac:(lia) ltac:(lia) i x Hi Hin); done.
Qed.

Lemma returned_results {R} (shards : list DequeShard) (res : DequeShard -> outcome R) :
  (forall i, 0 <= i < zlen shards -> exists v, res (shard_at shards i) = Ret v) ->
  Forall2 (fun s r => res s = Ret r) shards (omap (fun s => ret_value (res s)) shards).
Proof.
  intros Hv. assert (Forall (fun s => exists v, res s = Ret v) shards) as Hall.
  { apply Forall_forall. intros s [i Hi]%list_elem_of_lookup.
    assert (0 <= Z.of_nat i < zlen shards) as Hr by (apply lookup_lt_Some in Hi; unfold zlen; lia).
    pose proof (shard_at_lookup shards (Z.of_nat i) Hr) as Ha. rewrite Nat2Z.id, Hi in Ha.
    injection Ha as ->. by apply Hv. }
  clear Hv. induction Hall as [|s l [v Hs] _ IH]; [constructor|].
  cbn. rewrite Hs. cbn. by constructor.
Qed.

(** The shared driver, for closures without effects. *)
Lemma map_read_outcome `{BuildProfile, ProgramText} (env : call_env) `{!CallEnv env} {T R}
    (s1 s2 : list T) (plan : PartitionPlan) (g : Z -> list T -> outcome R) :
  plan_fits (env_available env) (zlen s1) (zlen s2) plan ->
  let shards := deque_shards (env_available env) (zlen s1) (zlen s2) plan in
  let run s := g (start s) (subrange (start s) (len s) (s1 ++ s2)) in
  Forall (fun s => defined (run s)) shards ->
  exists o, map_read env shards s1 s2 (pure_body g) tt = (o, tt) /\
    match o with
    | Ret rs => rs = omap (fun s => ret_value (run s)) shards /\
        forall i, 0 <= i < zlen shards -> exists v, run (shard_at shards i) = Ret v
    | Panic q => exists i, 0 <= i < zlen shards /\ run (shard_at shards i) = Panic q
    | UB => False
    end.
Proof.
  intros Hfit shards run Hdef.
  pose proof (deque_shards_cover _ _ _ _ Hfit) as Hcov. fold shards in Hcov.
  pose proof (deque_shards_fit _ _ _ _ Hfit) as Hmax. fold shards in Hmax.
  pose proof Hfit as (_ & _ & Htot & _). unfold map_read. destruct (decide (shards = [])) as [E|E].
  - exists (Ret []). rewrite E. do 2 (split; [done|]). intros i Hi. unfold zlen in Hi; cbn in Hi. lia.
  - epose proof (partition_read_map_with_outcome env shards (chunk_size 1) _ tt
      (fun i => run (shard_at shards i)) tt Hmax plan_ok_one) as Hd.
    cbv zeta in Hd. change (read_chunk env shards (chunk_size 1)) with 1 in Hd.
    rewrite tile_count_one in Hd by apply zlen_nonneg.
    edestruct Hd as (o & He & Ho); [|exists o; split; [exact He|]].
    + apply (independent_ext (fun i (u : unit) => (run (shard_at shards i), u))).
      * intros i s Hi. unfold read_body. rewrite only_read_tile by done. cbn [mbind outcome_bind].
        rewrite read_slice_placed; [done|done|by eapply shard_at_placed].
      * split; [done|by intros; destruct (snd _)|]. intros i Hi.
        apply (proj1 (Forall_forall _ _) Hdef). by eapply list_elem_of_lookup_2, shard_at_lookup.
    + destruct o as [rs|q|]; [|done|done]. destruct Ho as [-> Hv]. split; [|exact Hv].
      apply (shard_results shards run).
Qed.

(** ** Lemmas: filling *)

(** Some shard covers every logical position. *)
Lemma cover_find fl tl pos fin l y :
  cover fl tl pos fin l -> pos <= y < fin -> exists s, s ∈ l /\ start s <= y < start s + len s.
Proof.
  revert pos. induction l as [|s l IH]; intros pos Hc Hy; cbn in Hc; [lia|].
  destruct Hc as (Hs & Hp & Hc). destruct (decide (y < pos + len s)).
  - exists s. split; [by left|lia].
  - destruct (IH _ Hc ltac:(lia)) as (s' & Hs' & Hy'). exists s'. split; [by right|done].
Qed.

Lemma fill_shard_returns f b m s : fst (shard_alone f b fill_indices m s) = Ret tt.
Proof.
  unfold shard_alone, fill_indices. generalize (Shard.as_slice m (mkShard (shard_slice f b s))).
  generalize (start s). generalize 0. generalize (Z.to_nat (len s)). intros k.
  induction k as [|k IH]; intros j st view; [done|]. cbn. case_decide; apply IH.
Qed.

Lemma fill_shard_at f b m s x :
  shard_in (zlen m) (mkShard (shard_slice f b s)) -> 0 <= x < len s ->
  zget (snd (shard_alone f b fill_indices m s)) x = Some (start s + x).
Proof.
  intros Hin Hx. unfold shard_alone, fill_indices.
  pose proof (zlen_as_slice m _ Hin) as Hz. cbn [cells shard_slice s_len] in Hz.
  destruct (eval_fill_from (start s) (Z.to_nat (len s)) 0
    (Shard.as_slice m (mkShard (shard_slice f b s)))) as [_ Hv]; [lia|lia|].
  rewrite Hv by lia. by rewrite decide_True by lia.
Qed.

Lemma fill_segments available f b plan m :
  segments_ok f b m -> plan_fits available (s_len f) (s_len b) plan ->
  let shards := deque_shards available (s_len f) (s_len b) plan in
  forall m', zlen m' = zlen m ->
  Forall (fun s => Shard.as_slice m' (mkShard (shard_slice f b s)) =
                   snd (shard_alone f b fill_indices m s)) shards ->
  Shard.as_slice m' (mkShard f) ++ Shard.as_slice m' (mkShard b) = zseq (s_len f + s_len b).
Proof.
  intros (Hbf & Hlf & Hmf & Hbb & Hlb & Hmb & Hdis) Hfit shards m' Hl Hs.
  pose proof (deque_shards_cover _ _ _ _ Hfit) as Hcov. fold shards in Hcov.
  assert (zlen (Shard.as_slice m' (mkShard f)) = s_len f) as Hzf by (apply zlen_subrange; cbn; lia).
  assert (zlen (Shard.as_slice m' (mkShard b)) = s_len b) as Hzb by (apply zlen_subrange; cbn; lia).
  apply zlist_eq; [rewrite zlen_app, zlen_zseq; lia|]. intros y Hy. rewrite zlen_app in Hy.
  rewrite zget_zseq by lia.
  destruct (cover_find _ _ _ _ _ y Hcov ltac:(lia)) as (s & Hin & Hsy).
  pose proof (proj1 (Forall_forall _ _) Hs s Hin) as Heq.
  apply list_elem_of_lookup in Hin as [i Hi].
  destruct (cover_lookup _ _ _ _ _ _ _ Hcov Hi) as (_ & [Hls Hp] & _).
  assert (shard_in (zlen m) (mkShard (shard_slice f b s))) as Hsin.
  { unfold shard_in, shard_slice; cbn. destruct (segment s); lia. }
  pose proof (fill_shard_at f b m s (y - start s) Hsin ltac:(lia)) as Hv.
  rewrite <- Heq in Hv. unfold Shard.as_slice in Hv |- *. cbn [cells shard_slice s_base s_len] in Hv |- *.
  rewrite zget_subrange in Hv by (destruct (segment s); lia).
  replace (start s + (y - start s)) with y in Hv by lia. rewrite <- Hv.
  destruct (segment s); destruct Hp as (? & Ho & ?).
  - rewrite zget_app_l by (unfold Shard.as_slice in Hzf; cbn in Hzf; lia).
    rewrite zget_subrange by lia. f_equal. lia.
  - unfold Shard.as_slice in Hzf; cbn in Hzf. rewrite zget_app_r by lia. rewrite Hzf.
    rewrite zget_subrange by lia. f_equal. lia.
Qed.

(** ** Properties *)

(** C27: The shard plan of a deque: for every plan whose descriptors fit in a
    [Vec], the loop ends after at most one round per tile, without a panic in
    any build profile, and its shards cover the logical sequence front to back
    without gap or overlap; each has at least one and at most [chunk] elements,
    lies in one segment, and shows there the elements from its logical start
    on. *)
Theorem deque_plan_tiles `{BuildProfile} {T} (available : option positive) (plan : PartitionPlan)
    (front back : list T) (fuel : nat) :
  plan_fits available (zlen front) (zlen back) plan ->
  let total := zlen front + zlen back in
  let chunk := plan_chunk available plan total in
  (Z.to_nat (tile_count total chunk) <= fuel)%nat ->
  exists shards, from_lengths available fuel (zlen front) (zlen back) plan = Some (Ret shards) /\
    cover (zlen front) total 0 total shards /\
    Forall (fun s => 1 <= len s <= chunk /\
      read_slice s front back = Ret (subrange (start s) (len s) (front ++ back))) shards /\
    concat ((fun s => subrange (start s) (len s) (front ++ back)) <$> shards) = front ++ back.
Proof.
  intros Hfit total chunk Hfuel. exists (deque_shards available (zlen front) (zlen back) plan).
  pose proof (deque_shards_cover _ _ _ _ Hfit) as Hcov. pose proof Hfit as (_ & _ & Htot & _).
  split; [by apply from_lengths_ok|]. split; [exact Hcov|]. split.
  - apply Forall_forall. intros s Hs. pose proof (proj1 (list_elem_of_lookup _ _) Hs) as [i Hi].
    destruct (cover_lookup _ _ _ _ _ _ _ Hcov Hi) as (_ & Hp & _).
    split; [|by apply read_slice_placed]. split; [apply Hp|]. by apply (deque_shard_len _ _ _ _ s Hfit).
  - pose proof (cover_concat (zlen front) (front ++ back) 0) as Hcat. rewrite zlen_app in Hcat.
    rewrite Hcat by done. rewrite Z.sub_0_r, <- zlen_app. apply subrange_all.
Qed.

Lemma deque_plan_tiles_witness :
  exists shards, @from_lengths debug_profile None 2 3 4 (chunk_size 4) = Some (Ret shards) /\
    shards = [mkDequeShard 0 Front 0 3; mkDequeShard 3 Back 0 1; mkDequeShard 4 Back 1 3].
Proof.
  destruct (@deque_plan_tiles debug_profile Z None (chunk_size 4) [1; 2; 3] [4; 5; 6; 7] 2)
    as (shards & Hs & _); [|vm_compute; lia|].
  - repeat split; vm_compute; discriminate.
  - exists shards. split; [exact Hs|]. vm_compute in Hs. by injection Hs as <-.
Defined.

(** The mutable deque driver: for every plan, executor and schedule the call
    returns or panics (it never aliases, and no arithmetic, bound or debug
    assertion fails); afterwards every shard of the two segments is as its
    closure alone would leave it, nothing outside the segments has changed, and
    the results are those of the shards in order, or the payload is that of one
    of the shards. *)
Theorem deque_partition_map_mut `{BuildProfile, ProgramText} (env : call_env) {T R}
    (f b : slice) (plan : PartitionPlan) (g : Z -> Z -> closure T R) (m : list T) (fuel : nat) :
  CallEnv env -> segments_ok f b m -> plan_fits (env_available env) (s_len f) (s_len b) plan ->
  let total := s_len f + s_len b in
  (Z.to_nat (tile_count total (plan_chunk (env_available env) plan total)) <= fuel)%nat ->
  let shards := deque_shards (env_available env) (s_len f) (s_len b) plan in
  exists o m', deque_partition_map_mut_with env fuel f b plan g m = Some (o, m') /\
    zlen m' = zlen m /\
    Forall (fun s => Shard.as_slice m' (mkShard (shard_slice f b s)) = snd (shard_alone f b g m s))
      shards /\
    (forall x, 0 <= x -> ~ in_slice f x -> ~ in_slice b x -> zget m' x = zget m x) /\
    match o with
    | Ret rs => Forall2 (fun s r => fst (shard_alone f b g m s) = Ret r) shards rs
    | Panic q => Exists (fun s => fst (shard_alone f b g m s) = Panic q) shards
    | UB => False
    end.
Proof.
  intros He Hseg Hfit total Hfuel shards.
  destruct (map_mut_outcome env f b plan g m Hseg Hfit) as (o & Ho & Hres). fold shards in Ho, Hres.
  exists o, (deque_after shards f b g m). unfold deque_partition_map_mut_with, planned.
  rewrite from_lengths_ok by done. fold shards. rewrite Ho. split; [done|].
  destruct (deque_after_facts env f b plan g m Hseg Hfit) as (Hl & Hs & Hout). fold shards in Hl, Hs, Hout.
  split; [exact Hl|]. split; [exact Hs|]. split; [exact Hout|].
  destruct o as [rs|q|]; [|destruct Hres as (i & Hi & Hq)|done].
  - destruct Hres as [-> Hv]. by apply returned_results.
  - apply Exists_exists. exists (shard_at shards i). split; [|done].
    by eapply list_elem_of_lookup_2, shard_at_lookup.
Qed.

(** The front segment [2, 5) and the back segment [0, 1) of a buffer of six. *)
Lemma deque_partition_map_mut_witness :
  @deque_partition_map_mut_with debug_profile _ registered_env _ _ 2 (Slice 2 3) (Slice 0 1)
    (chunk_size 2) tag_start [9; 9; 9; 9; 9; 9] = Some (Ret [2; 1; 1], [3; 9; 0; 9; 2; 9]) /\
  exists o m', @deque_partition_map_mut_with debug_profile _ registered_env _ _ 2 (Slice 2 3)
    (Slice 0 1) (chunk_size 2) tag_start [9; 9; 9; 9; 9; 9] = Some (o, m') /\ zlen m' = 6.
Proof.
  split; [reflexivity|].
  destruct (@deque_partition_map_mut debug_profile _ registered_env _ _ (Slice 2 3) (Slice 0 1)
    (chunk_size 2) tag_start [9; 9; 9; 9; 9; 9] 2 registered_env_ok) as (o & m' & He & Hl & _).
  - repeat split; try (vm_compute; discriminate). intros x. unfold in_slice; cbn. lia.
  - repeat split; vm_compute; discriminate.
  - vm_compute. lia.
  - exists o, m'. split; [exact He|exact Hl].
Defined.

(** The shared deque driver is the sequential loop over the shards of the
    logical sequence: when the closure returns for each, the call returns those
    values front to back, and otherwise it panics with the payload of one of
    them; slicing and indexing never fail. *)
Theorem deque_partition_map_sequential `{BuildProfile, ProgramText} (env : call_env) {T R}
    (s1 s2 : list T) (plan : PartitionPlan) (g : Z -> list T -> outcome R) (fuel : nat) :
  CallEnv env -> plan_fits (env_available env) (zlen s1) (zlen s2) plan ->
  let total := zlen s1 + zlen s2 in
  (Z.to_nat (tile_count total (plan_chunk (env_available env) plan total)) <= fuel)%nat ->
  let shards := deque_shards (env_available env) (zlen s1) (zlen s2) plan in
  let run s := g (start s) (subrange (start s) (len s) (s1 ++ s2)) in
  Forall (fun s => defined (run s)) shards ->
  match mapM run shards with
  | Ret rs => deque_partition_map_with env fuel s1 s2 plan (pure_body g) tt = Some (Ret rs, tt)
  | _ => exists s q, s ∈ shards /\ run s = Panic q /\
           deque_partition_map_with env fuel s1 s2 plan (pure_body g) tt = Some (Panic q, tt)
  end.
Proof.
  intros He Hfit total Hfuel shards run Hdef.
  destruct (map_read_outcome env s1 s2 plan g Hfit Hdef) as (o & Ho & Hres).
  fold shards in Ho, Hres. fold run in Hres.
  unfold deque_partition_map_with, planned. rewrite from_lengths_ok by done. fold shards. rewrite Ho.
  destruct o as [rs|q|]; [|destruct Hres as (i & Hi & Hq)|done].
  - destruct Hres as [-> Hv]. rewrite mapM_ret_values; [done|].
    intros s [i Hi]%list_elem_of_lookup.
    assert (0 <= Z.of_nat i < zlen shards) as Hr by (apply lookup_lt_Some in Hi; unfold zlen; lia).
    pose proof (shard_at_lookup shards (Z.of_nat i) Hr) as Ha. rewrite Nat2Z.id, Hi in Ha.
    injection Ha as ->. by apply Hv.
  - assert (shard_at shards i ∈ shards) as Hin by (by eapply list_elem_of_lookup_2, shard_at_lookup).
    destruct (mapM run shards) as [rs|p|] eqn:E; [|by exists (shard_at shards i), q..].
    destruct (mapM_Ret_inv _ _ _ E _ Hin) as [v Hv].
    assert (Ret v = Panic q) as Hbad by (rewrite <- Hv; exact Hq). discriminate Hbad.
Qed.

Lemma deque_partition_map_sequential_witness :
  @deque_partition_map_with debug_profile _ scoped_env _ _ _ 2 [1; 2; 3] [4] (chunk_size 2)
    (pure_body sum_shard) tt = Some (Ret [3; 3; 4], tt).
Proof.
  refine (@deque_partition_map_sequential debug_profile _ scoped_env _ _ [1; 2; 3] [4] (chunk_size 2)
    sum_shard 2 scoped_env_ok _ _ _).
  - repeat split; vm_compute; discriminate.
  - vm_compute. lia.
  - apply (Forall_impl (fun s => In s
      [mkDequeShard 0 Front 0 2; mkDequeShard 2 Front 2 1; mkDequeShard 3 Back 0 1])).
    + apply Forall_forall. intros s Hs. by apply list_elem_of_In in Hs.
    + intros s [<-|[<-|[<-|[]]]]; discriminate.
Defined.

(** The logical index a shard of a deque is given is right: filling every
    shard with [start + j] numbers the elements front to back across the wrap
    point, and changes nothing outside the two segments. *)
Theorem deque_partition_fill `{BuildProfile, ProgramText} (env : call_env)
    (f b : slice) (plan : PartitionPlan) (m : list Z) (fuel : nat) :
  CallEnv env -> segments_ok f b m -> plan_fits (env_available env) (s_len f) (s_len b) plan ->
  let total := s_len f + s_len b in
  (Z.to_nat (tile_count total (plan_chunk (env_available env) plan total)) <= fuel)%nat ->
  exists m', deque_partition_for_each_mut_with env fuel f b plan fill_indices m = Some (Ret tt, m') /\
    Shard.as_slice m' (mkShard f) ++ Shard.as_slice m' (mkShard b) = zseq total /\
    zlen m' = zlen m /\
    forall x, 0 <= x -> ~ in_slice f x -> ~ in_slice b x -> zget m' x = zget m x.
Proof.
  intros He Hseg Hfit total Hfuel.
  set (shards := deque_shards (env_available env) (s_len f) (s_len b) plan).
  destruct (map_mut_outcome env f b plan fill_indices m Hseg Hfit) as (o & Ho & Hres).
  fold shards in Ho, Hres.
  destruct (deque_after_facts env f b plan fill_indices m Hseg Hfit) as (Hl & Hs & Hout).
  fold shards in Hl, Hs, Hout.
  exists (deque_after shards f b fill_indices m). split; [|split; [|split; [exact Hl|exact Hout]]].
  - unfold deque_partition_for_each_mut_with, planned. rewrite from_lengths_ok by done. fold shards.
    unfold for_each_mut. rewrite M_bind_eq, Ho. destruct o as [rs|q|]; [done| |done].
    destruct Hres as (i & Hi & Hq). by rewrite fill_shard_returns in Hq.
  - by apply (fill_segments (env_available env) f b plan m).
Qed.

Lemma deque_partition_fill_witness :
  exists m', @deque_partition_for_each_mut_with debug_profile _ scoped_env _ _ 2 (Slice 3 3) (Slice 0 2)
    (parts 2) fill_indices [9; 9; 9; 9; 9; 9] = Some (Ret tt, m') /\ m' = [3; 4; 9; 0; 1; 2].
Proof.
  destruct (@deque_partition_fill debug_profile _ scoped_env (Slice 3 3) (Slice 0 2) (parts 2)
    [9; 9; 9; 9; 9; 9] 2 scoped_env_ok) as (m' & He & _).
  - repeat split; try (vm_compute; discriminate). intros x. unfold in_slice; cbn. lia.
  - repeat split; vm_compute; discriminate.
  - vm_compute. lia.
  - exists m'. split; [exact He|]. vm_compute in He. by injection He as <-.
Defined.
