(* ===== verification/BrandedVec.v ===== *)
(** * Branded vectors ([src/collections/branded_vec/])

    The standard [Vec] as the source uses it: its elements, its capacity, the
    panics its documentation names.  A branded cell is its payload
    ([repr(transparent)]), so the elements are plain values.  Ghost logs record
    every value moved in, dropped and moved out, so that ownership can be
    stated.  Closures of the client are computations on a state of its own that
    may panic.  Main results: every value is owned exactly once whatever
    operations run and however they end; the round trips of the operations; the
    generated vector. *)
From S2P Require Import Prelude Region Cow.
From stdpp Require Import base numbers list.
Local Open Scope Z_scope.

(** The allocator: the most elements an allocation can hold, and the capacity it
    grows or shrinks to. *)
Class Allocator : Type := {
  max_len : Z;
  grown : Z -> Z -> Z;      (* old capacity, elements needed *)
  shrunk : Z -> Z -> Z      (* old capacity, elements held *)
}.
Class AllocatorOk `{Allocator} : Prop := {
  max_len_usize : 0 <= max_len <= usize_max;
  grown_enough c n : 0 <= n <= max_len -> n <= grown c n <= max_len;
  shrunk_enough c n : 0 <= n <= c -> n <= shrunk c n <= c
}.

Record vec (T : Type) : Type := mkVec { cells : list T; capacity : Z }.
Arguments mkVec {T}.
Arguments cells {T}.
Arguments capacity {T}.

(** The vector operated on, the ownership logs and the client's state. *)
Record store (T St : Type) : Type := mkStore {
  this : vec T;
  given : list T;       (* values moved into the vector or its operations *)
  drops : list T;       (* values dropped, in order *)
  returned : list T;    (* values moved out *)
  client : St
}.
Arguments mkStore {T St}.
Arguments this {T St}.
Arguments given {T St}.
Arguments drops {T St}.
Arguments returned {T St}.
Arguments client {T St}.

Section code.
Context `{Allocator} {T St : Type}.
#[local] Abbreviation MV A := (M (store T St) A).

Definition elems (s : store T St) : list T := cells (this s).

Definition set_cells (l : list T) (s : store T St) : store T St :=
  mkStore (mkVec l (capacity (this s))) (given s) (drops s) (returned s) (client s).
Definition set_capacity (c : Z) (s : store T St) : store T St :=
  mkStore (mkVec (elems s) c) (given s) (drops s) (returned s) (client s).
Definition accept (l : list T) (s : store T St) : store T St :=
  mkStore (this s) (given s ++ l) (drops s) (returned s) (client s).
Definition drop_values (l : list T) (s : store T St) : store T St :=
  mkStore (this s) (given s) (drops s ++ l) (returned s) (client s).
Definition give_out (l : list T) (s : store T St) : store T St :=
  mkStore (this s) (given s) (drops s) (returned s ++ l) (client s).

Definition set_client (k : St) (s : store T St) : store T St :=
  mkStore (this s) (given s) (drops s) (returned s) k.

(** A call of a client closure. *)
Definition call {A} (f : M St A) : MV A := fun s =>
  let '(o, c) := f (client s) in
  (o, mkStore (this s) (given s) (drops s) (returned s) c).

(** ** [vec.rs] *)

Definition new (s : store T St) : store T St :=
  mkStore (mkVec [] 0) (given s) (drops s) (returned s) (client s).

Definition with_capacity (c : Z) : MV unit := fun s =>
  if decide (c <= max_len)
  then (Ret tt, mkStore (mkVec [] (grown 0 c)) (given s) (drops s) (returned s) (client s))
  else (Panic CapacityPanic, s).

Definition len (s : store T St) : Z := zlen (elems s).
Definition is_empty (s : store T St) : bool := bool_decide (len s = 0).
Definition vec_capacity (s : store T St) : Z := capacity (this s).
Definition as_cells (s : store T St) : list T := elems s.

(** ** [ops.rs] *)

Definition reserve (additional : Z) : MV unit := fun s =>
  let need := len s + additional in
  if decide (need <= capacity (this s)) then (Ret tt, s)
  else if decide (need <= max_len)
  then (Ret tt, set_capacity (grown (capacity (this s)) need) s)
  else (Panic CapacityPanic, s).

(** The value is the callee's from the start: a panic drops it. *)
Definition push (value : T) : MV unit := fun s =>
  let s := accept [value] s in
  match reserve 1 s with
  | (Ret _, s) => (Ret tt, set_cells (elems s ++ [value]) s)
  | (o, s) => (o, drop_values [value] s)
  end.

Definition pop : MV (option T) := fun s =>
  match last (elems s) with
  | Some x => (Ret (Some x), give_out [x] (set_cells (take (length (elems s) - 1) (elems s)) s))
  | None => (Ret None, s)
  end.

Definition insert (index : Z) (value : T) : MV unit := fun s =>
  let s := accept [value] s in
  if decide (0 <= index <= len s) then
    match reserve 1 s with
    | (Ret _, s) =>
        let i := Z.to_nat index in
        (Ret tt, set_cells (take i (elems s) ++ value :: drop i (elems s)) s)
    | (o, s) => (o, drop_values [value] s)
    end
  else (Panic BoundsPanic, drop_values [value] s).

Definition remove (index : Z) : MV T := fun s =>
  match zget (elems s) index with
  | Some x =>
      let i := Z.to_nat index in
      (Ret x, give_out [x] (set_cells (take i (elems s) ++ drop (S i) (elems s)) s))
  | None => (Panic BoundsPanic, s)
  end.

(** The last value takes the removed one's place. *)
Definition swap_remove (index : Z) : MV T := fun s =>
  match zget (elems s) index, last (elems s) with
  | Some x, Some y =>
      let i := Z.to_nat index in
      (Ret x, give_out [x] (set_cells (take (length (elems s) - 1) (<[i := y]> (elems s))) s))
  | _, _ => (Panic BoundsPanic, s)
  end.

Definition swap (a b : Z) : MV unit := fun s =>
  match zget (elems s) a, zget (elems s) b with
  | Some x, Some y => (Ret tt, set_cells (zset b x (zset a y (elems s))) s)
  | _, _ => (Panic BoundsPanic, s)
  end.

Definition truncate (n : Z) : MV unit := fun s =>
  (Ret tt, drop_values (drop (Z.to_nat n) (elems s)) (set_cells (take (Z.to_nat n) (elems s)) s)).

Definition clear : MV unit := truncate 0.

Definition shrink_to_fit : MV unit := fun s =>
  (Ret tt, set_capacity (shrunk (capacity (this s)) (len s)) s).

(** One value made by the client and stored; a panic leaves those before it.  (An
    iterator of known length reserves for all its values first.) *)
Definition push_made (f : M St T) : MV unit := fun s =>
  match call f s with
  | (Ret x, s) => push x s
  | (Panic p, s) => (Panic p, s)
  | (UB, s) => (UB, s)
  end.

Fixpoint push_all (fs : list (M St T)) : MV unit :=
  match fs with [] => mret tt | f :: fs => push_made f ≫= fun _ => push_all fs end.

Definition resize_with (new_len : Z) (f : M St T) : MV unit := fun s =>
  if decide (len s < new_len)
  then (reserve (new_len - len s) ≫= fun _ => push_all (replicate (Z.to_nat (new_len - len s)) f)) s
  else truncate new_len s.

(** [retain_mut]: the closure may change a value before it is kept; when it
    panics the value at hand and those not yet visited stay.  [kept]: the prefix
    already decided. *)
Fixpoint retain_loop (f : T -> M St (T * bool)) (kept rest : list T) : MV unit := fun s =>
  match rest with
  | [] => (Ret tt, set_cells kept s)
  | x :: rest =>
      match call (f x) s with
      | (Ret (x', true), s) => retain_loop f (kept ++ [x']) rest s
      | (Ret (x', false), s) => retain_loop f kept rest (drop_values [x'] s)
      | (Panic p, s) => (Panic p, set_cells (kept ++ x :: rest) s)
      | (UB, s) => (UB, set_cells (kept ++ x :: rest) s)
      end
  end.

Definition retain_mut (f : T -> M St (T * bool)) : MV unit := fun s =>
  retain_loop f [] (elems s) s.

Definition into_boxed_cells : MV (list T) := fun s =>
  (Ret (elems s), give_out (elems s) (new s)).

(** [into_vec]: the same allocation, seen as plain values. *)
Definition into_vec : MV (vec T) := fun s => (Ret (this s), give_out (elems s) (new s)).

(** [into_iter]: the values, in order. *)
Definition into_iter : MV (list T) := v ← into_vec; mret (cells v).

(** [From<Vec<T>>], assigned to the vector operated on, whose elements are
    dropped. *)
Definition from_vec (values : vec T) (s : store T St) : store T St :=
  mkStore values (given s ++ cells values) (drops s ++ elems s) (returned s) (client s).

Definition split_off (at_ : Z) : MV (list T) := fun s =>
  if decide (0 <= at_ <= len s) then
    let i := Z.to_nat at_ in
    (Ret (drop i (elems s)), give_out (drop i (elems s)) (set_cells (take i (elems s)) s))
  else (Panic BoundsPanic, s).

(** [append(other)]: [other]'s values move over unless the reservation panics. *)
Definition append (other : list T) : MV (list T) := fun s =>
  match reserve (zlen other) s with
  | (Ret _, s) => (Ret [], set_cells (elems s ++ other) (accept other s))
  | (Panic p, s) => (Panic p, s)
  | (UB, s) => (UB, s)
  end.

(** ** [iter.rs]: draining *)

(** A use of the draining iterator: [next] or [next_back]. *)
Inductive drain_step : Type := Next | NextBack.

Definition drain_next (inner : list T) : option (T * list T) :=
  match inner with [] => None | x :: inner => Some (x, inner) end.
Definition drain_next_back (inner : list T) : option (T * list T) :=
  match last inner with
  | Some x => Some (x, take (length inner - 1) inner)
  | None => None
  end.

(** What a sequence of calls yields, and what is left. *)
Fixpoint drain_run (steps : list drain_step) (inner : list T) : list (option T) * list T :=
  match steps with
  | [] => ([], inner)
  | step :: steps =>
      match (match step with Next => drain_next inner | NextBack => drain_next_back inner end) with
      | Some (x, inner) => let '(ys, rest) := drain_run steps inner in (Some x :: ys, rest)
      | None => let '(ys, rest) := drain_run steps inner in (None :: ys, rest)
      end
  end.

(** [drain(start..end)], used by [steps] and then dropped: what was not yielded
    is dropped, the rest of the vector closes up. *)
Definition drain (start end_ : Z) (steps : list drain_step) : MV (list (option T)) := fun s =>
  if decide (0 <= start <= end_ /\ end_ <= len s) then
    let '(ys, rest) := drain_run steps (subrange start (end_ - start) (elems s)) in
    (Ret ys, drop_values rest (give_out (omap id ys)
       (set_cells (take (Z.to_nat start) (elems s) ++ drop (Z.to_nat end_) (elems s)) s)))
  else (Panic BoundsPanic, s).

(** ** [Extend], [from_fn], [with_generated] *)

Definition extend (items : list (M St T)) : MV unit := push_all items.

Definition from_fn (n : Z) (generate : Z -> M St T) : MV unit :=
  with_capacity n ≫= fun _ => extend (generate <$> zseq n).

(** [collect]: into a vector just made. *)
Definition from_iter (items : list (M St T)) : MV unit := fun s => extend items (new s).

(** A scope drops its vector at its end, however it ends. *)
Definition with_generated {R} (n : Z) (generate : Z -> M St T) (f : MV R) : MV R := fun s =>
  let '(o, s) := (from_fn n generate ≫= fun _ => f) s in
  (o, drop_values (elems s) (new s)).

(** ** [views.rs] *)

Definition get (index : Z) (s : store T St) : option T := zget (elems s) index.
Definition get_mut (index : Z) (x : T) (s : store T St) : option (store T St) :=
  if decide (0 <= index < len s) then Some (set_cells (zset index x (elems s)) s) else None.
Definition as_slice (s : store T St) : list T := elems s.
(** What the client leaves in the exclusive slice. *)
Definition as_mut_cells (l : list T) (s : store T St) : store T St := set_cells l s.
Definition as_mut_slice (l : list T) (s : store T St) : store T St := set_cells l s.

(** The [Cow] views: those of the slice of cells, which is the whole buffer. *)
Definition buffer (s : store T St) : slice := Slice 0 (len s).

Section cows.
Context {CS : Type} (clone : T -> M CS T).
Definition vec_borrow_cow (s : store T St) : M CS (Cow T) :=
  Cow.borrow_cow clone (elems s) (buffer s).
Definition vec_retain_cow (s : store T St) : M CS (Cow T) :=
  Cow.retain_cow clone (elems s) (buffer s).
Definition vec_cow_with `{CowPolicy C} (s : store T St) (policy : C) : M CS (Cow T) :=
  Cow.borrow_cow_with clone (elems s) (buffer s) policy.
Definition vec_cow_if (s : store T St) (decision : RetainDecision) : M CS (Cow T) :=
  Cow.borrow_cow_if clone (elems s) (buffer s) decision.
End cows.

(** [clone_with]: collects clones of the elements into a new vector. *)
Definition clone_with (clone : T -> M St T) : MV (list T) := fun s =>
  call (mapM clone (elems s)) s.
End code.

(** ** Specification *)

(** Every value moved in is in the vector, dropped or moved out, once. *)
Definition linear {T St} (s : store T St) : Prop :=
  given s ≡ₚ elems s ++ drops s ++ returned s.

(** The operations that change the vector, as programs see them. *)
Inductive vop (T St : Type) : Type :=
| Push (x : T) | Pop | Insert (i : Z) (x : T) | Remove (i : Z) | SwapRemove (i : Z) | Swap (a b : Z)
| Reserve (n : Z) | Clear | Truncate (n : Z) | ShrinkToFit | ResizeWith (n : Z) (f : M St T)
| Retain (f : T -> M St bool) | IntoBoxed | IntoVec | SplitOff (i : Z) | Append (other : list T)
| Drain (a b : Z) (steps : list drain_step) | Extend (items : list (M St T)) | FromVec (v : vec T).
Arguments Push {T St}. Arguments Pop {T St}. Arguments Insert {T St}. Arguments Remove {T St}.
Arguments SwapRemove {T St}. Arguments Swap {T St}. Arguments Reserve {T St}. Arguments Clear {T St}.
Arguments Truncate {T St}. Arguments ShrinkToFit {T St}. Arguments ResizeWith {T St}.
Arguments Retain {T St}. Arguments IntoBoxed {T St}. Arguments IntoVec {T St}.
Arguments SplitOff {T St}. Arguments Append {T St}. Arguments Drain {T St}. Arguments Extend {T St}. Arguments FromVec {T St}.

(** The state an operation leaves, whether it returned or panicked. *)
Definition after `{Allocator} {T St} (o : vop T St) (s : store T St) : store T St :=
  match o with
  | Push x => snd (push x s)
  | Pop => snd (pop s)
  | Insert i x => snd (insert i x s)
  | Remove i => snd (remove i s)
  | SwapRemove i => snd (swap_remove i s)
  | Swap a b => snd (swap a b s)
  | Reserve n => snd (reserve n s)
  | Clear => snd (clear s)
  | Truncate n => snd (truncate n s)
  | ShrinkToFit => snd (shrink_to_fit s)
  | ResizeWith n f => snd (resize_with n f s)
  | Retain f => snd (retain_mut (fun x => b ← f x; mret (x, b)) s)
  | IntoBoxed => snd (into_boxed_cells s)
  | IntoVec => snd (into_vec s)
  | SplitOff i => snd (split_off i s)
  | Append other => snd (append other s)
  | Drain a b steps => snd (drain a b steps s)
  | Extend items => snd (extend items s)
  | FromVec v => from_vec v s
  end.

(** ** Lemmas: rearrangements *)

Lemma insert_perm {A} (l : list A) i x z : l !! i = Some z -> z :: <[i := x]> l ≡ₚ x :: l.
Proof.
  intros Hi. pose proof (lookup_lt_Some _ _ _ Hi).
  rewrite insert_take_drop by done. rewrite <- (take_drop_middle l i z Hi) at 3. solve_Permutation.
Qed.

Lemma last_split {A} (l : list A) x : last l = Some x -> l = take (length l - 1) l ++ [x].
Proof.
  intros [l' ->]%last_Some. rewrite length_app. cbn. rewrite Nat.add_sub.
  by rewrite take_app_length.
Qed.

Lemma zget_Some {A} (l : list A) i x : zget l i = Some x -> 0 <= i /\ l !! Z.to_nat i = Some x.
Proof. unfold zget. by case_decide. Qed.

Lemma remove_perm {A} (l : list A) i x :
  zget l i = Some x -> l ≡ₚ (take (Z.to_nat i) l ++ drop (S (Z.to_nat i)) l) ++ [x].
Proof.
  intros [_ Hi]%zget_Some. rewrite <- (take_drop_middle l _ x Hi) at 1. solve_Permutation.
Qed.

Lemma swap_perm {A} (l : list A) a b x y :
  zget l a = Some x -> zget l b = Some y -> zset b x (zset a y l) ≡ₚ l.
Proof.
  intros [Ha0 Ha]%zget_Some [Hb0 Hb]%zget_Some. unfold zset.
  apply (Permutation_cons_inv (a := y)).
  rewrite insert_perm; [by apply insert_perm|].
  destruct (decide (Z.to_nat a = Z.to_nat b)) as [<-|Hne].
  - apply list_lookup_insert_eq. by eapply lookup_lt_Some.
  - by rewrite list_lookup_insert_ne.
Qed.

Lemma swap_remove_perm {A} (l : list A) i x y :
  zget l i = Some x -> last l = Some y ->
  l ≡ₚ take (length l - 1) (<[Z.to_nat i := y]> l) ++ [x].
Proof.
  intros [_ Hi]%zget_Some Hl. apply (Permutation_cons_inv (a := y)).
  rewrite <- (insert_perm l (Z.to_nat i) y x Hi).
  assert (last (<[Z.to_nat i := y]> l) = Some y) as Hlast.
  { rewrite last_lookup, length_insert in *. destruct (decide (Z.to_nat i = pred (length l))) as [E|E].
    - rewrite <- E. apply list_lookup_insert_eq. by eapply lookup_lt_Some.
    - by rewrite list_lookup_insert_ne. }
  pose proof (last_split _ _ Hlast) as E. rewrite length_insert in E. rewrite E at 1. solve_Permutation.
Qed.

Lemma drain_run_perm {A} steps (inner : list A) :
  inner ≡ₚ omap id (fst (drain_run steps inner)) ++ snd (drain_run steps inner).
Proof.
  revert inner. induction steps as [|step steps IH]; intros inner; [done|]. cbn.
  destruct step.
  - destruct inner as [|x inner]; cbn.
    + specialize (IH []). by destruct (drain_run steps []).
    + specialize (IH inner). destruct (drain_run steps inner); cbn in *. by rewrite <- IH.
  - unfold drain_next_back. destruct (last inner) as [x|] eqn:E; cbn.
    + specialize (IH (take (length inner - 1) inner)). apply last_split in E.
      destruct (drain_run steps _); cbn in *. rewrite <- IH. rewrite E at 1. solve_Permutation.
    + specialize (IH inner). by destruct (drain_run steps inner).
Qed.

(** ** Lemmas: every operation preserves ownership *)

Lemma linear_move {T St} (s s' : store T St) (more : list T) :
  given s' = given s ++ more ->
  elems s' ++ drops s' ++ returned s' ≡ₚ (elems s ++ drops s ++ returned s) ++ more ->
  linear s -> linear s'.
Proof. unfold linear. intros -> -> ->. done. Qed.

(** Nothing moves in. *)
Lemma linear_keep {T St} (s s' : store T St) :
  given s' = given s ->
  elems s' ++ drops s' ++ returned s' ≡ₚ elems s ++ drops s ++ returned s -> linear s -> linear s'.
Proof. unfold linear. by intros -> ->. Qed.

Section linearity.
Context `{Allocator} {T St : Type}.
Implicit Types s : store T St.

Lemma linear_reserve n s : linear s -> linear (snd (reserve n s)).
Proof using. unfold reserve. by repeat case_decide. Qed.

Lemma reserve_keeps n s :
  elems (snd (reserve n s)) = elems s /\ given (snd (reserve n s)) = given s /\
  drops (snd (reserve n s)) = drops s /\ returned (snd (reserve n s)) = returned s.
Proof using. unfold reserve. by repeat case_decide. Qed.

Lemma linear_push x s : linear s -> linear (snd (push x s)).
Proof using.
  intros Hs. unfold push. destruct (reserve_keeps 1 (accept [x] s)) as (He & Hg & Hd & Hr).
  destruct (reserve 1 (accept [x] s)) as [[u|p|] s1]; cbn in *;
    apply (linear_move s _ [x]); cbn; rewrite ?Hd, ?Hr, ?He; try done;
    unfold elems in *; cbn in *; rewrite ?He; solve_Permutation.
Qed.

Lemma linear_push_made f s : linear s -> linear (snd (push_made f s)).
Proof using.
  intros Hs. unfold push_made, call. destruct (f (client s)) as [[x|p|] c]; [|done..].
  by apply linear_push.
Qed.

Lemma linear_push_all fs s : linear s -> linear (snd (push_all fs s)).
Proof using.
  revert s. induction fs as [|f fs IH]; intros s Hs; [done|]. cbn [push_all]. rewrite M_bind_eq.
  pose proof (linear_push_made f s Hs). destruct (push_made f s) as [[u|p|] s1]; [by apply IH|done..].
Qed.

Lemma linear_truncate n s : linear s -> linear (snd (truncate n s)).
Proof using.
  apply linear_keep; [done|]. unfold truncate, elems; cbn.
  rewrite <- (take_drop (Z.to_nat n) (cells (this s))) at 3. solve_Permutation.
Qed.

Lemma linear_resize n f s : linear s -> linear (snd (resize_with n f s)).
Proof using.
  intros Hs. unfold resize_with. case_decide; [|by apply linear_truncate]. rewrite M_bind_eq.
  pose proof (linear_reserve (n - len s) s Hs). destruct (reserve (n - len s) s) as [[u|p|] s1];
    [by apply linear_push_all|done..].
Qed.

Lemma linear_retain_loop (f : T -> M St bool) kept rest s :
  given s ≡ₚ (kept ++ rest) ++ drops s ++ returned s ->
  linear (snd (retain_loop (fun x => b ← f x; mret (x, b)) kept rest s)).
Proof using.
  revert kept s. induction rest as [|x rest IH]; intros kept s Hs; cbn [retain_loop].
  - unfold linear, elems; cbn. by rewrite app_nil_r in Hs.
  - unfold call. rewrite M_bind_eq. destruct (f x (client s)) as [[[|]|p|] c]; cbn.
    + apply IH; cbn. rewrite Hs. solve_Permutation.
    + apply IH; cbn. rewrite Hs. solve_Permutation.
    + unfold linear, elems; cbn. exact Hs.
    + unfold linear, elems; cbn. exact Hs.
Qed.

Lemma linear_retain (f : T -> M St bool) s :
  linear s -> linear (snd (retain_mut (fun x => b ← f x; mret (x, b)) s)).
Proof using. intros Hs. by apply linear_retain_loop. Qed.

Lemma linear_insert i x s : linear s -> linear (snd (insert i x s)).
Proof using.
  intros Hs. unfold insert. case_decide.
  2: { apply (linear_move s _ [x]); [done| |done]. unfold elems; cbn. solve_Permutation. }
  destruct (reserve_keeps 1 (accept [x] s)) as (He & Hg & Hd & Hr).
  destruct (reserve 1 (accept [x] s)) as [[u|p|] s1]; cbn in *;
    apply (linear_move s _ [x]); cbn; rewrite ?Hd, ?Hr; try done;
    unfold elems in *; cbn in *; rewrite ?He; [|solve_Permutation..].
  rewrite <- (take_drop (Z.to_nat i) (cells (this s))) at 3. solve_Permutation.
Qed.

(** Moving part of the contents out. *)
Lemma linear_take_out kept out s :
  elems s ≡ₚ kept ++ out -> linear s -> linear (give_out out (set_cells kept s)).
Proof using.
  intros Hp. apply linear_keep; [done|]. unfold elems in *; cbn. rewrite Hp. solve_Permutation.
Qed.

Lemma linear_drain a b steps s : linear s -> linear (snd (drain a b steps s)).
Proof using.
  intros Hs. unfold drain. case_decide as Hab; [|done].
  pose proof (drain_run_perm steps (subrange a (b - a) (elems s))) as Hp.
  destruct (drain_run steps _) as [ys rest]. cbn in *. revert Hs. apply linear_keep; [done|].
  unfold elems in *; cbn.
  assert (cells (this s) ≡ₚ (take (Z.to_nat a) (cells (this s)) ++ drop (Z.to_nat b) (cells (this s)))
            ++ omap id ys ++ rest) as E.
  { rewrite <- Hp. unfold subrange. unfold len, zlen, elems in Hab.
    rewrite <- (take_drop (Z.to_nat a) (cells (this s))) at 1.
    rewrite <- (take_drop (Z.to_nat (b - a)) (drop (Z.to_nat a) (cells (this s)))) at 1.
    rewrite drop_drop. replace (Z.to_nat a + Z.to_nat (b - a))%nat with (Z.to_nat b) by lia.
    solve_Permutation. }
  rewrite E at 3. solve_Permutation.
Qed.

Lemma linear_after (o : vop T St) s : linear s -> linear (after o s).
Proof using.
  intros Hs. destruct o; cbn [after].
  - by apply linear_push.
  - unfold pop. destruct (last (elems s)) as [x|] eqn:E; [|done].
    apply linear_take_out; [|done]. by rewrite <- last_split.
  - by apply linear_insert.
  - unfold remove. destruct (zget (elems s) i) as [x|] eqn:E; [|done].
    apply linear_take_out; [|done]. by apply remove_perm.
  - unfold swap_remove. destruct (zget (elems s) i) as [x|] eqn:E; [|done].
    destruct (last (elems s)) as [y|] eqn:E'; [|done].
    apply linear_take_out; [|done]. by apply swap_remove_perm.
  - unfold swap. destruct (zget (elems s) a) as [x|] eqn:Ea; [|done].
    destruct (zget (elems s) b) as [y|] eqn:Eb; [|done].
    revert Hs. apply linear_keep; [done|]. unfold elems in *; cbn. by rewrite swap_perm.
  - by apply linear_reserve.
  - by apply linear_truncate.
  - by apply linear_truncate.
  - done.
  - by apply linear_resize.
  - by apply linear_retain.
  - revert Hs. apply linear_keep; [done|]. unfold elems; cbn. solve_Permutation.
  - revert Hs. apply linear_keep; [done|]. unfold elems; cbn. solve_Permutation.
  - unfold split_off. case_decide; [|done]. apply linear_take_out; [|done].
    by rewrite take_drop.
  - unfold append. destruct (reserve_keeps (zlen other) s) as (He & Hg & Hd & Hr).
    pose proof (linear_reserve (zlen other) s Hs).
    destruct (reserve (zlen other) s) as [[u|p|] s1]; cbn in *; [|done..].
    apply (linear_move s _ other); cbn; rewrite ?Hg, ?Hd, ?Hr, ?He; [done| |done].
    unfold elems at 1; cbn. solve_Permutation.
  - by apply linear_drain.
  - by apply linear_push_all.
  - apply (linear_move s _ (cells v)); [done| |done]. unfold elems; cbn. solve_Permutation.
Qed.
End linearity.

(** What client closures run in order produce, up to the first panic. *)
Fixpoint made {T St} (fs : list (M St T)) (c : St) : outcome unit * list T * St :=
  match fs with
  | [] => (Ret tt, [], c)
  | f :: fs =>
      match f c with
      | (Ret x, c) => let '(o, xs, c) := made fs c in (o, x :: xs, c)
      | (Panic p, c) => (Panic p, [], c)
      | (UB, c) => (UB, [], c)
      end
  end.

(** The capacity holds the elements and stays in the allocator's bound. *)
Definition wf `{Allocator} {T St} (s : store T St) : Prop := len s <= capacity (this s) <= max_len.

(** ** Lemmas: functional behaviour *)

Section functional.
Context {A : Allocator} (Hok : @AllocatorOk A) {T St : Type}.
Implicit Types s : store T St.

Lemma reserve_ok n s :
  wf s -> 0 <= n -> len s + n <= max_len ->
  exists c, reserve n s = (Ret tt, set_capacity c s) /\ len s + n <= c <= max_len.
Proof using Hok.
  intros [Hl Hc] Hn Hm. unfold reserve. pose proof (zlen_nonneg (elems s)) as H0'.
  case_decide.
  - exists (capacity (this s)). split; [by destruct s as [[? ?] ? ? ? ?]|lia].
  - rewrite decide_True by done. eexists. split; [reflexivity|]. apply grown_enough.
    unfold len in *. lia.
Qed.

Lemma reserve_too_much n s :
  wf s -> max_len < len s + n -> reserve n s = (Panic CapacityPanic, s).
Proof using.
  intros [Hl Hc] Hm. unfold reserve. by rewrite !decide_False by lia.
Qed.

Lemma push_ok x s :
  wf s -> len s < max_len ->
  exists c, push x s = (Ret tt, set_cells (elems s ++ [x]) (set_capacity c (accept [x] s))) /\
    len s + 1 <= c <= max_len.
Proof using Hok.
  intros Hw Hm. unfold push.
  destruct (reserve_ok 1 (accept [x] s)) as (c & -> & Hc); [done|lia| |].
  { unfold len, elems in *; cbn in *. lia. }
  exists c. done.
Qed.

Lemma insert_ok i x s :
  wf s -> len s < max_len -> 0 <= i <= len s ->
  exists c, insert i x s = (Ret tt, set_cells (take (Z.to_nat i) (elems s) ++ x :: drop (Z.to_nat i) (elems s))
                                      (set_capacity c (accept [x] s))) /\
    len s + 1 <= c <= max_len.
Proof using Hok.
  intros Hw Hm Hi. unfold insert. rewrite decide_True by done.
  destruct (reserve_ok 1 (accept [x] s)) as (c & -> & Hc); [done|lia| |].
  { unfold len, elems in *; cbn in *. lia. }
  exists c. done.
Qed.

Lemma append_ok other s :
  wf s -> len s + zlen other <= max_len ->
  exists c, append other s = (Ret [], set_cells (elems s ++ other) (accept other (set_capacity c s))) /\
    len s + zlen other <= c <= max_len.
Proof using Hok.
  intros Hw Hm. unfold append.
  destruct (reserve_ok (zlen other) s) as (c & -> & Hc); [done|apply zlen_nonneg|lia|].
  exists c. done.
Qed.
End functional.

(** Storing made values while the capacity lasts. *)
Lemma push_all_made {A : Allocator} {T St} (fs : list (M St T)) l c g d r (k : St) :
  zlen l + zlen fs <= c ->
  push_all fs (mkStore (mkVec l c) g d r k) =
  let '(o, vs, k) := made fs k in (o, mkStore (mkVec (l ++ vs) c) (g ++ vs) d r k).
Proof.
  revert l g k. induction fs as [|f fs IH]; intros l g k Hc.
  - cbn. by rewrite !app_nil_r.
  - rewrite zlen_cons in Hc. pose proof (zlen_nonneg fs).
    cbn [push_all made]. rewrite M_bind_eq. unfold push_made, call; cbn [client].
    destruct (f k) as [[x|p|] k1]; [|by cbn; rewrite !app_nil_r..].
    unfold push, reserve. cbn [this accept capacity]. rewrite decide_True by (unfold len, elems; cbn; lia).
    unfold set_cells, elems; cbn. rewrite IH by (rewrite zlen_app; unfold zlen in *; cbn; lia).
    destruct (made fs k1) as [[o vs] k2]. by rewrite <- !app_assoc.
Qed.

Lemma made_length {T St} (fs : list (M St T)) k :
  match made fs k with
  | (Ret _, vs, _) => length vs = length fs
  | (_, vs, _) => (length vs < length fs)%nat
  end.
Proof.
  revert k. induction fs as [|f fs IH]; intros k; cbn; [done|].
  destruct (f k) as [[x|p|] k1]; [|cbn; lia..]. specialize (IH k1).
  destruct (made fs k1) as [[[o|p|] vs] k2]; cbn; lia.
Qed.

Lemma elems_set_cells {T St} l (s : store T St) : elems (set_cells l s) = l.
Proof. done. Qed.

Lemma zget_app_drop {A} (l : list A) i x y :
  0 <= i <= zlen l -> zget (take (Z.to_nat i) l ++ x :: y) i = Some x.
Proof.
  intros Hi. unfold zget, zlen in *. rewrite decide_True by lia.
  rewrite lookup_app_r by (rewrite length_take; lia). rewrite length_take.
  by replace (Z.to_nat i - _)%nat with 0%nat by lia.
Qed.

Lemma zset_same {A} (l : list A) a b x y :
  zget l a = Some x -> zget l b = Some y ->
  zget (zset b x (zset a y l)) a = Some y /\ zget (zset b x (zset a y l)) b = Some x /\
  zset b y (zset a x (zset b x (zset a y l))) = l.
Proof.
  intros Ha Hb. destruct (zget_Some _ _ _ Ha) as [Ha0 Ha']. destruct (zget_Some _ _ _ Hb) as [Hb0 Hb'].
  pose proof (lookup_lt_Some _ _ _ Ha'). pose proof (lookup_lt_Some _ _ _ Hb').
  unfold zget, zset. rewrite !decide_True by done.
  destruct (decide (Z.to_nat a = Z.to_nat b)) as [E|E].
  - rewrite E in *. simplify_eq. rewrite !list_insert_insert_eq.
    rewrite list_lookup_insert_eq by done. by rewrite list_insert_id.
  - rewrite (list_lookup_insert_ne _ (Z.to_nat b)) by done.
    rewrite !list_lookup_insert_eq by (rewrite ?length_insert; done).
    split_and!; [done|done|].
    rewrite (list_insert_insert_ne _ (Z.to_nat a) (Z.to_nat b)) by done.
    rewrite !list_insert_insert_eq. by rewrite (list_insert_id l (Z.to_nat a)), list_insert_id.
Qed.

Lemma made_mapM_Ret {B T St} (g : B -> M St T) l k vs k' :
  made (g <$> l) k = (Ret tt, vs, k') -> mapM g l k = (Ret vs, k').
Proof.
  revert k vs k'. induction l as [|b l IH]; intros k vs k'; [by intros [= <- <-]|].
  rewrite M_mapM_cons. cbn. destruct (g b k) as [[x|p|] k1]; [|done..].
  specialize (IH k1). destruct (made (g <$> l) k1) as [[[[]|p|] vs1] k2]; [|done..].
  intros [= <- <-]. by rewrite (IH vs1 k2).
Qed.

Lemma made_mapM_Panic {B T St} (g : B -> M St T) l k p vs k' :
  made (g <$> l) k = (Panic p, vs, k') -> mapM g l k = (Panic p, k').
Proof.
  revert k vs k'. induction l as [|b l IH]; intros k vs k'; [done|].
  rewrite M_mapM_cons. cbn. destruct (g b k) as [[x|q|] k1]; [|by intros [= -> _ ->]|done].
  specialize (IH k1). destruct (made (g <$> l) k1) as [[[[]|q|] vs1] k2]; [done| |done].
  intros [= -> _ ->]. by rewrite (IH vs1 k').
Qed.

(** ** Lemmas: round trips *)

Section round_trips.
Context {A : Allocator} (Hok : @AllocatorOk A) {T St : Type}.
Implicit Types s : store T St.

Lemma push_pop x s :
  wf s -> len s < max_len ->
  exists s1 s2, push x s = (Ret tt, s1) /\ wf s1 /\ elems s1 = elems s ++ [x] /\
    pop s1 = (Ret (Some x), s2) /\ elems s2 = elems s.
Proof using Hok.
  intros Hw Hm. destruct (push_ok Hok x s Hw Hm) as (c & -> & Hc). do 2 eexists. split_and!; [done|..].
  - unfold wf, len, elems in *; cbn in *. rewrite zlen_app. unfold zlen in *; cbn; lia.
  - done.
  - unfold pop, elems; cbn. by rewrite last_snoc.
  - unfold elems; cbn. rewrite length_app; cbn. by rewrite Nat.add_sub, take_app_length.
Qed.

Lemma insert_remove i x s :
  wf s -> len s < max_len -> 0 <= i <= len s ->
  exists s1 s2, insert i x s = (Ret tt, s1) /\ wf s1 /\ get i s1 = Some x /\
    remove i s1 = (Ret x, s2) /\ elems s2 = elems s.
Proof using Hok.
  intros Hw Hm Hi. destruct (insert_ok Hok i x s Hw Hm Hi) as (c & -> & Hc).
  assert (Hg : zget (take (Z.to_nat i) (elems s) ++ x :: drop (Z.to_nat i) (elems s)) i = Some x)
    by by apply zget_app_drop.
  do 2 eexists. split_and!; [done|..].
  - unfold wf, len, elems in *; cbn in *. rewrite zlen_app, zlen_cons. unfold zlen in *.
    rewrite length_take, length_drop. lia.
  - exact Hg.
  - unfold remove. rewrite elems_set_cells, Hg. done.
  - unfold elems in *; cbn. unfold len, zlen, elems in Hi.
    rewrite take_app_le by (rewrite length_take; lia). rewrite take_take, Nat.min_id.
    rewrite drop_app_ge by (rewrite length_take; lia). rewrite length_take.
    replace (S (Z.to_nat i) - _)%nat with 1%nat by lia. cbn. by rewrite drop_0, take_drop.
Qed.

Lemma split_append i s :
  wf s -> 0 <= i <= len s ->
  exists out s1 s2, split_off i s = (Ret out, s1) /\ zlen out = len s - i /\ len s1 = i /\
    append out s1 = (Ret [], s2) /\ elems s2 = elems s.
Proof using Hok.
  intros Hw Hi. unfold split_off. rewrite decide_True by done.
  set (s1 := give_out (drop (Z.to_nat i) (elems s)) (set_cells (take (Z.to_nat i) (elems s)) s)).
  assert (Hs1 : elems s1 = take (Z.to_nat i) (elems s)) by done.
  assert (Hl1 : len s1 = i) by (unfold len, zlen in *; rewrite Hs1, length_take; lia).
  assert (Hl2 : zlen (drop (Z.to_nat i) (elems s)) = len s - i)
    by (unfold len, zlen in *; rewrite length_drop; lia).
  exists (drop (Z.to_nat i) (elems s)), s1.
  destruct (append_ok Hok (drop (Z.to_nat i) (elems s)) s1) as (c & -> & Hc).
  - unfold wf in *. rewrite Hl1. cbn. lia.
  - unfold wf in *. lia.
  - eexists. split_and!; [done..|]. unfold elems in *; cbn. by rewrite take_drop.
Qed.

Lemma swap_swap i j s :
  0 <= i < len s -> 0 <= j < len s ->
  exists s1 s2, swap i j s = (Ret tt, s1) /\ get i s1 = get j s /\ get j s1 = get i s /\
    swap i j s1 = (Ret tt, s2) /\ elems s2 = elems s.
Proof using.
  intros Hi Hj. destruct (proj1 (zget_lt_is_Some (elems s) i) Hi) as [y Hy].
  destruct (proj1 (zget_lt_is_Some (elems s) j) Hj) as [z Hz].
  destruct (zset_same (elems s) i j y z Hy Hz) as (E1 & E2 & E3).
  unfold swap, get. rewrite Hy, Hz. do 2 eexists. split_and!; [done|exact E1|exact E2| |].
  - rewrite elems_set_cells, E1, E2. done.
  - unfold elems; cbn. exact E3.
Qed.
End round_trips.

(** ** Properties *)

(** Ownership: after any sequence of operations, each of which may return or
    panic (an index out of bounds, a capacity overflow, a panicking closure),
    every value that was ever moved in is exactly once in the vector, among the
    dropped values, or among those moved out: nothing leaks, is dropped twice or
    is duplicated, although the cell wrapper is never consulted. *)
Theorem vec_ownership_linear `{Allocator} {T St} (ops : list (vop T St)) (s : store T St) :
  linear s -> linear (foldl (fun s o => after o s) s ops).
Proof.
  revert s. induction ops as [|o ops IH]; intros s Hs; [done|]. by apply IH, linear_after.
Qed.

(** C37: Round trips of the vector: on a well-formed vector with room for one more,
    [pop] takes back what [push] stored and [remove i] what [insert i] stored,
    leaving the contents as they were; [split_off i] followed by [append] of the
    part it returned restores the contents; swapping two elements twice changes
    nothing; out of bounds, [insert], [remove] and [swap] panic and change
    nothing, an inserted value being dropped; a push past the largest allocation
    panics, drops the value and leaves the vector. *)
Theorem vec_round_trips {A : Allocator} {T St} (s : store T St) (i : Z) (x : T) :
  AllocatorOk -> wf s ->
  (len s < max_len ->
     (exists s1 s2, push x s = (Ret tt, s1) /\ wf s1 /\ elems s1 = elems s ++ [x] /\
        pop s1 = (Ret (Some x), s2) /\ elems s2 = elems s) /\
     (0 <= i <= len s ->
        exists s1 s2, insert i x s = (Ret tt, s1) /\ wf s1 /\ get i s1 = Some x /\
          remove i s1 = (Ret x, s2) /\ elems s2 = elems s)) /\
  (len s = max_len -> push x s = (Panic CapacityPanic, drop_values [x] (accept [x] s))) /\
  (0 <= i <= len s ->
     exists out s1 s2, split_off i s = (Ret out, s1) /\ zlen out = len s - i /\ len s1 = i /\
       append out s1 = (Ret [], s2) /\ elems s2 = elems s) /\
  (forall j, 0 <= i < len s -> 0 <= j < len s ->
     exists s1 s2, swap i j s = (Ret tt, s1) /\ get i s1 = get j s /\ get j s1 = get i s /\
       swap i j s1 = (Ret tt, s2) /\ elems s2 = elems s) /\
  (~ (0 <= i <= len s) ->
     insert i x s = (Panic BoundsPanic, drop_values [x] (accept [x] s)) /\
     remove i s = (Panic BoundsPanic, s) /\ forall j, swap i j s = (Panic BoundsPanic, s)).
Proof.
  intros Hok Hw. split_and!.
  - intros Hm. split; [by apply push_pop|]. intros Hi. by apply insert_remove.
  - intros Hm. unfold push. rewrite reserve_too_much; [done|exact Hw|]. unfold len, elems in *; cbn; lia.
  - by apply split_append.
  - intros j Hi Hj. by apply swap_swap.
  - intros Hi. assert (Hn : zget (elems s) i = None).
    { unfold zget. case_decide; [|done]. apply lookup_ge_None. unfold len, zlen in *. lia. }
    unfold insert, remove, swap. rewrite Hn. rewrite decide_False by done. done.
Qed.

(** Generation: [from_fn(n, g)] with [n] within the largest allocation calls
    [g 0], [g 1], ... in order, each once, on the client's state; when all return
    the vector holds exactly their values in index order, in the allocation made
    at the start, and its length is [n]; when one panics the panic propagates, fewer than
    [n] values were made, and [with_generated] has dropped exactly those, in
    order; beyond the largest allocation no call is made. *)
Theorem from_fn_builds {A : Allocator} {T St R} (n : Z) (g : Z -> M St T) (f : M (store T St) R)
    (s : store T St) :
  AllocatorOk -> 0 <= n ->
  (n <= max_len ->
     from_fn n g s = (let '(o, vs, k) := made (g <$> zseq n) (client s) in
                      (o, mkStore (mkVec vs (grown 0 n)) (given s ++ vs) (drops s) (returned s) k)) /\
     (forall vs k, made (g <$> zseq n) (client s) = (Ret tt, vs, k) -> zlen vs = n /\
        mapM g (zseq n) (client s) = (Ret vs, k)) /\
     (forall p vs k, made (g <$> zseq n) (client s) = (Panic p, vs, k) -> zlen vs < n /\
        mapM g (zseq n) (client s) = (Panic p, k) /\
        with_generated n g f s =
          (Panic p, mkStore (mkVec [] 0) (given s ++ vs) (drops s ++ vs) (returned s) k))) /\
  (max_len < n -> from_fn n g s = (Panic CapacityPanic, s)).
Proof.
  intros Hok Hn. split; [intros Hm|intros Hm].
  - assert (E : from_fn n g s = (let '(o, vs, k) := made (g <$> zseq n) (client s) in
                      (o, mkStore (mkVec vs (grown 0 n)) (given s ++ vs) (drops s) (returned s) k))).
    { unfold from_fn, extend. rewrite M_bind_eq. unfold with_capacity. rewrite decide_True by done.
      rewrite push_all_made; [done|]. rewrite zlen_nil, zlen_fmap, zlen_zseq by done.
      pose proof (grown_enough 0 n). lia. }
    pose proof (made_length (g <$> zseq n) (client s)) as Hl. rewrite length_fmap in Hl.
    pose proof (zlen_zseq n Hn) as Hz. unfold zlen in *.
    split_and!; [done|..].
    + intros vs k Hk. rewrite Hk in Hl. split; [lia|]. by apply made_mapM_Ret.
    + intros p vs k Hk. rewrite Hk in Hl. split_and!; [lia|by eapply made_mapM_Panic|].
      unfold with_generated. rewrite M_bind_eq, E, Hk. done.
  - unfold from_fn. rewrite M_bind_eq. unfold with_capacity. by rewrite decide_False by lia.
Qed.

(** The views of a vector show its elements: the borrow without a clone, the
    owned copy with one clone per element in order, and [clone_with] the copies,
    or the panic of the first clone that panics. *)
Theorem vec_views {T St} (s : store T St) (n : Z) :
  vec_borrow_cow counting_clone s n = (Ret (CowBorrowed (buffer s)), n) /\
  contents (elems s) (buffer s) = elems s /\
  vec_retain_cow counting_clone s n = (Ret (CowOwned (elems s)), n + len s) /\
  vec_cow_if counting_clone s Cow.Borrow n = vec_borrow_cow counting_clone s n /\
  vec_cow_if counting_clone s Cow.Retain n = vec_retain_cow counting_clone s n /\
  forall clone : T -> M St T,
    clone_with clone s = (let '(o, k) := mapM clone (elems s) (client s) in (o, set_client k s)).
Proof.
  assert (Hc : contents (elems s) (buffer s) = elems s).
  { unfold contents, buffer, len. cbn [s_base s_len]. apply subrange_all. }
  split_and!; try done.
  unfold vec_retain_cow, retain_cow, policy_cow, Retained_policy, to_vec, borrow_slice.
  rewrite Hc, M_bind_eq, mapM_counting. done.
Qed.

(** An allocator that doubles. *)
#[export] Instance doubling : Allocator :=
  {| max_len := 6; grown := fun c n => Z.min 6 (Z.max n (2 * c)); shrunk := fun _ n => n |}.
#[export] Instance doubling_ok : AllocatorOk.
Proof.
  split; cbn; [vm_compute; split; discriminate|intros; lia|intros; lia].
Qed.

Definition empty_store : store Z unit := mkStore (mkVec [] 0) [] [] [] tt.
Definition busy_ops : list (vop Z unit) :=
  [Push 1; Push 2; Insert 5 9; Insert 1 3; SwapRemove 0; Extend (replicate 5 (fun u => (Ret 7, u)));
   Retain (fun x u => (if decide (x = 3) then Panic (UserPanic 0) else Ret false, u));
   Drain 0 2 [NextBack]; Truncate 1; FromVec (mkVec [4; 5] 2); Pop].

Lemma vec_ownership_linear_witness :
  linear (foldl (fun s o => after o s) empty_store busy_ops) /\
  elems (foldl (fun s o => after o s) empty_store busy_ops) = [4].
Proof.
  split; [apply (vec_ownership_linear busy_ops empty_store)|reflexivity].
  unfold linear, elems; cbn. constructor.
Defined.

Definition three : store Z unit := mkStore (mkVec [10; 20; 30] 4) [10; 20; 30] [] [] tt.

Lemma vec_round_trips_witness :
  (exists s1 s2, insert 1 15 three = (Ret tt, s1) /\ wf s1 /\ get 1 s1 = Some 15 /\
     remove 1 s1 = (Ret 15, s2) /\ elems s2 = elems three) /\
  insert 4 15 three = (Panic BoundsPanic, drop_values [15] (accept [15] three)).
Proof.
  split.
  - refine (proj2 (proj1 (vec_round_trips three 1 15 doubling_ok _) _) _); cbv; split; discriminate || reflexivity.
  - refine (proj1 (proj2 (proj2 (proj2 (proj2 (vec_round_trips three 4 15 doubling_ok _)))) _)).
    + cbv; split; discriminate.
    + cbv. intros [_ H]. by apply H.
Defined.

(** Squares; the fourth call panics. *)
Definition squares (i : Z) : M (list Z) Z := fun c =>
  if decide (i = 3) then (Panic (UserPanic 8), c) else (Ret (i * i), i :: c).

Lemma from_fn_builds_witness :
  with_generated 5 squares (mret (M := M _) tt) (mkStore (mkVec [] 0) [] [] [] [] : store Z (list Z)) =
  (Panic (UserPanic 8), mkStore (mkVec [] 0) [0; 1; 4] [0; 1; 4] [] [2; 1; 0]).
Proof.
  refine (proj2 (proj2 (proj2 (proj2 (proj1 (from_fn_builds 5 squares (mret (M := M _) tt)
    (mkStore (mkVec [] 0) [] [] [] [] : store Z (list Z)) doubling_ok _) _)) _ _ _ _))); cbv; discriminate || reflexivity.
Defined.
