(* ===== verification/Draining.v ===== *)
(** * The draining iterator of a vector ([src/collections/branded_vec/iter.rs])

    [BrandedVec.drain] runs a drain from its creation to its end at once.  Here
    the iterator is a value: [drain] moves the range and what is behind it out of
    the vector's reach and borrows the vector, each [next] or [next_back] yields
    a value, and the borrow ends when the iterator is dropped, which moves the
    tail back, or forgotten, which leaks.  Writes in place, through [get_mut] or a
    guard, replace a value.

    Main results: the vector cannot be used while it is drained; every value is
    in the vector or the iterator, dropped, moved out or leaked, exactly once,
    whatever is done; a drain that is dropped is [BrandedVec.drain]; a value leaks
    only when an iterator is forgotten. *)
From S2P Require Import Prelude Region Cow BrandedVec.
From stdpp Require Import base numbers list sets.
Local Open Scope Z_scope.

(** A live iterator: what it has not yielded, and the elements behind its range. *)
Record draining (T : Type) : Type := mkDraining { d_left : list T; d_tail : list T }.
Arguments mkDraining {T}.
Arguments d_left {T}.
Arguments d_tail {T}.

(** A vector, the iterator that borrows it, and what was leaked. *)
Record vector (T St : Type) : Type := mkVector {
  v_store : store T St;
  v_drain : option (draining T);
  v_leaked : list T
}.
Arguments mkVector {T St}.
Arguments v_store {T St}.
Arguments v_drain {T St}.
Arguments v_leaked {T St}.

Inductive vreply (T : Type) : Type :=
| Finished
| Yielded (x : option T)
| Panicked (p : panic_payload).
Arguments Finished {T}.
Arguments Yielded {T} x.
Arguments Panicked {T} p.

Section draining.
Context `{Allocator} {T St : Type}.

Definition v_elems (v : vector T St) : list T := elems (v_store v).

(** An operation of [BrandedVec] that takes [&mut self]; [k] is the client's state
    when it is called. *)
Definition use (o : vop T St) (k : St) (v : vector T St) : option (vreply T * vector T St) :=
  match v_drain v with
  | None => Some (Finished, mkVector (after o (set_client k (v_store v))) None (v_leaked v))
  | Some _ => None
  end.

(** A value is written over another, which is dropped. *)
Definition put (i : Z) (x : T) (v : vector T St) : option (vreply T * vector T St) :=
  match v_drain v, zget (v_elems v) i with
  | None, Some old =>
      Some (Finished, mkVector
        (set_cells (zset i x (v_elems v)) (drop_values [old] (accept [x] (v_store v)))) None (v_leaked v))
  | _, _ => None
  end.

(** [BrandedVec::drain(start..end)]: [BrandedDrain::new] on the standard [Drain],
    which leaves the vector with the elements before the range. *)
Definition drain_begin (start end_ : Z) (v : vector T St) : option (vreply T * vector T St) :=
  match v_drain v with
  | None =>
      if decide (0 <= start <= end_ /\ end_ <= len (v_store v)) then
        Some (Finished, mkVector (set_cells (take (Z.to_nat start) (v_elems v)) (v_store v))
          (Some (mkDraining (subrange start (end_ - start) (v_elems v))
                            (drop (Z.to_nat end_) (v_elems v)))) (v_leaked v))
      else Some (Panicked BoundsPanic, v)
  | Some _ => None
  end.

(** [next], [next_back] *)
Definition drain_yield (step : drain_step) (v : vector T St) : option (vreply T * vector T St) :=
  match v_drain v with
  | Some d =>
      match (match step with Next => drain_next (d_left d) | NextBack => drain_next_back (d_left d) end) with
      | Some (x, rest) =>
          Some (Yielded (Some x), mkVector (give_out [x] (v_store v))
                  (Some (mkDraining rest (d_tail d))) (v_leaked v))
      | None => Some (Yielded None, v)
      end
  | None => None
  end.

(** [size_hint], and [len] of [ExactSizeIterator]. *)
Definition drain_size_hint (d : draining T) : Z * option Z :=
  (zlen (d_left d), Some (zlen (d_left d))).

(** The iterator is dropped: what is left of the range goes, the tail moves back. *)
Definition drain_drop (v : vector T St) : option (vreply T * vector T St) :=
  match v_drain v with
  | Some d =>
      Some (Finished, mkVector
        (set_cells (v_elems v ++ d_tail d) (drop_values (d_left d) (v_store v))) None (v_leaked v))
  | None => None
  end.

(** The iterator is forgotten.  How many elements before the range the vector then
    still has is left open by the standard library. *)
Definition drain_forget (keep : Z) (v : vector T St) : option (vreply T * vector T St) :=
  match v_drain v with
  | Some d =>
      Some (Finished, mkVector (set_cells (take (Z.to_nat keep) (v_elems v)) (v_store v)) None
        (v_leaked v ++ drop (Z.to_nat keep) (v_elems v) ++ d_left d ++ d_tail d))
  | None => None
  end.

Inductive vevent : Type :=
| Use (o : vop T St) (k : St)
| Put (i : Z) (x : T)
| DrainBegin (start end_ : Z)
| DrainYield (step : drain_step)
| DrainDrop
| DrainForget (keep : Z).

(** [None]: the borrow checker rejects the operation. *)
Definition vector_step (e : vevent) : vector T St -> option (vreply T * vector T St) :=
  match e with
  | Use o k => use o k
  | Put i x => put i x
  | DrainBegin start end_ => drain_begin start end_
  | DrainYield step => drain_yield step
  | DrainDrop => drain_drop
  | DrainForget keep => drain_forget keep
  end.

Fixpoint vector_run (es : list vevent) (v : vector T St) : option (list (vreply T) * vector T St) :=
  match es with
  | [] => Some ([], v)
  | e :: es =>
      '(r, v) ← vector_step e v;
      '(rs, v) ← vector_run es v;
      Some (r :: rs, v)
  end.

(** ** Specification *)

Definition borrowed_out (v : vector T St) : list T :=
  match v_drain v with Some d => d_left d ++ d_tail d | None => [] end.

(** Every value moved in is in the vector or its iterator, dropped, moved out or
    leaked, once. *)
Definition accounted (v : vector T St) : Prop :=
  given (v_store v) ≡ₚ
    v_elems v ++ borrowed_out v ++ drops (v_store v) ++ returned (v_store v) ++ v_leaked v.
End draining.
Arguments vevent T St : clear implicits.

(** ** Lemmas *)

Section draining_lemmas.
Context `{Allocator} {T St : Type}.
Implicit Types (v : vector T St) (e : vevent T St).

(** The logs of the past do not matter to an operation: it adds to them. *)
Definition framed (lg ld lr : list T) (s : store T St) : store T St :=
  mkStore (this s) (lg ++ given s) (ld ++ drops s) (lr ++ returned s) (client s).

Definition frames {A} (m : M (store T St) A) : Prop :=
  forall lg ld lr s, m (framed lg ld lr s) = (fst (m s), framed lg ld lr (snd (m s))).

Lemma frames_bind {A B} (m : M (store T St) A) (f : A -> M (store T St) B) :
  frames m -> (forall a, frames (f a)) -> frames (m ≫= f).
Proof using.
  intros Hm Hf lg ld lr s. rewrite !M_bind_eq, Hm. destruct (m s) as [[a|p|] s']; cbn; [apply Hf|done..].
Qed.

Lemma frames_call {A} (f : M St A) : frames (call f).
Proof using. intros lg ld lr s. unfold call. cbn. by destruct (f (client s)). Qed.

Lemma accept_framed lg ld lr xs s : accept xs (framed lg ld lr s) = framed lg ld lr (accept xs s).
Proof using. unfold accept, framed. cbn. by rewrite app_assoc. Qed.
Lemma drop_values_framed lg ld lr xs s :
  drop_values xs (framed lg ld lr s) = framed lg ld lr (drop_values xs s).
Proof using. unfold drop_values, framed. cbn. by rewrite app_assoc. Qed.
Lemma give_out_framed lg ld lr xs s : give_out xs (framed lg ld lr s) = framed lg ld lr (give_out xs s).
Proof using. unfold give_out, framed. cbn. by rewrite app_assoc. Qed.

Ltac framed_eq :=
  unfold framed, give_out, accept, drop_values, set_cells, elems; cbn; by rewrite ?app_assoc.

Lemma frames_reserve n : frames (reserve n).
Proof using.
  intros lg ld lr s. unfold reserve. cbn [framed]. unfold len, elems; cbn [this].
  by repeat case_decide.
Qed.

Lemma frames_push x : frames (push x).
Proof using.
  intros lg ld lr s. unfold push. rewrite accept_framed, frames_reserve.
  destruct (reserve 1 (accept [x] s)) as [[u|p|] s1]; cbn [fst snd]; [done|by rewrite drop_values_framed..].
Qed.

Lemma frames_push_all fs : frames (push_all fs).
Proof using.
  induction fs as [|f fs IH]; [done|]. cbn [push_all]. apply frames_bind; [|done].
  intros lg ld lr s. unfold push_made. rewrite frames_call.
  destruct (call f s) as [[x|p|] s1]; cbn; [apply frames_push|done..].
Qed.

Lemma frames_retain_loop (f : T -> M St (T * bool)) kept rest : frames (retain_loop f kept rest).
Proof using.
  revert kept. induction rest as [|x rest IH]; intros kept lg ld lr s; cbn [retain_loop]; [done|].
  rewrite frames_call. destruct (call (f x) s) as [[[x' [|]]|p|] s1]; cbn; [apply IH| |done..].
  rewrite drop_values_framed. apply IH.
Qed.

Lemma after_framed (o : vop T St) lg ld lr s : after o (framed lg ld lr s) = framed lg ld lr (after o s).
Proof using.
  destruct o; cbn [after].
  - by rewrite frames_push.
  - unfold pop. change (elems (framed lg ld lr s)) with (elems s). destruct (last (elems s)); [|done].
    framed_eq.
  - unfold BrandedVec.insert. cbv zeta. rewrite accept_framed.
    change (len (framed lg ld lr (accept [x] s))) with (len (accept [x] s)).
    case_decide; [|cbn [snd]; by rewrite drop_values_framed]. rewrite frames_reserve.
    destruct (reserve 1 (accept [x] s)) as [[u|p|] s1]; cbn [fst snd]; [done|by rewrite drop_values_framed..].
  - unfold BrandedVec.remove. change (elems (framed lg ld lr s)) with (elems s). destruct (zget (elems s) i); [|done].
    framed_eq.
  - unfold swap_remove. change (elems (framed lg ld lr s)) with (elems s).
    destruct (zget (elems s) i), (last (elems s)); [|done..]. framed_eq.
  - unfold swap. change (elems (framed lg ld lr s)) with (elems s).
    by destruct (zget (elems s) a), (zget (elems s) b).
  - by rewrite frames_reserve.
  - framed_eq.
  - framed_eq.
  - done.
  - unfold resize_with. change (len (framed lg ld lr s)) with (len s). case_decide; [|framed_eq].
    rewrite frames_bind; [done|apply frames_reserve|]. intros _. apply frames_push_all.
  - unfold retain_mut. change (elems (framed lg ld lr s)) with (elems s). by rewrite frames_retain_loop.
  - framed_eq.
  - framed_eq.
  - unfold split_off. change (len (framed lg ld lr s)) with (len s). case_decide; [|done]. framed_eq.
  - unfold BrandedVec.append. rewrite frames_reserve.
    destruct (reserve (zlen other) s) as [[u|p|] s1]; [framed_eq|done..].
  - unfold drain. change (len (framed lg ld lr s)) with (len s). case_decide; [|done].
    change (elems (framed lg ld lr s)) with (elems s). destruct (drain_run _ _) as [ys rest]. cbn.
    framed_eq.
  - apply (f_equal snd (frames_push_all items lg ld lr s)).
  - framed_eq.
Qed.

Lemma accounted_linear (s : store T St) (lk : list T) : accounted (mkVector s None lk) <-> linear (framed [] [] lk s).
Proof using.
  unfold accounted, linear, v_elems, borrowed_out. cbn. by rewrite (Permutation_app_comm lk).
Qed.

Lemma accounted_use o k v r v' : use o k v = Some (r, v') -> accounted v -> accounted v'.
Proof using.
  unfold use. destruct v as [s [d|] lk]; [done|]. cbn. intros [= _ <-].
  rewrite !accounted_linear, <- after_framed. intros Ha. by apply linear_after.
Qed.

Lemma accounted_put i x v r v' : put i x v = Some (r, v') -> accounted v -> accounted v'.
Proof using.
  unfold put. destruct v as [s [d|] lk]; [done|]. unfold v_elems. cbn.
  destruct (zget (elems s) i) as [old|] eqn:E; [|done]. intros [= _ <-].
  rewrite !accounted_linear. apply (linear_move _ _ [x]); [done|]. unfold elems in *; cbn.
  apply zget_Some in E as [_ E]. pose proof (insert_perm _ _ x old E) as Hp. unfold zset.
  assert (<[Z.to_nat i:=x]> (BrandedVec.cells (this s)) ++ [old] ≡ₚ BrandedVec.cells (this s) ++ [x]) as Hq.
  { rewrite (Permutation_app_comm _ [old]), (Permutation_app_comm _ [x]). exact Hp. }
  transitivity ((<[Z.to_nat i:=x]> (BrandedVec.cells (this s)) ++ [old]) ++ drops s ++ lk ++ returned s);
    [solve_Permutation|]. rewrite Hq. solve_Permutation.
Qed.

Lemma drain_parts (l : list T) a b :
  0 <= a <= b -> b <= zlen l ->
  l = take (Z.to_nat a) l ++ subrange a (b - a) l ++ drop (Z.to_nat b) l.
Proof using.
  intros Ha Hb. unfold subrange. rewrite <- (take_drop (Z.to_nat a) l) at 1. f_equal.
  rewrite <- (take_drop (Z.to_nat (b - a)) (drop (Z.to_nat a) l)) at 1. f_equal.
  rewrite drop_drop. f_equal. lia.
Qed.

Lemma accounted_begin a b v r v' : drain_begin a b v = Some (r, v') -> accounted v -> accounted v'.
Proof using.
  unfold drain_begin. destruct v as [s [d|] lk]; [done|]. cbn. case_decide as Hab; intros [= _ <-]; [|done].
  unfold accounted, borrowed_out, v_elems, elems; cbn. intros ->.
  rewrite (drain_parts (BrandedVec.cells (this s)) a b) at 1 by (unfold len, elems in Hab; lia).
  solve_Permutation.
Qed.

Lemma yield_perm step (inner : list T) x rest :
  match step with Next => drain_next inner | NextBack => drain_next_back inner end = Some (x, rest) ->
  inner ≡ₚ x :: rest.
Proof using.
  pose proof (drain_run_perm [step] inner) as Hp. cbn in Hp. intros E. rewrite E in Hp. exact Hp.
Qed.

Lemma accounted_yield step v r v' : drain_yield step v = Some (r, v') -> accounted v -> accounted v'.
Proof using.
  unfold drain_yield. destruct v as [s [[inner tl]|] lk]; [|done]. cbn [v_drain d_left d_tail].
  destruct (match step with Next => _ | NextBack => _ end) as [[x rest]|] eqn:E; intros [= _ <-]; [|done].
  apply yield_perm in E. unfold accounted, borrowed_out, v_elems, elems; cbn. intros ->.
  rewrite E. solve_Permutation.
Qed.

Lemma accounted_end v : forall r v',
  drain_drop v = Some (r, v') \/ (exists n, drain_forget n v = Some (r, v')) ->
  accounted v -> accounted v'.
Proof using.
  unfold drain_drop, drain_forget. destruct v as [s [[inner tl]|] lk]; [|naive_solver]. cbn.
  intros r v' [[= _ <-]|[n [= _ <-]]]; unfold accounted, borrowed_out, v_elems, elems; cbn; intros ->.
  - solve_Permutation.
  - rewrite <- (take_drop (Z.to_nat n) (BrandedVec.cells (this s))) at 1. solve_Permutation.
Qed.

Lemma accounted_step e v r v' : vector_step e v = Some (r, v') -> accounted v -> accounted v'.
Proof using.
  destruct e; cbn [vector_step].
  - by apply accounted_use.
  - by apply accounted_put.
  - by apply accounted_begin.
  - by apply accounted_yield.
  - intros Hs. eapply accounted_end. by left.
  - intros Hs. eapply accounted_end. right. by eexists.
Qed.

(** Only forgetting an iterator leaks. *)
Lemma leaked_step e v r v' :
  vector_step e v = Some (r, v') -> (forall n, e <> DrainForget n) -> v_leaked v' = v_leaked v.
Proof using.
  intros Hs Hn. destruct e; cbn [vector_step] in Hs;
    unfold use, put, drain_begin, drain_yield, drain_drop in Hs; destruct (v_drain v) as [d|] eqn:E;
    repeat case_match; try done; try (by injection Hs as _ <-); by edestruct Hn.
Qed.

(** A live iterator, used. *)
Lemma run_yields steps (s : store T St) (inner tl lk : list T) :
  vector_run (map DrainYield steps) (mkVector s (Some (mkDraining inner tl)) lk) =
  let '(ys, rest) := drain_run steps inner in
  Some (map Yielded ys, mkVector (give_out (omap (M := list) id ys) s) (Some (mkDraining rest tl)) lk).
Proof using.
  revert s inner. induction steps as [|step steps IH]; intros s inner.
  { cbn. unfold give_out. rewrite app_nil_r. by destruct s. }
  cbn [map vector_run drain_run vector_step]. unfold drain_yield. cbn [v_drain d_left d_tail].
  destruct (match step with Next => _ | NextBack => _ end) as [[x rest]|]; cbn [mbind option_bind v_store v_leaked].
  - rewrite IH.
    destruct (drain_run steps rest) as [ys rest']. cbn. do 2 f_equal.
    unfold give_out. cbn. by rewrite <- app_assoc.
  - rewrite IH. by destruct (drain_run steps inner) as [ys rest'].
Qed.

Lemma vector_run_app es1 es2 v :
  vector_run (es1 ++ es2) v =
  '(rs1, v1) ← vector_run es1 v; '(rs2, v2) ← vector_run es2 v1; Some (rs1 ++ rs2, v2).
Proof using.
  revert v. induction es1 as [|e es1 IH]; intros v; cbn.
  - by destruct (vector_run es2 v) as [[rs v']|].
  - destruct (vector_step e v) as [[r v1]|]; [|done]. cbn. rewrite IH.
    destruct (vector_run es1 v1) as [[rs1 v2]|]; [|done]. cbn.
    by destruct (vector_run es2 v2) as [[rs2 v3]|].
Qed.

Lemma drain_run_all (inner : list T) :
  fst (drain_run (replicate (length inner) Next ++ [Next]) inner) = (Some <$> inner) ++ [None].
Proof using.
  induction inner as [|x inner IH]; [done|]. cbn. destruct (drain_run _ inner). cbn in *. by rewrite IH.
Qed.
End draining_lemmas.

(** ** Properties *)

(** C25: Ownership with iterators that live: whatever events a vector goes through,
    operations that return or panic, values written in place, iterators created,
    advanced from either end, dropped or forgotten at any point, every value ever
    moved in is exactly once in the vector or in the live iterator, among the
    dropped, among those moved out, or leaked; and without a forgotten iterator
    nothing leaks. *)
Theorem drains_conserve `{Allocator} {T St} (es : list (vevent T St)) (v v' : vector T St)
    (rs : list (vreply T)) :
  accounted v -> vector_run es v = Some (rs, v') ->
  accounted v' /\ ((forall n, DrainForget n ∉ es) -> v_leaked v' = v_leaked v).
Proof.
  revert v rs. induction es as [|e es IH]; intros v rs Ha Hr; [by injection Hr as _ <-|].
  apply bind_Some in Hr as ([r v1] & Hs & ([rs1 v2] & Hr & [= _ <-])%bind_Some).
  destruct (IH v1 rs1 (accounted_step e v r v1 Hs Ha) Hr) as [Ha' Hl].
  split; [done|]. intros Hn. rewrite Hl by set_solver. eapply leaked_step; [done|].
  intros n ->. by apply (Hn n), elem_of_cons; left.
Qed.

(** A drain that runs to its drop is the [drain] of the vector: creating the
    iterator, advancing it by any calls from either end and dropping it yields
    the same values and leaves the same vector, logs included; in between the
    vector accepts neither an operation nor a write nor a second drain; and the
    iterator yields exactly as many values as [size_hint] says, in order. *)
Theorem drain_lifetime `{Allocator} {T St} (v : vector T St) (a b : Z) (steps : list drain_step) :
  v_drain v = None -> 0 <= a <= b -> b <= len (v_store v) ->
  exists ys v1,
    drain a b steps (v_store v) = (Ret ys, snd (drain a b steps (v_store v))) /\
    vector_run (DrainBegin a b :: (map DrainYield steps)) v = Some (Finished :: (map Yielded ys), v1) /\
    (forall e, (exists o k, e = Use o k) \/ (exists i x, e = Put i x) \/
               (exists a' b', e = DrainBegin a' b') -> vector_step e v1 = None) /\
    vector_step DrainDrop v1
      = Some (Finished, mkVector (snd (drain a b steps (v_store v))) None (v_leaked v)) /\
    exists d, v_drain v1 = Some d /\ drain_size_hint d = (zlen (d_left d), Some (zlen (d_left d))) /\
      fst (drain_run (replicate (length (d_left d)) Next ++ [Next]) (d_left d))
      = (Some <$> d_left d) ++ [None].
Proof.
  intros Hd Hab Hb. destruct v as [s d lk]. cbn in Hd, Hb. subst d. unfold drain. cbn [v_store v_leaked].
  rewrite decide_True by done.
  destruct (drain_run steps (subrange a (b - a) (elems s))) as [ys rest] eqn:E.
  eexists ys, _. split; [done|]. split.
  { cbn [vector_run vector_step]. unfold drain_begin, v_elems. cbn [v_drain v_store v_leaked].
    rewrite decide_True by done. cbn [mbind option_bind]. rewrite run_yields, E. reflexivity. }
  split; [|split].
  - intros e [(o & k & ->)|[(i & x & ->)|(a' & b' & ->)]]; reflexivity.
  - reflexivity.
  - eexists. split; [reflexivity|]. split; [done|]. apply drain_run_all.
Qed.

(** Four elements; a drain of the middle two. *)
Definition four : vector Z unit :=
  mkVector (mkStore (mkVec [10; 20; 30; 40] 4) [10; 20; 30; 40] [] [] tt) None [].

Lemma four_accounted : accounted four.
Proof. unfold accounted, v_elems, borrowed_out, elems. cbn. reflexivity. Qed.

(** One drain is dropped after one value, another is forgotten. *)
Definition drained_twice : list (vevent Z unit) :=
  [DrainBegin 1 3; DrainYield NextBack; DrainDrop; Use (Push 50) tt; Put 0 11; DrainBegin 0 2;
   DrainYield Next; DrainForget 0; Use (Push 60) tt].

Lemma drains_conserve_witness :
  exists rs v', vector_run drained_twice four = Some (rs, v') /\ accounted v' /\
    v_elems v' = [60] /\ drops (v_store v') = [20; 10] /\ returned (v_store v') = [30; 11] /\
    v_leaked v' = [40; 50].
Proof.
  eexists _, _. split; [vm_compute; reflexivity|]. split; [|repeat split].
  refine (proj1 (drains_conserve drained_twice four _ _ four_accounted _)). vm_compute. reflexivity.
Defined.

Lemma drain_lifetime_witness :
  exists ys v1, vector_run (DrainBegin 1 3 :: map DrainYield [NextBack]) four = Some (Finished :: map Yielded ys, v1) /\
    vector_step (Use Pop tt) v1 = None /\
    vector_step DrainDrop v1 = Some (Finished, mkVector (snd (drain 1 3 [NextBack] (v_store four))) None []).
Proof.
  destruct (drain_lifetime four 1 3 [NextBack] eq_refl ltac:(lia) ltac:(vm_compute; discriminate))
    as (ys & v1 & _ & Hrun & Hno & Hd & _).
  exists ys, v1. split; [exact Hrun|]. split; [apply Hno; left; by exists Pop, tt|exact Hd].
Defined.
