(* ===== verification/BrandedDeque.v ===== *)
(** * Branded deques ([src/collections/deque/])

    The standard [VecDeque] as the source uses it: its elements in order, and a
    ring: the slot of the buffer that holds the first element.  The elements and
    the ownership logs are the [store] of the branded vector; where the library
    moves the ring's head when it reallocates or closes a gap is a parameter
    with its bound.  Main results: every operation keeps the ring well formed
    and every value owned once; the two slices of [as_slices] are disjoint
    ranges of the buffer that show the elements in order; both ends are
    first-in first-out and last-in first-out queues; the [Cow] views and
    [clone_with] show the same elements. *)
From S2P Require Import Prelude Region Cow BrandedVec.
From stdpp Require Import base numbers list.
Local Open Scope Z_scope.

(** Where the ring starts after a reallocation ([old capacity], [new capacity],
    [head], [length]) and after a drain ([capacity], [head], [start], [end],
    [length]). *)
Class Ring : Type := {
  realloc_head : Z -> Z -> Z -> Z -> Z;
  drain_head : Z -> Z -> Z -> Z -> Z -> Z
}.
Class RingOk `{Ring} : Prop := {
  realloc_head_ok c c' h n : 0 <= realloc_head c c' h n < Z.max c' 1;
  drain_head_ok c h a b n : 0 <= drain_head c h a b n < Z.max c 1
}.

(** The deque operated on. *)
Record dstore (T St : Type) : Type := mkDstore {
  inner : store T St;
  head : Z
}.
Arguments mkDstore {T St}.
Arguments inner {T St}.
Arguments head {T St}.

Section code.
Context `{Allocator, Ring} {T St : Type}.
#[local] Abbreviation DV A := (M (dstore T St) A).

Definition cap (d : dstore T St) : Z := capacity (this (inner d)).
Definition items (d : dstore T St) : list T := elems (inner d).
Definition dlen (d : dstore T St) : Z := len (inner d).

(** [to_physical_idx]: the slot of the element at a logical index. *)
Definition to_physical_idx (d : dstore T St) (i : Z) : Z := (head d + i) mod cap d.

(** An operation on the elements; the ring moves when the buffer does. *)
Definition on_items {A} (op : M (store T St) A) : DV A := fun d =>
  let '(o, s) := op (inner d) in
  (o, mkDstore s (if decide (capacity (this s) = cap d) then head d
                  else realloc_head (cap d) (capacity (this s)) (head d) (dlen d))).

Definition set_head (h : Z) (d : dstore T St) : dstore T St := mkDstore (inner d) h.

(** ** [vec_deque.rs] *)

Definition dnew (d : dstore T St) : dstore T St := mkDstore (new (inner d)) 0.
Definition dwith_capacity (c : Z) : DV unit := fun d =>
  match with_capacity c (inner d) with
  | (Ret u, s) => (Ret u, mkDstore s 0)
  | (o, _) => (o, d)
  end.
Definition dis_empty (d : dstore T St) : bool := bool_decide (dlen d = 0).
Definition dcapacity (d : dstore T St) : Z := cap d.
Definition das_cells (d : dstore T St) : list T := items d.

(** [From<VecDeque<T>>]: the same buffer and ring; the old elements drop. *)
Definition from_vec_deque (v : vec T) (h : Z) (d : dstore T St) : dstore T St :=
  mkDstore (from_vec v (inner d)) h.

(** ** [ops.rs] *)

Definition push_back (value : T) : DV unit := on_items (push value).
Definition pop_back : DV (option T) := on_items pop.

Definition push_front (value : T) : DV unit := fun d =>
  let d := mkDstore (accept [value] (inner d)) (head d) in
  match on_items (BrandedVec.reserve 1) d with
  | (Ret _, d) =>
      (Ret tt, mkDstore (set_cells (value :: items d) (inner d)) ((head d - 1) mod cap d))
  | (o, d) => (o, mkDstore (drop_values [value] (inner d)) (head d))
  end.

Definition pop_front : DV (option T) := fun d =>
  match items d with
  | x :: rest =>
      (Ret (Some x), mkDstore (give_out [x] (set_cells rest (inner d))) ((head d + 1) mod cap d))
  | [] => (Ret None, d)
  end.

Definition dclear : DV unit := fun d => let '(o, d) := on_items clear d in (o, set_head 0 d).
Definition dreserve (additional : Z) : DV unit := on_items (reserve additional).
Definition dshrink_to_fit : DV unit := on_items shrink_to_fit.
Definition dtruncate (n : Z) : DV unit := on_items (truncate n).
Definition dswap (a b : Z) : DV unit := on_items (swap a b).

(** The draining iterator: the cells not yet yielded, from either end. *)
Definition ddrain_next (cells : list T) : option (T * list T) := drain_next cells.
Definition ddrain_next_back (cells : list T) : option (T * list T) := drain_next_back cells.
Definition ddrain_size_hint (cells : list T) : Z * option Z := (zlen cells, Some (zlen cells)).

Definition ddrain (start end_ : Z) (steps : list drain_step) : DV (list (option T)) := fun d =>
  match drain start end_ steps (inner d) with
  | (Ret ys, s) => (Ret ys, mkDstore s (drain_head (cap d) (head d) start end_ (dlen d)))
  | (o, s) => (o, mkDstore s (head d))
  end.

Definition dsplit_off (at_ : Z) : DV (list T) := on_items (split_off at_).
Definition dappend (other : list T) : DV (list T) := on_items (append other).
Definition dextend (values : list (M St T)) : DV unit := on_items (extend values).

(** [retain_mut]: a retained value is swapped with the first rejected one, and
    the rejected ones are dropped at the end, so a panic drops nothing.
    [kept ++ rejected ++ rest] is the buffer. *)
Fixpoint dretain_loop (f : T -> M St (T * bool)) (kept rejected rest : list T)
    : M (store T St) unit := fun s =>
  match rest with
  | [] => (Ret tt, drop_values rejected (set_cells kept s))
  | x :: rest =>
      match call (f x) s with
      | (Ret (x', true), s) =>
          match rejected with
          | [] => dretain_loop f (kept ++ [x']) [] rest s
          | r :: rejected => dretain_loop f (kept ++ [x']) (rejected ++ [r]) rest s
          end
      | (Ret (x', false), s) => dretain_loop f kept (rejected ++ [x']) rest s
      | (Panic p, s) => (Panic p, set_cells (kept ++ rejected ++ x :: rest) s)
      | (UB, s) => (UB, set_cells (kept ++ rejected ++ x :: rest) s)
      end
  end.

Definition dretain_mut (f : T -> M St (T * bool)) : DV unit :=
  on_items (fun s => dretain_loop f [] [] (elems s) s).

(** [into_vec_deque]: the buffer and the ring move out. *)
Definition into_vec_deque : DV (vec T * Z) := fun d =>
  (Ret (this (inner d), head d), mkDstore (snd (into_vec (inner d))) 0).

Definition dinto_iter : DV (list T) := vh ← into_vec_deque; mret (cells (fst vh)).
Definition dfrom_iter (values : list (M St T)) : DV unit := fun d => dextend values (dnew d).

(** ** [views.rs] *)

(** The buffer: unused slots hold anything. *)
Definition memory (junk : Z -> T) (d : dstore T St) : list T :=
  (fun j => default (junk j) (zget (items d) ((j - head d) mod cap d))) <$> zseq (cap d).

Definition dget (index : Z) (d : dstore T St) : option T := zget (items d) index.
Definition dget_mut (index : Z) (x : T) (d : dstore T St) : option (dstore T St) :=
  match get_mut index x (inner d) with Some s => Some (mkDstore s (head d)) | None => None end.

(** The elements up to the end of the buffer, and those wrapped to its start. *)
Definition as_slices (d : dstore T St) : slice * slice :=
  let front := Z.min (dlen d) (cap d - head d) in
  (slice_as_unsafe_cell (Slice (head d) front), slice_as_unsafe_cell (Slice 0 (dlen d - front))).
Definition das_mut_cells (l : list T) (d : dstore T St) : dstore T St :=
  mkDstore (as_mut_cells l (inner d)) (head d).
Definition as_mut_slices (d : dstore T St) : slice * slice := as_slices d.

Section cows.
Context {CS : Type} (clone : T -> M CS T) (m : list T).

Definition dcow_with `{CowPolicy C} (policy : C) (d : dstore T St) : M CS (Cow T) :=
  let '(s1, s2) := as_slices d in cow_from_segments clone m s1 s2 policy.
Definition dborrow_cow (d : dstore T St) : M CS (Cow T) := dcow_with mkBorrowed d.
Definition dretain_cow (d : dstore T St) : M CS (Cow T) := dcow_with mkRetained d.
Definition dcow_if (decision : RetainDecision) (d : dstore T St) : M CS (Cow T) :=
  match decision with
  | Cow.Borrow => dborrow_cow d
  | Cow.Retain => dretain_cow d
  end.

End cows.

(** [clone_with]: a deque of clones, made in a fresh store; a panic drops it. *)
Definition dclone_with (clone : T -> M St T) (m : list T) (d : dstore T St) : DV unit := fun fresh =>
  let '(s1, s2) := as_slices d in
  match (dwith_capacity (dlen d) ≫= fun _ =>
         dextend (clone <$> (contents m s1 ++ contents m s2))) fresh with
  | (Ret u, fresh) => (Ret u, fresh)
  | (o, fresh) => (o, mkDstore (drop_values (items fresh) (new (inner fresh))) 0)
  end.
End code.

(** ** Specification *)

Definition dwf `{Allocator} {T St} (d : dstore T St) : Prop :=
  wf (inner d) /\ 0 <= head d < Z.max (cap d) 1.

(** The operations that change the deque, as programs see them. *)
Inductive dop (T St : Type) : Type :=
| PushBack (x : T) | PushFront (x : T) | PopBack | PopFront | DClear | DReserve (n : Z) | DShrink
| DTruncate (n : Z) | DSwap (a b : Z) | DDrain (a b : Z) (steps : list drain_step)
| DSplitOff (i : Z) | DAppend (other : list T) | DRetain (f : T -> M St bool)
| DExtend (values : list (M St T)) | DInto.
Arguments PushBack {T St}. Arguments PushFront {T St}. Arguments PopBack {T St}.
Arguments PopFront {T St}. Arguments DClear {T St}. Arguments DReserve {T St}.
Arguments DShrink {T St}. Arguments DTruncate {T St}. Arguments DSwap {T St}.
Arguments DDrain {T St}. Arguments DSplitOff {T St}. Arguments DAppend {T St}.
Arguments DRetain {T St}. Arguments DExtend {T St}. Arguments DInto {T St}.

(** A predicate of the client that does not change the values. *)
Definition keeping {T St} (f : T -> M St bool) (x : T) : M St (T * bool) := b ← f x; mret (x, b).

(** The state an operation leaves, whether it returned or panicked. *)
Definition dafter `{Allocator, Ring} {T St} (o : dop T St) (d : dstore T St) : dstore T St :=
  match o with
  | PushBack x => snd (push_back x d)
  | PushFront x => snd (push_front x d)
  | PopBack => snd (pop_back d)
  | PopFront => snd (pop_front d)
  | DClear => snd (dclear d)
  | DReserve n => snd (dreserve n d)
  | DShrink => snd (dshrink_to_fit d)
  | DTruncate n => snd (dtruncate n d)
  | DSwap a b => snd (dswap a b d)
  | DDrain a b steps => snd (ddrain a b steps d)
  | DSplitOff i => snd (dsplit_off i d)
  | DAppend other => snd (dappend other d)
  | DRetain f => snd (dretain_mut (keeping f) d)
  | DExtend values => snd (dextend values d)
  | DInto => snd (into_vec_deque d)
  end.

(** Lengths and capacities, by computation. *)
Ltac vlia :=
  unfold wf, dlen, cap, items, len in *; cbn in *; unfold elems in *; cbn in *;
  rewrite ?zlen_app, ?zlen_cons, ?zlen_nil in *; lia.

(** ** Lemmas: the elements' operations keep the capacity's bounds *)

Section capacities.
Context {A : Allocator} (Hok : @AllocatorOk A) {T St : Type}.
Implicit Types s : store T St.

Lemma wf_fewer l s : wf s -> zlen l <= len s -> wf (set_cells l s).
Proof using. vlia. Qed.

Lemma wf_accept l s : wf (accept l s) <-> wf s.
Proof using. done. Qed.

Lemma wf_reserve n s : wf s -> 0 <= n -> wf (snd (reserve n s)).
Proof using Hok.
  intros Hw Hn. destruct (decide (len s + n <= max_len)).
  - destruct (reserve_ok Hok n s) as (c & -> & Hc); [done..|]. vlia.
  - rewrite reserve_too_much by (done || lia). done.
Qed.

Lemma wf_push x s : wf s -> wf (snd (push x s)).
Proof using Hok.
  intros Hw. destruct (decide (len s < max_len)).
  - destruct (push_ok Hok x s) as (c & -> & Hc); [done..|].
    vlia.
  - unfold push. rewrite reserve_too_much; [done|exact Hw|].
    vlia.
Qed.

Lemma wf_push_all fs s : wf s -> wf (snd (push_all fs s)).
Proof using Hok.
  revert s. induction fs as [|f fs IH]; intros s Hw; [done|]. cbn [push_all]. rewrite M_bind_eq.
  unfold push_made, call. destruct (f (client s)) as [[x|p|] c]; [|done..].
  match goal with |- context [push x ?s] => pose proof (wf_push x s Hw); destruct (push x s) as [[u|p|] s1] end;
    [by apply IH|done..].
Qed.

Lemma wf_append other s : wf s -> wf (snd (append other s)).
Proof using Hok.
  intros Hw. destruct (decide (len s + zlen other <= max_len)).
  - destruct (append_ok Hok other s) as (c & -> & Hc); [done..|].
    vlia.
  - unfold append. rewrite reserve_too_much by (done || lia). done.
Qed.

Lemma zlen_take_drop {B} (l : list B) a b :
  0 <= a <= b -> zlen (take (Z.to_nat a) l ++ drop (Z.to_nat b) l) <= zlen l.
Proof using. intros. unfold zlen. rewrite length_app, length_take, length_drop. lia. Qed.

Lemma wf_drain a b steps s : wf s -> wf (snd (drain a b steps s)).
Proof using.
  intros Hw. unfold drain. case_decide; [|done]. destruct (drain_run _ _) as [ys rest]. cbn.
  pose proof (zlen_take_drop (elems s) a b). vlia.
Qed.
End capacities.

Lemma linear_dretain_loop {A : Allocator} {T St} (f : T -> M St bool) kept rejected rest (s : store T St) :
  given s ≡ₚ (kept ++ rejected ++ rest) ++ drops s ++ returned s ->
  linear (snd (dretain_loop (keeping f) kept rejected rest s)).
Proof.
  revert kept rejected s. induction rest as [|x rest IH]; intros kept rejected s Hs; cbn [dretain_loop].
  - unfold linear, elems; cbn. rewrite Hs. solve_Permutation.
  - unfold call, keeping. rewrite M_bind_eq.
    destruct (f x (client s)) as [[[|]|p|] c]; cbn; [destruct rejected as [|r rejected]| | |];
      try (apply IH; cbn; rewrite Hs; solve_Permutation); unfold linear, elems; cbn; exact Hs.
Qed.

Lemma wf_dretain_loop {A : Allocator} {T St} (f : T -> M St bool) kept rejected rest (s : store T St) :
  zlen kept + zlen rejected + zlen rest <= capacity (this s) <= max_len ->
  wf (snd (dretain_loop (keeping f) kept rejected rest s)).
Proof.
  revert kept rejected s. induction rest as [|x rest IH]; intros kept rejected s Hs; cbn [dretain_loop].
  - pose proof (zlen_nonneg rejected). vlia.
  - rewrite zlen_cons in Hs. unfold call, keeping. rewrite M_bind_eq.
    destruct (f x (client s)) as [[[|]|p|] c]; cbn; [destruct rejected as [|r rejected]| | |];
      try (apply IH; cbn; vlia); vlia.
Qed.

(** ** Lemmas: the ring *)

Section ring.
Context {A : Allocator} (Hok : @AllocatorOk A) {R : Ring} (Rok : @RingOk R) {T St : Type}.
Implicit Types d : dstore T St.

Lemma dwf_on_items {B} (op : M (store T St) B) d :
  wf (snd (op (inner d))) -> dwf d -> dwf (snd (on_items op d)).
Proof using Rok.
  unfold on_items. intros Hw [_ Hh]. destruct (op (inner d)) as [o s]. cbn in *. split; [done|].
  unfold cap in *; cbn. case_decide as Hc; [by rewrite Hc|]. apply realloc_head_ok.
Qed.

Lemma head_mod h c : 0 <= h mod Z.max c 1 < Z.max c 1.
Proof using. apply Z.mod_pos_bound. lia. Qed.

Lemma dwf_push_front x d : dwf d -> dwf (snd (push_front x d)).
Proof using Hok Rok.
  intros Hd. destruct Hd as [Hw Hh]. unfold push_front, on_items. cbn [inner head].
  assert (Hn : 0 <= dlen d) by apply zlen_nonneg.
  destruct (decide (dlen d < max_len)) as [Hm|Hm].
  - destruct (reserve_ok Hok 1 (accept [x] (inner d))) as (c & -> & Hc);
      [done|lia|unfold dlen, len, elems in *; cbn in *; lia|].
    split; [vlia|]. unfold cap; cbn. rewrite Z.max_l by vlia. apply Z.mod_pos_bound. vlia.
  - rewrite reserve_too_much; [|exact Hw|vlia].
    cbn. by rewrite decide_True.
Qed.

Lemma dwf_pop_front d : dwf d -> dwf (snd (pop_front d)).
Proof using.
  intros [Hw Hh]. unfold pop_front. destruct (items d) as [|x rest] eqn:E; [done|].
  unfold items in E. unfold wf, len in Hw. rewrite E in Hw.
  pose proof (zlen_nonneg rest). split; [vlia|]. unfold cap; cbn.
  rewrite Z.max_l by vlia. apply Z.mod_pos_bound. vlia.
Qed.

Lemma dwf_after (o : dop T St) d :
  (forall n, o = DReserve n -> 0 <= n) -> dwf d -> dwf (dafter o d).
Proof using Hok Rok.
  intros Hr Hd. pose proof Hd as [Hw Hh]. destruct o; cbn [dafter].
  - apply dwf_on_items; [by apply wf_push|done].
  - by apply dwf_push_front.
  - apply dwf_on_items; [|done]. unfold pop. destruct (last _); [|done].
    apply wf_fewer; [done|]. unfold len, zlen. rewrite length_take. lia.
  - by apply dwf_pop_front.
  - unfold dclear. pose proof (dwf_on_items clear d) as H1. destruct (on_items clear d) as [o d'].
    destruct H1 as [H1 H2]; [by apply wf_fewer; [|apply zlen_nonneg]|done|]. split; [done|]. cbn; lia.
  - apply dwf_on_items; [|done]. apply wf_reserve; [done|done|by apply Hr].
  - apply dwf_on_items; [|done]. pose proof (zlen_nonneg (elems (inner d))).
    pose proof (shrunk_enough (cap d) (dlen d)). unfold shrink_to_fit. vlia.
  - apply dwf_on_items; [|done]. apply wf_fewer; [done|]. unfold len, zlen. rewrite length_take. lia.
  - apply dwf_on_items; [|done]. unfold swap. destruct (zget _ a); [|done].
    destruct (zget _ b); [|done]. apply wf_fewer; [done|]. rewrite !zlen_zset. done.
  - unfold ddrain. pose proof (wf_drain a b steps (inner d) Hw) as H1.
    assert (Hc : capacity (this (snd (drain a b steps (inner d)))) = cap d).
    { unfold drain. case_decide; [|done]. by destruct (drain_run _ _). }
    destruct (drain a b steps (inner d)) as [[ys|p|] s]; cbn in *; (split; [done|]); unfold cap in *;
      cbn; rewrite Hc; [apply drain_head_ok|done..].
  - apply dwf_on_items; [|done]. unfold split_off. case_decide; [|done].
    assert (zlen (take (Z.to_nat i) (elems (inner d))) <= len (inner d))
      by (unfold len, zlen; rewrite length_take; lia). vlia.
  - apply dwf_on_items; [|done]. by apply wf_append.
  - apply dwf_on_items; [|done]. apply wf_dretain_loop. change (zlen (@nil T)) with 0. vlia.
  - apply dwf_on_items; [|done]. by apply wf_push_all.
  - split; [|cbn; lia]. pose proof (zlen_nonneg (elems (inner d))). vlia.
Qed.

Lemma linear_on_items {B} (op : M (store T St) B) d :
  linear (snd (op (inner d))) -> linear (inner (snd (on_items op d))).
Proof using. unfold on_items. by destruct (op (inner d)). Qed.

Lemma linear_dafter (o : dop T St) d : linear (inner d) -> linear (inner (dafter o d)).
Proof using.
  intros Hs. destruct o; cbn [dafter]; try apply linear_on_items.
  - by apply linear_push.
  - unfold push_front, on_items. cbn [inner head].
    destruct (reserve_keeps 1 (accept [x] (inner d))) as (He & Hg & Hd & Hr).
    destruct (reserve 1 (accept [x] (inner d))) as [[u|p|] s1]; cbn in *;
      apply (linear_move (inner d) _ [x]); cbn; rewrite ?Hd, ?Hr; try done;
      unfold items, elems in *; cbn in *; rewrite ?He; solve_Permutation.
  - apply (linear_after Pop). done.
  - unfold pop_front, items. destruct (elems (inner d)) as [|x rest] eqn:E; [done|]. cbn.
    apply linear_take_out; [rewrite E; solve_Permutation|done].
  - unfold dclear. pose proof (linear_on_items clear d) as H1. destruct (on_items clear d) as [o d'].
    by apply H1, linear_truncate.
  - by apply linear_reserve.
  - done.
  - by apply linear_truncate.
  - by apply (linear_after (Swap a b)).
  - unfold ddrain. pose proof (linear_drain a b steps (inner d) Hs).
    by destruct (drain a b steps (inner d)) as [[ys|p|] s].
  - by apply (linear_after (SplitOff i)).
  - by apply (linear_after (Append other)).
  - by apply linear_dretain_loop.
  - by apply linear_push_all.
  - by apply (linear_after IntoVec).
Qed.
End ring.

(** ** Lemmas: the views *)

Section views.
Context {A : Allocator} {T St : Type} (junk : Z -> T).
Implicit Types d : dstore T St.

Lemma memory_slot d j :
  0 <= j < cap d -> zget (memory junk d) j = Some (default (junk j) (zget (items d) ((j - head d) mod cap d))).
Proof using.
  intros Hj. unfold memory. rewrite zget_fmap, zget_zseq by done. done.
Qed.

Lemma zlen_memory d : 0 <= cap d -> zlen (memory junk d) = cap d.
Proof using. intros Hc. unfold memory. by rewrite zlen_fmap, zlen_zseq. Qed.

(** The element at a logical index is in its slot. *)
Lemma memory_physical d i :
  dwf d -> 0 <= i < dlen d -> zget (memory junk d) (to_physical_idx d i) = zget (items d) i.
Proof using.
  intros [Hw Hh] Hi. assert (Hc : dlen d <= cap d) by vlia.
  unfold to_physical_idx. rewrite memory_slot by (apply Z.mod_pos_bound; lia).
  rewrite Zminus_mod_idemp_l. replace (head d + i - head d) with i by lia.
  rewrite (Z.mod_small i) by lia.
  destruct (proj1 (zget_lt_is_Some (items d) i)) as [x Hx]; [done|]. by rewrite Hx.
Qed.

(** A range of the buffer that does not wrap shows a range of the elements. *)
Lemma contents_memory d b n i :
  dwf d -> 0 <= b -> 0 <= n -> b + n <= cap d -> 0 <= i -> i + n <= dlen d ->
  (forall k, 0 <= k < n -> b + k = to_physical_idx d (i + k)) ->
  contents (memory junk d) (Slice b n) = subrange i n (items d).
Proof using.
  intros Hd Hb Hn Hbn Hi Hin Hk. unfold contents. cbn.
  assert (Hz : zlen (items d) = dlen d) by done.
  apply zlist_eq; [by rewrite !zlen_subrange by (rewrite ?zlen_memory; lia)|].
  - intros k Hk'. rewrite zlen_subrange in Hk' by (rewrite ?zlen_memory; lia).
    rewrite !zget_subrange by lia. rewrite Hk by lia. apply memory_physical; [done|lia].
Qed.

(** The two slices: inside the buffer, disjoint, the elements in order. *)
Lemma as_slices_ok d :
  dwf d ->
  exists s1 s2, as_slices d = (s1, s2) /\
    0 <= s_base s1 /\ 0 <= s_len s1 /\ s_base s1 + s_len s1 <= cap d /\
    s_base s2 = 0 /\ 0 <= s_len s2 /\ (s_len s2 = 0 \/ s_len s2 <= s_base s1) /\
    s_len s1 + s_len s2 = dlen d /\
    contents (memory junk d) s1 = subrange 0 (s_len s1) (items d) /\
    contents (memory junk d) s2 = subrange (s_len s1) (s_len s2) (items d).
Proof using.
  intros Hd. pose proof Hd as [Hw Hh]. assert (Hc : dlen d <= cap d) by vlia.
  assert (Hn : 0 <= dlen d) by apply zlen_nonneg.
  unfold as_slices, slice_as_unsafe_cell. do 2 eexists. split; [done|]. cbn.
  split_and!; try lia.
  - apply contents_memory; [done|lia..|]. intros k Hk. unfold to_physical_idx.
    rewrite Z.mod_small; lia.
  - apply contents_memory; [done|lia..|]. intros k Hk. unfold to_physical_idx.
    assert (Hf : dlen d > cap d - head d) by lia. rewrite Z.min_r in * by lia.
    replace (head d + (cap d - head d + k)) with (k + 1 * cap d) by lia.
    rewrite Z_mod_plus_full, Z.mod_small; lia.
Qed.

Lemma slices_join d :
  dwf d -> exists s1 s2, as_slices d = (s1, s2) /\ 0 <= s_len s2 /\ s_len s1 + s_len s2 = dlen d /\
    contents (memory junk d) s1 ++ contents (memory junk d) s2 = items d /\
    zlen (contents (memory junk d) s1) = s_len s1 /\ zlen (contents (memory junk d) s2) = s_len s2.
Proof using.
  intros Hd. destruct (as_slices_ok d Hd) as (s1 & s2 & E & H1 & H2 & H3 & H4 & H5 & H6 & H7 & H8 & H9).
  exists s1, s2. rewrite H8, H9. assert (Hz : zlen (items d) = dlen d) by done.
  split_and!; [done..| |rewrite zlen_subrange; lia|rewrite zlen_subrange; lia].
  unfold subrange. rewrite drop_0, (firstn_all2 (drop _ _)); [apply take_drop|].
  rewrite length_drop. unfold zlen in Hz. lia.
Qed.

(** Writing an element writes its slot and no other. *)
Lemma memory_set d i x :
  dwf d -> 0 <= i < dlen d ->
  memory junk (mkDstore (set_cells (zset i x (items d)) (inner d)) (head d)) =
  zset (to_physical_idx d i) x (memory junk d).
Proof using.
  intros [Hw Hh] Hi. assert (Hc : dlen d <= cap d) by vlia. assert (Hz : zlen (items d) = dlen d) by done.
  set (d' := mkDstore _ _). assert (Hcap : cap d' = cap d) by done.
  assert (Hi' : items d' = zset i x (items d)) by done. assert (Hh' : head d' = head d) by done.
  apply zlist_eq; [by rewrite zlen_zset, !zlen_memory by lia|].
  intros j Hj. rewrite zlen_memory in Hj by lia.
  unfold to_physical_idx. pose proof (Z.mod_pos_bound (head d + i) (cap d) ltac:(lia)) as Hp.
  pose proof (Z.mod_pos_bound (j - head d) (cap d) ltac:(lia)) as Hq.
  rewrite (zget_zset (memory junk d)) by (rewrite ?zlen_memory; lia).
  rewrite !memory_slot by lia. rewrite Hi', Hcap, Hh', zget_zset by lia.
  assert (Hiff : (j - head d) mod cap d = i <-> j = (head d + i) mod cap d).
  { split; [intros <-|intros ->].
    - rewrite Zplus_mod_idemp_r. replace (head d + (j - head d)) with j by lia. rewrite Z.mod_small; lia.
    - rewrite Zminus_mod_idemp_l. replace (head d + i - head d) with i by lia. rewrite Z.mod_small; lia. }
  destruct (decide ((j - head d) mod cap d = i)) as [E|E].
  - by rewrite !decide_True by (symmetry; tauto).
  - by rewrite !decide_False by (intros E'; symmetry in E'; tauto).
Qed.
End views.

(** ** Lemmas: retaining, the ends *)

(** The elements a sequence of decisions keeps. *)
Definition select {T} (bs : list bool) (l : list T) : list T :=
  omap (fun bx : bool * T => if bx.1 then Some bx.2 else None) (zip bs l).

Lemma call_keeping {T St} (f : T -> M St bool) x (s : store T St) :
  call (keeping f x) s =
  (let '(o, k) := f x (client s) in (b ← o; Ret (x, b), set_client k s)).
Proof. unfold call, keeping. rewrite M_bind_eq. by destruct (f x (client s)) as [[b|p|] k]. Qed.

Lemma dretain_loop_spec {T St} (f : T -> M St bool) kept rejected rest (s : store T St) :
  match mapM f rest (client s) with
  | (Ret bs, k) => exists out,
      dretain_loop (keeping f) kept rejected rest s =
        (Ret tt, drop_values out (set_cells (kept ++ select bs rest) (set_client k s))) /\
      out ≡ₚ rejected ++ select (negb <$> bs) rest
  | (Panic p, k) => exists l,
      dretain_loop (keeping f) kept rejected rest s = (Panic p, set_cells l (set_client k s)) /\
      l ≡ₚ kept ++ rejected ++ rest
  | (UB, _) => True
  end.
Proof.
  revert kept rejected s. induction rest as [|x rest IH]; intros kept rejected s.
  - cbn. exists rejected. rewrite !app_nil_r. by destruct s.
  - rewrite M_mapM_cons. cbn [dretain_loop]. rewrite call_keeping.
    destruct (f x (client s)) as [[b|p|] k] eqn:E; [|by exists (kept ++ rejected ++ x :: rest)|done].
    cbn [mbind outcome_bind]. set (s1 := set_client k s).
    destruct b.
    + set (rejected' := match rejected with [] => [] | r :: l => l ++ [r] end).
      assert (Hp : rejected' ≡ₚ rejected) by (destruct rejected; cbn; [done|solve_Permutation]).
      specialize (IH (kept ++ [x]) rejected' s1). cbn in IH.
      destruct (mapM f rest k) as [[bs|p|] k'] eqn:Em; [| |done].
      * destruct IH as (out & IH & Ho). exists out. unfold rejected' in *. destruct rejected; cbn in *;
          rewrite IH, <- app_assoc; split; [done| |done|]; rewrite Ho; cbn; solve_Permutation.
      * destruct IH as (l & IH & Hl). exists l. unfold rejected' in *. destruct rejected; cbn in *;
          rewrite IH; split; [done| |done|]; rewrite Hl; solve_Permutation.
    + specialize (IH kept (rejected ++ [x]) s1). cbn in IH.
      destruct (mapM f rest k) as [[bs|p|] k'] eqn:Em; [| |done].
      * destruct IH as (out & IH & Ho). exists out. cbn. rewrite IH. split; [done|]. rewrite Ho. cbn.
        solve_Permutation.
      * destruct IH as (l & IH & Hl). exists l. rewrite IH. split; [done|]. rewrite Hl. solve_Permutation.
Qed.

(** [n] times [pop_front]. *)
Fixpoint pops `{Allocator} {T St} (n : nat) : M (dstore T St) (list (option T)) :=
  match n with
  | O => mret []
  | S n => x ← pop_front; xs ← pops n; mret (x :: xs)
  end.

Lemma pops_in_order `{Allocator} {T St} n (d : dstore T St) :
  (n <= length (items d))%nat ->
  exists d', pops n d = (Ret (Some <$> take n (items d)), d') /\ items d' = drop n (items d).
Proof.
  revert d. induction n as [|n IH]; intros d Hn; [by exists d|].
  cbn [pops]. rewrite M_bind_eq. unfold pop_front.
  destruct (items d) as [|x rest] eqn:E; [cbn in Hn; lia|]. cbn in Hn.
  match goal with |- context [pops n ≫= _] => idtac end.
  rewrite M_bind_eq. match goal with |- context [pops n ?d1] => destruct (IH d1) as (d' & Hd & Hi) end.
  { unfold items, elems; cbn. lia. }
  exists d'. rewrite Hd. split; [done|]. by rewrite Hi.
Qed.

(** ** Properties *)

(** The ring buffer's slices: on a well-formed deque the two ranges of
    [as_slices] (and of [as_mut_slices]) lie in the buffer, do not overlap and
    show the elements in order, however the unused slots are filled; the element
    [get] reads is the one in its slot, and a write through [get_mut] changes
    that slot of the buffer and no other. *)
Theorem deque_slices {A : Allocator} {T St} (junk : Z -> T) (d : dstore T St) :
  dwf d ->
  (exists s1 s2, as_slices d = (s1, s2) /\ as_mut_slices d = (s1, s2) /\
     0 <= s_base s1 /\ 0 <= s_len s1 /\ s_base s1 + s_len s1 <= cap d /\
     s_base s2 = 0 /\ 0 <= s_len s2 /\ (s_len s2 = 0 \/ s_base s2 + s_len s2 <= s_base s1) /\
     contents (memory junk d) s1 ++ contents (memory junk d) s2 = items d) /\
  (forall i, 0 <= i < dlen d ->
     dget i d = zget (memory junk d) (to_physical_idx d i) /\ is_Some (dget i d) /\
     forall x, exists d', dget_mut i x d = Some d' /\
       memory junk d' = zset (to_physical_idx d i) x (memory junk d)).
Proof.
  intros Hd. split.
  - destruct (as_slices_ok junk d Hd) as (s1 & s2 & E & H1 & H2 & H3 & H4 & H5 & H6 & H7 & H8 & H9).
    destruct (slices_join junk d Hd) as (t1 & t2 & E' & _ & _ & Hj & _). rewrite E in E'. simplify_eq.
    exists t1, t2. rewrite H4. split_and!; done || lia.
  - intros i Hi. split; [by rewrite memory_physical|]. split; [by apply zget_lt_is_Some|].
    intros x. unfold dget_mut, get_mut. rewrite decide_True by done. eexists. split; [done|].
    by apply memory_set.
Qed.

(** Every sequence of deque operations, each returning or panicking, keeps the
    ring well formed (the head inside the buffer, the elements within the
    capacity) and every value owned exactly once. *)
Theorem deque_operations_sound {A : Allocator} {R : Ring} {T St} (ops : list (dop T St))
    (d : dstore T St) :
  AllocatorOk -> RingOk -> (forall n, DReserve n ∈ ops -> 0 <= n) ->
  dwf d -> linear (inner d) ->
  let d' := foldl (fun d o => dafter o d) d ops in dwf d' /\ linear (inner d').
Proof.
  intros Hok Rok. revert d. induction ops as [|o ops IH]; intros d Hr Hd Hl; [done|]. cbn.
  apply IH; [intros n Hn; apply Hr; by right| |by apply linear_dafter].
  apply dwf_after; [done|done| |done]. intros n ->. apply Hr. by left.
Qed.

(** The ends are queues: with room for one more element, [push_back] and
    [push_front] put it last and first, [pop_back] and [pop_front] take the same
    element back and restore the contents; [pop_front] repeated after
    [push_back] yields the earlier elements in order and then the new one; a
    push past the largest allocation panics, drops the value and keeps the
    contents. *)
Theorem deque_ends {A : Allocator} {R : Ring} {T St} (d : dstore T St) (x : T) :
  AllocatorOk -> RingOk -> dwf d ->
  (dlen d < max_len ->
     (exists d1 d2, push_back x d = (Ret tt, d1) /\ items d1 = items d ++ [x] /\
        pop_back d1 = (Ret (Some x), d2) /\ items d2 = items d /\
        exists d3, pops (length (items d) + 1) d1 = (Ret (Some <$> (items d ++ [x])), d3) /\ items d3 = []) /\
     (exists d1 d2, push_front x d = (Ret tt, d1) /\ items d1 = x :: items d /\
        pop_front d1 = (Ret (Some x), d2) /\ items d2 = items d)) /\
  (dlen d = max_len -> forall push, push = push_back \/ push = push_front ->
     exists d', push x d = (Panic CapacityPanic, d') /\ items d' = items d /\
       drops (inner d') = drops (inner d) ++ [x]).
Proof.
  intros Hok Rok [Hw Hh]. split; [intros Hm; split|intros Hm push [-> | ->]].
  - unfold push_back, on_items. destruct (push_ok Hok x (inner d) Hw Hm) as (c & -> & Hc). cbn [fst snd].
    match goal with |- context [(Ret tt, ?t)] => set (d1 := t) end.
    assert (Hi1 : items d1 = items d ++ [x]) by done.
    destruct (pops_in_order (length (items d) + 1) d1) as (d3 & H3 & H4).
    { by rewrite Hi1, length_app. }
    rewrite Hi1, firstn_all2 in H3 by (rewrite length_app; cbn; lia).
    rewrite Hi1, skipn_all2 in H4 by (rewrite length_app; cbn; lia).
    unfold pop_back, on_items, pop. exists d1. eexists. split_and!; [done|done|..].
    + fold (items d1). rewrite Hi1, last_snoc, length_app, Nat.add_sub, take_app_length. done.
    + done.
    + by exists d3.
  - unfold push_front, on_items. cbn [inner head].
    destruct (reserve_ok Hok 1 (accept [x] (inner d))) as (c & -> & Hc); [done|lia|vlia|].
    do 2 eexists. by split_and!.
  - unfold push_back, on_items, push. rewrite reserve_too_much; [|exact Hw|vlia].
    eexists. by split_and!.
  - unfold push_front, on_items. cbn [inner head]. rewrite reserve_too_much; [|exact Hw|vlia].
    eexists. by split_and!.
Qed.

(** [retain_mut] with a client predicate visits the elements once each, in
    order; when all calls return, the elements kept are those it accepted, in
    their order, and the others are dropped once each; when one panics, that
    panic leaves, nothing is dropped and the deque holds the same elements. *)
Theorem deque_retain `{Allocator, Ring} {T St} (f : T -> M St bool) (d : dstore T St) :
  (forall bs k, mapM f (items d) (client (inner d)) = (Ret bs, k) ->
     exists d' out, dretain_mut (keeping f) d = (Ret tt, d') /\ items d' = select bs (items d) /\
       client (inner d') = k /\ drops (inner d') = drops (inner d) ++ out /\
       out ≡ₚ select (negb <$> bs) (items d)) /\
  (forall p k, mapM f (items d) (client (inner d)) = (Panic p, k) ->
     exists d', dretain_mut (keeping f) d = (Panic p, d') /\ items d' ≡ₚ items d /\
       client (inner d') = k /\ drops (inner d') = drops (inner d)).
Proof.
  pose proof (dretain_loop_spec f [] [] (items d) (inner d)) as Hs. unfold dretain_mut, on_items.
  fold (items d). split.
  - intros bs k Hm. rewrite Hm in Hs. destruct Hs as (out & -> & Ho). exists (mkDstore
      (drop_values out (set_cells ([] ++ select bs (items d)) (set_client k (inner d)))) (head d)), out.
    cbn. by rewrite decide_True.
  - intros p k Hm. rewrite Hm in Hs. destruct Hs as (l & -> & Hl).
    exists (mkDstore (set_cells l (set_client k (inner d))) (head d)). cbn. by rewrite decide_True.
Qed.

(** Views and copies of a deque: [borrow_cow] of a deque that does not wrap is
    a borrow of its buffer, without a clone; in every other case, and under
    [Retained] always, each element is cloned once and in order; every view
    shows the deque's elements in order, and [cow_if] is the policy it names.
    [clone_with] runs the clones in order into an allocation made at the start:
    when they return, the new deque holds the copies; when one panics the copies
    made are dropped. *)
Theorem deque_views {A : Allocator} {R : Ring} {T St} (junk : Z -> T) (d : dstore T St) (n : Z) :
  AllocatorOk -> dwf d ->
  let m := memory junk d in
  let wraps := cap d < head d + dlen d in
  (~ wraps -> exists s, dborrow_cow counting_clone m d n = (Ret (CowBorrowed s), n) /\
     contents m s = items d) /\
  (wraps -> exists c, dborrow_cow counting_clone m d n = (Ret (CowOwned c), n + dlen d) /\ c = items d) /\
  (exists c, dretain_cow counting_clone m d n = (Ret (CowOwned c), n + dlen d) /\ c = items d) /\
  dcow_if counting_clone m Cow.Borrow d n = dborrow_cow counting_clone m d n /\
  dcow_if counting_clone m Cow.Retain d n = dretain_cow counting_clone m d n /\
  (forall (clone : T -> M St T) (fresh : dstore T St),
     dclone_with clone m d fresh =
       match made (clone <$> items d) (client (inner fresh)) with
       | (Ret _, vs, k) => (Ret tt, mkDstore (mkStore (mkVec vs (grown 0 (dlen d)))
             (given (inner fresh) ++ vs) (drops (inner fresh)) (returned (inner fresh)) k) 0)
       | (o, vs, k) => (o, mkDstore (mkStore (mkVec [] 0)
             (given (inner fresh) ++ vs) (drops (inner fresh) ++ vs) (returned (inner fresh)) k) 0)
       end).
Proof.
  intros Hok Hd m wraps. destruct (slices_join junk d Hd) as (s1 & s2 & E & Hn & Hs & Hj & Hz1 & Hz2).
  fold m in Hj, Hz1, Hz2.
  assert (Hw : wraps <-> s_len s2 <> 0).
  { unfold as_slices, slice_as_unsafe_cell in E. injection E as <- <-. cbn in *. unfold wraps. lia. }
  assert (Htwo : forall C (P : CowPolicy C) (c : C), wraps ->
            cow_from_segments counting_clone m s1 s2 c n = (Ret (CowOwned (items d)), n + dlen d)).
  { intros C P c Hwr. unfold cow_from_segments. rewrite decide_False by tauto.
    rewrite M_bind_eq, extend_counting, M_bind_eq, extend_counting. cbn [app mret M_ret].
    rewrite Hj, Hz1, Hz2. unfold mret, M_ret. f_equal. lia. }
  assert (Hone : ~ wraps -> contents m s2 = [] /\ s_len s2 = 0 /\ contents m s1 = items d).
  { intros Hnw. assert (H0 : s_len s2 = 0) by (destruct (decide (s_len s2 = 0)); tauto). assert (H2 : contents m s2 = []) by (apply zlen_0; lia).
    by rewrite <- Hj, H2, app_nil_r. }
  unfold dborrow_cow, dretain_cow, dcow_if, dborrow_cow, dretain_cow, dcow_with. rewrite E.
  split_and!; try done.
  - intros Hnw. destruct (Hone Hnw) as (H2 & H0 & H1). exists s1. split; [|done].
    unfold cow_from_segments. by rewrite decide_True.
  - intros Hwr. exists (items d). split; [by apply Htwo|done].
  - exists (items d). split; [|done]. destruct (decide wraps) as [Hwr|Hnw]; [by apply Htwo|].
    destruct (Hone Hnw) as (H2 & H0 & H1). unfold cow_from_segments. rewrite decide_True by done.
    unfold policy_cow, Retained_policy, to_vec. rewrite M_bind_eq, mapM_counting.
    unfold mret, M_ret. rewrite H1. f_equal.
  - intros clone fresh. unfold dclone_with. rewrite E, Hj, M_bind_eq.
    destruct Hd as [Hw' _]. unfold dwith_capacity, with_capacity. rewrite decide_True by vlia.
    unfold dextend, on_items, extend. cbn [inner].
    pose proof (grown_enough 0 (dlen d)). pose proof (zlen_nonneg (items d)).
    rewrite push_all_made by (rewrite zlen_nil, zlen_fmap; vlia).
    destruct (made (clone <$> items d) (client (inner fresh))) as [[[u|p|] vs] k]; cbn; [|done..].
    by destruct u; rewrite decide_True.
Qed.

(** A library that puts the head at the start, and leaves it when it drains. *)
#[export] Instance at_start : Ring :=
  {| realloc_head := fun _ _ _ _ => 0; drain_head := fun c h _ _ _ => h mod Z.max c 1 |}.
#[export] Instance at_start_ok : RingOk.
Proof. split; intros; cbn; [lia|]. apply Z.mod_pos_bound. lia. Qed.

(** Three elements in a buffer of four slots, the last wrapped to the start. *)
Definition wrapped : dstore Z Z := mkDstore (mkStore (mkVec [10; 20; 30] 4) [10; 20; 30] [] [] 0) 2.

Lemma wrapped_ok : dwf wrapped.
Proof. cbv. repeat split; discriminate || reflexivity. Qed.

Lemma deque_slices_witness :
  (exists s1 s2, as_slices wrapped = (s1, s2) /\ as_mut_slices wrapped = (s1, s2) /\
     0 <= s_base s1 /\ 0 <= s_len s1 /\ s_base s1 + s_len s1 <= cap wrapped /\
     s_base s2 = 0 /\ 0 <= s_len s2 /\ (s_len s2 = 0 \/ s_base s2 + s_len s2 <= s_base s1) /\
     contents (memory Z.opp wrapped) s1 ++ contents (memory Z.opp wrapped) s2 = items wrapped) /\
  memory Z.opp wrapped = [30; -1; 10; 20] /\ as_slices wrapped = (Slice 2 2, Slice 0 1).
Proof.
  split; [exact (proj1 (deque_slices Z.opp wrapped wrapped_ok))|]. split; reflexivity.
Defined.

Definition deque_ops : list (dop Z Z) :=
  [PushFront 5; PushBack 6; PopFront; DRetain (fun x c => (if decide (x = 30) then Panic (UserPanic 0) else Ret false, c));
   DDrain 1 3 [NextBack]; DAppend [7; 8; 9; 1; 2]; DReserve 1; DShrink; DSplitOff 1].

Lemma deque_operations_sound_witness :
  let d' := foldl (fun d o => dafter o d) wrapped deque_ops in
  (dwf d' /\ linear (inner d')) /\ items d' = [10] /\ drops (inner d') = [20].
Proof.
  split; [apply (deque_operations_sound deque_ops wrapped doubling_ok at_start_ok)|split; reflexivity].
  - intros n Hn. repeat (apply elem_of_cons in Hn as [[=]|Hn]); [lia|]. by apply elem_of_nil in Hn.
  - exact wrapped_ok.
  - unfold linear, elems. cbn. constructor. repeat constructor.
Defined.

Lemma deque_ends_witness :
  (exists d1 d2, push_front 5 wrapped = (Ret tt, d1) /\ items d1 = [5; 10; 20; 30] /\
     pop_front d1 = (Ret (Some 5), d2) /\ items d2 = items wrapped) /\
  head (snd (push_front 5 wrapped)) = 1.
Proof.
  split; [|reflexivity].
  exact (proj2 (proj1 (deque_ends wrapped 5 doubling_ok at_start_ok wrapped_ok) eq_refl)).
Defined.

(** Keeps the multiples of twenty. *)
Definition twenties (x : Z) : M Z bool := fun calls => (Ret (bool_decide (x mod 20 = 0)), calls + 1).

(** Panics on thirty. *)
Definition not_thirty (x : Z) : M Z bool := fun calls =>
  (if decide (x = 30) then Panic (UserPanic 0) else Ret false, calls + 1).

Lemma deque_retain_witness :
  (exists d' out, dretain_mut (keeping twenties) wrapped = (Ret tt, d') /\ items d' = [20] /\
     client (inner d') = 3 /\ drops (inner d') = [] ++ out /\ out ≡ₚ [10; 30]) /\
  (exists d', dretain_mut (keeping not_thirty) wrapped = (Panic (UserPanic 0), d') /\ items d' ≡ₚ [10; 20; 30] /\ client (inner d') = 3 /\
     drops (inner d') = []).
Proof.
  split.
  - exact (proj1 (deque_retain twenties wrapped) [false; true; false] 3 eq_refl).
  - exact (proj2 (deque_retain not_thirty wrapped) (UserPanic 0) 3 eq_refl).
Defined.

Lemma deque_views_witness :
  (exists c, dborrow_cow counting_clone (memory Z.opp wrapped) wrapped 0 = (Ret (CowOwned c), 3) /\
     c = [10; 20; 30]) /\
  (exists s, dborrow_cow counting_clone (memory Z.opp (set_head 1 wrapped)) (set_head 1 wrapped) 0 =
     (Ret (CowBorrowed s), 0) /\ contents (memory Z.opp (set_head 1 wrapped)) s = [10; 20; 30]).
Proof.
  split.
  - refine (proj1 (proj2 (deque_views Z.opp wrapped 0 doubling_ok wrapped_ok)) _). reflexivity.
  - refine (proj1 (deque_views Z.opp (set_head 1 wrapped) 0 doubling_ok _) _).
    + cbv. repeat split; discriminate || reflexivity.
    + cbv. discriminate.
Defined.
