(* ===== verification/CowViews.v ===== *)
(** * The [Cow] boundary as an interface ([src/cell/cow.rs])

    [CellCowExt] is the trait of [Cow] views.  Slices of cells implement it;
    vectors and deques have methods of the same names and meaning ([views.rs] of
    both).  Here the trait is a type class, its documented contract a class of
    laws, and slices, vectors and deques are instances that discharge them.

    Main result, of the three containers and however a view is asked for:
    [Borrow] of elements that lie together, which those of slices and vectors
    always do and those of a deque unless its ring wraps, is the place itself and
    clones nothing; every other view clones each element once and in order, and
    what it owns later writes do not reach. *)
From S2P Require Import Prelude Region Cow BrandedVec BrandedDeque.
From stdpp Require Import base numbers list.
Local Open Scope Z_scope.

(** The physical index of a deque's first element. *)
Local Abbreviation head := BrandedDeque.head.

(** ** The trait *)

Class CellCowExt (C T : Type) : Type := {
  borrow_cow : forall {CS}, (T -> M CS T) -> C -> M CS (Cow T);
  retain_cow : forall {CS}, (T -> M CS T) -> C -> M CS (Cow T);
  borrow_cow_with : forall {CS P} `{CowPolicy P}, (T -> M CS T) -> C -> P -> M CS (Cow T);
  borrow_cow_if : forall {CS}, (T -> M CS T) -> C -> RetainDecision -> M CS (Cow T)
}.

(** Its documentation: [borrow_cow] and [retain_cow] are the two policies, and so
    is each decision; [Retained] clones each element once, in order, into an owned
    buffer; [Borrowed] is the place of the elements, without a clone, unless they
    do not lie together (the deque's exception), when it is a copy. *)
Class CowLaws (C T : Type) `{CellCowExt C T} : Type := {
  valid : C -> Prop;
  allocation : C -> list T;
  shown : C -> list T;
  together : C -> bool;
  place : C -> slice;
  borrow_law {CS} (clone : T -> M CS T) c st :
    borrow_cow clone c st = borrow_cow_with clone c mkBorrowed st;
  retain_law {CS} (clone : T -> M CS T) c st :
    retain_cow clone c st = borrow_cow_with clone c mkRetained st;
  decision_law {CS} (clone : T -> M CS T) c d st :
    borrow_cow_if clone c d st =
    match d with Cow.Borrow => borrow_cow clone c st | Cow.Retain => retain_cow clone c st end;
  retained_law {CS} (clone : T -> M CS T) c st : valid c ->
    borrow_cow_with clone c mkRetained st = (v ← to_vec clone (shown c); mret (CowOwned v)) st;
  borrowed_law {CS} (clone : T -> M CS T) c st : valid c ->
    borrow_cow_with clone c mkBorrowed st =
    if together c then (Ret (CowBorrowed (place c)), st)
    else (v ← to_vec clone (shown c); mret (CowOwned v)) st;
  place_law c : valid c -> together c = true -> contents (allocation c) (place c) = shown c
}.

(** A clone that returns is equal to its original. *)
Definition faithful {T CS} (clone : T -> M CS T) : Prop :=
  forall x st y st', clone x st = (Ret y, st') -> y = x.

(** ** The three containers *)

(** A slice of cells in an allocation. *)
Record cell_slice (T : Type) : Type := mkSlice { region : list T; range : slice }.
Arguments mkSlice {T}.
Arguments region {T}.
Arguments range {T}.

#[export] Instance slice_cow {T} : CellCowExt (cell_slice T) T :=
  {| borrow_cow CS clone c := Cow.borrow_cow clone (region c) (range c);
     retain_cow CS clone c := Cow.retain_cow clone (region c) (range c);
     borrow_cow_with CS P HP clone c policy := Cow.borrow_cow_with clone (region c) (range c) policy;
     borrow_cow_if CS clone c d := Cow.borrow_cow_if clone (region c) (range c) d |}.

#[export] Instance vec_cow {T St} : CellCowExt (store T St) T :=
  {| borrow_cow CS clone s := vec_borrow_cow clone s;
     retain_cow CS clone s := vec_retain_cow clone s;
     borrow_cow_with CS P HP clone s policy := vec_cow_with clone s policy;
     borrow_cow_if CS clone s d := vec_cow_if clone s d |}.

(** A deque with what the unused slots of its buffer hold. *)
Record deque_buffer (T St : Type) : Type := mkBuffer { unused : Z -> T; deque : dstore T St }.
Arguments mkBuffer {T St}.
Arguments unused {T St}.
Arguments deque {T St}.
Definition ring {T St} (b : deque_buffer T St) : list T := memory (unused b) (deque b).

#[export] Instance deque_cow {T St} : CellCowExt (deque_buffer T St) T :=
  {| borrow_cow CS clone b := dborrow_cow clone (ring b) (deque b);
     retain_cow CS clone b := dretain_cow clone (ring b) (deque b);
     borrow_cow_with CS P HP clone b policy := dcow_with clone (ring b) policy (deque b);
     borrow_cow_if CS clone b d := dcow_if clone (ring b) d (deque b) |}.

(** ** Lemmas *)

Lemma to_vec_faithful {T CS} (clone : T -> M CS T) l st v st' :
  faithful clone -> to_vec clone l st = (Ret v, st') -> v = l.
Proof.
  intros Hf. unfold to_vec. revert st v. induction l as [|x l IH]; intros st v Hm.
  - by injection Hm as <- _.
  - rewrite M_mapM_cons in Hm. destruct (clone x st) as [[y|p|] st1] eqn:Ex; [|done..].
    destruct (mapM clone l st1) as [[ys|p|] st2] eqn:El; [|done..]. injection Hm as <- <-.
    by rewrite (Hf _ _ _ _ Ex), (IH _ _ El).
Qed.

Lemma mapM_app_run {T CS} (clone : T -> M CS T) l1 l2 st :
  mapM clone (l1 ++ l2) st = (v1 ← mapM clone l1; v2 ← mapM clone l2; mret (v1 ++ v2)) st.
Proof.
  revert st. induction l1 as [|x l1 IH]; intros st.
  - change (mapM clone [] : M CS (list T)) with (mret [] : M CS (list T)). rewrite !M_bind_eq. cbn.
    rewrite M_bind_eq. by destruct (mapM clone l2 st) as [[v|p|] st'].
  - cbn [app]. rewrite M_mapM_cons, M_bind_eq, M_mapM_cons. destruct (clone x st) as [[y|p|] st1]; [|done..].
    rewrite IH, M_bind_eq. destruct (mapM clone l1 st1) as [[v1|p|] st2]; [|done..].
    rewrite !M_bind_eq. by destruct (mapM clone l2 st2) as [[v2|p|] st3].
Qed.

(** Copying two segments is copying what they hold, one after the other. *)
Lemma copy_segments {T CS} (clone : T -> M CS T) l1 l2 st :
  (values ← extend_from_slice clone [] l1; values ← extend_from_slice clone values l2;
   mret (CowOwned values)) st = (v ← to_vec clone (l1 ++ l2); mret (CowOwned v)) st.
Proof.
  unfold to_vec, extend_from_slice. rewrite !M_bind_eq, mapM_app_run, M_bind_eq.
  destruct (mapM clone l1 st) as [[v1|p|] st1]; [|done..]. cbn. rewrite !M_bind_eq.
  by destruct (mapM clone l2 st1) as [[v2|p|] st2].
Qed.

Lemma to_vec_ub {T CS} (clone : T -> M CS T) l st st' :
  to_vec clone l st = (UB, st') -> exists x st1 st2, x ∈ l /\ clone x st1 = (UB, st2).
Proof.
  unfold to_vec. revert st. induction l as [|x l IH]; intros st Hm; [done|].
  rewrite M_mapM_cons in Hm. destruct (clone x st) as [[y|p|] st1] eqn:Ex; [|done|].
  - destruct (mapM clone l st1) as [[ys|p|] st2] eqn:El; [done..|].
    injection Hm as ->. destruct (IH _ El) as (z & s1 & s2 & Hz & E). exists z, s1, s2. split; [by right|done].
  - exists x, st, st1. split; [by left|done].
Qed.

(** Copies of [l], in order: what they are, or which clone panicked. *)
Definition copy_ok {T CS} (clone : T -> M CS T) (l : list T) (st : CS) (r : outcome (Cow T) * CS) : Prop :=
  match r with
  | (Ret view, st') => view = CowOwned l /\ to_vec clone l st = (Ret l, st')
  | (Panic p, st') =>
      exists pre x post st1, l = pre ++ x :: post /\ mapM clone pre st = (Ret pre, st1) /\
        clone x st1 = (Panic p, st')
  | (UB, _) => exists x st1 st2, x ∈ l /\ clone x st1 = (UB, st2)
  end.

Lemma copied_view {T CS} (clone : T -> M CS T) l st :
  faithful clone -> copy_ok clone l st ((v ← to_vec clone l; mret (CowOwned v)) st).
Proof.
  intros Hf. rewrite M_bind_eq. destruct (to_vec clone l st) as [[v|p|] st'] eqn:E; cbn.
  - pose proof (to_vec_faithful clone l st v st' Hf E) as ->. by split.
  - apply to_vec_panics in E as (pre & x & post & copies & st1 & -> & Hp & Hx).
    pose proof (to_vec_faithful clone pre st copies st1 Hf Hp) as ->. by exists pre, x, post, st1.
  - by eapply to_vec_ub.
Qed.

#[export] Instance slice_laws {T} : CowLaws (cell_slice T) T.
Proof.
  refine {| valid _ := True; allocation := region; shown c := contents (region c) (range c);
            together _ := true; place := range |}; try done.
  by intros CS clone c [|] st.
Defined.

#[export] Instance vec_laws {T St} : CowLaws (store T St) T.
Proof.
  assert (forall s : store T St, contents (elems s) (buffer s) = elems s) as Hc.
  { intros s. unfold contents, buffer, len. apply subrange_all. }
  refine {| valid _ := True; allocation := elems; shown := elems; together _ := true; place := buffer |};
    try done.
  - by intros CS clone c [|] st.
  - intros CS clone s st _. cbn. unfold vec_cow_with, Cow.borrow_cow_with, policy_cow, Retained_policy.
    unfold borrow_slice. by rewrite Hc.
Defined.

(** The two segments of a deque, and whether there is a second. *)
Lemma deque_segments {T St} (junk : Z -> T) (d : dstore T St) :
  dwf d ->
  (head d + dlen d <= cap d /\ as_slices d = (Slice (head d) (dlen d), Slice 0 0) /\
   contents (memory junk d) (Slice (head d) (dlen d)) = items d) \/
  (cap d < head d + dlen d /\ exists s1 s2, as_slices d = (s1, s2) /\ s_len s2 <> 0 /\
   contents (memory junk d) s1 ++ contents (memory junk d) s2 = items d).
Proof.
  intros Hd. destruct (slices_join junk d Hd) as (s1 & s2 & E & Hn & Hs & Hj & _ & Hz2).
  pose proof E as E'. unfold as_slices, slice_as_unsafe_cell in E'. injection E' as <- <-. cbn in *.
  destruct (decide (head d + dlen d <= cap d)) as [Hw|Hw].
  - left. assert (Z.min (dlen d) (cap d - head d) = dlen d) as Hm by lia. rewrite Hm in *.
    rewrite Z.sub_diag in *. split; [done|]. split; [done|].
    apply zlen_0 in Hz2. by rewrite Hz2, app_nil_r in Hj.
  - right. split; [lia|]. do 2 eexists. split; [exact E|]. cbn. split; [lia|done].
Qed.

#[export] Instance deque_laws {T St} : CowLaws (deque_buffer T St) T.
Proof.
  refine {| valid b := dwf (deque b); allocation := ring; shown b := items (deque b);
            together b := bool_decide (head (deque b) + dlen (deque b) <= cap (deque b));
            place b := Slice (head (deque b)) (dlen (deque b)) |}; try done.
  - by intros CS clone c [|] st.
  - intros CS clone [junk d] st Hd. unfold borrow_cow_with, deque_cow, dcow_with, ring. cbn [deque unused] in *.
    destruct (deque_segments junk d Hd) as [(_ & -> & Hj)|(_ & s1 & s2 & -> & Hs & Hj)]; unfold cow_from_segments.
    + rewrite decide_True by done. unfold policy_cow, Retained_policy. by rewrite Hj.
    + rewrite decide_False by done. by rewrite copy_segments, Hj.
  - intros CS clone [junk d] st Hd. unfold borrow_cow_with, deque_cow, dcow_with, ring. cbn [deque unused] in *.
    destruct (deque_segments junk d Hd) as [(Hw & -> & Hj)|(Hw & s1 & s2 & -> & Hs & Hj)]; unfold cow_from_segments.
    + by rewrite bool_decide_true, decide_True.
    + rewrite bool_decide_false, decide_False by (lia || done). by rewrite copy_segments, Hj.
  - intros [junk d] Hd Hw%bool_decide_eq_true. cbn [deque unused] in *. unfold ring. cbn [deque unused].
    destruct (deque_segments junk d Hd) as [(_ & _ & Hj)|(? & _)]; [done|lia].
Defined.

(** What a view is, asked for with [d], by the contract. *)
Lemma cow_contract {C T} `{CellCowExt C T} (L : CowLaws C T) {CS} (clone : T -> M CS T) (c : C)
    (d : RetainDecision) (st : CS) :
  faithful clone -> valid c ->
  let named := match d with Cow.Borrow => borrow_cow clone c st | Cow.Retain => retain_cow clone c st end in
  let typed := match d with Cow.Borrow => borrow_cow_with clone c mkBorrowed st
                          | Cow.Retain => borrow_cow_with clone c mkRetained st end in
  borrow_cow_if clone c d st = named /\ named = typed /\
  if together c && (if d is Cow.Borrow then true else false) then
    typed = (Ret (CowBorrowed (place c)), st) /\ contents (allocation c) (place c) = shown c
  else copy_ok clone (shown c) st typed.
Proof.
  intros Hf Hc named typed. split; [apply decision_law|].
  split; [destruct d; [apply borrow_law|apply retain_law]|].
  subst typed. clear named. destruct d; cbn.
  - rewrite borrowed_law by done. destruct (together c) eqn:Ht; cbn; [|by apply copied_view].
    split; [done|]. by apply place_law.
  - rewrite andb_false_r. rewrite retained_law by done. by apply copied_view.
Qed.

(** ** Properties *)

(** The containers of the library that have these methods. *)
Inductive container (T St : Type) : Type :=
| Cells (c : cell_slice T)
| Vector (s : store T St)
| Deque (b : deque_buffer T St).
Arguments Cells {T St} c.
Arguments Vector {T St} s.
Arguments Deque {T St} b.

Section containers.
Context {T St : Type}.

(** A deque's ring is as its operations keep it. *)
Definition in_order (c : container T St) : Prop :=
  match c with Deque b => dwf (deque b) | _ => True end.
Definition elements (c : container T St) : list T :=
  match c with
  | Cells c => contents (region c) (range c)
  | Vector s => elems s
  | Deque b => items (deque b)
  end.

(** The allocation, and the part of it where the elements lie, unless they wrap. *)
Definition memory_of (c : container T St) : list T :=
  match c with Cells c => region c | Vector s => elems s | Deque b => ring b end.
Definition wraps (c : container T St) : bool :=
  match c with
  | Deque b => bool_decide (cap (deque b) < head (deque b) + dlen (deque b))
  | _ => false
  end.
Definition extent (c : container T St) : slice :=
  match c with
  | Cells c => range c
  | Vector s => Slice 0 (len s)
  | Deque b => Slice (head (deque b)) (dlen (deque b))
  end.

Context {CS : Type} (clone : T -> M CS T).

Definition view_named (d : RetainDecision) (c : container T St) : M CS (Cow T) :=
  match d, c with
  | Cow.Borrow, Cells c => borrow_cow clone c
  | Cow.Borrow, Vector s => borrow_cow clone s
  | Cow.Borrow, Deque b => borrow_cow clone b
  | Cow.Retain, Cells c => retain_cow clone c
  | Cow.Retain, Vector s => retain_cow clone s
  | Cow.Retain, Deque b => retain_cow clone b
  end.
Definition view_with `{CowPolicy P} (policy : P) (c : container T St) : M CS (Cow T) :=
  match c with
  | Cells c => borrow_cow_with clone c policy
  | Vector s => borrow_cow_with clone s policy
  | Deque b => borrow_cow_with clone b policy
  end.
Definition view_if (d : RetainDecision) (c : container T St) : M CS (Cow T) :=
  match c with
  | Cells c => borrow_cow_if clone c d
  | Vector s => borrow_cow_if clone s d
  | Deque b => borrow_cow_if clone b d
  end.
Definition view_typed (d : RetainDecision) (c : container T St) : M CS (Cow T) :=
  match d with Cow.Borrow => view_with mkBorrowed c | Cow.Retain => view_with mkRetained c end.
End containers.

(** C34: The [Cow] boundary, for slices of cells, vectors and deques: the functions,
    the policies and the run-time decisions ask for the same two views.  [Borrow],
    and only it, of elements that lie together, as those of slices and vectors
    always do and those of a deque do unless its ring wraps, is the very place of
    the elements, with no clone called; every other view is a copy: each element
    is cloned once and in order, what is returned owns elements equal to the
    container's, and a view that panics does so because a clone did, after the
    elements before it were cloned. *)
Theorem cow_boundary {T St CS} (clone : T -> M CS T) (c : container T St) (d : RetainDecision) (st : CS) :
  faithful clone -> in_order c ->
  view_if clone d c st = view_named clone d c st /\
  view_named clone d c st = view_typed clone d c st /\
  match d, wraps c with
  | Cow.Borrow, false =>
      view_typed clone d c st = (Ret (CowBorrowed (extent c)), st) /\
      contents (memory_of c) (extent c) = elements c
  | _, _ => copy_ok clone (elements c) st (view_typed clone d c st)
  end.
Proof.
  intros Hf Hc. destruct c as [c|s|b].
  - destruct (cow_contract slice_laws clone c d st Hf I) as (Hi & Hn & Hv). by destruct d.
  - destruct (cow_contract vec_laws clone s d st Hf I) as (Hi & Hn & Hv). by destruct d.
  - destruct (cow_contract deque_laws clone b d st Hf Hc) as (Hi & Hn & Hv). cbn [together deque_laws] in Hv.
    unfold wraps. destruct (decide (head (deque b) + dlen (deque b) <= cap (deque b))) as [Hw|Hw].
    + rewrite bool_decide_true in Hv by done. rewrite bool_decide_false by lia. by destruct d.
    + rewrite bool_decide_false in Hv by done. rewrite bool_decide_true by lia. by destruct d.
Qed.

(** A clone that panics on thirty. *)
Definition brittle (x : Z) : M Z Z := fun calls =>
  (if decide (x = 30) then Panic (UserPanic 3) else Ret x, calls + 1).

Lemma brittle_faithful : faithful brittle.
Proof. intros x st y st' He. unfold brittle in He. case_decide; congruence. Qed.

(** At the deque of [BrandedDeque] whose ring wraps, and turned so that it does not. *)
Lemma cow_boundary_witness :
  (exists pre x post st1, [10; 20; 30] = pre ++ x :: post /\ mapM brittle pre 0 = (Ret pre, st1) /\
     brittle x st1 = (Panic (UserPanic 3), 3)) /\
  view_named brittle Cow.Borrow (Deque (mkBuffer Z.opp wrapped)) 0 = (Panic (UserPanic 3), 3) /\
  view_named brittle Cow.Borrow (Vector (inner wrapped)) 0 = (Ret (CowBorrowed (Slice 0 3)), 0).
Proof.
  split; [|split; [reflexivity|]].
  - exact (proj2 (proj2 (cow_boundary brittle (Deque (mkBuffer Z.opp wrapped)) Cow.Borrow 0
      brittle_faithful wrapped_ok))).
  - destruct (cow_boundary brittle (Vector (inner wrapped)) Cow.Borrow 0 brittle_faithful I) as (_ & -> & H & _).
    exact H.
Defined.
