(* ===== verification/VecPermits.v ===== *)
(** * Branded vectors and the tokens of their brand ([src/collections/branded_vec/])

    [BrandedVec] and [Draining] take a vector by itself.  Here vectors live in
    the token machine of [Token]: a vector is a cell whose components are its
    elements, [get], [get_mut], [as_slice] and [as_mut_slice] lend guards on them
    against a permit ([views.rs]), and the operations that take [&mut self]
    ([ops.rs], [vec.rs], [iter.rs]) need a vector that nothing borrows and may
    move it to another allocation.

    Main results: guards of elements obey the brand's lock, whichever vectors and
    cells they come from; while an element is borrowed its vector neither moves
    nor shrinks nor grows, and only a writing guard changes what another would
    see; what a program does to a vector, through guards of any number of threads
    and through its owner, is a run of the vector of [Draining]. *)
From S2P Require Import Prelude AutoTraits BrandLock Views AtomicPhases Cow BrandedVec Draining Token.
From stdpp Require Import base numbers list gmap relations.
Local Open Scope Z_scope.

(** A vector beside its elements: their type's posture, the capacity and the
    allocation, and the live draining iterator. *)
Record vec_info : Type := mkInfo {
  vi_payload : payload;
  vi_capacity : Z;
  vi_addr : positive;
  vi_drain : option (draining Z)
}.

Record cmachine : Type := mkCM {
  memory : world;
  vectors : gmap positive vec_info
}.

Definition initial_cmachine : cmachine := mkCM initial_world ∅.

(** Every element has the posture of the vector's type. *)
Definition parts_of (p : payload) (l : list Z) : list payload := replicate (length l) p.

Section machine.
Context `{Allocator} {St : Type}.

(** The elements of [c] become [l]. *)
Definition set_elements (c : positive) (d : cell) (p : payload) (l : list Z) (w : world) : world :=
  set_cell c (mkCell (c_brand d) (c_thread d) (c_origin d) (parts_of p l) l) w.

Definition set_info (c : positive) (i : vec_info) (m : cmachine) : cmachine :=
  mkCM (memory m) (<[c := i]> (vectors m)).

(** [&mut self] on thread [th]: nothing borrows the vector. *)
Definition exclusive (th c : positive) (m : cmachine) : option (cell * vec_info) :=
  d ← cells (memory m) !! c;
  i ← vectors m !! c;
  guard (c_thread d = th);;
  guard (unguarded c (memory m));;
  guard (vi_drain i = None);;
  Some (d, i).

(** [From<Vec<T>>], with the ambient brand: the same allocation.  [BrandedVec::new]
    is the case of an empty [Vec]. *)
Definition vec_from (th brand : positive) (p : payload) (v : BrandedVec.vec Z) (m : cmachine) : option cmachine :=
  w ← new_cell th brand (parts_of p (BrandedVec.cells v)) (BrandedVec.cells v) (memory m);
  Some (mkCM w (<[next (memory m) := mkInfo p (capacity v) (next (memory m)) None]> (vectors m))).
Definition vec_new (th brand : positive) (p : payload) : cmachine -> option cmachine :=
  vec_from th brand p (mkVec [] 0).

(** The operations that take [&mut self] and leave the vector its own; the others
    take it whole. *)
Definition in_place (o : vop Z St) : bool :=
  match o with IntoBoxed | IntoVec | FromVec _ => false | _ => true end.

(** The vector as [BrandedVec] sees it, its logs being empty. *)
Definition plain_store (d : cell) (i : vec_info) (k : St) : store Z St :=
  mkStore (mkVec (c_value d) (vi_capacity i)) [] [] [] k.

(** One of them, called when the client's state is [k].  A capacity that changes is
    another allocation. *)
Definition vec_use (th c : positive) (o : vop Z St) (k : St) (m : cmachine) : option cmachine :=
  '(d, i) ← exclusive th c m;
  guard (in_place o = true);;
  let s := after o (plain_store d i k) in
  let addr := if decide (capacity (this s) = vi_capacity i) then vi_addr i else next (memory m) in
  Some (set_info c (mkInfo (vi_payload i) (capacity (this s)) addr None)
    (mkCM (bump (set_elements c d (vi_payload i) (elems s) (memory m))) (vectors m))).

(** [into_vec], [into_iter], [into_boxed_cells], and the vector's drop. *)
Definition vec_consume (th c : positive) (m : cmachine) : option cmachine :=
  _ ← exclusive th c m;
  w ← cell_into_inner th c (memory m);
  Some (mkCM w (delete c (vectors m))).

(** [as_mut_cells] and [get_mut] of one of the cells, written. *)
Definition vec_set (th c : positive) (j x : Z) (m : cmachine) : option cmachine :=
  _ ← exclusive th c m;
  w ← cell_get_mut th c j x (memory m);
  Some (mkCM w (vectors m)).

(** ** [views.rs] *)

(** A shared reference to the vector can be used on thread [th]. *)
Definition vec_shared (th : positive) (d : cell) (v : vec_info) : Prop :=
  th = c_thread d \/ (p_send (vi_payload v) = true /\ p_sync (vi_payload v) = true).

#[export] Instance vec_shared_dec th d v : Decision (vec_shared th d v).
Proof. unfold vec_shared. apply _. Defined.

(** [vec.get(index, permit)], [vec.get_mut(index, permit)]: out of bounds the
    permit is dropped. *)
Definition vec_element (i c : positive) (index : Z) (writes : bool) (m : cmachine) : option cmachine :=
  '(h, form, d) ← opens i c (memory m);
  v ← vectors m !! c;
  guard (vi_drain v = None);;
  guard (vec_shared (h_thread h) d v);;
  guard (writes = true -> form = ByMut);;
  w ← (if decide (0 <= index < zlen (c_parts d))
       then (if writes then slice_borrow_mut else slice_borrow) i c index (index + 1) (memory m)
       else Some (match form with ByMut => drop_holder i (memory m) | ByRef | ByShared => memory m end));
  Some (mkCM w (vectors m)).
Definition vec_get (i c : positive) (index : Z) := vec_element i c index false.
Definition vec_get_mut (i c : positive) (index : Z) := vec_element i c index true.

(** [vec.as_slice(permit)], [vec.as_mut_slice(permit)]: all the elements. *)
Definition vec_slice (i c : positive) (writes : bool) (m : cmachine) : option cmachine :=
  '(h, form, d) ← opens i c (memory m);
  v ← vectors m !! c;
  guard (vi_drain v = None);;
  guard (vec_shared (h_thread h) d v);;
  w ← (if writes then slice_borrow_mut else slice_borrow) i c 0 (zlen (c_parts d)) (memory m);
  Some (mkCM w (vectors m)).
Definition vec_as_slice (i c : positive) := vec_slice i c false.
Definition vec_as_mut_slice (i c : positive) := vec_slice i c true.

(** ** [iter.rs] *)

(** [vec.drain(start..end)]; out of bounds it panics. *)
Definition vec_drain (th c : positive) (start end_ : Z) (m : cmachine) : option cmachine :=
  '(d, i) ← exclusive th c m;
  if decide (0 <= start <= end_ /\ end_ <= zlen (c_value d)) then
    Some (set_info c (mkInfo (vi_payload i) (vi_capacity i) (vi_addr i)
        (Some (mkDraining (subrange start (end_ - start) (c_value d)) (drop (Z.to_nat end_) (c_value d)))))
      (mkCM (set_elements c d (vi_payload i) (take (Z.to_nat start) (c_value d)) (memory m)) (vectors m)))
  else Some m.

(** The iterator of [c] with its vector. *)
Definition drained (c : positive) (m : cmachine) : option (cell * vec_info * draining Z) :=
  d ← cells (memory m) !! c;
  i ← vectors m !! c;
  t ← vi_drain i;
  Some (d, i, t).

Definition vec_drain_next (c : positive) (step : drain_step) (m : cmachine) : option cmachine :=
  '(d, i, t) ← drained c m;
  Some match (match step with Next => drain_next (d_left t) | NextBack => drain_next_back (d_left t) end) with
       | Some (x, rest) =>
           set_info c (mkInfo (vi_payload i) (vi_capacity i) (vi_addr i)
                         (Some (mkDraining rest (d_tail t)))) m
       | None => m
       end.

(** The iterator ends, and the vector has the elements [l]. *)
Definition end_drain (c : positive) (d : cell) (i : vec_info) (l : list Z) (m : cmachine) : cmachine :=
  set_info c (mkInfo (vi_payload i) (vi_capacity i) (vi_addr i) None)
    (mkCM (set_elements c d (vi_payload i) l (memory m)) (vectors m)).
Definition vec_drain_drop (c : positive) (m : cmachine) : option cmachine :=
  '(d, i, t) ← drained c m; Some (end_drain c d i (c_value d ++ d_tail t) m).
Definition vec_drain_forget (c : positive) (keep : Z) (m : cmachine) : option cmachine :=
  '(d, i, t) ← drained c m; Some (end_drain c d i (take (Z.to_nat keep) (c_value d)) m).

(** ** Programs *)

(** The vector an operation of the token machine reaches directly. *)
Definition direct (o : op) : option positive :=
  match o with
  | CellBorrow _ c | CellBorrowMut _ c | SliceBorrow _ c _ _ | SliceBorrowMut _ c _ _
  | CellReplace _ c _ | CellGetMut _ c _ _ | CellIntoInner _ c => Some c
  | _ => None
  end.

(** What a vector's type and its live iterator ask of the operation: a vector is
    sent when its elements are [Send] and nothing drains it, and a vector that is
    drained does not outlive its brand. *)
Definition vectors_allow (o : op) (m : cmachine) : Prop :=
  map_Forall (fun c i =>
    match o with
    | SendCell c' _ => c' <> c \/ (vi_drain i = None /\ p_send (vi_payload i) = true)
    | ScopeEnd b => vi_drain i = None \/
        match cells (memory m) !! c with Some d => c_brand d <> b | None => True end
    | _ => True
    end) (vectors m).

#[export] Instance no_drain_dec (o : option (draining Z)) : Decision (o = None).
Proof. destruct o; [right|left]; done. Defined.

#[export] Instance vectors_allow_dec o m : Decision (vectors_allow o m).
Proof.
  apply map_Forall_dec. intros c i. destruct o; try apply _.
  destruct (cells (memory m) !! c); apply _.
Defined.

(** An operation on tokens, permits, guards and ordinary cells; the guards may be
    those of elements. *)
Definition base_op (o : op) (m : cmachine) : option cmachine :=
  guard (direct o ≫= (fun c => vectors m !! c) = None);;
  guard (vectors_allow o m);;
  w ← exec o (memory m);
  Some (mkCM w (filter (fun '(c, _) => is_Some (cells w !! c)) (vectors m))).

Inductive cop : Type :=
| CBase (o : op)
| CNew (th brand : positive) (p : payload) (v : BrandedVec.vec Z)
| CUse (th c : positive) (o : vop Z St) (k : St)
| CConsume (th c : positive)
| CSet (th c : positive) (j x : Z)
| CGet (i c : positive) (index : Z)
| CGetMut (i c : positive) (index : Z)
| CAsSlice (i c : positive)
| CAsMutSlice (i c : positive)
| CDrain (th c : positive) (start end_ : Z)
| CDrainNext (c : positive) (step : drain_step)
| CDrainDrop (c : positive)
| CDrainForget (c : positive) (keep : Z).

(** [None]: the compiler rejects the operation. *)
Definition cexec (o : cop) : cmachine -> option cmachine :=
  match o with
  | CBase o => base_op o
  | CNew th brand p v => vec_from th brand p v
  | CUse th c o k => vec_use th c o k
  | CConsume th c => vec_consume th c
  | CSet th c j x => vec_set th c j x
  | CGet i c index => vec_get i c index
  | CGetMut i c index => vec_get_mut i c index
  | CAsSlice i c => vec_as_slice i c
  | CAsMutSlice i c => vec_as_mut_slice i c
  | CDrain th c start end_ => vec_drain th c start end_
  | CDrainNext c step => vec_drain_next c step
  | CDrainDrop c => vec_drain_drop c
  | CDrainForget c keep => vec_drain_forget c keep
  end.

Definition csafe (o : cop) : bool := match o with CBase o => safe o | _ => true end.

Definition crun (ops : list cop) (m : cmachine) : option cmachine :=
  foldl (fun m o => m ≫= cexec o) (Some m) ops.

(** A step of a safe program. *)
Definition cstep (m m' : cmachine) : Prop := exists o, csafe o = true /\ cexec o m = Some m'.

(** ** The invariant *)

(** A vector's cell has one component per element, of the vector's posture; while
    it is drained nothing borrows it. *)
Record cminv (m : cmachine) : Prop := {
  cminv_memory : inv (memory m);
  cminv_vectors c i : vectors m !! c = Some i -> exists d, cells (memory m) !! c = Some d /\
    c_parts d = parts_of (vi_payload i) (c_value d) /\
    (vi_drain i = None \/ unguarded c (memory m)) /\
    (p_send (vi_payload i) = false -> c_thread d = c_origin d)
}.
End machine.
Arguments cop St : clear implicits.

(** ** Lemmas: elements *)

Lemma length_parts_of p l : zlen (parts_of p l) = zlen l.
Proof. unfold zlen, parts_of. by rewrite length_replicate. Qed.

Lemma part_at_of p l (d : cell) j q : c_parts d = parts_of p l -> part_at d j q -> q = p.
Proof.
  unfold part_at, parts_of, zget. intros ->. case_decide; [|done].
  by intros [-> _]%lookup_replicate.
Qed.

(** An unborrowed cell may change its components. *)
Lemma inv_reshape c d d' w :
  inv w -> cells w !! c = Some d -> unguarded c w -> cell_ok w c d' -> inv (set_cell c d' w).
Proof.
  intros [Ht Hu Hh Hc Hce] Hd Hun Hok. split; [exact Ht|exact Hu| |exact Hc|]; cbn.
  - intros j h Hj. destruct (Hh j h Hj) as [? (k & Hk & Hhold)]. split; [done|].
    exists k. split; [done|]. destruct (h_hold h) as [form|c' lo hi writes] eqn:Eh; [done|].
    destruct Hhold as (Hwr & dc & Hdc & Hrest). split; [done|]. exists dc. split; [|done].
    cbn. rewrite lookup_insert_ne; [done|]. intros ->. specialize (Hun j h Hj). cbn in Hun. by rewrite Eh in Hun.
  - intros j dj [[<- <-]|[_ Hj]]%lookup_insert_Some; [exact Hok|by apply Hce].
Qed.

Lemma inv_set_elements c d p l w :
  inv w -> cells w !! c = Some d -> unguarded c w ->
  (p_send p = false -> c_thread d = c_origin d) -> inv (set_elements c d p l w).
Proof.
  intros Hw Hd Hun Ho. apply (inv_reshape c d); [done..|].
  destruct (inv_cells w Hw c d Hd) as (? & ? & _). split_and!; cbn; [done|done|apply length_parts_of|].
  intros j q Hq Hs. apply Ho. by apply (part_at_of p l) in Hq as <-.
Qed.

(** What [exclusive] says of a vector. *)
Lemma exclusive_inv th c m d i :
  exclusive th c m = Some (d, i) ->
  cells (memory m) !! c = Some d /\ vectors m !! c = Some i /\ c_thread d = th /\
  unguarded c (memory m) /\ vi_drain i = None.
Proof.
  intros (d' & Hd & (i' & Hi & [Hth [Hun [Hdr [= -> ->]]%guard_Some]%guard_Some]%guard_Some)%bind_Some)%bind_Some.
  done.
Qed.

Lemma drained_inv c m d i t :
  drained c m = Some (d, i, t) ->
  cells (memory m) !! c = Some d /\ vectors m !! c = Some i /\ vi_drain i = Some t.
Proof.
  by intros (d' & Hd & (i' & Hi & (t' & Ht & [= -> -> ->])%bind_Some)%bind_Some)%bind_Some.
Qed.

(** ** Lemmas: the invariant *)

(** Vectors other than the one at hand keep their cells. *)
Lemma cminv_update m w c i d' :
  cminv m -> inv w ->
  (forall c', c' <> c -> cells w !! c' = cells (memory m) !! c') -> holders w = holders (memory m) ->
  cells w !! c = Some d' -> c_parts d' = parts_of (vi_payload i) (c_value d') ->
  (vi_drain i = None \/ unguarded c w) -> (p_send (vi_payload i) = false -> c_thread d' = c_origin d') ->
  cminv (set_info c i (mkCM w (vectors m))).
Proof.
  intros [Hm Hv] Hw Hne Hho Hd Hp Hdr Ho. split; [done|]. cbn [set_info memory vectors].
  intros c' i' [[<- <-]|[Hn Hc']]%lookup_insert_Some; [by exists d'|].
  destruct (Hv c' i' Hc') as (d0 & Hd0 & Hp0 & Hdr0 & Ho0). exists d0. rewrite Hne by done.
  split_and!; try done. destruct Hdr0 as [?|Hu]; [by left|right]. unfold unguarded in *. by rewrite Hho.
Qed.

Section preservation.
Context `{Allocator} {St : Type} (m m' : cmachine) (Hm : cminv m).

Lemma vector_cell c i :
  vectors m !! c = Some i -> exists d, cells (memory m) !! c = Some d /\
    c_parts d = parts_of (vi_payload i) (c_value d) /\ (vi_drain i = None \/ unguarded c (memory m)) /\
    (p_send (vi_payload i) = false -> c_thread d = c_origin d).
Proof using Hm. apply (cminv_vectors m Hm). Qed.

(** The vector's elements, or what they were moved out to, change in place. *)
Lemma cminv_set_elements c d i i' l :
  cells (memory m) !! c = Some d -> vectors m !! c = Some i -> unguarded c (memory m) ->
  vi_payload i' = vi_payload i ->
  cminv (set_info c i' (mkCM (set_elements c d (vi_payload i) l (memory m)) (vectors m))).
Proof using Hm.
  intros Hd Hi Hun Hp. destruct (vector_cell c i Hi) as (d0 & Hd0 & _ & _ & Ho).
  assert (d0 = d) as -> by congruence. eapply cminv_update; [done| | |done|apply lookup_insert_eq|..].
  - apply inv_set_elements; [apply Hm|done..].
  - intros c' Hne. by apply lookup_insert_ne.
  - cbn. by rewrite Hp.
  - by right.
  - by rewrite Hp.
Qed.

Lemma cminv_bump : cminv (mkCM (bump (memory m)) (vectors m)).
Proof using Hm. split; [apply inv_bump, Hm|exact (cminv_vectors m Hm)]. Qed.

Lemma cminv_vec_use th c (o : vop Z St) (k : St) : vec_use th c o k m = Some m' -> cminv m'.
Proof using Hm.
  intros ([d i] & (Hd & Hi & _ & Hun & Hdr)%exclusive_inv & [_ [= <-]]%guard_Some)%bind_Some.
  set (s := after o (plain_store d i k)).
  pose proof (cminv_set_elements c d i (mkInfo (vi_payload i) (capacity (this s))
    (if decide (capacity (this s) = vi_capacity i) then vi_addr i else next (memory m)) None)
    (elems s) Hd Hi Hun eq_refl) as [Hw Hv].
  split; [by apply inv_bump in Hw|exact Hv].
Qed.

Lemma cminv_vec_from th b p v : vec_from th b p v m = Some m' -> cminv m'.
Proof using Hm.
  intros (w & Hw & [= <-])%bind_Some. pose proof (inv_new_cell_op _ _ (cminv_memory m Hm) th b _ _ Hw) as Hiw.
  apply guard_Some in Hw as [_ [_ [= <-]]%guard_Some]. split; [done|]. cbn.
  intros c i [[<- <-]|[Hne Hc]]%lookup_insert_Some.
  - rewrite lookup_insert_eq. eexists. split; [done|]. by split_and!; [|left|].
  - rewrite lookup_insert_ne by done. by apply vector_cell.
Qed.

(** A change of the memory that takes vectors away, or leaves their cells and lends
    nothing on those that are drained. *)
Lemma cminv_shrink w vs :
  inv w ->
  (forall c i, vs !! c = Some i -> vectors m !! c = Some i /\
     exists d d', cells (memory m) !! c = Some d /\ cells w !! c = Some d' /\
       c_parts d' = c_parts d /\ zlen (c_value d') = zlen (c_value d) /\
       (p_send (vi_payload i) = false -> c_thread d' = c_thread d /\ c_origin d' = c_origin d) /\
       (vi_drain i = None \/ (unguarded c (memory m) -> unguarded c w))) ->
  cminv (mkCM w vs).
Proof using Hm.
  intros Hw Hvs. split; [done|]. intros c i Hc. cbn in *.
  destruct (Hvs c i Hc) as (Hi & d & d' & Hd & Hd' & Hp & Hl & Ho & Hu).
  destruct (vector_cell c i Hi) as (d0 & Hd0 & Hp0 & Hu0 & Ho0). assert (d0 = d) as -> by congruence.
  exists d'. split; [done|]. split; [|split].
  - rewrite Hp, Hp0. unfold parts_of. unfold zlen in Hl. f_equal. lia.
  - destruct Hu0 as [?|Hu0]; [by left|]. destruct Hu as [?|Hu]; [by left|right; auto].
  - intros Hs. destruct (Ho Hs) as [-> ->]. auto.
Qed.

(** What an operation of the token machine leaves of a cell it does not consume. *)
Lemma exec_cell_place o w w' c d d' :
  inv w -> exec o w = Some w' -> cells w !! c = Some d -> cells w' !! c = Some d' ->
  (forall th, o <> SendCell c th) -> c_thread d' = c_thread d /\ c_origin d' = c_origin d.
Proof using.
  intros Hw He Hd Hd' Hs. assert (c <> next w) as Hn by (by eapply cell_old).
  assert (forall c0 d0 d0', cells w !! c0 = Some d0 -> c_thread d0' = c_thread d0 -> c_origin d0' = c_origin d0 ->
    <[c0:=d0']> (cells w) !! c = Some d' -> c_thread d' = c_thread d /\ c_origin d' = c_origin d) as Hins.
  { intros c0 d0 d0' H0 Ht Ho [[-> ->]|[_ E]]%lookup_insert_Some; [|by simplify_eq].
    by assert (d0 = d) as <- by congruence. }
  destruct o; cbn in He; try (exec_inv_tac He; cbn in Hd'; by simplify_eq);
    try (exec_inv_tac He; refine (Hins _ _ _ _ _ _ Hd'); [eassumption|done..]).
  - exec_inv_tac He. cbn in Hd'. apply lookup_insert_Some in Hd' as [[-> _]|[_ E]]; [by destruct (Hs th)|].
    by simplify_eq.
  - exec_inv_tac He. cbn in Hd'. rewrite lookup_insert_ne in Hd' by done. by simplify_eq.
  - apply bind_Some in He as ([[h form] d0] & Ho & [_ [_ [= <-]]%guard_Some]%guard_Some).
    destruct (opens_inv _ _ _ _ _ _ Hw Ho) as (_ & _ & Hd0 & _). by eapply Hins; [exact Hd0|..|exact Hd'].
  - exec_inv_tac He. cbn in Hd'. apply lookup_delete_Some in Hd' as [_ E]. by simplify_eq.
  - injection He as <-. cbn in Hd'. apply map_lookup_filter_Some in Hd' as [E _]. by simplify_eq.
Qed.

(** A cell that nothing borrows is not lent by an operation that does not reach it
    directly. *)
Lemma exec_stays_unguarded o w w' c :
  inv w -> exec o w = Some w' -> direct o <> Some c -> unguarded c w -> unguarded c w'.
Proof using.
  intros Hw He Hdir Hun i h Hi. destruct (h_hold h) as [|c' lo hi wr] eqn:Eh; [done|]. intros ->.
  assert (reaches o w <> Some c) as Hr.
  { intros Hr. destruct o; cbn in Hr, Hdir; try done;
      apply bind_Some in Hr as (h1 & Hh1 & Hr); destruct (h_hold h1) as [|c1 ? ? ?] eqn:E1; try done;
      injection Hr as ->; specialize (Hun _ h1 Hh1); cbn in Hun; by rewrite E1 in Hun. }
  destruct (exec_spares_guard o w w' c i h lo hi wr Hw He Hr Hi Eh) as (h0 & Hh0 & E0).
  specialize (Hun i h0 Hh0). cbn in Hun. by rewrite E0 in Hun.
Qed.

Lemma cminv_base_op o : safe o = true -> base_op o m = Some m' -> cminv m'.
Proof using Hm.
  intros Hs [Hdir [Hal (w & He & [= <-])%bind_Some]%guard_Some]%guard_Some.
  pose proof (cminv_memory m Hm) as Hw. pose proof (exec_inv o _ w Hw Hs He) as Hw'.
  apply cminv_shrink; [done|]. intros c i [Hi [d' Hd']]%map_lookup_filter_Some. split; [done|].
  destruct (vector_cell c i Hi) as (d & Hd & _ & _ & _). exists d, d'. do 2 (split; [done|]).
  assert (direct o <> Some c) as Hnd by (intros E; rewrite E in Hdir; cbn in Hdir; congruence).
  destruct (exec_keeps_cell o _ w c d Hw He Hd) as (d1 & Hd1 & Hp & _).
  { intros th ->. by apply Hnd. }
  { intros ->. injection He as <-. cbn in Hd'. apply map_lookup_filter_Some in Hd' as [E Hb]. congruence. }
  assert (d1 = d') as -> by congruence. split; [done|]. split.
  { destruct (inv_cells _ Hw c d Hd) as (_ & _ & <- & _).
    destruct (inv_cells _ Hw' c d' Hd') as (_ & _ & <- & _). by rewrite Hp. }
  split.
  - intros Hps. eapply exec_cell_place; [exact Hw|exact He|done..|]. intros th ->.
    destruct (Hal c i Hi) as [?|[_ ?]]; [done|congruence].
  - right. by eapply exec_stays_unguarded.
Qed.

(** A borrow of a vector that is not drained, or the end of one. *)
Lemma cminv_lend o c v w :
  vectors m !! c = Some v -> vi_drain v = None -> safe o = true -> exec o (memory m) = Some w ->
  direct o = Some c \/ direct o = None -> cells w = cells (memory m) -> cminv (mkCM w (vectors m)).
Proof using Hm.
  intros Hc Hdr Hs He Hdir Hcells. pose proof (cminv_memory m Hm) as Hw.
  apply cminv_shrink; [by eapply exec_inv|]. intros c' i Hi. split; [done|].
  destruct (vector_cell c' i Hi) as (d & Hd & _). exists d, d. rewrite Hcells. do 4 (split; [done|]).
  split; [done|]. destruct (decide (c' = c)) as [->|Hne]; [left; congruence|right].
  eapply exec_stays_unguarded; [done|done|]. destruct Hdir as [-> | ->]; congruence.
Qed.

(** The operation is on no guard that is live. *)
Definition touches_no_guard (o : op) : Prop :=
  forall g h c lo hi wr, holders (memory m) !! g = Some h -> h_hold h = Guard c lo hi wr ->
    touches g o = false.

(** The memory after an element or the elements were lent. *)
Lemma vec_element_step i c index writes :
  vec_element i c index writes m = Some m' ->
  exists v, vectors m !! c = Some v /\ vi_drain v = None /\ vectors m' = vectors m /\
    cells (memory m') = cells (memory m) /\
    (memory m' = memory m \/
     exists o, safe o = true /\ exec o (memory m) = Some (memory m') /\
       (direct o = Some c \/ direct o = None) /\ touches_no_guard o).
Proof using.
  intros ([[h form] d] & Ho & (v & Hv & [Hdr [_ [Hwr (w & Hw & [= <-])%bind_Some]%guard_Some]%guard_Some]%guard_Some)%bind_Some)%bind_Some.
  exists v. do 3 (split; [done|]). cbn [memory]. revert Hw. case_decide.
  - destruct writes; intros Hw.
    + split; [|right; exists (SliceBorrowMut i c index (index + 1)); split_and!; [done|done|by left|done]].
      apply bind_Some in Hw as ([[h1 form1] d1] & _ & [_ [_ [= <-]]%guard_Some]%guard_Some).
      by destruct form1.
    + split; [|right; exists (SliceBorrow i c index (index + 1)); split_and!; [done|done|by left|done]].
      apply bind_Some in Hw as ([[h1 form1] d1] & _ & [_ [= <-]]%guard_Some). by destruct form1.
  - intros [= <-]. destruct form; [by split; [|left]| |by split; [|left]]. split; [done|].
    right. exists (EndBorrow i). split; [done|].
    unfold opens in Ho. apply bind_Some in Ho as (h0 & Hh0 & (k & _ & (d0 & _ & Hp)%bind_Some)%bind_Some).
    split; [cbn; unfold end_borrow; by rewrite Hh0|]. split; [by right|].
    intros g hg c' lo hi wr Hg Eg. apply bool_decide_eq_false. intros <-.
    assert (hg = h0) as -> by congruence. by rewrite Eg in Hp.
Qed.

Lemma vec_slice_step i c writes :
  vec_slice i c writes m = Some m' ->
  exists v, vectors m !! c = Some v /\ vi_drain v = None /\ vectors m' = vectors m /\
    cells (memory m') = cells (memory m) /\
    (memory m' = memory m \/
     exists o, safe o = true /\ exec o (memory m) = Some (memory m') /\
       (direct o = Some c \/ direct o = None) /\ touches_no_guard o).
Proof using.
  intros ([[h form] d] & Ho & (v & Hv & [Hdr [_ (w & Hw & [= <-])%bind_Some]%guard_Some]%guard_Some)%bind_Some)%bind_Some.
  exists v. do 3 (split; [done|]). cbn [memory]. revert Hw. destruct writes; intros Hw.
  - split; [|right; exists (SliceBorrowMut i c 0 (zlen (c_parts d))); split_and!; [done|done|by left|done]].
    apply bind_Some in Hw as ([[h1 form1] d1] & _ & [_ [_ [= <-]]%guard_Some]%guard_Some). by destruct form1.
  - split; [|right; exists (SliceBorrow i c 0 (zlen (c_parts d))); split_and!; [done|done|by left|done]].
    apply bind_Some in Hw as ([[h1 form1] d1] & _ & [_ [= <-]]%guard_Some). by destruct form1.
Qed.

Lemma cminv_lending c v :
  vectors m !! c = Some v -> vi_drain v = None -> vectors m' = vectors m ->
  cells (memory m') = cells (memory m) ->
  (memory m' = memory m \/ exists o, safe o = true /\ exec o (memory m) = Some (memory m') /\
     (direct o = Some c \/ direct o = None) /\ touches_no_guard o) -> cminv m'.
Proof using Hm.
  destruct m' as [w vs]. cbn. intros Hv Hdr -> Hcells [->|(o & Hs & He & Hdir & _)].
  - by destruct m.
  - by eapply cminv_lend.
Qed.

Lemma cminv_vec_set th c j x : vec_set th c j x m = Some m' -> cminv m'.
Proof using Hm.
  intros ([d i] & (Hd & Hi & Hth & Hun & Hdr)%exclusive_inv & (w & Hw & [= <-])%bind_Some)%bind_Some.
  pose proof (inv_cell_get_mut _ _ (cminv_memory m Hm) th c j x Hw) as Hiw.
  apply bind_Some in Hw as (d0 & Hd0 & [_ [_ [_ [= <-]]%guard_Some]%guard_Some]%guard_Some).
  assert (d0 = d) as -> by congruence. apply cminv_shrink; [done|]. intros c' i' Hi'. split; [done|].
  destruct (vector_cell c' i' Hi') as (d' & Hd' & _). cbn.
  destruct (decide (c' = c)) as [->|Hne].
  - rewrite lookup_insert_eq. assert (d' = d) as -> by congruence. eexists d, _.
    do 3 (split; [done|]). split; [apply zlen_zset|]. split; [done|]. right. by intros.
  - rewrite lookup_insert_ne by done. exists d', d'. do 4 (split; [done|]). split; [done|]. right. by intros.
Qed.

Lemma cminv_vec_consume th c : vec_consume th c m = Some m' -> cminv m'.
Proof using Hm.
  intros ([d i] & _ & (w & Hw & [= <-])%bind_Some)%bind_Some.
  pose proof (inv_cell_into_inner _ _ (cminv_memory m Hm) th c Hw) as Hiw.
  apply bind_Some in Hw as (d0 & Hd0 & [_ [_ [= <-]]%guard_Some]%guard_Some).
  apply cminv_shrink; [done|]. intros c' i' [Hne Hi']%lookup_delete_Some. split; [done|].
  destruct (vector_cell c' i' Hi') as (d' & Hd' & _). exists d', d'. cbn.
  rewrite lookup_delete_ne by done. do 4 (split; [done|]). split; [done|]. right. by intros.
Qed.

(** Only the iterator changes. *)
Lemma cminv_set_drain c i t t' :
  vectors m !! c = Some i -> vi_drain i = Some t' ->
  cminv (set_info c (mkInfo (vi_payload i) (vi_capacity i) (vi_addr i) (Some t)) m).
Proof using Hm.
  intros Hi Hdr. destruct (vector_cell c i Hi) as (d & Hd & Hp & Hu & Ho).
  pose proof (cminv_update m (memory m) c (mkInfo (vi_payload i) (vi_capacity i) (vi_addr i) (Some t)) d
    Hm (cminv_memory m Hm) (fun _ _ => eq_refl) eq_refl Hd Hp) as Hupd.
  apply Hupd; [|exact Ho]. right. destruct Hu as [?|?]; [congruence|done].
Qed.

Lemma cminv_cexec (o : cop St) : csafe o = true -> cexec o m = Some m' -> cminv m'.
Proof using Hm.
  intros Hs He. destruct o; cbn [cexec csafe] in *.
  - by eapply cminv_base_op.
  - by eapply cminv_vec_from.
  - by eapply cminv_vec_use.
  - by eapply cminv_vec_consume.
  - by eapply cminv_vec_set.
  - apply vec_element_step in He as (v & Hv & Hdr & Hvs & Hc & Hst). by eapply cminv_lending.
  - apply vec_element_step in He as (v & Hv & Hdr & Hvs & Hc & Hst). by eapply cminv_lending.
  - apply vec_slice_step in He as (v & Hv & Hdr & Hvs & Hc & Hst). by eapply cminv_lending.
  - apply vec_slice_step in He as (v & Hv & Hdr & Hvs & Hc & Hst). by eapply cminv_lending.
  - apply bind_Some in He as ([d i] & (Hd & Hi & Hth & Hun & Hdr)%exclusive_inv & He).
    case_decide; [|by injection He as <-]. injection He as <-. by apply cminv_set_elements.
  - apply bind_Some in He as ([[d i] t] & (Hd & Hi & Hdr)%drained_inv & [= <-]).
    destruct (match step with Next => _ | NextBack => _ end) as [[x rest]|]; [|done]. by eapply cminv_set_drain.
  - apply bind_Some in He as ([[d i] t] & (Hd & Hi & Hdr)%drained_inv & [= <-]).
    destruct (vector_cell c i Hi) as (_ & _ & _ & [?|?] & _); [congruence|]. by apply cminv_set_elements.
  - apply bind_Some in He as ([[d i] t] & (Hd & Hi & Hdr)%drained_inv & [= <-]).
    destruct (vector_cell c i Hi) as (_ & _ & _ & [?|?] & _); [congruence|]. by apply cminv_set_elements.
Qed.
End preservation.

(** ** Lemmas: the brands' locks *)

Section programs.
Context `{Allocator} {St : Type}.
Implicit Types (o : cop St) (m : cmachine).

(** An operation leaves the tokens and borrows alone, or is one of the token
    machine as far as these go. *)
Lemma cexec_borrows o m m' :
  csafe o = true -> cexec o m = Some m' ->
  (tokens (memory m') = tokens (memory m) /\ holders (memory m') = holders (memory m)) \/
  exists q, safe q = true /\ exec q (memory m) = Some (memory m').
Proof using.
  intros Hs He. destruct o; cbn [cexec csafe] in *.
  - apply guard_Some in He as [_ [_ (w & He & [= <-])%bind_Some]%guard_Some]. right. by exists o.
  - apply bind_Some in He as (w & Hw & [= <-]). right. by eexists (NewCell th brand _ _).
  - apply bind_Some in He as ([d i] & _ & [_ [= <-]]%guard_Some). by left.
  - apply bind_Some in He as ([d i] & _ & (w & Hw & [= <-])%bind_Some). right. by exists (CellIntoInner th c).
  - apply bind_Some in He as ([d i] & _ & (w & Hw & [= <-])%bind_Some). right. by exists (CellGetMut th c j x).
  - apply vec_element_step in He as (v & _ & _ & _ & _ & [->|(q & Hs' & He & _)]); [by left|right; by exists q].
  - apply vec_element_step in He as (v & _ & _ & _ & _ & [->|(q & Hs' & He & _)]); [by left|right; by exists q].
  - apply vec_slice_step in He as (v & _ & _ & _ & _ & [->|(q & Hs' & He & _)]); [by left|right; by exists q].
  - apply vec_slice_step in He as (v & _ & _ & _ & _ & [->|(q & Hs' & He & _)]); [by left|right; by exists q].
  - apply bind_Some in He as ([d i] & _ & He). case_decide; injection He as <-; by left.
  - apply bind_Some in He as ([[d i] t] & _ & [= <-]).
    destruct (match step with Next => _ | NextBack => _ end) as [[x rest]|]; by left.
  - apply bind_Some in He as ([[d i] t] & _ & [= <-]). by left.
  - apply bind_Some in He as ([[d i] t] & _ & [= <-]). by left.
Qed.

#[export] Instance vec_phases : BrandPhases (cstep (St := St)) cminv (fun b m => phase_of b (memory m)).
Proof.
  split; [intros m m' Hm (o & Hs & He); by eapply cminv_cexec|].
  intros b m m' Hm (o & Hs & He).
  destruct (cexec_borrows o m m' Hs He) as [[Ht Hh]|(q & Hs' & He')].
  - rewrite (phase_of_ext b (memory m) (memory m')) by done. constructor.
  - by eapply exec_phase_step; [apply Hm| |].
Qed.

Lemma crun_cons o (ops : list (cop St)) m : crun (o :: ops) m = cexec o m ≫= crun ops.
Proof using.
  unfold crun. cbn. destruct (cexec o m) as [m1|]; [done|]. cbn.
  induction ops as [|o' ops IH]; [done|exact IH].
Qed.

Lemma crun_steps (ops : list (cop St)) m m' :
  forallb csafe ops = true -> crun ops m = Some m' -> rtc (cstep (St := St)) m m'.
Proof using.
  revert m. induction ops as [|o ops IH]; intros m Hs Hr; [injection Hr as <-; apply rtc_refl|].
  apply andb_true_iff in Hs as [Ho Hs]. rewrite crun_cons in Hr.
  apply bind_Some in Hr as (m1 & He & Hr). eapply rtc_l; [by exists o|by apply IH].
Qed.

Lemma cminv_initial : cminv initial_cmachine.
Proof using. split; [apply inv_initial|done]. Qed.

(** The states of safe programs. *)
Definition creachable m : Prop :=
  exists ops : list (cop St), forallb csafe ops = true /\ crun ops initial_cmachine = Some m.

Lemma creachable_inv m : creachable m -> cminv m.
Proof using.
  intros (ops & Hs & Hr).
  exact (ok_steps (cstep (St := St)) cminv (fun b m => phase_of b (memory m)) _ _ cminv_initial
    (crun_steps ops _ m Hs Hr)).
Qed.

(** ** Lemmas: borrowed elements *)

(** An operation on the guard itself, or the end of a scope. *)
Definition ctouches (g : positive) o : bool :=
  match o with CBase o => touches g o | _ => false end.

(** The operations of a vector's owner. *)
Definition by_vector_owner (c : positive) o : bool :=
  match o with
  | CUse _ c' _ _ | CConsume _ c' | CSet _ c' _ _ | CDrain _ c' _ _ | CDrainNext c' _
  | CDrainDrop c' | CDrainForget c' _ | CBase (SendCell c' _) | CBase (CellGetMut _ c' _ _)
  | CBase (CellIntoInner _ c') => bool_decide (c' = c)
  | _ => false
  end.

Section borrowed.
Context (m : cmachine) (Hm : cminv m) (g c : positive) (h : holder) (lo hi : Z) (writes : bool) (i : vec_info).
Context (Hg : holders (memory m) !! g = Some h) (Eh : h_hold h = Guard c lo hi writes).
Context (Hi : vectors m !! c = Some i).

Lemma borrowed_not_unguarded : ~ unguarded c (memory m).
Proof using Hg Eh. intros Hu. specialize (Hu g h Hg). cbn in Hu. by rewrite Eh in Hu. Qed.

Lemma borrowed_not_drained : vi_drain i = None.
Proof using Hm Hg Eh Hi.
  destruct (cminv_vectors m Hm c i Hi) as (d & _ & _ & [?|Hu] & _); [done|].
  by destruct borrowed_not_unguarded.
Qed.

Lemma owner_excluded o : by_vector_owner c o = true -> cexec o m = None.
Proof using Hm Hg Eh Hi.
  pose proof borrowed_not_unguarded as Hu. pose proof borrowed_not_drained as Hd.
  assert (forall th, exclusive th c m = None) as Hx.
  { intros th. apply eq_None_not_Some. intros [[d i'] (_ & _ & _ & ? & _)%exclusive_inv]. done. }
  assert (drained c m = None) as Hdr.
  { apply eq_None_not_Some. intros [[[d i'] t] (_ & Hi' & Ht)%drained_inv]. congruence. }
  intros Ho. destruct o as [o| | | | | | | | | | | |]; cbn in Ho; try done;
    try (apply bool_decide_eq_true in Ho as ->; cbn; unfold vec_use, vec_consume, vec_set, vec_drain,
      vec_drain_next, vec_drain_drop, vec_drain_forget; by rewrite ?Hx, ?Hdr).
  destruct o; try done; apply bool_decide_eq_true in Ho as ->; cbn; unfold base_op; cbn [direct mbind option_bind].
  - apply eq_None_not_Some.
    intros [m' [_ [_ (w & (d & _ & [_ [Hun _]%guard_Some]%guard_Some)%bind_Some & _)%bind_Some]%guard_Some]%guard_Some].
    done.
  - rewrite Hi. by apply guard_None.
  - rewrite Hi. by apply guard_None.
Qed.

(** The cell table changed at vectors and cells the guard is not on. *)
Lemma elsewhere_undisturbed m' c' d' :
  holders (memory m') = holders (memory m) -> c' <> c ->
  (forall c0, c0 <> c' -> cells (memory m') !! c0 = cells (memory m) !! c0) ->
  cells (memory m') !! c' = Some d' -> undisturbed g (memory m) (memory m').
Proof using Hg Eh.
  intros Hh Hne Hcells Hd'. apply (undisturbed_cells (memory m) g h Hg (memory m') c' d');
    [by rewrite Hh|done|done|]. intros lo' hi' wr' dc E. rewrite Eh in E. congruence.
Qed.

Lemma exec_keeps_view q w :
  safe q = true -> touches g q = false -> exec q (memory m) = Some w -> undisturbed g (memory m) w.
Proof using Hm Hg Eh. intros Hs Ht He. by eapply exec_undisturbed; [apply Hm|..]. Qed.

Lemma same_memory_undisturbed : undisturbed g (memory m) (memory m).
Proof using Hg. by apply (undisturbed_holders (memory m) g h Hg (memory m) h). Qed.

Lemma lent_undisturbed m' c2 :
  (memory m' = memory m \/ exists q, safe q = true /\ exec q (memory m) = Some (memory m') /\
     (direct q = Some c2 \/ direct q = None) /\ touches_no_guard m q) ->
  undisturbed g (memory m) (memory m').
Proof using Hm Hg Eh.
  intros [->|(q & Hs & He & _ & Ht)]; [apply same_memory_undisturbed|].
  eapply exec_keeps_view; [done| |done]. by eapply Ht.
Qed.

(** Whatever is done elsewhere, the guard sees what it saw, and its vector stays. *)
Lemma borrowed_pinned o m' :
  csafe o = true -> ctouches g o = false -> cexec o m = Some m' ->
  undisturbed g (memory m) (memory m') /\ vectors m' !! c = Some i.
Proof using Hm Hg Eh Hi.
  intros Hs Ht He. pose proof (cminv_memory m Hm) as Hw.
  assert (forall c', by_vector_owner c' o = true -> c' <> c) as Hown.
  { intros c' Ho ->. by rewrite (owner_excluded o Ho) in He. }
  assert (exists d, cells (memory m) !! c = Some d) as [d Hd].
  { destruct (cminv_vectors m Hm c i Hi) as (d & Hd & _). by exists d. }
  destruct o; cbn [cexec csafe ctouches by_vector_owner] in *;
    try (assert (c0 <> c) as Hne by (apply Hown; by apply bool_decide_eq_true)).
  - apply guard_Some in He as [_ [_ (w & He & [= <-])%bind_Some]%guard_Some]. cbn [memory vectors].
    pose proof (exec_keeps_view o w Hs Ht He) as Hund. split; [done|].
    apply map_lookup_filter_Some. split; [done|].
    destruct (proj2 Hund h c lo hi writes d Hg Eh Hd) as (d' & Hd' & _). by exists d'.
  - apply bind_Some in He as (w & Hw' & [= <-]). cbn [memory vectors].
    split; [by eapply (exec_keeps_view (NewCell th brand _ _))|].
    rewrite lookup_insert_ne; [done|]. intros E. by apply (cell_old _ _ _ Hw Hd).
  - apply bind_Some in He as ([d0 i0] & _ & [_ [= <-]]%guard_Some). split; [|cbn; by rewrite lookup_insert_ne].
    eapply (elsewhere_undisturbed _ c0); [done|done| |apply lookup_insert_eq].
    intros c1 Hc1; cbn; by rewrite lookup_insert_ne.
  - apply bind_Some in He as ([d0 i0] & _ & (w & Hw' & [= <-])%bind_Some). cbn [memory vectors].
    split; [by eapply (exec_keeps_view (CellIntoInner th c0))|by rewrite lookup_delete_ne].
  - apply bind_Some in He as ([d0 i0] & _ & (w & Hw' & [= <-])%bind_Some).
    split; [by eapply (exec_keeps_view (CellGetMut th c0 j x))|done].
  - apply vec_element_step in He as (v & _ & _ & -> & _ & Hst). split; [by eapply lent_undisturbed|done].
  - apply vec_element_step in He as (v & _ & _ & -> & _ & Hst). split; [by eapply lent_undisturbed|done].
  - apply vec_slice_step in He as (v & _ & _ & -> & _ & Hst). split; [by eapply lent_undisturbed|done].
  - apply vec_slice_step in He as (v & _ & _ & -> & _ & Hst). split; [by eapply lent_undisturbed|done].
  - apply bind_Some in He as ([d0 i0] & _ & He).
    case_decide; injection He as <-; [|split; [apply same_memory_undisturbed|done]].
    split; [|cbn; by rewrite lookup_insert_ne].
    eapply (elsewhere_undisturbed _ c0); [done|done| |apply lookup_insert_eq]. intros c1 Hc1; cbn; by rewrite lookup_insert_ne.
  - apply bind_Some in He as ([[d0 i0] t] & _ & [= <-]).
    destruct (match step with Next => _ | NextBack => _ end) as [[x rest]|];
      (split; [apply same_memory_undisturbed|]); [cbn; by rewrite lookup_insert_ne|done].
  - apply bind_Some in He as ([[d0 i0] t] & _ & [= <-]). split; [|cbn; by rewrite lookup_insert_ne].
    eapply (elsewhere_undisturbed _ c0); [done|done| |apply lookup_insert_eq]. intros c1 Hc1; cbn; by rewrite lookup_insert_ne.
  - apply bind_Some in He as ([[d0 i0] t] & _ & [= <-]). split; [|cbn; by rewrite lookup_insert_ne].
    eapply (elsewhere_undisturbed _ c0); [done|done| |apply lookup_insert_eq]. intros c1 Hc1; cbn; by rewrite lookup_insert_ne.
Qed.
End borrowed.
End programs.

(** ** Specification: the vector of [Draining] *)

Section refinement.
Context `{Allocator} {St : Type}.
Implicit Types (o : cop St) (m : cmachine) (v : vector Z St).

(** What an operation is to the vector [c]. *)
Definition cevent_of (c : positive) (o : cop St) (m : cmachine) : option (vevent Z St) :=
  match o with
  | CBase (GuardDerefMut g j x) =>
      h ← holders (memory m) !! g;
      match h_hold h with
      | Guard c' lo _ _ => if decide (c' = c) then Some (Put (lo + j) x) else None
      | Permit _ => None
      end
  | CUse _ c' q k => if decide (c' = c) then Some (Use q k) else None
  | CSet _ c' j x => if decide (c' = c) then Some (Put j x) else None
  | CDrain _ c' start end_ => if decide (c' = c) then Some (DrainBegin start end_) else None
  | CDrainNext c' step => if decide (c' = c) then Some (DrainYield step) else None
  | CDrainDrop c' => if decide (c' = c) then Some DrainDrop else None
  | CDrainForget c' keep => if decide (c' = c) then Some (DrainForget keep) else None
  | _ => None
  end.

Definition only {A} (o : option A) : list A := match o with Some x => [x] | None => [] end.

(** What a program is to it. *)
Fixpoint chistory (c : positive) (ops : list (cop St)) (m : cmachine) : list (vevent Z St) :=
  match ops with
  | [] => []
  | o :: ops =>
      match cexec o m with
      | Some m' => only (cevent_of c o m) ++ chistory c ops m'
      | None => []
      end
  end.

(** The vector [c] of the machine is [v]. *)
Definition matches (c : positive) (v : vector Z St) (m : cmachine) : Prop :=
  exists d i, cells (memory m) !! c = Some d /\ vectors m !! c = Some i /\
    v_elems v = c_value d /\ capacity (this (v_store v)) = vi_capacity i /\ v_drain v = vi_drain i.

(** ** Lemmas: one step of a vector *)

Lemma matches_other c v m m' :
  matches c v m -> cells (memory m') !! c = cells (memory m) !! c -> vectors m' !! c = vectors m !! c ->
  matches c v m'.
Proof using. intros (d & i & Hd & Hi & Hv) Ed Ei. exists d, i. by rewrite Ed, Ei. Qed.

Lemma store_of_plain (s : store Z St) d i k :
  elems s = c_value d -> capacity (this s) = vi_capacity i ->
  set_client k s = framed (given s) (drops s) (returned s) (plain_store d i k).
Proof using.
  unfold elems. destruct s as [[l cap] g dr re c]. cbn. intros -> ->. unfold set_client, framed, plain_store. cbn.
  by rewrite !app_nil_r.
Qed.

Lemma matches_use c th q k v m m' :
  matches c v m -> vec_use th c q k m = Some m' ->
  exists r v', vector_step (Use q k) v = Some (r, v') /\ matches c v' m'.
Proof using.
  intros (d & i & Hd & Hi & Hv & Hcap & Hdr)
    ([d0 i0] & (Hd0 & Hi0 & _ & _ & Hn)%exclusive_inv & [_ [= <-]]%guard_Some)%bind_Some.
  simplify_eq. cbn [vector_step]. unfold use. rewrite Hdr, Hn. eexists _, _. split; [done|].
  eexists _, _. cbn. rewrite !lookup_insert_eq. do 2 (split; [done|]). unfold v_elems. cbn.
  rewrite (store_of_plain (v_store v) d i k), after_framed by done. by split_and!.
Qed.

(** A value written in place. *)
Lemma matches_put c j x v m w d i :
  matches c v m -> cells (memory m) !! c = Some d -> vectors m !! c = Some i -> vi_drain i = None ->
  0 <= j < zlen (c_value d) -> cells w = <[c := mkCell (c_brand d) (c_thread d) (c_origin d) (c_parts d)
    (zset j x (c_value d))]> (cells (memory m)) ->
  forall vs, vs !! c = Some i ->
  exists r v', vector_step (Put j x) v = Some (r, v') /\ matches c v' (mkCM w vs).
Proof using.
  intros (d0 & i0 & Hd & Hi & Hv & Hcap & Hdr) Hd' Hi' Hn Hj Hw vs Hvs. assert (d0 = d) as -> by congruence. assert (i0 = i) as -> by congruence.
  cbn [vector_step]. unfold put. rewrite Hdr, Hn, Hv.
  destruct (lookup_lt_is_Some_2 (c_value d) (Z.to_nat j)) as [old Hold]; [unfold zlen in Hj; lia|].
  assert (zget (c_value d) j = Some old) as -> by (unfold zget; by rewrite decide_True by lia).
  eexists _, _. split; [done|]. eexists _, i. cbn [memory vectors]. rewrite Hw, lookup_insert_eq.
  do 2 (split; [done|]). unfold v_elems. cbn. by split_and!.
Qed.

Lemma matches_drained c d i t v m :
  matches c v m -> drained c m = Some (d, i, t) ->
  cells (memory m) !! c = Some d /\ vectors m !! c = Some i /\ v_drain v = Some t /\
  v_elems v = c_value d /\ capacity (this (v_store v)) = vi_capacity i.
Proof using.
  intros (d0 & i0 & Hd & Hi & Hv & Hcap & Hdr) (Hd' & Hi' & Ht)%drained_inv. assert (d0 = d) as -> by congruence. assert (i0 = i) as -> by congruence. by rewrite Hdr.
Qed.

Lemma matches_end_drain c l d i v' m :
  v_elems v' = l -> capacity (this (v_store v')) = vi_capacity i -> v_drain v' = None ->
  matches c v' (end_drain c d i l m).
Proof using. intros. eexists _, _. cbn. rewrite !lookup_insert_eq. by split_and!. Qed.

(** The operations of the owner. *)
Lemma matches_drain c th a b v m m' :
  matches c v m -> vec_drain th c a b m = Some m' ->
  exists r v', vector_step (DrainBegin a b) v = Some (r, v') /\ matches c v' m'.
Proof using.
  intros Hm ([d i] & (Hd & Hi & _ & _ & Hn)%exclusive_inv & He)%bind_Some. cbn [vector_step].
  pose proof Hm as (d0 & i0 & Hd0 & Hi0 & Hv & Hcap & Hdr). assert (d0 = d) as -> by congruence. assert (i0 = i) as -> by congruence. unfold drain_begin.
  rewrite Hdr, Hn. change (len (v_store v)) with (zlen (v_elems v)). rewrite Hv.
  case_decide; injection He as <-; eexists _, _; (split; [done|]); [|done].
  eexists _, _. cbn. rewrite !lookup_insert_eq. by split_and!.
Qed.

Lemma matches_drain_next c step v m m' :
  matches c v m -> vec_drain_next c step m = Some m' ->
  exists r v', vector_step (DrainYield step) v = Some (r, v') /\ matches c v' m'.
Proof using.
  intros Hm ([[d i] t] & Hdr & [= <-])%bind_Some.
  destruct (matches_drained _ _ _ _ _ _ Hm Hdr) as (Hd & Hi & Ht & Hv & Hcap). cbn [vector_step].
  unfold drain_yield. rewrite Ht.
  destruct (match step with Next => _ | NextBack => _ end) as [[x rest]|]; eexists _, _; (split; [done|]); [|done].
  eexists _, _. cbn. rewrite lookup_insert_eq. by split_and!.
Qed.

Lemma matches_drain_end c v m m' e :
  matches c v m ->
  (e = DrainDrop /\ vec_drain_drop c m = Some m') \/
  (exists n, e = DrainForget n /\ vec_drain_forget c n m = Some m') ->
  exists r v', vector_step e v = Some (r, v') /\ matches c v' m'.
Proof using.
  intros Hm [[-> He]|(n & -> & He)]; apply bind_Some in He as ([[d i] t] & Hdr & [= <-]);
    destruct (matches_drained _ _ _ _ _ _ Hm Hdr) as (Hd & Hi & Ht & Hv & Hcap); cbn [vector_step];
    unfold drain_drop, drain_forget; rewrite Ht; eexists _, _; (split; [done|]);
    apply matches_end_drain; try done; by rewrite <- Hv.
Qed.

(** An operation of the token machine. *)
Lemma matches_base c q v m m' :
  cminv m -> matches c v m -> base_op q m = Some m' -> is_Some (vectors m' !! c) ->
  match cevent_of c (CBase q) m with
  | Some e => exists r v', vector_step e v = Some (r, v') /\ matches c v' m'
  | None => matches c v m'
  end.
Proof using.
  intros Hm Hv [Hdir [_ (w & He & [= <-])%bind_Some]%guard_Some]%guard_Some Hc. cbn [vectors] in Hc.
  pose proof (cminv_memory m Hm) as Hw. pose proof Hv as (d & i & Hd & Hi & Hel & Hcap & Hdr).
  assert (direct q <> Some c) as Hnd by (intros E; rewrite E in Hdir; cbn in Hdir; congruence).
  assert (filter (fun '(c, _) => is_Some (cells w !! c)) (vectors m) !! c = Some i) as Hvs.
  { destruct Hc as [i' Hc]. pose proof Hc as [Hi' _]%map_lookup_filter_Some. congruence. }
  pose proof Hvs as [_ [d' Hd']]%map_lookup_filter_Some.
  assert (cells w = cells (memory m) \/ reaches q (memory m) <> Some c -> matches c v (mkCM w (filter (fun '(c, _) => is_Some (cells w !! c)) (vectors m)))) as Hsame.
  { intros Hcase. assert (c_value d' = c_value d) as Hval.
    { destruct Hcase as [E|Hr]; [congruence|].
      destruct (exec_spares_cell q _ w c d Hw He Hr Hd) as [E|(d1 & Hd1 & _ & E)]; congruence. }
    exists d', i. cbn [memory vectors]. rewrite Hval. by split_and!. }
  destruct q; cbn [cevent_of]; try (apply Hsame; right; cbn in Hnd |- *; congruence);
    try (apply Hsame; left; cbn in He; by exec_inv_tac He).
  cbn [exec] in He. apply bind_Some in He as (h & Hh & He). rewrite Hh. cbn [mbind option_bind].
  destruct (h_hold h) as [|c' lo hi wr] eqn:Eh; [done|].
  destruct (decide (c' = c)) as [->|Hne].
  2: { apply Hsame. right. cbn. rewrite Hh. cbn. rewrite Eh. congruence. }
  destruct (inv_holders _ Hw _ h Hh) as [_ (k & _ & Hg)]. rewrite Eh in Hg.
  destruct Hg as (_ & d1 & Hd1 & _ & Hin & _). assert (d1 = d) as -> by congruence.
  apply bind_Some in He as (d1 & Hd2 & [-> [Hj [= <-]]%guard_Some]%guard_Some).
  assert (d1 = d) as -> by congruence. destruct (inv_cells _ Hw c d Hd) as (_ & _ & Hlen & _).
  eapply matches_put; [done|done|done| | |done|done].
  - destruct (cminv_vectors m Hm c i Hi) as (_ & _ & _ & [?|Hun] & _); [done|].
    exfalso. specialize (Hun _ h Hh). cbn in Hun. by rewrite Eh in Hun.
  - unfold in_parts in Hin. lia.
Qed.

(** One of the owner's operations on another vector. *)
Lemma matches_aside c c' v i w m m' :
  matches c v m -> c' <> c -> m' = set_info c' i (mkCM w (vectors m)) ->
  cells w !! c = cells (memory m) !! c -> matches c v m'.
Proof using.
  intros Hv Hne -> Hw. apply (matches_other c v m); [done|exact Hw|]. cbn. by rewrite lookup_insert_ne.
Qed.

Lemma matches_step c o v m m' :
  cminv m -> matches c v m -> cexec o m = Some m' -> is_Some (vectors m' !! c) ->
  match cevent_of c o m with
  | Some e => exists r v', vector_step e v = Some (r, v') /\ matches c v' m'
  | None => matches c v m'
  end.
Proof using.
  intros Hm Hv He Hc. pose proof (cminv_memory m Hm) as Hw.
  destruct o as [q|th b p v0|th c' q k|th c'|th c' j x|g c' j|g c' j|g c'|g c'|th c' a b|c' step|c'|c' keep];
    cbn [cexec] in He; [by apply matches_base|cbn [cevent_of]..].
  - pose proof Hv as (d & _ & Hd & _). apply bind_Some in He as (w & Hnew & [= <-]).
    assert (c <> next (memory m)) as Hne by (by eapply cell_old).
    apply guard_Some in Hnew as [_ [_ [= <-]]%guard_Some].
    apply (matches_other c v m); [done|..]; cbn; by rewrite lookup_insert_ne.
  - destruct (decide (c' = c)) as [->|Hne]; [by eapply matches_use|].
    apply bind_Some in He as ([d i] & _ & [_ [= <-]]%guard_Some).
    eapply matches_aside; [done|exact Hne|done|]. cbn. by rewrite lookup_insert_ne.
  - apply bind_Some in He as ([d i] & _ & (w & Hcell & [= <-])%bind_Some). cbn in Hc.
    assert (c' <> c) as Hne by (intros ->; rewrite lookup_delete_eq in Hc; by destruct Hc).
    apply bind_Some in Hcell as (d0 & _ & [_ [_ [= <-]]%guard_Some]%guard_Some).
    apply (matches_other c v m); [done|..]; cbn; by rewrite lookup_delete_ne.
  - apply bind_Some in He as ([d i] & (Hd & Hi & _ & _ & Hn)%exclusive_inv & (w & Hcell & [= <-])%bind_Some).
    apply bind_Some in Hcell as (d0 & Hd0 & [_ [_ [Hj [= <-]]%guard_Some]%guard_Some]%guard_Some).
    assert (d0 = d) as -> by congruence. destruct (inv_cells _ Hw c' d Hd) as (_ & _ & Hlen & _).
    destruct (decide (c' = c)) as [->|Hne]; [eapply matches_put; [done..| |done|done]; lia|].
    apply (matches_other c v m); [done|cbn; by rewrite lookup_insert_ne|done].
  - apply vec_element_step in He as (i & _ & _ & Evs & Ecs & _).
    apply (matches_other c v m); [done|by rewrite ?Evs, ?Ecs..].
  - apply vec_element_step in He as (i & _ & _ & Evs & Ecs & _).
    apply (matches_other c v m); [done|by rewrite ?Evs, ?Ecs..].
  - apply vec_slice_step in He as (i & _ & _ & Evs & Ecs & _).
    apply (matches_other c v m); [done|by rewrite ?Evs, ?Ecs..].
  - apply vec_slice_step in He as (i & _ & _ & Evs & Ecs & _).
    apply (matches_other c v m); [done|by rewrite ?Evs, ?Ecs..].
  - destruct (decide (c' = c)) as [->|Hne]; [by eapply matches_drain|].
    apply bind_Some in He as ([d i] & _ & He). case_decide; injection He as <-; [|done].
    eapply matches_aside; [done|exact Hne|done|]. cbn. by rewrite lookup_insert_ne.
  - destruct (decide (c' = c)) as [->|Hne]; [by eapply matches_drain_next|].
    apply bind_Some in He as ([[d i] t] & _ & [= <-]).
    destruct (match step with Next => _ | NextBack => _ end) as [[x rest]|]; [|done].
    by eapply (matches_aside c c' v _ (memory m)).
  - destruct (decide (c' = c)) as [->|Hne]; [eapply matches_drain_end; [done|by left]|].
    apply bind_Some in He as ([[d i] t] & _ & [= <-]).
    eapply matches_aside; [done|exact Hne|done|]. cbn. by rewrite lookup_insert_ne.
  - destruct (decide (c' = c)) as [->|Hne]; [eapply matches_drain_end; [done|right; by exists keep]|].
    apply bind_Some in He as ([[d i] t] & _ & [= <-]).
    eapply matches_aside; [done|exact Hne|done|]. cbn. by rewrite lookup_insert_ne.
Qed.

(** ** Lemmas: a vector that is gone *)

(** Time goes on, and a new vector is at a new place. *)
Lemma cexec_next o m m' :
  cexec o m = Some m' ->
  (next (memory m) <= next (memory m'))%positive /\
  forall c, (c < next (memory m))%positive -> vectors m !! c = None -> vectors m' !! c = None.
Proof using.
  intros He.
  destruct o as [q|th b p v0|th c' q k|th c'|th c' j x|g c' j|g c' j|g c'|g c'|th c' a b|c' step|c'|c' keep];
    cbn [cexec] in He.
  - apply guard_Some in He as [_ [_ (w & Hq & [= <-])%bind_Some]%guard_Some]. split; [by eapply exec_next|].
    intros c _ Hi. apply map_lookup_filter_None. by left.
  - apply bind_Some in He as (w & Hq & [= <-]). split; [by eapply (exec_next (NewCell th b _ _))|].
    intros c Hc Hi. cbn. by rewrite lookup_insert_ne by lia.
  - apply bind_Some in He as ([d i] & (_ & Hi' & _)%exclusive_inv & [_ [= <-]]%guard_Some). split; [cbn; lia|].
    intros c Hc Hi. cbn. by rewrite lookup_insert_ne by congruence.
  - apply bind_Some in He as ([d i] & _ & (w & Hq & [= <-])%bind_Some).
    split; [by apply (exec_next (CellIntoInner th c'))|].
    intros c _ Hi. apply lookup_delete_None. by right.
  - apply bind_Some in He as ([d i] & _ & (w & Hq & [= <-])%bind_Some).
    split; [by apply (exec_next (CellGetMut th c' j x))|done].
  - apply vec_element_step in He as (i & _ & _ & -> & _ & [->|(q & _ & Hq & _)]); [done|].
    split; [by eapply exec_next|done].
  - apply vec_element_step in He as (i & _ & _ & -> & _ & [->|(q & _ & Hq & _)]); [done|].
    split; [by eapply exec_next|done].
  - apply vec_slice_step in He as (i & _ & _ & -> & _ & [->|(q & _ & Hq & _)]); [done|].
    split; [by eapply exec_next|done].
  - apply vec_slice_step in He as (i & _ & _ & -> & _ & [->|(q & _ & Hq & _)]); [done|].
    split; [by eapply exec_next|done].
  - apply bind_Some in He as ([d i] & (_ & Hi' & _)%exclusive_inv & He). case_decide; injection He as <-; [|done].
    split; [done|]. intros c _ Hi. cbn. by rewrite lookup_insert_ne by congruence.
  - apply bind_Some in He as ([[d i] t] & (_ & Hi' & _)%drained_inv & [= <-]).
    destruct (match step with Next => _ | NextBack => _ end) as [[x rest]|]; [|done].
    split; [done|]. intros c _ Hi. cbn. by rewrite lookup_insert_ne by congruence.
  - apply bind_Some in He as ([[d i] t] & (_ & Hi' & _)%drained_inv & [= <-]).
    split; [done|]. intros c _ Hi. cbn. by rewrite lookup_insert_ne by congruence.
  - apply bind_Some in He as ([[d i] t] & (_ & Hi' & _)%drained_inv & [= <-]).
    split; [done|]. intros c _ Hi. cbn. by rewrite lookup_insert_ne by congruence.
Qed.

Lemma gone_run c (ops : list (cop St)) m m' :
  (c < next (memory m))%positive -> vectors m !! c = None -> crun ops m = Some m' -> vectors m' !! c = None.
Proof using.
  revert m. induction ops as [|o ops IH]; intros m Hc Hi Hr; [by injection Hr as <-|].
  rewrite crun_cons in Hr. apply bind_Some in Hr as (m1 & He & Hr).
  destruct (cexec_next o m m1 He) as [Hn Hg]. eapply IH; [|by apply Hg|done]. lia.
Qed.

(** ** Lemmas: a whole program *)

Lemma matches_run c (ops : list (cop St)) v m m' :
  cminv m -> matches c v m -> forallb csafe ops = true -> crun ops m = Some m' -> is_Some (vectors m' !! c) ->
  exists rs v', vector_run (chistory c ops m) v = Some (rs, v') /\ matches c v' m'.
Proof using.
  revert v m. induction ops as [|o ops IH]; intros v m Hm Hv Hs Hr Hc.
  { injection Hr as <-. by exists [], v. }
  apply andb_true_iff in Hs as [Ho Hs]. rewrite crun_cons in Hr.
  apply bind_Some in Hr as (m1 & He & Hr). cbn [chistory]. rewrite He.
  pose proof (cminv_cexec m m1 Hm o Ho He) as Hm1.
  assert (is_Some (vectors m1 !! c)) as Hc1.
  { destruct (vectors m1 !! c) eqn:E; [done|]. pose proof Hv as (d & i & Hd & Hi & _).
    destruct Hc as [j Hj]. destruct (inv_cells _ (cminv_memory m Hm) c d Hd) as [Hlt _].
    destruct (cexec_next o m m1 He) as [Hn _].
    rewrite (gone_run c ops m1 m') in Hj; [done|lia|done|done]. }
  pose proof (matches_step c o v m m1 Hm Hv He Hc1) as Hstep.
  destruct (cevent_of c o m) as [e|]; cbn [only app].
  - destruct Hstep as (r & v1 & Hv1 & Hm1v). destruct (IH v1 m1 Hm1 Hm1v Hs Hr Hc) as (rs & v' & Hrs & Hv').
    exists (r :: rs), v'. split; [|done]. cbn [vector_run]. rewrite Hv1. cbn [mbind option_bind].
    by rewrite Hrs.
  - by eapply IH.
Qed.
End refinement.

(** ** Properties *)

(** The elements of vectors obey the lock of their brand: whatever a safe
    program does with vectors, tokens, cells and guards, every brand goes through
    the phases of its readers-writer lock; a guard on elements, taken through
    [get], [get_mut], [as_slice] or [as_mut_slice] and projected further in any
    way, is within the vector, which has no live draining iterator; and two of
    them overlap only if both read. *)
Theorem vectors_keep_the_lock `{Allocator} {St} (ops : list (cop St)) (m : cmachine) :
  forallb csafe ops = true -> crun ops initial_cmachine = Some m ->
  (forall b, rtc phase_step Free (phase_of b (memory m))) /\
  (forall c i g h lo hi writes, vectors m !! c = Some i -> holders (memory m) !! g = Some h ->
     h_hold h = Guard c lo hi writes ->
     vi_drain i = None /\
     (exists d, cells (memory m) !! c = Some d /\ 0 <= lo /\ lo <= hi /\ hi <= zlen (c_value d)) /\
     forall g' h' lo' hi' writes', g <> g' -> holders (memory m) !! g' = Some h' ->
       h_hold h' = Guard c lo' hi' writes' ->
       (writes = false /\ writes' = false) \/ disjoint_ranges lo hi lo' hi').
Proof.
  intros Hs Hr. pose proof (crun_steps ops _ m Hs Hr) as Hsteps.
  pose proof (creachable_inv m (ex_intro _ ops (conj Hs Hr))) as Hm. pose proof (cminv_memory m Hm) as Hw.
  split.
  - intros b. exact (lock_steps (cstep (St := St)) cminv (fun b m => phase_of b (memory m)) b _ _ cminv_initial Hsteps).
  - intros c i g h lo hi writes Hi Hg Eh. split; [by eapply (borrowed_not_drained m Hm)|]. split.
    + destruct (inv_holders _ Hw g h Hg) as [_ (k & _ & Hok)]. rewrite Eh in Hok.
      destruct Hok as (_ & d & Hd & _ & Hin & _). exists d. split; [done|].
      destruct (inv_cells _ Hw c d Hd) as (_ & _ & Hlen & _). unfold in_parts in Hin. lia.
    + intros g' h' lo' hi' writes' Hne Hg' Eh'. by eapply (same_cell_guards _ g g').
Qed.

(** A borrowed vector stays where it is: while a guard on its elements is live,
    every operation of its owner is rejected, on any thread, and anything else a
    safe program may do, to this vector through other permits or elsewhere,
    leaves the allocation, the capacity and what the guard shows as they were. *)
Theorem borrowed_elements_pinned `{Allocator} {St} (m : cmachine) (g c : positive) (h : holder) (lo hi : Z)
    (writes : bool) (i : vec_info) :
  creachable (St := St) m -> holders (memory m) !! g = Some h -> h_hold h = Guard c lo hi writes ->
  vectors m !! c = Some i ->
  exists v, guard_deref g (memory m) = Some v /\
    (forall o : cop St, by_vector_owner c o = true -> cexec o m = None) /\
    (forall (o : cop St) m', csafe o = true -> ctouches g o = false -> cexec o m = Some m' ->
       vectors m' !! c = Some i /\ guard_deref g (memory m') = Some v).
Proof.
  intros Hr Hg Eh Hi. pose proof (creachable_inv m Hr) as Hm.
  destruct (cminv_vectors m Hm c i Hi) as (d & Hd & _).
  exists (subrange lo (hi - lo) (c_value d)).
  assert (guard_deref g (memory m) = Some (subrange lo (hi - lo) (c_value d))) as Hv.
  { unfold guard_deref. rewrite Hg. cbn. rewrite Eh. cbn. by rewrite Hd. }
  split; [done|]. split.
  - intros o. by eapply (owner_excluded m Hm).
  - intros o m' Hs Ht He. destruct (borrowed_pinned m Hm g c h lo hi writes i Hg Eh Hi o m' Hs Ht He) as [Hu Hv'].
    split; [done|]. by eapply undisturbed_deref.
Qed.

(** C15: Vectors under tokens are the vectors of the collection's own semantics: from
    its creation to any later moment, whatever any threads do to it through
    guards and permits and its owner through its methods and iterators, a vector
    is a run of [Draining]'s vector, with the same elements, capacity and
    iterator at the end; so every value ever moved into it is accounted for. *)
Theorem vector_refines `{Allocator} {St} (ops ops' : list (cop St)) (m m1 m2 : cmachine) (th brand : positive)
    (p : payload) (v0 : BrandedVec.vec Z) (k : St) (c := next (memory m)) :
  forallb csafe ops = true -> crun ops initial_cmachine = Some m -> vec_from th brand p v0 m = Some m1 ->
  forallb csafe ops' = true -> crun ops' m1 = Some m2 -> is_Some (vectors m2 !! c) ->
  exists rs v,
    vector_run (chistory c ops' m1)
      (mkVector (mkStore v0 (BrandedVec.cells v0) [] [] k) None []) = Some (rs, v) /\
    matches c v m2 /\ accounted v.
Proof.
  intros Hs Hr Hnew Hs' Hr' Hc. pose proof (creachable_inv m (ex_intro _ ops (conj Hs Hr))) as Hm.
  pose proof (cminv_vec_from m m1 Hm th brand p v0 Hnew) as Hm1.
  assert (matches c (mkVector (mkStore v0 (BrandedVec.cells v0) [] [] k) None []) m1) as Hv.
  { apply bind_Some in Hnew as (w & Hw & [= <-]). apply guard_Some in Hw as [_ [_ [= <-]]%guard_Some].
    eexists _, _. cbn. rewrite !lookup_insert_eq. by split_and!. }
  destruct (matches_run c ops' _ m1 m2 Hm1 Hv Hs' Hr' Hc) as (rs & v & Hrun & Hv').
  exists rs, v. do 2 (split; [done|]).
  assert (forall es (v v' : vector Z St) rs, vector_run es v = Some (rs, v') -> accounted v -> accounted v') as Hacc.
  { clear. induction es as [|e es IH]; intros v v' rs Hr Ha; [by injection Hr as _ <-|].
    apply bind_Some in Hr as ([r v1] & Hs & ([rs1 v2] & Hr & [= _ <-])%bind_Some).
    eapply IH; [done|]. by eapply accounted_step. }
  eapply Hacc; [exact Hrun|]. unfold accounted, v_elems, borrowed_out, elems. cbn. by rewrite !app_nil_r.
Qed.

(** A vector of three elements takes a fourth, and is opened with a permit; its
    slice is split, one half goes to another thread and is written there. *)
Definition u32_element : payload := mkPayload true true true 4 4.
Definition before_vec : list (cop unit) := [CBase (WithFreshToken ExclusiveFamily 1)].
Definition new_vec : cop unit := CNew 1 1 u32_element (mkVec [10; 20; 30] 3).
Definition lend_vec : list (cop unit) :=
  [CUse 1 2 (Push 40) tt; CBase (BorrowTokenMut 1 1); CAsMutSlice 4 2;
   CBase (GuardMapSplit 4 0 1 1 4); CBase (SendHolder 5 2); CBase (GuardDerefMut 5 0 21)].
Definition drain_vec : list (cop unit) :=
  [CBase (EndBorrow 4); CBase (EndBorrow 5); CDrain 1 2 1 3; CDrainNext 2 NextBack; CDrainDrop 2;
   CSet 1 2 0 11].

Definition crun_from_start (ops : list (cop unit)) : cmachine :=
  match crun ops initial_cmachine with Some m => m | None => initial_cmachine end.

Definition lent : cmachine := crun_from_start (before_vec ++ new_vec :: lend_vec).

Lemma vectors_keep_the_lock_witness :
  let m := lent in
  phase_of 1 (memory m) = Writing /\ rtc phase_step Free (phase_of 1 (memory m)) /\
  exists h h', holders (memory m) !! 4%positive = Some h /\ h_hold h = Guard 2 0 1 true /\
    holders (memory m) !! 5%positive = Some h' /\ h_hold h' = Guard 2 1 4 true /\ disjoint_ranges 0 1 1 4.
Proof.
  destruct (@vectors_keep_the_lock doubling unit (before_vec ++ new_vec :: lend_vec) lent eq_refl
    ltac:(vm_compute; reflexivity)) as [Hlock Hguards].
  split; [vm_compute; reflexivity|]. split; [apply Hlock|].
  eexists _, _. do 4 (split; [vm_compute; reflexivity|]).
  destruct (Hguards 2%positive (mkInfo u32_element 6 3 None) 4%positive (mkHolder 1 true 1 (Guard 2 0 1 true)) 0 1 true
    ltac:(vm_compute; reflexivity) ltac:(vm_compute; reflexivity) eq_refl) as (_ & _ & Hx).
  destruct (Hx 5%positive (mkHolder 1 true 2 (Guard 2 1 4 true)) 1 4 true ltac:(discriminate)
    ltac:(vm_compute; reflexivity) eq_refl) as [[? _]|Hd]; [discriminate|exact Hd].
Defined.

Lemma borrowed_elements_pinned_witness :
  cexec (CUse 1 2 Pop tt) lent = None /\
  guard_deref 4 (memory (crun_from_start (before_vec ++ new_vec :: lend_vec ++ [CBase (GuardDerefMut 5 2 41)])))
    = Some [10].
Proof.
  assert (creachable (St := unit) lent) as Hr by (exists (before_vec ++ new_vec :: lend_vec); split; vm_compute; reflexivity).
  destruct (@borrowed_elements_pinned doubling unit lent 4 2 (mkHolder 1 true 1 (Guard 2 0 1 true)) 0 1 true
    (mkInfo u32_element 6 3 None) Hr
    ltac:(vm_compute; reflexivity) eq_refl ltac:(vm_compute; reflexivity)) as (v & Hv & Hown & Hother).
  assert ([10] = v) as <- by (vm_compute in Hv; congruence).
  split; [apply Hown; reflexivity|].
  apply (Hother (CBase (GuardDerefMut 5 2 41))); vm_compute; reflexivity.
Defined.

Lemma vector_refines_witness :
  exists rs v,
    vector_run [Use (Push 40) tt; Put 1 21; DrainBegin 1 3; DrainYield NextBack; DrainDrop; Put 0 11]
      (mkVector (mkStore (mkVec [10; 20; 30] 3) [10; 20; 30] [] [] tt) None []) = Some (rs, v) /\
    v_elems v = [11; 40] /\ accounted v.
Proof.
  destruct (@vector_refines doubling unit before_vec (lend_vec ++ drain_vec) (crun_from_start before_vec)
    (crun_from_start (before_vec ++ [new_vec])) (crun_from_start (before_vec ++ new_vec :: lend_vec ++ drain_vec))
    1 1 u32_element (mkVec [10; 20; 30] 3) tt eq_refl ltac:(vm_compute; reflexivity) ltac:(vm_compute; reflexivity)
    eq_refl ltac:(vm_compute; reflexivity) ltac:(vm_compute; by eexists)) as (rs & v & Hrun & (d & i & Hd & _ & Hv & _) & Ha).
  exists rs, v. split; [exact Hrun|]. split; [|exact Ha]. rewrite Hv.
  vm_compute in Hd. by injection Hd as <-.
Defined.
