(* ===== verification/RingPermits.v ===== *)
(** * Branded deques and the tokens of their brand ([src/collections/deque/])

    [BrandedDeque] takes a deque by itself.  Here deques live in the machine of
    [VecPermits], as containers that have a ring: where in the buffer the first
    element is.  [get], [get_mut], [as_slices] and [as_mut_slices] lend guards
    against permits ([views.rs]); [ops.rs] needs a deque that nothing borrows and
    may move the ring or the buffer; the draining iterator lives between its calls
    ([iter.rs]), and where the ring starts once it is dropped is the standard
    library's choice ([Ring]).

    Main results: guards of any threads on one deque reach different slots of its
    buffer unless both only read, and the two of [as_mut_slices] are the two
    segments of the buffer, in order; while a guard is live neither the ring nor
    the buffer moves; whatever a program does to a deque, through guards, through
    its owner and through iterators, is a run of the deque of [BrandedDeque]. *)
From S2P Require Import Prelude AutoTraits Region BrandLock Views AtomicPhases Cow BrandedVec BrandedDeque.
From S2P Require Import Draining Token VecPermits.
From stdpp Require Import base numbers list gmap relations.
Local Open Scope Z_scope.

(** The head, and the range, with the length, that a live iterator drains. *)
Record ring : Type := mkRing {
  r_head : Z;
  r_range : option (Z * Z * Z)
}.

(** The containers, and the rings of those that are deques. *)
Record qmachine : Type := mkQM {
  under : cmachine;
  rings : gmap positive ring
}.

Definition initial_qmachine : qmachine := mkQM initial_cmachine ∅.

(** ** Code *)

Section code.
Context `{Allocator, Ring} {St : Type}.

(** The deque as [BrandedDeque] sees it, its logs being empty. *)
Definition plain_deque (d : cell) (i : vec_info) (h : Z) (k : St) : dstore Z St :=
  mkDstore (plain_store d i k) h.

(** [From<VecDeque<T>>], with the ambient brand: the same buffer and ring.  The
    guards say that [v] and [h] are those of a [VecDeque]. *)
Definition deque_from (th brand : positive) (p : payload) (v : BrandedVec.vec Z) (h : Z) (m : qmachine) : option qmachine :=
  let c := next (memory (under m)) in
  guard (zlen (BrandedVec.cells v) <= capacity v <= max_len);;
  guard (0 <= h < Z.max (capacity v) 1);;
  u ← vec_from th brand p v (under m);
  Some (mkQM u (<[c := mkRing h None]> (rings m))).

(** The operations that take [&mut self] and leave the deque its own; the argument
    of [reserve] is a [usize]. *)
Definition keeps_deque (o : dop Z St) : bool :=
  match o with DInto => false | DReserve n => bool_decide (0 <= n) | _ => true end.

(** One of them, called when the client's state is [k]. *)
Definition deque_use (th c : positive) (o : dop Z St) (k : St) (m : qmachine) : option qmachine :=
  '(d, i) ← exclusive th c (under m);
  r ← rings m !! c;
  guard (keeps_deque o = true);;
  let w := memory (under m) in
  let q := dafter o (plain_deque d i (r_head r) k) in
  let addr := if decide (cap q = vi_capacity i) then vi_addr i else next w in
  Some (mkQM
    (set_info c (mkInfo (vi_payload i) (cap q) addr None)
      (mkCM (bump (set_elements c d (vi_payload i) (items q) w)) (vectors (under m))))
    (<[c := mkRing (BrandedDeque.head q) None]> (rings m))).

(** [as_slices], [as_mut_slices]: one permit, a guard per segment. *)
Definition deque_slices_op (i c : positive) (writes : bool) (m : qmachine) : option qmachine :=
  '(h, form, d) ← opens i c (memory (under m));
  v ← vectors (under m) !! c;
  r ← rings m !! c;
  let n := zlen (c_parts d) in
  let front := s_len (fst (as_slices (mkDstore (@plain_store unit d v tt) (r_head r)))) in
  let g := match form with ByMut => i | ByRef | ByShared => next (memory (under m)) end in
  u ← vec_slice i c writes (under m);
  u ← base_op (GuardMapSplit g 0 front front n) u;
  Some (mkQM u (rings m)).

(** The operations of [VecPermits] that a deque does not have. *)
Definition vec_only (o : cop St) : option positive :=
  match o with CUse _ c _ _ | CAsSlice _ c | CAsMutSlice _ c => Some c | _ => None end.

(** What an event of a vector is to a ring of [cap] slots that holds [n] elements:
    the end of an iterator closes the gap it left. *)
Definition ring_turn (cap n : Z) (e : vevent Z St) (r : ring) : ring :=
  match e with
  | DrainBegin a b =>
      if decide (0 <= a <= b /\ b <= n) then mkRing (r_head r) (Some (a, b, n)) else r
  | DrainDrop =>
      match r_range r with
      | Some (a, b, n) => mkRing (drain_head cap (r_head r) a b n) None
      | None => r
      end
  | DrainForget _ => mkRing (r_head r) None
  | _ => r
  end.

(** The ring of [c] after an operation, when [c] is still there. *)
Definition ring_after (o : cop St) (u u' : cmachine) (c : positive) (r : ring) : option ring :=
  d ← cells (memory u) !! c;
  i ← vectors u !! c;
  _ ← vectors u' !! c;
  Some match cevent_of c o u with
       | Some e => ring_turn (vi_capacity i) (zlen (c_value d)) e r
       | None => r
       end.

(** [get], [get_mut], [as_mut_cells], the draining iterator, the deque's end, and
    everything on tokens, cells and vectors. *)
Definition on_vectors (o : cop St) (m : qmachine) : option qmachine :=
  guard (vec_only o ≫= (fun c => rings m !! c) = None);;
  u ← cexec o (under m);
  Some (mkQM u (map_imap (ring_after o (under m) u) (rings m))).

Inductive qop : Type :=
| QVec (o : cop St)
| QNew (th brand : positive) (p : payload) (v : BrandedVec.vec Z) (h : Z)
| QUse (th c : positive) (o : dop Z St) (k : St)
| QSlices (i c : positive)
| QMutSlices (i c : positive).

Definition qexec (o : qop) : qmachine -> option qmachine :=
  match o with
  | QVec o => on_vectors o
  | QNew th brand p v h => deque_from th brand p v h
  | QUse th c o k => deque_use th c o k
  | QSlices i c => deque_slices_op i c false
  | QMutSlices i c => deque_slices_op i c true
  end.

Definition qsafe (o : qop) : bool := match o with QVec o => csafe o | _ => true end.

Definition qrun (ops : list qop) (m : qmachine) : option qmachine :=
  foldl (fun m o => m ≫= qexec o) (Some m) ops.

Definition qreachable (m : qmachine) : Prop :=
  exists ops, forallb qsafe ops = true /\ qrun ops initial_qmachine = Some m.

(** ** Specification: a deque by itself *)

(** The vector of [Draining] with a ring. *)
Record dvector : Type := mkDV {
  dv_vector : vector Z St;
  dv_ring : ring
}.

Inductive devent : Type :=
| RUse (o : dop Z St) (k : St)
| RVec (e : vevent Z St).

Definition is_use (e : vevent Z St) : bool := match e with Use _ _ => true | _ => false end.

(** The operations of [BrandedDeque]; writes in place and iterators as a vector's,
    with what they are to the ring. *)
Definition deque_step (e : devent) (q : dvector) : option (vreply Z * dvector) :=
  let v := dv_vector q in
  match e with
  | RUse o k =>
      match v_drain v with
      | None =>
          guard (keeps_deque o = true);;
          let d := dafter o (mkDstore (set_client k (v_store v)) (r_head (dv_ring q))) in
          Some (Finished, mkDV (mkVector (inner d) None (v_leaked v)) (mkRing (BrandedDeque.head d) None))
      | Some _ => None
      end
  | RVec e =>
      guard (is_use e = false);;
      '(r, v') ← vector_step e v;
      Some (r, mkDV v' (ring_turn (capacity (this (v_store v))) (zlen (v_elems v)) e (dv_ring q)))
  end.

Fixpoint deque_run (es : list devent) (q : dvector) : option (list (vreply Z) * dvector) :=
  match es with
  | [] => Some ([], q)
  | e :: es =>
      '(r, q) ← deque_step e q;
      '(rs, q) ← deque_run es q;
      Some (r :: rs, q)
  end.

(** What an operation of a program is to the deque [c], and a program. *)
Definition devent_of (c : positive) (o : qop) (m : qmachine) : option devent :=
  match o with
  | QVec o => RVec <$> cevent_of c o (under m)
  | QUse _ c' o k => if decide (c' = c) then Some (RUse o k) else None
  | _ => None
  end.

Fixpoint dhistory (c : positive) (ops : list qop) (m : qmachine) : list devent :=
  match ops with
  | [] => []
  | o :: ops =>
      match qexec o m with
      | Some m' => only (devent_of c o m) ++ dhistory c ops m'
      | None => []
      end
  end.

(** The deque [c] of the machine is [q]. *)
Definition dmatches (c : positive) (q : dvector) (m : qmachine) : Prop :=
  matches c (dv_vector q) (under m) /\ rings m !! c = Some (dv_ring q).

(** The elements, and those an iterator holds, are within the buffer, and the head
    is a slot of it. *)
Definition ring_ok (v : vector Z St) (h : Z) : Prop :=
  zlen (v_elems v) + zlen (borrowed_out v) <= capacity (this (v_store v)) <= max_len /\
  0 <= h < Z.max (capacity (this (v_store v))) 1.

(** A deque of the machine, as one by itself. *)
Definition as_deque (d : cell) (i : vec_info) (r : ring) (k : St) : dvector :=
  mkDV (mkVector (plain_store d i k) (vi_drain i) []) r.

(** The invariant. *)
Record qinv (m : qmachine) : Prop := {
  qinv_under : cminv (under m);
  qinv_rings c r : rings m !! c = Some r -> exists d i,
    cells (memory (under m)) !! c = Some d /\ vectors (under m) !! c = Some i /\
    forall k, ring_ok (dv_vector (as_deque d i r k)) (r_head r)
}.
End code.
Arguments qop St : clear implicits.
Arguments devent St : clear implicits.
Arguments dvector St : clear implicits.

(** ** Lemmas: the logs of the past do not matter to an operation *)

Section framing.
Context `{Allocator, Ring} {St : Type}.
Implicit Types (q : dstore Z St).

Definition dframed (lg ld lr : list Z) q : dstore Z St :=
  mkDstore (framed lg ld lr (inner q)) (BrandedDeque.head q).

Lemma on_items_framed {B} (op : M (store Z St) B) lg ld lr q :
  (forall s, snd (op (framed lg ld lr s)) = framed lg ld lr (snd (op s))) ->
  snd (on_items op (dframed lg ld lr q)) = dframed lg ld lr (snd (on_items op q)).
Proof using.
  intros Hop. unfold on_items. specialize (Hop (inner q)). cbn [dframed inner].
  destruct (op (framed lg ld lr (inner q))) as [o s], (op (inner q)) as [o' s']. cbn in *. by subst s.
Qed.

Lemma frames_dretain_loop (f : Z -> M St (Z * bool)) kept rejected rest :
  frames (dretain_loop f kept rejected rest).
Proof using.
  revert kept rejected. induction rest as [|x rest IH]; intros kept rejected lg ld lr s; cbn [dretain_loop].
  - unfold drop_values, framed. cbn. by rewrite app_assoc.
  - rewrite frames_call. destruct (call (f x) s) as [[[x' [|]]|p|] s1]; cbn [fst snd]; [|apply IH|done..].
    destruct rejected; apply IH.
Qed.

Lemma frames_drain a b steps : frames (St := St) (T := Z) (drain a b steps).
Proof using.
  intros lg ld lr s. unfold drain. change (len (framed lg ld lr s)) with (len s).
  case_decide; [|done]. change (elems (framed lg ld lr s)) with (elems s).
  destruct (drain_run _ _) as [ys rest]. cbn. unfold drop_values, give_out, framed. cbn. by rewrite !app_assoc.
Qed.

Lemma dafter_framed (o : dop Z St) lg ld lr q :
  dafter o (dframed lg ld lr q) = dframed lg ld lr (dafter o q).
Proof using.
  destruct o; cbn [dafter]; try apply on_items_framed; try intros s.
  - apply (after_framed (Push x)).
  - unfold push_front, on_items. cbn [dframed inner BrandedDeque.head].
    rewrite accept_framed, frames_reserve. unfold cap, dlen. cbn.
    destruct (reserve 1 (accept [x] (inner q))) as [[u|p|] s1]; cbn; [done|..];
      unfold dframed; cbn; by rewrite <- drop_values_framed.
  - apply (after_framed Pop).
  - unfold pop_front. change (items (dframed lg ld lr q)) with (items q).
    destruct (items q); [done|]. cbn. unfold dframed. cbn. by rewrite <- give_out_framed.
  - unfold dclear. pose proof (on_items_framed clear lg ld lr q (after_framed Clear lg ld lr)) as E.
    destruct (on_items clear (dframed lg ld lr q)), (on_items clear q). cbn in *. by subst.
  - apply (after_framed (Reserve n)).
  - apply (after_framed ShrinkToFit).
  - apply (after_framed (Truncate n)).
  - apply (after_framed (Swap a b)).
  - unfold ddrain. cbn [dframed inner]. rewrite frames_drain.
    by destruct (drain a b steps (inner q)) as [[ys|p|] s].
  - apply (after_framed (SplitOff i)).
  - apply (after_framed (Append other)).
  - unfold dretain_mut. by rewrite frames_dretain_loop.
  - apply (after_framed (Extend values)).
  - unfold into_vec_deque, dframed. cbn. f_equal. apply (after_framed IntoVec).
Qed.
End framing.

(** ** Lemmas: a deque by itself *)

Section alone.
Context {A : Allocator} (Hok : @AllocatorOk A) {R : Ring} (Rok : @RingOk R) {St : Type}.
Implicit Types (q : dvector St) (v : vector Z St).

Lemma zlen_yield step (l : list Z) x rest :
  match step with Next => drain_next l | NextBack => drain_next_back l end = Some (x, rest) ->
  zlen l = zlen rest + 1.
Proof using. intros Hp%yield_perm%Permutation_length. unfold zlen. rewrite Hp. cbn [length]. lia. Qed.

(** What is not an operation of the owner keeps the buffer, and adds no element. *)
Lemma vector_step_room e v r v' :
  vector_step e v = Some (r, v') -> is_use e = false ->
  capacity (this (v_store v')) = capacity (this (v_store v)) /\
  zlen (v_elems v') + zlen (borrowed_out v') <= zlen (v_elems v) + zlen (borrowed_out v).
Proof using.
  destruct v as [s d lk]. destruct e as [o k|j x|a b|step| |n]; [done|..]; cbn [vector_step];
    unfold put, drain_begin, drain_yield, drain_drop, drain_forget, v_elems, borrowed_out; cbn [v_store v_drain v_leaked]; intros Hs _.
  - destruct d as [d|]; [done|]. destruct (zget (elems s) j) as [old|]; [|done]. injection Hs as _ <-. cbn.
    split; [done|]. unfold elems. cbn. rewrite zlen_zset. lia.
  - destruct d as [d|]; [done|]. case_decide as Hab; injection Hs as _ <-; [|done]. cbn. split; [done|].
    unfold elems in *. cbn. rewrite zlen_nil.
    rewrite (drain_parts (BrandedVec.cells (this s)) a b) at 4 by (unfold len, elems in Hab; lia).
    rewrite !zlen_app. lia.
  - destruct d as [d|]; [|done].
    destruct (match step with Next => _ | NextBack => _ end) as [[x rest]|] eqn:E; injection Hs as _ <-; [|done].
    apply zlen_yield in E. cbn. split; [done|]. rewrite !zlen_app. unfold elems. cbn. lia.
  - destruct d as [d|]; [|done]. injection Hs as _ <-. cbn. split; [done|]. unfold elems. cbn.
    rewrite !zlen_app, zlen_nil. pose proof (zlen_nonneg (d_left d)). lia.
  - destruct d as [d|]; [|done]. injection Hs as _ <-. cbn. split; [done|]. unfold elems. cbn.
    rewrite !zlen_app, zlen_nil. pose proof (zlen_nonneg (d_left d)). pose proof (zlen_nonneg (d_tail d)).
    unfold zlen at 1. rewrite length_take. unfold zlen at 1. lia.
Qed.

Lemma ring_turn_head c n (e : vevent Z St) r : 0 <= r_head r < Z.max c 1 -> 0 <= r_head (ring_turn c n e r) < Z.max c 1.
Proof using Rok.
  intros Hr. destruct e; cbn; try done; [by case_decide|].
  destruct (r_range r) as [[[a b] l]|]; [|done]. apply drain_head_ok.
Qed.

Lemma deque_step_ok e q r q' :
  deque_step e q = Some (r, q') -> ring_ok (dv_vector q) (r_head (dv_ring q)) ->
  ring_ok (dv_vector q') (r_head (dv_ring q')).
Proof using Hok Rok.
  destruct e as [o k|e]; cbn [deque_step]; intros Hs [Hroom Hhead].
  - destruct (v_drain (dv_vector q)) eqn:Ed; [done|]. apply guard_Some in Hs as [Hk [= _ <-]].
    unfold borrowed_out in Hroom. rewrite Ed, zlen_nil in Hroom.
    pose proof (dwf_after Hok Rok o (mkDstore (set_client k (v_store (dv_vector q))) (r_head (dv_ring q)))) as Hw.
    destruct Hw as [Hw Hh]; [intros n ->; by apply bool_decide_eq_true in Hk| |].
    + unfold v_elems in Hroom. split; [vlia|done].
    + unfold ring_ok, v_elems, borrowed_out, cap in *. cbn in *. rewrite zlen_nil. split; [|done]. vlia.
  - apply guard_Some in Hs as [Hu ([r1 v'] & Hv & [= _ <-])%bind_Some].
    destruct (vector_step_room e _ _ _ Hv Hu) as [Hc Hn]. unfold ring_ok. cbn. rewrite Hc. split; [lia|].
    by apply ring_turn_head.
Qed.

Lemma accounted_deque_step e q r q' :
  deque_step e q = Some (r, q') -> accounted (dv_vector q) -> accounted (dv_vector q').
Proof using.
  destruct e as [o k|e]; cbn [deque_step].
  - destruct q as [[s [d|] lk] rg]; [done|]. cbn. intros [_ [= _ <-]]%guard_Some. cbn.
    rewrite !accounted_linear. intros Ha.
    pose proof (linear_dafter o (dframed [] [] lk (mkDstore (set_client k s) (r_head rg)))) as Hl.
    rewrite dafter_framed in Hl. apply Hl, Ha.
  - intros [_ ([r1 v'] & Hv & [= _ <-])%bind_Some]%guard_Some. by eapply accounted_step.
Qed.

Lemma deque_run_ok es q rs q' :
  deque_run es q = Some (rs, q') -> ring_ok (dv_vector q) (r_head (dv_ring q)) -> accounted (dv_vector q) ->
  ring_ok (dv_vector q') (r_head (dv_ring q')) /\ accounted (dv_vector q').
Proof using Hok Rok.
  revert q rs. induction es as [|e es IH]; intros q rs Hr Hq Ha; [by injection Hr as _ <-|].
  apply bind_Some in Hr as ([r q1] & Hs & ([rs1 q2] & Hr & [= _ <-])%bind_Some).
  eapply IH; [done|by eapply deque_step_ok|by eapply accounted_deque_step].
Qed.
End alone.

(** ** Lemmas: a deque of the machine *)

Section machine.
Context {A : Allocator} {R : Ring} {St : Type}.
Implicit Types (o : qop St) (m : qmachine) (q : dvector St).

Lemma base_op_as_cexec (q : op) u : base_op q u = cexec (St := St) (CBase q) u.
Proof using. done. Qed.

Lemma vec_slice_as_cexec i c (writes : bool) u :
  vec_slice i c writes u = cexec (St := St) (if writes then CAsMutSlice i c else CAsSlice i c) u.
Proof using. by destruct writes. Qed.

(** [as_slices] is [as_slice] and a split of what it lends. *)
Lemma deque_slices_inv i c (writes : bool) m m' :
  deque_slices_op i c writes m = Some m' ->
  exists h form d v r u u', opens i c (memory (under m)) = Some (h, form, d) /\
    vectors (under m) !! c = Some v /\ rings m !! c = Some r /\
    let n := zlen (c_parts d) in
    let front := Z.min (zlen (c_value d)) (vi_capacity v - r_head r) in
    let g := match form with ByMut => i | ByRef | ByShared => next (memory (under m)) end in
    vec_slice i c writes (under m) = Some u /\ base_op (GuardMapSplit g 0 front front n) u = Some u' /\
    m' = mkQM u' (rings m).
Proof using.
  intros ([[h form] d] & Ho & (v & Hv & (r & Hr & (u & Hu & (u' & Hu' & [= <-])%bind_Some)%bind_Some)%bind_Some)%bind_Some)%bind_Some.
  exists h, form, d, v, r, u, u'. by split_and!.
Qed.

Lemma cminv_qexec o m m' : cminv (under m) -> qsafe o = true -> qexec o m = Some m' -> cminv (under m').
Proof using.
  intros Hm Hs He. destruct o as [o|th b p v h|th c o k|i c|i c]; cbn [qexec qsafe] in *.
  - apply guard_Some in He as [_ (u & Hu & [= <-])%bind_Some]. by eapply cminv_cexec.
  - apply guard_Some in He as [_ [_ (u & Hu & [= <-])%bind_Some]%guard_Some]. by eapply cminv_vec_from.
  - apply bind_Some in He as ([d i] & (Hd & Hi & _ & Hun & _)%exclusive_inv & (r & _ & [_ [= <-]]%guard_Some)%bind_Some).
    set (q := dafter o (plain_deque d i (r_head r) k)).
    destruct (cminv_set_elements (under m) Hm c d i (mkInfo (vi_payload i) (cap q)
      (if decide (cap q = vi_capacity i) then vi_addr i else next (memory (under m))) None) (items q) Hd Hi Hun eq_refl) as [Hw Hv].
    split; [by apply inv_bump in Hw|exact Hv].
  - apply deque_slices_inv in He as (h & form & d & v & r & u & u' & _ & _ & _ & Hu & Hu' & ->).
    rewrite vec_slice_as_cexec in Hu. rewrite base_op_as_cexec in Hu'.
    refine (cminv_cexec u u' _ _ _ Hu'); [|done]. by refine (cminv_cexec _ u Hm _ _ Hu).
  - apply deque_slices_inv in He as (h & form & d & v & r & u & u' & _ & _ & _ & Hu & Hu' & ->).
    rewrite vec_slice_as_cexec in Hu. rewrite base_op_as_cexec in Hu'.
    refine (cminv_cexec u u' _ _ _ Hu'); [|done]. by refine (cminv_cexec _ u Hm _ _ Hu).
Qed.

(** ** Lemmas: one step of a deque *)

Lemma dmatches_use c th (o : dop Z St) k q m m' :
  dmatches c q m -> deque_use th c o k m = Some m' ->
  exists r q', deque_step (RUse o k) q = Some (r, q') /\ dmatches c q' m'.
Proof using.
  intros [(d & i & Hd & Hi & Hv & Hcap & Hdr) Hr]
    ([d0 i0] & (Hd0 & Hi0 & _ & _ & Hn)%exclusive_inv & (r & Hr0 & [Hk [= <-]]%guard_Some)%bind_Some)%bind_Some.
  simplify_eq. cbn [deque_step]. rewrite Hdr, Hn, Hk. eexists _, _. split; [done|].
  set (q1 := mkDstore _ _).
  assert (dafter o q1 = dframed (given (v_store (dv_vector q))) (drops (v_store (dv_vector q)))
    (returned (v_store (dv_vector q))) (dafter o (plain_deque d i (r_head (dv_ring q)) k))) as E.
  { rewrite <- dafter_framed. f_equal. unfold q1, dframed, plain_deque. cbn. f_equal. by apply store_of_plain. }
  split; cbn; [|by rewrite lookup_insert_eq, E].
  eexists _, _. cbn. rewrite !lookup_insert_eq. do 2 (split; [done|]). unfold v_elems. cbn. rewrite E. by split_and!.
Qed.

Lemma dmatches_vec c (o : cop St) q m m' :
  cminv (under m) -> dmatches c q m -> on_vectors o m = Some m' -> is_Some (rings m' !! c) ->
  match devent_of c (QVec o) m with
  | Some e => exists r q', deque_step e q = Some (r, q') /\ dmatches c q' m'
  | None => dmatches c q m'
  end.
Proof using.
  intros Hm [Hv Hr] [Hno (u & Hu & [= <-])%bind_Some]%guard_Some [r' Hr']. cbn [rings] in Hr'.
  rewrite map_lookup_imap, Hr in Hr'. cbn [mbind option_bind] in Hr'.
  pose proof Hv as (d & i & Hd & Hi & Hel & Hcap & _). unfold ring_after in Hr'. rewrite Hd, Hi in Hr'. cbn [mbind option_bind] in Hr'.
  apply bind_Some in Hr' as (i' & Hi' & _).
  assert (rings (mkQM u (map_imap (ring_after o (under m) u) (rings m))) !! c = Some
    match cevent_of c o (under m) with
    | Some e => ring_turn (vi_capacity i) (zlen (c_value d)) e (dv_ring q)
    | None => dv_ring q
    end) as Hring.
  { cbn [rings]. rewrite map_lookup_imap, Hr. cbn [mbind option_bind]. unfold ring_after. by rewrite Hd, Hi, Hi'. }
  pose proof (matches_step c o (dv_vector q) (under m) u Hm Hv Hu (mk_is_Some _ _ Hi')) as Hstep.
  cbn [devent_of]. destruct (cevent_of c o (under m)) as [e|] eqn:Ee; cbn [fmap option_fmap option_map]; [|by split].
  destruct Hstep as (r1 & v' & Hs & Hv'). cbn [deque_step].
  assert (is_use e = false) as ->.
  { destruct e as [o' k'|?|?|?| |?]; try done. exfalso. destruct o as [bo|?|th c' o1 k|?|?|?|?|?|?|th c' a b|c' st|c'|c' kp]; cbn in Ee; try done;
      try (case_decide; by simplify_eq).
    - destruct bo; try done. apply bind_Some in Ee as (h & _ & Ee). destruct (h_hold h); [done|by case_decide; simplify_eq].
    - case_decide as Hc; [|done]. subst c'. cbn in Hno. congruence. }
  rewrite Hs. eexists _, _. split; [done|]. split; [done|]. cbn [dv_ring]. by rewrite Hcap, Hel.
Qed.

Lemma dmatches_slices c i c' (writes : bool) q m m' :
  cminv (under m) -> dmatches c q m -> deque_slices_op i c' writes m = Some m' -> dmatches c q m'.
Proof using A.
  intros Hm [Hv Hr] (h & form & d & v & r & u & u' & _ & _ & _ & Hu & Hu' & ->)%deque_slices_inv. split; [|done].
  rewrite vec_slice_as_cexec in Hu. rewrite base_op_as_cexec in Hu'.
  assert (vectors u = vectors (under m)) as Evs.
  { rewrite <- vec_slice_as_cexec in Hu. by apply vec_slice_step in Hu as (i1 & _ & _ & Evs & _). }
  pose proof Hv as (d0 & i0 & _ & Hi & _).
  assert (matches c (dv_vector q) u) as Hv1.
  { pose proof (matches_step c _ (dv_vector q) _ _ Hm Hv Hu) as Hs.
    rewrite Evs, Hi in Hs. specialize (Hs ltac:(by eexists)). by destruct writes. }
  assert (cminv u) as Hm1 by (eapply cminv_cexec; [| |exact Hu]; [done|by destruct writes]).
  apply (matches_step c _ (dv_vector q) _ _ Hm1 Hv1 Hu').
  apply guard_Some in Hu' as [_ [_ (w & Hw & [= <-])%bind_Some]%guard_Some]. cbn.
  destruct Hv1 as (d1 & i1 & Hd1 & Hi1 & _). exists i1. apply map_lookup_filter_Some. split; [done|].
  cbn in Hw. apply bind_Some in Hw as (h1 & _ & Hw). destruct (h_hold h1); [done|].
  apply guard_Some in Hw as [_ [_ [= <-]]%guard_Some]. by exists d1.
Qed.

Lemma dmatches_step c o q m m' :
  cminv (under m) -> dmatches c q m -> qexec o m = Some m' -> is_Some (rings m' !! c) ->
  match devent_of c o m with
  | Some e => exists r q', deque_step e q = Some (r, q') /\ dmatches c q' m'
  | None => dmatches c q m'
  end.
Proof using.
  intros Hm Hq He Hc. destruct o as [o|th b p v h|th c' o k|i c'|i c']; cbn [qexec] in He.
  - by apply dmatches_vec.
  - destruct Hq as [Hv Hr]. apply guard_Some in He as [_ [_ (u & Hu & [= <-])%bind_Some]%guard_Some].
    pose proof Hv as (d & i & Hd & Hi & _).
    assert (c <> next (memory (under m))) as Hne by (eapply cell_old; [apply Hm|done]).
    cbn. split; [|cbn; by rewrite lookup_insert_ne].
    apply (matches_step c (CNew th b p v) _ _ _ Hm Hv Hu).
    apply bind_Some in Hu as (w & _ & [= <-]). cbn. rewrite lookup_insert_ne by done. by eexists.
  - cbn [devent_of]. destruct (decide (c' = c)) as [->|Hne]; [by eapply dmatches_use|].
    destruct Hq as [Hv Hr]. apply bind_Some in He as ([d i] & _ & (r & _ & [_ [= <-]]%guard_Some)%bind_Some).
    split; [|cbn; by rewrite lookup_insert_ne].
    eapply matches_aside; [done|exact Hne|done|]. cbn. by rewrite lookup_insert_ne.
  - by eapply dmatches_slices.
  - by eapply dmatches_slices.
Qed.
End machine.

(** ** Lemmas: programs *)

Section programs.
Context {A : Allocator} (Hok : @AllocatorOk A) {R : Ring} (Rok : @RingOk R) {St : Type}.
Implicit Types (o : qop St) (m : qmachine) (q : dvector St).

Lemma as_deque_matches c d i r (k : St) m :
  cells (memory (under m)) !! c = Some d -> vectors (under m) !! c = Some i -> rings m !! c = Some r ->
  dmatches c (as_deque d i r k) m.
Proof using. intros Hd Hi Hr. split; [|done]. by exists d, i. Qed.

Lemma ring_ok_matches c q m d i (k : St) :
  dmatches c q m -> cells (memory (under m)) !! c = Some d -> vectors (under m) !! c = Some i ->
  ring_ok (dv_vector q) (r_head (dv_ring q)) ->
  ring_ok (dv_vector (as_deque d i (dv_ring q) k)) (r_head (dv_ring q)).
Proof using.
  intros [(d0 & i0 & Hd & Hi & Hv & Hcap & Hdr) _] Hd' Hi'. simplify_eq.
  unfold ring_ok, borrowed_out. by rewrite Hv, Hcap, Hdr.
Qed.

(** A deque of the next state was one before, or is new. *)
Lemma rings_step c o m m' r' :
  qexec o m = Some m' -> rings m' !! c = Some r' ->
  is_Some (rings m !! c) \/
  exists th b p v h, o = QNew th b p v h /\ c = next (memory (under m)) /\ r' = mkRing h None.
Proof using.
  intros He Hr'. destruct o as [o|th b p v h|th c' o k|i c'|i c']; cbn [qexec] in He.
  - apply guard_Some in He as [_ (u & Hu & [= <-])%bind_Some]. cbn [rings] in Hr'.
    rewrite map_lookup_imap in Hr'. apply bind_Some in Hr' as (r & Hr & _). left. by exists r.
  - apply guard_Some in He as [_ [_ (u & Hu & [= <-])%bind_Some]%guard_Some]. cbn [rings] in Hr'.
    apply lookup_insert_Some in Hr' as [[<- <-]|[_ Hr']]; [right; by exists th, b, p, v, h|left; by exists r'].
  - apply bind_Some in He as ([d i] & _ & (r & Hr & [_ [= <-]]%guard_Some)%bind_Some). cbn [rings] in Hr'.
    apply lookup_insert_Some in Hr' as [[<- <-]|[_ Hr']]; left; by eexists.
  - apply deque_slices_inv in He as (h & form & d & v & r & u & u' & _ & _ & _ & _ & _ & ->). left. by exists r'.
  - apply deque_slices_inv in He as (h & form & d & v & r & u & u' & _ & _ & _ & _ & _ & ->). left. by exists r'.
Qed.

(** A new deque is the one it was made from. *)
Lemma deque_from_matches th b p v h (k : St) m m' :
  deque_from th b p v h m = Some m' ->
  dmatches (next (memory (under m))) (mkDV (mkVector (mkStore v (BrandedVec.cells v) [] [] k) None []) (mkRing h None)) m' /\
  ring_ok (mkVector (mkStore v (BrandedVec.cells v) [] [] k) None []) h.
Proof using.
  intros [Hroom [Hh (u & Hu & [= <-])%bind_Some]%guard_Some]%guard_Some.
  split.
  - split; [|cbn; by rewrite lookup_insert_eq].
    apply bind_Some in Hu as (w & Hw & [= <-]). apply guard_Some in Hw as [_ [_ [= <-]]%guard_Some].
    eexists _, _. cbn. rewrite !lookup_insert_eq. by split_and!.
  - unfold ring_ok, v_elems, borrowed_out, elems. cbn. rewrite zlen_nil. lia.
Qed.

Lemma qinv_qexec `{Inhabited St} o m m' : qinv (St := St) m -> qsafe o = true -> qexec o m = Some m' -> qinv (St := St) m'.
Proof using Hok Rok.
  intros [Hm Hrs] Hs He. split; [by eapply cminv_qexec|]. intros c r' Hr'.
  assert (exists q, dmatches c q m' /\ ring_ok (dv_vector q) (r_head (dv_ring q))) as (q & Hq & Hrok).
  { destruct (rings_step c o m m' r' He Hr') as [[r Hr]|(th & b & p & v & h & -> & -> & ->)].
    - destruct (Hrs c r Hr) as (d & i & Hd & Hi & Hk). set (q := as_deque d i r (inhabitant : St)).
      assert (dmatches c q m) as Hq by by apply as_deque_matches.
      pose proof (dmatches_step c o q m m' Hm Hq He (mk_is_Some _ _ Hr')) as Hstep.
      destruct (devent_of c o m) as [e|]; [|exists q; split; [done|apply Hk]].
      destruct Hstep as (x & q' & Hq' & Hmq'). exists q'. split; [done|].
      by eapply (deque_step_ok Hok Rok e q); [exact Hq'|apply Hk].
    - destruct (deque_from_matches th b p v h inhabitant m m' He) as [Hq Hrok]. by eexists. }
  pose proof Hq as [(d & i & Hd & Hi & _) Hr]. exists d, i. do 2 (split; [done|]). intros k.
  assert (r' = dv_ring q) as -> by congruence. by eapply ring_ok_matches.
Qed.

Lemma qinv_initial : qinv (St := St) initial_qmachine.
Proof using. split; [apply cminv_initial|done]. Qed.

Lemma qrun_cons o (ops : list (qop St)) m : qrun (o :: ops) m = qexec o m ≫= qrun ops.
Proof using.
  unfold qrun. cbn. destruct (qexec o m) as [m1|]; [done|]. cbn.
  induction ops as [|o' ops IH]; [done|exact IH].
Qed.

Lemma qinv_run `{Inhabited St} (ops : list (qop St)) m m' :
  qinv (St := St) m -> forallb qsafe ops = true -> qrun ops m = Some m' -> qinv (St := St) m'.
Proof using Hok Rok.
  revert m. induction ops as [|o ops IH]; intros m Hm Hs Hr; [by injection Hr as <-|].
  apply andb_true_iff in Hs as [Ho Hs]. rewrite qrun_cons in Hr. apply bind_Some in Hr as (m1 & He & Hr).
  eapply IH; [by eapply qinv_qexec|done..].
Qed.

Lemma qreachable_inv `{Inhabited St} m : qreachable (St := St) m -> qinv (St := St) m.
Proof using Hok Rok. intros (ops & Hs & Hr). by eapply qinv_run; [apply qinv_initial|..]. Qed.

(** What is gone does not come back. *)
Lemma qexec_next o m m' : qexec o m = Some m' -> (next (memory (under m)) <= next (memory (under m')))%positive.
Proof using.
  intros He. destruct o as [o|th b p v h|th c' o k|i c'|i c']; cbn [qexec] in He.
  - apply guard_Some in He as [_ (u & Hu & [= <-])%bind_Some]. by apply cexec_next in Hu as [? _].
  - apply guard_Some in He as [_ [_ (u & Hu & [= <-])%bind_Some]%guard_Some].
    by apply (cexec_next (St := St) (CNew th b p v)) in Hu as [? _].
  - apply bind_Some in He as ([d i] & _ & (r & Hr & [_ [= <-]]%guard_Some)%bind_Some). cbn. lia.
  - apply deque_slices_inv in He as (h & form & d & v & r & u & u' & _ & _ & _ & Hu & Hu' & ->).
    rewrite (vec_slice_as_cexec (St := St)) in Hu. rewrite (base_op_as_cexec (St := St)) in Hu'.
    apply cexec_next in Hu as [? _]. apply cexec_next in Hu' as [? _]. cbn. lia.
  - apply deque_slices_inv in He as (h & form & d & v & r & u & u' & _ & _ & _ & Hu & Hu' & ->).
    rewrite (vec_slice_as_cexec (St := St)) in Hu. rewrite (base_op_as_cexec (St := St)) in Hu'.
    apply cexec_next in Hu as [? _]. apply cexec_next in Hu' as [? _]. cbn. lia.
Qed.

Lemma ring_gone_run c (ops : list (qop St)) m m' :
  (c < next (memory (under m)))%positive -> rings m !! c = None -> qrun ops m = Some m' -> rings m' !! c = None.
Proof using.
  revert m. induction ops as [|o ops IH]; intros m Hc Hi Hr; [by injection Hr as <-|].
  rewrite qrun_cons in Hr. apply bind_Some in Hr as (m1 & He & Hr).
  pose proof (qexec_next o m m1 He) as Hn. apply (IH m1); [lia| |done].
  apply eq_None_not_Some. intros [r' Hr'].
  destruct (rings_step c o m m1 r' He Hr') as [[r E]|(th & b & p & v & h & _ & -> & _)]; [congruence|lia].
Qed.

Lemma dmatches_run c (ops : list (qop St)) q m m' :
  cminv (under m) -> dmatches c q m -> forallb qsafe ops = true -> qrun ops m = Some m' -> is_Some (rings m' !! c) ->
  exists rs q', deque_run (dhistory c ops m) q = Some (rs, q') /\ dmatches c q' m'.
Proof using.
  revert q m. induction ops as [|o ops IH]; intros q m Hm Hq Hs Hr Hc.
  { injection Hr as <-. by exists [], q. }
  apply andb_true_iff in Hs as [Ho Hs]. rewrite qrun_cons in Hr.
  apply bind_Some in Hr as (m1 & He & Hr). cbn [dhistory]. rewrite He.
  pose proof (cminv_qexec o m m1 Hm Ho He) as Hm1.
  assert (is_Some (rings m1 !! c)) as Hc1.
  { destruct (rings m1 !! c) eqn:E; [done|]. pose proof Hq as [(d & i & Hd & _) _].
    destruct Hc as [j Hj]. destruct (inv_cells _ (cminv_memory _ Hm) c d Hd) as [Hlt _].
    pose proof (qexec_next o m m1 He). rewrite (ring_gone_run c ops m1 m') in Hj; [done|lia|done|done]. }
  pose proof (dmatches_step c o q m m1 Hm Hq He Hc1) as Hstep.
  destruct (devent_of c o m) as [e|]; cbn [only app]; [|by eapply IH].
  destruct Hstep as (r & q1 & Hq1 & Hm1q). destruct (IH q1 m1 Hm1 Hm1q Hs Hr Hc) as (rs & q' & Hrs & Hq').
  exists (r :: rs), q'. split; [|done]. cbn [deque_run]. rewrite Hq1. cbn [mbind option_bind].
  by rewrite Hrs.
Qed.
End programs.

(** ** Lemmas: the slots guards reach *)

Section slots.
Context {A : Allocator} {St : Type}.
Implicit Types (q : dstore Z St).

Lemma physical_in_buffer q i : dwf q -> 0 <= i < dlen q -> 0 <= to_physical_idx q i < cap q.
Proof using. intros [Hw _] Hi. apply Z.mod_pos_bound. vlia. Qed.

Lemma physical_injective q i j :
  dwf q -> 0 <= i < dlen q -> 0 <= j < dlen q -> to_physical_idx q i = to_physical_idx q j -> i = j.
Proof using.
  intros [Hw _] Hi Hj He. assert (dlen q <= cap q) as Hc by vlia. unfold to_physical_idx in He.
  apply (f_equal (fun x => (x - BrandedDeque.head q) mod cap q)) in He.
  rewrite !Zminus_mod_idemp_l in He.
  replace (BrandedDeque.head q + i - BrandedDeque.head q) with i in He by lia.
  replace (BrandedDeque.head q + j - BrandedDeque.head q) with j in He by lia.
  by rewrite !Z.mod_small in He by lia.
Qed.

(** Whether a live iterator drains it or not, the elements a deque has are in its
    buffer. *)
Lemma dwf_ring_ok d i r (k : St) :
  ring_ok (dv_vector (as_deque d i r k)) (r_head r) -> dwf (plain_deque d i (r_head r) k).
Proof using.
  intros [Hroom Hh]. split; [|done]. unfold v_elems in Hroom.
  pose proof (zlen_nonneg (borrowed_out (dv_vector (as_deque d i r k)))). cbn in *. vlia.
Qed.
End slots.

(** ** Lemmas: borrowed deques *)

Section borrowed.
Context {A : Allocator} {R : Ring} {St : Type}.
Implicit Types (o : qop St).

(** An operation on the guard itself, or the end of a scope. *)
Definition qtouches (g : positive) o : bool := match o with QVec o => ctouches g o | _ => false end.

(** The operations of a deque's owner. *)
Definition by_deque_owner (c : positive) o : bool :=
  match o with
  | QVec o => by_vector_owner c o
  | QUse _ c' _ _ => bool_decide (c' = c)
  | _ => false
  end.

Context (m : qmachine) (Hm : cminv (under m)) (g c : positive) (h : holder) (lo hi : Z) (writes : bool) (i : vec_info).
Context (Hg : holders (memory (under m)) !! g = Some h) (Eh : h_hold h = Guard c lo hi writes).
Context (Hi : vectors (under m) !! c = Some i).

Lemma deque_owner_excluded o : by_deque_owner c o = true -> qexec o m = None.
Proof using Hm Hg Eh Hi.
  destruct o as [o|th b p v0 h0|th c' o k|i0 c'|i0 c']; cbn [by_deque_owner qexec]; intros Ho; try done.
  - unfold on_vectors. rewrite (owner_excluded (under m) Hm g c h lo hi writes i Hg Eh Hi o Ho). cbn. by case_guard.
  - apply bool_decide_eq_true in Ho as ->. apply eq_None_not_Some.
    intros [m' ([d i0] & (_ & _ & _ & Hun & _)%exclusive_inv & _)%bind_Some].
    by apply (borrowed_not_unguarded (under m) g c h lo hi writes Hg Eh).
Qed.

(** What is not the owner's does not turn the ring. *)
Lemma no_turn (o : cop St) e cap n r :
  by_vector_owner c o = false -> cevent_of c o (under m) = Some e -> ring_turn cap n e r = r.
Proof using.
  intros Ho Ee. destruct o as [q|?|th c' o1 k|?|th c' j x|?|?|?|?|th c' a b|c' st|c'|c' kp]; cbn in Ee, Ho; try done;
    try (case_decide as Hc; [|done]; by rewrite bool_decide_eq_false in Ho).
  destruct q; try done. apply bind_Some in Ee as (h0 & _ & Ee). destruct (h_hold h0); [done|].
  case_decide; [|done]. by injection Ee as <-.
Qed.

Lemma deque_pinned o m' r :
  rings m !! c = Some r -> qsafe o = true -> qtouches g o = false -> qexec o m = Some m' ->
  undisturbed g (memory (under m)) (memory (under m')) /\ vectors (under m') !! c = Some i /\ rings m' !! c = Some r.
Proof using Hm Hg Eh Hi.
  intros Hr Hs Ht He.
  assert (by_deque_owner c o = false) as Ho.
  { apply not_true_iff_false. intros Ho. by rewrite (deque_owner_excluded o Ho) in He. }
  pose proof (borrowed_pinned (St := St) (under m) Hm g c h lo hi writes i Hg Eh Hi) as Hpin.
  destruct (cminv_vectors _ Hm c i Hi) as (d & Hd & _).
  assert (forall p c' wr, deque_slices_op p c' wr m = Some m' ->
    undisturbed g (memory (under m)) (memory (under m')) /\ vectors (under m') !! c = Some i /\ rings m' !! c = Some r) as Hslices.
  { intros p c' wr (h0 & form & d0 & v & r0 & u & u' & Hop & _ & _ & Hu & Hu' & ->)%deque_slices_inv.
    rewrite (vec_slice_as_cexec (St := St)) in Hu. rewrite (base_op_as_cexec (St := St)) in Hu'.
    destruct (fun Hs Ht => Hpin _ u Hs Ht Hu) as [Hund Hiu]; [by destruct wr..|].
    assert (cminv u) as Hmu by (eapply cminv_cexec; [| |exact Hu]; [done|by destruct wr]).
    destruct (proj1 Hund) as (h1 & Hh1 & E1). rewrite Hg in E1. injection E1 as E1. rewrite Eh in E1.
    match type of Hu' with cexec ?x _ = _ => set (o1 := x) in Hu' end.
    assert (ctouches g o1 = false) as Ht1.
    { cbn. apply bool_decide_eq_false. destruct (opens_inv _ _ _ _ _ _ (cminv_memory _ Hm) Hop) as (Hp & Ep & _).
      destruct form; intros E; rewrite <- E in Hg; (congruence || by apply (holder_fresh _ _ (cminv_memory _ Hm)) in Hg). }
    destruct (borrowed_pinned u Hmu g c h1 lo hi writes i Hh1 (eq_sym E1) Hiu o1 u' eq_refl Ht1 Hu') as [Hund' Hiu'].
    split; [by eapply undisturbed_trans|done]. }
  destruct o as [o|th b p v0 h0|th c' o k|i0 c'|i0 c']; cbn [qexec qsafe qtouches by_deque_owner] in *.
  - apply guard_Some in He as [_ (u & Hu & [= <-])%bind_Some]. destruct (Hpin o u Hs Ht Hu) as [Hund Hiu].
    split; [done|]. split; [done|]. cbn [rings]. rewrite map_lookup_imap, Hr. cbn [mbind option_bind].
    unfold ring_after. rewrite Hd, Hi, Hiu. cbn [mbind option_bind].
    destruct (cevent_of c o (under m)) as [e|] eqn:Ee; [|done]. f_equal. by eapply no_turn.
  - apply guard_Some in He as [_ [_ (u & Hu & [= <-])%bind_Some]%guard_Some].
    destruct (Hpin (CNew th b p v0) u eq_refl eq_refl Hu) as [Hund Hiu]. split; [done|]. split; [done|].
    cbn. rewrite lookup_insert_ne; [done|]. intros E. by apply (cell_old _ _ _ (cminv_memory _ Hm) Hd).
  - apply bool_decide_eq_false in Ho. apply bind_Some in He as ([d0 i0] & _ & (r0 & _ & [_ [= <-]]%guard_Some)%bind_Some).
    split; [|cbn; by rewrite !lookup_insert_ne].
    eapply (elsewhere_undisturbed (under m) g c h lo hi writes Hg Eh (set_info _ _ _) c'); [done|done| |apply lookup_insert_eq].
    intros c1 Hc1; cbn; by rewrite lookup_insert_ne.
  - by eapply Hslices.
  - by eapply Hslices.
Qed.
End borrowed.

(** ** Lemmas: the two segments *)

Lemma lend_split i form h c lo mid hi writes w w' :
  inv w -> holders w !! i = Some h ->
  guard_map_split match form with ByMut => i | ByRef | ByShared => next w end lo mid mid hi
    (lend i form (range_guard h c lo hi writes) w) = Some w' ->
  cells w' = cells w /\ exists g1 g2, g1 <> g2 /\
    holders w' !! g1 = Some (range_guard h c lo mid writes) /\
    holders w' !! g2 = Some (range_guard h c mid hi writes).
Proof.
  intros Hw Hi He. pose proof (holder_fresh w h Hw) as Hf. destruct (inv_holders _ Hw i h Hi) as [Hlt _].
  apply bind_Some in He as (h0 & Hh0 & He).
  destruct form; cbn in Hh0; rewrite lookup_insert_eq in Hh0; injection Hh0 as <-; cbn in He;
    apply guard_Some in He as [_ [_ [= <-]]%guard_Some]; (split; [done|]); cbn; eexists _, _;
    (split; [|split; [rewrite lookup_insert_ne; [by rewrite lookup_insert_eq|]|by rewrite lookup_insert_eq]]); lia.
Qed.

(** ** Properties *)

(** C19: The guards of a deque reach the slots of its ring buffer: on a deque that any
    safe program has built and used, a guard, however it was taken and projected
    and whichever thread holds it, shows elements that are where
    [to_physical_idx] puts them, inside the buffer; and two guards reach different
    slots unless both only read. *)
Theorem deque_slots_exclusive `{Inhabited St} {A : Allocator} {R : Ring} (junk : Z -> Z) (m : qmachine) (g c : positive)
    (h : holder) (lo hi : Z) (writes : bool) (d : cell) (i : vec_info) (r : ring) (k : St) :
  AllocatorOk -> RingOk -> qreachable (St := St) m ->
  cells (memory (under m)) !! c = Some d -> vectors (under m) !! c = Some i -> rings m !! c = Some r ->
  holders (memory (under m)) !! g = Some h -> h_hold h = Guard c lo hi writes ->
  let q := plain_deque d i (r_head r) k in
  (exists v, guard_deref g (memory (under m)) = Some v /\ zlen v = hi - lo /\
     forall j, lo <= j < hi -> 0 <= to_physical_idx q j < cap q /\
       zget v (j - lo) = zget (BrandedDeque.memory junk q) (to_physical_idx q j)) /\
  (forall g' h' lo' hi' writes', g <> g' -> holders (memory (under m)) !! g' = Some h' ->
     h_hold h' = Guard c lo' hi' writes' ->
     (writes = false /\ writes' = false) \/
     forall j j', lo <= j < hi -> lo' <= j' < hi' -> to_physical_idx q j <> to_physical_idx q j').
Proof.
  intros Hok Rok Hr Hd Hi Hri Hg Eh q. pose proof (qreachable_inv Hok Rok m Hr) as Hq.
  pose proof (cminv_memory _ (qinv_under m Hq)) as Hw.
  destruct (qinv_rings m Hq c r Hri) as (d0 & i0 & Hd0 & Hi0 & Hrok). simplify_eq.
  pose proof (dwf_ring_ok d i r k (Hrok k)) as Hwf. fold q in Hwf.
  assert (forall g h lo hi writes, holders (memory (under m)) !! g = Some h -> h_hold h = Guard c lo hi writes ->
    0 <= lo <= hi /\ hi <= dlen q) as Hin.
  { intros g1 h1 l1 r1 w1 Hg1 E1. destruct (inv_holders _ Hw g1 h1 Hg1) as [_ (t & _ & Hh)]. rewrite E1 in Hh.
    destruct Hh as (_ & d1 & Hd1 & _ & Hin & _). destruct (inv_cells _ Hw c d Hd) as (_ & _ & Hlen & _).
    simplify_eq. unfold in_parts in Hin. change (dlen q) with (zlen (c_value d)). lia. }
  destruct (Hin g h lo hi writes Hg Eh) as [Hlo Hhi]. split.
  - exists (subrange lo (hi - lo) (c_value d)). split; [unfold guard_deref; rewrite Hg; cbn; rewrite Eh; cbn; by rewrite Hd|].
    change (dlen q) with (zlen (c_value d)) in Hhi. split; [apply zlen_subrange; lia|]. intros j Hj. split.
    + apply physical_in_buffer; [done|]. change (dlen q) with (zlen (c_value d)). lia.
    + rewrite memory_physical by (done || change (dlen q) with (zlen (c_value d)); lia).
      rewrite zget_subrange by lia. by replace (lo + (j - lo)) with j by lia.
  - intros g' h' lo' hi' writes' Hne Hg' Eh'. destruct (Hin g' h' lo' hi' writes' Hg' Eh') as [Hlo' Hhi'].
    destruct (same_cell_guards _ g g' h h' c lo hi writes lo' hi' writes' Hw Hne Hg Hg' Eh Eh') as [?|Hdis]; [by left|right].
    intros j j' Hj Hj' E. unfold disjoint_ranges in Hdis.
    apply (physical_injective q) in E; [lia|done|lia..].
Qed.

(** [as_slices] and [as_mut_slices] lend the two segments of the ring buffer: the
    guards they return, which write if and only if the view is mutable, show the
    slots from the head on and those wrapped to the start, and together the
    elements in order; a mutable view takes a [&mut] permit. *)
Theorem deque_segments_lent `{Inhabited St} {A : Allocator} {R : Ring} (junk : Z -> Z) (m m' : qmachine) (p c : positive)
    (writes : bool) (k : St) :
  AllocatorOk -> RingOk -> qreachable (St := St) m ->
  qexec (St := St) (if writes then QMutSlices p c else QSlices p c) m = Some m' ->
  exists d i r g1 g2 h1 h2 mid, cells (memory (under m)) !! c = Some d /\ vectors (under m) !! c = Some i /\
    rings m !! c = Some r /\ g1 <> g2 /\
    let q := plain_deque d i (r_head r) k in
    let buffer := BrandedDeque.memory junk q in
    holders (memory (under m')) !! g1 = Some h1 /\ h_hold h1 = Guard c 0 mid writes /\
    holders (memory (under m')) !! g2 = Some h2 /\ h_hold h2 = Guard c mid (dlen q) writes /\
    guard_deref g1 (memory (under m')) = Some (contents buffer (fst (as_slices q))) /\
    guard_deref g2 (memory (under m')) = Some (contents buffer (snd (as_slices q))) /\
    contents buffer (fst (as_slices q)) ++ contents buffer (snd (as_slices q)) = c_value d /\
    (writes = true -> exists h, holders (memory (under m)) !! p = Some h /\ h_hold h = Permit ByMut).
Proof.
  intros Hok Rok Hr He. pose proof (qreachable_inv Hok Rok m Hr) as Hq.
  assert (deque_slices_op p c writes m = Some m') as Hs by by destruct writes.
  apply deque_slices_inv in Hs as (h & form & d & i & r & u & u' & Hop & Hi & Hri & Hu & Hu' & ->).
  pose proof (cminv_memory _ (qinv_under m Hq)) as Hw.
  destruct (qinv_rings m Hq c r Hri) as (d0 & i0 & Hd & Hi0 & Hrok).
  destruct (opens_inv _ _ _ _ _ _ Hw Hop) as (Hp & Ep & Hd1 & _). assert (d0 = d) as -> by congruence. assert (i0 = i) as -> by congruence.
  destruct (inv_cells _ Hw c d Hd) as (_ & _ & Hlen & _).
  set (q := plain_deque d i (r_head r) k). pose proof (dwf_ring_ok d i r k (Hrok k)) as Hwf. fold q in Hwf.
  set (mid := Z.min (zlen (c_value d)) (vi_capacity i - r_head r)) in *.
  assert (memory u = lend p form (range_guard h c 0 (zlen (c_parts d)) writes) (memory (under m)) /\
          (writes = true -> form = ByMut)) as [Eu Hform].
  { apply bind_Some in Hu as ([[h0 form0] d0] & Hop' & (v & _ & [_ [_ (w & Hlw & [= <-])%bind_Some]%guard_Some]%guard_Some)%bind_Some).
    rewrite Hop in Hop'. injection Hop' as <- <- <-.
    destruct writes; unfold slice_borrow, slice_borrow_mut in Hlw; rewrite Hop in Hlw; cbn [mbind option_bind] in Hlw.
    - by apply guard_Some in Hlw as [? [_ [= <-]]%guard_Some].
    - by apply guard_Some in Hlw as [_ [= <-]]. }
  apply guard_Some in Hu' as [_ [_ (w & Hsp & [= <-])%bind_Some]%guard_Some]. cbn [exec] in Hsp. rewrite Eu in Hsp.
  destruct (lend_split _ _ _ _ _ _ _ _ _ _ Hw Hp Hsp) as (Ecs & g1 & g2 & Hne & Hg1 & Hg2).
  destruct (as_slices_ok junk q Hwf) as (s1 & s2 & Es & _ & _ & _ & _ & _ & _ & Hn & C1 & C2).
  destruct (slices_join junk q Hwf) as (t1 & t2 & Es' & _ & _ & Hj & _).
  assert (s_len s1 = mid) as E1 by (unfold as_slices in Es; by injection Es as <- _).
  rewrite Hlen in *. change (zlen (c_value d)) with (dlen q) in *.
  exists d, i, r, g1, g2, (range_guard h c 0 mid writes), (range_guard h c mid (dlen q) writes), mid.
  do 4 (split; [done|]). cbv zeta. fold q. rewrite Es' in Es. injection Es as -> ->. rewrite Es'. cbn [fst snd under memory].
  do 4 (split; [done|]). unfold guard_deref. rewrite Hg1, Hg2. cbn. rewrite Ecs, Hd. cbn.
  rewrite Hj, C1, C2, E1. replace (s_len s2) with (dlen q - mid) by lia. rewrite Z.sub_0_r.
  do 3 (split; [done|]). intros Hwr. exists h. split; [done|]. rewrite Ep. f_equal. auto.
Qed.

(** C20: A borrowed deque stays where it is: while a guard on its elements is live, the
    operations of its owner are rejected, on any thread, and anything else a safe
    program may do, to this deque through other permits or elsewhere, leaves the
    head of the ring, the allocation, the capacity and what the guard shows. *)
Theorem borrowed_deque_pinned `{Inhabited St} {A : Allocator} {R : Ring} (m : qmachine) (g c : positive) (h : holder)
    (lo hi : Z) (writes : bool) (r : ring) :
  AllocatorOk -> RingOk -> qreachable (St := St) m ->
  holders (memory (under m)) !! g = Some h -> h_hold h = Guard c lo hi writes -> rings m !! c = Some r ->
  exists v, guard_deref g (memory (under m)) = Some v /\
    (forall o : qop St, by_deque_owner c o = true -> qexec o m = None) /\
    (forall (o : qop St) m', qsafe o = true -> qtouches g o = false -> qexec o m = Some m' ->
       rings m' !! c = Some r /\ vectors (under m') !! c = vectors (under m) !! c /\
       guard_deref g (memory (under m')) = Some v).
Proof.
  intros Hok Rok Hr Hg Eh Hri. pose proof (qreachable_inv Hok Rok m Hr) as Hq.
  pose proof (qinv_under m Hq) as Hm. destruct (qinv_rings m Hq c r Hri) as (d & i & Hd & Hi & _).
  exists (subrange lo (hi - lo) (c_value d)).
  assert (guard_deref g (memory (under m)) = Some (subrange lo (hi - lo) (c_value d))) as Hv.
  { unfold guard_deref. rewrite Hg. cbn. rewrite Eh. cbn. by rewrite Hd. }
  split; [done|]. split; [intros o; by eapply (deque_owner_excluded m Hm)|].
  intros o m' Hs Ht He. destruct (deque_pinned m Hm g c h lo hi writes i Hg Eh Hi o m' r Hri Hs Ht He) as (Hund & Hi' & Hr').
  split; [done|]. split; [congruence|]. by eapply undisturbed_deref.
Qed.

(** C16: Deques under tokens are the deques of the collection's own semantics: from its
    creation to any later moment, whatever any threads do to it through guards
    and permits and its owner through its methods and iterators, a deque is a run
    of [BrandedDeque]'s operations, with the same elements, capacity, head and
    iterator at the end; its elements, and those an iterator holds, stay within
    the buffer, and every value ever moved into it is accounted for. *)
Theorem deque_refines {A : Allocator} {R : Ring} {St} (ops ops' : list (qop St)) (m m1 m2 : qmachine) (th brand : positive)
    (p : payload) (v0 : BrandedVec.vec Z) (h0 : Z) (k : St) (c := next (memory (under m))) :
  AllocatorOk -> RingOk ->
  forallb qsafe ops = true -> qrun ops initial_qmachine = Some m -> deque_from th brand p v0 h0 m = Some m1 ->
  forallb qsafe ops' = true -> qrun ops' m1 = Some m2 -> is_Some (rings m2 !! c) ->
  exists rs q,
    deque_run (dhistory c ops' m1)
      (mkDV (mkVector (mkStore v0 (BrandedVec.cells v0) [] [] k) None []) (mkRing h0 None)) = Some (rs, q) /\
    dmatches c q m2 /\ ring_ok (dv_vector q) (r_head (dv_ring q)) /\ accounted (dv_vector q).
Proof.
  intros Hok Rok Hs Hr Hnew Hs' Hr' Hc.
  pose proof (qreachable_inv (H := populate k) Hok Rok m (ex_intro _ ops (conj Hs Hr))) as Hm.
  pose proof (cminv_qexec (St := St) (QNew th brand p v0 h0) m m1 (qinv_under m Hm) eq_refl Hnew) as Hm1.
  destruct (deque_from_matches th brand p v0 h0 k m m1 Hnew) as [Hq Hrok].
  destruct (dmatches_run c ops' _ m1 m2 Hm1 Hq Hs' Hr' Hc) as (rs & q & Hrun & Hq').
  exists rs, q. do 2 (split; [done|]). eapply (deque_run_ok Hok Rok); [exact Hrun|done|].
  unfold accounted, v_elems, borrowed_out, elems. cbn. by rewrite !app_nil_r.
Qed.

(** A deque of three elements, the last of them wrapped to the start of a buffer of
    four slots.  An element is pushed before them, [as_mut_slices] is called, and
    the second segment goes to another thread and is written there. *)
Definition before_deque : list (qop unit) := [QVec (CBase (WithFreshToken ExclusiveFamily 1))].
Definition new_deque : qop unit := QNew 1 1 u32_element (mkVec [10; 20; 30] 4) 2.
Definition lend_deque : list (qop unit) :=
  [QUse 1 2 (PushFront 5) tt; QVec (CBase (BorrowTokenMut 1 1)); QMutSlices 4 2;
   QVec (CBase (SendHolder 5 2)); QVec (CBase (GuardDerefMut 5 0 31))].
Definition drain_deque : list (qop unit) :=
  [QVec (CBase (EndBorrow 4)); QVec (CBase (EndBorrow 5)); QVec (CDrain 1 2 1 3);
   QVec (CDrainNext 2 NextBack); QVec (CDrainDrop 2); QVec (CSet 1 2 0 6); QUse 1 2 (PushBack 7) tt].

Definition qrun_from_start (ops : list (qop unit)) : qmachine :=
  match qrun ops initial_qmachine with Some m => m | None => initial_qmachine end.
Definition lent_deque : qmachine := qrun_from_start (before_deque ++ new_deque :: lend_deque).

Lemma lent_deque_reachable : qreachable (St := unit) lent_deque.
Proof. exists (before_deque ++ new_deque :: lend_deque). split; vm_compute; reflexivity. Qed.

Definition lent_cell : cell := mkCell 1 1 1 (parts_of u32_element [5; 10; 20; 31]) [5; 10; 20; 31].
Definition lent_info : vec_info := mkInfo u32_element 4 2 None.

Lemma deque_slots_exclusive_witness :
  let q := plain_deque lent_cell lent_info 1 tt in
  BrandedDeque.memory Z.opp q = [31; 5; 10; 20] /\
  guard_deref 4 (memory (under lent_deque)) = Some [5; 10; 20] /\
  forall j j', 0 <= j < 3 -> 3 <= j' < 4 -> to_physical_idx q j <> to_physical_idx q j'.
Proof.
  split; [vm_compute; reflexivity|].
  destruct (@deque_slots_exclusive unit _ doubling at_start Z.opp lent_deque 4 2 (mkHolder 1 true 1 (Guard 2 0 3 true))
    0 3 true lent_cell lent_info (mkRing 1 None) tt doubling_ok at_start_ok lent_deque_reachable
    ltac:(vm_compute; reflexivity) ltac:(vm_compute; reflexivity) ltac:(vm_compute; reflexivity)
    ltac:(vm_compute; reflexivity) eq_refl) as [_ Hother].
  split; [vm_compute; reflexivity|].
  destruct (Hother 5%positive (mkHolder 1 true 2 (Guard 2 3 4 true)) 3 4 true ltac:(discriminate)
    ltac:(vm_compute; reflexivity) eq_refl) as [[? _]|Hd]; [discriminate|exact Hd].
Defined.

Lemma deque_segments_lent_witness :
  let m := qrun_from_start (before_deque ++ new_deque :: take 2 lend_deque) in
  let m' := qrun_from_start (before_deque ++ new_deque :: take 3 lend_deque) in
  exists d i r g1 g2 h1 h2 mid, cells (memory (under m)) !! 2%positive = Some d /\ vectors (under m) !! 2%positive = Some i /\
    rings m !! 2%positive = Some r /\ g1 <> g2 /\
    let q := plain_deque d i (r_head r) tt in
    let buffer := BrandedDeque.memory Z.opp q in
    holders (memory (under m')) !! g1 = Some h1 /\ h_hold h1 = Guard 2 0 mid true /\
    holders (memory (under m')) !! g2 = Some h2 /\ h_hold h2 = Guard 2 mid (dlen q) true /\
    guard_deref g1 (memory (under m')) = Some (contents buffer (fst (as_slices q))) /\
    guard_deref g2 (memory (under m')) = Some (contents buffer (snd (as_slices q))) /\
    contents buffer (fst (as_slices q)) ++ contents buffer (snd (as_slices q)) = c_value d /\
    (true = true -> exists h, holders (memory (under m)) !! 4%positive = Some h /\ h_hold h = Permit ByMut).
Proof.
  intros m m'.
  apply (@deque_segments_lent unit _ doubling at_start Z.opp m m' 4 2 true tt doubling_ok at_start_ok).
  - exists (before_deque ++ new_deque :: take 2 lend_deque). split; vm_compute; reflexivity.
  - vm_compute. reflexivity.
Defined.

Lemma borrowed_deque_pinned_witness :
  qexec (QUse 1 2 PopFront tt) lent_deque = None /\
  guard_deref 4 (memory (under (qrun_from_start (before_deque ++ new_deque :: lend_deque ++
    [QVec (CBase (GuardDerefMut 5 0 32))])))) = Some [5; 10; 20].
Proof.
  destruct (@borrowed_deque_pinned unit _ doubling at_start lent_deque 4 2 (mkHolder 1 true 1 (Guard 2 0 3 true)) 0 3 true
    (mkRing 1 None) doubling_ok at_start_ok lent_deque_reachable
    ltac:(vm_compute; reflexivity) eq_refl ltac:(vm_compute; reflexivity)) as (v & Hv & Hown & Hother).
  assert ([5; 10; 20] = v) as <- by (vm_compute in Hv; congruence).
  split; [apply Hown; reflexivity|].
  apply (Hother (QVec (CBase (GuardDerefMut 5 0 32)))); vm_compute; reflexivity.
Defined.

Lemma deque_refines_witness :
  exists rs q,
    deque_run [RUse (PushFront 5) tt; RVec (Put 3 31); RVec (DrainBegin 1 3); RVec (DrainYield NextBack);
               RVec DrainDrop; RVec (Put 0 6); RUse (PushBack 7) tt]
      (mkDV (mkVector (mkStore (mkVec [10; 20; 30] 4) [10; 20; 30] [] [] tt) None []) (mkRing 2 None)) = Some (rs, q) /\
    v_elems (dv_vector q) = [6; 31; 7] /\ ring_ok (dv_vector q) (r_head (dv_ring q)) /\ accounted (dv_vector q).
Proof.
  destruct (@deque_refines doubling at_start unit before_deque (lend_deque ++ drain_deque) (qrun_from_start before_deque)
    (qrun_from_start (before_deque ++ [new_deque])) (qrun_from_start (before_deque ++ new_deque :: lend_deque ++ drain_deque))
    1 1 u32_element (mkVec [10; 20; 30] 4) 2 tt doubling_ok at_start_ok eq_refl
    ltac:(vm_compute; reflexivity) ltac:(vm_compute; reflexivity) eq_refl ltac:(vm_compute; reflexivity)
    ltac:(vm_compute; by eexists)) as (rs & q & Hrun & [(d & i & Hd & _ & Hv & _) _] & Hrok & Ha).
  exists rs, q. split; [exact Hrun|]. split; [|split; [exact Hrok|exact Ha]]. rewrite Hv.
  vm_compute in Hd. by injection Hd as <-.
Defined.
