(* ===== verification/Calls.v ===== *)
(** * Partition calls in a running program
      ([sync/scoped/partition/map.rs], [driver_core.rs], [executor.rs])

    [PartitionMap] runs a call of a driver as a function of the region.  Here the
    calls are in flight: a call begins with [&mut cells] of a branded allocation of
    the token machine, loads the executor's slot once, and goes on one step of
    [Workers] or [ScopedThreads] at a time, while any thread performs operations of
    the token machine, registers and clears executors, and begins, advances and
    ends calls on other cells.  The region is the call's until it ends: the borrow
    [&mut cells] excludes every operation that would reach the cells.  (The calling
    thread waits for its call; the machine lets it do more.)

    Main results: every history is one in which each call happens at once, when it
    ends, with the outcome and the region of [partition_map_with] under an executor
    that keeps the contract; so everything [Token] shows holds around the drivers;
    a call has no undefined behaviour, is not disturbed and disturbs no guard; and
    it can always be brought to its end, whatever the rest of the program did. *)
From S2P Require Import Prelude AutoTraits Region Plan Closure Executor Driver Shards Workers ScopedThreads.
From S2P Require Import PartitionMap Token Views VecPermits.
From stdpp Require Import base numbers list gmap relations.
Local Open Scope Z_scope.

(** ** Code *)

(** How far [drive] has got: on the workers of an executor, on scoped threads, or
    with nothing to do. *)
Inductive path : Type :=
| OnExecutor (p : ParChunks) (n : Z) (E : ParallelExecutor) (e : engine Z Z)
| OnThreads (p : ParChunks) (body : Z -> closure Z Z) (s : scoped Z Z)
| Ended (o : outcome (list Z)) (m : list Z).

(** The task of [index]: the closure with its start and its shard. *)
Definition task_of (f : Z -> Z -> closure Z Z) (p : ParChunks) (index : Z) : closure Z Z :=
  f (index * par_chunk p) (Shard.len (tile p index)).

Record call : Type := mkCall {
  k_slot : Z;                       (* the executor's slot when it was loaded *)
  k_cells : slice;
  k_plan : PartitionPlan;
  k_closure : Z -> Z -> closure Z Z;
  k_path : path
}.

Record pmachine : Type := mkPM {
  store : world;
  registry : Z;
  calls : gmap positive call
}.

Definition initial_pmachine : pmachine := mkPM initial_world initial_slot ∅.

Section code.
Context `{BuildProfile, ProgramText} (available : option positive).

(** [partition_map_with] up to the start of the tasks, in the region [m]. *)
Definition begin_path (slot : Z) (s : slice) (plan : PartitionPlan) f (m : list Z) : path :=
  match
    chunk ← resolve available plan (s_len s);
    let p := Shard.par_chunks (Shard.new s) (Z.max chunk 1) in
    n ← Par.len p;
    if decide (n = 0) then Ret (Ended (Ret []) m)
    else if overflow_checks && bool_decide (n < 1) then Panic AssertPanic
    else
      match registered_parallel_executor slot with
      | Some executor =>
          let E := execute executor in
          Ret (OnExecutor p n E (start_engine (task_of f p) n m (invocations E n)))
      | None => s ← scoped_start (task_of f p) n m; Ret (OnThreads p (task_of f p) s)
      end
  with
  | Ret path => path
  | Panic q => Ended (Panic q) m
  | UB => Ended UB m
  end.

(** A step of the calling thread, or of the [k]-th thread or invocation. *)
Definition step_path (t : option nat) (a : path) : option path :=
  match a with
  | OnExecutor p n E e =>
      k ← t;
      r ← engine_step (tile p) k e;
      Some (match r with
            | Ret e => OnExecutor p n E e
            | Panic q => Ended (Panic q) (region (shared e))
            | UB => Ended UB (region (shared e))
            end)
  | OnThreads p body s =>
      s ← match t with None => main_step (tile p) body s | Some k => thread_step (tile p) k s end;
      Some (OnThreads p body s)
  | Ended _ _ => None
  end.

Definition tasks_done (e : engine Z Z) : bool :=
  forallb (fun '(_, st) => match st with TDone => true | _ => false end) (tasks e).

(** What the call returns, with the region it leaves. *)
Definition end_path (a : path) : option (outcome (list Z) * list Z) :=
  match a with
  | OnExecutor p n E e =>
      if tasks_done e then let '(o, d) := executor_returned E n (shared e) in Some (o, region d) else None
  | OnThreads _ _ s => match s_main s with Returned o => Some (o, s_region s) | _ => None end
  | Ended o m => Some (o, m)
  end.

(** What a borrow [&mut cells] of a running call excludes. *)
Definition reaches_cells (o : op) (c : positive) (w : world) : Prop :=
  match o with
  | SendCell c' _ => c' = c
  | ScopeEnd b => match cells w !! c with Some d => c_brand d = b | None => False end
  | _ => direct o = Some c
  end.

#[export] Instance reaches_cells_dec o c w : Decision (reaches_cells o c w).
Proof. destruct o; cbn; try apply _. destruct (cells w !! c); apply _. Defined.

Definition spares_calls (o : op) (m : pmachine) : Prop :=
  map_Forall (fun c _ => ~ reaches_cells o c (store m)) (calls m).

#[export] Instance spares_calls_dec o m : Decision (spares_calls o m).
Proof. apply map_Forall_dec. intros c k. apply _. Defined.

(** The elements are [Send]. *)
Definition elements_send (s : slice) (d : cell) : Prop :=
  p_send (range_payload (c_parts d) (s_base s) (s_base s + s_len s)) = true.

#[export] Instance elements_send_dec s d : Decision (elements_send s d).
Proof. unfold elements_send. apply _. Defined.

(** [cells] is a slice of the allocation, and the plan's numbers are [usize]s. *)
Definition within (s : slice) (plan : PartitionPlan) (d : cell) : Prop :=
  slice_ok s /\ plan_ok plan /\ s_base s + s_len s <= zlen (c_value d).

#[export] Instance plan_ok_dec plan : Decision (plan_ok plan).
Proof. destruct plan; apply _. Defined.

#[export] Instance within_dec s plan d : Decision (within s plan d).
Proof. unfold within, slice_ok. apply _. Defined.

(** [partition_map_with(&mut cells[..], plan, f)] called on [th]. *)
Definition begin_call (th c : positive) (s : slice) (plan : PartitionPlan) f (m : pmachine) : option pmachine :=
  d ← cells (store m) !! c;
  guard (c_thread d = th);;
  guard (unguarded c (store m));;
  guard (calls m !! c = None);;
  guard (within s plan d);;
  guard (elements_send s d);;
  let a := begin_path (registry m) s plan f (c_value d) in
  Some (mkPM (store m) (registry m) (<[c := mkCall (registry m) s plan f a]> (calls m))).

Definition step_call (c : positive) (t : option nat) (m : pmachine) : option pmachine :=
  k ← calls m !! c;
  a ← step_path t (k_path k);
  Some (mkPM (store m) (registry m)
    (<[c := mkCall (k_slot k) (k_cells k) (k_plan k) (k_closure k) a]> (calls m))).

Definition with_contents (d : cell) (v : list Z) : cell :=
  mkCell (c_brand d) (c_thread d) (c_origin d) (c_parts d) v.

Definition end_call (c : positive) (m : pmachine) : option (outcome (list Z) * pmachine) :=
  k ← calls m !! c;
  d ← cells (store m) !! c;
  '(o, v) ← end_path (k_path k);
  Some (o, mkPM (set_cell c (with_contents d v) (store m)) (registry m) (delete c (calls m))).

(** ** Programs *)

Inductive pop : Type :=
| PBase (o : op)
| PRegistry (o : registry_op)
| PBegin (th c : positive) (s : slice) (plan : PartitionPlan) (f : Z -> Z -> closure Z Z)
| PStep (c : positive) (t : option nat)
| PEnd (c : positive).

Definition psafe (o : pop) : bool :=
  match o with PBase o => safe o | _ => true end.

(** [None]: the compiler rejects the operation, or it is not the program's next. *)
Definition pexec (o : pop) (m : pmachine) : option pmachine :=
  match o with
  | PBase o => guard (spares_calls o m);; w ← exec o (store m); Some (mkPM w (registry m) (calls m))
  | PRegistry o => Some (mkPM (store m) (registry_step (registry m) o) (calls m))
  | PBegin th c s plan f => begin_call th c s plan f m
  | PStep c t => step_call c t m
  | PEnd c => snd <$> end_call c m
  end.

Definition prun (ops : list pop) (m : pmachine) : option pmachine :=
  foldl (fun m o => m ≫= pexec o) (Some m) ops.
End code.

(** ** The atomic account *)

Inductive aevent : Type :=
| EBase (o : op)
| ECall (c : positive) (s : slice) (plan : PartitionPlan) (f : Z -> Z -> closure Z Z) (o : outcome (list Z)).

(** A call happens at once: as [partition_map_with], in circumstances that keep the
    contract. *)
Inductive astep `{BuildProfile} (available : option positive) : aevent -> world -> world -> Prop :=
| a_base o w w' : safe o = true -> exec o w = Some w' -> astep available (EBase o) w w'
| a_call (text : ProgramText) (env : call_env) c s plan f o v d w :
    CallEnv env -> env_available env = available ->
    cells w !! c = Some d -> unguarded c w -> within s plan d -> elements_send s d ->
    partition_map_with env s plan f (c_value d) = (o, v) ->
    astep available (ECall c s plan f o) w (set_cell c (with_contents d v) w).

Inductive ahistory `{BuildProfile} (available : option positive) : list aevent -> world -> world -> Prop :=
| a_nil w : ahistory available [] w w
| a_cons x l w w1 w2 :
    astep available x w w1 -> ahistory available l w1 w2 -> ahistory available (x :: l) w w2.

(** When the operations of a run happen. *)
Definition pevent (o : pop) (m : pmachine) : list aevent :=
  match o with
  | PBase o => [EBase o]
  | PEnd c =>
      match calls m !! c with
      | Some k =>
          match end_path (k_path k) with
          | Some (o, _) => [ECall c (k_cells k) (k_plan k) (k_closure k) o]
          | None => []
          end
      | None => []
      end
  | _ => []
  end.

Fixpoint history `{BuildProfile, ProgramText} (available : option positive) (ops : list pop) (m : pmachine)
    : list aevent :=
  match ops with
  | [] => []
  | o :: ops =>
      pevent o m ++ match pexec available o m with Some m' => history available ops m' | None => [] end
  end.

(** ** Lemmas: a call by itself *)

(** The engine looks at its tasks only where the executor invokes them. *)
Lemma run_invocations_same {S R} (run run' : Z -> M S R) l d :
  (forall i s, i ∈ l -> run i s = run' i s) -> run_invocations run l d = run_invocations run' l d.
Proof.
  revert d. induction l as [|i l IH]; intros d Hr; [done|]. cbn. rewrite !M_bind_eq.
  assert (task_wrapper run i d = task_wrapper run' i d) as ->
    by (unfold task_wrapper; by rewrite Hr by (by left)).
  destruct (task_wrapper run' i d) as [[u|q|] d']; [|done|done].
  apply IH. intros j s Hj. apply Hr. by right.
Qed.

Section one_call.
Context `{BuildProfile, ProgramText} (env : call_env) (Henv : CallEnv env).
Context (slot : Z) (s : slice) (plan : PartitionPlan) (f : Z -> Z -> closure Z Z) (m : list Z).
Context (Hs : slice_ok s) (Hp : plan_ok plan) (Hm : s_base s + s_len s <= zlen m).

#[local] Abbreviation p := (plan_view env s plan).
#[local] Abbreviation n := (tile_count (par_len p) (par_chunk p)).
#[local] Abbreviation body := (task_of f p).

Inductive under_way : path -> Prop :=
| way_nothing : n = 0 -> under_way (Ended (Ret []) m)
| way_executor ex e :
    1 <= n -> registered_parallel_executor slot = Some ex ->
    rtc (estep (tile p)) (start_engine body n m (invocations (execute ex) n)) e ->
    under_way (OnExecutor p n (execute ex) e)
| way_threads st0 st :
    1 <= n -> registered_parallel_executor slot = None -> scoped_start body n m = Ret st0 ->
    rtc (sstep (tile p) body) st0 st -> under_way (OnThreads p body st).

Lemma view_ok : par_ok p.
Proof using Hs Hp. by apply plan_view_ok. Qed.

Lemma tiles_bounds : 0 <= n <= usize_max.
Proof using Hs Hp.
  pose proof view_ok as (_ & Hl & Hc).
  pose proof (tile_count_bounds (par_len p) (par_chunk p) ltac:(lia) ltac:(lia)). ulia.
Qed.

Lemma tiles_shards : disjoint_shards (tile p) n m.
Proof using Hs Hp Hm.
  split; [apply tile_shard_in; [apply view_ok|done]|by apply tile_disjoint, view_ok].
Qed.

Lemma begin_under_way : under_way (begin_path (env_available env) slot s plan f m).
Proof using Hs Hp.
  pose proof view_ok as (_ & Hl & Hc). pose proof tiles_bounds as Hn.
  assert (is_usize (s_len s)) as Hu by (cbn in Hl; ulia).
  unfold begin_path. rewrite resolve_ok by done. cbn [mbind outcome_bind].
  rewrite par_new_chunk by done. fold p. unfold Par.len.
  rewrite partition_count_ok by (cbn in *; done || lia). cbn [mbind outcome_bind].
  destruct (decide (n = 0)) as [E|E]; [by constructor|].
  rewrite (bool_decide_eq_false_2 (n < 1)), andb_false_r by lia.
  destruct (registered_parallel_executor slot) as [ex|] eqn:Hex.
  - econstructor; [lia|done|apply rtc_refl].
  - unfold scoped_start. case_decide as E1.
    + eapply way_threads; [lia|done| |apply rtc_refl]. unfold scoped_start. by rewrite decide_True.
    + rewrite usub_ok by lia. cbn [mbind outcome_bind].
      eapply way_threads; [lia|done| |apply rtc_refl]. unfold scoped_start.
      rewrite decide_False by done. by rewrite usub_ok by lia.
Qed.

Lemma executor_kept ex : ExecutorContract (execute ex).
Proof using Henv. apply Henv. Qed.

(** A step keeps the call under way, and is not undefined. *)
Lemma step_under_way t a a' : under_way a -> step_path t a = Some a' -> under_way a'.
Proof using Hs Hp Hm Henv.
  intros [Hn|ex e Hn Hex He|st0 st Hn Hex Hst0 Hst]; cbn [step_path]; [done|..].
  - intros (k & -> & (r & Hk & [= <-])%bind_Some)%bind_Some.
    pose proof (executor_kept ex) as HE. destruct tiles_shards as [Hin Hdis].
    pose proof (engine_reachable_inv _ body n m Hin Hdis _ (invoked_once n) (contract_range _ n) e He) as Hi.
    pose proof (engine_step_inv _ body n m Hin Hdis _ (invoked_once n) (contract_range _ n) e k Hi) as Hr.
    rewrite Hk in Hr. destruct r as [e'| |]; [|done..].
    econstructor; [done|done|]. eapply rtc_r; [done|by exists k].
  - intros (st' & Hst' & [= <-])%bind_Some. econstructor; [done..|]. eapply rtc_r; [done|].
    destruct t as [k|]; [right; by exists k|by left].
Qed.

(** The tasks of [partition_map_with]. *)
Lemma same_tasks :
  IndependentTasks (map_task p (par_chunk p) f) n m (fun i => fst (shard_eval (tile p) body m i))
    (shards_after (tile p) body n m).
Proof using Hs Hp Hm.
  apply (independent_ext (shard_task (tile p) body)); [intros; apply map_task_shard; [apply view_ok|done]|].
  apply shards_independent; apply tiles_shards.
Qed.

(** What a call returns is what [partition_map_with] returns. *)
Definition as_atomic (o : outcome (list Z)) (v : list Z) : Prop :=
  exists (text : ProgramText) (env' : call_env),
    CallEnv env' /\ env_available env' = env_available env /\
    partition_map_with env' s plan f m = (o, v).

Lemma as_atomic_len o v : as_atomic o v -> zlen v = zlen m.
Proof using Hs Hp Hm.
  intros (text & env' & He' & Ha & Hr).
  destruct (@partition_map_with_outcome _ text env' He' _ _ s plan f m Hs Hp Hm) as (o' & Ho' & _).
  rewrite Ho' in Hr. injection Hr as _ <-.
  assert (plan_view env' s plan = p) as -> by (unfold plan_view; by rewrite Ha).
  pose proof (shards_after_done (tile p) body n m (proj1 tiles_shards) (proj2 tiles_shards)) as Hd.
  rewrite <- (region_after_unique f p m view_ok Hm _ Hd). apply Hd.
Qed.

Lemma end_under_way a o v : under_way a -> end_path a = Some (o, v) -> as_atomic o v.
Proof using Hs Hp Hm Henv.
  intros [Hn|ex e Hn Hex He|st0 st Hn Hex Hst0 Hst]; cbn [end_path].
  - intros [= <- <-]. exists _, env. split_and!; [done|done|].
    rewrite partition_map_with_unfold by done. cbv zeta. by rewrite decide_True.
  - destruct (tasks_done e) eqn:Hd; [|done]. pose proof (executor_kept ex) as HE.
    destruct (workers_ordered (tile p) body (execute ex) n m e tiles_shards He) as (order & Ho & ->).
    { intros t i st Ht. unfold tasks_done in Hd. rewrite forallb_forall in Hd.
      specialize (Hd (i, st) ltac:(apply list_elem_of_In; by eapply list_elem_of_lookup_2)). by destruct st. }
    intros Hend. set (E0 := execute ex) in *. pose (text := (fun _ => ordered E0 n order) : ProgramText).
    pose (env' := mkEnv 1 zseq (env_available env)).
    exists text, env'. split; [|split; [done|]]; [|].
    + split; [intros; by apply ordered_contract|intros; apply Henv|done].
    + rewrite partition_map_with_unfold by done. cbv zeta. change (plan_view env' s plan) with p.
      rewrite decide_False by lia.
      unfold drive. rewrite (bool_decide_eq_false_2 (n < 1)), andb_false_r by lia. cbn [env_slot env'].
      change (registered_parallel_executor 1) with (Some (from_ptr 1)). cbv beta iota.
      assert (drive_registered (map_task p (par_chunk p) f) (@execute text (from_ptr 1)) n m
        = drive_registered (shard_task (tile p) body) (ordered E0 n order) n m) as ->.
      { unfold drive_registered, with_guard. rewrite !M_bind_eq.
        change (@execute text (from_ptr 1)) with (ordered E0 n order). rewrite (run_invocations_same _ (shard_task (tile p) body)); [done|]. intros i s0 Hi. symmetry.
        apply map_task_shard; [apply view_ok|]. cbn in Hi. rewrite decide_True in Hi by done.
        rewrite Ho in Hi. by apply invoked_in_range in Hi. }
      destruct (drive_registered _ _ n m) as [o' d]. by injection Hend as <- <-.
  - destruct (s_main st) as [| | | | |o'] eqn:Hmain; try done. intros [= <- <-].
    destruct tiles_shards as [Hin Hdis]. pose proof tiles_bounds as [_ Hmax].
    pose proof (inv_steps _ body n m Hin Hdis Hn st0 st (scoped_start_inv _ body n m Hn st0 Hmax Hst0) Hst) as Hi.
    destruct (returned_spec _ body n m Hin Hdis Hn st o' Hi Hmain) as (-> & -> & _).
    exists _, (mkEnv 0 zseq (env_available env)). split; [split; [apply Henv|apply Henv|done]|].
    split; [done|]. rewrite partition_map_with_unfold by done. cbv zeta.
    change (plan_view (mkEnv 0 zseq (env_available env)) s plan) with p. rewrite decide_False by lia.
    unfold drive. rewrite (bool_decide_eq_false_2 (n < 1)), andb_false_r by lia.
    cbn [env_slot registered_parallel_executor]. apply (drive_scoped_spec _ n m _ _ (IndependentTasks0 := same_tasks)).
    all: done.
Qed.

(** A call that has not ended can go on, and not for ever. *)
Lemma way_progress a :
  under_way a -> is_Some (end_path a) \/ exists t a', step_path t a = Some a'.
Proof using Hs Hp Hm Henv.
  intros [Hn|ex e Hn Hex He|st0 st Hn Hex Hst0 Hst]; cbn [end_path]; [by left; eexists|..].
  - pose proof (executor_kept ex) as HE. destruct tiles_shards as [Hin Hdis].
    pose proof (engine_reachable_inv _ body n m Hin Hdis _ (invoked_once n) (contract_range _ n) e He) as Hi.
    destruct (engine_progress _ body n m Hin Hdis _ (invoked_once n) (contract_range _ n) e Hi)
      as [Hd|(e' & k & Hk)].
    + left. assert (tasks_done e = true) as ->.
      { apply forallb_forall. intros [i st] [t Ht]%list_elem_of_In%list_elem_of_lookup.
        by rewrite (Hd t i st Ht). }
      destruct (executor_returned _ _ _). by eexists.
    + right. exists (Some k). cbn. rewrite Hk. by eexists.
  - destruct (scoped_progress (tile p) body st) as [[o Ho]|(st' & [Hk|[k Hk]])].
    + left. rewrite Ho. by eexists.
    + right. exists None. cbn. rewrite Hk. by eexists.
    + right. exists (Some k). cbn. rewrite Hk. by eexists.
Qed.
End one_call.

(** ** Lemmas: the cells of a running call *)

(** An operation that does not reach the cells leaves them as they are. *)
Lemma exec_lent o w w' c d :
  inv w -> exec o w = Some w' -> ~ reaches_cells o c w -> cells w !! c = Some d -> unguarded c w ->
  cells w' !! c = Some d /\ unguarded c w'.
Proof.
  intros Hw He Hr Hd Hun. assert (c <> next w) as Hn by (by eapply cell_old).
  split; [|eapply exec_stays_unguarded; [done..| |done]; by destruct o].
  destruct o; cbn in He, Hr; try (exec_inv_tac He; done);
    try (exec_inv_tac He; cbn; rewrite lookup_insert_ne by congruence; done).
  - exec_inv_tac He. cbn. by rewrite lookup_delete_ne by congruence.
  - apply bind_Some in He as (h & Hh & He). destruct (h_hold h) as [|c' lo hi wr] eqn:Eh; [done|].
    specialize (Hun _ h Hh). cbn in Hun. rewrite Eh in Hun. exec_inv_tac He. cbn.
    by rewrite lookup_insert_ne.
  - injection He as <-. cbn. rewrite Hd in Hr. apply map_lookup_filter_Some. by split.
Qed.

(** The owner of the cells may write all of them. *)
Lemma overwrite_reachable w c d v :
  reachable w -> cells w !! c = Some d -> unguarded c w -> zlen v = zlen (c_value d) ->
  reachable (set_cell c (with_contents d v) w).
Proof.
  intros Hw Hd Hun Hl.
  assert (forall k, (k <= length v)%nat ->
    reachable (set_cell c (with_contents d (take k v ++ drop k (c_value d))) w)) as Hk.
  { induction k as [|k IH]; intros Hk.
    - cbn. destruct d as [b th og ps l]. unfold set_cell, with_contents. cbn in *.
      rewrite drop_0, insert_id by done. by destruct w.
    - destruct (lookup_lt_is_Some_2 v k ltac:(lia)) as [x Hx].
      assert (is_Some (c_value d !! k)) as [y Hy] by (apply lookup_lt_is_Some_2; unfold zlen in Hl; lia).
      eapply (reach_step _ (CellGetMut (c_thread d) c (Z.of_nat k) x)); [apply IH; lia|done|].
      cbn [exec]. unfold cell_get_mut. cbn [cells set_cell]. rewrite lookup_insert_eq.
      cbn [mbind option_bind with_contents c_thread c_value c_brand c_origin c_parts].
      rewrite option_guard_True by done. cbn [mbind option_bind].
      rewrite option_guard_True by exact Hun. cbn [mbind option_bind].
      rewrite option_guard_True; [cbn [mbind option_bind]|].
      + unfold set_cell. cbn. rewrite insert_insert_eq. do 3 f_equal. unfold with_contents. f_equal.
        unfold zset. rewrite Nat2Z.id.
        rewrite (take_S_r v k x Hx), (drop_S (c_value d) y k Hy), <- app_assoc. cbn.
        rewrite insert_app_r_alt by (rewrite length_take; lia).
        rewrite length_take. by replace (k - k `min` length v)%nat with 0%nat by lia.
      + unfold zlen in *. rewrite length_app, length_take, length_drop. lia. }
  specialize (Hk (length v) (le_n _)). rewrite take_ge, drop_ge, app_nil_r in Hk; [done|unfold zlen in *; lia|done].
Qed.

(** ** Lemmas: the machine *)

Lemma prun_cons `{BuildProfile, ProgramText} av o ops m : prun av (o :: ops) m = pexec av o m ≫= prun av ops.
Proof.
  unfold prun. cbn. destruct (pexec av o m) as [m1|]; [done|]. cbn.
  induction ops as [|o' ops IH]; [done|exact IH].
Qed.

Section machine.
Context `{BuildProfile, ProgramText} (env : call_env) (Henv : CallEnv env).
#[local] Abbreviation av := (env_available env).

Definition call_ok (w : world) (c : positive) (k : call) : Prop :=
  exists d, cells w !! c = Some d /\ unguarded c w /\ within (k_cells k) (k_plan k) d /\
    elements_send (k_cells k) d /\
    under_way env (k_slot k) (k_cells k) (k_plan k) (k_closure k) (c_value d) (k_path k).

Record pinv (m : pmachine) : Prop := {
  pinv_store : reachable (store m);
  pinv_calls c k : calls m !! c = Some k -> call_ok (store m) c k
}.

Lemma pinv_initial : pinv initial_pmachine.
Proof. split; [apply reach_init|done]. Qed.

(** What happens elsewhere. *)
Lemma call_ok_base o w w' c k :
  reachable w -> exec o w = Some w' -> ~ reaches_cells o c w -> call_ok w c k -> call_ok w' c k.
Proof.
  intros Hw%reachable_inv He Hr (d & Hd & Hun & Hrest).
  destruct (exec_lent o w w' c d Hw He Hr Hd Hun) as [Hd' Hun']. exists d. by repeat (split; [done|]).
Qed.

Lemma call_ok_other w c c' d' k : c <> c' -> call_ok w c k -> call_ok (set_cell c' d' w) c k.
Proof. intros Hne (d & Hd & Hrest). exists d. split; [|done]. cbn. by rewrite lookup_insert_ne. Qed.

Lemma end_call_ok c m o m' :
  pinv m -> end_call c m = Some (o, m') ->
  exists k d v, calls m !! c = Some k /\ cells (store m) !! c = Some d /\ unguarded c (store m) /\
    end_path (k_path k) = Some (o, v) /\ within (k_cells k) (k_plan k) d /\ elements_send (k_cells k) d /\
    as_atomic env (k_cells k) (k_plan k) (k_closure k) (c_value d) o v /\ zlen v = zlen (c_value d) /\
    m' = mkPM (set_cell c (with_contents d v) (store m)) (registry m) (delete c (calls m)).
Proof using Henv.
  intros Hm (k & Hk & (d & Hd & ([o' v] & Hv & [= -> <-])%bind_Some)%bind_Some)%bind_Some.
  destruct (pinv_calls m Hm c k Hk) as (d' & Hd' & Hun & Hin & Hsend & Hway).
  assert (d' = d) as -> by congruence. pose proof Hin as (Hs & Hp & Hl).
  pose proof (end_under_way env Henv _ _ _ _ _ Hs Hp Hl _ o v Hway Hv) as Ha.
  exists k, d, v. split_and!; [done..| |done]. by eapply as_atomic_len.
Qed.

Lemma pinv_pexec o m m' : psafe o = true -> pinv m -> pexec av o m = Some m' -> pinv m'.
Proof using Henv.
  intros Hs Hm. destruct o as [o|o|th c s plan f|c t|c]; cbn [pexec].
  - intros [Hsp (w & He & [= <-])%bind_Some]%guard_Some. split; cbn.
    + by apply (reach_step (store m) o); [apply Hm|..].
    + intros c k Hk. eapply call_ok_base; [apply Hm|done|by apply (Hsp c k)|by apply (pinv_calls m Hm)].
  - intros [= <-]. by destruct Hm.
  - intros (d & Hd & [Hth [Hun [Hno [Hin [Hsend [= <-]]%guard_Some]%guard_Some]%guard_Some]%guard_Some]%guard_Some)%bind_Some.
    split; [apply Hm|]. cbn. intros c' k [[<- <-]|[_ Hk]]%lookup_insert_Some; [|by apply (pinv_calls m Hm)].
    exists d. split_and!; [done..|]. cbn. pose proof Hin as (? & ? & ?). by apply begin_under_way.
  - intros (k & Hk & (a & Ha & [= <-])%bind_Some)%bind_Some. split; [apply Hm|]. cbn.
    intros c' k' [[<- <-]|[_ Hk']]%lookup_insert_Some; [|by apply (pinv_calls m Hm)].
    destruct (pinv_calls m Hm c k Hk) as (d & Hd & Hun & Hin & Hsend & Hway).
    exists d. split_and!; [done..|]. cbn. pose proof Hin as (? & ? & ?). by eapply step_under_way.
  - intros ([o m1] & He & ->)%fmap_Some. cbn [snd].
    destruct (end_call_ok c m o m1 Hm He) as (k & d & v & Hk & Hd & Hun & _ & _ & _ & _ & Hl & ->).
    split; cbn; [by apply overwrite_reachable; [apply Hm|..]|].
    intros c' k' [Hne Hk']%lookup_delete_Some. apply call_ok_other; [done|by apply (pinv_calls m Hm)].
Qed.

(** Each step is none or one of the atomic account. *)
Lemma pexec_atomic o m m' :
  psafe o = true -> pinv m -> pexec av o m = Some m' -> ahistory av (pevent o m) (store m) (store m').
Proof using Henv.
  intros Hs Hm. destruct o as [o|o|th c s plan f|c t|c]; cbn [pexec pevent].
  - intros [_ (w & He & [= <-])%bind_Some]%guard_Some. eapply a_cons, a_nil. by constructor.
  - intros [= <-]. apply a_nil.
  - intros (d & Hd & [_ [_ [_ [_ [_ [= <-]]%guard_Some]%guard_Some]%guard_Some]%guard_Some]%guard_Some)%bind_Some.
    apply a_nil.
  - intros (k & Hk & (a & Ha & [= <-])%bind_Some)%bind_Some. apply a_nil.
  - intros ([o m1] & He & ->)%fmap_Some. cbn [snd].
    destruct (end_call_ok c m o m1 Hm He) as (k & d & v & -> & Hd & Hun & -> & Hin & Hsend & Ha & _ & ->).
    destruct Ha as (text & env' & He' & Hav & Hr). eapply a_cons, a_nil. by eapply a_call.
Qed.

Lemma ahistory_app l1 l2 w w1 w2 : ahistory av l1 w w1 -> ahistory av l2 w1 w2 -> ahistory av (l1 ++ l2) w w2.
Proof. induction 1; [done|]. intros Hl. eapply a_cons; [done|by apply IHahistory]. Qed.

Lemma prun_atomic ops m m' :
  forallb psafe ops = true -> pinv m -> prun av ops m = Some m' ->
  pinv m' /\ ahistory av (history av ops m) (store m) (store m').
Proof using Henv.
  revert m. induction ops as [|o ops IH]; intros m Hs Hm Hr.
  { injection Hr as <-. split; [done|apply a_nil]. }
  apply andb_true_iff in Hs as [Ho Hs]. rewrite prun_cons in Hr. apply bind_Some in Hr as (m1 & H1 & Hr).
  destruct (IH m1 Hs) as [Hm' Ha]; [by eapply pinv_pexec|done|]. split; [done|]. cbn [history].
  rewrite H1. eapply ahistory_app; [by apply pexec_atomic|done].
Qed.
End machine.

Definition preachable `{BuildProfile, ProgramText} (env : call_env) (m : pmachine) : Prop :=
  exists ops, forallb psafe ops = true /\ prun (env_available env) ops initial_pmachine = Some m.

Lemma preachable_inv `{BuildProfile, ProgramText} env m : CallEnv env -> preachable env m -> pinv env m.
Proof. intros He (ops & Hs & Hr). by eapply (prun_atomic env He ops) in Hr as [? _]; [|done|apply pinv_initial]. Qed.

(** ** Lemmas: a call ends *)

Definition pstep (a a' : path) : Prop := exists t, step_path t a = Some a'.

Lemma ended_wf o m : Acc (flip pstep) (Ended o m).
Proof. constructor. by intros a' [t Ha]. Qed.

Lemma pstep_wf : well_founded (flip pstep).
Proof.
  intros [p n E e|p body s|o m]; [| |apply ended_wf].
  - induction (estep_wf (tile p) e) as [e _ IH]. constructor. intros a' [t Ha]. cbn in Ha.
    apply bind_Some in Ha as (k & -> & ([e'|q|] & Hk & [= <-])%bind_Some); [|apply ended_wf..].
    apply IH. by exists k.
  - induction (sstep_wf (tile p) body s) as [s _ IH]. constructor. intros a' [t Ha]. cbn in Ha.
    apply bind_Some in Ha as (s' & Hs & [= <-]). apply IH. destruct t as [k|]; [right; by exists k|by left].
Qed.

Definition advance (c : positive) (m m' : pmachine) : Prop := exists t, step_call c t m = Some m'.

Lemma advance_wf c : well_founded (flip (advance c)).
Proof.
  intros m. destruct (calls m !! c) as [k|] eqn:Hk.
  2: { constructor. intros m' [t Ht]. unfold step_call in Ht. by rewrite Hk in Ht. }
  remember (k_path k) as a eqn:Ha. revert m k Hk Ha. induction (pstep_wf a) as [a _ IH].
  intros m k Hk ->. constructor. intros m' [t Ht]. unfold step_call in Ht. rewrite Hk in Ht.
  cbn [mbind option_bind] in Ht. apply bind_Some in Ht as (a' & Ha' & [= <-]).
  eapply IH; [by exists t|cbn; apply lookup_insert_eq|done].
Qed.

Lemma csteps_run `{BuildProfile, ProgramText} av c m m' :
  rtc (advance c) m m' -> exists ts, prun av (PStep c <$> ts) m = Some m'.
Proof.
  induction 1 as [m|m m1 m' [t Ht] _ [ts Hts]]; [by exists []|]. exists (t :: ts).
  cbn [fmap list_fmap]. rewrite prun_cons. cbn [pexec]. by rewrite Ht.
Qed.

Lemma psafe_steps c (ts : list (option nat)) : forallb psafe (PStep c <$> ts) = true.
Proof. by induction ts. Qed.

Lemma step_call_inv c t m m' :
  step_call c t m = Some m' ->
  exists k a, calls m !! c = Some k /\ step_path t (k_path k) = Some a /\
    m' = mkPM (store m) (registry m)
      (<[c := mkCall (k_slot k) (k_cells k) (k_plan k) (k_closure k) a]> (calls m)).
Proof. intros (k & Hk & (a & Ha & [= <-])%bind_Some)%bind_Some. by exists k, a. Qed.

(** A guard on another cell sees what it saw. *)
Lemma guard_deref_other g c d w :
  unguarded c w -> guard_deref g (set_cell c d w) = guard_deref g w.
Proof.
  intros Hun. unfold guard_deref. cbn [holders set_cell]. destruct (holders w !! g) as [h|] eqn:Hh; [|done].
  cbn [mbind option_bind]. destruct (h_hold h) as [|c' lo hi wr] eqn:Eh; [done|].
  specialize (Hun g h Hh). cbn in Hun. rewrite Eh in Hun. cbn. by rewrite lookup_insert_ne.
Qed.

(** A way under way is not undefined. *)
Lemma under_way_defined `{BuildProfile, ProgramText} env slot s plan f m a v :
  under_way env slot s plan f m a -> a <> Ended UB v.
Proof. by intros [| |]. Qed.

Lemma as_atomic_defined `{BuildProfile} env s plan f m o v :
  slice_ok s -> plan_ok plan -> s_base s + s_len s <= zlen m -> as_atomic env s plan f m o v -> o <> UB.
Proof.
  intros Hs Hp Hm (text & env' & He' & _ & Hr).
  destruct (@partition_map_with_outcome _ text env' He' _ _ s plan f m Hs Hp Hm) as (o' & Ho' & Ho).
  rewrite Ho' in Hr. injection Hr as <- _. by destruct o'.
Qed.

(** The operations that advance or end the call on [c]. *)
Definition of_call (c : positive) (o : pop) : Prop :=
  match o with PStep c' _ | PEnd c' => c' = c | _ => False end.

Lemma others_spare `{BuildProfile, ProgramText} env (Henv : CallEnv env) c k d o m m' :
  pinv env m -> calls m !! c = Some k -> cells (store m) !! c = Some d ->
  pexec (env_available env) o m = Some m' -> ~ of_call c o ->
  calls m' !! c = Some k /\ cells (store m') !! c = Some d.
Proof.
  intros Hm Hk Hd He Hne.
  destruct (pinv_calls env m Hm c k Hk) as (d' & Hd' & Hun & _). assert (d' = d) as -> by congruence.
  destruct o as [o|o|th c' s plan f|c' t|c']; cbn [pexec of_call] in He, Hne.
  - apply guard_Some in He as [Hsp (w & He & [= <-])%bind_Some]. split; [done|]. cbn.
    eapply exec_lent; [by apply reachable_inv, Hm|done|by apply (Hsp c k)|done..].
  - by injection He as <-.
  - apply bind_Some in He as (d1 & Hd1 & [_ [_ [Hno [_ [_ [= <-]]%guard_Some]%guard_Some]%guard_Some]%guard_Some]%guard_Some).
    split; [|done]. cbn. rewrite lookup_insert_ne; [done|]. by intros ->; rewrite Hno in Hk.
  - apply step_call_inv in He as (k' & a & Hk' & _ & ->). split; [|done]. cbn. by rewrite lookup_insert_ne.
  - apply fmap_Some in He as ([o m1] & He & ->). cbn [snd].
    destruct (end_call_ok env Henv c' m o m1 Hm He) as (k' & d1 & v & _ & _ & _ & _ & _ & _ & _ & _ & ->).
    cbn. by rewrite lookup_delete_ne, lookup_insert_ne.
Qed.

(** ** Properties *)

(** C3: Calls of the drivers are atomic: for every run of any threads, with token
    operations, registrations of executors and any number of partition calls in
    flight on different cells, one access, slot write, mutex operation, spawn or
    join at a time, the history in which each call happens at once when it ends, as
    [partition_map_with] under some contract-keeping executor and schedule, leads
    to the same tokens, borrows and cells; and that world is one that the token
    machine reaches by itself, so that its theorems hold around the drivers. *)
Theorem calls_linearize `{BuildProfile, ProgramText} (env : call_env) (ops : list pop) (m : pmachine) :
  CallEnv env -> forallb psafe ops = true ->
  prun (env_available env) ops initial_pmachine = Some m ->
  ahistory (env_available env) (history (env_available env) ops initial_pmachine) initial_world (store m) /\
  reachable (store m).
Proof.
  intros He Hs Hr. destruct (prun_atomic env He ops _ m Hs (pinv_initial env) Hr) as [Hm Ha].
  split; [exact Ha|apply Hm].
Qed.

(** C9: A call in flight is alone with its cells: nothing borrows them, they are
    [Send], no token operation that would reach them, move them or end their brand
    is accepted, and whatever else any thread does leaves the call and the cells as
    they are; no step of the call and no outcome is undefined behaviour; and
    neither its steps nor its end change what a live guard shows. *)
Theorem calls_isolated `{BuildProfile, ProgramText} (env : call_env) (m : pmachine) (c : positive)
    (k : call) (d : cell) :
  CallEnv env -> preachable env m -> calls m !! c = Some k -> cells (store m) !! c = Some d ->
  unguarded c (store m) /\ elements_send (k_cells k) d /\
  (forall o, reaches_cells o c (store m) -> pexec (env_available env) (PBase o) m = None) /\
  (forall o m', pexec (env_available env) o m = Some m' -> ~ of_call c o ->
     calls m' !! c = Some k /\ cells (store m') !! c = Some d) /\
  (forall t m' k' v, step_call c t m = Some m' -> calls m' !! c = Some k' -> k_path k' <> Ended UB v) /\
  (forall o m', end_call c m = Some (o, m') -> o <> UB /\ calls m' !! c = None) /\
  (forall o m' g, pexec (env_available env) o m = Some m' -> of_call c o ->
     guard_deref g (store m') = guard_deref g (store m)).
Proof.
  intros He Hr Hk Hd. pose proof (preachable_inv env m He Hr) as Hm.
  destruct (pinv_calls env m Hm c k Hk) as (d' & Hd' & Hun & Hin & Hsend & Hway).
  assert (d' = d) as -> by congruence. pose proof Hin as (Hs & Hp & Hl).
  split_and!; [done|done| | | | |].
  - intros o Ho. cbn [pexec]. apply guard_None. intros Hsp. by apply (Hsp c k Hk).
  - intros o m' Hx Hne. by eapply others_spare.
  - intros t m' k' v (k0 & a & Hk0 & Ha & ->)%step_call_inv Hk'. assert (k0 = k) as -> by congruence.
    cbn in Hk'. rewrite lookup_insert_eq in Hk'. injection Hk' as <-. cbn.
    eapply under_way_defined. by apply (step_under_way env He _ _ _ _ _ Hs Hp Hl t (k_path k)).
  - intros o m' Hx. destruct (end_call_ok env He c m o m' Hm Hx)
      as (k0 & d0 & v & Hk0 & Hd0 & _ & _ & _ & _ & Ha & _ & ->).
    assert (k0 = k) as -> by congruence. assert (d0 = d) as -> by congruence.
    split; [by eapply as_atomic_defined|cbn; apply lookup_delete_eq].
  - intros o m' g Hx Ho. destruct o; cbn in Ho, Hx; try done; subst.
    + by apply step_call_inv in Hx as (k0 & a & _ & _ & ->).
    + apply fmap_Some in Hx as ([o m1] & Hx & ->). cbn [snd].
      destruct (end_call_ok env He c m o m1 Hm Hx) as (k0 & d0 & v & _ & _ & _ & _ & _ & _ & _ & _ & ->).
      by apply guard_deref_other.
Qed.

(** C24: A call ends: from every state a program reaches, whatever other calls and
    borrows there are, the steps of one call cannot go on for ever, they are never
    stuck before its end, and some number of them ends it, with an outcome. *)
Theorem calls_finish `{BuildProfile, ProgramText} (env : call_env) (m : pmachine) (c : positive) (k : call) :
  CallEnv env -> preachable env m -> calls m !! c = Some k ->
  Acc (flip (advance c)) m /\
  (is_Some (end_call c m) \/ exists m', advance c m m') /\
  exists ts m1 o m2, prun (env_available env) (PStep c <$> ts) m = Some m1 /\
    end_call c m1 = Some (o, m2) /\ calls m2 = delete c (calls m1).
Proof.
  intros He Hr Hk. pose proof (preachable_inv env m He Hr) as Hm.
  assert (forall m', rtc (advance c) m m' -> is_Some (end_call c m') \/ exists m'', advance c m' m'') as Hgo.
  { intros m' Hs. destruct (csteps_run (env_available env) c m m' Hs) as [ts Hts].
    destruct (prun_atomic env He _ _ _ (psafe_steps c ts) Hm Hts) as [Hm' _].
    assert (is_Some (calls m' !! c)) as [k' Hk'].
    { clear -Hs Hk. revert k Hk. induction Hs as [|m m1 m' [t Ht] _ IH]; intros k Hk; [by eexists|].
      apply step_call_inv in Ht as (k1 & a & _ & _ & ->). eapply IH. cbn. apply lookup_insert_eq. }
    destruct (pinv_calls env m' Hm' c k' Hk') as (d & Hd & _ & (? & ? & ?) & _ & Hway).
    destruct (way_progress env He _ _ _ _ _ ltac:(done) ltac:(done) ltac:(done) _ Hway) as [[[o v] Hv]|(t & a & Ha)].
    - left. unfold end_call. rewrite Hk', Hd. cbn. rewrite Hv. by eexists.
    - right. eexists. exists t. unfold step_call. rewrite Hk'. cbn. by rewrite Ha. }
  split; [apply advance_wf|]. split; [apply Hgo, rtc_refl|].
  destruct (acc_reaches (advance c) (fun m => is_Some (end_call c m)) m Hgo (advance_wf c m))
    as (m1 & Hs & [[o m2] He2]). destruct (csteps_run (env_available env) c m m1 Hs) as [ts Hts].
  exists ts, m1, o, m2. split_and!; [done|done|].
  by apply bind_Some in He2 as (k1 & _ & (d & _ & ([o' v] & _ & [= _ <-])%bind_Some)%bind_Some).
Qed.

(** Two calls at once: one on scoped threads; then an executor is registered and
    the other runs on its workers, backwards; between their steps the token is
    shared and a third cell is read. *)
Definition two_calls : list pop :=
  [PBase (WithFreshToken ExclusiveFamily 1); PBase (NewCell 1 1 u32_parts [7; 8; 9]);
   PBase (NewCell 1 1 u32_parts [4; 5; 6]); PBase (NewCell 1 1 u32_parts [1; 2; 3]);
   PBegin 1 2 (Slice 0 3) (chunk_size 2) tag_start; PRegistry (Register 5); PStep 2 None;
   PBegin 1 3 (Slice 1 2) (chunk_size 1) tag_start; PStep 3 (Some 1%nat); PBase (Share 1 1);
   PStep 2 None; PStep 2 (Some 0%nat); PStep 3 (Some 0%nat); PBase (CellBorrow 5 4)].
Definition their_ends : list pop :=
  (PStep 3 <$> [Some 1; Some 1; Some 0; Some 0; Some 1; Some 0]%nat) ++
  (PStep 2 <$> [None; None; None; None; None]) ++ [PEnd 3; PEnd 2].

Definition in_flight : pmachine :=
  match @prun debug_profile _ (env_available scoped_env) two_calls initial_pmachine with
  | Some m => m | None => initial_pmachine
  end.

Lemma in_flight_reachable : @preachable debug_profile _ scoped_env in_flight.
Proof. exists two_calls. split; vm_compute; reflexivity. Qed.

Lemma calls_linearize_witness :
  exists m, @prun debug_profile _ None (two_calls ++ their_ends) initial_pmachine = Some m /\
    drop 6 (@history debug_profile _ None (two_calls ++ their_ends) initial_pmachine) =
      [ECall 3 (Slice 1 2) (chunk_size 1) tag_start (Ret [1; 1]);
       ECall 2 (Slice 0 3) (chunk_size 2) tag_start (Ret [2; 1])] /\
    c_value <$> cells (store m) !! 2%positive = Some [0; 8; 2] /\
    c_value <$> cells (store m) !! 3%positive = Some [4; 0; 1] /\
    reachable (store m).
Proof.
  destruct (@prun debug_profile _ None (two_calls ++ their_ends) initial_pmachine) as [m|] eqn:E;
    [|vm_compute in E; discriminate].
  exists m. split; [reflexivity|]. split; [vm_compute; reflexivity|].
  pose proof (proj2 (@calls_linearize debug_profile _ scoped_env (two_calls ++ their_ends) m
    scoped_env_ok ltac:(vm_compute; reflexivity) E)) as Hr.
  vm_compute in E. injection E as <-. split; [reflexivity|]. split; [reflexivity|exact Hr].
Defined.

Lemma calls_isolated_witness :
  exists d, cells (store in_flight) !! 2%positive = Some d /\ unguarded 2 (store in_flight) /\
    @pexec debug_profile _ None (PBase (ScopeEnd 1)) in_flight = None /\
    @pexec debug_profile _ None (PBase (CellGetMut 1 2 0 5)) in_flight = None.
Proof.
  destruct (cells (store in_flight) !! 2%positive) as [d|] eqn:Hd; [|vm_compute in Hd; discriminate].
  destruct (calls in_flight !! 2%positive) as [k|] eqn:Hk; [|vm_compute in Hk; discriminate].
  destruct (@calls_isolated debug_profile _ scoped_env in_flight 2 k d scoped_env_ok
    in_flight_reachable Hk Hd) as (Hun & _ & Hno & _).
  exists d. split; [reflexivity|]. split; [exact Hun|]. split; apply Hno; [|reflexivity].
  unfold reaches_cells. rewrite Hd. vm_compute in Hd. injection Hd as <-. reflexivity.
Defined.

Lemma calls_finish_witness :
  exists ts m1 o m2, @prun debug_profile _ None (PStep 3 <$> ts) in_flight = Some m1 /\
    end_call 3 m1 = Some (o, m2) /\ calls m2 = delete 3%positive (calls m1).
Proof.
  destruct (calls in_flight !! 3%positive) as [k|] eqn:Hk; [|vm_compute in Hk; discriminate].
  exact (proj2 (proj2 (@calls_finish debug_profile _ scoped_env in_flight 3 k scoped_env_ok
    in_flight_reachable Hk))).
Defined.
