(* ===== verification/Captures.v ===== *)
(** * Partition calls whose tasks read other cells ([sync/scoped/partition/map.rs])

    The closure of a call is [Sync] and may capture guards on cells other than
    those the call partitions: it reads them on whatever threads the tasks run.
    Here the calls of [Calls] carry the guards their closures capture; until a call
    ends, the borrow excludes what would move, end, project or write through one of
    its guards, or end their brand.  The closure is given what the guards show when
    the call begins, as a function of which it is written.

    Main results: at every moment of a call its guards show what they showed when
    it began, so a task that reads one, whenever that is, reads what the closure
    was given; and the history in which each call happens at once, when it ends,
    has each call read its guards at that moment. *)
From S2P Require Import Prelude AutoTraits Region Plan Closure Executor Driver Shards Workers ScopedThreads.
From S2P Require Import PartitionMap Token Views VecPermits Calls.
From stdpp Require Import base numbers list gmap relations.
Local Open Scope Z_scope.

(** What a closure captures, and the closure as a function of what that shows. *)
Record capture : Type := mkCapture {
  x_guards : list positive;
  x_closure : list (list Z) -> Z -> Z -> closure Z Z
}.

Record xmachine : Type := mkXM {
  program : pmachine;
  captured : gmap positive capture
}.

Definition initial_xmachine : xmachine := mkXM initial_pmachine ∅.

(** ** Code *)

Section code.
Context `{BuildProfile, ProgramText} (available : option positive).

(** What the guards show. *)
Definition views_of (gs : list positive) (w : world) : option (list (list Z)) :=
  mapM (fun g => guard_deref g w) gs.

(** [F: Sync]: the guard is [Sync], and the calling thread has it. *)
Definition may_capture (th g : positive) (w : world) : bool :=
  match holders w !! g with
  | Some h =>
      match h_hold h with
      | Guard c lo hi writes =>
          match cells w !! c with
          | Some d => bool_decide (h_thread h = th) && is_sync (guard_ty d lo hi writes)
          | None => false
          end
      | Permit _ => false
      end
  | None => false
  end.

(** [partition_map_with(&mut cells[..], plan, f)] on [th], [f] capturing [gs]. *)
Definition begin_capturing (th c : positive) (s : slice) (plan : PartitionPlan) (gs : list positive)
    (F : list (list Z) -> Z -> Z -> closure Z Z) (x : xmachine) : option xmachine :=
  let w := store (program x) in
  guard (forallb (fun g => may_capture th g w) gs = true);;
  vs ← views_of gs w;
  p ← begin_call available th c s plan (F vs) (program x);
  Some (mkXM p (<[c := mkCapture gs F]> (captured x))).

(** What a shared borrow of guard [g] excludes. *)
Definition uses_guard (o : op) (g : positive) (w : world) : bool :=
  match o with
  | EndBorrow j | SendHolder j _ | GuardDerefMut j _ _ | GuardInto j | GuardMap j _ _
  | GuardMapSplit j _ _ _ _ => bool_decide (j = g)
  | ScopeEnd b => match holders w !! g with Some h => of_brand b w h | None => false end
  | _ => false
  end.

Definition spares_captured (o : op) (x : xmachine) : Prop :=
  map_Forall (fun _ k => forallb (fun g => negb (uses_guard o g (store (program x)))) (x_guards k) = true) (captured x).

#[export] Instance spares_captured_dec o x : Decision (spares_captured o x).
Proof. apply map_Forall_dec. intros c k. apply _. Defined.

(** A call that captures nothing begins with no guards. *)
Inductive xop : Type :=
| XBase (o : op)
| XRegistry (o : registry_op)
| XBegin (th c : positive) (s : slice) (plan : PartitionPlan) (gs : list positive)
    (F : list (list Z) -> Z -> Z -> closure Z Z)
| XStep (c : positive) (t : option nat)
| XEnd (c : positive).

Definition xsafe (o : xop) : bool := match o with XBase o => safe o | _ => true end.

Definition xexec (o : xop) (x : xmachine) : option xmachine :=
  match o with
  | XBase o =>
      guard (spares_captured o x);;
      p ← pexec available (PBase o) (program x); Some (mkXM p (captured x))
  | XRegistry o => p ← pexec available (PRegistry o) (program x); Some (mkXM p (captured x))
  | XBegin th c s plan gs F => begin_capturing th c s plan gs F x
  | XStep c t => p ← pexec available (PStep c t) (program x); Some (mkXM p (captured x))
  | XEnd c => p ← pexec available (PEnd c) (program x); Some (mkXM p (delete c (captured x)))
  end.

Definition xrun (ops : list xop) (x : xmachine) : option xmachine :=
  foldl (fun x o => x ≫= xexec o) (Some x) ops.
End code.

(** ** The atomic account *)

Inductive revent : Type :=
| RBase (o : op)
| RCall (c : positive) (s : slice) (plan : PartitionPlan) (gs : list positive)
    (F : list (list Z) -> Z -> Z -> closure Z Z) (o : outcome (list Z)).

(** A call reads its guards when it happens. *)
Inductive rstep `{BuildProfile} (available : option positive) : revent -> world -> world -> Prop :=
| r_base o w w' : safe o = true -> exec o w = Some w' -> rstep available (RBase o) w w'
| r_call c s plan gs F o vs w w' :
    views_of gs w = Some vs -> astep available (ECall c s plan (F vs) o) w w' ->
    rstep available (RCall c s plan gs F o) w w'.

Inductive rhistory `{BuildProfile} (available : option positive) : list revent -> world -> world -> Prop :=
| rh_nil w : rhistory available [] w w
| rh_cons e l w w1 w2 :
    rstep available e w w1 -> rhistory available l w1 w2 -> rhistory available (e :: l) w w2.

(** When the operations of a run happen. *)
Definition xevent (o : xop) (x : xmachine) : list revent :=
  match o with
  | XBase o => [RBase o]
  | XEnd c =>
      match calls (program x) !! c, captured x !! c with
      | Some k, Some g =>
          match end_path (k_path k) with
          | Some (o, _) => [RCall c (k_cells k) (k_plan k) (x_guards g) (x_closure g) o]
          | None => []
          end
      | _, _ => []
      end
  | _ => []
  end.

Fixpoint xhistory `{BuildProfile, ProgramText} (available : option positive) (ops : list xop) (x : xmachine)
    : list revent :=
  match ops with
  | [] => []
  | o :: ops =>
      xevent o x ++ match xexec available o x with Some x' => xhistory available ops x' | None => [] end
  end.

(** ** Lemmas: captured guards *)

Lemma guard_deref_inv g w v :
  guard_deref g w = Some v -> exists h c lo hi wr d, holders w !! g = Some h /\ h_hold h = Guard c lo hi wr /\
    cells w !! c = Some d /\ v = subrange lo (hi - lo) (c_value d).
Proof.
  intros (h & Hh & Hv)%bind_Some. destruct (h_hold h) as [|c lo hi wr] eqn:Eh; [done|].
  apply bind_Some in Hv as (d & Hd & [= <-]). by exists h, c, lo, hi, wr, d.
Qed.

(** The end of another brand's scope. *)
Lemma scope_end_spares b w w' g v :
  inv w -> scope_end b w = Some w' -> uses_guard (ScopeEnd b) g w = false ->
  guard_deref g w = Some v -> guard_deref g w' = Some v.
Proof.
  intros Hw [= <-] Hu (h & c & lo & hi & wr & d & Hh & Eh & Hd & ->)%guard_deref_inv.
  cbn in Hu. rewrite Hh in Hu. destruct (inv_holders _ Hw g h Hh) as [_ (k & Hk & Hg)]. rewrite Eh in Hg.
  destruct Hg as (_ & d1 & Hd1 & Hb & _). assert (d1 = d) as -> by congruence.
  pose proof Hu as Hu'. unfold of_brand in Hu'. rewrite Hk in Hu'. apply bool_decide_eq_false in Hu'.
  unfold guard_deref. cbn [holders cells].
  rewrite (map_lookup_filter_Some_2 _ _ g h Hh Hu). cbn [mbind option_bind]. rewrite Eh.
  rewrite (map_lookup_filter_Some_2 _ _ c d Hd); [done|]. congruence.
Qed.

(** What does not use a guard leaves what it shows. *)
Lemma exec_spares_view o w w' g v :
  inv w -> safe o = true -> exec o w = Some w' -> uses_guard o g w = false ->
  guard_deref g w = Some v -> guard_deref g w' = Some v.
Proof.
  intros Hw Hs He Hu Hv. destruct (touches g o) eqn:Ht.
  - destruct o; cbn in Ht, Hu; try done; try congruence. by eapply (scope_end_spares b).
  - pose proof (guard_deref_inv g w v Hv) as (h & c & lo & hi & wr & d & Hh & Eh & _).
    eapply undisturbed_deref; [|done]. by eapply exec_undisturbed.
Qed.

Section machine.
Context `{BuildProfile, ProgramText} (env : call_env) (Henv : CallEnv env).
#[local] Abbreviation av := (env_available env).

Lemma pexec_spares_view o p p' g v :
  pinv env p -> psafe o = true -> pexec av o p = Some p' ->
  match o with PBase o => uses_guard o g (store p) = false | _ => True end ->
  guard_deref g (store p) = Some v -> guard_deref g (store p') = Some v.
Proof using Henv.
  intros Hp Hs He Hu Hv. destruct o as [o|o|th c s plan f|c t|c]; cbn [pexec psafe] in *.
  - apply guard_Some in He as [_ (w & He & [= <-])%bind_Some]. eapply exec_spares_view; [|done..].
    apply reachable_inv, Hp.
  - by injection He as <-.
  - apply bind_Some in He as (d & _ & [_ [_ [_ [_ [_ [= <-]]%guard_Some]%guard_Some]%guard_Some]%guard_Some]%guard_Some).
    done.
  - by apply step_call_inv in He as (k & a & _ & _ & ->).
  - apply fmap_Some in He as ([o p1] & He & ->). cbn [snd].
    destruct (end_call_ok env Henv c p o p1 Hp He) as (k & d & l & _ & _ & Hun & _ & _ & _ & _ & _ & ->).
    cbn [store]. by rewrite guard_deref_other.
Qed.

Lemma views_spared gs w w' vs :
  (forall g v, g ∈ gs -> guard_deref g w = Some v -> guard_deref g w' = Some v) ->
  views_of gs w = Some vs -> views_of gs w' = Some vs.
Proof.
  unfold views_of. revert vs. induction gs as [|g gs IH]; intros vs Hg; [done|]. cbn [mapM].
  intros (v & Hv & (l & Hl & [= <-])%bind_Some)%bind_Some.
  rewrite (Hg g v) by (done || by left). cbn [mbind option_bind].
  rewrite (IH l) by (done || (intros; apply Hg; [by right|done])). done.
Qed.

(** The calls in flight, with what they captured. *)
Record xinv (x : xmachine) : Prop := {
  xinv_program : pinv env (program x);
  xinv_captured c g : captured x !! c = Some g ->
    exists k vs, calls (program x) !! c = Some k /\ views_of (x_guards g) (store (program x)) = Some vs /\
      k_closure k = x_closure g vs;
  xinv_calls c k : calls (program x) !! c = Some k -> is_Some (captured x !! c)
}.

Lemma xinv_initial : xinv initial_xmachine.
Proof using. split; [apply pinv_initial|done|done]. Qed.

Lemma begin_capturing_inv th c s plan gs F x x' :
  begin_capturing av th c s plan gs F x = Some x' ->
  exists vs p, views_of gs (store (program x)) = Some vs /\
    forallb (fun g => may_capture th g (store (program x))) gs = true /\
    pexec av (PBegin th c s plan (F vs)) (program x) = Some p /\
    x' = mkXM p (<[c := mkCapture gs F]> (captured x)).
Proof using. intros [Hg (vs & Hvs & (p & Hp & [= <-])%bind_Some)%bind_Some]%guard_Some. by exists vs, p. Qed.

(** The operation of [Calls] behind one of this machine. *)
Definition plain_op (o : xop) (x : xmachine) : option pop :=
  match o with
  | XBase o => Some (PBase o)
  | XRegistry o => Some (PRegistry o)
  | XBegin th c s plan gs F => vs ← views_of gs (store (program x)); Some (PBegin th c s plan (F vs))
  | XStep c t => Some (PStep c t)
  | XEnd c => Some (PEnd c)
  end.

Lemma xexec_plain o x x' :
  xexec av o x = Some x' -> exists q, plain_op o x = Some q /\ pexec av q (program x) = Some (program x') /\
    psafe q = xsafe o.
Proof using.
  destruct o as [o|o|th c s plan gs F|c t|c]; cbn [xexec plain_op].
  - intros [_ (p & Hp & [= <-])%bind_Some]%guard_Some. by eexists.
  - intros (p & Hp & [= <-])%bind_Some. by eexists.
  - intros (vs & p & Hvs & _ & Hp & ->)%begin_capturing_inv. rewrite Hvs. by eexists.
  - intros (p & Hp & [= <-])%bind_Some. by eexists.
  - intros (p & Hp & [= <-])%bind_Some. by eexists.
Qed.

(** A guard that a call holds shows the same after any operation. *)
Lemma captured_spared o x x' c g vs :
  xinv x -> xsafe o = true -> xexec av o x = Some x' -> captured x !! c = Some g ->
  views_of (x_guards g) (store (program x)) = Some vs ->
  views_of (x_guards g) (store (program x')) = Some vs.
Proof using Henv.
  intros Hx Hs He Hg. destruct (xexec_plain o x x' He) as (q & Hq & Hp & Eq).
  apply views_spared. intros j v Hj. eapply pexec_spares_view; [apply Hx|by rewrite Eq|exact Hp|].
  destruct q as [q| | | |]; try done. destruct o; cbn in Hq; try done; [|by apply bind_Some in Hq as (? & _ & ?)].
  injection Hq as ->. apply guard_Some in He as [Hsp _]. specialize (Hsp c g Hg). cbn in Hsp.
  rewrite forallb_forall in Hsp. apply negb_true_iff, Hsp. by apply list_elem_of_In.
Qed.

Lemma xinv_xexec o x x' : xinv x -> xsafe o = true -> xexec av o x = Some x' -> xinv x'.
Proof using Henv.
  intros Hx Hs He. destruct (xexec_plain o x x' He) as (q & Hq & Hp & Eq).
  pose proof (pinv_pexec env Henv q _ _ ltac:(by rewrite Eq) (xinv_program x Hx) Hp) as Hp'.
  assert (forall c g vs, captured x !! c = Some g -> views_of (x_guards g) (store (program x)) = Some vs ->
    views_of (x_guards g) (store (program x')) = Some vs) as Hsame by (intros; by eapply captured_spared).
  destruct o as [o|o|th c s plan gs F|c t|c]; cbn [xexec] in He.
  - apply guard_Some in He as [_ (p & Hp1 & [= <-])%bind_Some]. cbn [program captured] in *.
    apply guard_Some in Hp1 as [_ (w & _ & [= <-])%bind_Some]. split; [done| |apply Hx].
    intros c g Hg. destruct (xinv_captured x Hx c g Hg) as (k & vs & Hk & Hvs & Ek). exists k, vs. by split_and!; eauto.
  - apply bind_Some in He as (p & [= <-] & [= <-]). split; [done|apply Hx|apply Hx].
  - apply begin_capturing_inv in He as (vs & p & Hvs & _ & Hp1 & ->). cbn [program captured] in *.
    apply bind_Some in Hp1 as (d & _ & [_ [_ [Hno [_ [_ [= <-]]%guard_Some]%guard_Some]%guard_Some]%guard_Some]%guard_Some).
    split; [done|..]; cbn [calls captured program store] in *.
    + intros c' g [[<- <-]|[Hne Hg]]%lookup_insert_Some.
      * rewrite lookup_insert_eq. by eexists _, vs.
      * rewrite lookup_insert_ne by done. by apply Hx.
    + intros c' k [[<- <-]|[Hne Hk]]%lookup_insert_Some; [by rewrite lookup_insert_eq; eexists|].
      rewrite lookup_insert_ne by done. by eapply Hx.
  - apply bind_Some in He as (p & Hp1 & [= <-]). cbn [program captured] in *.
    apply step_call_inv in Hp1 as (k & a & Hk & _ & ->). split; [done|..]; cbn [calls store captured program] in *.
    + intros c' g Hg. destruct (xinv_captured x Hx c' g Hg) as (k' & vs & Hk' & Hvs & Ek).
      destruct (decide (c' = c)) as [->|Hne].
      * rewrite lookup_insert_eq. assert (k' = k) as -> by congruence. by eexists _, vs.
      * rewrite lookup_insert_ne by done. by exists k', vs.
    + intros c' k' [[<- _]|[_ Hk']]%lookup_insert_Some; by eapply Hx.
  - apply bind_Some in He as (p & Hp1 & [= <-]). cbn [program captured] in *.
    apply fmap_Some in Hp1 as ([o p1] & Hp1 & ->). cbn [snd] in *.
    destruct (end_call_ok env Henv c _ o p1 (xinv_program x Hx) Hp1) as (k & d & l & _ & _ & _ & _ & _ & _ & _ & _ & ->).
    split; [done|..]; cbn [calls store captured program] in *.
    + intros c' g [Hne Hg]%lookup_delete_Some. rewrite lookup_delete_ne by done.
      destruct (xinv_captured x Hx c' g Hg) as (k' & vs & Hk' & Hvs & Ek). exists k', vs. by split_and!; eauto.
    + intros c' k' [Hne Hk']%lookup_delete_Some. rewrite lookup_delete_ne by done. by eapply Hx.
Qed.

Lemma xrun_cons o ops x : xrun av (o :: ops) x = xexec av o x ≫= xrun av ops.
Proof using.
  unfold xrun. cbn. destruct (xexec av o x) as [x1|]; [done|]. cbn.
  induction ops as [|o' ops IH]; [done|exact IH].
Qed.

(** ** Lemmas: the history *)

Lemma one_step e w w' : astep av e w w' -> ahistory av [e] w w'.
Proof using. intros He. eapply a_cons; [done|apply a_nil]. Qed.

Lemma one_step_inv e w w' : ahistory av [e] w w' -> astep av e w w'.
Proof using. intros Ha. inversion Ha as [|? ? ? w1 ? He Hl]; subst. by inversion Hl; subst. Qed.

Lemma xexec_atomic o x x' :
  xinv x -> xsafe o = true -> xexec av o x = Some x' ->
  rhistory av (xevent o x) (store (program x)) (store (program x')).
Proof using Henv.
  intros Hx Hs He. destruct (xexec_plain o x x' He) as (q & Hq & Hp & Eq).
  pose proof (pexec_atomic env Henv q _ _ ltac:(by rewrite Eq) (xinv_program x Hx) Hp) as Ha.
  destruct o as [o|o|th c s plan gs F|c t|c]; cbn [plain_op xevent] in *.
  - injection Hq as <-. apply one_step_inv in Ha. inversion Ha; subst.
    eapply rh_cons; [by apply r_base|apply rh_nil].
  - injection Hq as <-. inversion Ha; subst. apply rh_nil.
  - apply bind_Some in Hq as (vs & _ & [= <-]). inversion Ha; subst. apply rh_nil.
  - injection Hq as <-. inversion Ha; subst. apply rh_nil.
  - injection Hq as <-. cbn [pevent] in Ha.
    destruct (calls (program x) !! c) as [k|] eqn:Hk; [|inversion Ha; subst; apply rh_nil].
    destruct (xinv_calls x Hx c k Hk) as [g Hg]. rewrite Hg.
    destruct (xinv_captured x Hx c g Hg) as (k' & vs & Hk' & Hvs & Ek). assert (k' = k) as -> by congruence.
    destruct (end_path (k_path k)) as [[o v]|]; [|inversion Ha; subst; apply rh_nil].
    apply one_step_inv in Ha. rewrite Ek in Ha. eapply rh_cons; [by eapply r_call|apply rh_nil].
Qed.

Lemma rhistory_app l1 l2 w w1 w2 : rhistory av l1 w w1 -> rhistory av l2 w1 w2 -> rhistory av (l1 ++ l2) w w2.
Proof using. induction 1; [done|]. intros Hl. eapply rh_cons; [done|by apply IHrhistory]. Qed.

Lemma xrun_atomic ops x x' :
  forallb xsafe ops = true -> xinv x -> xrun av ops x = Some x' ->
  xinv x' /\ rhistory av (xhistory av ops x) (store (program x)) (store (program x')).
Proof using Henv.
  revert x. induction ops as [|o ops IH]; intros x Hs Hx Hr.
  { injection Hr as <-. split; [done|apply rh_nil]. }
  apply andb_true_iff in Hs as [Ho Hs]. rewrite xrun_cons in Hr. apply bind_Some in Hr as (x1 & H1 & Hr).
  destruct (IH x1 Hs) as [Hx' Ha]; [by eapply xinv_xexec|done|]. split; [done|]. cbn [xhistory].
  rewrite H1. eapply rhistory_app; [by apply xexec_atomic|done].
Qed.
End machine.

Definition xreachable `{BuildProfile, ProgramText} (env : call_env) (x : xmachine) : Prop :=
  exists ops, forallb xsafe ops = true /\ xrun (env_available env) ops initial_xmachine = Some x.

Lemma xreachable_inv `{BuildProfile, ProgramText} env x : CallEnv env -> xreachable env x -> xinv env x.
Proof. intros He (ops & Hs & Hr). by eapply (xrun_atomic env He ops) in Hr as [? _]; [|done|apply xinv_initial]. Qed.

(** ** Properties *)

(** What a task reads is what its call captured: at every moment of a call, on any
    threads and whatever the rest of the program has done, the guards its closure
    captured are live and show what they showed when the call began, so the
    closure is the one made from what they show now; nothing that would end, move,
    project or write through one of them, or end their brand, is accepted; and no
    operation that is accepted changes what they show. *)
Theorem captured_reads_constant `{BuildProfile, ProgramText} (env : call_env) (x : xmachine) (c : positive) (g : capture) :
  CallEnv env -> xreachable env x -> captured x !! c = Some g ->
  exists k vs, calls (program x) !! c = Some k /\
    views_of (x_guards g) (store (program x)) = Some vs /\ k_closure k = x_closure g vs /\
    (forall o j, j ∈ x_guards g -> uses_guard o j (store (program x)) = true ->
       xexec (env_available env) (XBase o) x = None) /\
    (forall o x', xsafe o = true -> xexec (env_available env) o x = Some x' ->
       views_of (x_guards g) (store (program x')) = Some vs).
Proof.
  intros He Hr Hg. pose proof (xreachable_inv env x He Hr) as Hx.
  destruct (xinv_captured env x Hx c g Hg) as (k & vs & Hk & Hvs & Ek). exists k, vs.
  do 3 (split; [done|]). split.
  - intros o j Hj Hu. cbn [xexec]. apply guard_None. intros Hsp. specialize (Hsp c g Hg). cbn in Hsp.
    rewrite forallb_forall in Hsp. apply list_elem_of_In in Hj. specialize (Hsp j Hj). by rewrite Hu in Hsp.
  - intros o x' Hs Hex. by eapply captured_spared.
Qed.

(** C4: Calls whose tasks read are atomic: every run, with any number of calls in
    flight that capture guards on other cells, leads to the tokens, borrows and
    cells of the history in which each call happens at once, when it ends, as
    [partition_map_with] of its closure made from what its guards show at that
    moment; and the token machine reaches them by itself. *)
Theorem reading_calls_linearize `{BuildProfile, ProgramText} (env : call_env) (ops : list xop) (x : xmachine) :
  CallEnv env -> forallb xsafe ops = true -> xrun (env_available env) ops initial_xmachine = Some x ->
  rhistory (env_available env) (xhistory (env_available env) ops initial_xmachine) initial_world (store (program x)) /\
  reachable (store (program x)).
Proof.
  intros He Hs Hr. destruct (xrun_atomic env He ops _ x Hs (xinv_initial env) Hr) as [Hx Ha].
  split; [exact Ha|apply Hx].
Qed.

(** A table is borrowed and captured; each task writes the table's entry for its
    start into its shard.  Beside the call the permit ends and another guard comes
    and goes. *)
Definition from_table (vs : list (list Z)) (start len : Z) : closure Z Z :=
  Closure.CSet 0 (default 0 (zget (concat vs) start)) (fun _ => CRet len).
Definition table_call : list xop :=
  [XBase (WithFreshToken ExclusiveFamily 1); XBase (NewCell 1 1 u32_parts [7; 8; 9]);
   XBase (NewCell 1 1 u32_parts [4; 5; 6]); XBase (Share 1 1); XBase (CellBorrow 4 2);
   XBegin 1 3 (Slice 0 3) (chunk_size 2) [5%positive] from_table;
   XStep 3 None; XBase (CellBorrow 4 2); XStep 3 None; XBase (EndBorrow 4); XStep 3 (Some 0%nat); XStep 3 None].
Definition table_end : list xop :=
  [XStep 3 None; XBase (EndBorrow 6); XStep 3 None; XStep 3 None; XStep 3 None; XEnd 3; XBase (EndBorrow 5)].

Definition table_in_flight : xmachine :=
  match @xrun debug_profile _ None table_call initial_xmachine with Some x => x | None => initial_xmachine end.

Lemma captured_reads_constant_witness :
  views_of [5%positive] (store (program table_in_flight)) = Some [[7; 8; 9]] /\
  @xexec debug_profile _ None (XBase (EndBorrow 5)) table_in_flight = None /\
  @xexec debug_profile _ None (XBase (ScopeEnd 1)) table_in_flight = None.
Proof.
  destruct (@captured_reads_constant debug_profile _ scoped_env table_in_flight 3 (mkCapture [5%positive] from_table)
    scoped_env_ok ltac:(exists table_call; split; vm_compute; reflexivity) ltac:(vm_compute; reflexivity))
    as (k & vs & _ & Hvs & _ & Hno & _).
  split; [vm_compute; reflexivity|].
  split; eapply Hno; [by left|vm_compute; reflexivity|by left|vm_compute; reflexivity].
Defined.

Lemma reading_calls_linearize_witness :
  exists x, @xrun debug_profile _ None (table_call ++ table_end) initial_xmachine = Some x /\
    c_value <$> cells (store (program x)) !! 3%positive = Some [7; 5; 9] /\
    In (RCall 3 (Slice 0 3) (chunk_size 2) [5%positive] from_table (Ret [2; 1]))
      (@xhistory debug_profile _ None (table_call ++ table_end) initial_xmachine) /\
    reachable (store (program x)).
Proof.
  destruct (@xrun debug_profile _ None (table_call ++ table_end) initial_xmachine) as [x|] eqn:E;
    [|vm_compute in E; discriminate].
  exists x. split; [reflexivity|].
  pose proof (proj2 (@reading_calls_linearize debug_profile _ scoped_env (table_call ++ table_end) x
    scoped_env_ok ltac:(vm_compute; reflexivity) E)) as Hr.
  vm_compute in E. injection E as <-. split; [reflexivity|]. split; [|exact Hr].
  vm_compute. repeat (left; reflexivity) || right. 
Defined.
