(* ===== verification/CollectionPartition.v ===== *)
(** * The collections' partition methods ([src/collections/branded_vec/partition.rs],
    [src/collections/deque/partition.rs])

    The methods of the branded vector and the branded deque that run a closure
    per shard in parallel: the drivers over the vector's buffer, and over the two
    segments [as_slices] gives of the deque's ring.  Main results: each leaves
    the collection's elements as if the closure had processed the shards one
    after the other, wherever the ring's head is. *)
From S2P Require Import Prelude Region Plan Closure Executor Driver Shards PartitionMap Cow BrandedVec BrandedDeque DequePartition.
From stdpp Require Import base numbers list.
Local Open Scope Z_scope.

(** ** Code *)

Section vec.
Context `{BuildProfile, ProgramText} (env : call_env) {T St R : Type}.
Implicit Types f : Z -> Z -> closure T R.

(** A driver over the vector's buffer. *)
Definition on_cells {A} (driver : slice -> M (list T) A) : M (store T St) A := fun s =>
  let '(o, l) := driver (Slice 0 (BrandedVec.len s)) (elems s) in (o, set_cells l s).

Definition vec_partition_for_each_mut_with (plan : PartitionPlan) f : M (store T St) unit :=
  on_cells (fun cells => partition_for_each_with env cells plan f).

Definition vec_partition_map_mut_with (plan : PartitionPlan) f : M (store T St) (list R) :=
  on_cells (fun cells => partition_map_with env cells plan f).

Definition vec_partition_map_with {CS} (plan : PartitionPlan) (g : Z -> list T -> M CS R)
    (s : store T St) : M CS (list R) :=
  partition_read_map_with env (as_slice s) plan g.

Definition vec_partition_for_each_with {CS} (plan : PartitionPlan) (g : Z -> list T -> M CS R)
    (s : store T St) : M CS unit :=
  partition_read_for_each_with env (as_slice s) plan g.
End vec.

Section deque.
Context `{BuildProfile, ProgramText} (env : call_env) {T : Type} (junk : Z -> T) {St R : Type}.

(** A driver over the two segments of the deque's buffer. *)
Definition on_segments {A}
    (driver : slice -> slice -> list T -> option (outcome A * list T)) (d : dstore T St)
    : option (outcome A * dstore T St) :=
  let '(s1, s2) := as_mut_slices d in
  match driver s1 s2 (memory junk d) with
  | Some (o, m) => Some (o, mkDstore (set_cells (contents m s1 ++ contents m s2) (inner d)) (BrandedDeque.head d))
  | None => None
  end.

Definition partition_map_mut_with fuel (plan : PartitionPlan) (f : Z -> Z -> closure T R)
    : dstore T St -> option (outcome (list R) * dstore T St) :=
  on_segments (fun s1 s2 => deque_partition_map_mut_with env fuel s1 s2 plan f).

Definition partition_for_each_mut_with fuel (plan : PartitionPlan) (f : Z -> Z -> closure T R)
    : dstore T St -> option (outcome unit * dstore T St) :=
  on_segments (fun s1 s2 => deque_partition_for_each_mut_with env fuel s1 s2 plan f).

(** The read methods, on what the two slices show. *)
Definition deque_map_with {CS} fuel (plan : PartitionPlan) (g : Z -> list T -> M CS R)
    (d : dstore T St) : CS -> option (outcome (list R) * CS) :=
  let '(s1, s2) := as_slices d in
  deque_partition_map_with env fuel (contents (memory junk d) s1) (contents (memory junk d) s2) plan g.

Definition deque_for_each_with {CS} fuel (plan : PartitionPlan) (g : Z -> list T -> M CS R)
    (d : dstore T St) : CS -> option (outcome unit * CS) :=
  let '(s1, s2) := as_slices d in
  deque_partition_for_each_with env fuel (contents (memory junk d) s1) (contents (memory junk d) s2) plan g.
End deque.

(** ** Specification *)

(** A closure run alone on [n] elements of [l] from [st] on. *)
Definition alone {T R} (f : Z -> Z -> closure T R) (l : list T) (st n : Z) : outcome R * list T :=
  eval_closure (f st n) (subrange st n l).

(** The outcome of a driver that runs [runs] in order. *)
Definition driven {R} (o : outcome (list R)) (runs : list (outcome R)) : Prop :=
  match o with
  | Ret rs => runs = Ret <$> rs
  | Panic q => Panic q ∈ runs
  | UB => False
  end.

(** The tiles of a vector. *)
Definition vec_tiles (env : call_env) (n : Z) (plan : PartitionPlan) : list (Z * Z) :=
  let c := plan_chunk (env_available env) plan n in
  (fun i => (i * c, Z.min c (n - i * c))) <$> zseq (tile_count n c).

(** The shards of a deque. *)
Definition ring_shards (env : call_env) {T St} (d : dstore T St) (plan : PartitionPlan) : list (Z * Z) :=
  let '(s1, s2) := as_slices d in
  (fun s => (start s, len s)) <$> deque_shards (env_available env) (s_len s1) (s_len s2) plan.

(** ** Lemmas *)

(** Where a shard is, and what it shows of the elements. *)
Lemma shard_shows {T} (m : list T) (f b : slice) (s : DequeShard) :
  0 <= s_base f -> 0 <= s_len f -> s_base f + s_len f <= zlen m ->
  0 <= s_base b -> 0 <= s_len b -> s_base b + s_len b <= zlen m ->
  placed (s_len f) (s_len f + s_len b) s ->
  Shard.as_slice m (mkShard (shard_slice f b s)) =
  subrange (start s) (len s) (contents m f ++ contents m b).
Proof.
  intros Hbf Hlf Hmf Hbb Hlb Hmb [Hl Hp]. unfold Shard.as_slice, contents. cbn [Region.cells shard_slice s_base s_len].
  assert (Hzf : zlen (subrange (s_base f) (s_len f) m) = s_len f) by (apply zlen_subrange; lia).
  assert (Hzb : zlen (subrange (s_base b) (s_len b) m) = s_len b) by (apply zlen_subrange; lia).
  destruct (segment s); destruct Hp as (? & Ho & ?);
    (apply zlist_eq; [rewrite !zlen_subrange; rewrite ?zlen_app; lia|]);
    intros i Hi; rewrite zlen_subrange in Hi by lia; rewrite !zget_subrange by lia.
  - rewrite zget_app_l by lia. rewrite zget_subrange by lia. f_equal. lia.
  - rewrite zget_app_r by lia. rewrite Hzf, zget_subrange by lia. f_equal. lia.
Qed.

Lemma driven_Forall2 {A R} (l : list A) (res : A -> outcome R) rs :
  Forall2 (fun a r => res a = Ret r) l rs -> res <$> l = Ret <$> rs.
Proof. induction 1 as [|a r l rs Ha _ IH]; [done|]. cbn. by rewrite Ha, IH. Qed.

Lemma omap_values {A R} (l : list A) (res : A -> outcome R) :
  (forall a, a ∈ l -> exists v, res a = Ret v) ->
  res <$> l = Ret <$> omap (fun a => ret_value (res a)) l.
Proof.
  induction l as [|a l IH]; intros Hv; [done|].
  destruct (Hv a) as [v Ha]; [by left|]. cbn. rewrite Ha. cbn. f_equal. apply IH.
  intros x Hx. apply Hv. by right.
Qed.

Lemma zlen_concat_ext {A B} (g h : A -> list B) (l : list A) :
  (forall a, a ∈ l -> zlen (g a) = zlen (h a)) -> zlen (concat (g <$> l)) = zlen (concat (h <$> l)).
Proof.
  induction l as [|a l IH]; intros Hz; [done|]. cbn. rewrite !zlen_app. f_equal; [apply Hz; by left|].
  apply IH. intros x Hx. apply Hz. by right.
Qed.

Lemma splice_whole {A} (mid l : list A) : zlen mid = zlen l -> splice 0 mid l = mid.
Proof.
  unfold zlen, splice. intros Hz. cbn. rewrite drop_ge by lia. by rewrite app_nil_r.
Qed.

Section vec.
Context `{BuildProfile, ProgramText} (env : call_env) `{!CallEnv env} {T R : Type}.

(** The tiles, each processed alone, fill the vector again. *)
Lemma zlen_vec_tiles (f : Z -> Z -> closure T R) (plan : PartitionPlan) (l : list T) :
  zlen l <= isize_max -> plan_ok plan ->
  zlen (concat ((fun t : Z * Z => snd (alone f l t.1 t.2)) <$> vec_tiles env (zlen l) plan)) = zlen l.
Proof using.
  intros Hl Hp. pose proof (zlen_nonneg l) as H0'.
  set (p := plan_view env (Slice 0 (zlen l)) plan).
  assert (Hpar : par_ok p) by (apply plan_view_ok; [split; cbn; lia|done]).
  transitivity (zlen (concat (Shard.as_slice l <$> tiles p)));
    [|rewrite concat_tiles by done; cbn; by rewrite subrange_all].
  unfold tiles, vec_tiles. rewrite <- !list_fmap_compose. apply zlen_concat_ext. intros i Hi%elem_of_zseq.
  unfold compose. assert (Hin : shard_in (zlen l) (tile p i)) by (apply tile_shard_in; [done|cbn; lia|done]).
  rewrite zlen_as_slice by done. apply (zlen_tile_eval f p l Hpar); [cbn; lia|done].
Qed.

Lemma vec_region (f : Z -> Z -> closure T R) (plan : PartitionPlan) (l : list T) :
  zlen l <= isize_max -> plan_ok plan ->
  exists o, partition_map_with env (Slice 0 (zlen l)) plan f l =
      (o, concat ((fun t : Z * Z => snd (alone f l t.1 t.2)) <$> vec_tiles env (zlen l) plan)) /\
    driven o ((fun t : Z * Z => fst (alone f l t.1 t.2)) <$> vec_tiles env (zlen l) plan).
Proof using CallEnv0.
  intros Hl Hp. pose proof (zlen_nonneg l) as H0'.
  assert (Hs : slice_ok (Slice 0 (zlen l))) by (split; cbn; lia).
  destruct (partition_map_with_outcome env (Slice 0 (zlen l)) plan f l Hs Hp) as (o & -> & Ho); [cbn; lia|].
  exists o. cbv zeta in Ho. pose proof (zlen_vec_tiles f plan l Hl Hp) as Hz. unfold vec_tiles in *.
  cbn [par_len plan_view s_base s_len par_chunk par_base] in Ho.
  set (c := plan_chunk _ plan (zlen l)) in *.
  rewrite <- !list_fmap_compose in *. unfold compose in *; cbn [fst snd] in *. split.
  - f_equal. by apply splice_whole.
  - destruct o as [rs|q|]; cbn; [|destruct Ho as (i & Hi & Hq)|done].
    + destruct Ho as [-> Hv]. apply omap_values. intros i Hi%elem_of_zseq. by apply Hv.
    + apply list_elem_of_fmap. exists i. split; [by rewrite <- Hq|by apply elem_of_zseq].
Qed.
End vec.

Section ring.
Context {A : Allocator} `{BuildProfile, ProgramText} (env : call_env) `{!CallEnv env}
  {T St R : Type} (junk : Z -> T).
Implicit Types d : dstore T St.

Lemma slices_segments d s1 s2 :
  dwf d -> as_slices d = (s1, s2) -> segments_ok s1 s2 (memory junk d).
Proof using.
  intros Hd E. destruct (as_slices_ok junk d Hd) as (t1 & t2 & E' & H1 & H2 & H3 & H4 & H5 & H6 & H7 & _).
  rewrite E in E'. injection E' as <- <-. pose proof Hd as [Hw Hh].
  assert (Hc : 0 <= cap d) by (pose proof (zlen_nonneg (items d)); vlia).
  unfold segments_ok. rewrite zlen_memory by done. split_and!; try lia.
  intros i. unfold in_slice. lia.
Qed.

(** What [map_mut] leaves in the two segments. *)
Lemma segments_after (f b : slice) (m : list T) (plan : PartitionPlan) (g : Z -> Z -> closure T R) :
  segments_ok f b m -> plan_fits (env_available env) (s_len f) (s_len b) plan ->
  let shards := deque_shards (env_available env) (s_len f) (s_len b) plan in
  let l := contents m f ++ contents m b in
  let m' := deque_after shards f b g m in
  contents m' f ++ contents m' b = concat ((fun s => snd (alone g l (start s) (len s))) <$> shards) /\
  Forall (fun s => shard_alone f b g m s = alone g l (start s) (len s)) shards.
Proof using H.
  intros Hseg Hfit shards l m'. pose proof Hseg as (Hbf & Hlf & Hmf & Hbb & Hlb & Hmb & Hdis).
  destruct (deque_after_facts env f b plan g m Hseg Hfit) as (Hz & Hs & _).
  fold shards in Hz, Hs. fold m' in Hz, Hs.
  pose proof (deque_shards_cover _ _ _ _ Hfit) as Hcov. fold shards in Hcov.
  assert (Hplaced : Forall (placed (s_len f) (s_len f + s_len b)) shards).
  { apply Forall_forall. intros s [i Hi]%list_elem_of_lookup. by eapply cover_lookup. }
  assert (Halone : Forall (fun s => shard_alone f b g m s = alone g l (start s) (len s)) shards).
  { eapply Forall_impl; [exact Hplaced|]. intros s Hp. unfold shard_alone, alone.
    by rewrite shard_shows. }
  split; [|exact Halone].
  assert (Hl' : zlen (contents m' f ++ contents m' b) = s_len f + s_len b).
  { unfold contents. rewrite zlen_app, !zlen_subrange; lia. }
  pose proof (cover_concat (s_len f) (contents m' f ++ contents m' b) 0 shards) as Hc.
  rewrite Hl', Z.sub_0_r, <- Hl', subrange_all in Hc. rewrite Hl' in Hc.
  rewrite <- Hc by done. f_equal. apply list_fmap_ext. intros i s Hi%list_elem_of_lookup_2.
  pose proof (proj1 (Forall_forall _ _) Hs s Hi) as H1.
  pose proof (proj1 (Forall_forall _ _) Halone s Hi) as H2.
  pose proof (proj1 (Forall_forall _ _) Hplaced s Hi) as H3.
  cbn in H1. rewrite <- H2, <- H1. symmetry. apply shard_shows; lia || done.
Qed.

Lemma ring_region (f : Z -> Z -> closure T R) (plan : PartitionPlan) d s1 s2 fuel :
  dwf d -> as_slices d = (s1, s2) -> plan_fits (env_available env) (s_len s1) (s_len s2) plan ->
  (Z.to_nat (tile_count (dlen d) (plan_chunk (env_available env) plan (dlen d))) <= fuel)%nat ->
  exists o, partition_map_mut_with env junk fuel plan f d =
      Some (o, mkDstore (set_cells (concat ((fun t : Z * Z => snd (alone f (items d) t.1 t.2)) <$>
                 ring_shards env d plan)) (inner d)) (BrandedDeque.head d)) /\
    driven o ((fun t : Z * Z => fst (alone f (items d) t.1 t.2)) <$> ring_shards env d plan).
Proof using CallEnv0.
  intros Hd E Hfit Hfuel. pose proof (slices_segments d s1 s2 Hd E) as Hseg.
  destruct (slices_join junk d Hd) as (t1 & t2 & E' & _ & Hlen & Hj & _). rewrite E in E'.
  injection E' as <- <-. rewrite <- Hlen in Hfuel.
  unfold partition_map_mut_with, on_segments, as_mut_slices, deque_partition_map_mut_with, planned.
  unfold ring_shards. rewrite E. rewrite from_lengths_ok by done.
  destruct (map_mut_outcome env s1 s2 plan f (memory junk d) Hseg Hfit) as (o & Ho & Hres).
  destruct (segments_after s1 s2 (memory junk d) plan f Hseg Hfit) as [Ha Hb]. rewrite Hj in Ha, Hb.
  set (shards := deque_shards _ _ _ plan) in *. rewrite Ho, Ha. exists o.
  rewrite <- !list_fmap_compose. unfold compose; cbn [fst snd]. split; [done|].
  assert (Hfst : (fun s => fst (alone f (items d) (start s) (len s))) <$> shards =
                 (fun s => fst (shard_alone s1 s2 f (memory junk d) s)) <$> shards).
  { apply list_fmap_ext. intros i s Hi%list_elem_of_lookup_2.
    by rewrite (proj1 (Forall_forall _ _) Hb s Hi). }
  rewrite Hfst. destruct o as [rs|q|]; cbn; [|destruct Hres as (i & Hi & Hq)|done].
  - destruct Hres as [-> Hv]. apply driven_Forall2, (returned_results shards). exact Hv.
  - apply list_elem_of_fmap. exists (shard_at shards i). split; [done|].
    by eapply list_elem_of_lookup_2, shard_at_lookup.
Qed.
End ring.

(** ** Properties *)

(** Partitioning a branded vector: for every plan, executor and schedule, the
    mutable methods leave in the vector the tiles as the closure leaves each of
    them alone, one after the other, with the same length, capacity and
    ownership; the outcome is the tiles' results in order, or the payload of one
    of their panics; it never aliases and no arithmetic fails. *)
Theorem vec_partition_elements `{BuildProfile, ProgramText} (env : call_env) {T St R}
    (plan : PartitionPlan) (f : Z -> Z -> closure T R) (s : store T St) :
  CallEnv env -> BrandedVec.len s <= isize_max -> plan_ok plan ->
  let tiles := vec_tiles env (BrandedVec.len s) plan in
  let s' := set_cells (concat ((fun t : Z * Z => snd (alone f (elems s) t.1 t.2)) <$> tiles)) s in
  exists o, vec_partition_map_mut_with env plan f s = (o, s') /\
    driven o ((fun t : Z * Z => fst (alone f (elems s) t.1 t.2)) <$> tiles) /\
    vec_partition_for_each_mut_with env plan f s = (_ ← o; Ret tt, s') /\
    BrandedVec.len s' = BrandedVec.len s.
Proof.
  intros He Hl Hp tiles s'. destruct (vec_region env f plan (elems s) Hl Hp) as (o & Ho & Hd).
  exists o. unfold vec_partition_map_mut_with, vec_partition_for_each_mut_with, on_cells.
  unfold partition_for_each_with. rewrite M_bind_eq. unfold BrandedVec.len. rewrite Ho.
  split_and!; [done|done|by destruct o|by apply zlen_vec_tiles].
Qed.

(** C26: Partitioning a branded deque: wherever its ring starts, for every plan,
    executor and schedule, the mutable methods leave in the deque its shards'
    elements as the closure leaves each shard alone, front to back, in the same
    buffer and ring; the outcome is the shards' results in order, or the payload
    of one of their panics. *)
Theorem deque_partition_elements {A : Allocator} `{BuildProfile, ProgramText} (env : call_env)
    {T St R} (junk : Z -> T) (plan : PartitionPlan) (f : Z -> Z -> closure T R)
    (d : dstore T St) (s1 s2 : slice) (fuel : nat) :
  CallEnv env -> dwf d -> as_slices d = (s1, s2) -> plan_fits (env_available env) (s_len s1) (s_len s2) plan ->
  (Z.to_nat (tile_count (dlen d) (plan_chunk (env_available env) plan (dlen d))) <= fuel)%nat ->
  let shards := ring_shards env d plan in
  let d' := mkDstore (set_cells (concat ((fun t : Z * Z => snd (alone f (items d) t.1 t.2)) <$> shards))
              (inner d)) (BrandedDeque.head d) in
  exists o, partition_map_mut_with env junk fuel plan f d = Some (o, d') /\
    driven o ((fun t : Z * Z => fst (alone f (items d) t.1 t.2)) <$> shards) /\
    partition_for_each_mut_with env junk fuel plan f d = Some (_ ← o; Ret tt, d').
Proof.
  intros He Hd E Hfit Hfuel shards d'.
  destruct (ring_region env junk f plan d s1 s2 fuel Hd E Hfit Hfuel) as (o & Ho & Hdr).
  exists o. split; [exact Ho|]. split; [exact Hdr|].
  revert Ho. unfold partition_map_mut_with, partition_for_each_mut_with, on_segments, as_mut_slices.
  rewrite E. unfold deque_partition_map_mut_with, deque_partition_for_each_mut_with, planned.
  destruct (from_lengths _ _ _ _ _) as [[shs|p|]|]; [| | |done]; unfold for_each_mut; rewrite ?M_bind_eq.
  - destruct (map_mut _ _ _ _ _ _) as [o' m']. intros [= -> Hd']. subst d'. unfold shards.
    destruct o; cbn; by rewrite Hd'.
  - intros [= <- Hd']. subst d'. unfold shards. cbn. by rewrite Hd'.
  - intros [= <- Hd']. subst d'. unfold shards. cbn. by rewrite Hd'.
Qed.

Lemma vec_partition_elements_witness :
  exists o s', @vec_partition_map_mut_with debug_profile _ scoped_env _ _ _ (chunk_size 2) tag_start three = (o, s') /\
    driven o [Ret 2; Ret 1] /\ elems s' = [0; 20; 2].
Proof.
  destruct (@vec_partition_elements debug_profile _ scoped_env _ _ _ (chunk_size 2) tag_start three
    scoped_env_ok) as (o & Ho & Hd & _); [vm_compute; discriminate..|].
  eexists o, _. split; [exact Ho|]. split; [exact Hd|reflexivity].
Defined.

Lemma deque_partition_elements_witness :
  exists o d', @partition_map_mut_with debug_profile _ registered_env _ Z.opp _ _ 2 (chunk_size 2) tag_start
      wrapped = Some (o, d') /\
    driven o [Ret 2; Ret 1] /\ items d' = [0; 20; 2] /\ BrandedDeque.head d' = 2.
Proof.
  destruct (@deque_partition_elements _ debug_profile _ registered_env _ _ _ Z.opp (chunk_size 2) tag_start
    wrapped (Slice 2 2) (Slice 0 1) 2 registered_env_ok wrapped_ok eq_refl) as (o & Ho & Hd & _).
  - repeat split; vm_compute; discriminate.
  - vm_compute. lia.
  - eexists o, _. split; [exact Ho|]. split; [exact Hd|split; reflexivity].
Defined.
