(* ===== verification/Format.v ===== *)
(** * Texts: the [Debug] and [Display] implementations

    What [{:?}] and [{}] print of the library's types, with the standard builders
    ([debug_struct], [debug_tuple]) written out for the one-line form.  A cell is
    formatted without a permit, so its text must not show its contents; a guard
    shows the value it opens.

    Main result: whatever is printed without a permit is a function of lengths,
    flags and sizes alone, with [BrandedAtomic] the exception; the counts printed
    are those of the partitions. *)
From S2P Require Import Prelude AutoTraits Region Plan Token Reentrant BrandedVec.
From stdpp Require Import base list strings pretty.
Local Open Scope string_scope.

(** ** The builders *)

Definition field (name text : string) : string := name +:+ ": " +:+ text.

(** [DebugStruct::finish] *)
Definition debug_struct (name : string) (fields : list string) : string :=
  match fields with
  | [] => name
  | _ => name +:+ " { " +:+ String.concat ", " fields +:+ " }"
  end.

(** [DebugStruct::finish_non_exhaustive] *)
Definition debug_struct_non_exhaustive (name : string) (fields : list string) : string :=
  debug_struct name (fields ++ [".."])%list.

(** [DebugTuple] with one field, and [DebugList]. *)
Definition debug_tuple (name text : string) : string := name +:+ "(" +:+ text +:+ ")".
Definition debug_list (texts : list string) : string := "[" +:+ String.concat ", " texts +:+ "]".

Definition fmt_bool (b : bool) : string := if b then "true" else "false".

(** [Cell<bool>] shows what it holds, [UnsafeCell] does not. *)
Definition fmt_std_cell (text : string) : string := debug_struct "Cell" [field "value" text].
Definition fmt_unsafe_cell : string := debug_struct_non_exhaustive "UnsafeCell" [].

(** ** The types of the library *)

Section payload.
Context {T : Type} (fmt_T : T -> string).

(** [MelinoeCell] *)
Definition fmt_cell (contents : T) : string := debug_struct_non_exhaustive "MelinoeCell" [].

(** [MelinoeRef], [MelinoeMut]: the value behind the guard. *)
Definition fmt_guard (value : T) : string := fmt_T value.

(** [BrandedAtomic]: the standard atomic's text is that of its value. *)
Definition fmt_branded_atomic (value : T) : string := debug_tuple "BrandedAtomic" (fmt_T value).

(** [#[derive(Debug)]] of the collections. *)
Definition fmt_branded_vec (cells : list T) : string :=
  debug_struct "BrandedVec" [field "cells" (debug_list (fmt_cell <$> cells))].
Definition fmt_branded_deque (cells : list T) : string :=
  debug_struct "BrandedVecDeque" [field "cells" (debug_list (fmt_cell <$> cells))].

(** [#[derive(Debug)]] of the gates. *)
Definition fmt_guarded_cell (active : bool) (value : T) : string :=
  debug_struct "GuardedCell" [field "active" (fmt_std_cell (fmt_bool active)); field "value" fmt_unsafe_cell].
End payload.

Definition fmt_reentrancy_cell (active : bool) : string :=
  debug_struct "ReentrancyCell" [field "active" (fmt_std_cell (fmt_bool active))].

(** The tokens: their family's text. *)
Definition fmt_token (f : family) : string :=
  match f with
  | ExclusiveFamily => "ExclusiveToken<'brand>"
  | SyncRegionFamily => "SyncRegionToken<'brand>"
  | ThreadLocalFamily => "ThreadLocalToken<'brand>"
  end.
Definition fmt_shared_read_token : string := "SharedReadToken<'a, 'brand>".

(** [Display] of [Reentered], and its derived [Debug]. *)
Definition display_reentered (e : Reentered) : string :=
  "re-entrant ReentrancyCell::enter (gate already held on this thread)".
Definition fmt_reentered (e : Reentered) : string := debug_struct "Reentered" [].

(** The regions: never their cells. *)
Definition fmt_shard (w : WriterShard) : string :=
  debug_struct_non_exhaustive "WriterShard" [field "len" (pretty (Shard.len w))].
Definition fmt_chunks (c : ShardChunks) : string :=
  debug_struct "ShardChunks"
    [field "remaining" (pretty (Chunks.remaining c)); field "chunk" (pretty (chunk c))].
Definition fmt_par_chunks `{BuildProfile} (p : ParChunks) : outcome string :=
  n ← Par.len p;
  Ret (debug_struct "ParChunks"
    [field "len" (pretty (par_len p)); field "chunk" (pretty (par_chunk p)); field "partitions" (pretty n)]).

(** [#[derive(Debug)]] of the plan. *)
Definition fmt_plan (p : PartitionPlan) : string :=
  match p with
  | Parts n => debug_tuple "Parts" (pretty n)
  | AvailableParallelism => "AvailableParallelism"
  | ChunkSize n => debug_tuple "ChunkSize" (pretty n)
  end.

Example fmt_shard_text : fmt_shard (mkShard (Slice 4 3)) = "WriterShard { len: 3, .. }".
Proof. reflexivity. Qed.
Example fmt_vec_text :
  fmt_branded_vec [true; false] = "BrandedVec { cells: [MelinoeCell { .. }, MelinoeCell { .. }] }".
Proof. reflexivity. Qed.

(** ** Properties *)

(** Formatting without a permit shows no contents: two vectors, deques, cells or
    guarded cells that differ in their contents only have the same text; and the
    [partitions] of a [ParChunks], which is computed without overflow, is the
    number of its shards. *)
Theorem debug_shows_no_contents `{BuildProfile} {T} (l l' : list T) (x y : T) (active : bool)
    (p : ParChunks) :
  length l = length l' -> par_ok p ->
  fmt_cell x = fmt_cell y /\ fmt_branded_vec l = fmt_branded_vec l' /\
  fmt_branded_deque l = fmt_branded_deque l' /\ fmt_guarded_cell active x = fmt_guarded_cell active y /\
  fmt_par_chunks p = Ret (debug_struct "ParChunks" [field "len" (pretty (par_len p));
    field "chunk" (pretty (par_chunk p)); field "partitions" (pretty (zlen (tiles p)))]).
Proof.
  intros Hl Hp. assert (fmt_cell <$> l = fmt_cell <$> l') as E.
  { revert l' Hl. induction l as [|a l IH]; intros [|b l'] Hl; try done. injection Hl as Hl.
    cbn. by rewrite (IH l'). }
  unfold fmt_branded_vec, fmt_branded_deque. rewrite E. do 4 (split; [done|]).
  destruct Hp as (Hb & Hlen & Hc). unfold fmt_par_chunks, Par.len.
  rewrite partition_count_ok by (unfold is_usize; ulia || lia). cbn [mbind outcome_bind].
  replace (zlen (tiles p)) with (tile_count (par_len p) (par_chunk p)); [done|].
  unfold tiles. rewrite zlen_fmap, zlen_zseq; [done|]. apply tile_count_bounds; lia.
Qed.

Lemma debug_shows_no_contents_witness :
  fmt_branded_vec [1; 2] = fmt_branded_vec [3; 4] /\
  fmt_par_chunks (H := debug_profile) (mkPar 0 7 3)
    = Ret "ParChunks { len: 7, chunk: 3, partitions: 3 }".
Proof.
  destruct (debug_shows_no_contents (H := debug_profile) [1; 2] [3; 4] 1 3 false (mkPar 0 7 3))
    as (_ & Hv & _ & _ & Hp).
  - reflexivity.
  - vm_compute. intuition congruence.
  - split; [exact Hv|exact Hp].
Defined.
