(* ===== verification/UnitTests.v ===== *)
(** * The unit tests inside the modules

    Three modules of the library carry tests of their own private parts:
    [src/atomic/order.rs], [src/region/par_chunks.rs] and
    [src/sync/scoped/partition/driver_core.rs].  Here they are programs over the
    definitions of the other files, each ending in the list of its assertions; the
    theorems say that every assertion holds, for the third test with any payloads
    in place of the test's strings. *)
From S2P Require Import Prelude Region Atomic Driver.
From stdpp Require Import base numbers list.
Local Open Scope Z_scope.

(** An assertion that can be evaluated. *)
Definition assert_eq {A} `{EqDecision A} (x y : A) : bool := bool_decide (x = y).

(** [order.rs] *)
Definition ordering_sources_preserve_runtime_and_policy_roles : list bool :=
  [assert_eq (load_order Ordering.Relaxed) Ordering.Relaxed;
   assert_eq (store_order Ordering.Acquire) Ordering.Acquire;
   assert_eq (rmw_order Ordering.Release) Ordering.Release;
   assert_eq (failure_order Ordering.AcqRel) Ordering.AcqRel;
   assert_eq (load_order mkRelaxed) Ordering.Relaxed;
   assert_eq (store_order mkAcqRel) Ordering.Release;
   assert_eq (rmw_order mkAcqRel) Ordering.AcqRel;
   assert_eq (failure_order mkAcqRel) Ordering.Acquire;
   assert_eq (failure_order mkSeqCst) Ordering.SeqCst].

(** [ExactSizeIterator::len]: the lower bound of [size_hint], which is exact. *)
Definition exact_len (hint : outcome (Z * option Z)) : outcome Z :=
  h ← hint; if decide (snd h = Some (fst h)) then Ret (fst h) else Panic AssertPanic.

(** [par_chunks.rs]: forty cells, every prefix, eleven chunk sizes. *)
Definition par_chunks_len_matches_shard_chunks_len `{BuildProfile} : list bool :=
  concat ((fun len =>
    (fun chunk =>
       let cells := Slice 0 len in
       assert_eq (Par.len (Par.new cells (1 + chunk))) (exact_len (Chunks.size_hint (Shard.chunks (mkShard cells) (1 + chunk)))))
    <$> zseq 11) <$> zseq 41).

(** [driver_core.rs]: a holder of the mutex that writes and unwinds; what
    [catch_unwind] returns is the payload. *)
Definition lock_and_panic (write : option panic_payload -> option panic_payload) (p : panic_payload)
    (m : PanicPayloadMutex) : panic_payload * PanicPayloadMutex :=
  match Mutex_lock m with inl g | inr g => (p, mkMutex true (write g)) end.

Definition poisoned_payload_mutex_preserves_the_first_panic (first poison second empty : panic_payload)
    : list bool :=
  let '(e, mutex) := lock_and_panic (fun _ => Some first) poison (Mutex_new None) in
  let context := mkD tt [] [false] mutex true ([] : list unit) 0 in
  let '(wrapper, context) := task_wrapper (fun _ s => (Panic second, s)) 0 context in
  let '(e', mutex') := lock_and_panic (fun g => g) empty (Mutex_new None) in
  [assert_eq e poison;
   match wrapper with Ret _ => true | _ => false end;
   assert_eq (take_panic_payload (panic_slot context)) (Some first);
   assert_eq e' empty;
   assert_eq (lock_panic_payload mutex') None].

(** Every assertion of the three tests holds, whatever the payloads, and in both
    build profiles. *)
Theorem unit_tests_pass :
  forallb id ordering_sources_preserve_runtime_and_policy_roles = true /\
  (forall profile : BuildProfile, forallb id par_chunks_len_matches_shard_chunks_len = true) /\
  (forall first poison second empty,
     forallb id (poisoned_payload_mutex_preserves_the_first_panic first poison second empty) = true).
Proof.
  split; [reflexivity|]. split; [by intros [|]; vm_compute|].
  intros first poison second empty. unfold poisoned_payload_mutex_preserves_the_first_panic, assert_eq. cbn.
  by rewrite !bool_decide_eq_true_2.
Qed.
