(* ===== verification/Examples.v ===== *)
(** * Client programs ([src/examples/])

    The repository's example programs, run on the machine of the branded atomics,
    which holds ordinary branded cells as well: [book_branded_cell.rs] and
    [book_conditional_atomics.rs], whose assertions are checked by running them,
    and the probes of [codegen.rs], each next to the raw access it stands for.  A
    program is a computation that the compiler may reject ([None]), that may
    panic, and that prints lines.

    Main results: the books run to their end with every assertion satisfied and
    print what their text says; every probe does to memory and returns exactly
    what its raw counterpart does. *)
From S2P Require Import Prelude AutoTraits Region Cow Reentrant Token Views Atomic AtomicPhases.
From stdpp Require Import base numbers list gmap strings pretty.
Local Open Scope Z_scope.

(** ** Programs *)

Record client : Type := mkClient { am : amachine; out : list string }.

Definition C (A : Type) : Type := client -> option (outcome A * client).

#[export] Instance C_ret : MRet C := fun A x s => Some (Ret x, s).
#[export] Instance C_bind : MBind C := fun A B f m s =>
  '(o, s) ← m s;
  match o with Ret x => f x s | Panic p => Some (Panic p, s) | UB => Some (UB, s) end.

(** An operation of the machine. *)
Definition perform (o : aop) : C reply := fun s =>
  '(r, a) ← aexec o (am s); Some (r, mkClient a (out s)).
Definition op_ (o : Token.op) : C unit := _ ← perform (ABase o); mret ().
Definition transform (f : amachine -> option amachine) : C unit := fun s =>
  a ← f (am s); Some (Ret (), mkClient a (out s)).
Definition look {A} (f : amachine -> option A) : C A := fun s =>
  x ← f (am s); Some (Ret x, s).

(** The name the next value gets. *)
Definition fresh : C positive := look (fun a => Some (next (machine a))).

Definition println (line : string) : C unit := fun s => Some (Ret (), mkClient (am s) (out s ++ [line])).
Definition assert_eq (x y : Z) : C unit := fun s =>
  Some (if decide (x = y) then Ret () else Panic AssertPanic, s).

(** The integer result [z] of an operation, at its type. *)
Definition int_result `{BuildProfile} (t : int_type) (z : Z) : outcome Z :=
  if decide (in_range t z) then Ret z
  else if overflow_checks then Panic OverflowPanic else Ret (wrap t z).

(** [x + y] at an integer type. *)
Definition int_add `{BuildProfile} (t : int_type) (x y : Z) : C Z := fun s =>
  Some (int_result t (x + y), s).

(** The main thread. *)
Definition main_thread : positive := 1.

(** A scope on thread [th]: the token's name is its brand's; the scope ends however
    the closure does. *)
Definition scope_on {A} (fam : family) (th : positive) (f : positive -> C A) : C A := fun s =>
  '(o, s) ← (t ← fresh; _ ← op_ (WithFreshToken fam th); mret t) s;
  match o with
  | Ret t =>
      '(o, s) ← f t s;
      '(_, s) ← op_ (ScopeEnd t) s;
      Some (o, s)
  | Panic p => Some (Panic p, s)
  | UB => Some (UB, s)
  end.

(** [brand_scope(|token| ..)] *)
Definition brand_scope_ {A} (f : positive -> C A) : C A := scope_on ExclusiveFamily main_thread f.

Definition cell_new (brand : positive) (parts : list payload) (v : list Z) : C positive :=
  c ← fresh; _ ← op_ (NewCell main_thread brand parts v); mret c.
Definition atomic_new (brand : positive) (t : int_type) (v : Z) : C positive :=
  c ← fresh; _ ← perform (ANew main_thread brand t v); mret c.

(** [&mut token] for the duration of [f]; [f] or a guard it makes ends it. *)
Definition with_token_mut {A} (token : positive) (f : positive -> C A) : C A :=
  p ← fresh; _ ← op_ (BorrowTokenMut main_thread token); f p.

(** [cell.borrow_mut(&mut token)], used by [f] and dropped. *)
Definition with_borrow_mut {A} (token c : positive) (f : positive -> C A) : C A :=
  with_token_mut token (fun p =>
    _ ← op_ (CellBorrowMut p c);
    x ← f p;
    _ ← op_ (EndBorrow p);
    mret x).

(** [token.share()] *)
Definition share_token (token : positive) : C positive :=
  p ← fresh; _ ← op_ (Share main_thread token); mret p.

(** [*guard], component [j]. *)
Definition deref (g : positive) (j : Z) : C Z :=
  look (fun a => guard_deref g (machine a) ≫= (fun l => zget l j)).
Definition deref_set (g : positive) (j x : Z) : C unit := op_ (GuardDerefMut g j x).

(** [*cell.borrow(snap)], component [j]. *)
Definition read (snap c : positive) (j : Z) : C Z :=
  g ← fresh;
  _ ← op_ (CellBorrow snap c);
  x ← deref g j;
  _ ← op_ (EndBorrow g);
  mret x.

(** [counter.load_with(snap, order)], [counter.fetch_add_with(value, snap, order)] *)
Definition the_value (r : reply) : Z := match r with Value v => v | Done | Exchanged _ => 0 end.
Definition load_with_ `{AtomicOrder P} (snap c : positive) (order : P) : C Z :=
  r ← perform (ACall snap c (Load (LOAD P))); mret (the_value r).
Definition fetch_add_with_ `{AtomicOrder P} (snap c : positive) (value : Z) (order : P) : C Z :=
  r ← perform (ACall snap c (FetchAdd value (RMW P))); mret (the_value r).
Definition store_exclusive_ (token c : positive) (value : Z) : C unit :=
  with_token_mut token (fun p => transform (branded_store_exclusive p c value)).

Definition u32 : int_type := mkInt false 32.
Definition u64 : int_type := mkInt false 64.
Definition i32 : int_type := mkInt true 32.
Definition int_payload (t : int_type) : payload :=
  mkPayload true true true (bits t / 8) (bits t / 8).

(** ** [book_branded_cell.rs] *)

Section books.
Context `{BuildProfile}.

(** [*counter.borrow_mut(&mut token) += *step.borrow_mut(&mut token)]: the
    right-hand side is evaluated first. *)
Definition add_step (token counter step : positive) : C unit :=
  y ← with_borrow_mut token step (fun g => deref g 0);
  with_borrow_mut token counter (fun g =>
    x ← deref g 0; z ← int_add u64 x y; deref_set g 0 z).

Definition write_then_read : C unit :=
  brand_scope_ (fun token =>
    counter ← cell_new token [int_payload u64] [0];
    step ← cell_new token [int_payload u64] [7];
    _ ← add_step token counter step;
    _ ← add_step token counter step;
    snap ← share_token token;
    x ← read snap counter 0;
    y ← read snap step 0;
    _ ← println ("counter = " +:+ pretty x +:+ ", step = " +:+ pretty y)%string;
    _ ← (x ← read snap counter 0; assert_eq x 14);
    (y ← read snap step 0; assert_eq y 7)).

(** [MelinoeMut::map_split]: both writers are live for both writes. *)
Definition disjoint_writers : C unit :=
  brand_scope_ (fun token =>
    pair ← cell_new token [int_payload u32; int_payload u32] [0; 0];
    _ ← with_token_mut token (fun left =>
          _ ← op_ (CellBorrowMut left pair);
          right ← fresh;
          _ ← op_ (GuardMapSplit left 0 1 1 2);
          _ ← deref_set left 0 42;
          _ ← deref_set right 0 99;
          _ ← op_ (EndBorrow left);
          op_ (EndBorrow right));
    snap ← share_token token;
    x ← read snap pair 0;
    y ← read snap pair 1;
    _ ← println ("pair = (" +:+ pretty x +:+ ", " +:+ pretty y +:+ ")")%string;
    _ ← assert_eq x 42;
    assert_eq y 99).

(** [*cell.borrow_mut(&mut token) += 1] *)
Definition increment (token c : positive) : C unit :=
  with_borrow_mut token c (fun g => x ← deref g 0; z ← int_add i32 x 1; deref_set g 0 z).

Definition nested_brands : C unit :=
  brand_scope_ (fun t1 =>
    brand_scope_ (fun t2 =>
      a ← cell_new t1 [int_payload i32] [100];
      b ← cell_new t2 [int_payload i32] [200];
      _ ← increment t1 a;
      _ ← increment t2 b;
      s1 ← share_token t1;
      s2 ← share_token t2;
      x ← read s1 a 0;
      y ← read s2 b 0;
      _ ← println ("a = " +:+ pretty x +:+ ", b = " +:+ pretty y)%string;
      _ ← (x ← read s1 a 0; assert_eq x 101);
      (y ← read s2 b 0; assert_eq y 201))).

Definition book_branded_cell : C unit :=
  _ ← write_then_read;
  _ ← disjoint_writers;
  _ ← nested_brands;
  println "all branded-cell assertions passed".

(** ** [book_conditional_atomics.rs] *)

Definition plain_store_then_load : C unit :=
  brand_scope_ (fun token =>
    counter ← atomic_new token u64 0;
    _ ← store_exclusive_ token counter 42;
    snap ← share_token token;
    value ← load_with_ snap counter mkRelaxed;
    _ ← println ("after exclusive store: " +:+ pretty value)%string;
    assert_eq value 42).

Definition shared_fetch_add : C unit :=
  brand_scope_ (fun token =>
    counter ← atomic_new token u64 100;
    _ ← store_exclusive_ token counter 100;
    snap ← share_token token;
    prev ← fetch_add_with_ snap counter 5 mkRelaxed;
    now ← load_with_ snap counter mkRelaxed;
    _ ← println ("fetch_add(5): prev=" +:+ pretty prev +:+ ", now=" +:+ pretty now)%string;
    _ ← assert_eq prev 100;
    _ ← (now ← load_with_ snap counter mkRelaxed; assert_eq now 105);
    prev2 ← fetch_add_with_ snap counter 10 mkAcqRel;
    now ← load_with_ snap counter mkRelaxed;
    _ ← println ("fetch_add(10) AcqRel: prev=" +:+ pretty prev2 +:+ ", now=" +:+ pretty now)%string;
    (now ← load_with_ snap counter mkRelaxed; assert_eq now 115)).

(** The snapshot and the reference end with the function. *)
Definition counter_increment_interop (a token : positive) (delta : Z) : C unit :=
  snap ← share_token token;
  g ← fresh;
  _ ← perform (AAsAtomic snap a);
  _ ← perform (ARefCall g (FetchAdd delta Ordering.Relaxed));
  _ ← op_ (EndBorrow g);
  op_ (EndBorrow snap).

Definition interop : C unit :=
  brand_scope_ (fun token =>
    a ← atomic_new token u64 0;
    _ ← counter_increment_interop a token 7;
    snap ← share_token token;
    v ← load_with_ snap a mkRelaxed;
    _ ← println ("interop fetch_add: " +:+ pretty v)%string;
    (v ← load_with_ snap a mkRelaxed; assert_eq v 7)).

Definition book_conditional_atomics : C unit :=
  _ ← plain_store_then_load;
  _ ← shared_fetch_add;
  _ ← interop;
  println "all conditional-atomic assertions passed".
End books.

Definition start : client := mkClient initial_machine [].

(** ** The probes of [codegen.rs] *)

(** The memory behind the cells. *)
Definition memory (w : world) : gmap positive (list Z) := c_value <$> cells w.

(** Raw accesses to the place [c]. *)
Definition raw_write (c : positive) (v : Z) (mem : gmap positive (list Z)) : gmap positive (list Z) :=
  alter (zset 0 v) c mem.
Definition raw_atomic_fetch_add (v : Z) : M Z Z := atomic_fetch_add u64 v Ordering.Relaxed.

(** The iterator's [sum] of [u64]s. *)
Definition iter_sum `{BuildProfile} (l : list Z) : outcome Z :=
  foldl (fun acc x => acc ≫= (fun acc => uadd acc x)) (Ret 0) l.
Definition raw_slice_sum `{BuildProfile} (s : list Z) : outcome Z := iter_sum s.

(** The token arguments are permits [i]; a guard made from a shared one gets the
    next name. *)
Definition melinoe_write (cell tok : positive) (v : Z) (w : world) : option world :=
  w ← cell_borrow_mut tok cell w;
  w ← guard_deref_mut tok 0 v w;
  end_borrow tok w.

Definition melinoe_read (cell tok : positive) (w : world) : option (Z * world) :=
  let g := next w in
  w ← cell_borrow tok cell w;
  x ← guard_deref g w ≫= head;
  w ← end_borrow g w;
  Some (x, w).

Definition melinoe_slice_sum `{BuildProfile} (cells_ tok : positive) (len : Z) (w : world)
    : option (outcome Z * world) :=
  let g := next w in
  w ← slice_borrow tok cells_ 0 len w;
  l ← guard_deref g w;
  w ← end_borrow g w;
  Some (iter_sum l, w).

(** Over the allocation [m] of the cells. *)
Definition melinoe_cow_borrow_sum `{BuildProfile} {St} (clone : Z -> M St Z) (m : list Z)
    (cells_ : slice) : M St Z := fun st =>
  match borrow_cow clone m cells_ st with
  | (Ret cow, st) => (iter_sum (cow_deref m cow), st)
  | (Panic p, st) => (Panic p, st)
  | (UB, st) => (UB, st)
  end.

Definition branded_atomic_plain_store (a tok : positive) (v : Z) (s : amachine) : option amachine :=
  branded_store_exclusive tok a v s.
Definition branded_atomic_fetch_add (a tok : positive) (v : Z) (s : amachine)
    : option (outcome reply * amachine) := shared_call tok a (FetchAdd v Ordering.Relaxed) s.
Definition branded_atomic_fetch_add_relaxed (a tok : positive) (v : Z) (s : amachine)
    : option (outcome reply * amachine) := shared_call tok a (FetchAdd v (RMW Relaxed)) s.
Definition branded_atomic_interop_fetch_add (a tok : positive) (v : Z) (s : amachine)
    : option (outcome reply * amachine) :=
  let g := next (machine s) in
  s ← as_atomic tok a s;
  '(r, s) ← ref_call g (FetchAdd v Ordering.Relaxed) s;
  w ← end_borrow g (machine s);
  Some (r, set_machine s w).

(** [GuardedCell<u64>]: its value is incremented in place. *)
Definition guarded_get_mut `{BuildProfile} (cell : positive) (s : gates) : outcome Z * gates :=
  match uadd (Reentrant.into_inner cell s) 1 with
  | Ret v => (Ret v, Reentrant.get_mut cell v s)
  | Panic p => (Panic p, s)
  | UB => (UB, s)
  end.

(** ** Lemmas: the probes *)

(** A guard made from a shared permit takes the next name, and leaves no trace
    when it is dropped. *)
Lemma fresh_holder_gone w g :
  inv w -> delete (next w) (<[next w := g]> (holders w)) = holders w.
Proof.
  intros Hw. apply delete_insert_id, eq_None_not_Some. intros [h Hh]. by eapply holder_fresh.
Qed.

Lemma raw_write_memory c d v w :
  cells w !! c = Some d ->
  c_value <$> <[c := with_value d (zset 0 v (c_value d))]> (cells w) = raw_write c v (memory w).
Proof.
  intros Hd. unfold raw_write, memory. rewrite fmap_insert. cbn. apply map_eq. intros j.
  destruct (decide (j = c)) as [->|Hne].
  - rewrite lookup_insert_eq, lookup_alter_eq, lookup_fmap, Hd. done.
  - by rewrite lookup_insert_ne, lookup_alter_ne.
Qed.

Lemma opens_parts i c w h form d :
  inv w -> opens i c w = Some (h, form, d) -> holders w !! i = Some h /\ cells w !! c = Some d /\
    zlen (c_parts d) = zlen (c_value d).
Proof.
  intros Hw Ho. destruct (opens_inv _ _ _ _ _ _ Hw Ho) as (Hi & _ & Hd & _). do 2 (split; [done|]).
  by destruct (inv_cells w Hw c d Hd) as (_ & _ & ? & _).
Qed.

Section cell_probes.
Context (w : world) (Hw : inv w) (c tok : positive) (h : holder) (d : cell).

Lemma melinoe_write_raw v :
  opens tok c w = Some (h, ByMut, d) -> 0 < zlen (c_value d) ->
  exists w', melinoe_write c tok v w = Some w' /\ memory w' = raw_write c v (memory w) /\
    tokens w' = tokens w /\ holders w' = delete tok (holders w).
Proof using Hw.
  intros Ho Hz. destruct (opens_parts _ _ _ _ _ _ Hw Ho) as (Hi & Hd & Hlen).
  unfold melinoe_write, cell_borrow_mut. rewrite Ho. cbn. rewrite option_guard_True by done. cbn.
  unfold guard_deref_mut. cbn. rewrite lookup_insert_eq. cbn. rewrite Hd. cbn.
  rewrite !option_guard_True by (done || lia). cbn. unfold end_borrow. cbn. rewrite lookup_insert_eq. cbn.
  eexists. split; [done|]. cbn. split; [|split; [done|]].
  - by apply raw_write_memory.
  - by rewrite delete_insert_eq.
Qed.

Lemma melinoe_read_raw form x :
  opens tok c w = Some (h, form, d) -> form <> ByMut -> head (c_value d) = Some x ->
  exists w', melinoe_read c tok w = Some (x, w') /\ memory w' = memory w /\
    tokens w' = tokens w /\ holders w' = holders w.
Proof using Hw.
  intros Ho Hf Hx. destruct (opens_parts _ _ _ _ _ _ Hw Ho) as (Hi & Hd & Hlen).
  assert (guard_deref (next w) (add_holder (full_guard h c d false) w) = Some (c_value d)) as Hg.
  { unfold guard_deref. cbn. rewrite lookup_insert_eq. cbn. rewrite Hd. cbn.
    by rewrite Z.sub_0_r, Hlen, subrange_all. }
  unfold melinoe_read, cell_borrow. rewrite Ho. cbn.
  destruct form; [|done|]; cbn [lend]; rewrite Hg; cbn; rewrite Hx; cbn; unfold end_borrow; cbn;
    rewrite lookup_insert_eq; cbn; (eexists; split; [done|]); cbn; by rewrite fresh_holder_gone.
Qed.

Lemma melinoe_slice_sum_raw `{BuildProfile} form :
  opens tok c w = Some (h, form, d) -> form <> ByMut ->
  exists w', melinoe_slice_sum c tok (zlen (c_value d)) w = Some (raw_slice_sum (c_value d), w') /\
    memory w' = memory w /\ tokens w' = tokens w /\ holders w' = holders w.
Proof using Hw.
  intros Ho Hf. destruct (opens_parts _ _ _ _ _ _ Hw Ho) as (Hi & Hd & Hlen).
  assert (guard_deref (next w) (add_holder (range_guard h c 0 (zlen (c_value d)) false) w)
    = Some (c_value d)) as Hg.
  { unfold guard_deref. cbn. rewrite lookup_insert_eq. cbn. rewrite Hd. cbn.
    by rewrite Z.sub_0_r, subrange_all. }
  pose proof (all_parts d) as Hin. rewrite Hlen in Hin.
  unfold melinoe_slice_sum, slice_borrow. rewrite Ho. cbn. rewrite option_guard_True by done. cbn.
  destruct form; [|done|]; cbn [lend]; rewrite Hg; cbn; unfold end_borrow; cbn;
    rewrite lookup_insert_eq; cbn; (eexists; split; [done|]); cbn; by rewrite fresh_holder_gone.
Qed.
End cell_probes.

(** [s'] is [s] but for the value [v] in the place [c]. *)
Definition wrote (c : positive) (v : Z) (s s' : amachine) : Prop :=
  memory (machine s') = raw_write c v (memory (machine s)) /\ types s' = types s /\
  tokens (machine s') = tokens (machine s).

Section atomic_probes.
Context (s : amachine) (Hs : ainv s) (a tok : positive) (h : holder) (d : cell) (v x : Z).
Context (Ht : types s !! a = Some u64) (Hv : in_range u64 v) (Hx : value_of a (machine s) = Some x).

Lemma put_value_wrote y w : put_value a y (machine s) = Some w -> wrote a y s (set_machine s w).
Proof using Hs Ht.
  destruct (atomic_cell s Hs a u64 Ht) as (d' & x' & Hd & _ & Hval & _).
  intros Hp. unfold put_value in Hp. rewrite Hd in Hp. injection Hp as <-.
  split; [|done]. rewrite <- (raw_write_memory a d' y (machine s) Hd). cbn. unfold memory. cbn.
  by rewrite Hval.
Qed.

Lemma run_fetch_add o :
  exists w, run_call a (FetchAdd v o) s = Some (Ret (Value x), set_machine s w) /\
    put_value a (wrap u64 (x + v)) (machine s) = Some w /\ holders w = holders (machine s).
Proof using Hs Ht Hv Hx.
  destruct (atomic_cell s Hs a u64 Ht) as (d' & x' & Hd & _ & _ & _).
  unfold run_call. rewrite Ht. cbn [mbind option_bind]. rewrite option_guard_True by done.
  cbn [mbind option_bind]. rewrite Hx. cbn [mbind option_bind].
  change (call u64 (FetchAdd v o) x) with (@Ret reply (Value x), wrap u64 (x + v)). cbv zeta beta iota.
  unfold put_value. rewrite Hd. cbn. by eexists.
Qed.

Lemma fetch_add_probe o form :
  opens tok a (machine s) = Some (h, form, d) -> form <> ByMut ->
  exists s', shared_call tok a (FetchAdd v o) s = Some (Ret (Value x), s') /\
    wrote a (wrap u64 (x + v)) s s' /\ holders (machine s') = holders (machine s).
Proof using Hs Ht Hv Hx.
  intros Ho Hf. destruct (run_fetch_add o) as (w & Hr & Hp & Hh).
  unfold shared_call. rewrite Ho. cbn [mbind option_bind]. rewrite Hr. cbn [mbind option_bind].
  exists (set_machine s w). split; [by destruct form|]. split; [by apply put_value_wrote|done].
Qed.

Lemma interop_probe form :
  opens tok a (machine s) = Some (h, form, d) -> form <> ByMut ->
  exists s', branded_atomic_interop_fetch_add a tok v s = Some (Ret (Value x), s') /\
    wrote a (wrap u64 (x + v)) s s' /\ holders (machine s') = holders (machine s).
Proof using Hs Ht Hv Hx.
  intros Ho Hf. pose proof (ainv_machine s Hs) as Hw.
  destruct (atomic_cell s Hs a u64 Ht) as (d' & x' & Hd & _ & Hval & _).
  unfold branded_atomic_interop_fetch_add, as_atomic, cell_borrow. cbv zeta. rewrite Ht. cbn [mbind option_bind].
  rewrite Ho. cbn [mbind option_bind].
  assert (lend tok form (full_guard h a d false) (machine s)
    = add_holder (full_guard h a d false) (machine s)) as -> by (by destruct form).
  cbn [mbind option_bind]. unfold ref_call. cbn [machine set_machine].
  set (w1 := add_holder (full_guard h a d false) (machine s)).
  assert (holders w1 !! next (machine s) = Some (full_guard h a d false)) as Hg by apply lookup_insert_eq.
  rewrite Hg. cbn [mbind option_bind h_hold full_guard range_guard].
  assert (ainv (set_machine s w1)) as Hs1.
  { eapply (ainv_aexec s Hs (AAsAtomic tok a) (Ret AtomicPhases.Done)); [done|]. cbn [aexec].
    unfold silent, as_atomic, cell_borrow. rewrite Ht. cbn [mbind option_bind]. rewrite Ho.
    by destruct form. }
  assert (value_of a w1 = Some x) as Hx1 by exact Hx.
  unfold run_call. cbn [types set_machine machine]. rewrite Ht. cbn [mbind option_bind].
  rewrite option_guard_True by done. cbn [mbind option_bind]. rewrite Hx1. cbn [mbind option_bind].
  change (call u64 (FetchAdd v Ordering.Relaxed) x) with (@Ret reply (Value x), wrap u64 (x + v)).
  cbv zeta beta iota. unfold put_value. assert (cells w1 !! a = Some d') as Hd1 by exact Hd.
  rewrite Hd1. cbn [mbind option_bind]. unfold end_borrow. cbn [machine set_machine holders set_cell].
  rewrite Hg. cbn [mbind option_bind]. eexists. split; [done|].
  split; [split; [|done]|].
  - rewrite <- (raw_write_memory a d' (wrap u64 (x + v)) (machine s) Hd). unfold memory. cbn.
    by rewrite Hval.
  - cbn. by apply fresh_holder_gone.
Qed.

Lemma plain_store_probe :
  opens tok a (machine s) = Some (h, ByMut, d) ->
  exists s', branded_atomic_plain_store a tok v s = Some s' /\ wrote a v s s' /\
    holders (machine s') = delete tok (holders (machine s)).
Proof using Hs Ht Hv.
  intros Ho. destruct (atomic_cell s Hs a u64 Ht) as (d' & x' & Hd & Hpa & Hval & _).
  destruct (opens_inv _ _ _ _ _ _ (ainv_machine s Hs) Ho) as (_ & _ & Hd' & _).
  assert (d = d') as -> by congruence.
  unfold branded_atomic_plain_store, branded_store_exclusive, exclusive_begin, cell_borrow_mut.
  rewrite Ht. cbn [mbind option_bind]. rewrite Ho. cbn [mbind option_bind].
  rewrite option_guard_True by done. cbn [mbind option_bind lend].
  unfold exclusive_write. cbn [machine set_machine holders set_holder]. rewrite lookup_insert_eq.
  cbn [mbind option_bind h_hold full_guard range_guard types set_machine]. rewrite Ht. cbn [mbind option_bind].
  rewrite option_guard_True by done. cbn [mbind option_bind].
  unfold guard_deref_mut. cbn [holders set_holder]. rewrite lookup_insert_eq.
  cbn [mbind option_bind h_hold full_guard range_guard cells set_holder]. rewrite Hd. cbn [mbind option_bind].
  rewrite !option_guard_True by (done || by rewrite Hpa). cbn [mbind option_bind].
  unfold exclusive_end, end_borrow. cbn [machine set_machine holders set_cell set_holder].
  rewrite lookup_insert_eq. cbn [mbind option_bind]. eexists. split; [done|]. split; [split; [|done]|].
  - rewrite <- (raw_write_memory a d' v (machine s) Hd). done.
  - cbn. by rewrite delete_insert_eq.
Qed.
End atomic_probes.

(** ** Properties *)

(** The books run: nothing is rejected, no assertion fails, the lines printed are
    the expected ones, and when the scopes have ended no token, borrow or cell is
    left; in both build profiles. *)
Theorem books_run `{BuildProfile} :
  exists s1 s2,
    book_branded_cell start = Some (Ret (), s1) /\
    out s1 = ["counter = 14, step = 7"; "pair = (42, 99)"; "a = 101, b = 201";
              "all branded-cell assertions passed"]%string /\
    book_conditional_atomics s1 = Some (Ret (), s2) /\
    drop 4 (out s2) = ["after exclusive store: 42"; "fetch_add(5): prev=100, now=105";
              "fetch_add(10) AcqRel: prev=105, now=115"; "interop fetch_add: 7";
              "all conditional-atomic assertions passed"]%string /\
    tokens (machine (am s2)) = ∅ /\ holders (machine (am s2)) = ∅ /\ cells (machine (am s2)) = ∅ /\
    types (am s2) = ∅.
Proof.
  eexists _, _. split; [vm_compute; reflexivity|]. split; [reflexivity|].
  split; [vm_compute; reflexivity|]. split_and!; reflexivity.
Qed.

(** The cell probes are the raw accesses: with a write permit [melinoe_write]
    stores what [raw_write] stores and nothing else, with a read permit
    [melinoe_read] and [melinoe_slice_sum] return what is there and change
    nothing; the permit is used up, or as it was. *)
Theorem cell_probes_match_raw `{BuildProfile} (w : world) (c tok : positive) (h : holder)
    (form : permit_form) (d : cell) (v : Z) :
  reachable w -> opens tok c w = Some (h, form, d) -> 0 < zlen (c_value d) ->
  if decide (form = ByMut) then
    exists w', melinoe_write c tok v w = Some w' /\ memory w' = raw_write c v (memory w) /\
      tokens w' = tokens w /\ holders w' = delete tok (holders w)
  else
    exists w1 w2 x, melinoe_read c tok w = Some (x, w1) /\ head (c_value d) = Some x /\
      melinoe_slice_sum c tok (zlen (c_value d)) w = Some (raw_slice_sum (c_value d), w2) /\
      memory w1 = memory w /\ holders w1 = holders w /\ memory w2 = memory w /\ holders w2 = holders w.
Proof.
  intros Hw%reachable_inv Ho Hz. destruct (decide _) as [->|Hf].
  - by eapply melinoe_write_raw.
  - destruct (c_value d) as [|x l] eqn:E; [by vm_compute in Hz|].
    destruct (melinoe_read_raw w Hw c tok h d form x Ho Hf) as (w1 & Hr & Hm1 & _ & Hh1);
      [by rewrite E|].
    destruct (melinoe_slice_sum_raw w Hw c tok h d form Ho Hf) as (w2 & Hs & Hm2 & _ & Hh2).
    rewrite E in Hs. by exists w1, w2, x.
Qed.

Lemma cell_probes_match_raw_witness `{BuildProfile} :
  exists w1 w2 x,
    let w := run_from_start [WithFreshToken ExclusiveFamily 1; NewCell 1 1 u32_parts [7; 8; 9]; Share 1 1] in
    melinoe_read 2 3 w = Some (x, w1) /\ x = 7 /\
    melinoe_slice_sum 2 3 3 w = Some (Ret 24, w2) /\ memory w2 = memory w.
Proof.
  pose (w := run_from_start [WithFreshToken ExclusiveFamily 1; NewCell 1 1 u32_parts [7; 8; 9]; Share 1 1]).
  destruct (cell_probes_match_raw w 2 3 (mkHolder 1 false 1 (Permit ByShared)) ByShared
    (mkCell 1 1 1 u32_parts [7; 8; 9]) 0) as (w1 & w2 & x & Hr & [= <-] & Hs & _ & _ & Hm & _).
  - apply (run_reachable [WithFreshToken ExclusiveFamily 1; NewCell 1 1 u32_parts [7; 8; 9]; Share 1 1]
      initial_world); [apply reach_init|reflexivity..].
  - reflexivity.
  - reflexivity.
  - exists w1, w2, 7. split; [exact Hr|]. split; [reflexivity|]. split; [exact Hs|exact Hm].
Defined.

(** The atomic probes are the raw accesses: under a write permit
    [branded_atomic_plain_store] is a plain store; under a read permit the
    run-time, the policy and the interop [fetch_add] all return what the raw
    [fetch_add] returns and leave in memory what it leaves; no other place, token
    or borrow changes. *)
Theorem atomic_probes_match_raw (s : amachine) (a tok : positive) (h : holder) (form : permit_form)
    (d : cell) (v x : Z) :
  areachable s -> opens tok a (machine s) = Some (h, form, d) -> types s !! a = Some u64 ->
  in_range u64 v -> value_of a (machine s) = Some x ->
  if decide (form = ByMut) then
    exists s', branded_atomic_plain_store a tok v s = Some s' /\ wrote a v s s' /\
      holders (machine s') = delete tok (holders (machine s))
  else
    exists s1 s2 s3 y, raw_atomic_fetch_add v x = (Ret x, y) /\
      branded_atomic_fetch_add a tok v s = Some (Ret (Value x), s1) /\
      branded_atomic_fetch_add_relaxed a tok v s = Some (Ret (Value x), s2) /\
      branded_atomic_interop_fetch_add a tok v s = Some (Ret (Value x), s3) /\
      Forall (fun s' => wrote a y s s' /\ holders (machine s') = holders (machine s)) [s1; s2; s3].
Proof.
  intros Hs%areachable_inv Ho Ht Hv Hx. destruct (decide _) as [->|Hf].
  - by eapply plain_store_probe.
  - destruct (fetch_add_probe s Hs a tok h d v x Ht Hv Hx Ordering.Relaxed form Ho Hf) as (s1 & H1 & H1').
    destruct (interop_probe s Hs a tok h d v x Ht Hv Hx form Ho Hf) as (s3 & H3 & H3').
    exists s1, s1, s3, (wrap u64 (x + v)). split; [reflexivity|]. do 3 (split; [done|]).
    by rewrite !Forall_cons, Forall_nil.
Qed.

Lemma atomic_probes_match_raw_witness :
  exists s1, branded_atomic_fetch_add 2 3 5
      (arun_from_start [ABase (WithFreshToken ExclusiveFamily 1); ANew 1 1 u64 usize_max; ABase (Share 1 1)])
    = Some (Ret (Value usize_max), s1) /\ value_of 2 (machine s1) = Some 4.
Proof.
  pose (prog := [ABase (WithFreshToken ExclusiveFamily 1); ANew 1 1 u64 usize_max; ABase (Share 1 1)]).
  destruct (atomic_probes_match_raw (arun_from_start prog) 2 3 (mkHolder 1 false 1 (Permit ByShared)) ByShared
    (mkCell 1 1 1 [atomic_payload] [usize_max]) 5 usize_max) as (s1 & s2 & s3 & y & Hraw & H1 & _ & _ & Hall).
  - exists prog, (replicate 3 (Ret AtomicPhases.Done)). split; vm_compute; reflexivity.
  - vm_compute. reflexivity.
  - vm_compute. reflexivity.
  - vm_compute. done.
  - vm_compute. reflexivity.
  - exists s1. split; [exact H1|]. vm_compute in H1. injection H1 as <-. vm_compute. reflexivity.
Defined.

(** The remaining probes: [borrow_cow] allocates and clones nothing, so its sum is
    the raw one and the state of the clones is as it was; and a [GuardedCell]
    accessed by [get_mut] is incremented like a plain [u64], its flag untouched. *)
Theorem cow_and_guarded_probes `{BuildProfile} {St} (clone : Z -> M St Z) (m : list Z) (s : slice)
    (st : St) (c : positive) (g : gates) :
  melinoe_cow_borrow_sum clone m s st = (raw_slice_sum (contents m s), st) /\
  fst (guarded_get_mut c g) = uadd (Reentrant.into_inner c g) 1 /\
  armed (snd (guarded_get_mut c g)) = armed g /\ live (snd (guarded_get_mut c g)) = live g /\
  (forall y, fst (guarded_get_mut c g) = Ret y -> Reentrant.into_inner c (snd (guarded_get_mut c g)) = y) /\
  (forall c', c' <> c -> Reentrant.value (snd (guarded_get_mut c g)) !! c' = Reentrant.value g !! c').
Proof.
  split; [done|]. unfold guarded_get_mut. destruct (uadd _ 1) as [y|p|] eqn:E; cbn; split_and!; try done.
  - intros ? [= <-]. unfold Reentrant.into_inner. cbn. by rewrite lookup_insert_eq.
  - intros c' Hc. by rewrite lookup_insert_ne.
Qed.
