(* ===== verification/DocTests.v ===== *)
(** * The examples of the documentation

    The Rust examples in the library's documentation comments, which Cargo compiles
    and runs as tests: each as a program on the machine of cells and atomics of
    [Examples], on the machine of running scopes and gates of [Frames], or on the
    state of the component it documents.  Examples marked [compile_fail] are
    programs that must be rejected.  An array or [Vec] of branded cells is one
    allocation of the machine with a component per cell; its drivers run on that
    list under the unique borrow that [&mut cells] is.  One example is left out, the
    shard that leaves its scope ([region/par_chunks.rs]): the machine rejects uses
    after the scope's end, not a name that is only carried out.

    Main results: every example runs to its end with its assertions satisfied, and
    leaves no token, borrow or cell, in both build profiles, on scoped threads and
    on a registered executor; the compiler rejects the others. *)
From stdpp Require Import base numbers list gmap.
From S2P Require Import Prelude AutoTraits BrandedVec ThreadCached Reentrant Region Plan Closure.
From S2P Require Import Executor Driver PartitionMap Cow Token Frames Atomic AtomicPhases Examples.
Local Open Scope Z_scope.

(** ** Programs *)

Definition assert (b : bool) : C unit := fun s => Some (if b then Ret () else Panic AssertPanic, s).

(** A computation on its own, an arithmetic one for instance. *)
Definition pure_ {A} (o : outcome A) : C A := fun s => Some (o, s).

(** [&token] on thread [th], for the duration of [f]. *)
Definition with_token {A} (th token : positive) (f : positive -> C A) : C A :=
  p ← fresh;
  _ ← op_ (BorrowToken th token);
  x ← f p;
  _ ← op_ (EndBorrow p);
  mret x.

(** [*cell.borrow(&token)], component [j]. *)
Definition read_with (th token c : positive) (j : Z) : C Z := with_token th token (fun p => read p c j).

(** [*cell.borrow_mut(&mut token) = f(..)] on thread [th]. *)
Definition update (th token c : positive) (f : Z -> outcome Z) : C unit :=
  p ← fresh;
  _ ← op_ (BorrowTokenMut th token);
  _ ← op_ (CellBorrowMut p c);
  x ← deref p 0;
  y ← pure_ (f x);
  _ ← deref_set p 0 y;
  op_ (EndBorrow p).

(** [*cells[k].borrow(permit)], the cell [k] of an array of cells. *)
Definition read_cell (p c : positive) (k : Z) : C Z :=
  g ← fresh;
  _ ← op_ (SliceBorrow p c k (k + 1));
  x ← deref g 0;
  _ ← op_ (EndBorrow g);
  mret x.

(** [array::from_fn(|k| *cells[k].borrow(snap))] *)
Definition read_cells (p c : positive) (n : Z) : C (list Z) := mapM (read_cell p c) (zseq n).

Definition assert_all (seen expected : list Z) : C unit := assert (bool_decide (seen = expected)).

(** [n] cells, all holding [v]. *)
Definition cells_new (brand : positive) (t : int_type) (n v : Z) : C positive :=
  cell_new brand (replicate (Z.to_nat n) (int_payload t)) (replicate (Z.to_nat n) v).

(** [&mut cells] for the duration of [f], which works on the cells' values. *)
Definition on_cells {A} (c : positive) (f : M (list Z) A) : C A :=
  l ← look (fun a => c_value <$> cells (machine a) !! c);
  let '(o, l') := f l in
  _ ← mapM (fun '(j, x) => op_ (CellGetMut main_thread c j x)) (zip (zseq (zlen l)) l');
  pure_ o.

(** [for (j, slot) in shard.iter_mut().enumerate() { *slot = g(j) }], then [r]; [k]
    cells are left. *)
Fixpoint fill (g : Z -> outcome Z) (j : Z) (k : nat) (r : Z) : closure Z Z :=
  match k with
  | O => CRet r
  | S k =>
      match g j with
      | Ret x => CSet j x (fun _ => fill g (j + 1) k r)
      | Panic p => CPanic p
      | UB => CPanic OverflowPanic     (* arithmetic has none *)
      end
  end.
Definition fill_shard (g : Z -> outcome Z) (len r : Z) : closure Z Z := fill g 0 (Z.to_nat len) r.

Definition usize : int_type := mkInt false 64.

Section doc_tests.
Context `{BuildProfile}.

Definition sum_at (t : int_type) (l : list Z) : outcome Z :=
  foldl (fun acc x => acc ≫= fun acc => int_result t (acc + x)) (Ret 0) l.

(** ** [lib.rs] *)

Definition quick_start : C unit :=
  brand_scope_ (fun token =>
    a ← cell_new token [int_payload i32] [1];
    b ← cell_new token [int_payload i32] [2];
    _ ← update main_thread token a (fun x => int_result i32 (x + 10));
    snap ← share_token token;
    x ← read snap a 0;
    y ← read snap b 0;
    z ← int_add i32 x y;
    assert_eq z 13).

Definition map_split_example : C unit :=
  brand_scope_ (fun token =>
    cell ← cell_new token [int_payload u32; int_payload u32] [0; 0];
    _ ← with_token_mut token (fun a =>
          _ ← op_ (CellBorrowMut a cell);
          b ← fresh;
          _ ← op_ (GuardMapSplit a 0 1 1 2);
          _ ← deref_set a 0 1;
          _ ← deref_set b 0 2;
          _ ← op_ (EndBorrow a);
          op_ (EndBorrow b));
    with_token main_thread token (fun p =>
      x ← read p cell 0; y ← read p cell 1; assert_all [x; y] [1; 2])).

(** [matches!(cells.borrow_cow_with(&token, policy), ..)]: the [Cow] is dropped at
    the end of the statement. *)
Definition cow_of {P} `{CowPolicy P} (token c : positive) (n : Z) (policy : P) : C (Cow Z) :=
  with_token main_thread token (fun p =>
    g ← fresh;
    _ ← op_ (SliceBorrow p c 0 n);
    m ← look (fun a => c_value <$> cells (machine a) !! c);
    cow ← pure_ (fst (borrow_cow_with counting_clone m (Slice 0 n) policy 0));
    _ ← op_ (EndBorrow g);
    mret cow).

Definition cow_example : C unit :=
  brand_scope_ (fun token =>
    cells ← cell_new token (replicate 4 (int_payload (mkInt false 8))) [0; 1; 2; 3];
    c ← cow_of token cells 4 mkBorrowed;
    _ ← assert (match c with CowBorrowed _ => true | CowOwned _ => false end);
    c ← cow_of token cells 4 mkRetained;
    assert (match c with CowBorrowed _ => false | CowOwned _ => true end)).

Definition atomic_example : C unit :=
  brand_scope_ (fun token =>
    counter ← atomic_new token u64 0;
    _ ← store_exclusive_ token counter 10;
    snap ← share_token token;
    x ← fetch_add_with_ snap counter 5 mkRelaxed;
    _ ← assert_eq x 10;
    y ← load_with_ snap counter mkRelaxed;
    assert_eq y 15).

Definition reads_while_writing : C unit :=
  brand_scope_ (fun token =>
    cell ← cell_new token [int_payload i32] [0];
    with_token_mut token (fun w =>
      _ ← op_ (CellBorrowMut w cell);
      with_token main_thread token (fun p =>
        r ← fresh;
        _ ← op_ (CellBorrow p cell);
        _ ← op_ (EndBorrow r);
        op_ (EndBorrow w)))).

(** The cell's brand is the first token's. *)
Definition brands_mix : C unit :=
  brand_scope_ (fun t1 =>
    cell ← cell_new t1 [int_payload i32] [0];
    _ ← read_with main_thread t1 cell 0;
    brand_scope_ (fun t2 => _ ← read_with main_thread t2 cell 0; mret ())).

(** ** [cell/reference.rs] *)

Definition map_example : C unit :=
  brand_scope_ (fun token =>
    cell ← cell_new token [int_payload u32; int_payload u32] [7; 42];
    with_token main_thread token (fun p =>
      len ← fresh;
      _ ← op_ (CellBorrow p cell);
      _ ← op_ (GuardMap len 1 2);
      x ← deref len 0;
      _ ← assert_eq x 42;
      op_ (EndBorrow len))).

Definition map_mut_example : C unit :=
  brand_scope_ (fun token =>
    cell ← cell_new token [int_payload u32; int_payload u32] [7; 0];
    _ ← with_token_mut token (fun len =>
          _ ← op_ (CellBorrowMut len cell);
          _ ← op_ (GuardMap len 1 2);
          _ ← deref_set len 0 42;
          op_ (EndBorrow len));
    x ← read_with main_thread token cell 1;
    assert_eq x 42).

(** ** [token/brand.rs] *)

Definition brand_scope_example : C unit :=
  doubled ← brand_scope_ (fun token =>
    cell ← cell_new token [int_payload u32] [21];
    _ ← update main_thread token cell (fun x => int_result u32 (x * 2));
    read_with main_thread token cell 0);
  assert_eq doubled 42.

Definition nested_scopes : C unit :=
  brand_scope_ (fun ta =>
    brand_scope_ (fun tb =>
      a ← cell_new ta [int_payload u64] [10];
      b ← cell_new tb [int_payload u64] [32];
      with_token_mut ta (fun ma =>
        _ ← op_ (CellBorrowMut ma a);
        with_token_mut tb (fun mb =>
          _ ← op_ (CellBorrowMut mb b);
          y ← deref mb 0;
          x ← deref ma 0;
          z ← int_add u64 x y;
          _ ← deref_set ma 0 z;
          _ ← op_ (EndBorrow ma);
          x ← read_with main_thread ta a 0;
          _ ← assert_eq x 42;
          op_ (EndBorrow mb))))).

(** ** [sync/] *)

Definition scope_exclusive_example (worker : positive) : C unit :=
  result ← scope_on SyncRegionFamily worker (fun token =>
    cell ← (c ← fresh; _ ← op_ (NewCell worker token [int_payload (mkInt true 64)] [10]); mret c);
    _ ← update worker token cell (fun x => int_result (mkInt true 64) (x + 32));
    read_with worker token cell 0);
  assert_eq result 42.

Definition sync_region_example : C unit :=
  sum ← scope_on SyncRegionFamily main_thread (fun token =>
    cells ← cell_new token (replicate 3 (int_payload i32)) [1; 2; 3];
    l ← mapM (fun k => with_token main_thread token (fun p => read_cell p cells k)) (zseq 3);
    pure_ (sum_at i32 l));
  assert_eq sum 6.

Definition thread_local_example : C unit :=
  total ← scope_on ThreadLocalFamily main_thread (fun token =>
    counter ← cell_new token [int_payload usize] [0];
    _ ← mapM (fun _ => update main_thread token counter (fun x => int_result usize (x + 1))) (zseq 5);
    read_with main_thread token counter 0);
  assert_eq total 5.

(** [require_send(&token)] *)
Definition require_send (t : ty) : C unit := look (fun _ => if is_send t then Some () else None).

Definition thread_local_is_sent : C unit :=
  scope_on ThreadLocalFamily main_thread (fun _ => require_send (token_ty ThreadLocalFamily)).

(** ** [region/] *)

Definition shard_lifecycle : C unit :=
  brand_scope_ (fun token =>
    cells ← cells_new token u32 6 0;
    _ ← on_cells cells (fun m =>
          match Shard.split_at (Shard.new (Slice 0 6)) 3 with
          | Ret (lo, hi) =>
              (_ ← run_closure lo (fill_shard (fun j => Ret (wrap u32 j)) (Shard.len lo) 0);
               run_closure hi (fill_shard (fun j => int_result u32 (100 + wrap u32 j)) (Shard.len hi) 0)) m
          | Panic p => (Panic p, m)
          | UB => (UB, m)
          end);
    snap ← share_token token;
    seen ← read_cells snap cells 6;
    assert_all seen [0; 1; 2; 100; 101; 102]).

Definition par_chunks_example : C unit :=
  brand_scope_ (fun token =>
    cells ← cells_new token usize 6 0;
    let par := Shard.par_chunks (Shard.new (Slice 0 6)) 2 in
    n ← pure_ (Par.len par);
    _ ← assert_eq n 3;
    c0 ← pure_ (Par.get_unchecked_chunk par 0);
    c2 ← pure_ (Par.get_unchecked_chunk par 2);
    _ ← on_cells cells (run_closure c0 (fill_shard (fun _ => Ret 10) (Shard.len c0) 0));
    _ ← on_cells cells (run_closure c2 (fill_shard (fun _ => Ret 20) (Shard.len c2) 0));
    snap ← share_token token;
    seen ← read_cells snap cells 6;
    assert_all seen [10; 10; 0; 0; 20; 20]).

(** ** [collections/branded_vec/generation.rs] *)

Definition with_generated_example `{Allocator} (values : BrandedVec.store Z Z) : outcome unit :=
  checksum ← fst (BrandedVec.with_generated 8 (fun index n => (umul index index, n))
                    (fun s => (iter_sum (BrandedVec.elems s), s)) values);
  if decide (checksum = 140) then Ret () else Panic AssertPanic.

(** ** [reentrant/] *)

(** [gate.enter(|mut token| ..)], with a refused [gate.enter] inside. *)
Definition gate_example : option (outcome Z * fmachine) :=
  m ← fexec (FGateNew 1 main_thread) initial_fmachine;
  let t := next (base m) in
  match Frames.enter_gate 1 main_thread m with
  | (Some (inl _), m) =>
      let slot := next (base m) in
      m ← frun [FBase (NewCell main_thread t [int_payload u64] [0]);
                FBase (BorrowTokenMut main_thread t)] m;
      let g := Pos.succ slot in
      m ← frun [FBase (CellBorrowMut g slot); FBase (GuardDerefMut g 0 7); FBase (EndBorrow g)] m;
      match Frames.enter_gate 1 main_thread m with
      | (Some (inr _), m) =>
          let p := next (base m) in
          m ← frun [FBase (BorrowToken main_thread t); FBase (CellBorrow p slot)] m;
          out ← guard_deref (Pos.succ p) (base m) ≫= head;
          m ← frun [FBase (EndBorrow (Pos.succ p)); FBase (EndBorrow p); FLeave main_thread] m;
          Some (Ret out, m)
      | (Some (inl _), m) => Some (Panic AssertPanic, m)
      | (None, _) => None
      end
  | (Some (inr _), m) => Some (Panic AssertPanic, m)
  | (None, _) => None
  end.

(** [assert_eq!(r, ..)] in a program of gates. *)
Definition expect (b : bool) (p : prog) : prog := if b then p else Throw AssertPanic.

Definition guarded_example (cache : positive) : prog :=
  Reentrant.Enter cache
    (Reentrant.Load cache (fun n =>
       match uadd n 41 with
       | Ret x => Reentrant.Store cache x (Reentrant.Load cache Reentrant.Done)
       | _ => Throw OverflowPanic
       end))
    (fun r => expect (match r with inl n => bool_decide (n = 41) | inr _ => false end)
      (Reentrant.Enter cache
        (Reentrant.Enter cache (Reentrant.Done 0) (fun r => match r with inl _ => Reentrant.Done 0 | inr mkReentered => Reentrant.Done 1 end))
        (fun r => expect (match r with inl x => bool_decide (x = 1) | inr _ => false end) (Reentrant.Done 0)))).

(** ** [thread_cached.rs] *)

Definition check {St} (b : bool) : M (tls Z St) unit := fun s => (if b then Ret () else Panic AssertPanic, s).

Definition thread_cached_example (th : positive) : M (tls Z Z) unit :=
  x ← ThreadCached.get_or_init th (fun s => (Ret 7, s));
  _ ← check (bool_decide (x = 7));
  _ ← ThreadCached.set th 11;
  o ← ThreadCached.get th;
  _ ← check (bool_decide (o = Some 11));
  _ ← ThreadCached.clear th;
  o ← ThreadCached.get th;
  _ ← check (bool_decide (o = None));
  x ← ThreadCached.get_or_init th (fun s => (Ret 13, s));
  check (bool_decide (x = 13)).

(** ** [sync/scoped/partition/] *)

Section drivers.
Context `{ProgramText} (env : call_env).

Definition partition_map_example : C unit :=
  brand_scope_ (fun token =>
    cells ← cells_new token usize 8 0;
    written ← on_cells cells (partition_map env (Slice 0 8) 4 (fun start len =>
                fill_shard (fun j => uadd start j) len len));
    n ← pure_ (iter_sum written);
    _ ← assert_eq n 8;
    snap ← share_token token;
    _ ← mapM (fun k => x ← read_cell snap cells k; assert_eq x k) (zseq 8);
    mret ()).

Definition partition_for_each_example : C unit :=
  brand_scope_ (fun token =>
    cells ← cells_new token usize 8 0;
    _ ← on_cells cells (partition_for_each_with env (Slice 0 8) (chunk_size 2) (fun start len =>
          fill_shard (fun j => uadd start j) len 0));
    snap ← share_token token;
    _ ← mapM (fun k => x ← read_cell snap cells k; assert_eq x k) (zseq 8);
    mret ()).
End drivers.

(** The program text of the example in [executor.rs]: [Sequentially] alone. *)
Definition sequentially_text : ProgramText := fun _ => Sequentially.
Definition register_example (slot : Z) : Z := register_parallel_executor 1 slot.

Definition accepted_examples : list (C unit) :=
  [quick_start; map_split_example; cow_example; atomic_example; map_example; map_mut_example;
   brand_scope_example; nested_scopes; scope_exclusive_example 2; sync_region_example;
   thread_local_example; shard_lifecycle; par_chunks_example].
Definition partition_examples `{ProgramText} (env : call_env) : list (C unit) :=
  [partition_map_example env; partition_for_each_example env].
Definition rejected_examples : list (C unit) := [reads_while_writing; brands_mix; thread_local_is_sent].
End doc_tests.

(** The program ends as it should and leaves nothing behind. *)
Definition passes (p : C unit) : bool :=
  match p start with
  | Some (Ret (), s) =>
      bool_decide (tokens (machine (am s)) = ∅) && bool_decide (holders (machine (am s)) = ∅) &&
      bool_decide (cells (machine (am s)) = ∅) && bool_decide (types (am s) = ∅)
  | _ => false
  end.
Definition rejected (p : C unit) : bool := match p start with None => true | Some _ => false end.

(** ** Properties *)

(** Every accepted example ends with its assertions satisfied and leaves no token,
    borrow, cell or atomic, in both build profiles; those of the partition drivers
    do so on scoped threads, on an executor that runs its tasks backwards and on
    the documented [Sequentially]; every [compile_fail] example is rejected. *)
Theorem doc_tests_pass (profile : BuildProfile) :
  forallb passes accepted_examples = true /\
  Forall (fun env => forallb passes (partition_examples env) = true) [scoped_env; registered_env] /\
  forallb passes (@partition_examples _ sequentially_text
    (mkEnv (register_example initial_slot) (fun n => zseq n) None)) = true /\
  forallb rejected rejected_examples = true.
Proof. rewrite !Forall_cons, Forall_nil. destruct profile; by vm_compute. Qed.

(** The examples of the gates, the per-thread cache and the generated vector: the
    gate's closure returns 7, its nested [enter] is refused, and afterwards the
    gate is idle and the brand gone; the guarded cell holds what its first closure
    stored and is idle; the cache ends with the second initialiser's value; and the
    squares add up whatever the allocator does, if it can hold them. *)
Theorem state_doc_tests_pass (profile : BuildProfile) :
  (exists m, gate_example = Some (Ret 7, m) /\ stacks m !! main_thread = Some [] /\
     gate_is_active 1 m = Some false /\ tokens (base m) = ∅ /\ holders (base m) = ∅ /\ cells (base m) = ∅) /\
  (exists s, Reentrant.run (guarded_example 1) (GuardedCell_new 1 0 (mkGates ∅ ∅ ∅ 1)) = (Ret 0, s) /\
     Reentrant.into_inner 1 s = 41 /\ armed s = ∅ /\ live s = ∅) /\
  (exists s, thread_cached_example main_thread (mkTls ∅ 0) = (Ret (), s) /\
     ThreadCached.cell_get main_thread s = Some 13) /\
  (forall (A : Allocator) (values : BrandedVec.store Z Z), AllocatorOk -> 8 <= max_len ->
     with_generated_example values = Ret ()).
Proof.
  split_and!.
  - eexists. split; [vm_compute; reflexivity|]. split_and!; reflexivity.
  - eexists. split; [destruct profile; vm_compute; reflexivity|]. split_and!; reflexivity.
  - eexists. split; [vm_compute; reflexivity|]. reflexivity.
  - intros A values Hok Hmax. unfold with_generated_example, BrandedVec.with_generated. rewrite M_bind_eq.
    destruct (from_fn_builds 8 (fun index n => (umul index index, n))
      (fun s => (iter_sum (BrandedVec.elems s), s)) values Hok ltac:(lia)) as [Hb _].
    destruct (Hb Hmax) as (-> & _). destruct profile; reflexivity.
Qed.
