(* ===== verification/BuildScript.v ===== *)
(** * The build script ([src/build.rs])

    What the build script prints to Cargo, as a function of the environment and
    of the compiler it runs.  The compiler is a parameter: a command that cannot
    be started, or one that ends with a status and the text of its standard
    output.  Texts are strings of bytes; the patterns the script looks for are
    ASCII, so the lossy decoding of the output, which only touches invalid UTF-8,
    does not matter to them and is left out.

    Main result: the cfgs are switched on exactly by a line of the output that
    names a nightly release, the feature and [docs.rs], and by nothing when the
    compiler could not be run. *)
From S2P Require Import Prelude.
From stdpp Require Import base sets list strings.
From Stdlib Require Import Ascii.
Local Open Scope string_scope.

(** ** Strings *)

Definition newline : ascii := "010"%char.
Definition carriage_return : ascii := "013"%char.

Definition strip_prefix (p s : string) : option string :=
  if String.prefix p s then Some (String.substring (String.length p) (String.length s - String.length p) s)
  else None.

Fixpoint contains (p s : string) : bool :=
  String.prefix p s || match s with EmptyString => false | String _ s => contains p s end.

(** [line] without one [\r] at its end. *)
Fixpoint strip_cr (line : string) : string :=
  match line with
  | EmptyString => EmptyString
  | String c EmptyString => if decide (c = carriage_return) then EmptyString else line
  | String c line => String c (strip_cr line)
  end.

(** [str::lines]: a line ends with [\n], or [\r\n], or the text; a last line that
    is empty is no line.  [line] is what has been read of the current one. *)
Fixpoint lines_from (line s : string) : list string :=
  match s with
  | EmptyString => match line with EmptyString => [] | _ => [line] end
  | String c s =>
      if decide (c = newline) then strip_cr line :: lines_from EmptyString s
      else lines_from (line +:+ String c EmptyString) s
  end.
Definition lines (s : string) : list string := lines_from EmptyString s.

(** ** The script *)

Record environment : Type := mkEnv {
  CARGO_FEATURE_NIGHTLY : option string;
  CARGO_CFG_DOCSRS : option string;
  RUSTC : option string
}.

(** The command [rustc -vV]: not started, or its success and its output. *)
Definition command : Type := string -> option (bool * string).

Definition prelude_lines : list string :=
  ["cargo:rustc-check-cfg=cfg(doc_cfg_active)"; "cargo:rustc-check-cfg=cfg(nightly_tls_active)";
   "cargo:rerun-if-changed=build.rs"].

Definition is_nightly_line (line : string) : bool :=
  match strip_prefix "release: " line with
  | Some release => contains "nightly" release
  | None => false
  end.

Definition main (env : environment) (run : command) : list string :=
  let is_nightly_feature := bool_decide (is_Some (CARGO_FEATURE_NIGHTLY env)) in
  let is_docsrs := bool_decide (is_Some (CARGO_CFG_DOCSRS env)) in
  let rustc := default "rustc" (RUSTC env) in
  prelude_lines ++
  match run rustc with
  | None => []
  | Some (false, _) => []
  | Some (true, version) =>
      let is_nightly_compiler := existsb is_nightly_line (lines version) in
      (if (is_nightly_compiler && is_nightly_feature) || is_docsrs
       then ["cargo:rustc-cfg=doc_cfg_active"] else []) ++
      (if is_nightly_compiler then ["cargo:rustc-cfg=nightly_tls_active"] else [])
  end.

(** ** Lemmas: strings *)

Lemma prefix_spec p s : String.prefix p s = true <-> exists t, s = p +:+ t.
Proof.
  revert s. induction p as [|a p IH]; intros s.
  { split; [intros _; by exists s|]. intros _. by destruct s. }
  destruct s as [|b s]; [by split; [|intros [t [=]]]|].
  change (String.prefix (String a p) (String b s))
    with (if ascii_dec a b then String.prefix p s else false).
  destruct (ascii_dec a b) as [->|Hne].
  - rewrite IH. split; intros [t Ht]; exists t; [by subst|].
    change (String b s = String b (p +:+ t)) in Ht. by injection Ht.
  - split; [done|]. intros [t Ht]. change (String b s = String a (p +:+ t)) in Ht. congruence.
Qed.

Lemma substring_all s : String.substring 0 (String.length s) s = s.
Proof. induction s as [|a s IH]; cbn; [done|]. by rewrite IH. Qed.

Lemma strip_prefix_spec p s t : strip_prefix p s = Some t <-> s = p +:+ t.
Proof.
  assert (forall t, String.substring (String.length p) (String.length (p +:+ t) - String.length p) (p +:+ t) = t)
    as Hsub.
  { clear. intros t. induction p as [|a p IH]; cbn.
    - rewrite Nat.sub_0_r. apply substring_all.
    - exact IH. }
  unfold strip_prefix. destruct (String.prefix p s) eqn:E.
  - apply prefix_spec in E as [u ->]. rewrite Hsub. split; [by intros [= ->]|].
    intros Heq. f_equal. apply (f_equal (String.substring (String.length p)
      (String.length (p +:+ u) - String.length p))) in Heq as Hs. rewrite Hsub in Hs.
    rewrite Heq in Hs. by rewrite Hsub in Hs.
  - split; [done|]. intros ->. by rewrite (proj2 (prefix_spec p _)) in E by (by exists t).
Qed.

Lemma contains_spec p s : contains p s = true <-> exists x y, s = x +:+ p +:+ y.
Proof.
  induction s as [|a s IH]; cbn -[String.prefix]; rewrite orb_true_iff, prefix_spec.
  - split; [|intros (x & y & E)].
    + intros [[t Ht]|]; [by exists "", t|done].
    + left. destruct x; [by exists y|done].
  - rewrite IH. split.
    + intros [[t Ht]|(x & y & ->)]; [by exists "", t|by exists (String a x), y].
    + intros ([|b x] & y & E); [left; by exists y|right]. injection E as -> ->. by exists x, y.
Qed.

(** A line without a line break in it, nor a [\r] at its end. *)
Fixpoint plain_line (s : string) : bool :=
  match s with
  | EmptyString => true
  | String c s => bool_decide (c <> newline) && bool_decide (c <> carriage_return) && plain_line s
  end.

(** The text made of lines. *)
Definition unlines (ls : list string) : string :=
  foldr (fun l s => l +:+ String newline s) EmptyString ls.

Lemma strip_cr_plain s : plain_line s = true -> strip_cr s = s.
Proof.
  induction s as [|c s IH]; [done|]. cbn [plain_line strip_cr].
  intros [[Hn Hr]%andb_true_iff Hs]%andb_true_iff. apply bool_decide_eq_true in Hn, Hr.
  destruct s as [|b s]; [by rewrite decide_False|by rewrite IH].
Qed.

Lemma lines_from_newline line s :
  lines_from line (String newline s) = strip_cr line :: lines_from "" s.
Proof. done. Qed.

Lemma lines_from_char line c s :
  c <> newline -> lines_from line (String c s) = lines_from (line +:+ String c "") s.
Proof. intros Hc. cbn [lines_from]. by rewrite decide_False. Qed.

Lemma append_nil s : s +:+ "" = s.
Proof. induction s as [|a s IH]; [done|]. change (String a (s +:+ "") = String a s). by rewrite IH. Qed.

Lemma append_assoc s1 s2 s3 : (s1 +:+ s2) +:+ s3 = s1 +:+ s2 +:+ s3.
Proof.
  induction s1 as [|a s1 IH]; [done|].
  change (String a ((s1 +:+ s2) +:+ s3) = String a (s1 +:+ s2 +:+ s3)). by rewrite IH.
Qed.

Lemma lines_from_line l line s :
  plain_line l = true -> lines_from line (l +:+ String newline s) = strip_cr (line +:+ l) :: lines_from "" s.
Proof.
  revert line. induction l as [|c l IH]; intros line Hl.
  - rewrite append_nil. apply lines_from_newline.
  - cbn [plain_line] in Hl. apply andb_true_iff in Hl as [[Hn _]%andb_true_iff Hl].
    apply bool_decide_eq_true in Hn.
    change (String c l +:+ String newline s) with (String c (l +:+ String newline s)).
    rewrite lines_from_char by done. rewrite IH by done. by rewrite append_assoc.
Qed.

Lemma lines_unlines ls : forallb plain_line ls = true -> lines (unlines ls) = ls.
Proof.
  unfold lines. induction ls as [|l ls IH]; [done|]. cbn [forallb unlines foldr].
  intros [Hl Hls]%andb_true_iff. rewrite lines_from_line by done.
  change ("" +:+ l) with l. rewrite strip_cr_plain by done. f_equal. by apply IH.
Qed.

(** ** Properties *)

(** The line names a nightly release. *)
Definition names_nightly (line : string) : Prop :=
  exists x y, line = "release: " +:+ x +:+ "nightly" +:+ y.

Lemma is_nightly_line_spec line : is_nightly_line line = true <-> names_nightly line.
Proof.
  unfold is_nightly_line, names_nightly. destruct (strip_prefix _ line) as [r|] eqn:E.
  - apply strip_prefix_spec in E as ->. rewrite contains_spec. split.
    + intros (x & y & ->). by exists x, y.
    + intros (x & y & Heq). exists x, y. by injection Heq.
  - split; [done|]. intros (x & y & Heq). apply strip_prefix_spec in Heq. congruence.
Qed.

(** The build script switches [nightly_tls_active] on exactly when the compiler
    runs and a line of its output names a nightly release, and [doc_cfg_active]
    exactly when the compiler runs and it is a nightly one with the feature on, or
    the build is for docs.rs; whatever happens it declares both cfgs first. *)
Theorem build_script_cfgs (env : environment) (run : command) (ls : list string) (ok : bool)
    (rustc := default "rustc" (RUSTC env)) :
  forallb plain_line ls = true ->
  (run rustc = None -> main env run = prelude_lines) /\
  (run rustc = Some (ok, unlines ls) ->
     exists cfgs, main env run = (prelude_lines ++ cfgs)%list /\
       ("cargo:rustc-cfg=nightly_tls_active" ∈ cfgs <-> ok = true /\ Exists names_nightly ls) /\
       ("cargo:rustc-cfg=doc_cfg_active" ∈ cfgs <->
          ok = true /\ ((Exists names_nightly ls /\ is_Some (CARGO_FEATURE_NIGHTLY env)) \/
                        is_Some (CARGO_CFG_DOCSRS env))) /\
       cfgs ⊆ ["cargo:rustc-cfg=doc_cfg_active"; "cargo:rustc-cfg=nightly_tls_active"]).
Proof.
  intros Hls. unfold main. fold rustc. split; [by intros ->|]. intros ->.
  eexists. split; [done|]. destruct ok; [|set_solver]. rewrite lines_unlines by done.
  assert (existsb is_nightly_line ls = true <-> Exists names_nightly ls) as Hn.
  { rewrite existsb_exists, Exists_exists. setoid_rewrite is_nightly_line_spec.
    by setoid_rewrite list_elem_of_In. }
  rewrite <- Hn. destruct (existsb _ ls), (bool_decide_reflect (is_Some (CARGO_FEATURE_NIGHTLY env))),
    (bool_decide_reflect (is_Some (CARGO_CFG_DOCSRS env))); cbn; set_solver.
Qed.

Lemma build_script_cfgs_witness :
  exists cfgs, main (mkEnv None None None)
    (fun _ => Some (true, unlines ["rustc 1.90.0-nightly"; "release: 1.90.0-nightly"])) = (prelude_lines ++ cfgs)%list /\
    "cargo:rustc-cfg=nightly_tls_active" ∈ cfgs /\ ~ "cargo:rustc-cfg=doc_cfg_active" ∈ cfgs.
Proof.
  destruct (build_script_cfgs (mkEnv None None None)
    (fun _ => Some (true, unlines ["rustc 1.90.0-nightly"; "release: 1.90.0-nightly"]))
    ["rustc 1.90.0-nightly"; "release: 1.90.0-nightly"] true eq_refl) as [_ H].
  destruct (H eq_refl) as (cfgs & E & Hn & Hd & _). exists cfgs. split; [exact E|]. split.
  - apply Hn. split; [reflexivity|]. apply Exists_exists. exists "release: 1.90.0-nightly". split; [set_solver|].
    exists "1.90.0-", "". reflexivity.
  - intros [_ [[_ [? [=]]]|[? [=]]]]%Hd.
Defined.
